(* ===== verification/_CoqProject ===== *)
-Q . S2P
Prelude.v
Program.v
StdList.v
Double.v
Json.v
CppString.v
RateLimiter.v
Cache.v
Validation.v
Auth.v
Metrics.v
PasswordGenerator.v
Paths.v
Config.v
Ownership.v
Backend.v
MaxMind.v
MacDatabase.v
Services.v
Http.v
PasswordHandler.v
HttpServer.v
Requests.v
Answers.v
EndPoints.v
Concurrent.v
Quota.v
Logger.v
Lifecycle.v
Application.v
