(* ===== verification/Prelude.v ===== *)
(** * Verification of ip_server

    ip_server answers HTTP requests about IP addresses (from two MaxMind
    databases) and MAC addresses (from a SQLite database of vendors), and
    generates passwords.  This library models its code under src/src/ and
    proves what it promises.

    ** The program

    [main] (main.cpp) parses the command line and the JSON configuration,
    starts the log, keeps the configuration of a first start, and runs the
    application: the two lookup services, each a cache in front of its
    databases, and the HTTP server with the handlers that call them.  A request
    to a lookup end point passes a gate (API key, client address, rate limit),
    is answered by a service, and is counted by the metrics; the password end
    points go straight to the generator.  Requests are served by many threads,
    a batch of more than ten by a thread per item besides, and one more thread
    sweeps the rate limiter every five minutes.

    ** The files and what they model

    - Prelude.v (this file), Program.v: the language.  A C++ integer is a [Z]
      with the reduction of its type written out; a call is an [exec] (a
      value, an exception, undefined behaviour, no end), a call with effects
      an [M], and a thread a [prog], a tree of atomic steps.
    - StdList.v: [std::list] with iterators, and the map-and-list LRU index
      that the cache and the limiter share.  Double.v: binary64.
      CppString.v: [std::string], character classes, number parsing.
    - Json.v: nlohmann::json, by its interface.
    - RateLimiter.v: rate_limiter.h, .cpp.  Cache.v: cache.h.
      Metrics.v: metrics.h, .cpp.  Auth.v: auth.h, .cpp.
      Validation.v: validation.h, .cpp.
      PasswordGenerator.v: password_generator.h, .cpp.
    - Paths.v: paths.h, .cpp.  Config.v: config.h, .cpp.
      Logger.v: logger.h, .cpp, and the signal handler of main.cpp.
    - Ownership.v: what an owner of library handles promises.  Backend.v: what
      a service expects of a database.  MaxMind.v: database/*.
      MacDatabase.v: mac_database.h, .cpp.
    - Services.v: service/*, and [LookupResult] of types.h.
    - Http.v: requests, responses and the shared state [world], with the
      helpers of password_handler.h.  PasswordHandler.v: password_handler.cpp.
      HttpServer.v: http_server.h, .cpp: construction, gate, handlers, routes.
    - Requests.v, Answers.v, EndPoints.v: the handlers among other threads.
      Concurrent.v: the server as a pool of threads under a scheduler.
      Quota.v: the limiter as a client of the whole server meets it.
    - Lifecycle.v: [start] of http_server.cpp from the creation of its threads
      on, with [start_server_and_wait] and [cleanup_thread_func].
      Application.v: main.cpp, and the check at the beginning of [start].

    Definitions carry the names of the code; a class is a Module with its
    state as the Record [t] and one definition per method.  Every method that
    holds a mutex for all of its effect is one atomic step; where the code
    does more than one thing to shared state ([record_request], [get_stats],
    the [get] and the [put] of a lookup), the model takes as many steps.
    Every reading of a clock is a step or an argument of its own.

    ** What is shown

    - The whole: Application.v (every request to the assembled program gets the
      answer its route is due, computed from the databases at the configured
      paths, under every interleaving; the exit status; a first start keeps its
      configuration; what a broken configuration file leads to), Concurrent.v
      (the same for any services, and that every request is answered in the end
      under a fair scheduler), Quota.v (no client gets more than its quota of
      lookups in a window), Lifecycle.v
      (shutting down ends, if the server listens when the grace period is over,
      and need not end otherwise).
    - The end points, alone: HttpServer.v and PasswordHandler.v give the answer
      and all effects of a handler that no other thread disturbs.
    - The components: the limiter and the shard refine an association list in
      recency order, decide by the exact history, and never use a dangling
      iterator, and a sweep of the limiter changes no answer as long as it has
      a record for every address (beyond that it can change which record is
      evicted: [cleanup_can_change_eviction]); the cache gives back what was
      last put, within its budget and time to live, and counts its hits and
      misses; the metrics are those of the last minute; accepted keys and MAC
      addresses are exactly those of their formats, configurations those within
      the limits whose databases can be looked for; databases answer on every
      path and release every handle once; the generator's passwords are good,
      from any engine.

    The theorems about one thread among others say nothing of the others but
    that they keep the invariant [server_ok]; Concurrent.v closes the circle,
    since every thread does.

    ** Parameters and hypotheses

    Code that is not in the repository is a parameter, by its interface; what
    is relied on is a class of laws, and each has a concrete instance on which
    the witnesses run:
    nlohmann::json ([JsonOps]; [JsonLaws], [JsonPrints]; that [dump] and
    [parse] return or throw), OpenSSL's SHA-256 ([Digest]: its output is 32
    bytes; collisions are not excluded), [inet_pton] and [getaddrinfo]
    ([Resolver]), [std::log2] ([Libm]), the random engine ([Rng]: any engine
    within the standard's promises), cxxopts ([Options]: values of the declared
    types; that they are got or refused by an exception), the file system and
    the environment ([FileSystem], [Environment]: [exists] answers or throws,
    and an output stream makes no path unreadable that was not),
    spdlog ([Spdlog]; where it is said, that its calls return or throw),
    libmaxminddb ([MaxMindLib], with the types of the GeoLite2 schema) and
    SQLite ([Sqlite]).  Of cpp-httplib, Lifecycle.v uses what [listen] and
    [stop] do; that [listen] is quick enough for the grace period is the
    parameter [prompt] of its steps.
    The clock is a function of the number of readings before; that it does not
    run backwards is assumed where needed (it is a steady clock).  The order in
    which all threads take their steps is that of the events of an execution,
    the one among the threads of a batch ([Async]) comes with the request; both
    are arbitrary, and fairness is assumed for liveness only.

    ** Loops

    Recursion is structural, on the list or the number the loop goes through,
    except for [evict_if_needed] of Cache.v, which is given as much fuel as the
    shard has entries, and one: each round removes one, and [evict_refines]
    shows that it returns.  No handler ends in [OutOfFuel], by Requests.v.

    ** Not modelled

    - cpp-httplib: sockets, the parsing of requests, HEAD requests, its queue
      of workers (each request has a thread here), the status 500 for an
      exception that leaves a handler.
    - What is only written to the log: the LOG_ macros, and when the banner is
      logged.
    - The exhaustion of memory and of threads: [std::bad_alloc], and the
      [std::system_error] of [std::async], [std::thread] and [std::jthread]
      when no thread can be started.
    - How the engine is seeded, and that each thread has one of its own: the
      theorems hold for every state of the engine, so one engine that all
      threads share is the more general case.
    - SQLite's pragmas; the rows of a read-only database do not depend on them.
    - [GET /health] reads the statistics of the caches at one moment instead of
      shard by shard; no theorem speaks of their values there (Cache.v does).

    ** What could follow

    The quota for the assembled program and its configured limit; requests in
    flight during the shutdown of Lifecycle.v; the counters of the metrics
    under interleaving. *)
From Stdlib Require Import ZArith Lia.
From stdpp Require Export base gmap strings list fin_maps sorting.
#[export] Set Default Goal Selector "!".

(** ** Machine integers

    A C++ integer is a [Z]; arithmetic that can leave the range of its type
    is followed by the reduction of that type. *)
Definition u64_max : Z := 18446744073709551615.
Definition u64 (z : Z) : Z := (z mod 18446744073709551616)%Z.
Definition u16 (z : Z) : Z := (z mod 65536)%Z.
Definition i32 (z : Z) : Z := ((z + 2147483648) mod 4294967296 - 2147483648)%Z.
Definition i64 (z : Z) : Z :=
  ((z + 9223372036854775808) mod 18446744073709551616 - 9223372036854775808)%Z.

Definition is_i32 (z : Z) : Prop := (-2147483648 ≤ z ≤ 2147483647)%Z.
Definition is_u64 (z : Z) : Prop := (0 ≤ z ≤ u64_max)%Z.

(** ** Results of C++ code

    A call returns, throws an exception of the C++ hierarchy (only the
    distinctions the handlers make are kept), has undefined behaviour, or,
    for a loop modelled with fuel, runs out of it. *)
Inductive cpp_exn :=
| json_exception (what : string)     (* nlohmann::json::exception *)
| invalid_argument (what : string)   (* std::invalid_argument *)
| out_of_range (what : string)       (* std::out_of_range *)
| runtime_error (what : string)      (* std::runtime_error *)
| options_exception (what : string)  (* cxxopts::exceptions::exception *)
| other_exception (what : string).   (* any other std::exception *)

Definition exn_what (e : cpp_exn) : string :=
  match e with
  | json_exception w | invalid_argument w | out_of_range w
  | runtime_error w | options_exception w | other_exception w => w
  end.

Inductive exec (A : Type) :=
| Ret (a : A)
| Throw (e : cpp_exn)
| Undefined
| OutOfFuel.
Arguments Ret {A} a.
Arguments Throw {A} e.
Arguments Undefined {A}.
Arguments OutOfFuel {A}.

#[export] Instance exec_ret : MRet exec := λ A a, Ret a.
#[export] Instance exec_bind : MBind exec := λ A B f m,
  match m with
  | Ret a => f a
  | Throw e => Throw e
  | Undefined => Undefined
  | OutOfFuel => OutOfFuel
  end.
#[export] Instance exec_fmap : FMap exec := λ A B f m,
  match m with
  | Ret a => Ret (f a)
  | Throw e => Throw e
  | Undefined => Undefined
  | OutOfFuel => OutOfFuel
  end.

(** Calls that change a state of type [W]: what was changed before an
    exception stays changed. *)
Definition M (W A : Type) : Type := W → exec A * W.

#[export] Instance M_ret {W} : MRet (M W) := λ A a w, (Ret a, w).
#[export] Instance M_bind {W} : MBind (M W) := λ A B f m w,
  match m w with
  | (Ret a, w') => f a w'
  | (Throw e, w') => (Throw e, w')
  | (Undefined, w') => (Undefined, w')
  | (OutOfFuel, w') => (OutOfFuel, w')
  end.

(** A call that leaves the state alone, one that reads it, and one on a part
    of it. *)
Definition pure {W A} (m : exec A) : M W A := λ w, (m, w).
Definition reads {W A} (m : W → exec A) : M W A := λ w, (m w, w).
Definition throw {W A} (e : cpp_exn) : M W A := λ w, (Throw e, w).
Definition zoom {W V A} (get : W → V) (put : V → W → W) (m : M V A) : M W A := λ w,
  let '(r, v) := m (get w) in (r, put v w).

(** [try { m } catch (const std::exception& e) { h(e) }] *)
Definition try_catch {W A} (m : M W A) (h : cpp_exn → M W A) : M W A := λ w,
  match m w with
  | (Throw e, w') => h e w'
  | r => r
  end.

(** Dereferencing a pointer or iterator that may be invalid. *)
Definition deref {A} (o : option A) : exec A :=
  match o with Some a => Ret a | None => Undefined end.

(** The call neither has undefined behaviour nor fails to terminate. *)
Definition safe {A} (m : exec A) : Prop :=
  match m with Ret _ | Throw _ => True | Undefined | OutOfFuel => False end.

(** ** Duration and clock units: a time point is a number of nanoseconds. *)
Definition ns_per_s : Z := 1000000000.
Definition seconds (s : Z) : Z := (s * ns_per_s)%Z.

(** ** Automation *)
Create HintDb cpp discriminated.
Create HintDb u64.

Ltac inv_exec H :=
  match type of H with
  | mbind _ ?m = Ret _ => let E := fresh "E" in
      destruct m eqn:E; [simpl in H | discriminate H ..]
  | fmap _ ?m = Ret _ => let E := fresh "E" in
      destruct m eqn:E; [simpl in H | discriminate H ..]
  end.

(** ** Generic lemmas *)
Lemma exec_bind_Ret {A B} (m : exec A) (f : A → exec B) b :
  m ≫= f = Ret b ↔ (∃ a : A, m = Ret a ∧ f a = Ret b).
Proof.
  destruct m; simpl; split; try (intros (? & ? & ?); simplify_eq; done); eauto; done.
Qed.

Lemma safe_bind {A B} (m : exec A) (f : A → exec B) : safe m → (∀ a, m = Ret a → safe (f a)) → safe (m ≫= f).
Proof. destruct m; simpl; auto. Qed.

Lemma safe_fmap {A B} (m : exec A) (f : A → B) : safe m → safe (f <$> m).
Proof. by destruct m. Qed.

Lemma exec_bind_assoc {A B C} (m : exec A) (f : A → exec B) (g : B → exec C) :
  (m ≫= f) ≫= g = m ≫= (λ a, f a ≫= g).
Proof. by destruct m. Qed.

Lemma u64_range z : is_u64 (u64 z).
Proof. unfold is_u64, u64, u64_max. pose proof (Z.mod_pos_bound z 18446744073709551616). lia. Qed.

Lemma u64_small z : is_u64 z → u64 z = z.
Proof. unfold is_u64, u64, u64_max. intros. apply Z.mod_small. lia. Qed.

Lemma u64_idemp z : u64 (u64 z) = u64 z.
Proof. apply u64_small, u64_range. Qed.

Lemma u64_add_l a b : u64 (u64 a + b) = u64 (a + b).
Proof. unfold u64. by rewrite Zplus_mod_idemp_l. Qed.
Lemma u64_add_r a b : u64 (a + u64 b) = u64 (a + b).
Proof. unfold u64. by rewrite Zplus_mod_idemp_r. Qed.
Lemma u64_sub_l a b : u64 (u64 a - b) = u64 (a - b).
Proof. unfold u64. by rewrite Zminus_mod_idemp_l. Qed.
Lemma u64_sub_r a b : u64 (a - u64 b) = u64 (a - b).
Proof. unfold u64. by rewrite Zminus_mod_idemp_r. Qed.

Lemma i32_small z : is_i32 z → i32 z = z.
Proof. unfold is_i32, i32. intros. rewrite Z.mod_small; lia. Qed.

Lemma i32_range z : is_i32 (i32 z).
Proof. unfold is_i32, i32. pose proof (Z.mod_pos_bound (z + 2147483648) 4294967296). lia. Qed.

Lemma u16_range z : (0 ≤ u16 z < 65536)%Z.
Proof. unfold u16. apply Z.mod_pos_bound. lia. Qed.

#[export] Hint Resolve u64_range i32_range u16_range : cpp.
#[export] Hint Rewrite u64_idemp u64_add_l u64_add_r u64_sub_l u64_sub_r : u64.

Lemma NoDup_fst_inj {A B} (l : list (A * B)) a b1 b2 :
  NoDup l.*1 → (a, b1) ∈ l → (a, b2) ∈ l → b1 = b2.
Proof.
  induction l as [|[x y] l IH]; simpl; [by intros ? ?%elem_of_nil|].
  intros [Hx Hl]%NoDup_cons. rewrite !elem_of_cons.
  intros [?|H1] [?|H2]; simplify_eq; auto.
  - destruct Hx. apply list_elem_of_fmap. eexists (_, b2). done.
  - destruct Hx. apply list_elem_of_fmap. eexists (_, b1). done.
Qed.

Lemma sum_list_with_perm {A} (f : A → Z) (l1 l2 : list A) :
  l1 ≡ₚ l2 → foldr (λ x acc, f x + acc)%Z 0%Z l1 = foldr (λ x acc, f x + acc)%Z 0%Z l2.
Proof. induction 1; simpl; lia. Qed.

Lemma filter_all_id {A} (P : A → Prop) `{∀ x, Decision (P x)} (l : list A) :
  Forall P l → filter P l = l.
Proof. induction 1; [done|]. rewrite filter_cons_True by done. by f_equal. Qed.
