(* ===== verification/Program.v ===== *)
(** * Programs as sequences of atomic steps

    A thread of the server is a tree: it is done, or its next step is an
    action on the state that no other thread can divide, and what it does next
    depends on the outcome.  [run] takes the steps one after the other;
    [gather] takes those of several threads, and of the one that waits for
    them, in the order of a schedule.  [stable] and [wp] say
    what a program ends with when any other thread may run between two of its
    steps, as long as all keep the invariant [P]; [wp] is for a state with a part of the thread's own.  [staged] has an invariant
    that moves with the steps, [steps] relates each step to the state before
    it, and [owes] says what a thread must have done when it ends. *)
From S2P Require Import Prelude.

Inductive prog (W A : Type) : Type :=
| Done (r : exec A)
| Act (B : Type) (f : M W B) (k : exec B → prog W A).
Arguments Done {W A} r.
Arguments Act {W A B} f k.

Definition atomic {W A} (f : M W A) : prog W A := Act f Done.

(** A computation of the thread alone. *)
Definition lift {W A} (m : exec A) : prog W A := Done m.

Fixpoint and_then {W A B} (k : A → prog W B) (m : prog W A) : prog W B :=
  match m with
  | Done (Ret a) => k a
  | Done (Throw e) => Done (Throw e)
  | Done Undefined => Done Undefined
  | Done OutOfFuel => Done OutOfFuel
  | Act f c => Act f (λ r, and_then k (c r))
  end.

#[export] Instance prog_ret {W} : MRet (prog W) := λ A a, Done (Ret a).
#[export] Instance prog_bind {W} : MBind (prog W) := λ A B, and_then.

(** [try { m } catch (const std::exception& e) { h(e) }] *)
Fixpoint attempt {W A} (m : prog W A) (h : cpp_exn → prog W A) : prog W A :=
  match m with
  | Done (Throw e) => h e
  | Done r => Done r
  | Act f c => Act f (λ r, attempt (c r) h)
  end.

Fixpoint run {W A} (m : prog W A) (w : W) : exec A * W :=
  match m with
  | Done r => (r, w)
  | Act f k => let '(r, w') := f w in run (k r) w'
  end.
Coercion run : prog >-> Funclass.

(** A program on the shared state, run by a thread with a state of its own. *)
Fixpoint shared {S L A} (m : prog S A) : prog (S * L) A :=
  match m with
  | Done r => Done r
  | Act f k => Act (λ s, let '(r, w) := f s.1 in (r, (w, s.2))) (λ r, shared (k r))
  end.

(** The outcome of a program, exceptions included, as a value. *)
Fixpoint observe {W A} (m : prog W A) : prog W (exec A) :=
  match m with
  | Done r => Done (Ret r)
  | Act f k => Act f (λ r, observe (k r))
  end.

(** ** Several threads *)
Fixpoint complete {W A} (tasks : list (prog W A)) : prog W (list (exec A)) :=
  match tasks with
  | [] => mret []
  | task :: tasks' => r ← observe task; rs ← complete tasks'; mret (r :: rs)
  end.

(** The thread that started the tasks takes their outcomes one after the
    other, and does [body] with each. *)
Definition join {W A B} (body : B → exec A → prog W B) (m : prog W B) (outcomes : list (exec A)) : prog W B :=
  fold_left (λ m r, b ← m; body b r) outcomes m.

(** The steps of the tasks, and of the thread [m] that has taken the outcomes
    of [n] of them and waits for the next to end, in the order of the schedule
    (any number that is not one of a task stands for that thread); then what
    is left of the tasks, in turn, and of the thread.  Every way to run them
    to their ends is the one of a schedule. *)
Fixpoint gather {W A B} (body : B → exec A → prog W B) (tasks : list (prog W A)) (m : prog W B) (n : nat)
    (schedule : list nat) : prog W B :=
  match schedule with
  | [] => outcomes ← complete tasks; join body m (drop n outcomes)
  | i :: schedule' =>
      match tasks !! i with
      | Some (Act f k) => Act f (λ r, gather body (<[i := k r]> tasks) m n schedule')
      | Some (Done _) => gather body tasks m n schedule'
      | None =>
          match m, tasks !! n with
          | Act f k, _ => Act f (λ r, gather body tasks (k r) n schedule')
          | Done (Ret b), Some (Done r) => gather body tasks (body b r) (S n) schedule'
          | Done _, _ => gather body tasks m n schedule'
          end
      end
  end.

(** ** What holds at the end, whatever other threads do in between *)
Fixpoint stable {W A} (P : W → Prop) (m : prog W A) (Q : exec A → Prop) : Prop :=
  match m with
  | Done r => Q r
  | Act f k => ∀ w, P w → let '(r, w') := f w in P w' ∧ stable P (k r) Q
  end.

Fixpoint wp {S L A} (P : S → Prop) (m : prog (S * L) A) (Q : exec A → L → Prop) (l : L) : Prop :=
  match m with
  | Done r => Q r l
  | Act f k => ∀ w, P w → let '(r, (w', l')) := f (w, l) in P w' ∧ wp P (k r) Q l'
  end.

(** The invariant may move from stage to stage with the steps. *)
Fixpoint staged {W A} (P : nat → W → Prop) (m : prog W A) (Q : nat → exec A → Prop) (n : nat) : Prop :=
  match m with
  | Done r => Q n r
  | Act f k => ∀ w, P n w → let '(r, w') := f w in ∃ n', P n' w' ∧ staged P (k r) Q n'
  end.

(** A postcondition on what is returned; exceptions are allowed. *)
Definition returns {A} (Q : A → Prop) (r : exec A) : Prop :=
  match r with Ret a => Q a | Throw _ => True | Undefined | OutOfFuel => False end.

(** From any state of [P], the thread leaves every step in [P], and what it
    returns satisfies [Q]. *)
Definition holds {W A} (P : W → Prop) (Q : A → Prop) (m : prog W A) : Prop := stable P m (returns Q).
Definition keeps {S L A} (P : S → Prop) (Q : A → Prop) (m : prog (S * L) A) : Prop :=
  ∀ l, wp P m (λ r _, returns Q r) l.

(** ** What each step does, and what a thread has to do before it ends *)

(** Every step of the program, whatever the other threads do and whatever the
    steps before it returned, is related to the state it is taken in. *)
Fixpoint steps {W A} (R : W → W → Prop) (m : prog W A) : Prop :=
  match m with
  | Done _ => True
  | Act f k => ∀ w, let '(r, w') := f w in R w w' ∧ steps R (k r)
  end.

(** The thread takes a step of [pay], unless it ends in a way that is [free]. *)
Fixpoint owes {S L A} (P : S → Prop) (pay : S → S → Prop) (free : exec A → L → Prop) (m : prog (S * L) A) (l : L) : Prop :=
  match m with
  | Done r => free r l
  | Act f k => ∀ w, P w → let '(r, (w', l')) := f (w, l) in pay w w' ∨ owes P pay free (k r) l'
  end.

(** ** Lemmas *)
Section Run.
Context {W : Type}.

(** [run] is a homomorphism of monads. *)
Lemma run_bind {A B} (m : prog W A) (k : A → prog W B) w : (m ≫= k) w = mbind (M := M W) (λ a, run (k a)) (run m) w.
Proof.
  revert w. induction m as [[]|C f c IH]; intros w; [done..|].
  unfold mbind, prog_bind, M_bind in *. cbn [and_then run]. destruct (f w) as [r w']. apply IH.
Qed.

Lemma run_attempt {A} (m : prog W A) h w : attempt m h w = try_catch (run m) (λ e, run (h e)) w.
Proof.
  revert w. induction m as [[]|C f c IH]; intros w; [done..|].
  unfold try_catch in *. cbn [attempt run]. destruct (f w) as [r w']. apply IH.
Qed.

Lemma bind_Ret {A B} (m : prog W A) (k : A → prog W B) w a w' : m w = (Ret a, w') → (m ≫= k) w = k a w'.
Proof. intros Hm. rewrite run_bind. unfold mbind, M_bind. by rewrite Hm. Qed.

Lemma bind_Throw {A B} (m : prog W A) (k : A → prog W B) w e w' : m w = (Throw e, w') → (m ≫= k) w = (Throw e, w').
Proof. intros Hm. rewrite run_bind. unfold mbind, M_bind. by rewrite Hm. Qed.

Lemma attempt_Ret {A} (m : prog W A) h w a w' : m w = (Ret a, w') → attempt m h w = (Ret a, w').
Proof. intros Hm. rewrite run_attempt. unfold try_catch. by rewrite Hm. Qed.

Lemma attempt_Throw {A} (m : prog W A) h w e w' : m w = (Throw e, w') → attempt m h w = h e w'.
Proof. intros Hm. rewrite run_attempt. unfold try_catch. by rewrite Hm. Qed.

End Run.

Section Shared.
Context {W L : Type}.

Lemma run_shared {A} (m : prog W A) w (l : L) : shared m (w, l) = let '(r, w') := m w in (r, (w', l)).
Proof.
  revert w. induction m as [r|C f c IH]; intros w; [done|]. cbn [shared run fst snd].
  destruct (f w) as [r w']. apply IH.
Qed.

Lemma shared_Ret {A B} (m : prog W A) (k : A → prog (W * L) B) w l a w' :
  m w = (Ret a, w') → (shared m ≫= k) (w, l) = k a (w', l).
Proof. intros Hm. apply bind_Ret. by rewrite run_shared, Hm. Qed.

Lemma shared_Throw {A B} (m : prog W A) (k : A → prog (W * L) B) w l e w' :
  m w = (Throw e, w') → (shared m ≫= k) (w, l) = (Throw e, (w', l)).
Proof. intros Hm. apply bind_Throw. by rewrite run_shared, Hm. Qed.
End Shared.

Section Stable.
Context {W : Type} (P : W → Prop).

Lemma stable_mono {A} (m : prog W A) (Q R : exec A → Prop) : (∀ r, Q r → R r) → stable P m Q → stable P m R.
Proof.
  intros HQR. induction m as [r|C f k IH]; cbn [stable]; [apply HQR|]. intros Hm w Hw. specialize (Hm w Hw).
  destruct (f w) as [r w']. destruct Hm. auto.
Qed.

Lemma stable_bind {A B} (m : prog W A) (k : A → prog W B) (Q : exec B → Prop) :
  stable P m (λ r, match r with
                   | Ret a => stable P (k a) Q
                   | Throw e => Q (Throw e)
                   | Undefined => Q Undefined
                   | OutOfFuel => Q OutOfFuel
                   end) →
  stable P (m ≫= k) Q.
Proof.
  unfold mbind, prog_bind. induction m as [[]|C f c IH]; cbn [stable and_then]; [done..|]. intros Hm w Hw.
  specialize (Hm w Hw). destruct (f w) as [r w']. destruct Hm. auto.
Qed.

Lemma stable_observe {A} (m : prog W A) (Q : exec A → Prop) :
  stable P m Q → stable P (observe m) (λ r, ∃ a, r = Ret a ∧ Q a).
Proof.
  induction m as [r|C f k IH]; cbn [stable observe]; [intros Hr; by exists r; split|]. intros Hm w Hw. specialize (Hm w Hw).
  destruct (f w) as [r w']. destruct Hm. auto.
Qed.

Lemma stable_complete {K A} (Q : K → exec A → Prop) keys (tasks : list (prog W A)) :
  Forall2 (λ key m, stable P m (Q key)) keys tasks →
  stable P (complete tasks) (λ r, ∃ rs, r = Ret rs ∧ Forall2 Q keys rs).
Proof.
  induction 1 as [|key m keys tasks Hm _ IH]; [by exists []|]. cbn [complete].
  apply stable_bind. eapply stable_mono; [|by apply stable_observe]. intros ? (a & -> & Ha).
  apply stable_bind. eapply stable_mono; [|exact IH]. intros ? (rs & -> & Hrs).
  exists (a :: rs). split; [done|by constructor].
Qed.

(** Alone, the program ends as it does among others. *)
Lemma stable_run {A} (m : prog W A) (Q : exec A → Prop) w : stable P m Q → P w → Q (m w).1 ∧ P (m w).2.
Proof.
  revert w. induction m as [r|C f k IH]; intros w Hm Hw; [done|]. cbn [stable run] in *.
  specialize (Hm w Hw). destruct (f w) as [r w']. destruct Hm. by apply IH.
Qed.
End Stable.

Section Wp.
Context {S L : Type} (P : S → Prop).

Lemma wp_mono {A} (m : prog (S * L) A) (Q R : exec A → L → Prop) l :
  (∀ r l', Q r l' → R r l') → wp P m Q l → wp P m R l.
Proof.
  intros HQR. revert l. induction m as [r|C f k IH]; intros l; cbn [wp]; [apply HQR|]. intros Hm w Hw.
  specialize (Hm w Hw). destruct (f (w, l)) as [r [w' l']]. destruct Hm. auto.
Qed.

Lemma wp_and {A} (m : prog (S * L) A) (Q R : exec A → L → Prop) l :
  wp P m Q l → wp P m R l → wp P m (λ r l', Q r l' ∧ R r l') l.
Proof.
  revert l. induction m as [r|C f k IH]; intros l; cbn [wp]; [done|]. intros HQ HR w Hw.
  specialize (HQ w Hw). specialize (HR w Hw). destruct (f (w, l)) as [r [w' l']]. destruct HQ, HR. auto.
Qed.

Lemma wp_bind {A B} (m : prog (S * L) A) (k : A → prog (S * L) B) (Q : exec B → L → Prop) l :
  wp P m (λ r l', match r with
                  | Ret a => wp P (k a) Q l'
                  | Throw e => Q (Throw e) l'
                  | Undefined => Q Undefined l'
                  | OutOfFuel => Q OutOfFuel l'
                  end) l →
  wp P (m ≫= k) Q l.
Proof.
  unfold mbind, prog_bind. revert l. induction m as [[]|C f c IH]; intros l; cbn [wp and_then]; [done..|].
  intros Hm w Hw. specialize (Hm w Hw). destruct (f (w, l)) as [r [w' l']]. destruct Hm. auto.
Qed.

Lemma wp_attempt {A} (m : prog (S * L) A) h (Q : exec A → L → Prop) l :
  wp P m (λ r l', match r with Throw e => wp P (h e) Q l' | _ => Q r l' end) l →
  wp P (attempt m h) Q l.
Proof.
  revert l. induction m as [[]|C f c IH]; intros l; cbn [wp attempt]; [done..|].
  intros Hm w Hw. specialize (Hm w Hw). destruct (f (w, l)) as [r [w' l']]. destruct Hm. auto.
Qed.

Lemma wp_shared {A} (m : prog S A) (Q : exec A → L → Prop) l :
  stable P m (λ r, Q r l) → wp P (shared m) Q l.
Proof.
  induction m as [r|C f k IH]; cbn [wp stable shared]; [done|]. intros Hm w Hw. specialize (Hm w Hw). cbn [fst snd].
  destruct (f w) as [r w']. destruct Hm. auto.
Qed.

Lemma wp_run {A} (m : prog (S * L) A) (Q : exec A → L → Prop) w l :
  wp P m Q l → P w → let '(r, (w', l')) := m (w, l) in Q r l' ∧ P w'.
Proof.
  revert w l. induction m as [r|C f k IH]; intros w l Hm Hw; [done|]. cbn [wp run] in *.
  specialize (Hm w Hw). destruct (f (w, l)) as [r [w' l']]. destruct Hm. by apply IH.
Qed.
End Wp.

Section Keeps.
Context {S L : Type} (P : S → Prop).

Lemma holds_bind {A B} (Q : A → Prop) (R : B → Prop) (m : prog S A) (k : A → prog S B) :
  holds P Q m → (∀ a, Q a → holds P R (k a)) → holds P R (m ≫= k).
Proof. intros Hm Hk. apply stable_bind. eapply stable_mono; [|exact Hm]. intros []; simpl; auto. by apply Hk. Qed.

Lemma holds_ret {A} (Q : A → Prop) a : Q a → holds P Q (mret a).
Proof. done. Qed.

Lemma holds_lift {A} (Q : A → Prop) (m : exec A) : safe m → (∀ a, m = Ret a → Q a) → holds P Q (lift m).
Proof. intros Hs HQ. destruct m; [by apply HQ|done..]. Qed.

Lemma holds_atomic {A} (Q : A → Prop) (f : M S A) :
  (∀ w, P w → let '(r, w') := f w in P w' ∧ returns Q r) → holds P Q (atomic f).
Proof. done. Qed.

Lemma keeps_bind {A B} (Q : A → Prop) (R : B → Prop) (m : prog (S * L) A) (k : A → prog (S * L) B) :
  keeps P Q m → (∀ a, Q a → keeps P R (k a)) → keeps P R (m ≫= k).
Proof.
  intros Hm Hk l. apply wp_bind. eapply wp_mono; [|exact (Hm l)]. intros [] l'; simpl; auto. intros Ha. by apply Hk.
Qed.

Lemma keeps_attempt {A} (Q : A → Prop) (m : prog (S * L) A) h :
  keeps P Q m → (∀ e, keeps P Q (h e)) → keeps P Q (attempt m h).
Proof.
  intros Hm Hh l. apply wp_attempt. eapply wp_mono; [|exact (Hm l)]. intros [] l'; simpl; auto. intros _. apply Hh.
Qed.

Lemma keeps_ret {A} (Q : A → Prop) a : Q a → keeps P Q (mret a : prog (S * L) A).
Proof. by intros HQ l. Qed.

Lemma keeps_lift {A} (Q : A → Prop) (m : exec A) :
  safe m → (∀ a, m = Ret a → Q a) → keeps P Q (lift m : prog (S * L) A).
Proof. intros Hs HQ l. destruct m; [by apply HQ|done..]. Qed.

Lemma keeps_shared {A} (Q : A → Prop) (m : prog S A) : holds P Q m → keeps P Q (shared m : prog (S * L) A).
Proof. intros Hm l. by apply wp_shared. Qed.

Lemma keeps_safe {A} (Q : A → Prop) (m : prog (S * L) A) w l :
  keeps P Q m → P w → returns Q (m (w, l)).1 ∧ P (m (w, l)).2.1.
Proof. intros Hm Hw. pose proof (wp_run P m _ w l (Hm l) Hw) as H. by destruct (m (w, l)) as [r [w' l']]. Qed.
End Keeps.

Section Steps.
Context {W : Type} (R : W → W → Prop).

Lemma steps_bind {A B} (m : prog W A) (k : A → prog W B) : steps R m → (∀ a, steps R (k a)) → steps R (m ≫= k).
Proof.
  intros Hm Hk. revert Hm. unfold mbind, prog_bind. induction m as [[]|C f c IH]; cbn [steps and_then]; [by auto..|].
  intros Hm w. specialize (Hm w). destruct (f w) as [r w']. destruct Hm. auto.
Qed.

Lemma steps_attempt {A} (m : prog W A) h : steps R m → (∀ e, steps R (h e)) → steps R (attempt m h).
Proof.
  intros Hm Hh. revert Hm. induction m as [[]|C f c IH]; cbn [steps attempt]; [by auto..|].
  intros Hm w. specialize (Hm w). destruct (f w) as [r w']. destruct Hm. auto.
Qed.

Lemma steps_observe {A} (m : prog W A) : steps R m → steps R (observe m).
Proof.
  induction m as [r|C f c IH]; cbn [steps observe]; [done|].
  intros Hm w. specialize (Hm w). destruct (f w) as [r w']. destruct Hm. auto.
Qed.

Lemma steps_complete {A} (tasks : list (prog W A)) : Forall (steps R) tasks → steps R (complete tasks).
Proof.
  induction 1 as [|m tasks Hm _ IH]; [done|]. apply steps_bind; [by apply steps_observe|]. intros r.
  apply steps_bind; [exact IH|done].
Qed.

Lemma steps_join {A B} (body : B → exec A → prog W B) (m : prog W B) outcomes :
  steps R m → (∀ b r, steps R (body b r)) → steps R (join body m outcomes).
Proof.
  unfold join. intros Hm Hb. revert m Hm. induction outcomes as [|r rs IH]; intros m Hm; [done|].
  apply IH. by apply steps_bind.
Qed.

Lemma steps_gather {A B} (body : B → exec A → prog W B) (tasks : list (prog W A)) m n schedule :
  Forall (steps R) tasks → steps R m → (∀ b r, steps R (body b r)) → steps R (gather body tasks m n schedule).
Proof.
  intros Ht Hm Hb. revert tasks m n Ht Hm. induction schedule as [|i schedule IH]; intros tasks m n Ht Hm.
  { apply steps_bind; [by apply steps_complete|]. intros rs. by apply steps_join. }
  cbn [gather]. destruct (tasks !! i) as [[r|C f k]|] eqn:Hi; [by apply IH| |].
  - pose proof (Forall_lookup_1 _ _ _ _ Ht Hi) as Hs. cbn [steps] in Hs |- *.
    intros w. specialize (Hs w). destruct (f w) as [r w']. destruct Hs as [Hw' Hs]. split; [done|].
    by apply IH; [apply Forall_insert|].
  - destruct m as [[b|e| |]|C f k].
    + destruct (tasks !! n) as [[r|C f k]|]; by apply IH.
    + by apply IH.
    + by apply IH.
    + by apply IH.
    + cbn [steps] in Hm |- *. intros w. specialize (Hm w). destruct (f w) as [r w']. destruct Hm. split; [done|]. by apply IH.
Qed.
End Steps.

Lemma steps_shared {W L A} (R : W → W → Prop) (m : prog W A) :
  steps R m → steps (λ s s' : W * L, R s.1 s'.1) (shared m).
Proof.
  induction m as [r|C f c IH]; cbn [steps shared]; [done|].
  intros Hm w. specialize (Hm w.1). destruct (f w.1) as [r w']. destruct Hm. auto.
Qed.

Section Owes.
Context {S L : Type} (P : S → Prop) (pay : S → S → Prop).

Lemma owes_mono {A} (P' : S → Prop) (free free' : exec A → L → Prop) (m : prog (S * L) A) l :
  (∀ w, P' w → P w) → (∀ r l', free r l' → free' r l') → owes P pay free m l → owes P' pay free' m l.
Proof.
  intros HP Hf. revert l. induction m as [r|C f k IH]; intros l; cbn [owes]; [apply Hf|]. intros Hm w Hw.
  specialize (Hm w (HP w Hw)). destruct (f (w, l)) as [r [w' l']]. destruct Hm; [by left|right; auto].
Qed.

(** A thread that ends free of charge, whatever it does. *)
Lemma owes_wp {A} (free : exec A → L → Prop) (m : prog (S * L) A) l : wp P m free l → owes P pay free m l.
Proof.
  revert l. induction m as [r|C f k IH]; intros l; cbn [wp owes]; [done|]. intros Hm w Hw.
  specialize (Hm w Hw). destruct (f (w, l)) as [r [w' l']]. destruct Hm. right; auto.
Qed.

Lemma owes_bind {A B} (free : exec B → L → Prop) (m : prog (S * L) A) (k : A → prog (S * L) B) l :
  owes P pay (λ r l', match r with
                      | Ret a => owes P pay free (k a) l'
                      | Throw e => free (Throw e) l'
                      | Undefined => free Undefined l'
                      | OutOfFuel => free OutOfFuel l'
                      end) m l →
  owes P pay free (m ≫= k) l.
Proof.
  unfold mbind, prog_bind. revert l. induction m as [[]|C f c IH]; intros l; cbn [owes and_then]; [done..|].
  intros Hm w Hw. specialize (Hm w Hw). destruct (f (w, l)) as [r [w' l']]. destruct Hm; [by left|right; auto].
Qed.
End Owes.

(** *** Programs that move an invariant from stage to stage *)
Section Staged.
Context {W : Type} (P : nat → W → Prop).

Lemma staged_mono {A} (m : prog W A) (Q R : nat → exec A → Prop) n :
  (∀ n r, Q n r → R n r) → staged P m Q n → staged P m R n.
Proof.
  intros HQR. revert n. induction m as [r|C f k IH]; intros n; cbn [staged]; [apply HQR|]. intros Hm w Hw.
  specialize (Hm w Hw). destruct (f w) as [r w']. destruct Hm as (n' & Hw' & Hm). exists n'. auto.
Qed.

Lemma staged_bind {A B} (m : prog W A) (k : A → prog W B) (Q : nat → exec B → Prop) n :
  staged P m (λ n r, ∃ a, r = Ret a ∧ staged P (k a) Q n) n → staged P (m ≫= k) Q n.
Proof.
  unfold mbind, prog_bind. revert n. induction m as [r|C f c IH]; intros n; cbn [staged and_then].
  - by intros (a & -> & Ha).
  - intros Hm w Hw. specialize (Hm w Hw). destruct (f w) as [r w']. destruct Hm as (n' & Hw' & Hm). exists n'. auto.
Qed.

Lemma staged_run {A} (m : prog W A) (Q : nat → exec A → Prop) n w :
  staged P m Q n → P n w → ∃ n', Q n' (m w).1 ∧ P n' (m w).2.
Proof.
  revert n w. induction m as [r|C f k IH]; intros n w Hm Hw; cbn [staged run] in *; [eauto|].
  specialize (Hm w Hw). destruct (f w) as [r w']. destruct Hm as (n' & Hw' & Hm). by apply (IH r n').
Qed.

(** A program that keeps every stage. *)
Notation keeps_stage := (steps (λ w w', ∀ n, P n w → P n w')).
Notation P_some := (λ w, ∃ n, P n w).

Lemma staged_still {A} (m : prog W A) (Q : exec A → Prop) n :
  stable P_some m Q → keeps_stage m → staged P m (λ n' r, n' = n ∧ Q r) n.
Proof.
  induction m as [r|C f k IH]; cbn [stable steps staged]; [done|]. intros Hm Hs w Hw.
  specialize (Hm w (ex_intro _ n Hw)). specialize (Hs w). destruct (f w) as [r w']. destruct Hm, Hs as [Hn Hs].
  exists n. auto.
Qed.

Section Gather.
Context {K A B : Type} (Q : K → exec A → Prop) (body : B → exec A → prog W B) (keys : list K) (J : nat → nat → B → Prop).
Notation taken k := (λ n (o : exec B), ∃ b, o = Ret b ∧ J k n b).
Hypothesis Hbody : ∀ k key n b r, keys !! k = Some key → J k n b → Q key r → staged P (body b r) (taken (S k)) n.

Lemma staged_join k m outcomes n :
  Forall2 Q (drop k keys) outcomes → (k ≤ length keys)%nat → staged P m (taken k) n →
  staged P (join body m outcomes) (taken (length keys)) n.
Proof.
  revert k m. induction outcomes as [|r outcomes IH]; intros k m Hrs Hk Hm.
  - apply Forall2_length in Hrs. rewrite length_drop in Hrs. simpl in Hrs. by replace (length keys) with k by lia.
  - destruct (keys !! k) as [key|] eqn:Hkey.
    + rewrite (drop_S _ _ _ Hkey) in Hrs. apply Forall2_cons_1 in Hrs as [Hr Hrs].
      apply (IH (S k)); [done|by apply lookup_lt_Some in Hkey|].
      apply staged_bind. eapply staged_mono; [|exact Hm]. intros n' ? (b & -> & Hb). exists b. split; [done|]. by eapply Hbody.
    + apply lookup_ge_None in Hkey. rewrite drop_ge in Hrs by done. by apply Forall2_nil_cons_inv in Hrs.
Qed.

Lemma staged_gather tasks m k schedule n :
  Forall2 (λ key m, stable P_some m (Q key)) keys tasks → Forall (λ m, keeps_stage m) tasks → (k ≤ length keys)%nat →
  staged P m (taken k) n → staged P (gather body tasks m k schedule) (taken (length keys)) n.
Proof.
  intros Ht Hs Hk Hm. revert tasks m k n Ht Hs Hk Hm. induction schedule as [|i schedule IH]; intros tasks m k n Ht Hs Hk Hm.
  { apply staged_bind. eapply staged_mono; [|by apply (staged_still (complete tasks) _ n (stable_complete _ Q keys tasks Ht)), steps_complete].
    intros n' ? (-> & rs & -> & Hrs). exists rs. split; [done|]. apply (staged_join k); [by apply Forall2_drop|done|done]. }
  cbn [gather]. destruct (tasks !! i) as [[r|C f c]|] eqn:Hi; [by apply IH| |].
  - destruct (Forall2_lookup_r _ _ _ _ _ Ht Hi) as (key & Hkey & Htask). pose proof (Forall_lookup_1 _ _ _ _ Hs Hi) as Hstep.
    cbn [stable steps staged] in Htask, Hstep |- *. intros w Hw. specialize (Htask w (ex_intro _ n Hw)). specialize (Hstep w).
    destruct (f w) as [r w']. destruct Htask as [_ Htask], Hstep as [Hn Hstep]. exists n. split; [auto|].
    apply IH; [|by apply Forall_insert|done|done]. rewrite <-(list_insert_id keys i key) by done. by apply Forall2_insert.
  - destruct m as [o|C f c].
    + cbn [staged] in Hm. destruct Hm as (b & -> & Hb).
      assert (Hwait : staged P (Done (Ret b)) (taken k) n) by by exists b.
      destruct (tasks !! k) as [[r|C f c]|] eqn:Htask; [|by apply IH..].
      destruct (Forall2_lookup_r _ _ _ _ _ Ht Htask) as (key & Hkey & Hr).
      apply IH; [done|done|by apply lookup_lt_Some in Hkey|by eapply Hbody].
    + cbn [staged] in Hm |- *. intros w Hw. specialize (Hm w Hw). destruct (f w) as [r w'].
      destruct Hm as (n' & Hw' & Hm). exists n'. split; [done|]. by apply IH.
Qed.
End Gather.
End Staged.

(** With one stage only. *)
Lemma stable_staged {W A} (P : W → Prop) (m : prog W A) (Q : exec A → Prop) n :
  stable P m Q → staged (λ _, P) m (λ n' r, n' = n ∧ Q r) n.
Proof.
  induction m as [r|C f k IH]; cbn [stable staged]; [done|]. intros Hm w Hw. specialize (Hm w Hw).
  destruct (f w) as [r w']. destruct Hm. exists n. auto.
Qed.

Lemma staged_stable {W A} (P : W → Prop) (m : prog W A) (Q : exec A → Prop) n :
  staged (λ _, P) m (λ _, Q) n → stable P m Q.
Proof.
  revert n. induction m as [r|C f k IH]; intros n; cbn [stable staged]; [done|]. intros Hm w Hw. specialize (Hm w Hw).
  destruct (f w) as [r w']. destruct Hm as (n' & Hw' & Hm). split; [done|]. by apply (IH r n').
Qed.
