(* ===== verification/StdList.v ===== *)
(** * std::list with stable iterators, and the map + list LRU index

    [CacheShard] and [RateLimiter] keep the same data structure: an
    [std::unordered_map] whose entries hold an iterator into an
    [std::list<std::string>] of keys kept in recency order.  An iterator is
    the identity of a list node; every operation that takes an iterator is
    undefined when that node is no longer in the list, so that theorems about
    the components show that no dangling iterator is ever used. *)
From Stdlib Require Import ZArith Lia.
From S2P Require Import Prelude.

Definition iterator : Type := nat.

Record slist (A : Type) := SList {
  nodes : list (iterator * A);
  fresh : iterator
}.
Arguments SList {A} _ _.
Arguments nodes {A} _.
Arguments fresh {A} _.

Definition slist_empty {A} : slist A := SList [] 0.

(** The elements, front first. *)
Definition slist_values {A} (l : slist A) : list A := (nodes l).*2.

Definition slist_is_empty {A} (l : slist A) : bool :=
  match nodes l with [] => true | _ => false end.

(** [l.push_front(x)]; the result's first component is [l.begin()]. *)
Definition push_front {A} (x : A) (l : slist A) : iterator * slist A :=
  (fresh l, SList ((fresh l, x) :: nodes l) (S (fresh l))).

Definition drop_node {A} (it : iterator) (ns : list (iterator * A)) : list (iterator * A) :=
  filter (λ n, n.1 ≠ it) ns.

Definition node_at {A} (it : iterator) (ns : list (iterator * A)) : option A :=
  (λ r : nat * (iterator * A), r.2.2) <$> list_find (λ n, n.1 = it) ns.

(** [l.erase(it)] *)
Definition list_erase {A} (it : iterator) (l : slist A) : exec (slist A) :=
  match node_at it (nodes l) with
  | Some _ => Ret (SList (drop_node it (nodes l)) (fresh l))
  | None => Undefined
  end.

(** [l.splice(l.begin(), l, it)] *)
Definition list_splice_front {A} (it : iterator) (l : slist A) : exec (slist A) :=
  match node_at it (nodes l) with
  | Some x => Ret (SList ((it, x) :: drop_node it (nodes l)) (fresh l))
  | None => Undefined
  end.

(** [l.back()] *)
Definition list_back {A} (l : slist A) : exec A := deref (last (slist_values l)).

(** [l.pop_back()] *)
Definition list_pop_back {A} (l : slist A) : exec (slist A) :=
  match nodes l with
  | [] => Undefined
  | ns => Ret (SList (removelast ns) (fresh l))
  end.

(** ** The LRU index *)
Section LruIndex.
Context {E : Type} (it : E → iterator).

(** Every list node belongs to the map entry of its key, whose iterator is
    that node, and conversely. *)
Record lru_wf (m : gmap string E) (l : slist string) : Prop := {
  lru_ids : NoDup (nodes l).*1;
  lru_fresh : ∀ i, i ∈ (nodes l).*1 → i < fresh l;
  lru_link : ∀ i k, (i, k) ∈ nodes l ↔ ∃ e, m !! k = Some e ∧ it e = i
}.

(** The entries in recency order. *)
Definition contents (m : gmap string E) (l : slist string) : list (string * E) :=
  omap (λ k, pair k <$> m !! k) (slist_values l).

End LruIndex.

(** ** Association lists, the abstract counterpart of an LRU index *)
Section Alist.
Context {V : Type}.

Definition alist_find (k : string) (al : list (string * V)) : option V :=
  (λ r : nat * (string * V), r.2.2) <$> list_find (λ p, p.1 = k) al.

Definition alist_remove (k : string) (al : list (string * V)) : list (string * V) :=
  filter (λ p, p.1 ≠ k) al.
End Alist.

(** ** Lemmas on nodes *)
Lemma node_at_Some {A} it (ns : list (iterator * A)) x :
  NoDup ns.*1 → node_at it ns = Some x ↔ (it, x) ∈ ns.
Proof.
  intros Hnd. unfold node_at. destruct (list_find _ _) as [[i [j y]]|] eqn:Hf; simpl.
  - apply list_find_Some in Hf as (Hl & Hj & _). simpl in Hj. subst j.
    apply list_elem_of_lookup_2 in Hl. split; [by intros [= ->]|].
    intros Hx. f_equal. eapply NoDup_fst_inj; eauto.
  - split; [done|]. intros Hx. apply list_find_None in Hf.
    rewrite Forall_forall in Hf. by destruct (Hf _ Hx).
Qed.

Lemma drop_node_subset {A} it (ns : list (iterator * A)) : drop_node it ns ⊆ ns.
Proof. intros x. unfold drop_node. rewrite list_elem_of_filter. by intros [_ ?]. Qed.

Lemma drop_node_elem {A} it (ns : list (iterator * A)) i x :
  (i, x) ∈ drop_node it ns ↔ i ≠ it ∧ (i, x) ∈ ns.
Proof. unfold drop_node. by rewrite list_elem_of_filter. Qed.

Lemma drop_node_fst {A} it (ns : list (iterator * A)) :
  (drop_node it ns).*1 = filter (λ i, i ≠ it) ns.*1.
Proof.
  unfold drop_node. induction ns as [|[i x] ns IH]; [done|].
  rewrite fmap_cons, !filter_cons. simpl.
  repeat case_decide; simpl; try done; by rewrite <-IH.
Qed.

Lemma drop_node_id {A} it (ns : list (iterator * A)) :
  it ∉ ns.*1 → drop_node it ns = ns.
Proof.
  intros Hn. unfold drop_node. induction ns as [|[i x] ns IH]; [done|].
  rewrite fmap_cons, not_elem_of_cons in Hn. destruct Hn as [Hi Hn].
  rewrite filter_cons_True by (simpl in *; congruence). by rewrite IH.
Qed.

(** How the contents change when an entry is dropped, refreshed or added. *)
Section ContentsFacts.
Context {E : Type}.
Implicit Types (m : gmap string E) (l : slist string).

Lemma contents_ext m m' (ks : list string) :
  (∀ k, k ∈ ks → m !! k = m' !! k) →
  omap (λ k, pair k <$> m !! k) ks = omap (λ k, pair k <$> m' !! k) ks.
Proof.
  intros Hext. induction ks as [|k ks IH]; [done|]. simpl.
  rewrite Hext by set_solver. destruct (m' !! k); simpl; [f_equal|];
    apply IH; set_solver.
Qed.

Lemma contents_filter m (ks : list string) k :
  omap (λ k, pair k <$> m !! k) (filter (λ k', k' ≠ k) ks)
  = alist_remove k (omap (λ k, pair k <$> m !! k) ks).
Proof.
  unfold alist_remove. induction ks as [|k' ks IH]; [done|].
  destruct (decide (k' = k)) as [->|Hk].
  - rewrite filter_cons_False by tauto. etransitivity; [exact IH|]. simpl.
    destruct (m !! k); simpl; [|done]. by rewrite filter_cons_False by (simpl; tauto).
  - rewrite filter_cons_True by done. simpl.
    destruct (m !! k'); simpl; [|exact IH].
    rewrite filter_cons_True by done. f_equal. exact IH.
Qed.

Lemma contents_delete m l l' k :
  slist_values l' = filter (λ k', k' ≠ k) (slist_values l) →
  contents (delete k m) l' = alist_remove k (contents m l).
Proof.
  intros Hv. unfold contents. rewrite Hv, <-contents_filter. apply contents_ext.
  intros k'. rewrite list_elem_of_filter. intros [Hne _]. by rewrite lookup_delete_ne.
Qed.

Lemma contents_front m l l' k e :
  slist_values l' = k :: filter (λ k', k' ≠ k) (slist_values l) →
  contents (<[k:=e]> m) l' = (k, e) :: alist_remove k (contents m l).
Proof.
  intros Hv. unfold contents. rewrite Hv, <-contents_filter. simpl.
  rewrite lookup_insert_eq. simpl. f_equal. apply contents_ext.
  intros k'. rewrite list_elem_of_filter. intros [Hne _]. by rewrite lookup_insert_ne.
Qed.

Lemma filter_back ks (k : string) :
  NoDup (ks ++ [k]) → filter (λ k', k' ≠ k) (ks ++ [k]) = ks.
Proof.
  intros (_ & Hk & _)%NoDup_app. rewrite filter_app, filter_cons_False by (simpl; tauto).
  rewrite filter_nil, app_nil_r, filter_all_id; [done|].
  apply Forall_forall. intros k' Hk' ->. eapply Hk; [done|]. set_solver.
Qed.
End ContentsFacts.

(** ** Lemmas on the LRU index *)
Section LruFacts.
Context {E : Type} (it : E → iterator).
Implicit Types (m : gmap string E) (l : slist string).

Lemma lru_wf_empty : lru_wf it ∅ slist_empty.
Proof.
  split; simpl; [constructor | by intros ? ?%elem_of_nil |].
  intros i k. rewrite elem_of_nil. split; [done|].
  intros (e & He & _). by rewrite lookup_empty in He.
Qed.

Lemma lru_node m l k e :
  lru_wf it m l → m !! k = Some e → (it e, k) ∈ nodes l.
Proof. intros Hwf Hk. apply (lru_link _ _ _ Hwf). eauto. Qed.

Lemma lru_node_at m l k e :
  lru_wf it m l → m !! k = Some e → node_at (it e) (nodes l) = Some k.
Proof.
  intros Hwf Hk. apply node_at_Some; [apply Hwf|]. by eapply lru_node.
Qed.

Lemma lru_key_inj m l i k1 k2 :
  lru_wf it m l → (i, k1) ∈ nodes l → (i, k2) ∈ nodes l → k1 = k2.
Proof. intros Hwf. apply NoDup_fst_inj, Hwf. Qed.

Lemma lru_it_inj m l i1 i2 k :
  lru_wf it m l → (i1, k) ∈ nodes l → (i2, k) ∈ nodes l → i1 = i2.
Proof.
  intros Hwf (e1 & H1 & <-)%(lru_link _ _ _ Hwf) (e2 & H2 & <-)%(lru_link _ _ _ Hwf).
  congruence.
Qed.

Lemma lru_values_elem m l k :
  lru_wf it m l → k ∈ slist_values l ↔ is_Some (m !! k).
Proof.
  intros Hwf. unfold slist_values. rewrite list_elem_of_fmap. split.
  - intros ([i k'] & -> & (e & He & _)%(lru_link _ _ _ Hwf)). eauto.
  - intros [e He]. exists (it e, k). split; [done|]. by eapply lru_node.
Qed.

Lemma lru_values_NoDup m l : lru_wf it m l → NoDup (slist_values l).
Proof.
  intros Hwf. unfold slist_values.
  assert (Hinj : ∀ i1 i2 k, (i1, k) ∈ nodes l → (i2, k) ∈ nodes l → i1 = i2).
  { intros. by eapply lru_it_inj. }
  pose proof (lru_ids _ _ _ Hwf) as Hnd. revert Hinj Hnd.
  generalize (nodes l). intros ns Hinj. induction ns as [|[i k] ns IH]; [by constructor|].
  rewrite !fmap_cons, !NoDup_cons. simpl. intros [Hi Hnd]. split.
  - intros ([j k'] & Heq & Hj)%list_elem_of_fmap. simpl in Heq. subst k'.
    destruct Hi. apply list_elem_of_fmap. exists (j, k). split; [|done].
    simpl. eapply Hinj; [left | by right].
  - apply IH; [|done]. intros. eapply Hinj; by right.
Qed.

Lemma lru_values_drop m l k e :
  lru_wf it m l → m !! k = Some e →
  (drop_node (it e) (nodes l)).*2 = filter (λ k', k' ≠ k) (slist_values l).
Proof.
  intros Hwf Hk. unfold slist_values, drop_node.
  assert (Hall : Forall (λ n, n.1 = it e ↔ n.2 = k) (nodes l)).
  { apply Forall_forall. intros [i k'] Hin. simpl. split; intros ->.
    - eapply lru_key_inj; eauto using lru_node.
    - eapply lru_it_inj; eauto using lru_node. }
  induction Hall as [|[i k'] ns Hiff _ IH]; [done|]. simpl in Hiff.
  destruct (decide (i = it e)) as [Hi|Hi].
  - rewrite filter_cons_False by (simpl; tauto). rewrite IH.
    rewrite fmap_cons, filter_cons_False by (simpl; tauto). done.
  - rewrite filter_cons_True by done. rewrite !fmap_cons, IH.
    rewrite filter_cons_True by (simpl; tauto). done.
Qed.

(** *** Each operation preserves well-formedness *)
Lemma lru_wf_splice m l k e :
  lru_wf it m l → m !! k = Some e →
  ∃ l', list_splice_front (it e) l = Ret l' ∧ lru_wf it m l' ∧
        slist_values l' = k :: filter (λ k', k' ≠ k) (slist_values l).
Proof.
  intros Hwf Hk. unfold list_splice_front. rewrite (lru_node_at m l k e) by done.
  eexists; split; [done|]. split; [|unfold slist_values at 1; simpl; f_equal; by eapply lru_values_drop].
  split; simpl.
  - rewrite drop_node_fst. apply NoDup_cons. split; [by rewrite list_elem_of_filter; intros [? _]|].
    apply NoDup_filter, Hwf.
  - intros i. rewrite elem_of_cons, drop_node_fst, list_elem_of_filter.
    intros [->|[_ Hi]]; apply (lru_fresh _ _ _ Hwf); [|done].
    apply list_elem_of_fmap. exists (it e, k). eauto using lru_node.
  - intros i k'. rewrite elem_of_cons, drop_node_elem, <-(lru_link _ _ _ Hwf). split.
    + intros [[= -> ->]|[_ ?]]; [by eapply lru_node | done].
    + intros Hin. destruct (decide (i = it e)) as [->|]; [left|by right].
      f_equal. eapply lru_key_inj; eauto using lru_node.
Qed.

Lemma lru_wf_erase m l k e :
  lru_wf it m l → m !! k = Some e →
  ∃ l', list_erase (it e) l = Ret l' ∧ lru_wf it (delete k m) l' ∧
        slist_values l' = filter (λ k', k' ≠ k) (slist_values l).
Proof.
  intros Hwf Hk. unfold list_erase. rewrite (lru_node_at m l k e) by done.
  eexists; split; [done|]. split; [|unfold slist_values at 1; simpl; by eapply lru_values_drop].
  split; simpl.
  - rewrite drop_node_fst. apply NoDup_filter, Hwf.
  - intros i. rewrite drop_node_fst, list_elem_of_filter. intros [_ Hi]. by apply Hwf.
  - intros i k'. rewrite drop_node_elem, (lru_link _ _ _ Hwf). split.
    + intros (Hne & e' & He' & <-). exists e'. split; [|done].
      rewrite lookup_delete_ne; [done|]. congruence.
    + intros (e' & He' & <-). apply lookup_delete_Some in He' as [Hne He'].
      split; [|eauto]. intros Heq. destruct Hne.
      eapply lru_key_inj; [done|..]; [by eapply lru_node|]. rewrite <-Heq. by eapply lru_node.
Qed.

Lemma lru_wf_push m l k e :
  lru_wf it m l → m !! k = None → it e = (push_front k l).1 →
  lru_wf it (<[k:=e]> m) (push_front k l).2.
Proof.
  intros Hwf Hk He. simpl in He.
  assert (Hfresh : fresh l ∉ (nodes l).*1).
  { intros Hin%(lru_fresh _ _ _ Hwf). lia. }
  split; simpl.
  - apply NoDup_cons. split; [done|apply Hwf].
  - intros i. rewrite elem_of_cons. intros [->|Hi%(lru_fresh _ _ _ Hwf)]; lia.
  - intros i k'. rewrite elem_of_cons, (lru_link _ _ _ Hwf). split.
    + intros [[= -> ->]|(e' & He' & <-)].
      * exists e. by rewrite lookup_insert_eq.
      * exists e'. split; [|done]. rewrite lookup_insert_ne; [done|congruence].
    + intros (e' & [[-> ->]|[Hne He']]%lookup_insert_Some & <-); [left; by rewrite He|right; eauto].
Qed.

Lemma lru_wf_update m l k e e' :
  lru_wf it m l → m !! k = Some e → it e' = it e → lru_wf it (<[k:=e']> m) l.
Proof.
  intros Hwf Hk He. split; [apply Hwf..|].
  intros i k'. rewrite (lru_link _ _ _ Hwf). split.
  - intros (e1 & H1 & <-). destruct (decide (k = k')) as [<-|Hne].
    + exists e'. rewrite lookup_insert_eq. split; [done|congruence].
    + exists e1. by rewrite lookup_insert_ne.
  - intros (e1 & [[-> ->]|[Hne He']]%lookup_insert_Some & <-); eauto.
Qed.

Lemma lru_wf_fmap (f : string → E → E) m l :
  (∀ k e, it (f k e) = it e) → lru_wf it m l → lru_wf it (map_imap (λ k e, Some (f k e)) m) l.
Proof.
  intros Hf Hwf. split; [apply Hwf..|]. intros i k.
  rewrite (lru_link _ _ _ Hwf), map_lookup_imap. split.
  - intros (e & He & <-). exists (f k e). by rewrite He, Hf.
  - intros (e' & He' & <-). destruct (m !! k) as [e|] eqn:Hk; simplify_eq/=. exists e. by rewrite Hf.
Qed.

Lemma lru_back m l :
  lru_wf it m l → slist_is_empty l = false →
  ∃ k e ks, list_back l = Ret k ∧ m !! k = Some e ∧ slist_values l = ks ++ [k].
Proof.
  intros Hwf Hne. unfold list_back.
  assert (slist_values l ≠ []) as (ks & k & Heq)%exists_last.
  { unfold slist_is_empty, slist_values in *. by destruct (nodes l). }
  destruct (proj1 (lru_values_elem m l k Hwf)) as [e He].
  { rewrite Heq. set_solver. }
  exists k, e, ks. by rewrite Heq, last_snoc.
Qed.

Lemma lru_wf_erase_back m l ks k e :
  lru_wf it m l → m !! k = Some e → slist_values l = ks ++ [k] →
  ∃ l', list_erase (it e) l = Ret l' ∧ lru_wf it (delete k m) l' ∧ slist_values l' = ks.
Proof.
  intros Hwf Hk Hv. destruct (lru_wf_erase m l k e Hwf Hk) as (l' & H1 & H2 & H3).
  exists l'. split_and!; [done..|]. rewrite H3, Hv. apply filter_back.
  rewrite <-Hv. by eapply lru_values_NoDup.
Qed.

(** Popping the back node is erasing the entry it belongs to. *)
Lemma lru_pop_back m l ks k e :
  lru_wf it m l → m !! k = Some e → slist_values l = ks ++ [k] →
  list_pop_back l = list_erase (it e) l.
Proof.
  intros Hwf Hk Hv. unfold list_pop_back, list_erase. rewrite (lru_node_at m l k e) by done.
  unfold slist_values in Hv. destruct (nodes l) as [|n ns] eqn:Hn; [by destruct ks|].
  rewrite <-Hn in *. f_equal. f_equal.
  destruct (exists_last (l:=nodes l)) as (ns' & [i k'] & Hns); [by rewrite Hn|].
  rewrite Hns in Hv |- *. rewrite fmap_app in Hv. simpl in Hv.
  apply app_inj_2 in Hv as [_ [= ->]]; [|done].
  rewrite removelast_last. unfold drop_node.
  assert (Hi : i = it e).
  { eapply (lru_it_inj m l); [done|..|by eapply lru_node]. rewrite Hns. set_solver. }
  rewrite filter_app, filter_cons_False by (simpl; intros Hx; apply Hx; done).
  rewrite filter_nil, app_nil_r, filter_all_id; [done|].
  apply Forall_forall. intros [j x] Hj Hji. simpl in Hji. subst j i.
  pose proof (lru_ids _ _ _ Hwf) as Hnd. rewrite Hns, fmap_app in Hnd.
  apply NoDup_app in Hnd as (_ & Hnd & _). eapply Hnd; [|simpl; by left].
  apply list_elem_of_fmap. by exists (it e, x).
Qed.

Lemma lru_size m l : lru_wf it m l → size m = length (slist_values l).
Proof.
  intros Hwf. rewrite <-size_dom.
  assert (dom m = list_to_set (slist_values l)) as ->.
  { apply set_eq. intros k. rewrite elem_of_dom, elem_of_list_to_set.
    by rewrite (lru_values_elem m l). }
  rewrite size_list_to_set; [done|]. by eapply lru_values_NoDup.
Qed.

(** *** The recency-ordered contents *)
Lemma contents_elem m l k e :
  lru_wf it m l → (k, e) ∈ contents m l ↔ m !! k = Some e.
Proof.
  intros Hwf. unfold contents. rewrite list_elem_of_omap. split.
  - intros (k' & _ & Heq). destruct (m !! k') eqn:Hm; simplify_eq/=. done.
  - intros Hm. exists k. split; [|by rewrite Hm]. rewrite (lru_values_elem m l); eauto.
Qed.

Lemma contents_keys m l : lru_wf it m l → (contents m l).*1 = slist_values l.
Proof.
  intros Hwf. unfold contents.
  assert (Hall : Forall (λ k, is_Some (m !! k)) (slist_values l)).
  { apply Forall_forall. intros k Hk. by rewrite <-(lru_values_elem m l). }
  induction Hall as [|k ks [e He] _ IH]; [done|].
  simpl. rewrite He. simpl. f_equal. exact IH.
Qed.

Lemma contents_find m l k :
  lru_wf it m l → alist_find k (contents m l) = m !! k.
Proof.
  intros Hwf. unfold alist_find. destruct (list_find _ _) as [[i [k' e]]|] eqn:Hf; simpl.
  - apply list_find_Some in Hf as (Hl & Hk & _). simpl in Hk. subst k'.
    apply list_elem_of_lookup_2, contents_elem in Hl; done.
  - apply list_find_None in Hf. rewrite Forall_forall in Hf.
    destruct (m !! k) as [e|] eqn:Hm; [|done].
    eapply contents_elem in Hm; [|done]. by destruct (Hf _ Hm).
Qed.

Lemma contents_push m l k e :
  lru_wf it m l → m !! k = None →
  contents (<[k:=e]> m) (push_front k l).2 = (k, e) :: contents m l.
Proof.
  intros Hwf Hk. unfold contents, slist_values. simpl. rewrite lookup_insert_eq. simpl. f_equal.
  apply contents_ext. intros k' Hk'. rewrite lookup_insert_ne; [done|]. intros ->.
  change (k' ∈ slist_values l) in Hk'. rewrite (lru_values_elem m l) in Hk' by done.
  destruct Hk' as [e' Hk']. congruence.
Qed.

Lemma contents_nil m l : lru_wf it m l → slist_is_empty l = true → contents m l = [].
Proof.
  intros Hwf. unfold contents, slist_is_empty, slist_values. by destruct (nodes l).
Qed.
End LruFacts.

(** ** Lemmas on association lists *)
Section AlistFacts.
Context {V : Type}.
Implicit Types (al : list (string * V)).

Lemma alist_remove_elem k al p : p ∈ alist_remove k al ↔ p.1 ≠ k ∧ p ∈ al.
Proof. unfold alist_remove. by rewrite list_elem_of_filter. Qed.

Lemma alist_find_remove_eq k al : alist_find k (alist_remove k al) = None.
Proof.
  unfold alist_find. destruct (list_find _ _) as [[i p]|] eqn:Hf; [|done].
  apply list_find_Some in Hf as (Hl & Hk & _).
  apply list_elem_of_lookup_2, alist_remove_elem in Hl. by destruct Hl.
Qed.

Lemma alist_find_cons k p al :
  alist_find k (p :: al) = if decide (p.1 = k) then Some p.2 else alist_find k al.
Proof.
  unfold alist_find. simpl. case_decide; [done|].
  destruct (list_find _ al) as [[i q]|]; done.
Qed.

Lemma alist_find_remove_ne k k' al :
  k ≠ k' → alist_find k (alist_remove k' al) = alist_find k al.
Proof.
  intros Hne. unfold alist_remove. induction al as [|p al IH]; [done|].
  rewrite filter_cons. destruct (decide (p.1 ≠ k')) as [Hp|Hp]; rewrite !alist_find_cons, IH; [done|].
  rewrite decide_False; [done|]. intros Heq. apply Hp. congruence.
Qed.

Lemma alist_find_None k al : alist_find k al = None ↔ k ∉ al.*1.
Proof.
  induction al as [|p al IH]; [by split; [intros _; apply not_elem_of_nil|]|].
  rewrite alist_find_cons, fmap_cons, not_elem_of_cons, <-IH.
  case_decide as Hp; [split; [done|intros [? _]; congruence]|].
  split; [|tauto]. intros Hn. split; [congruence|done].
Qed.

Lemma alist_remove_notin k al : k ∉ al.*1 → alist_remove k al = al.
Proof.
  intros Hk. unfold alist_remove. apply filter_all_id, Forall_forall.
  intros p Hp Heq. apply Hk, list_elem_of_fmap. eauto.
Qed.
End AlistFacts.

#[export] Hint Resolve lru_wf_empty lru_values_NoDup lru_node : cpp.

Lemma alist_remove_last {V} (al : list (string * V)) p :
  NoDup (al ++ [p]).*1 → alist_remove p.1 (al ++ [p]) = al.
Proof.
  rewrite fmap_app. intros (_ & Hk & _)%NoDup_app. unfold alist_remove.
  rewrite filter_app, filter_cons_False by tauto.
  rewrite filter_nil, app_nil_r. apply filter_all_id, Forall_forall.
  intros q Hq Heq. apply (Hk q.1); [apply list_elem_of_fmap; eauto|]. rewrite Heq. simpl. by left.
Qed.

(** Erasing the entry of the back node drops the last entry of the contents. *)
Lemma contents_erase_back {E} (it : E → iterator) m l ks k e l' :
  lru_wf it m l → m !! k = Some e → slist_values l = ks ++ [k] → slist_values l' = ks →
  contents (delete k m) l' = removelast (contents m l) ∧
  contents m l = removelast (contents m l) ++ [(k, e)].
Proof.
  intros Hwf Hk Hv Hv'.
  assert (Hc : contents m l = omap (λ k, pair k <$> m !! k) ks ++ [(k, e)]).
  { unfold contents. rewrite Hv, omap_app. simpl. by rewrite Hk. }
  pose proof (lru_values_NoDup it m l Hwf) as Hnd.
  rewrite (contents_delete m l l' k), Hc, removelast_last; [|by rewrite Hv, filter_back, Hv' by congruence].
  split; [|done]. apply (alist_remove_last _ (k, e)).
  rewrite <-Hc, (contents_keys it) by done. done.
Qed.

(** Mapping the values of an association list. *)
Lemma alist_find_fmap {V W} (f : V → W) k (al : list (string * V)) :
  alist_find k (prod_map id f <$> al) = f <$> alist_find k al.
Proof.
  induction al as [|[k' v] al IH]; [done|]. rewrite fmap_cons, !alist_find_cons, IH.
  simpl. by case_decide.
Qed.

Lemma alist_remove_fmap {V W} (f : V → W) k (al : list (string * V)) :
  prod_map id f <$> alist_remove k al = alist_remove k (prod_map id f <$> al).
Proof.
  unfold alist_remove. induction al as [|[k' v] al IH]; [done|].
  rewrite fmap_cons, !filter_cons. simpl. case_decide; [by rewrite fmap_cons, IH|done].
Qed.

Lemma fmap_removelast {A B} (f : A → B) l : f <$> removelast l = removelast (f <$> l).
Proof.
  induction l as [|x l IH]; [done|]. destruct l; [done|]. simpl in *. f_equal. exact IH.
Qed.
