(* ===== verification/Double.v ===== *)
(** * IEEE 754 binary64

    A C++ [double] is a [spec_float] of the Standard Library, and its
    operations are the correctly rounded ones of [SpecFloat] at precision 53
    and maximal exponent 1024, so that every floating-point expression of the
    program evaluates here to the value the hardware computes. *)
From Stdlib Require Import ZArith Lia SpecFloat.
From S2P Require Import Prelude.
#[local] Open Scope Z_scope.

Definition double : Type := spec_float.

(** [static_cast<double>(n)] *)
Definition double_of_Z (z : Z) : double := binary_normalize 53 1024 z 0 false.

Definition dadd : double → double → double := SFadd 53 1024.
Definition dmul : double → double → double := SFmul 53 1024.
Definition ddiv : double → double → double := SFdiv 53 1024.
Definition dltb : double → double → bool := SFltb.
Definition dleb : double → double → bool := SFleb.

(** The literal [n / 10^k]: one correctly rounded division of two exact
    integers is the correctly rounded decimal. *)
Definition double_lit (n ten_k : Z) : double := ddiv (double_of_Z n) (double_of_Z ten_k).

(** The integer part, truncated towards zero; [None] for a NaN or an infinity,
    whose conversion to an integer type is undefined. *)
Definition double_trunc (d : double) : option Z :=
  match d with
  | S754_zero _ => Some 0
  | S754_finite s m e =>
      let a := if 0 <=? e then Z.pos m * 2 ^ e else Z.pos m / 2 ^ (- e) in
      Some (if s then - a else a)
  | S754_infinity _ | S754_nan => None
  end.

(** [static_cast<size_t>(d)] *)
Definition double_to_size (d : double) : exec Z :=
  match double_trunc d with
  | Some z => if (0 <=? z) && (z <=? u64_max) then Ret z else Undefined
  | None => Undefined
  end.

(** [std::round(d)]: to the nearest integer, halves away from zero. *)
Definition double_round (d : double) : double :=
  match d with
  | S754_finite s m e =>
      if 0 <=? e then d
      else
        let a := (2 * Z.pos m + 2 ^ (- e)) / 2 ^ (1 - e) in
        match a with
        | 0 => S754_zero s
        | _ => double_of_Z (if s then - a else a)
        end
  | _ => d
  end.

Definition is_nan (d : double) : bool :=
  match d with S754_nan => true | _ => false end.

(** [std::ranges::sort]: ordered by [<]; with a NaN in the list, [<] is not a
    strict weak order and the call is undefined. *)
Definition not_after (d1 d2 : double) : Prop := dltb d2 d1 = false.

#[export] Instance not_after_dec : RelDecision not_after.
Proof. intros d1 d2. unfold not_after. apply _. Defined.

Definition sort_doubles (l : list double) : exec (list double) :=
  if existsb is_nan l then Undefined else Ret (merge_sort not_after l).

(** ** Order *)

(** The order of the represented values: [SFcompare] compares signs, then
    exponents, then significands. *)
Lemma dleb_refl d : is_nan d = false → dleb d d = true.
Proof.
  unfold dleb, SFleb, SFcompare. destruct d as [s|s| |s m e]; try done; intros _.
  - by destruct s.
  - rewrite Z.compare_refl. change (Pos.compare_cont Eq m m) with (Pos.compare m m).
    rewrite Pos.compare_refl. by destruct s.
Qed.

Lemma dleb_total d1 d2 :
  is_nan d1 = false → is_nan d2 = false → dleb d1 d2 = true ∨ dleb d2 d1 = true.
Proof.
  unfold dleb, SFleb, SFcompare. intros H1 H2.
  destruct d1 as [s1|s1| |s1 m1 e1], d2 as [s2|s2| |s2 m2 e2]; try done;
    try (by destruct s1, s2; auto); try (by destruct s1; auto); try (by destruct s2; auto).
  change (Pos.compare_cont Eq m1 m2) with (Pos.compare m1 m2).
  change (Pos.compare_cont Eq m2 m1) with (Pos.compare m2 m1).
  destruct s1, s2; auto.
  - destruct (Z.compare_spec e1 e2), (Z.compare_spec e2 e1); try lia; auto.
    destruct (Pos.compare_spec m1 m2), (Pos.compare_spec m2 m1); simpl; try lia; auto.
  - destruct (Z.compare_spec e1 e2), (Z.compare_spec e2 e1); try lia; auto.
    destruct (Pos.compare_spec m1 m2), (Pos.compare_spec m2 m1); simpl; try lia; auto.
Qed.

Lemma dleb_trans d1 d2 d3 : dleb d1 d2 = true → dleb d2 d3 = true → dleb d1 d3 = true.
Proof.
  unfold dleb, SFleb, SFcompare.
  destruct d1 as [s1|s1| |s1 m1 e1], d2 as [s2|s2| |s2 m2 e2], d3 as [s3|s3| |s3 m3 e3]; try done;
    try (by destruct s1, s2, s3); try (by destruct s1, s2); try (by destruct s2, s3);
    try (by destruct s1, s3); try (by destruct s1); try (by destruct s3); try (by destruct s2).
  change (Pos.compare_cont Eq m1 m2) with (Pos.compare m1 m2).
  change (Pos.compare_cont Eq m2 m3) with (Pos.compare m2 m3).
  change (Pos.compare_cont Eq m1 m3) with (Pos.compare m1 m3).
  destruct s1, s2, s3; try done;
    destruct (Z.compare_spec e1 e2), (Z.compare_spec e2 e3), (Z.compare_spec e1 e3);
    subst; try lia; try done;
    destruct (Pos.compare_spec m1 m2), (Pos.compare_spec m2 m3), (Pos.compare_spec m1 m3);
    subst; simpl; try lia; try done.
Qed.

Lemma dltb_asym d1 d2 : dltb d1 d2 = true → dltb d2 d1 = false.
Proof.
  unfold dltb, SFltb, SFcompare.
  destruct d1 as [s1|s1| |s1 m1 e1], d2 as [s2|s2| |s2 m2 e2]; try done;
    try (by destruct s1, s2); try (by destruct s1); try (by destruct s2).
  change (Pos.compare_cont Eq m1 m2) with (Pos.compare m1 m2).
  change (Pos.compare_cont Eq m2 m1) with (Pos.compare m2 m1).
  destruct s1, s2; try done;
    destruct (Z.compare_spec e1 e2), (Z.compare_spec e2 e1); try lia; try done;
    destruct (Pos.compare_spec m1 m2), (Pos.compare_spec m2 m1); simpl; try lia; done.
Qed.

Lemma dltb_false_dleb d1 d2 :
  is_nan d1 = false → is_nan d2 = false → dltb d2 d1 = false → dleb d1 d2 = true.
Proof.
  intros H1 H2 Hlt. destruct (dleb_total d1 d2 H1 H2) as [?|H21]; [done|].
  revert Hlt H21. unfold dltb, SFltb, dleb, SFleb, SFcompare.
  destruct d1 as [s1|s1| |s1 m1 e1], d2 as [s2|s2| |s2 m2 e2]; try done;
    try (by destruct s1, s2); try (by destruct s1); try (by destruct s2).
  change (Pos.compare_cont Eq m1 m2) with (Pos.compare m1 m2).
  change (Pos.compare_cont Eq m2 m1) with (Pos.compare m2 m1).
  destruct s1, s2; try done;
    destruct (Z.compare_spec e1 e2), (Z.compare_spec e2 e1); try lia; try done;
    destruct (Pos.compare_spec m1 m2), (Pos.compare_spec m2 m1); simpl; try lia; done.
Qed.

#[export] Instance not_after_total : Total not_after.
Proof.
  intros d1 d2. unfold not_after. destruct (dltb d2 d1) eqn:H; [right|by left].
  by apply dltb_asym.
Qed.

Lemma sort_doubles_ok l :
  Forall (λ d, is_nan d = false) l →
  ∃ s, sort_doubles l = Ret s ∧ s ≡ₚ l ∧ StronglySorted (λ d1 d2, dleb d1 d2 = true) s.
Proof.
  intros Hl. unfold sort_doubles. exists (merge_sort not_after l).
  assert (Hn : existsb is_nan l = false).
  { apply not_true_iff_false. rewrite existsb_exists. intros (d & Hd & Hn).
    apply list_elem_of_In in Hd. rewrite Forall_forall in Hl. rewrite Hl in Hn; done. }
  rewrite Hn. assert (Hp : merge_sort not_after l ≡ₚ l) by apply merge_sort_Permutation.
  split_and!; [done|done|]. apply Sorted_StronglySorted; [intros ? ? ?; apply dleb_trans|].
  apply (Permutation_Forall (Permutation_sym Hp)) in Hl. clear Hp Hn.
  pose proof (Sorted_merge_sort not_after l) as Hs.
  induction Hs as [|d s Hs IH Hd]; [constructor|].
  apply Forall_cons in Hl as [Hd1 Hl]. constructor.
  - apply IH. done.
  - destruct Hd as [|d2 s Hd]; constructor. apply Forall_cons in Hl as [Hd2 _].
    by apply dltb_false_dleb.
Qed.

(** ** Results that are numbers

    A significand never becomes negative while it is shifted and rounded, so
    neither a conversion nor a division by a number other than zero gives a
    NaN. *)
Lemma iter_pos_invariant {A} (P : A → Prop) (f : A → A) n x :
  (∀ y, P y → P (f y)) → P x → P (SpecFloat.iter_pos f n x).
Proof. intros Hf. revert x. induction n as [n IH|n IH|]; intros x Hx; simpl; auto. Qed.

Lemma shr_1_nonneg r : 0 ≤ shr_m r → 0 ≤ shr_m (shr_1 r).
Proof. destruct r as [[|[p|p|]|p] b1 b2]; simpl; lia. Qed.

Lemma shr_fexp_nonneg m e l : 0 ≤ m → 0 ≤ shr_m (shr_fexp 53 1024 m e l).1.
Proof.
  intros Hm. unfold shr_fexp, shr.
  assert (Hr : 0 ≤ shr_m (shr_record_of_loc m l)) by (destruct l as [|[]]; done).
  destruct (fexp 53 1024 (Zdigits2 m + e) - e) as [|n|n]; cbn [fst]; [done| |done].
  apply iter_pos_invariant; [apply shr_1_nonneg|done].
Qed.

Lemma round_nearest_even_nonneg m l : 0 ≤ m → 0 ≤ round_nearest_even m l.
Proof. intros Hm. destruct l as [|[]]; simpl; [..|]; try lia. destruct (Z.even m); lia. Qed.

Lemma round_not_nan s m e l : 0 ≤ m → is_nan (binary_round_aux 53 1024 s m e l) = false.
Proof.
  intros Hm. unfold binary_round_aux.
  pose proof (shr_fexp_nonneg m e l Hm) as H1. destruct (shr_fexp 53 1024 m e l) as [r1 e1]. cbn [fst] in H1.
  pose proof (shr_fexp_nonneg _ e1 loc_Exact (round_nearest_even_nonneg _ (loc_of_shr_record r1) H1)) as H2.
  destruct (shr_fexp 53 1024 (round_nearest_even _ _) e1 loc_Exact) as [r2 e2]. cbn [fst] in H2.
  destruct (shr_m r2); [done|by destruct (e2 <=? 1024 - 53)|lia].
Qed.

Lemma double_of_Z_not_nan z : is_nan (double_of_Z z) = false.
Proof.
  unfold double_of_Z, binary_normalize, binary_round.
  destruct z as [|p|p]; [done|..]; destruct (shl_align _ _ _); by apply round_not_nan.
Qed.

Lemma ddiv_not_nan x (s : bool) m e : is_nan x = false → is_nan (ddiv x (S754_finite s m e)) = false.
Proof.
  intros Hx. unfold ddiv, SFdiv. destruct x as [s'|s'| |s' m' e']; [done|done|done|].
  destruct (SFdiv_core_binary 53 1024 (Z.pos m') e' (Z.pos m) e) as [[q e2] l] eqn:Hq.
  apply round_not_nan. unfold SFdiv_core_binary in Hq.
  set (n := match _ with Z0 => _ | Z.pos _ => _ | Z.neg _ => _ end) in Hq.
  assert (Hn : 0 ≤ n) by (unfold n; destruct (_ - _); [lia|apply Z.shiftl_nonneg; lia|lia]).
  pose proof (Z_div_mod n (Z.pos m) ltac:(lia)) as Hd.
  destruct (Z.div_eucl n (Z.pos m)) as [q' r]. injection Hq as -> _ _. nia.
Qed.
