(* ===== verification/Json.v ===== *)
(** * The interface to nlohmann::json

    The JSON library is not part of the repository.  The development is
    parametric in its type of values and in the operations the program calls
    ([JsonOps]); the theorems that rely on its behaviour assume the laws of
    [JsonLaws], which restate the library's documentation.  [Module Tree] is a
    concrete instance, on which the witnesses evaluate. *)
From Stdlib Require Import ZArith Lia Ascii String.
From S2P Require Import Prelude StdList Double.

Class JsonOps (J : Type) := {
  json_null : J;                             (* nlohmann::json() *)
  json_of_bool : bool → J;
  json_of_int : Z → J;
  json_of_double : double → J;
  json_of_string : string → J;
  json_of_list : list J → J;                 (* array(), push_back in order *)
  json_is_null : J → bool;
  json_is_object : J → bool;
  json_find : string → J → option J;         (* contains(key), j[key] *)
  json_set : string → J → J → exec J;        (* j[key] = v *)
  json_update : J → J → exec J;              (* j.update(o) *)
  json_value_bool : string → bool → J → exec bool;   (* j.value(key, default) *)
  json_bool : J → option bool;               (* is_boolean(), get<bool>() *)
  json_int : J → option Z;                   (* is_number_integer(), its value *)
  json_string : J → option string;           (* is_string(), its value *)
  json_get_string : J → exec string;         (* get<std::string>() *)
  json_list : J → option (list J);           (* is_array(), begin() .. end() *)
  json_dump : J → exec string;               (* dump() *)
  json_dump_pretty : J → exec string;        (* dump(2) *)
  json_parse : string → exec J;              (* parse(s) *)
  json_read : string → exec J                (* stream >> j, at the start of s *)
}.

(** The documented behaviour the program relies on. *)
Class JsonLaws (J : Type) `{!JsonOps J} : Prop := {
  json_null_is_null : json_is_null (json_null : J) = true;
  json_find_null k (j : J) : json_is_null j = true → json_find k j = None;
  json_set_ok k v (j : J) :
    json_is_null j = true ∨ json_is_object j = true →
    ∃ j', json_set k v j = Ret j' ∧ json_is_object j' = true ∧
      ∀ k', json_find k' j' = if decide (k' = k) then Some v else json_find k' j;
  json_update_ok (j o : J) :
    json_is_object j = true → json_is_object o = true →
    ∃ j', json_update j o = Ret j' ∧ json_is_object j' = true ∧
      ∀ k, json_find k j' = match json_find k o with Some v => Some v | None => json_find k j end;
  json_value_bool_ok k d (j : J) :
    json_is_object j = true →
    match json_find k j with
    | None => json_value_bool k d j = Ret d
    | Some v => match json_bool v with
                | Some b => json_value_bool k d j = Ret b
                | None => ∃ what, json_value_bool k d j = Throw (json_exception what)
                end
    end;
  json_bool_of_bool b : json_bool (json_of_bool b : J) = Some b;
  json_int_of_int z : json_int (json_of_int z : J) = Some z;
  json_string_of_string s : json_string (json_of_string s : J) = Some s;
  json_get_string_ok (j : J) :
    match json_string j with
    | Some s => json_get_string j = Ret s
    | None => ∃ what, json_get_string j = Throw (json_exception what)
    end;
  json_list_of_list (l : list J) : json_list (json_of_list l) = Some l
}.

Definition json_contains {J} `{!JsonOps J} (k : string) (j : J) : bool :=
  match json_find k j with Some _ => true | None => false end.

(** Building an object member by member, as the handlers do. *)
Fixpoint json_set_all {J} `{!JsonOps J} (kvs : list (string * J)) (j : J) : exec J :=
  match kvs with
  | [] => Ret j
  | (k, v) :: kvs' => j' ← json_set k v j; json_set_all kvs' j'
  end.

Definition json_object {J} `{!JsonOps J} (kvs : list (string * J)) : exec J :=
  json_set_all kvs json_null.

(** Values [dump] can print: all text in them is ASCII (it throws on text that
    is not UTF-8). *)
Definition ascii_text (s : string) : Prop :=
  Forall (λ c, (N_of_ascii c < 128)%N) (list_ascii_of_string s).

Inductive printable {J} `{!JsonOps J} : J → Prop :=
| printable_bool b : printable (json_of_bool b)
| printable_int z : printable (json_of_int z)
| printable_double d : printable (json_of_double d)
| printable_string s : ascii_text s → printable (json_of_string s)
| printable_list l : Forall printable l → printable (json_of_list l)
| printable_object kvs j :
    json_object kvs = Ret j → Forall (λ p, ascii_text p.1 ∧ printable p.2) kvs → printable j.

Class JsonPrints (J : Type) `{!JsonOps J} : Prop :=
  json_dump_ok (j : J) : printable j → ∃ text, json_dump j = Ret text.

(** ** A concrete instance *)
Module Tree.

Inductive tree :=
| Null
| Bool (b : bool)
| Int (z : Z)
| Num (d : double)
| Str (s : string)
| Arr (l : list tree)
| Obj (m : list (string * tree)).

Definition members (j : tree) : list (string * tree) :=
  match j with Obj m => m | _ => [] end.

Definition find (k : string) (j : tree) : option tree := alist_find k (members j).

Definition set (k : string) (v j : tree) : exec tree :=
  match j with
  | Null => Ret (Obj [(k, v)])
  | Obj m => Ret (Obj ((k, v) :: alist_remove k m))
  | _ => Throw (json_exception "cannot use operator[] with a string argument")
  end.

Definition update (j o : tree) : exec tree :=
  match j, o with
  | Obj m, Obj m' => Ret (Obj (m' ++ filter (λ p, p.1 ∉ m'.*1) m))
  | Null, Obj m' => Ret (Obj m')
  | _, _ => Throw (json_exception "cannot use update()")
  end.

Definition value_bool (k : string) (d : bool) (j : tree) : exec bool :=
  match j with
  | Obj m =>
      match alist_find k m with
      | None => Ret d
      | Some (Bool b) => Ret b
      | Some _ => Throw (json_exception "type must be boolean")
      end
  | _ => Throw (json_exception "cannot use value()")
  end.

(** The instance for a given printer and parser. *)
Definition ops (dump : tree → exec string) (parse : string → exec tree) : JsonOps tree := {|
  json_null := Null;
  json_of_bool := Bool;
  json_of_int := Int;
  json_of_double := Num;
  json_of_string := Str;
  json_of_list := Arr;
  json_is_null j := match j with Null => true | _ => false end;
  json_is_object j := match j with Obj _ => true | _ => false end;
  json_find := find;
  json_set := set;
  json_update := update;
  json_value_bool := value_bool;
  json_bool j := match j with Bool b => Some b | _ => None end;
  json_int j := match j with Int z => Some z | _ => None end;
  json_string j := match j with Str s => Some s | _ => None end;
  json_get_string j := match j with
                       | Str s => Ret s
                       | _ => Throw (json_exception "type must be string")
                       end;
  json_list j := match j with Arr l => Some l | _ => None end;
  json_dump := dump;
  json_dump_pretty := dump;
  json_parse := parse;
  json_read := parse
|}.

(** The instance the witnesses use: every value prints as ["{}"]. *)
Definition sample : JsonOps tree := ops (λ _, Ret "{}") (λ _, Ret Null).

End Tree.

(** ** Lemmas *)
Lemma alist_find_app {V} k (l1 l2 : list (string * V)) :
  alist_find k (l1 ++ l2) = match alist_find k l1 with Some v => Some v | None => alist_find k l2 end.
Proof.
  induction l1 as [|p l1 IH]; [done|]. simpl. rewrite !alist_find_cons. by case_decide.
Qed.

Lemma alist_find_filter_ne {V} k (ks : list string) (l : list (string * V)) :
  k ∉ ks → alist_find k (filter (λ p, p.1 ∉ ks) l) = alist_find k l.
Proof.
  intros Hk. induction l as [|p l IH]; [done|]. rewrite filter_cons.
  destruct (decide (p.1 ∉ ks)) as [Hp|Hp]; rewrite !alist_find_cons, IH; [done|].
  rewrite decide_False; [done|]. intros <-. by apply Hp.
Qed.

Lemma tree_laws dump parse : @JsonLaws Tree.tree (Tree.ops dump parse).
Proof.
  split; simpl; try done.
  - by intros k [].
  - intros k v j Hj. destruct j as [| | | | | |m]; try (by destruct Hj).
    + eexists; split; [done|]. split; [done|]. intros k'. unfold Tree.find. simpl.
      rewrite alist_find_cons. simpl. repeat case_decide; try done; congruence.
    + eexists; split; [done|]. split; [done|]. intros k'. unfold Tree.find. simpl.
      rewrite alist_find_cons. simpl. repeat case_decide; subst; try done.
      by rewrite alist_find_remove_ne.
  - intros j o Hj Ho. destruct j as [| | | | | |m]; try done. destruct o as [| | | | | |m']; try done.
    simpl. eexists; split; [done|]. split; [done|]. intros k. unfold Tree.find. simpl.
    rewrite alist_find_app. destruct (alist_find k m') eqn:Hk; [done|].
    apply alist_find_None in Hk. by apply alist_find_filter_ne.
  - intros k d j Hj. destruct j as [| | | | | |m]; try done. unfold Tree.find. simpl.
    destruct (alist_find k m) as [[]|]; simpl; eauto.
  - intros j. destruct j; simpl; eauto.
Qed.

Lemma tree_prints text parse : @JsonPrints Tree.tree (Tree.ops (λ _, Ret text) parse).
Proof. intros j _. by exists text. Qed.

Section JsonFacts.
Context {J : Type} `{JL : JsonLaws J}.

Lemma json_set_null k (v : J) :
  ∃ j', json_set k v json_null = Ret j' ∧ json_is_object j' = true ∧
    ∀ k', json_find k' j' = if decide (k' = k) then Some v else None.
Proof.
  destruct (json_set_ok k v (json_null : J)) as (j' & H1 & H2 & H3); [left; apply json_null_is_null|].
  exists j'. split_and!; [done|done|]. intros k'. rewrite H3.
  by rewrite (json_find_null k') by apply json_null_is_null.
Qed.

Lemma json_set_all_ok (kvs : list (string * J)) (j : J) :
  json_is_object j = true →
  ∃ j', json_set_all kvs j = Ret j' ∧ json_is_object j' = true ∧
    ∀ k, json_find k j' = match alist_find k (rev kvs) with Some v => Some v | None => json_find k j end.
Proof.
  revert j. induction kvs as [|[k v] kvs IH]; intros j Hj; [by exists j|].
  simpl. destruct (json_set_ok k v j) as (j1 & -> & Hj1 & Hf1); [by right|]. simpl.
  destruct (IH j1 Hj1) as (j2 & -> & Hj2 & Hf2). exists j2. split_and!; [done|done|].
  intros k'. rewrite Hf2, Hf1, alist_find_app, alist_find_cons. simpl.
  destruct (alist_find k' (rev kvs)); [done|]. repeat case_decide; try done; congruence.
Qed.

Lemma json_object_ok (kvs : list (string * J)) :
  kvs ≠ [] →
  ∃ j, json_object kvs = Ret j ∧ json_is_object j = true ∧
    ∀ k, json_find k j = alist_find k (rev kvs).
Proof.
  destruct kvs as [|[k v] kvs]; [done|]. intros _. unfold json_object. simpl.
  destruct (json_set_null k v) as (j1 & -> & Hj1 & Hf1). simpl.
  destruct (json_set_all_ok kvs j1 Hj1) as (j2 & -> & Hj2 & Hf2). exists j2. split_and!; [done|done|].
  intros k'. rewrite Hf2, Hf1, alist_find_app, alist_find_cons. simpl.
  destruct (alist_find k' (rev kvs)); [done|]. repeat case_decide; try done; congruence.
Qed.
End JsonFacts.
