(* ===== verification/CppString.v ===== *)
(** * Byte strings: the parts of [std::string], [<cctype>] and the numeric
    conversions the program uses

    A [std::string] is a [string] of bytes; its positions are those of the
    list of its bytes.  Character classes are those of the "C" locale. *)
From Stdlib Require Import ZArith Lia Ascii String.
From stdpp Require Import pretty.
From S2P Require Import Prelude.
#[local] Open Scope Z_scope.

Definition bytes (s : string) : list ascii := list_ascii_of_string s.
Definition str (l : list ascii) : string := string_of_list_ascii l.

Definition code (c : ascii) : Z := Z.of_N (N_of_ascii c).

Definition size (s : string) : Z := Z.of_nat (length (bytes s)).

Definition is_empty (s : string) : bool := match s with EmptyString => true | _ => false end.

(** [s.substr(pos, n)]; the program never calls it with [pos > s.size()]. *)
Definition substr (s : string) (pos n : nat) : string := str (take n (drop pos (bytes s))).

(** [s.find(c)] *)
Definition find_char (c : ascii) (s : string) : option nat :=
  fst <$> list_find (λ d, d = c) (bytes s).

(** [s.find_first_not_of(cs)], [s.find_last_not_of(cs)]; [None] is [npos]. *)
Definition find_first_not_of (cs : list ascii) (s : string) : option nat :=
  fst <$> list_find (λ d, d ∉ cs) (bytes s).

Definition find_last_not_of (cs : list ascii) (s : string) : option nat :=
  (λ p : nat * ascii, (length (bytes s) - 1 - p.1)%nat) <$>
    list_find (λ d, d ∉ cs) (rev (bytes s)).

(** [s.starts_with(p)] *)
Definition starts_with (p s : string) : bool := String.prefix p s.

(** The C string [s.c_str()] ends at the first NUL byte. *)
Fixpoint until_nul (l : list ascii) : list ascii :=
  match l with
  | [] => []
  | c :: l' => if decide (c = Ascii.zero) then [] else c :: until_nul l'
  end.

Definition c_str (s : string) : string := str (until_nul (bytes s)).

Definition newline : ascii := "010"%char.
Definition tab : ascii := "009"%char.
Definition carriage_return : ascii := "013"%char.
Definition space : ascii := " "%char.

(** ** Character classes *)
Definition is_digit (c : ascii) : bool := (48 <=? code c) && (code c <=? 57).

Definition is_xdigit (c : ascii) : bool :=
  is_digit c || (65 <=? code c) && (code c <=? 70) || (97 <=? code c) && (code c <=? 102).

Definition is_space (c : ascii) : bool := (code c =? 32) || (9 <=? code c) && (code c <=? 13).

Definition to_upper (c : ascii) : ascii :=
  if (97 <=? code c) && (code c <=? 122) then ascii_of_N (N_of_ascii c - 32) else c.

(** ** Numbers *)
Definition to_string (z : Z) : string := pretty z.

Fixpoint skip_space (l : list ascii) : list ascii :=
  match l with
  | c :: l' => if is_space c then skip_space l' else l
  | [] => []
  end.

(** The value of the longest prefix of digits, and how many there are. *)
Fixpoint read_digits (acc : Z) (count : nat) (l : list ascii) : Z * nat :=
  match l with
  | c :: l' => if is_digit c then read_digits (10 * acc + (code c - 48)) (S count) l'
               else (acc, count)
  | [] => (acc, count)
  end.

(** [strtol] at base 10 without its clamping: the sign and the magnitude, or
    [None] when there is no number. *)
Definition scan_number (s : string) : option (bool * Z) :=
  let l := skip_space (bytes (c_str s)) in
  let '(neg, l') := match l with
                    | c :: l' => if decide (c = "-"%char) then (true, l')
                                 else if decide (c = "+"%char) then (false, l') else (false, l)
                    | [] => (false, [])
                    end in
  let '(v, n) := read_digits 0 0 l' in
  match n with O => None | _ => Some (neg, v) end.

(** [std::stoi], [std::stoll] *)
Definition sto_signed (what : string) (lo hi : Z) (s : string) : exec Z :=
  match scan_number s with
  | None => Throw (invalid_argument what)
  | Some (neg, v) =>
      let z := if neg then - v else v in
      if (lo <=? z) && (z <=? hi) then Ret z else Throw (out_of_range what)
  end.

Definition stoi : string → exec Z := sto_signed "stoi" (-2147483648) 2147483647.
Definition stoll : string → exec Z :=
  sto_signed "stoll" (-9223372036854775808) 9223372036854775807.

(** [std::stoull]: a minus sign negates modulo 2^64. *)
Definition stoull (s : string) : exec Z :=
  match scan_number s with
  | None => Throw (invalid_argument "stoull")
  | Some (neg, v) =>
      if v <=? u64_max then Ret (u64 (if neg then - v else v)) else Throw (out_of_range "stoull")
  end.

(** [std::getline] until the end of the stream: the lines of a file, without
    their newlines; there is no line after a final newline. *)
Fixpoint split_lines (cur : list ascii) (l : list ascii) : list (list ascii) :=
  match l with
  | [] => match cur with [] => [] | _ => [rev cur] end
  | c :: l' => if decide (c = newline) then rev cur :: split_lines [] l'
               else split_lines (c :: cur) l'
  end.

Definition lines (s : string) : list string := str <$> split_lines [] (bytes s).

(** What [substr] returns between the first and the last byte outside [cs]. *)
Definition trim_span (cs : list ascii) (s : string) : option string :=
  match find_first_not_of cs s, find_last_not_of cs s with
  | Some start, Some stop => Some (substr s start (stop - start + 1))
  | _, _ => None
  end.

(** ** Lemmas *)
Lemma stoll_safe s : safe (stoll s).
Proof. unfold stoll, sto_signed. destruct (scan_number s) as [[neg v]|]; [|done]. by destruct (_ && _). Qed.

Lemma stoull_safe s : safe (stoull s).
Proof. unfold stoull. destruct (scan_number s) as [[neg v]|]; [|done]. by destruct (v <=? u64_max). Qed.

Lemma str_bytes s : str (bytes s) = s.
Proof. apply string_of_list_ascii_of_string. Qed.

Lemma bytes_str l : bytes (str l) = l.
Proof. apply list_ascii_of_string_of_list_ascii. Qed.

Lemma str_inj l1 l2 : str l1 = str l2 → l1 = l2.
Proof. intros H. by rewrite <-(bytes_str l1), H, bytes_str. Qed.

Lemma bytes_inj s1 s2 : bytes s1 = bytes s2 → s1 = s2.
Proof. intros H. by rewrite <-(str_bytes s1), H, str_bytes. Qed.

Lemma bytes_app s1 s2 : bytes (s1 +:+ s2) = bytes s1 ++ bytes s2.
Proof. induction s1 as [|c s1 IH]; [done|].
  change (c :: bytes (s1 +:+ s2) = c :: (bytes s1 ++ bytes s2)). by rewrite IH.
Qed.

Lemma append_assoc (s1 s2 s3 : string) : (s1 +:+ s2) +:+ s3 = s1 +:+ s2 +:+ s3.
Proof. apply bytes_inj. by rewrite !bytes_app, app_assoc. Qed.

Lemma is_empty_bytes s : is_empty s = false ↔ bytes s ≠ [].
Proof. by destruct s. Qed.

Lemma is_empty_eq s : is_empty s = true ↔ s = "".
Proof. by destruct s. Qed.

Lemma code_range c : 0 ≤ code c < 256.
Proof. unfold code. pose proof (N_ascii_bounded c). lia. Qed.

Lemma code_inj c d : code c = code d → c = d.
Proof.
  unfold code. intros H. apply N2Z.inj in H.
  by rewrite <-(ascii_N_embedding c), H, ascii_N_embedding.
Qed.

Lemma until_nul_app l1 l2 :
  Forall (λ c, c ≠ Ascii.zero) l1 → until_nul (l1 ++ Ascii.zero :: l2) = l1.
Proof.
  induction 1 as [|c l1 Hc _ IH]; [done|]. simpl.
  rewrite decide_False by done. by rewrite IH.
Qed.

Lemma until_nul_id l : Forall (λ c, c ≠ Ascii.zero) l → until_nul l = l.
Proof. induction 1 as [|c l Hc _ IH]; simpl; [done|]. rewrite decide_False by done. by rewrite IH. Qed.

Lemma find_first_split (cs : list ascii) l i c :
  list_find (λ d, d ∉ cs) l = Some (i, c) →
  l = take i l ++ c :: drop (S i) l ∧ Forall (λ d, d ∈ cs) (take i l) ∧ c ∉ cs ∧ (i < length l)%nat.
Proof.
  intros Hf. apply list_find_Some in Hf as (Hl & Hc & Hall). split_and!.
  - symmetry. by apply take_drop_middle.
  - apply Forall_lookup_2. intros j d Hj. apply lookup_take_Some in Hj as [Hj Hlt].
    destruct (decide (d ∈ cs)); [done|]. by destruct (Hall j d Hj Hlt).
  - done.
  - by eapply lookup_lt_Some.
Qed.

(** The span between the first and the last byte outside [cs]: what is cut off
    on both sides lies in [cs], and the span's own ends do not. *)
Lemma trim_span_Some cs s t :
  trim_span cs s = Some t →
  ∃ pre post, bytes s = pre ++ bytes t ++ post ∧
    Forall (λ d, d ∈ cs) pre ∧ Forall (λ d, d ∈ cs) post ∧
    (∃ c l, bytes t = c :: l ∧ c ∉ cs) ∧ (∃ c l, bytes t = l ++ [c] ∧ c ∉ cs).
Proof.
  unfold trim_span, find_first_not_of, find_last_not_of, substr.
  destruct (list_find _ (bytes s)) as [[i c]|] eqn:Hf; [|done].
  destruct (list_find _ (rev (bytes s))) as [[j d]|] eqn:Hr; [|done].
  simpl. intros [= <-]. rewrite bytes_str.
  apply find_first_split in Hf as (Hl & Hpre & Hc & Hi).
  apply find_first_split in Hr as (Hl' & Hpost & Hd & Hj).
  set (l := bytes s) in *. rewrite length_rev in Hj.
  assert (Hl2 : l = rev (drop (S j) (rev l)) ++ d :: rev (take j (rev l))).
  { rewrite <-(rev_involutive l) at 1. rewrite Hl' at 1.
    rewrite rev_app_distr. simpl. by rewrite <-app_assoc. }
  assert (Hlen2 : length (rev (drop (S j) (rev l))) = (length l - 1 - j)%nat).
  { rewrite length_rev, length_drop, length_rev. lia. }
  assert (Hlp : length (rev (take j (rev l))) = j).
  { rewrite length_rev, length_take, length_rev. lia. }
  set (m := (length l - 1 - j)%nat) in *.
  assert (Hdl : l !! m = Some d).
  { rewrite Hl2. by rewrite lookup_app_r, Hlen2, Nat.sub_diag by lia. }
  assert (Hcl : l !! i = Some c).
  { rewrite Hl. rewrite lookup_app_r; rewrite length_take; [|lia].
    by rewrite Nat.min_l, Nat.sub_diag by lia. }
  assert (Him : (i ≤ m)%nat).
  { destruct (decide (i ≤ m)%nat); [done|]. exfalso.
    rewrite Hl2 in Hcl. rewrite lookup_app_r in Hcl by lia. rewrite Hlen2 in Hcl.
    destruct (i - m)%nat as [|n'] eqn:Hn; [lia|]. simpl in Hcl.
    apply Forall_rev in Hpost. rewrite Forall_lookup in Hpost. by apply Hpost in Hcl. }
  exists (take i l), (rev (take j (rev l))).
  assert (Hmid : drop i l = take (m - i + 1) (drop i l) ++ rev (take j (rev l))).
  { rewrite <-(take_drop (m - i + 1) (drop i l)) at 1. f_equal.
    rewrite drop_drop. replace (i + (m - i + 1))%nat with (S m) by lia.
    assert (Hl3 : l = (rev (drop (S j) (rev l)) ++ [d]) ++ rev (take j (rev l))).
    { rewrite <-app_assoc. exact Hl2. }
    rewrite Hl3 at 1. apply drop_app_length'. rewrite length_app, Hlen2. simpl. lia. }
  split_and!.
  - by rewrite <-Hmid, take_drop.
  - done.
  - by apply Forall_rev.
  - exists c, (take (m - i) (drop (S i) l)). split; [|done].
    rewrite (drop_S l c i Hcl). replace (m - i + 1)%nat with (S (m - i)) by lia. done.
  - exists d, (take (m - i) (drop i l)). split; [|done].
    replace (m - i + 1)%nat with (S (m - i)) by lia. apply take_S_r.
    rewrite lookup_drop. by replace (i + (m - i))%nat with m by lia.
Qed.

Lemma trim_span_None cs s : trim_span cs s = None ↔ Forall (λ d, d ∈ cs) (bytes s).
Proof.
  unfold trim_span, find_first_not_of, find_last_not_of.
  destruct (list_find _ (bytes s)) as [[i c]|] eqn:Hf.
  - apply find_first_split in Hf as (Hl & _ & Hc & _).
    assert (Hn : ¬ Forall (λ d, d ∈ cs) (bytes s)).
    { rewrite Hl. rewrite Forall_app, Forall_cons. tauto. }
    destruct (list_find _ (rev (bytes s))) as [[j d]|] eqn:Hr; simpl; [done|].
    split; [|done]. intros _. exfalso. apply list_find_None in Hr.
    apply Hn. apply Forall_rev in Hr. rewrite rev_involutive in Hr.
    eapply Forall_impl; [exact Hr|]. intros x Hx. by destruct (decide (x ∈ cs)).
  - split; [intros _|done]. apply list_find_None in Hf.
    eapply Forall_impl; [exact Hf|]. intros x Hx. by destruct (decide (x ∈ cs)).
Qed.

(** There is one way to cut a text after the bytes in [cs] it starts with. *)
Lemma span_unique (cs pre pre' l l' : list ascii) :
  Forall (λ d, d ∈ cs) pre → Forall (λ d, d ∈ cs) pre' →
  (∃ c m, l = c :: m ∧ c ∉ cs) → (∃ c m, l' = c :: m ∧ c ∉ cs) → pre ++ l = pre' ++ l' → l = l'.
Proof.
  intros Hp Hp' (c & m & -> & Hc) (c' & m' & -> & Hc'). revert pre' Hp'.
  induction Hp as [|d pre Hd _ IH]; intros [|d' pre'] Hp' Heq; simplify_eq/=; try done;
    apply Forall_cons in Hp' as [? ?]; [done|]. by eapply IH.
Qed.

(** The trimmed text is the only one that fits. *)
Lemma trim_span_unique cs s t pre post :
  bytes s = pre ++ bytes t ++ post → Forall (λ d, d ∈ cs) pre → Forall (λ d, d ∈ cs) post →
  (∃ c l, bytes t = c :: l ∧ c ∉ cs) → (∃ c l, bytes t = l ++ [c] ∧ c ∉ cs) → trim_span cs s = Some t.
Proof.
  intros Hs Hpre Hpost Hfirst Hlast. destruct (trim_span cs s) as [t'|] eqn:Ht.
  2:{ apply trim_span_None in Ht. rewrite Hs in Ht. destruct Hfirst as (c & l & Hl & Hc). rewrite Hl in Ht.
      apply Forall_app in Ht as [_ Ht]. by apply Forall_cons in Ht as [? _]. }
  apply trim_span_Some in Ht as (pre' & post' & Hs' & Hpre' & Hpost' & Hfirst' & Hlast').
  f_equal. apply bytes_inj. rewrite Hs in Hs'.
  apply (span_unique cs) in Hs'; [|done|done|..].
  2:{ destruct Hfirst as (c & l & -> & Hc). by eexists c, _. }
  2:{ destruct Hfirst' as (c & l & -> & Hc). by eexists c, _. }
  apply (f_equal (@rev ascii)) in Hs'. rewrite !rev_app_distr in Hs'.
  apply (span_unique cs) in Hs'; [|by apply Forall_rev..| |].
  - by rewrite <-(rev_involutive (bytes t')), <-Hs', rev_involutive.
  - destruct Hlast as (c & l & -> & Hc). rewrite rev_app_distr. by eexists c, _.
  - destruct Hlast' as (c & l & -> & Hc). rewrite rev_app_distr. by eexists c, _.
Qed.

(** *** Lines *)

(** A line of a text: no newline in it, and one before and after it, or the
    ends of the text. *)
Definition line_of (line text : list ascii) : Prop :=
  newline ∉ line ∧ ∃ before after, text = before ++ line ++ after ∧
    (before = [] ∨ ∃ b, before = b ++ [newline]) ∧ (after = [] ∨ ∃ a, after = newline :: a).

Lemma newline_split (a a' b b' : list ascii) :
  newline ∉ a → a ++ newline :: b = a' ++ newline :: b' →
  (a' = a ∧ b' = b) ∨ ∃ q, a' = a ++ newline :: q ∧ b = q ++ newline :: b'.
Proof.
  revert a'. induction a as [|c a IH]; intros [|c' a'] Hn Heq; simpl in Heq.
  - injection Heq as ->. by left.
  - injection Heq as <- ->. right. by exists a'.
  - injection Heq as -> _. destruct Hn. by left.
  - injection Heq as <- Heq. apply not_elem_of_cons in Hn as [_ Hn]. destruct (IH a' Hn Heq) as [[-> ->]|(q & -> & ->)]; [by left|right]. by exists q.
Qed.

Lemma line_of_cons x a b : newline ∉ a → line_of x (a ++ newline :: b) ↔ x = a ∨ line_of x b.
Proof.
  intros Ha. split.
  - intros (Hx & before & after & Heq & [->|[p ->]] & Hafter).
    + left. destruct Hafter as [->|[q ->]].
      * exfalso. rewrite app_nil_r in Heq. simpl in Heq. apply Hx. rewrite <-Heq, elem_of_app. right. by left.
      * simpl in Heq. apply newline_split in Heq as [[? _]|(r & -> & _)]; [done| |done].
        destruct Hx. rewrite elem_of_app. right. by left.
    + right. split; [done|]. rewrite <-app_assoc in Heq. simpl in Heq.
      apply newline_split in Heq as [[_ Heq]|(r & _ & ->)]; [| |done].
      * exists [], after. by split_and!; [|left|].
      * exists (r ++ [newline]), after. rewrite <-app_assoc. split_and!; [done|right; by exists r|done].
  - intros [->|(Hx & before & after & -> & Hb & Hafter)].
    + split; [done|]. exists [], (newline :: b). split_and!; [done|by left|right; by exists b].
    + split; [done|]. exists (a ++ newline :: before), after. rewrite <-app_assoc. split_and!; [done| |done].
      right. destruct Hb as [->|[p ->]]; [by exists a|]. exists (a ++ newline :: p). by rewrite <-app_assoc.
Qed.

Lemma line_of_whole x l : newline ∉ l → line_of x l ↔ x = l.
Proof.
  intros Hl. split.
  - intros (_ & before & after & -> & Hb & Ha). rewrite !elem_of_app in Hl.
    destruct Hb as [->|[p ->]]; [|destruct Hl; left; apply elem_of_app; right; by left].
    destruct Ha as [->|[q ->]]; [by rewrite app_nil_r|destruct Hl; right; right; by left].
  - intros ->. split; [done|]. exists [], []. rewrite app_nil_r. by split_and!; [|left|left].
Qed.

Lemma split_lines_spec x cur l :
  x ≠ [] → newline ∉ cur → x ∈ split_lines cur l ↔ line_of x (rev cur ++ l).
Proof.
  intros Hx. revert cur. induction l as [|c l IH]; intros cur Hcur; simpl.
  all: assert (Hrev : newline ∉ rev cur) by by rewrite list_elem_of_In, <-in_rev, <-list_elem_of_In.
  - rewrite app_nil_r, line_of_whole by done. destruct cur as [|d cur]; [by rewrite elem_of_nil|].
    by rewrite list_elem_of_singleton.
  - case_decide as Hc.
    + subst c. rewrite line_of_cons by done. rewrite elem_of_cons, IH by apply not_elem_of_nil. done.
    + rewrite IH; [simpl; by rewrite <-app_assoc|]. by apply not_elem_of_cons.
Qed.

(** *** Prefixes *)
Lemma starts_with_spec (p s : string) :
  starts_with p s = true → s = p +:+ substr s (length (bytes p)) (length (bytes s)).
Proof.
  unfold starts_with, substr. revert s. induction p as [|c p IH]; intros s Hp.
  - change (drop (length (bytes "")) (bytes s)) with (bytes s). by rewrite take_ge, str_bytes by lia.
  - destruct s as [|d s]; [discriminate Hp|]. simpl in Hp.
    destruct (ascii_dec c d) as [->|]; [|discriminate Hp]. apply IH in Hp. rewrite Hp at 1.
    change (String d p +:+ ?x) with (String d (p +:+ x)). do 2 f_equal.
    change (bytes (String d p)) with (d :: bytes p). change (bytes (String d s)) with (d :: bytes s).
    cbn [length drop]. rewrite !(take_ge (drop _ _)); rewrite ?length_drop; (done || lia).
Qed.

Lemma starts_with_app (p t : string) :
  starts_with p (p +:+ t) = true ∧ substr (p +:+ t) (length (bytes p)) (length (bytes (p +:+ t))) = t.
Proof.
  split.
  - unfold starts_with. induction p as [|c p IH]; [by destruct t|]. simpl. by destruct (ascii_dec c c).
  - unfold substr. rewrite bytes_app, drop_app_length, take_ge by (rewrite length_app; lia).
    apply str_bytes.
Qed.

(** *** Lines *)
Lemma split_lines_app cur l rest :
  newline ∉ l → split_lines cur (l ++ newline :: rest) = (rev cur ++ l) :: split_lines [] rest.
Proof.
  revert cur. induction l as [|c l IH]; intros cur Hl; simpl.
  - by rewrite app_nil_r.
  - apply not_elem_of_cons in Hl as [Hc Hl]. rewrite decide_False by congruence.
    rewrite IH by done. simpl. by rewrite <-app_assoc.
Qed.

Lemma lines_concat (ls : list string) :
  Forall (λ s, newline ∉ bytes s) ls →
  lines (str (concat ((λ s, bytes s ++ [newline]) <$> ls))) = ls.
Proof.
  unfold lines. rewrite bytes_str. induction 1 as [|s ls Hs _ IH]; [done|].
  simpl. rewrite <-app_assoc. simpl. rewrite split_lines_app by done. simpl.
  rewrite str_bytes. f_equal. exact IH.
Qed.
