(* ===== verification/RateLimiter.v ===== *)
(** * The per-IP rate limiter ([rate_limiter.h], [rate_limiter.cpp])

    [Module RateLimiter] is the class: a sliding-window log of admission
    times per IP, in an LRU index of bounded size.  Every reading of
    [steady_clock::now()] is an argument of the operation that takes it, in
    the order of the readings; time points are in nanoseconds.  Each public
    method holds the mutex for its whole body, so it is one atomic step.
    [Module Spec] is the abstract limiter, an association list in recency
    order, [Module Trace] the transition system of a limiter in use, and
    [Module Calls] the answers of a limiter to a sequence of calls. *)
From Stdlib Require Import ZArith Lia.
From S2P Require Import Prelude StdList.
#[local] Open Scope Z_scope.

(** [while (!ts.empty() && now - ts.front() > window) ts.pop_front();] *)
Fixpoint drop_expired (now window : Z) (ts : list Z) : list Z :=
  match ts with
  | [] => []
  | t :: ts' => if window <? now - t then drop_expired now window ts' else ts
  end.

Module RateLimiter.

Record IPRecord := mkIPRecord {
  timestamps_ : list Z;
  lru_it_ : iterator
}.

Record t := mk {
  max_requests_ : Z;            (* int *)
  window_ : Z;                  (* std::chrono::seconds *)
  max_ip_records_ : Z;          (* size_t *)
  ip_records_ : gmap string IPRecord;
  lru_list_ : slist string
}.

Definition default_max_ip_records : Z := 10000.

Definition create (max_requests window max_ip_records : Z) : t :=
  mk max_requests window max_ip_records ∅ slist_empty.

Definition with_records (rl : t) (m : gmap string IPRecord) (l : slist string) : t :=
  mk (max_requests_ rl) (window_ rl) (max_ip_records_ rl) m l.

Definition cleanup_old_timestamps (rl : t) (now : Z) (r : IPRecord) : IPRecord :=
  mkIPRecord (drop_expired now (seconds (window_ rl)) (timestamps_ r)) (lru_it_ r).

Definition evict_lru (rl : t) : exec t :=
  if slist_is_empty (lru_list_ rl) then Ret rl
  else
    lru_ip ← list_back (lru_list_ rl);
    l' ← list_pop_back (lru_list_ rl);
    Ret (with_records rl (delete lru_ip (ip_records_ rl)) l').

(** [now] is the reading at the top of the function, [now2] the one taken by
    [cleanup_old_timestamps]. *)
Definition is_allowed (rl : t) (ip_address : string) (now now2 : Z) : exec (bool * t) :=
  if max_requests_ rl <=? 0 then Ret (false, rl)
  else
    match ip_records_ rl !! ip_address with
    | None =>
        rl1 ← (if max_ip_records_ rl <=? Z.of_nat (size (ip_records_ rl))
               then evict_lru rl else Ret rl);
        let '(it, l) := push_front ip_address (lru_list_ rl1) in
        let record := mkIPRecord [now] it in
        Ret (true, with_records rl1 (<[ip_address := record]> (ip_records_ rl1)) l)
    | Some record =>
        l ← list_splice_front (lru_it_ record) (lru_list_ rl);
        let record1 := cleanup_old_timestamps rl now2 record in
        if Z.of_nat (length (timestamps_ record1)) <? max_requests_ rl then
          let record2 := mkIPRecord (timestamps_ record1 ++ [now]) (lru_it_ record1) in
          Ret (true, with_records rl (<[ip_address := record2]> (ip_records_ rl)) l)
        else
          Ret (false, with_records rl (<[ip_address := record1]> (ip_records_ rl)) l)
    end.

(** A signed [int] result outside its range is undefined behaviour. *)
Definition checked_i32 (z : Z) : exec Z :=
  if (-2147483648 <=? z) && (z <=? 2147483647) then Ret z else Undefined.

Definition get_remaining (rl : t) (ip_address : string) (now : Z) : exec (Z * t) :=
  match ip_records_ rl !! ip_address with
  | None => Ret (max_requests_ rl, rl)
  | Some record =>
      let record1 := cleanup_old_timestamps rl now record in
      d ← checked_i32 (max_requests_ rl - i32 (Z.of_nat (length (timestamps_ record1))));
      Ret (Z.max 0 d,
           with_records rl (<[ip_address := record1]> (ip_records_ rl)) (lru_list_ rl))
  end.

(** [now_at ip] is the clock reading taken when the loop visits [ip]. *)
Definition cleanup_step (acc : exec t) (p : string * IPRecord) : exec t :=
  rl ← acc;
  match timestamps_ p.2 with
  | [] => l ← list_erase (lru_it_ p.2) (lru_list_ rl);
          Ret (with_records rl (delete p.1 (ip_records_ rl)) l)
  | _ => Ret rl
  end.

Definition cleanup (rl : t) (now_at : string → Z) : exec t :=
  let m1 := map_imap (λ ip r, Some (cleanup_old_timestamps rl (now_at ip) r))
                     (ip_records_ rl) in
  foldl cleanup_step (Ret (with_records rl m1 (lru_list_ rl))) (map_to_list m1).

(** The admission times kept for an IP. *)
Definition admitted (rl : t) (ip : string) : list Z :=
  from_option timestamps_ [] (ip_records_ rl !! ip).

(** The class invariant. *)
Record wf (rl : t) : Prop := {
  wf_lru : lru_wf lru_it_ (ip_records_ rl) (lru_list_ rl);
  wf_max : is_i32 (max_requests_ rl);
  wf_length : ∀ ip r, ip_records_ rl !! ip = Some r →
                Z.of_nat (length (timestamps_ r)) ≤ max_requests_ rl;
  wf_size : Z.of_nat (size (ip_records_ rl)) ≤ Z.max 1 (max_ip_records_ rl)
}.

(** The abstract state: admission times per IP, most recently used first. *)
Definition abs (rl : t) : list (string * list Z) :=
  prod_map id timestamps_ <$> contents (ip_records_ rl) (lru_list_ rl).

End RateLimiter.

(** ** The abstract limiter *)
Module Spec.

Definition spec_is_allowed (max window cap : Z) (ip : string) (now now2 : Z)
    (al : list (string * list Z)) : bool * list (string * list Z) :=
  if max <=? 0 then (false, al)
  else
    match alist_find ip al with
    | None => (true, (ip, [now]) :: if cap <=? Z.of_nat (length al) then removelast al else al)
    | Some ts =>
        let ts' := drop_expired now2 (seconds window) ts in
        if Z.of_nat (length ts') <? max
        then (true, (ip, ts' ++ [now]) :: alist_remove ip al)
        else (false, (ip, ts') :: alist_remove ip al)
    end.

End Spec.

(** ** A limiter in use *)
Module Trace.

(** [granted] is a ghost history, newest admission first; [clock] is the last
    clock reading. *)
Record state := mkState {
  limiter : RateLimiter.t;
  granted : list (string * Z);
  clock : Z
}.

Inductive step (universe : gset string) : state → state → Prop :=
| step_is_allowed s ip now now2 ok rl' :
    ip ∈ universe → clock s ≤ now → now ≤ now2 →
    RateLimiter.is_allowed (limiter s) ip now now2 = Ret (ok, rl') →
    step universe s
      (mkState rl' (if ok : bool then (ip, now) :: granted s else granted s) now2)
| step_get_remaining s ip now n rl' :
    clock s ≤ now →
    RateLimiter.get_remaining (limiter s) ip now = Ret (n, rl') →
    step universe s (mkState rl' (granted s) now)
| step_cleanup s now_at now rl' :
    (∀ ip, clock s ≤ now_at ip ≤ now) →
    RateLimiter.cleanup (limiter s) now_at = Ret rl' →
    step universe s (mkState rl' (granted s) now).

Definition init (max_requests window max_ip_records start : Z) : state :=
  mkState (RateLimiter.create max_requests window max_ip_records) [] start.

(** Admissions of [ip], oldest first. *)
Definition granted_to (ip : string) (h : list (string * Z)) : list Z :=
  rev (filter (λ p, p.1 = ip) h).*2.

(** Admissions of [ip] no older than [window] seconds at time [now]. *)
Definition recent (window now : Z) (ip : string) (h : list (string * Z)) : list (string * Z) :=
  filter (λ p, p.1 = ip ∧ now - seconds window ≤ p.2) h.

End Trace.

(** ** Sequences of calls, and their answers *)
Module Calls.

Inductive call :=
| Allow (ip : string) (now now2 : Z)
| Remaining (ip : string) (now : Z)
| Sweep (now_at : string → Z) (now : Z).

Inductive answer := Allowed (ok : bool) | Left (n : Z) | Swept.

Definition perform (c : call) (rl : RateLimiter.t) : exec (answer * RateLimiter.t) :=
  match c with
  | Allow ip now now2 => prod_map Allowed id <$> RateLimiter.is_allowed rl ip now now2
  | Remaining ip now => prod_map Left id <$> RateLimiter.get_remaining rl ip now
  | Sweep now_at _ => pair Swept <$> RateLimiter.cleanup rl now_at
  end.

Fixpoint serve (calls : list call) (rl : RateLimiter.t) : exec (list answer) :=
  match calls with
  | [] => Ret []
  | c :: calls' => p ← perform c rl; (p.1 ::.) <$> serve calls' p.2
  end.

(** The readings of the clock do not run backwards from [start] on, and the
    requests come from [universe]. *)
Fixpoint chronological (universe : gset string) (start : Z) (calls : list call) : Prop :=
  match calls with
  | [] => True
  | Allow ip now now2 :: calls' => ip ∈ universe ∧ start ≤ now ∧ now ≤ now2 ∧ chronological universe now2 calls'
  | Remaining ip now :: calls' => start ≤ now ∧ chronological universe now calls'
  | Sweep now_at now :: calls' => (∀ ip, start ≤ now_at ip ≤ now) ∧ chronological universe now calls'
  end.

End Calls.

(** ** Lemmas on [drop_expired] *)
Lemma drop_expired_split now w ts :
  ∃ d, ts = d ++ drop_expired now w ts ∧ Forall (λ x, w < now - x) d.
Proof.
  induction ts as [|t ts (d & Hd & Hall)]; [by exists []|]. simpl.
  destruct (Z.ltb_spec w (now - t)).
  - exists (t :: d). split; [by rewrite Hd at 1|by constructor].
  - exists []. split; [done|constructor].
Qed.

Lemma drop_expired_length now w ts : (length (drop_expired now w ts) ≤ length ts)%nat.
Proof.
  destruct (drop_expired_split now w ts) as (d & Hd & _).
  rewrite Hd at 2. rewrite length_app. lia.
Qed.

Lemma drop_expired_twice now now' w ts :
  now ≤ now' → drop_expired now' w (drop_expired now w ts) = drop_expired now' w ts.
Proof.
  intros Hle. induction ts as [|t ts IH]; [done|]. simpl.
  destruct (Z.ltb_spec w (now - t)); [|done].
  destruct (Z.ltb_spec w (now' - t)); [done|lia].
Qed.

Lemma drop_expired_nil now now' w ts :
  now ≤ now' → drop_expired now w ts = [] → drop_expired now' w ts = [].
Proof. intros Hle Hn. by rewrite <-(drop_expired_twice now now'), Hn. Qed.

(** ** The operations refine the abstract limiter and keep the invariant *)
Import RateLimiter.

Lemma wf_create max window cap :
  is_i32 max → wf (create max window cap).
Proof.
  intros Hmax. split; simpl; [apply lru_wf_empty|done| |rewrite map_size_empty; lia].
  intros ip r. by rewrite lookup_empty.
Qed.

Lemma abs_find rl ip :
  wf rl → alist_find ip (abs rl) = timestamps_ <$> (ip_records_ rl !! ip).
Proof.
  intros Hwf. rewrite <-(contents_find lru_it_ _ (lru_list_ rl)) by apply Hwf.
  apply alist_find_fmap.
Qed.

Lemma abs_length rl : wf rl → length (abs rl) = size (ip_records_ rl).
Proof.
  intros Hwf. unfold abs. rewrite length_fmap, <-(length_fmap fst).
  rewrite (contents_keys lru_it_) by apply Hwf. symmetry. eapply lru_size, Hwf.
Qed.

(** Evicting drops the least recently used record. *)
Lemma evict_lru_ok rl :
  wf rl →
  ∃ m l, evict_lru rl = Ret (with_records rl m l) ∧ lru_wf lru_it_ m l ∧
    m ⊆ ip_records_ rl ∧ size m = pred (size (ip_records_ rl)) ∧
    contents m l = removelast (contents (ip_records_ rl) (lru_list_ rl)).
Proof.
  intros Hwf. pose proof (wf_lru _ Hwf) as Hl. unfold evict_lru.
  destruct (slist_is_empty _) eqn:He.
  - exists (ip_records_ rl), (lru_list_ rl). split_and!; [by destruct rl|done|done|..].
    + rewrite (lru_size lru_it_ _ (lru_list_ rl)) by done.
      unfold slist_is_empty, slist_values in *. by destruct (nodes _).
    + by rewrite (contents_nil lru_it_) by done.
  - destruct (lru_back lru_it_ _ _ Hl He) as (k & e & ks & Hb & Hk & Hv).
    destruct (lru_wf_erase_back lru_it_ _ _ _ _ _ Hl Hk Hv) as (l' & He' & Hl' & Hv').
    rewrite Hb. simpl. rewrite (lru_pop_back lru_it_ _ _ ks k e), He' by done. simpl.
    exists (delete k (ip_records_ rl)), l'. split_and!; [done|done| | |].
    + apply delete_subseteq.
    + by rewrite map_size_delete_Some by eauto.
    + by eapply (contents_erase_back lru_it_).
Qed.

Lemma with_records_abs rl m l :
  abs (with_records rl m l) = prod_map id timestamps_ <$> contents m l.
Proof. done. Qed.

Lemma with_records_id rl : with_records rl (ip_records_ rl) (lru_list_ rl) = rl.
Proof. by destruct rl. Qed.

(** Room is made for a new record when the index is full. *)
Lemma make_room_ok rl :
  wf rl →
  ∃ m l, (if max_ip_records_ rl <=? Z.of_nat (size (ip_records_ rl))
          then evict_lru rl else Ret rl) = Ret (with_records rl m l) ∧
    lru_wf lru_it_ m l ∧ m ⊆ ip_records_ rl ∧
    Z.of_nat (S (size m)) ≤ Z.max 1 (max_ip_records_ rl) ∧
    (Z.of_nat (size (ip_records_ rl)) < max_ip_records_ rl → m = ip_records_ rl) ∧
    prod_map id timestamps_ <$> contents m l
    = if max_ip_records_ rl <=? Z.of_nat (length (abs rl)) then removelast (abs rl) else abs rl.
Proof.
  intros Hwf. pose proof (wf_size _ Hwf) as Hsz. rewrite abs_length by done.
  destruct (Z.leb_spec (max_ip_records_ rl) (Z.of_nat (size (ip_records_ rl)))).
  - destruct (evict_lru_ok rl Hwf) as (m & l & -> & Hl & Hsub & Hm & Hc).
    exists m, l. split_and!; [done|done|done|lia|lia|].
    by rewrite Hc, fmap_removelast.
  - exists (ip_records_ rl), (lru_list_ rl). rewrite with_records_id.
    split_and!; [done|apply Hwf|done|lia|done|done].
Qed.

(** A request of an address without a record. *)
Lemma is_allowed_new rl ip now now2 :
  wf rl → 0 < max_requests_ rl → ip_records_ rl !! ip = None →
  ∃ m it l, is_allowed rl ip now now2
            = Ret (true, with_records rl (<[ip := mkIPRecord [now] it]> m) l) ∧
    m ⊆ ip_records_ rl ∧
    (Z.of_nat (size (ip_records_ rl)) < max_ip_records_ rl → m = ip_records_ rl) ∧
    wf (with_records rl (<[ip := mkIPRecord [now] it]> m) l) ∧
    abs (with_records rl (<[ip := mkIPRecord [now] it]> m) l)
    = (ip, [now]) :: (if max_ip_records_ rl <=? Z.of_nat (length (abs rl))
                      then removelast (abs rl) else abs rl).
Proof.
  intros Hwf Hmax Hip. destruct (make_room_ok rl Hwf) as (m & l & Hroom & Hl & Hsub & Hsz & Heq & Hc).
  assert (Hm : m !! ip = None) by (by eapply lookup_weaken_None).
  exists m, (push_front ip l).1, (push_front ip l).2. unfold is_allowed.
  destruct (Z.leb_spec (max_requests_ rl) 0); [lia|]. rewrite Hip, Hroom.
  split_and!; [done|done|done| |].
  - split; cbn [ip_records_ lru_list_ max_requests_ max_ip_records_ with_records].
    + by apply lru_wf_push.
    + apply Hwf.
    + intros ip' r [[<- <-]|[_ Hr]]%lookup_insert_Some; [simpl; lia|].
      eapply wf_length; [done|]. by eapply lookup_weaken.
    + by rewrite map_size_insert_None.
  - rewrite with_records_abs, (contents_push lru_it_) by done. by rewrite fmap_cons, Hc.
Qed.

(** Replacing the admission times of a record that was just moved to the front. *)
Lemma refresh_record rl ip r ts :
  wf rl → ip_records_ rl !! ip = Some r → Z.of_nat (length ts) ≤ max_requests_ rl →
  ∃ l, list_splice_front (lru_it_ r) (lru_list_ rl) = Ret l ∧
    wf (with_records rl (<[ip := mkIPRecord ts (lru_it_ r)]> (ip_records_ rl)) l) ∧
    abs (with_records rl (<[ip := mkIPRecord ts (lru_it_ r)]> (ip_records_ rl)) l)
    = (ip, ts) :: alist_remove ip (abs rl).
Proof.
  intros Hwf Hip Hts.
  destruct (lru_wf_splice lru_it_ _ _ _ _ (wf_lru _ Hwf) Hip) as (l & Hs & Hl & Hv).
  exists l. split_and!; [done| |].
  - split; cbn [ip_records_ lru_list_ max_requests_ max_ip_records_ with_records].
    + by eapply lru_wf_update.
    + apply Hwf.
    + intros ip' r' [[<- <-]|[_ Hr]]%lookup_insert_Some; [done|]. by eapply wf_length.
    + rewrite map_size_insert_Some by eauto. apply Hwf.
  - rewrite with_records_abs, (contents_front _ (lru_list_ rl)) by done.
    by rewrite fmap_cons, alist_remove_fmap.
Qed.

Lemma refines rl ip now now2 :
  wf rl →
  ∃ ok rl', is_allowed rl ip now now2 = Ret (ok, rl') ∧ wf rl' ∧
    max_requests_ rl' = max_requests_ rl ∧ window_ rl' = window_ rl ∧
    max_ip_records_ rl' = max_ip_records_ rl ∧
    Spec.spec_is_allowed (max_requests_ rl) (window_ rl) (max_ip_records_ rl) ip now now2 (abs rl)
    = (ok, abs rl').
Proof.
  intros Hwf. unfold Spec.spec_is_allowed. rewrite abs_find by done.
  destruct (Z.leb_spec (max_requests_ rl) 0) as [|Hmax].
  { exists false, rl. unfold is_allowed. by rewrite (proj2 (Z.leb_le _ _)). }
  destruct (ip_records_ rl !! ip) as [r|] eqn:Hip; simpl.
  2:{ destruct (is_allowed_new rl ip now now2) as (m & it & l & -> & _ & _ & Hwf' & Habs); [done..|].
      do 2 eexists. rewrite Habs. by split_and!. }
  unfold is_allowed. rewrite (proj2 (Z.leb_gt _ _)), Hip by done.
  unfold cleanup_old_timestamps. simpl.
  set (ts := drop_expired now2 (seconds (window_ rl)) (timestamps_ r)).
  assert (Z.of_nat (length ts) ≤ max_requests_ rl) as Hts.
  { pose proof (wf_length _ Hwf _ _ Hip). pose proof (drop_expired_length now2 (seconds (window_ rl)) (timestamps_ r)).
    unfold ts. lia. }
  destruct (Z.ltb_spec (Z.of_nat (length ts)) (max_requests_ rl)).
  - destruct (refresh_record rl ip r (ts ++ [now])) as (l & -> & Hwf' & Habs); [done|done|rewrite length_app; simpl; lia|].
    do 2 eexists. rewrite Habs. by split_and!.
  - destruct (refresh_record rl ip r ts) as (l & -> & Hwf' & Habs); [done..|].
    do 2 eexists. rewrite Habs. by split_and!.
Qed.

(** ** [get_remaining] and [cleanup] *)
Lemma checked_i32_ok z : is_i32 z → checked_i32 z = Ret z.
Proof.
  unfold is_i32, checked_i32. intros. rewrite (proj2 (Z.leb_le _ _)), (proj2 (Z.leb_le _ _)) by lia. done.
Qed.

Lemma wf_shorter rl ip r ts :
  wf rl → ip_records_ rl !! ip = Some r → (length ts ≤ length (timestamps_ r))%nat →
  wf (with_records rl (<[ip := mkIPRecord ts (lru_it_ r)]> (ip_records_ rl)) (lru_list_ rl)).
Proof.
  intros Hwf Hip Hts. pose proof (wf_length _ Hwf _ _ Hip) as Hlen.
  split; cbn [ip_records_ lru_list_ max_requests_ max_ip_records_ with_records].
  - eapply lru_wf_update; [apply Hwf|done|done].
  - apply Hwf.
  - intros ip' r' [[<- <-]|[_ Hr]]%lookup_insert_Some; [simpl; lia|]. by eapply wf_length.
  - rewrite map_size_insert_Some by eauto. apply Hwf.
Qed.

Lemma get_remaining_ok rl ip now :
  wf rl →
  ∃ rl', get_remaining rl ip now
         = Ret (match ip_records_ rl !! ip with
                | None => max_requests_ rl
                | Some r => max_requests_ rl
                    - Z.of_nat (length (drop_expired now (seconds (window_ rl)) (timestamps_ r)))
                end, rl') ∧
    wf rl' ∧ rl' = with_records rl
      (alter (cleanup_old_timestamps rl now) ip (ip_records_ rl)) (lru_list_ rl).
Proof.
  intros Hwf. unfold get_remaining. destruct (ip_records_ rl !! ip) as [r|] eqn:Hip.
  2:{ exists rl. rewrite alter_id by naive_solver. by destruct rl. }
  pose proof (wf_length _ Hwf _ _ Hip) as Hlen. pose proof (wf_max _ Hwf) as Hmax.
  unfold cleanup_old_timestamps. cbn [timestamps_ lru_it_].
  set (ts := drop_expired now (seconds (window_ rl)) (timestamps_ r)).
  assert (length ts ≤ length (timestamps_ r))%nat by apply drop_expired_length.
  unfold is_i32 in Hmax.
  rewrite i32_small by (unfold is_i32; lia). rewrite checked_i32_ok by (unfold is_i32; lia).
  eexists. split_and!; [|by eapply wf_shorter|].
  - simpl. do 2 f_equal. rewrite Z.max_r; [done|lia].
  - f_equal. apply map_eq. intros k. rewrite lookup_alter, lookup_insert.
    case_decide; [subst; by rewrite Hip|done].
Qed.

Lemma cleanup_fold rl ps :
  lru_wf lru_it_ (ip_records_ rl) (lru_list_ rl) → NoDup ps.*1 →
  (∀ k r, (k, r) ∈ ps → ip_records_ rl !! k = Some r) →
  ∃ m l, foldl cleanup_step (Ret rl) ps = Ret (with_records rl m l) ∧ lru_wf lru_it_ m l ∧
    (∀ k r, (k, r) ∈ ps → timestamps_ r = [] → m !! k = None) ∧
    (∀ k, (∀ r, (k, r) ∈ ps → timestamps_ r ≠ []) → m !! k = ip_records_ rl !! k).
Proof.
  revert rl. induction ps as [|[k0 r0] ps IH]; intros rl Hl Hnd Hps.
  { exists (ip_records_ rl), (lru_list_ rl). rewrite with_records_id.
    split_and!; [done|done| |done]. by intros ? ? ?%elem_of_nil. }
  rewrite fmap_cons, NoDup_cons in Hnd. destruct Hnd as [Hk0 Hnd].
  assert (Hk0' : ∀ r, (k0, r) ∉ ps).
  { intros r Hin. apply Hk0, list_elem_of_fmap. by exists (k0, r). }
  cbn [foldl cleanup_step mbind exec_bind fst snd].
  destruct (timestamps_ r0) as [|t0 ts0] eqn:Ht0.
  - destruct (lru_wf_erase lru_it_ _ _ _ _ Hl (Hps k0 r0 ltac:(by left))) as (l1 & -> & Hl1 & _).
    cbn [mbind exec_bind].
    destruct (IH (with_records rl (delete k0 (ip_records_ rl)) l1)) as (m & l & Hf & Hwf & H1 & H2);
      [done|done| |].
    { intros k r Hin. cbn [ip_records_ with_records]. rewrite lookup_delete_ne; [apply Hps; by right|].
      intros <-. by eapply Hk0'. }
    exists m, l. split_and!; [done|done| |].
    + intros k r [[= -> ->]|Hin]%elem_of_cons Hr; [|by eapply H1].
      rewrite H2 by (intros r' ?; by destruct (Hk0' r')). apply lookup_delete_eq.
    + intros k Hk. assert (k ≠ k0). { intros ->. apply (Hk r0); [by left|done]. }
      rewrite H2 by (intros r' ?; apply Hk; by right). by apply lookup_delete_ne.
  - destruct (IH rl) as (m & l & Hf & Hwf & H1 & H2); [done|done|intros; apply Hps; by right|].
    exists m, l. split_and!; [done|done| |].
    + intros k r [[= -> ->]|Hin]%elem_of_cons Hr; [congruence|by eapply H1].
    + intros k Hk. apply H2. intros r' ?. apply Hk. by right.
Qed.

(** Cleanup trims every record and removes those left empty. *)
Lemma cleanup_ok rl now_at :
  wf rl →
  ∃ m l, cleanup rl now_at = Ret (with_records rl m l) ∧ wf (with_records rl m l) ∧
    ∀ ip, m !! ip = (r ← ip_records_ rl !! ip;
                     let r' := cleanup_old_timestamps rl (now_at ip) r in
                     match timestamps_ r' with [] => None | _ => Some r' end).
Proof.
  intros Hwf. unfold cleanup.
  set (m1 := map_imap _ _).
  assert (Hm1 : ∀ ip, m1 !! ip = cleanup_old_timestamps rl (now_at ip) <$> ip_records_ rl !! ip).
  { intros ip. unfold m1. rewrite map_lookup_imap. by destruct (ip_records_ rl !! ip). }
  assert (Hl1 : lru_wf lru_it_ m1 (lru_list_ rl)).
  { unfold m1. apply lru_wf_fmap; [done|apply Hwf]. }
  destruct (cleanup_fold (with_records rl m1 (lru_list_ rl)) (map_to_list m1))
    as (m & l & Hf & Hl & H1 & H2); [done|apply NoDup_fst_map_to_list| |].
  { intros k r. by rewrite elem_of_map_to_list. }
  assert (Hm : ∀ ip, m !! ip = (r ← ip_records_ rl !! ip;
                     let r' := cleanup_old_timestamps rl (now_at ip) r in
                     match timestamps_ r' with [] => None | _ => Some r' end)).
  { intros ip. specialize (Hm1 ip). destruct (ip_records_ rl !! ip) as [r|]; simpl in *.
    - destruct (drop_expired _ _ _) eqn:Ht.
      + eapply H1; [by apply elem_of_map_to_list|done].
      + rewrite H2; [done|]. intros r' Hr'%elem_of_map_to_list. rewrite Hm1 in Hr'.
        simplify_eq/=. by rewrite Ht.
    - rewrite H2; [done|]. intros r' Hr'%elem_of_map_to_list. congruence. }
  exists m, l. split_and!; [done| |done].
  split; cbn [ip_records_ lru_list_ max_requests_ max_ip_records_ with_records].
  - done.
  - apply Hwf.
  - intros ip r Hr. rewrite Hm in Hr. destruct (ip_records_ rl !! ip) as [r0|] eqn:Hr0; [|done].
    pose proof (wf_length _ Hwf _ _ Hr0).
    pose proof (drop_expired_length (now_at ip) (seconds (window_ rl)) (timestamps_ r0)).
    simpl in Hr. destruct (drop_expired _ _ _) eqn:Ht; simplify_eq/=. rewrite Ht. simpl in *. lia.
  - etransitivity; [|apply Hwf]. apply inj_le. rewrite <-!size_dom. apply subseteq_size.
    intros ip. rewrite !elem_of_dom. intros [r Hr]. rewrite Hm in Hr.
    by destruct (ip_records_ rl !! ip).
Qed.

(** ** Effect of the operations on the admission times *)
Lemma admitted_length rl ip : wf rl → Z.of_nat (length (admitted rl ip)) ≤ Z.max 0 (max_requests_ rl).
Proof.
  intros Hwf. unfold admitted. destruct (ip_records_ rl !! ip) eqn:Hip; simpl; [|lia].
  pose proof (wf_length _ Hwf _ _ Hip). lia.
Qed.

Lemma is_allowed_admitted rl ip now now2 :
  wf rl → (is_Some (ip_records_ rl !! ip) ∨ Z.of_nat (size (ip_records_ rl)) < max_ip_records_ rl) →
  let ts := drop_expired now2 (seconds (window_ rl)) (admitted rl ip) in
  let ok := Z.of_nat (length ts) <? max_requests_ rl in
  ∃ m l, let rl' := with_records rl m l in
    is_allowed rl ip now now2 = Ret (ok, rl') ∧ wf rl' ∧
    dom m ⊆ {[ip]} ∪ dom (ip_records_ rl) ∧
    admitted rl' ip = ts ++ (if ok then [now] else []) ∧
    ∀ ip', ip' ≠ ip → admitted rl' ip' = admitted rl ip'.
Proof.
  intros Hwf Hroom ts ok. pose proof (admitted_length rl ip Hwf) as Hlen.
  destruct (Z.leb_spec (max_requests_ rl) 0) as [Hmax|Hmax].
  { exists (ip_records_ rl), (lru_list_ rl). rewrite with_records_id.
    assert (admitted rl ip = []) as Hnil by (destruct (admitted rl ip); simpl in *; [done|lia]).
    assert (ts = []) as Hts by (unfold ts; by rewrite Hnil).
    assert (ok = false) as -> by (unfold ok; rewrite Hts; by apply Z.ltb_ge).
    unfold is_allowed. rewrite (proj2 (Z.leb_le _ _)), Hts, Hnil by done.
    split; [reflexivity|]. split; [exact Hwf|]. split; [intros k Hk; by apply elem_of_union_r|].
    by split. }
  destruct (ip_records_ rl !! ip) as [r|] eqn:Hip.
  - assert (ts = drop_expired now2 (seconds (window_ rl)) (timestamps_ r)) as Hts.
    { unfold ts, admitted. by rewrite Hip. }
    pose proof (drop_expired_length now2 (seconds (window_ rl)) (timestamps_ r)) as Hle.
    assert (∀ ts1 l1, let rl' := with_records rl (<[ip:=mkIPRecord ts1 (lru_it_ r)]> (ip_records_ rl)) l1 in
      dom (ip_records_ rl') ⊆ {[ip]} ∪ dom (ip_records_ rl) ∧ admitted rl' ip = ts1 ∧
      ∀ ip', ip' ≠ ip → admitted rl' ip' = admitted rl ip') as Hfacts.
    { intros ts1 l1 rl'. unfold rl', admitted. cbn [ip_records_ with_records].
      split_and!; [rewrite dom_insert_L; set_solver|by rewrite lookup_insert_eq|].
      intros ip' Hne. by rewrite lookup_insert_ne. }
    pose proof (wf_length _ Hwf _ _ Hip) as Hrl.
    unfold is_allowed. rewrite (proj2 (Z.leb_gt _ _)), Hip by done.
    unfold cleanup_old_timestamps. cbn [timestamps_ lru_it_]. rewrite <-Hts in *. fold ok.
    destruct ok eqn:Hok; unfold ok in Hok.
    + destruct (refresh_record rl ip r (ts ++ [now])) as (l & -> & Hwf' & _);
        [done|done|rewrite length_app; simpl; lia|].
      do 2 eexists. split; [done|]. split; [done|]. apply Hfacts.
    + destruct (refresh_record rl ip r ts) as (l & -> & Hwf' & _); [done|done|lia|].
      do 2 eexists. split; [done|]. split; [done|]. rewrite app_nil_r. apply Hfacts.
  - destruct Hroom as [[? ?]|Hroom]; [done|].
    assert (ts = []) as Hts by (unfold ts, admitted; by rewrite Hip).
    assert (ok = true) as -> by (unfold ok; rewrite Hts; by apply Z.ltb_lt).
    destruct (is_allowed_new rl ip now now2) as (m & it & l & -> & _ & Hm & Hwf' & _); [done..|].
    rewrite Hm in * by done. do 2 eexists. split; [done|]. split; [done|]. rewrite Hts.
    unfold admitted. cbn [ip_records_ with_records].
    split_and!; [rewrite dom_insert_L; set_solver|by rewrite lookup_insert_eq|].
    intros ip' Hne. by rewrite lookup_insert_ne.
Qed.

Lemma get_remaining_admitted rl ip now ip' rl' n :
  wf rl → get_remaining rl ip now = Ret (n, rl') →
  admitted rl' ip' = if decide (ip = ip')
                     then drop_expired now (seconds (window_ rl)) (admitted rl ip')
                     else admitted rl ip'.
Proof.
  intros Hwf Hg. destruct (get_remaining_ok rl ip now Hwf) as (rl1 & Hg1 & _ & Hrl1).
  rewrite Hg in Hg1. simplify_eq. unfold admitted. cbn [ip_records_ with_records].
  rewrite lookup_alter. case_decide; [subst|done]. by destruct (ip_records_ rl !! ip').
Qed.

Lemma cleanup_admitted rl now_at ip rl' :
  wf rl → cleanup rl now_at = Ret rl' →
  admitted rl' ip = drop_expired (now_at ip) (seconds (window_ rl)) (admitted rl ip).
Proof.
  intros Hwf Hc. destruct (cleanup_ok rl now_at Hwf) as (m & l & Hc1 & _ & Hm).
  rewrite Hc in Hc1. simplify_eq. unfold admitted. cbn [ip_records_ with_records]. rewrite Hm.
  destruct (ip_records_ rl !! ip) as [r|]; [|done]. simpl.
  destruct (drop_expired _ _ _) eqn:Ht; simpl; by rewrite ?Ht.
Qed.

(** ** The invariant of a limiter in use *)
Lemma granted_to_cons ip ip' x h :
  Trace.granted_to ip ((ip', x) :: h)
  = if decide (ip' = ip) then Trace.granted_to ip h ++ [x] else Trace.granted_to ip h.
Proof.
  unfold Trace.granted_to. rewrite filter_cons. simpl. by case_decide.
Qed.

Lemma recent_length_granted window t ip h :
  length (Trace.recent window t ip h)
  = length (filter (λ x, t - seconds window ≤ x) (Trace.granted_to ip h)).
Proof.
  unfold Trace.recent. induction h as [|[ip' x] h IH]; [done|].
  rewrite granted_to_cons. destruct (decide (ip' = ip)) as [->|Hne].
  - rewrite filter_app, length_app. destruct (decide (t - seconds window ≤ x)).
    + rewrite !filter_cons_True, filter_nil by done. simpl. lia.
    + rewrite !filter_cons_False, filter_nil by (simpl; tauto). simpl. lia.
  - by rewrite filter_cons_False by (simpl; tauto).
Qed.

Record trace_inv (max window cap : Z) (universe : gset string) (s : Trace.state) : Prop := {
  ti_wf : wf (Trace.limiter s);
  ti_max : max_requests_ (Trace.limiter s) = max;
  ti_window : window_ (Trace.limiter s) = window;
  ti_cap : max_ip_records_ (Trace.limiter s) = cap;
  ti_dom : dom (ip_records_ (Trace.limiter s)) ⊆ universe;
  ti_split : ∀ ip, ∃ d,
    Trace.granted_to ip (Trace.granted s) = d ++ admitted (Trace.limiter s) ip ∧
    Forall (λ x, seconds window < Trace.clock s - x) d;
  ti_sorted : ∀ ip, StronglySorted Z.le (Trace.granted_to ip (Trace.granted s));
  ti_past : ∀ ip, Forall (λ x, x ≤ Trace.clock s) (Trace.granted_to ip (Trace.granted s))
}.

Lemma filter_drop_expired w t ts :
  StronglySorted Z.le ts → filter (λ x, t - w ≤ x) ts = drop_expired t w ts.
Proof.
  induction 1 as [|x ts Hs IH Hx]; [done|]. simpl.
  destruct (Z.ltb_spec w (t - x)).
  - by rewrite filter_cons_False by lia.
  - apply filter_all_id. constructor; [lia|].
    eapply Forall_impl; [exact Hx|]. simpl. intros. lia.
Qed.

Lemma filter_expired_nil w t t0 (d : list Z) :
  t0 ≤ t → Forall (λ x, w < t0 - x) d → filter (λ x, t - w ≤ x) d = [].
Proof.
  intros Ht. induction 1; [done|]. rewrite filter_cons_False by lia. done.
Qed.

Lemma StronglySorted_app_r (l1 l2 : list Z) :
  StronglySorted Z.le (l1 ++ l2) → StronglySorted Z.le l2.
Proof. induction l1; [done|]. simpl. intros Hs%StronglySorted_inv. tauto. Qed.

(** What the record of an address keeps is exactly its recent history. *)
Lemma recent_kept max window cap universe s ip t :
  trace_inv max window cap universe s → Trace.clock s ≤ t →
  length (Trace.recent window t ip (Trace.granted s))
  = length (drop_expired t (seconds window) (admitted (Trace.limiter s) ip)).
Proof.
  intros Hinv Ht. rewrite recent_length_granted.
  destruct (ti_split _ _ _ _ _ Hinv ip) as (d & Heq & Hd).
  pose proof (ti_sorted _ _ _ _ _ Hinv ip) as Hs. rewrite Heq in *.
  rewrite filter_app, (filter_expired_nil _ _ (Trace.clock s)) by done.
  simpl. rewrite filter_drop_expired; [done|]. by eapply StronglySorted_app_r.
Qed.

Lemma trim_split w c c' t (g d adm : list Z) :
  c ≤ c' → t ≤ c' → g = d ++ adm → Forall (λ x, w < c - x) d →
  ∃ d', g = d' ++ drop_expired t w adm ∧ Forall (λ x, w < c' - x) d'.
Proof.
  intros Hc Ht -> Hd. destruct (drop_expired_split t w adm) as (d2 & Heq & Hd2).
  exists (d ++ d2). rewrite <-app_assoc, <-Heq. split; [done|]. apply Forall_app. split.
  - eapply Forall_impl; [exact Hd|]. simpl. intros. lia.
  - eapply Forall_impl; [exact Hd2|]. simpl. intros. lia.
Qed.

Lemma StronglySorted_snoc (l : list Z) x :
  StronglySorted Z.le l → Forall (λ y, y ≤ x) l → StronglySorted Z.le (l ++ [x]).
Proof.
  induction 1 as [|y l Hs IH Hy]; intros Hall; simpl; [by repeat constructor|].
  apply Forall_cons in Hall as [Hyx Hall]. constructor; [by apply IH|].
  apply Forall_app. split; [done|]. by constructor.
Qed.

Lemma trace_inv_init max window cap universe start :
  is_i32 max → trace_inv max window cap universe (Trace.init max window cap start).
Proof.
  intros Hmax. split; try done; simpl.
  - by apply wf_create.
  - intros ip. exists []. split; [|constructor]. unfold admitted. simpl. by rewrite lookup_empty.
  - intros ip. constructor.
Qed.

Lemma trace_inv_trim max window cap universe s rl' c :
  trace_inv max window cap universe s → Trace.clock s ≤ c → wf rl' →
  (∃ m l, rl' = with_records (Trace.limiter s) m l ∧ dom m ⊆ dom (ip_records_ (Trace.limiter s))) →
  (∀ ip, admitted rl' ip = admitted (Trace.limiter s) ip ∨
         ∃ t, t ≤ c ∧ admitted rl' ip = drop_expired t (seconds window) (admitted (Trace.limiter s) ip)) →
  trace_inv max window cap universe (Trace.mkState rl' (Trace.granted s) c).
Proof.
  intros Hinv Hc Hwf (m & l & Hrl & Hdom) Hadm. destruct Hinv. split; simpl; rewrite ?Hrl; try done.
  - by rewrite <-Hrl.
  - simpl. set_solver.
  - intros ip. destruct (ti_split0 ip) as (d & Heq & Hd). rewrite <-Hrl.
    destruct (Hadm ip) as [->|(t & Ht & ->)].
    + exists d. split; [done|]. eapply Forall_impl; [exact Hd|]. simpl. intros. lia.
    + by apply (trim_split _ (Trace.clock s) _ _ _ d).
  - intros ip. eapply Forall_impl; [apply ti_past0|]. simpl. intros. lia.
Qed.

(** With no more addresses than records, none is ever evicted. *)
Lemma room (rl : t) universe ip :
  dom (ip_records_ rl) ⊆ universe → Z.of_nat (size universe) ≤ max_ip_records_ rl → ip ∈ universe →
  is_Some (ip_records_ rl !! ip) ∨ Z.of_nat (size (ip_records_ rl)) < max_ip_records_ rl.
Proof.
  intros Hdom Hcap Hip. destruct (ip_records_ rl !! ip) eqn:Hl; [by left; eauto|right].
  assert (size (dom (ip_records_ rl)) < size universe)%nat as Hlt.
  { apply subset_size. split; [done|]. intros Hsub.
    apply Hsub, elem_of_dom in Hip. rewrite Hl in Hip. by destruct Hip. }
  rewrite size_dom in Hlt. lia.
Qed.

Lemma universe_room max window cap universe s ip :
  trace_inv max window cap universe s → Z.of_nat (size universe) ≤ cap → ip ∈ universe →
  is_Some (ip_records_ (Trace.limiter s) !! ip) ∨
  Z.of_nat (size (ip_records_ (Trace.limiter s))) < max_ip_records_ (Trace.limiter s).
Proof. intros Hinv Hcap. destruct Hinv. apply room; [done|lia]. Qed.

Lemma trace_inv_allow max window cap universe s ip now now2 ok rl' :
  trace_inv max window cap universe s → Z.of_nat (size universe) ≤ cap →
  ip ∈ universe → Trace.clock s ≤ now → now ≤ now2 →
  is_allowed (Trace.limiter s) ip now now2 = Ret (ok, rl') →
  trace_inv max window cap universe
    (Trace.mkState rl' (if ok then (ip, now) :: Trace.granted s else Trace.granted s) now2).
Proof.
  intros Hinv Hcap Hip Hnow Hnow2 Hres. pose proof (universe_room _ _ _ _ _ _ Hinv Hcap Hip) as Hroom.
  destruct Hinv. destruct (is_allowed_admitted (Trace.limiter s) ip now now2) as (m & l & Hr & Hwf & Hd & Ha & Ho);
    [done..|].
  rewrite Hres in Hr. injection Hr as Hok Hrl. rewrite <-Hrl in *. rewrite ti_window0 in *.
  rewrite <-Hok in Ha.
  split; simpl; rewrite ?Hrl; try done; simpl.
  - by rewrite <-Hrl.
  - intros k [->%elem_of_singleton|Hk]%Hd%elem_of_union; auto.
  - intros ip'. rewrite <-Hrl. destruct (ti_split0 ip') as (d & Heq & Hdd).
    destruct (trim_split (seconds window) (Trace.clock s) now2 now2 _ _ _ ltac:(lia) ltac:(lia) Heq Hdd)
      as (d' & Heq' & Hd').
    destruct (decide (ip' = ip)) as [->|Hne].
    + exists d'. rewrite Ha. split; [|done].
      destruct ok; rewrite ?granted_to_cons, ?decide_True by done; rewrite Heq'.
      * by rewrite app_assoc.
      * by rewrite app_nil_r.
    + exists d. rewrite Ho by done. split.
      * destruct ok; rewrite ?granted_to_cons, ?decide_False by done; done.
      * eapply Forall_impl; [exact Hdd|]. simpl. intros. lia.
  - intros ip'. destruct ok; [|done]. rewrite granted_to_cons. case_decide; [|done]. subst.
    apply StronglySorted_snoc; [done|]. eapply Forall_impl; [apply ti_past0|]. simpl. intros. lia.
  - intros ip'. assert (Forall (λ x, x ≤ now2) (Trace.granted_to ip' (Trace.granted s))).
    { eapply Forall_impl; [apply ti_past0|]. simpl. intros. lia. }
    destruct ok; [|done]. rewrite granted_to_cons. case_decide; [|done].
    apply Forall_app. split; [done|]. by constructor.
Qed.

Lemma trace_inv_step max window cap universe s s' :
  Z.of_nat (size universe) ≤ cap → trace_inv max window cap universe s →
  Trace.step universe s s' → trace_inv max window cap universe s'.
Proof.
  intros Hcap Hinv Hstep. pose proof (ti_wf _ _ _ _ _ Hinv) as Hwf.
  destruct Hstep as [s ip now now2 ok rl' Hip Hn Hn2 Hr|s ip now n rl' Hn Hr|s now_at now rl' Hn Hr].
  - by eapply trace_inv_allow.
  - destruct (get_remaining_ok (Trace.limiter s) ip now Hwf) as (rl1 & Hr1 & Hwf1 & Hrl1).
    rewrite Hr in Hr1. injection Hr1 as _ <-. apply trace_inv_trim; [done..| |].
    + do 2 eexists. split; [exact Hrl1|]. intros k. rewrite !elem_of_dom. by rewrite lookup_alter_is_Some.
    + intros ip'. rewrite (get_remaining_admitted (Trace.limiter s) ip now ip' rl' n) by done.
      rewrite (ti_window _ _ _ _ _ Hinv). case_decide; [right|by left]. by exists now.
  - clear Hcap. destruct (cleanup_ok (Trace.limiter s) now_at Hwf) as (m & l & Hr1 & Hwf1 & Hm).
    pose proof (cleanup_admitted (Trace.limiter s) now_at) as Ha.
    rewrite Hr in Hr1. injection Hr1 as Hrl.
    apply trace_inv_trim; [done| |by rewrite Hrl| |].
    + specialize (Hn ""). lia.
    + exists m, l. split; [done|]. intros k. rewrite !elem_of_dom. intros [r Hk].
      rewrite Hm in Hk. by destruct (ip_records_ _ !! k).
    + intros ip. right. exists (now_at ip). split; [apply Hn|].
      rewrite <-(ti_window _ _ _ _ _ Hinv). by apply Ha.
Qed.

Lemma trace_inv_reachable max window cap universe start s :
  is_i32 max → Z.of_nat (size universe) ≤ cap →
  rtc (Trace.step universe) (Trace.init max window cap start) s →
  trace_inv max window cap universe s.
Proof.
  intros Hmax Hcap Hs. pose proof (trace_inv_init max window cap universe start Hmax) as Hi.
  revert Hi. induction Hs as [|s1 s2 s3 H12 _ IH]; [done|].
  intros Hi. by eapply IH, trace_inv_step.
Qed.

(** ** Values returned, whether or not a record is evicted on the way *)
Lemma is_allowed_decision rl ip now now2 :
  wf rl →
  fst <$> is_allowed rl ip now now2
  = Ret (Z.of_nat (length (drop_expired now2 (seconds (window_ rl)) (admitted rl ip)))
         <? max_requests_ rl).
Proof.
  intros Hwf. destruct (refines rl ip now now2 Hwf) as (ok & rl' & -> & _ & _ & _ & _ & Hs).
  simpl. f_equal. pose proof (admitted_length rl ip Hwf) as Hlen.
  unfold Spec.spec_is_allowed in Hs. rewrite abs_find in Hs by done.
  destruct (Z.leb_spec (max_requests_ rl) 0) as [Hmax|Hmax]; simplify_eq.
  { symmetry. apply Z.ltb_ge. lia. }
  unfold admitted. destruct (ip_records_ rl !! ip) as [r|]; simpl in *.
  - by destruct (_ <? _); simplify_eq.
  - simplify_eq. symmetry. by apply Z.ltb_lt.
Qed.

Lemma get_remaining_value rl ip now :
  wf rl →
  fst <$> get_remaining rl ip now
  = Ret (max_requests_ rl
         - Z.of_nat (length (drop_expired now (seconds (window_ rl)) (admitted rl ip)))).
Proof.
  intros Hwf. destruct (get_remaining_ok rl ip now Hwf) as (rl' & -> & _).
  simpl. unfold admitted. destruct (ip_records_ rl !! ip); simpl; do 2 f_equal. lia.
Qed.

Lemma drop_expired_mono w now now' ts :
  now ≤ now' → (length (drop_expired now' w ts) ≤ length (drop_expired now w ts))%nat.
Proof. intros Hle. rewrite <-(drop_expired_twice now now' w ts) by done. apply drop_expired_length. Qed.

(** ** Limiters that differ in expired admissions only *)
Record alike (universe : gset string) (now : Z) (rl1 rl2 : t) : Prop := {
  alike_wf1 : wf rl1;
  alike_wf2 : wf rl2;
  alike_max : max_requests_ rl1 = max_requests_ rl2;
  alike_window : window_ rl1 = window_ rl2;
  alike_dom1 : dom (ip_records_ rl1) ⊆ universe;
  alike_dom2 : dom (ip_records_ rl2) ⊆ universe;
  alike_cap1 : Z.of_nat (size universe) ≤ max_ip_records_ rl1;
  alike_cap2 : Z.of_nat (size universe) ≤ max_ip_records_ rl2;
  alike_admitted ip : drop_expired now (seconds (window_ rl1)) (admitted rl1 ip) =
                      drop_expired now (seconds (window_ rl1)) (admitted rl2 ip)
}.

Lemma alike_later universe now now' rl1 rl2 :
  now ≤ now' → alike universe now rl1 rl2 → alike universe now' rl1 rl2.
Proof.
  intros Hle []. split; try done. intros ip.
  rewrite <-(drop_expired_twice now now' _ (admitted rl1 ip)), <-(drop_expired_twice now now' _ (admitted rl2 ip)) by done.
  by rewrite alike_admitted0.
Qed.

(** A call on one side that only drops admissions that have expired by now. *)
Lemma alike_trim universe now rl1 rl2 rl2' :
  alike universe now rl1 rl2 → wf rl2' → max_requests_ rl2' = max_requests_ rl2 → window_ rl2' = window_ rl2 →
  max_ip_records_ rl2' = max_ip_records_ rl2 → dom (ip_records_ rl2') ⊆ dom (ip_records_ rl2) →
  (∀ ip, admitted rl2' ip = admitted rl2 ip ∨
     ∃ t, t ≤ now ∧ admitted rl2' ip = drop_expired t (seconds (window_ rl2)) (admitted rl2 ip)) →
  alike universe now rl1 rl2'.
Proof.
  intros [] Hwf Hm Hw Hc Hd Ha. split; [done|done|congruence|congruence|done|by etransitivity|done|congruence|].
  intros ip. destruct (Ha ip) as [->|(t & Ht & ->)]; [done|].
  rewrite <-alike_window0. by rewrite drop_expired_twice.
Qed.

Lemma alike_sym universe now rl1 rl2 : alike universe now rl1 rl2 → alike universe now rl2 rl1.
Proof. intros []. split; try done. intros ip. by rewrite <-alike_window0. Qed.

(** What [get_remaining] and [cleanup] leave behind is such a limiter. *)
Lemma alike_remaining universe now ip rl1 rl2 :
  alike universe now rl1 rl2 →
  ∃ rl2', get_remaining rl2 ip now = Ret (max_requests_ rl2
      - Z.of_nat (length (drop_expired now (seconds (window_ rl2)) (admitted rl2 ip))), rl2') ∧
    alike universe now rl1 rl2'.
Proof.
  intros Ha. pose proof (alike_wf2 _ _ _ _ Ha) as Hwf.
  destruct (get_remaining_ok rl2 ip now Hwf) as (rl2' & Hg & Hwf' & Hrl). exists rl2'. split.
  - pose proof (get_remaining_value rl2 ip now Hwf) as Hv. rewrite Hg in *. simpl in Hv. by injection Hv as ->.
  - eapply alike_trim; [done|done|by rewrite Hrl..| |].
    + rewrite Hrl. cbn [ip_records_ with_records]. by rewrite dom_alter_L.
    + intros ip'. rewrite (get_remaining_admitted _ _ _ ip' _ _ Hwf Hg). case_decide; [right|by left]. by exists now.
Qed.

Lemma alike_cleanup universe now now_at rl1 rl2 :
  (∀ ip, now_at ip ≤ now) → alike universe now rl1 rl2 →
  ∃ rl2', cleanup rl2 now_at = Ret rl2' ∧ alike universe now rl1 rl2'.
Proof.
  intros Hn Ha. pose proof (alike_wf2 _ _ _ _ Ha) as Hwf.
  destruct (cleanup_ok rl2 now_at Hwf) as (m & l & Hc & Hwf' & Hm). eexists. split; [exact Hc|].
  eapply alike_trim; [done..| |].
  - intros ip. rewrite !elem_of_dom. intros [r Hr]. cbn [ip_records_ with_records] in Hr. rewrite Hm in Hr.
    by destruct (ip_records_ rl2 !! ip).
  - intros ip. right. exists (now_at ip). split; [done|]. by apply cleanup_admitted.
Qed.

(** A request gets the same answer from both. *)
Lemma alike_allow universe now ip t t2 rl1 rl2 :
  alike universe now rl1 rl2 → ip ∈ universe → now ≤ t → t ≤ t2 →
  ∃ ok rl1' rl2', is_allowed rl1 ip t t2 = Ret (ok, rl1') ∧ is_allowed rl2 ip t t2 = Ret (ok, rl2') ∧
    alike universe t2 rl1' rl2'.
Proof.
  intros Ha Hip Hn Ht. apply (alike_later _ now t2) in Ha as Ha2; [|lia]. destruct Ha2.
  destruct (is_allowed_admitted rl1 ip t t2) as (m1 & l1 & H1 & Hw1 & Hd1 & Hi1 & Ho1); [done|by eapply room|].
  destruct (is_allowed_admitted rl2 ip t t2) as (m2 & l2 & H2 & Hw2 & Hd2 & Hi2 & Ho2); [done|by eapply room|].
  rewrite <-alike_window0, <-alike_max0, <-alike_admitted0 in *.
  do 3 eexists. split_and!; [exact H1|exact H2|]. split; try done; simpl.
  - intros k [->%elem_of_singleton|Hk]%Hd1%elem_of_union; auto.
  - intros k [->%elem_of_singleton|Hk]%Hd2%elem_of_union; auto.
  - intros ip'. destruct (decide (ip' = ip)) as [->|Hne]; [by rewrite Hi1, Hi2|]. by rewrite Ho1, Ho2.
Qed.

Lemma alike_perform universe now c calls rl1 rl2 :
  alike universe now rl1 rl2 → Calls.chronological universe now (c :: calls) →
  ∃ a rl1' rl2' now', Calls.perform c rl1 = Ret (a, rl1') ∧ Calls.perform c rl2 = Ret (a, rl2') ∧
    alike universe now' rl1' rl2' ∧ Calls.chronological universe now' calls.
Proof.
  intros Ha. destruct c as [ip t t2|ip t|now_at t]; cbn [Calls.chronological Calls.perform].
  - intros (Hip & Hn & Ht & Hc). destruct (alike_allow universe now ip t t2 rl1 rl2) as (ok & rl1' & rl2' & -> & -> & Ha'); [done..|].
    do 4 eexists. by split_and!.
  - intros (Hn & Hc). apply (alike_later _ now t) in Ha; [|done].
    destruct (alike_remaining universe t ip rl1 rl2 Ha) as (rl2' & -> & Ha2).
    destruct (alike_remaining universe t ip rl2' rl1 (alike_sym _ _ _ _ Ha2)) as (rl1' & -> & Ha1).
    destruct Ha. rewrite <-alike_max0, <-alike_window0, <-alike_admitted0. do 4 eexists.
    split_and!; [done|done|by apply alike_sym|done].
  - intros (Hn & Hc). apply (alike_later _ now t) in Ha; [|specialize (Hn ""); lia].
    destruct (alike_cleanup universe t now_at rl1 rl2) as (rl2' & -> & Ha2); [apply Hn|done|].
    destruct (alike_cleanup universe t now_at rl2' rl1) as (rl1' & -> & Ha1); [apply Hn|by apply alike_sym|].
    do 4 eexists. split_and!; [done|done|by apply alike_sym|done].
Qed.

Lemma alike_serve universe now calls rl1 rl2 :
  alike universe now rl1 rl2 → Calls.chronological universe now calls →
  ∃ answers, Calls.serve calls rl1 = Ret answers ∧ Calls.serve calls rl2 = Ret answers.
Proof.
  revert now rl1 rl2. induction calls as [|c calls IH]; intros now rl1 rl2 Ha Hc; [by eexists|].
  destruct (alike_perform universe now c calls rl1 rl2 Ha Hc) as (a & rl1' & rl2' & now' & H1 & H2 & Ha' & Hc').
  destruct (IH now' rl1' rl2' Ha' Hc') as (answers & H3 & H4).
  exists (a :: answers). cbn [Calls.serve]. rewrite H1, H2. cbn [mbind exec_bind fst snd]. by rewrite H3, H4.
Qed.

Lemma cleanup_alike universe rl now_at now :
  wf rl → dom (ip_records_ rl) ⊆ universe → Z.of_nat (size universe) ≤ max_ip_records_ rl →
  (∀ ip, now_at ip ≤ now) → ∃ rl', cleanup rl now_at = Ret rl' ∧ alike universe now rl' rl.
Proof.
  intros Hwf Hdom Hcap Hn. destruct (alike_cleanup universe now now_at rl rl Hn) as (rl' & Hc & Ha); [by split|].
  exists rl'. split; [done|by apply alike_sym].
Qed.

(** The very next answer does not change even if there are more addresses than
    records; a later one can: an address whose requests are refused keeps its
    record in front, expired or not, and the cleanup that removes it decides
    whose record is evicted. *)
Lemma cleanup_next_answer rl now_at rl' ip now now2 :
  wf rl → cleanup rl now_at = Ret rl' → now_at ip ≤ now2 →
  fst <$> is_allowed rl' ip now now2 = fst <$> is_allowed rl ip now now2 ∧
  fst <$> get_remaining rl' ip now2 = fst <$> get_remaining rl ip now2.
Proof.
  intros Hwf Hc Hle. pose proof (cleanup_ok rl now_at Hwf) as (m & l & Hc' & Hwf' & _).
  assert (rl' = with_records rl m l) as -> by congruence.
  rewrite !is_allowed_decision, !get_remaining_value by done.
  rewrite (cleanup_admitted rl now_at) by done. by rewrite drop_expired_twice.
Qed.

Lemma cleanup_can_change_eviction :
  let at_second ip s := Calls.Allow ip (seconds s) (seconds s) in
  let before := [at_second "A" 0; at_second "B" 50; at_second "A" 55] in
  let after := [at_second "C" 101; at_second "B" 102] in
  let sweep := Calls.Sweep (λ _, seconds 100) (seconds 100) in
  last <$> Calls.serve (before ++ after) (create 1 60 2) = Ret (Some (Calls.Allowed true)) ∧
  last <$> Calls.serve (before ++ [sweep] ++ after) (create 1 60 2) = Ret (Some (Calls.Allowed false)).
Proof. split; vm_compute; reflexivity. Qed.

#[export] Hint Resolve wf_create drop_expired_length drop_expired_mono : cpp.

(** ** Properties *)

(** C6: a limiter that is used by no more addresses than it has records for
    decides every request exactly by the request history.  In every state
    reached by interleaved calls of [is_allowed], [get_remaining] and
    [cleanup] under a monotone clock, a request is admitted if and only if
    fewer than [max_requests] admissions of that address lie within the
    window that ends at the clock reading the decision uses. *)
Theorem rate_decision_exact universe max window cap start s ip now now2 :
  is_i32 max → Z.of_nat (size universe) ≤ cap →
  rtc (Trace.step universe) (Trace.init max window cap start) s →
  ip ∈ universe → Trace.clock s ≤ now → now ≤ now2 →
  fst <$> is_allowed (Trace.limiter s) ip now now2
  = Ret (Z.of_nat (length (Trace.recent window now2 ip (Trace.granted s))) <? max).
Proof.
  intros Hmax Hcap Hs Hip Hnow Hnow2.
  pose proof (trace_inv_reachable _ _ _ _ _ _ Hmax Hcap Hs) as Hinv.
  rewrite is_allowed_decision by apply Hinv.
  rewrite (recent_kept max window cap universe s ip now2) by (done || lia).
  by rewrite (ti_max _ _ _ _ _ Hinv), (ti_window _ _ _ _ _ Hinv).
Qed.

(** C11: the window is never overrun.  In every reachable state, at the time
    of the last clock reading, no address has more than [max_requests]
    admissions that are at most [window] seconds old. *)
Theorem rate_window_bound universe max window cap start s ip :
  is_i32 max → Z.of_nat (size universe) ≤ cap →
  rtc (Trace.step universe) (Trace.init max window cap start) s →
  Z.of_nat (length (Trace.recent window (Trace.clock s) ip (Trace.granted s))) ≤ Z.max 0 max.
Proof.
  intros Hmax Hcap Hs.
  pose proof (trace_inv_reachable _ _ _ _ _ _ Hmax Hcap Hs) as Hinv.
  rewrite (recent_kept max window cap universe) by (done || lia).
  pose proof (admitted_length _ ip (ti_wf _ _ _ _ _ Hinv)) as Hlen.
  rewrite (ti_max _ _ _ _ _ Hinv) in Hlen.
  pose proof (drop_expired_length (Trace.clock s) (seconds window) (admitted (Trace.limiter s) ip)). lia.
Qed.

(** C16: [is_allowed] implements the abstract limiter.  From a well-formed
    state it never dereferences a dangling iterator and always returns; its
    answer and its new recency list are those of the abstract limiter, which
    forgets only the least recently used address, and only when the index is
    full; the invariant, the size bound included, is kept. *)
Theorem is_allowed_refines_spec rl ip now now2 :
  wf rl →
  ∃ ok rl', is_allowed rl ip now now2 = Ret (ok, rl') ∧ wf rl' ∧
    Spec.spec_is_allowed (max_requests_ rl) (window_ rl) (max_ip_records_ rl) ip now now2 (abs rl)
    = (ok, abs rl').
Proof.
  intros Hwf. destruct (refines rl ip now now2 Hwf) as (ok & rl' & ? & ? & _ & _ & _ & ?). eauto.
Qed.

(** C17: the periodic [cleanup] cannot be observed by addresses the limiter
    has records for.  It returns and keeps the invariant; and any sequence of
    later calls, further cleanups among them, with clock readings that do not
    run backwards, returns and gives the same answers as without it. *)
Theorem cleanup_unobservable universe rl now_at now calls :
  wf rl → dom (ip_records_ rl) ⊆ universe → Z.of_nat (size universe) ≤ max_ip_records_ rl →
  (∀ ip, now_at ip ≤ now) → Calls.chronological universe now calls →
  ∃ rl' answers, cleanup rl now_at = Ret rl' ∧ wf rl' ∧
    Calls.serve calls rl' = Ret answers ∧ Calls.serve calls rl = Ret answers.
Proof.
  intros Hwf Hdom Hcap Hnow Hcalls. destruct (cleanup_alike universe rl now_at now) as (rl' & Hc & Ha); [done..|].
  destruct (alike_serve universe now calls rl' rl Ha Hcalls) as (answers & H1 & H2).
  exists rl', answers. split_and!; [done|apply Ha|done|done].
Qed.

(** [get_remaining] tells the truth: right after it reports [n], a request
    of that address whose decision uses the same clock reading is admitted
    exactly when [0 < n], and if [0 < n] it is also admitted at any later
    reading. *)
Theorem remaining_predicts rl ip t n rl' now :
  wf rl → get_remaining rl ip t = Ret (n, rl') →
  fst <$> is_allowed rl' ip now t = Ret (0 <? n) ∧
  ∀ t', t ≤ t' → 0 < n → fst <$> is_allowed rl' ip now t' = Ret true.
Proof.
  intros Hwf Hr. pose proof (get_remaining_value rl ip t Hwf) as Hn.
  destruct (get_remaining_ok rl ip t Hwf) as (rl1 & Hr1 & Hwf1 & Hrl1).
  rewrite Hr in Hn, Hr1. simpl in Hn. injection Hn as ->. injection Hr1 as _ <-.
  rewrite is_allowed_decision by done.
  rewrite (get_remaining_admitted rl ip t ip _ _ Hwf Hr), decide_True by done.
  replace (window_ rl') with (window_ rl) by (by rewrite Hrl1).
  replace (max_requests_ rl') with (max_requests_ rl) by (by rewrite Hrl1).
  split.
  - rewrite drop_expired_twice by done. f_equal. apply eq_true_iff_eq. rewrite !Z.ltb_lt. lia.
  - intros t' Ht Hn. rewrite is_allowed_decision by done.
    rewrite (get_remaining_admitted rl ip t ip _ _ Hwf Hr), decide_True by done.
    replace (window_ rl') with (window_ rl) by (by rewrite Hrl1).
    replace (max_requests_ rl') with (max_requests_ rl) by (by rewrite Hrl1).
    f_equal. apply Z.ltb_lt.
    rewrite drop_expired_twice by done.
    pose proof (drop_expired_mono (seconds (window_ rl)) t t' (admitted rl ip) Ht). lia.
Qed.

(** ** Witnesses *)
Definition example_state : Trace.state :=
  Trace.mkState
    (with_records (create 1 60 10000) {["203.0.113.9" := mkIPRecord [5] 0%nat]}
                  (SList [(0%nat, "203.0.113.9")] 1%nat))
    [("203.0.113.9", 5)] 7.

Lemma example_reached :
  rtc (Trace.step {["203.0.113.9"]}) (Trace.init 1 60 10000 0) example_state.
Proof.
  apply rtc_once.
  apply (Trace.step_is_allowed _ (Trace.init 1 60 10000 0) "203.0.113.9" 5 7 true);
    [set_solver|done|done|reflexivity].
Qed.

Lemma rate_decision_exact_witness :
  fst <$> is_allowed (Trace.limiter example_state) "203.0.113.9" (seconds 30) (seconds 30)
  = Ret false.
Proof.
  etransitivity.
  - apply (rate_decision_exact {["203.0.113.9"]} 1 60 10000 0 example_state "203.0.113.9"
             (seconds 30) (seconds 30)).
    + split; done.
    + vm_compute. done.
    + apply example_reached.
    + set_solver.
    + done.
    + done.
  - reflexivity.
Defined.

Lemma rate_window_bound_witness :
  Z.of_nat (length (Trace.recent 60 (Trace.clock example_state) "203.0.113.9"
                      (Trace.granted example_state))) ≤ 1.
Proof.
  apply (rate_window_bound {["203.0.113.9"]} 1 60 10000 0 example_state "203.0.113.9").
  - split; done.
  - vm_compute. done.
  - apply example_reached.
Defined.

Lemma is_allowed_refines_spec_witness :
  ∃ ok rl', is_allowed (create 5 60 10000) "198.51.100.7" 10 11 = Ret (ok, rl') ∧ wf rl' ∧
    Spec.spec_is_allowed 5 60 10000 "198.51.100.7" 10 11 [] = (ok, abs rl').
Proof. apply (is_allowed_refines_spec (create 5 60 10000)). apply wf_create. split; done. Defined.

Lemma cleanup_unobservable_witness :
  let rl := create 1 60 2 in
  let calls := [Calls.Allow "198.51.100.7" 100 101; Calls.Remaining "198.51.100.7" 101] in
  ∃ rl' answers, cleanup rl (λ _, 100) = Ret rl' ∧ wf rl' ∧
    Calls.serve calls rl' = Ret answers ∧ Calls.serve calls rl = Ret answers.
Proof.
  apply (cleanup_unobservable {["198.51.100.7"]} (create 1 60 2) (λ _, 100) 100).
  - apply wf_create. split; done.
  - intros ip. cbn [ip_records_ create]. rewrite dom_empty. set_solver.
  - by vm_compute.
  - done.
  - simpl. split_and!; [set_solver|lia..|done].
Defined.

Lemma remaining_predicts_witness :
  fst <$> is_allowed (create 5 60 10000) "198.51.100.7" 20 20 = Ret true.
Proof.
  refine (proj1 (remaining_predicts (create 5 60 10000) "198.51.100.7" 20 5 _ 20 _ _)).
  - apply wf_create. split; done.
  - reflexivity.
Defined.
