(* ===== verification/Cache.v ===== *)
(** * The sharded LRU cache ([cache.h])

    [Module CacheShard] is one shard: an LRU index of JSON values with a time
    to live per data type and a memory budget.  [Module IPCache] is the cache
    of shards the services use.  A shard method holds the shard's mutex for
    its whole body, so it is one atomic step; the reading of
    [system_clock::now()] is its argument, in nanoseconds.  [Module Lru] is
    the abstract shard: an association list, most recently used first. *)
From Stdlib Require Import ZArith Lia.
From S2P Require Import Prelude StdList Double Json.
#[local] Open Scope Z_scope.

Definition DEFAULT_SHARD_MEMORY : Z := 10 * 1024 * 1024.
Definition DEFAULT_MAX_MEMORY : Z := 100 * 1024 * 1024.

Inductive CacheDataType := IP_GEOLOCATION | MAC_OUI | NEGATIVE.

#[export] Instance CacheDataType_eq_dec : EqDecision CacheDataType.
Proof. solve_decision. Defined.

(** ** Statistics *)
Module CacheStats.

Record t := mk {
  total_lookups_ : Z;
  hits_ : Z;
  misses_ : Z;
  evictions_ : Z;
  expired_entries_ : Z;
  memory_usage_bytes_ : Z
}.

Definition zero : t := mk 0 0 0 0 0 0.

Definition hit_rate (s : t) : double :=
  if 0 <? total_lookups_ s
  then dmul (ddiv (double_of_Z (hits_ s)) (double_of_Z (total_lookups_ s))) (double_of_Z 100)
  else double_of_Z 0.

Definition get_memory_usage_mb (s : t) : double :=
  ddiv (double_of_Z (memory_usage_bytes_ s)) (dmul (double_of_Z 1024) (double_of_Z 1024)).

(** [a += o] *)
Definition add (a o : t) : t :=
  mk (u64 (total_lookups_ a + total_lookups_ o)) (u64 (hits_ a + hits_ o))
     (u64 (misses_ a + misses_ o)) (u64 (evictions_ a + evictions_ o))
     (u64 (expired_entries_ a + expired_entries_ o))
     (u64 (memory_usage_bytes_ a + memory_usage_bytes_ o)).

Definition on_lookup (s : t) : t :=
  mk (u64 (total_lookups_ s + 1)) (hits_ s) (misses_ s) (evictions_ s) (expired_entries_ s)
     (memory_usage_bytes_ s).
Definition on_hit (s : t) : t :=
  mk (total_lookups_ s) (u64 (hits_ s + 1)) (misses_ s) (evictions_ s) (expired_entries_ s)
     (memory_usage_bytes_ s).
Definition on_miss (s : t) : t :=
  mk (total_lookups_ s) (hits_ s) (u64 (misses_ s + 1)) (evictions_ s) (expired_entries_ s)
     (memory_usage_bytes_ s).
Definition on_eviction (s : t) : t :=
  mk (total_lookups_ s) (hits_ s) (misses_ s) (u64 (evictions_ s + 1)) (expired_entries_ s)
     (memory_usage_bytes_ s).
Definition on_expired (s : t) : t :=
  mk (total_lookups_ s) (hits_ s) (misses_ s) (evictions_ s) (u64 (expired_entries_ s + 1))
     (memory_usage_bytes_ s).

End CacheStats.

Definition ttl_for_type (type : CacheDataType) : Z :=
  match type with
  | IP_GEOLOCATION => 3600
  | MAC_OUI => 7 * 24 * 3600
  | NEGATIVE => 300
  end.

(** ** One shard *)
Module CacheShard.
Section Shard.
Context {J : Type} `{!JsonOps J}.

Record CacheEntry := mkEntry {
  result_ : J;
  timestamp_ : Z;
  list_it_ : iterator;
  size_bytes_ : Z;
  data_type_ : CacheDataType
}.

Record t := mk {
  cache_map_ : gmap string CacheEntry;
  cache_list_ : slist string;
  max_memory_bytes_ : Z;
  memory_usage_bytes_ : Z;
  stats_ : CacheStats.t
}.

Definition create (max_memory_bytes : Z) : t := mk ∅ slist_empty max_memory_bytes 0 CacheStats.zero.

Definition with_stats (s : t) (st : CacheStats.t) : t :=
  mk (cache_map_ s) (cache_list_ s) (max_memory_bytes_ s) (memory_usage_bytes_ s) st.

Definition expired (now : Z) (e : CacheEntry) : bool :=
  seconds (ttl_for_type (data_type_ e)) <? now - timestamp_ e.

Definition get (s0 : t) (key : string) (now : Z) : exec (option J * t) :=
  let s := with_stats s0 (CacheStats.on_lookup (stats_ s0)) in
  match cache_map_ s !! key with
  | None => Ret (None, with_stats s (CacheStats.on_miss (stats_ s)))
  | Some it =>
      if expired now it then
        let entry_size := size_bytes_ it in
        l ← list_erase (list_it_ it) (cache_list_ s);
        Ret (None, mk (delete key (cache_map_ s)) l (max_memory_bytes_ s)
                      (u64 (memory_usage_bytes_ s - entry_size))
                      (CacheStats.on_miss (CacheStats.on_expired (stats_ s))))
      else
        l ← list_splice_front (list_it_ it) (cache_list_ s);
        Ret (Some (result_ it),
             mk (cache_map_ s) l (max_memory_bytes_ s) (memory_usage_bytes_ s)
                (CacheStats.on_hit (stats_ s)))
  end.

Definition estimate_entry_size (key : string) (result : J) : exec Z :=
  text ← json_dump result;
  Ret (u64 (u64 (Z.of_nat (String.length key) * 2) + Z.of_nat (String.length text))).

(** [fuel] bounds the iterations of the [while] loop. *)
Fixpoint evict_if_needed (fuel : nat) (new_entry_size : Z) (s : t) : exec t :=
  match fuel with
  | O => OutOfFuel
  | S fuel' =>
      if negb (slist_is_empty (cache_list_ s))
         && (max_memory_bytes_ s <? u64 (memory_usage_bytes_ s + new_entry_size)) then
        key ← list_back (cache_list_ s);
        node ← deref (cache_map_ s !! key);
        l ← list_erase (list_it_ node) (cache_list_ s);
        evict_if_needed fuel' new_entry_size
          (mk (delete key (cache_map_ s)) l (max_memory_bytes_ s)
              (u64 (memory_usage_bytes_ s - size_bytes_ node))
              (CacheStats.on_eviction (stats_ s)))
      else Ret s
  end.

Definition put (s : t) (key : string) (result : J) (data_type : CacheDataType) (now : Z) : exec t :=
  entry_size ← estimate_entry_size key result;
  match cache_map_ s !! key with
  | Some it =>
      let memory := u64 (memory_usage_bytes_ s - size_bytes_ it) in
      let it' := mkEntry result now (list_it_ it) entry_size data_type in
      l ← list_splice_front (list_it_ it) (cache_list_ s);
      Ret (mk (<[key := it']> (cache_map_ s)) l (max_memory_bytes_ s)
              (u64 (memory + entry_size)) (stats_ s))
  | None =>
      s1 ← evict_if_needed (S (length (nodes (cache_list_ s)))) entry_size s;
      let '(it, l) := push_front key (cache_list_ s1) in
      let entry := mkEntry result now it entry_size data_type in
      Ret (mk (<[key := entry]> (cache_map_ s1)) l (max_memory_bytes_ s1)
              (u64 (memory_usage_bytes_ s1 + entry_size)) (stats_ s1))
  end.

Definition memory_usage (s : t) : Z := memory_usage_bytes_ s.

Definition get_local_stats (s : t) : CacheStats.t := stats_ s.

End Shard.
Arguments CacheEntry J : clear implicits.
Arguments t J : clear implicits.
End CacheShard.

(** ** The abstract shard *)
Module Lru.
Section Lru.
Context {J : Type}.

Record item := mkItem { value : J; time : Z; bytes : Z; kind : CacheDataType }.

Definition item_of (e : CacheShard.CacheEntry J) : item :=
  mkItem (CacheShard.result_ e) (CacheShard.timestamp_ e) (CacheShard.size_bytes_ e)
         (CacheShard.data_type_ e).

Definition fresh_at (now : Z) (i : item) : Prop := now - time i ≤ seconds (ttl_for_type (kind i)).

#[export] Instance fresh_at_dec now i : Decision (fresh_at now i).
Proof. unfold fresh_at. apply _. Defined.

Definition total (al : list (string * item)) : Z := foldr (λ p acc, bytes p.2 + acc) 0 al.

Definition lru_get (k : string) (now : Z) (al : list (string * item))
    : option J * list (string * item) :=
  match alist_find k al with
  | None => (None, al)
  | Some i => if decide (fresh_at now i)
              then (Some (value i), (k, i) :: alist_remove k al)
              else (None, alist_remove k al)
  end.

(** Entries are shed oldest first until the new one fits. *)
Fixpoint shed (max new : Z) (oldest_first : list (string * item)) : list (string * item) :=
  match oldest_first with
  | [] => []
  | _ :: l => if max <? u64 (total oldest_first + new) then shed max new l else oldest_first
  end.

Definition lru_put (max : Z) (k : string) (i : item) (al : list (string * item))
    : list (string * item) :=
  match alist_find k al with
  | Some _ => (k, i) :: alist_remove k al
  | None => (k, i) :: rev (shed max (bytes i) (rev al))
  end.

End Lru.
Arguments item J : clear implicits.
End Lru.

(** ** The cache of shards *)
Module IPCache.
Section Cache.
Context {J : Type} `{!JsonOps J}.
(** [std::hash<std::string>], chosen by the standard library. *)
Context (hash : string → Z).

Record t := mk {
  shards_ : list (CacheShard.t J);
  shard_count_ : Z
}.

(** The constructor divides by [shard_count]. *)
Definition create (max_memory_bytes shard_count : Z) : exec t :=
  if shard_count =? 0 then Undefined
  else
    let shard_memory := u64 (u64 (max_memory_bytes + shard_count) - 1) / shard_count in
    Ret (mk (replicate (Z.to_nat shard_count) (CacheShard.create shard_memory)) shard_count).

Definition default_shard_count : Z := 8.

Definition get_shard_index (c : t) (key : string) : exec Z :=
  if shard_count_ c =? 0 then Undefined else Ret (hash key mod shard_count_ c).

Definition shard_at (c : t) (i : Z) : exec (CacheShard.t J) := deref (shards_ c !! Z.to_nat i).

Definition with_shard (c : t) (i : Z) (s : CacheShard.t J) : t :=
  mk (<[Z.to_nat i := s]> (shards_ c)) (shard_count_ c).

Definition get (c : t) (key : string) (now : Z) : exec (option J * t) :=
  shard_index ← get_shard_index c key;
  s ← shard_at c shard_index;
  '(r, s') ← CacheShard.get s key now;
  Ret (r, with_shard c shard_index s').

Definition put (c : t) (key : string) (result : J) (data_type : CacheDataType) (now : Z) : exec t :=
  shard_index ← get_shard_index c key;
  s ← shard_at c shard_index;
  s' ← CacheShard.put s key result data_type now;
  Ret (with_shard c shard_index s').

Definition add_memory (st : CacheStats.t) (bytes : Z) : CacheStats.t :=
  CacheStats.mk (CacheStats.total_lookups_ st) (CacheStats.hits_ st) (CacheStats.misses_ st)
    (CacheStats.evictions_ st) (CacheStats.expired_entries_ st)
    (u64 (CacheStats.memory_usage_bytes_ st + bytes)).

Definition get_stats (c : t) : CacheStats.t :=
  foldl (λ combined shard,
           add_memory (CacheStats.add combined (CacheShard.get_local_stats shard))
                      (CacheShard.memory_usage shard))
        CacheStats.zero (shards_ c).

End Cache.
Arguments t J : clear implicits.
End IPCache.

(** ** A cache in use *)
Module CacheTrace.
Section Trace.
Context {J : Type} `{!JsonOps J} (hash : string → Z).

Inductive op :=
| Get (key : string) (now : Z)
| Put (key : string) (result : J) (data_type : CacheDataType) (now : Z).

(** One call; a [put] that throws has changed nothing. *)
Definition apply (c : IPCache.t J) (o : op) : exec (IPCache.t J) :=
  match o with
  | Get key now => snd <$> IPCache.get hash c key now
  | Put key result data_type now =>
      match IPCache.put hash c key result data_type now with
      | Throw _ => Ret c
      | r => r
      end
  end.

Fixpoint run (c : IPCache.t J) (ops : list op) : exec (IPCache.t J) :=
  match ops with
  | [] => Ret c
  | o :: ops' => c' ← apply c o; run c' ops'
  end.

(** The same, with the answers of the lookups. *)
Fixpoint play (c : IPCache.t J) (ops : list op) : exec (list (option J) * IPCache.t J) :=
  match ops with
  | [] => Ret ([], c)
  | Get key now :: ops' =>
      '(r, c') ← IPCache.get hash c key now;
      prod_map (r ::.) id <$> play c' ops'
  | o :: ops' => c' ← apply c o; play c' ops'
  end.

Definition is_get (o : op) : bool := match o with Get _ _ => true | Put _ _ _ _ => false end.

(** The last [put] of a key that did not throw. *)
Definition stored (k : string) (o : op) : option (J * CacheDataType * Z) :=
  match o with
  | Put key result data_type now =>
      if decide (key = k)
      then match json_dump result with Ret _ => Some (result, data_type, now) | _ => None end
      else None
  | Get _ _ => None
  end.

Fixpoint last_put (k : string) (ops : list op) : option (J * CacheDataType * Z) :=
  match ops with
  | [] => None
  | o :: ops' => match last_put k ops' with Some r => Some r | None => stored k o end
  end.

End Trace.
Arguments op J : clear implicits.
End CacheTrace.

(** ** The shard invariant and its abstraction *)
Section ShardFacts.
Context {J : Type} `{JO : !JsonOps J}.
Import CacheShard.
Implicit Types (s : CacheShard.t J) (al : list (string * Lru.item J)).

Definition shard_abs s : list (string * Lru.item J) :=
  prod_map id Lru.item_of <$> contents (cache_map_ s) (cache_list_ s).

Record shard_wf s : Prop := {
  sw_lru : lru_wf list_it_ (cache_map_ s) (cache_list_ s);
  sw_memory : memory_usage_bytes_ s = u64 (Lru.total (shard_abs s));
  sw_sizes : Forall (λ p, is_u64 (Lru.bytes p.2)) (shard_abs s);
  sw_lookups : CacheStats.total_lookups_ (stats_ s)
               = u64 (CacheStats.hits_ (stats_ s) + CacheStats.misses_ (stats_ s));
  sw_stats_memory : CacheStats.memory_usage_bytes_ (stats_ s) = 0
}.

(** *** Abstract contents *)
Lemma shard_abs_find s k :
  lru_wf list_it_ (cache_map_ s) (cache_list_ s) →
  alist_find k (shard_abs s) = Lru.item_of <$> cache_map_ s !! k.
Proof.
  intros Hl. rewrite <-(contents_find list_it_ _ (cache_list_ s)) by done. apply alist_find_fmap.
Qed.

Lemma shard_abs_keys s :
  lru_wf list_it_ (cache_map_ s) (cache_list_ s) → (shard_abs s).*1 = slist_values (cache_list_ s).
Proof.
  intros Hl. rewrite <-(contents_keys list_it_ (cache_map_ s)) by done.
  unfold shard_abs. rewrite <-list_fmap_compose. apply list_fmap_ext. by intros i [k e].
Qed.

Lemma total_app al1 al2 : Lru.total (al1 ++ al2) = Lru.total al1 + Lru.total al2.
Proof. induction al1 as [|p al1 IH]; simpl; [done|]. unfold Lru.total in *. lia. Qed.

Lemma total_rev al : Lru.total (rev al) = Lru.total al.
Proof. induction al as [|p al IH]; [done|]. simpl rev. rewrite total_app, IH. simpl. lia. Qed.

Lemma total_nonneg al : Forall (λ p, is_u64 (Lru.bytes p.2)) al → 0 ≤ Lru.total al.
Proof.
  induction 1 as [|p al Hp _ IH]; [done|]. unfold is_u64 in Hp. simpl.
  change (0 ≤ Lru.bytes p.2 + Lru.total al). lia.
Qed.

Lemma total_remove al k i :
  NoDup al.*1 → alist_find k al = Some i →
  Lru.total al = Lru.bytes i + Lru.total (alist_remove k al).
Proof.
  induction al as [|p al IH]; [done|]. rewrite alist_find_cons, fmap_cons, NoDup_cons.
  intros [Hp Hnd] Hf. unfold alist_remove. case_decide as Hk.
  - simplify_eq. rewrite filter_cons_False by tauto. fold (alist_remove p.1 al).
    by rewrite alist_remove_notin.
  - rewrite filter_cons_True by done. fold (alist_remove k al). simpl.
    change (Lru.bytes p.2 + Lru.total al = Lru.bytes i + (Lru.bytes p.2 + Lru.total (alist_remove k al))).
    rewrite (IH Hnd Hf). lia.
Qed.

Lemma sizes_remove al k :
  Forall (λ p, is_u64 (Lru.bytes p.2)) al → Forall (λ p, is_u64 (Lru.bytes p.2)) (alist_remove k al).
Proof. rewrite !Forall_forall. intros H p [_ Hp]%alist_remove_elem. auto. Qed.

Lemma shard_abs_NoDup s :
  lru_wf list_it_ (cache_map_ s) (cache_list_ s) → NoDup (shard_abs s).*1.
Proof. intros Hl. rewrite shard_abs_keys by done. by eapply lru_values_NoDup. Qed.

Lemma shard_wf_create max : shard_wf (create max).
Proof. split; [apply lru_wf_empty|done|constructor|done|done]. Qed.

(** *** [get] *)
Lemma get_refines s k now :
  shard_wf s →
  ∃ s', get s k now = Ret ((Lru.lru_get k now (shard_abs s)).1, s') ∧ shard_wf s' ∧
    shard_abs s' = (Lru.lru_get k now (shard_abs s)).2 ∧
    max_memory_bytes_ s' = max_memory_bytes_ s.
Proof.
  intros Hwf. destruct Hwf as [Hl Hm Hs Hk Hz]. unfold get, Lru.lru_get.
  rewrite shard_abs_find by done. cbn [cache_map_ with_stats cache_list_].
  destruct (cache_map_ s !! k) as [e|] eqn:He; simpl.
  2:{ eexists. split_and!; [done| |done|done]. split; try done. simpl.
      rewrite Hk. autorewrite with u64. f_equal. lia. }
  pose proof (shard_abs_NoDup s Hl) as Hnd.
  assert (Hf : alist_find k (shard_abs s) = Some (Lru.item_of e)) by (by rewrite shard_abs_find, He).
  pose proof (total_remove _ _ _ Hnd Hf) as Htot.
  unfold expired. destruct (Z.ltb_spec (seconds (ttl_for_type (data_type_ e))) (now - timestamp_ e)) as [Hx|Hx].
  - rewrite decide_False by (unfold Lru.fresh_at; simpl; lia).
    destruct (lru_wf_erase list_it_ _ _ _ _ Hl He) as (l & -> & Hl' & Hv). simpl.
    assert (Habs : prod_map id Lru.item_of <$> contents (delete k (cache_map_ s)) l
                   = alist_remove k (shard_abs s)).
    { by rewrite (contents_delete _ (cache_list_ s)), alist_remove_fmap. }
    eexists. split_and!; [done| |done|done]. split; try done; unfold shard_abs; simpl.
    + rewrite Habs, Hm, Htot. autorewrite with u64. f_equal. simpl. lia.
    + rewrite Habs. by apply sizes_remove.
    + rewrite Hk. autorewrite with u64. f_equal. lia.
  - rewrite decide_True by (unfold Lru.fresh_at; simpl; lia).
    destruct (lru_wf_splice list_it_ _ _ _ _ Hl He) as (l & -> & Hl' & Hv). simpl.
    assert (Habs : prod_map id Lru.item_of <$> contents (cache_map_ s) l
                   = (k, Lru.item_of e) :: alist_remove k (shard_abs s)).
    { rewrite <-(insert_id (cache_map_ s) k e) at 1 by done.
      rewrite (contents_front _ (cache_list_ s)) by done. by rewrite fmap_cons, alist_remove_fmap. }
    eexists. split_and!; [done| |done|done]. split; try done; unfold shard_abs; simpl.
    + rewrite Habs, Hm, Htot. done.
    + rewrite Habs. constructor; [|by apply sizes_remove].
      rewrite Forall_forall in Hs. apply (Hs (k, Lru.item_of e)).
      apply list_elem_of_fmap. exists (k, e). split; [done|]. by eapply contents_elem.
    + rewrite Hk. autorewrite with u64. f_equal. lia.
Qed.

(** *** [evict_if_needed] *)
Lemma shard_abs_nil s :
  slist_is_empty (cache_list_ s) = true → shard_abs s = [].
Proof.
  unfold shard_abs, contents, slist_is_empty, slist_values. by destruct (nodes _).
Qed.

(** One round of the loop drops the last entry of the abstract shard. *)
Lemma evict_step s k e ks l :
  shard_wf s → cache_map_ s !! k = Some e → slist_values (cache_list_ s) = ks ++ [k] →
  lru_wf list_it_ (delete k (cache_map_ s)) l → slist_values l = ks →
  let s' := mk (delete k (cache_map_ s)) l (max_memory_bytes_ s)
               (u64 (memory_usage_bytes_ s - size_bytes_ e)) (CacheStats.on_eviction (stats_ s)) in
  shard_wf s' ∧ shard_abs s = shard_abs s' ++ [(k, Lru.item_of e)].
Proof.
  intros [Hl Hm Hs Hk Hz] He Hv Hl' Hv' s'.
  destruct (contents_erase_back list_it_ _ _ _ _ _ _ Hl He Hv Hv') as [Hc1 Hc2].
  assert (Habs : shard_abs s = shard_abs s' ++ [(k, Lru.item_of e)]).
  { unfold shard_abs, s'. cbn [cache_map_ cache_list_]. by rewrite Hc1, Hc2 at 1; rewrite fmap_app. }
  split; [|done]. rewrite Habs in Hm, Hs. rewrite total_app in Hm. simpl in Hm.
  apply Forall_app in Hs as [Hs _].
  split; [done| |done|done|done]. unfold s' at 1. cbn [memory_usage_bytes_].
  rewrite Hm. autorewrite with u64. f_equal. lia.
Qed.

Lemma evict_refines fuel new s :
  shard_wf s → (length (nodes (cache_list_ s)) < fuel)%nat →
  ∃ s', evict_if_needed fuel new s = Ret s' ∧ shard_wf s' ∧
    shard_abs s' = rev (Lru.shed (max_memory_bytes_ s) new (rev (shard_abs s))) ∧
    max_memory_bytes_ s' = max_memory_bytes_ s ∧ cache_map_ s' ⊆ cache_map_ s.
Proof.
  revert s. induction fuel as [|fuel IH]; intros s Hwf Hfuel; [lia|].
  cbn [evict_if_needed]. pose proof (sw_lru _ Hwf) as Hl. pose proof (sw_memory _ Hwf) as Hm.
  destruct (slist_is_empty (cache_list_ s)) eqn:Hemp; simpl.
  { exists s. split_and!; [done|done| |done|done]. by rewrite shard_abs_nil. }
  destruct (lru_back list_it_ _ _ Hl Hemp) as (k & e & ks & Hb & He & Hv).
  destruct (lru_wf_erase_back list_it_ _ _ _ _ _ Hl He Hv) as (l & Her & Hl' & Hv').
  destruct (evict_step s k e ks l Hwf He Hv Hl' Hv') as [Hwf' Habs]. cbv zeta in *.
  assert (Hrev : rev (shard_abs s) = (k, Lru.item_of e) :: rev (shard_abs
    (mk (delete k (cache_map_ s)) l (max_memory_bytes_ s)
       (u64 (memory_usage_bytes_ s - size_bytes_ e)) (CacheStats.on_eviction (stats_ s))))).
  { by rewrite Habs, rev_app_distr. }
  assert (Htot : u64 (memory_usage_bytes_ s + new) = u64 (Lru.total (rev (shard_abs s)) + new)).
  { rewrite Hm, total_rev. by autorewrite with u64. }
  assert (Hshed : Lru.shed (max_memory_bytes_ s) new (rev (shard_abs s))
    = if max_memory_bytes_ s <? u64 (memory_usage_bytes_ s + new)
      then Lru.shed (max_memory_bytes_ s) new (rev (shard_abs
             (mk (delete k (cache_map_ s)) l (max_memory_bytes_ s)
                (u64 (memory_usage_bytes_ s - size_bytes_ e)) (CacheStats.on_eviction (stats_ s)))))
      else rev (shard_abs s)).
  { rewrite Htot, Hrev. reflexivity. }
  rewrite Hshed. destruct (_ <? _) eqn:Hlt.
  - rewrite Hb. simpl. rewrite He. simpl. rewrite Her. simpl.
    destruct (IH _ Hwf') as (s' & -> & Hwf'' & Habs'' & Hmax & Hsub).
    { cbn [cache_list_]. unfold slist_values in *. rewrite <-(length_fmap snd (nodes l)), Hv'.
      rewrite <-(length_fmap snd (nodes (cache_list_ s))), Hv, length_app in Hfuel. simpl in Hfuel. lia. }
    exists s'. split_and!; [done|done|done|done|].
    etransitivity; [exact Hsub|]. apply delete_subseteq.
  - exists s. split_and!; [done|done|by rewrite rev_involutive|done|done].
Qed.

(** *** [put] *)
Lemma put_refines s k v ty now size :
  shard_wf s → estimate_entry_size k v = Ret size →
  ∃ s', put s k v ty now = Ret s' ∧ shard_wf s' ∧ max_memory_bytes_ s' = max_memory_bytes_ s ∧
    shard_abs s' = Lru.lru_put (max_memory_bytes_ s) k (Lru.mkItem v now size ty) (shard_abs s).
Proof.
  intros Hwf Hsize. unfold put, Lru.lru_put. rewrite Hsize. cbn [mbind exec_bind].
  assert (Hu : is_u64 size).
  { unfold estimate_entry_size in Hsize. destruct (json_dump v); simplify_eq/=. apply u64_range. }
  pose proof (sw_lru _ Hwf) as Hl. rewrite shard_abs_find by done.
  destruct (cache_map_ s !! k) as [e|] eqn:He; cbn [fmap option_fmap option_map].
  - destruct (lru_wf_splice list_it_ _ _ _ _ Hl He) as (l & -> & Hl' & Hv). simpl.
    set (e' := mkEntry v now (list_it_ e) size ty).
    assert (Habs : prod_map id Lru.item_of <$> contents (<[k := e']> (cache_map_ s)) l
                   = (k, Lru.mkItem v now size ty) :: alist_remove k (shard_abs s)).
    { rewrite (contents_front _ (cache_list_ s)) by done. by rewrite fmap_cons, alist_remove_fmap. }
    pose proof (total_remove (shard_abs s) k (Lru.item_of e) (shard_abs_NoDup s Hl)
                  ltac:(by rewrite shard_abs_find, He)) as Htot.
    destruct Hwf as [_ Hm Hs Hk Hz]. eexists. split_and!; [done| |done|done].
    split; try done; unfold shard_abs; simpl.
    + by eapply lru_wf_update.
    + rewrite Habs, Hm, Htot. autorewrite with u64. f_equal. simpl. fold (Lru.total (alist_remove k (shard_abs s))). lia.
    + rewrite Habs. constructor; [done|]. by apply sizes_remove.
  - destruct (evict_refines (S (length (nodes (cache_list_ s)))) size s Hwf ltac:(lia))
      as (s1 & -> & Hwf1 & Habs1 & Hmax & Hsub). cbn [mbind exec_bind].
    assert (He1 : cache_map_ s1 !! k = None) by (by eapply lookup_weaken_None).
    destruct Hwf1 as [Hl1 Hm Hs Hk Hz].
    destruct (push_front k (cache_list_ s1)) as [it l] eqn:Hp.
    set (e' := mkEntry v now it size ty).
    assert (Habs : prod_map id Lru.item_of <$> contents (<[k := e']> (cache_map_ s1)) l
                   = (k, Lru.mkItem v now size ty) :: shard_abs s1).
    { replace l with (push_front k (cache_list_ s1)).2 by (by rewrite Hp).
      by rewrite (contents_push list_it_). }
    assert (Hlw : lru_wf list_it_ (<[k := e']> (cache_map_ s1)) l).
    { replace l with (push_front k (cache_list_ s1)).2 by (by rewrite Hp).
      apply lru_wf_push; [done|done|]. unfold e'. by rewrite Hp. }
    eexists. split_and!; [done| |done|].
    + split; try done; unfold shard_abs; simpl.
      * rewrite Habs, Hm. autorewrite with u64. f_equal. simpl. fold (Lru.total (shard_abs s1)). lia.
      * rewrite Habs. by constructor.
    + unfold shard_abs at 1. simpl. rewrite Habs, Habs1. done.
Qed.

(** A result that cannot be serialised leaves the shard as it was. *)
Lemma put_throws s k v ty now e :
  json_dump v = Throw e → put s k v ty now = Throw e.
Proof. intros Hd. unfold put, estimate_entry_size. by rewrite Hd. Qed.
End ShardFacts.

(** ** What an entry of a shard can be *)
Section ShardAll.
Context {J : Type} `{JO : !JsonOps J}.
Implicit Types (s : CacheShard.t J) (al : list (string * Lru.item J)) (P Q : string → Lru.item J → Prop).

Definition shard_all P s : Prop := ∀ k i, alist_find k (shard_abs s) = Some i → P k i.

Lemma shed_suffix max new l : ∃ d, l = d ++ Lru.shed (J:=J) max new l.
Proof.
  induction l as [|p l [d Hd]]; [by exists []|]. cbn [Lru.shed]. destruct (_ <? _).
  - exists (p :: d). simpl. by rewrite <-Hd.
  - by exists [].
Qed.

Lemma shed_bound max new l :
  Forall (λ p, is_u64 (Lru.bytes p.2)) l → 0 ≤ new → Lru.total l + new ≤ u64_max →
  Lru.total (Lru.shed (J:=J) max new l) + new ≤ Z.max max new.
Proof.
  intros Hs Hnew. induction Hs as [|p l Hp Hl IH]; intros Hov; [simpl; lia|].
  assert (Heq : Lru.total (p :: l) = Lru.bytes p.2 + Lru.total l) by done.
  pose proof (total_nonneg l Hl). unfold is_u64 in Hp.
  cbn [Lru.shed]. destruct (Z.ltb_spec max (u64 (Lru.total (p :: l) + new))) as [Hlt|Hle].
  - apply IH. lia.
  - rewrite u64_small in Hle; [lia|]. unfold is_u64. lia.
Qed.

(** [shed] keeps the longest suffix that fits. *)
Lemma shed_longest max new l d r :
  Forall (λ p, is_u64 (Lru.bytes p.2)) l → 0 ≤ new → Lru.total l + new ≤ u64_max →
  l = d ++ r → (length (Lru.shed (J:=J) max new l) < length r)%nat → max < Lru.total r + new.
Proof.
  intros Hs Hnew. revert d. induction Hs as [|p l Hp Hl IH]; intros d Hov Heq Hlen.
  { destruct d, r; simplify_eq/=. lia. }
  assert (Htot : Lru.total (p :: l) = Lru.bytes p.2 + Lru.total l) by done.
  pose proof (total_nonneg l Hl). unfold is_u64 in Hp. cbn [Lru.shed] in Hlen.
  destruct (Z.ltb_spec max (u64 (Lru.total (p :: l) + new))) as [Hlt|Hle].
  - destruct d as [|q d]; simplify_eq/=.
    + rewrite u64_small in Hlt; [done|]. unfold is_u64. lia.
    + apply (IH d); [lia|done|done].
  - rewrite Heq, length_app in Hlen. lia.
Qed.

(** Shedding from the old end keeps the [n] most recently used entries. *)
Lemma shed_take max new al :
  rev (Lru.shed (J:=J) max new (rev al)) = take (length (Lru.shed max new (rev al))) al.
Proof.
  destruct (shed_suffix max new (rev al)) as [d Heq].
  assert (al = rev (Lru.shed max new (rev al)) ++ rev d) as Hal.
  { by rewrite <-rev_app_distr, <-Heq, rev_involutive. }
  rewrite Hal at 3. by rewrite <-(length_rev (Lru.shed _ _ _)), take_app_length.
Qed.

Lemma lru_put_find max k i al k' i' :
  alist_find k' (Lru.lru_put max k i al) = Some i' →
  (k' = k ∧ i' = i) ∨ (k' ≠ k ∧ alist_find k' al = Some i').
Proof.
  unfold Lru.lru_put. destruct (alist_find k al) as [i0|] eqn:Hk; rewrite alist_find_cons; simpl;
    case_decide as Hd; subst; intros Hf; simplify_eq; auto; right; (split; [congruence|]).
  - by rewrite alist_find_remove_ne in Hf by congruence.
  - destruct (shed_suffix max (Lru.bytes i) (rev al)) as [d Heq].
    rewrite <-(rev_involutive al), Heq, rev_app_distr, alist_find_app. by rewrite Hf.
Qed.

Lemma lru_put_find_eq max k i al : alist_find k (Lru.lru_put max k i al) = Some i.
Proof.
  unfold Lru.lru_put. destruct (alist_find k al); rewrite alist_find_cons; by rewrite decide_True.
Qed.

Lemma lru_get_find k now al k' i' :
  alist_find k' (Lru.lru_get k now al).2 = Some i' → alist_find k' al = Some i'.
Proof.
  unfold Lru.lru_get. destruct (alist_find k al) as [i|] eqn:Hk; [|done].
  destruct (decide (k' = k)) as [->|Hne]; case_decide; simpl.
  - rewrite alist_find_cons, decide_True by done. by intros [= <-].
  - by rewrite alist_find_remove_eq.
  - rewrite alist_find_cons, decide_False by (simpl; congruence). by rewrite alist_find_remove_ne.
  - by rewrite alist_find_remove_ne.
Qed.

Lemma lru_get_Some k now al v :
  (Lru.lru_get k now al).1 = Some v →
  ∃ i, alist_find k al = Some i ∧ Lru.value i = v ∧ Lru.fresh_at now i.
Proof.
  unfold Lru.lru_get. destruct (alist_find k al) as [i|]; [|done]. case_decide; simpl; [|done].
  intros [= <-]. eauto.
Qed.
End ShardAll.

(** ** The cache of shards *)
Section IPCacheFacts.
Context {J : Type} `{JO : !JsonOps J} (hash : string → Z).
Implicit Types (c : IPCache.t J) (P Q : string → Lru.item J → Prop).
Import IPCache.

Record ipcache_wf c : Prop := {
  iw_count : 0 < shard_count_ c;
  iw_length : Z.of_nat (length (shards_ c)) = shard_count_ c;
  iw_shards : Forall shard_wf (shards_ c);
  iw_placed : ∀ j s k, shards_ c !! j = Some s → is_Some (alist_find k (shard_abs s)) →
                Z.of_nat j = hash k mod shard_count_ c
}.

Definition cache_all P c : Prop := Forall (shard_all P) (shards_ c).

(** The shard a key lives in. *)
Definition home c (k : string) : nat := Z.to_nat (hash k mod shard_count_ c).

Lemma home_shard c k :
  ipcache_wf c →
  ∃ s, shards_ c !! home c k = Some s ∧ shard_wf s ∧
    get_shard_index hash c k = Ret (hash k mod shard_count_ c) ∧
    shard_at c (hash k mod shard_count_ c) = Ret s.
Proof.
  intros [Hc Hlen Hs _]. pose proof (Z.mod_pos_bound (hash k) _ Hc).
  destruct (lookup_lt_is_Some_2 (shards_ c) (home c k)) as [s Hk]; [unfold home; lia|].
  exists s. split_and!; [done|by eapply Forall_lookup_1| |].
  - unfold get_shard_index. by rewrite (proj2 (Z.eqb_neq _ _)) by lia.
  - unfold shard_at. fold (home c k). by rewrite Hk.
Qed.

Lemma with_shard_wf c k s s' :
  ipcache_wf c → shards_ c !! home c k = Some s → shard_wf s' →
  (∀ k', is_Some (alist_find k' (shard_abs s')) → k' = k ∨ is_Some (alist_find k' (shard_abs s))) →
  ipcache_wf (with_shard c (hash k mod shard_count_ c) s').
Proof.
  intros [Hc Hlen Hs Hp] Hk Hs' Hkeys. unfold with_shard. fold (home c k).
  split; cbn [shards_ shard_count_]; [done|by rewrite length_insert|by apply Forall_insert|].
  intros j s1 k1 Hj Hk1. pose proof (Z.mod_pos_bound (hash k) _ Hc).
  apply list_lookup_insert_Some in Hj as [(Hj & -> & _)|[Hne Hj]]; [|by eapply Hp].
  subst j. destruct (Hkeys _ Hk1) as [->|Hk2]; [unfold home; lia|by eapply Hp].
Qed.

(** A lookup: its result is a fresh entry of the cache, and no entry is added. *)
Lemma ipcache_get_ok c k now :
  ipcache_wf c →
  ∃ r c', get hash c k now = Ret (r, c') ∧ ipcache_wf c' ∧ shard_count_ c' = shard_count_ c ∧
    ∀ P, cache_all P c → cache_all P c' ∧
      match r with
      | None => True
      | Some v => ∃ i, P k i ∧ Lru.value i = v ∧ Lru.fresh_at now i
      end.
Proof.
  intros Hwf. destruct (home_shard c k Hwf) as (s & Hk & Hs & Hidx & Hat).
  destruct (get_refines s k now Hs) as (s' & Hg & Hs' & Habs & _).
  unfold get. rewrite Hidx. cbn [mbind exec_bind]. rewrite Hat. cbn [mbind exec_bind]. rewrite Hg.
  do 2 eexists. split; [reflexivity|]. split; [|split; [done|]].
  - eapply with_shard_wf; [done..|]. intros k' [i Hi]. right. rewrite Habs in Hi.
    apply lru_get_find in Hi. eauto.
  - intros P HP. pose proof (Forall_lookup_1 _ _ _ _ HP Hk) as HPs. split.
    + apply Forall_insert; [done|]. intros k' i Hi. apply HPs. rewrite Habs in Hi.
      by eapply lru_get_find.
    + destruct (Lru.lru_get k now (shard_abs s)).1 as [v|] eqn:Hv; [|done].
      apply lru_get_Some in Hv as (i & Hi & <- & Hf). exists i. split; [by apply HPs|done].
Qed.

(** A store: the new entry is in the cache, every other entry was there. *)
Lemma ipcache_put_ok c k v ty now size :
  ipcache_wf c → CacheShard.estimate_entry_size k v = Ret size →
  ∃ c', put hash c k v ty now = Ret c' ∧ ipcache_wf c' ∧ shard_count_ c' = shard_count_ c ∧
    (∃ s', shards_ c' !! home c k = Some s' ∧
           alist_find k (shard_abs s') = Some (Lru.mkItem v now size ty)) ∧
    ∀ P Q, cache_all P c → Q k (Lru.mkItem v now size ty) →
      (∀ k' i, k' ≠ k → P k' i → Q k' i) → cache_all Q c'.
Proof.
  intros Hwf Hsize. destruct (home_shard c k Hwf) as (s & Hk & Hs & Hidx & Hat).
  destruct (put_refines s k v ty now size Hs Hsize) as (s' & Hput & Hs' & _ & Habs).
  unfold put. rewrite Hidx. cbn [mbind exec_bind]. rewrite Hat. cbn [mbind exec_bind]. rewrite Hput.
  eexists. split; [reflexivity|]. split; [|split; [done|split]].
  - eapply with_shard_wf; [done..|]. intros k' [i Hi]. rewrite Habs in Hi.
    apply lru_put_find in Hi as [[-> _]|[_ Hi]]; eauto.
  - exists s'. cbn [with_shard shards_]. fold (home c k). rewrite list_lookup_insert_eq by (by eapply lookup_lt_Some).
    split; [done|]. rewrite Habs. apply lru_put_find_eq.
  - intros P Q HP HQk HPQ. unfold cache_all. apply Forall_lookup_2. intros j s1 Hj.
    unfold with_shard in Hj. cbn [shards_] in Hj. fold (home c k) in Hj.
    apply list_lookup_insert_Some in Hj as [(<- & -> & _)|[Hne Hj]]; intros k' i Hi.
    + rewrite Habs in Hi. apply lru_put_find in Hi as [[-> ->]|[Hk' Hi]]; [done|].
      apply HPQ; [done|]. by apply (Forall_lookup_1 _ _ _ _ HP Hk).
    + pose proof (iw_placed _ Hwf j s1 k' Hj ltac:(eauto)) as Hpl.
      apply HPQ; [intros ->|by apply (Forall_lookup_1 _ _ _ _ HP Hj)].
      apply Hne. unfold home. lia.
Qed.

Lemma create_ok max count :
  0 < count →
  ∃ c, create max count = Ret c ∧ ipcache_wf c ∧ shard_count_ c = count ∧ ∀ P, cache_all P c.
Proof.
  intros Hc. unfold create. rewrite (proj2 (Z.eqb_neq _ _)) by lia.
  eexists. split; [done|]. cbv zeta. set (m := u64 _ / _).
  split; [split; simpl|split; [done|]].
  - done.
  - rewrite length_replicate. lia.
  - apply Forall_replicate, shard_wf_create.
  - intros j s k Hj [i Hi]. apply lookup_replicate in Hj as [-> _]. done.
  - intros P. apply Forall_replicate. intros k i Hi. done.
Qed.

(** *** Histories *)
Import CacheTrace.

Lemma run_app c ops o :
  run hash c (ops ++ [o]) = (c' ← run hash c ops; apply hash c' o).
Proof.
  revert c. induction ops as [|o' ops IH]; intros c; simpl.
  - by destruct (apply hash c o).
  - destruct (apply hash c o'); simpl; [apply IH|done..].
Qed.

Lemma last_put_snoc k (ops : list (op J)) o :
  last_put k (ops ++ [o]) = match stored k o with Some r => Some r | None => last_put k ops end.
Proof.
  induction ops as [|o' ops IH]; simpl; [by destruct (stored k o)|].
  rewrite IH. by destruct (stored k o), (last_put k ops).
Qed.

(** Every entry of the cache is the last value put under its key. *)
Definition from_history (ops : list (op J)) (k : string) (i : Lru.item J) : Prop :=
  last_put k ops = Some (Lru.value i, Lru.kind i, Lru.time i).

Lemma run_ok c0 ops :
  (∀ v : J, safe (json_dump v)) → ipcache_wf c0 → (∀ P, cache_all P c0) →
  ∃ c, run hash c0 ops = Ret c ∧ ipcache_wf c ∧ shard_count_ c = shard_count_ c0 ∧
       cache_all (from_history ops) c.
Proof.
  intros Hdump Hwf0 Hall0. induction ops as [|o ops IH] using rev_ind; [by exists c0|].
  destruct IH as (c & Hrun & Hwf & Hcount & Hall). rewrite run_app, Hrun. cbn [mbind exec_bind].
  destruct o as [k now|k v ty now]; cbn [apply].
  - destruct (ipcache_get_ok c k now Hwf) as (r & c' & -> & Hwf' & Hcount' & HP).
    exists c'. split_and!; [done|done|congruence|]. destruct (HP _ Hall) as [Hall' _].
    eapply Forall_impl; [exact Hall'|]. intros s Hs k' i Hi. unfold from_history.
    rewrite last_put_snoc. by apply Hs.
  - specialize (Hdump v). destruct (json_dump v) as [text|e| |] eqn:Hd; try done.
    + destruct (ipcache_put_ok c k v ty now _ Hwf ltac:(unfold CacheShard.estimate_entry_size; rewrite Hd; done))
        as (c' & -> & Hwf' & Hcount' & _ & HP).
      exists c'. split_and!; [done|done|congruence|]. eapply HP; [exact Hall| |].
      * unfold from_history. rewrite last_put_snoc. simpl. by rewrite decide_True, Hd.
      * intros k' i Hne. unfold from_history. rewrite last_put_snoc. simpl. by rewrite decide_False.
    + assert (put hash c k v ty now = Throw e) as ->.
      { destruct (home_shard c k Hwf) as (s & _ & _ & Hidx & Hat). unfold put.
        rewrite Hidx. cbn [mbind exec_bind]. rewrite Hat. cbn [mbind exec_bind].
        by rewrite (put_throws _ _ _ _ _ e). }
      exists c. split_and!; [done|done|done|]. eapply Forall_impl; [exact Hall|].
      intros s Hs k' i Hi. unfold from_history. rewrite last_put_snoc. simpl. rewrite Hd.
      case_decide; by apply Hs.
Qed.

(** *** Statistics *)

(** The three counters of lookups, and how an answer counts. *)
Inductive counter := Lookups | Hits | Misses.

Definition count_of (n : counter) (st : CacheStats.t) : Z :=
  match n with
  | Lookups => CacheStats.total_lookups_ st
  | Hits => CacheStats.hits_ st
  | Misses => CacheStats.misses_ st
  end.

Definition weight (n : counter) (r : option J) : Z :=
  match n, r with Lookups, _ | Hits, Some _ | Misses, None => 1 | _, _ => 0 end.

Definition weights (n : counter) (answers : list (option J)) : Z := foldr (λ r acc, weight n r + acc) 0 answers.

Definition sum_count (n : counter) (shards : list (CacheShard.t J)) : Z :=
  foldr (λ s acc, count_of n (CacheShard.stats_ s) + acc) 0 shards.

Lemma shard_get_counts n (s s' : CacheShard.t J) k now r :
  CacheShard.get s k now = Ret (r, s') →
  u64 (count_of n (CacheShard.stats_ s')) = u64 (count_of n (CacheShard.stats_ s) + weight n r).
Proof.
  unfold CacheShard.get. cbn [CacheShard.cache_map_ CacheShard.with_stats]. intros Hg.
  destruct (CacheShard.cache_map_ s !! k) as [e|]; [destruct (CacheShard.expired now e)|];
    [apply exec_bind_Ret in Hg as (l & _ & Hg)..|]; injection Hg as <- <-;
    destruct n; simpl; autorewrite with u64; rewrite ?Z.add_0_r; done.
Qed.

Lemma evict_counts n fuel new (s s' : CacheShard.t J) :
  CacheShard.evict_if_needed fuel new s = Ret s' →
  count_of n (CacheShard.stats_ s') = count_of n (CacheShard.stats_ s).
Proof.
  revert s. induction fuel as [|fuel IH]; intros s He; simpl in He; [done|].
  destruct (_ && _); [|by injection He as <-].
  apply exec_bind_Ret in He as (key & _ & He). apply exec_bind_Ret in He as (node & _ & He).
  apply exec_bind_Ret in He as (l & _ & He). apply IH in He. rewrite He. by destruct n.
Qed.

Lemma shard_put_counts n (s s' : CacheShard.t J) k v ty now :
  CacheShard.put s k v ty now = Ret s' → count_of n (CacheShard.stats_ s') = count_of n (CacheShard.stats_ s).
Proof.
  unfold CacheShard.put. intros (size & _ & Hp)%exec_bind_Ret.
  destruct (CacheShard.cache_map_ s !! k) as [e|].
  - apply exec_bind_Ret in Hp as (l & _ & Hp). by injection Hp as <-.
  - apply exec_bind_Ret in Hp as (s1 & He & Hp). destruct (push_front _ _) as [it l]. injection Hp as <-.
    by apply (evict_counts n) in He.
Qed.

Lemma sum_count_insert n (shards : list (CacheShard.t J)) i s s' :
  shards !! i = Some s →
  sum_count n (<[i := s']> shards) =
    sum_count n shards - count_of n (CacheShard.stats_ s) + count_of n (CacheShard.stats_ s').
Proof.
  revert i. induction shards as [|s0 shards IH]; intros [|i] Hi; simplify_eq/=; [|rewrite IH by done]; lia.
Qed.

Lemma get_counts n c k now r c' :
  get hash c k now = Ret (r, c') → u64 (sum_count n (shards_ c')) = u64 (sum_count n (shards_ c) + weight n r).
Proof.
  unfold get. intros (i & _ & (s & Hs & ([r' s'] & Hg & [= <- <-])%exec_bind_Ret)%exec_bind_Ret)%exec_bind_Ret.
  unfold shard_at in Hs. destruct (shards_ c !! Z.to_nat i) as [s0|] eqn:Hi; [|done]. injection Hs as ->.
  apply (shard_get_counts n) in Hg. unfold with_shard. cbn [shards_]. rewrite (sum_count_insert n _ _ s) by done.
  rewrite <-u64_add_r, Hg, u64_add_r. f_equal. lia.
Qed.

Lemma apply_put_counts n c k v ty now c' :
  apply hash c (Put k v ty now) = Ret c' → sum_count n (shards_ c') = sum_count n (shards_ c).
Proof.
  cbn [apply]. destruct (put hash c k v ty now) as [c1|e| |] eqn:Hp; [|by intros [= <-]|done..].
  intros [= <-]. unfold put in Hp.
  apply exec_bind_Ret in Hp as (i & _ & (s & Hs & (s' & Hput & [= <-])%exec_bind_Ret)%exec_bind_Ret).
  unfold shard_at in Hs. destruct (shards_ c !! Z.to_nat i) as [s0|] eqn:Hi; [|done]. injection Hs as ->.
  apply (shard_put_counts n) in Hput. unfold with_shard. cbn [shards_]. rewrite (sum_count_insert n _ _ s) by done. lia.
Qed.

(** The counters of the shards go up by what the answers count for. *)
Lemma play_counts n ops c answers c' :
  play hash c ops = Ret (answers, c') →
  u64 (sum_count n (shards_ c')) = u64 (sum_count n (shards_ c) + weights n answers) ∧
  length answers = length (filter is_get ops) ∧ run hash c ops = Ret c'.
Proof.
  revert c answers. induction ops as [|o ops IH]; intros c answers Hp.
  { injection Hp as <- <-. simpl. by rewrite Z.add_0_r. }
  destruct o as [k now|k v ty now]; cbn [play] in Hp.
  - apply exec_bind_Ret in Hp as ([r c1] & Hg & Hp). cbn beta iota in Hp.
    destruct (play hash c1 ops) as [[answers' c2]|e| |] eqn:Hrest; try done. injection Hp as <- <-.
    destruct (IH c1 answers' Hrest) as (Hs & Hlen & Hrun). split_and!.
    + rewrite Hs. simpl. rewrite <-u64_add_l, (get_counts n c k now r c1 Hg), u64_add_l. f_equal. lia.
    + rewrite filter_cons_True by done. simpl. by f_equal.
    + simpl. by rewrite Hg.
  - apply exec_bind_Ret in Hp as (c1 & Ha & Hp). destruct (IH c1 answers Hp) as (Hs & Hlen & Hrun). split_and!.
    + by rewrite Hs, (apply_put_counts n c k v ty now c1 Ha).
    + by rewrite filter_cons_False by (simpl; tauto).
    + cbn [run]. by rewrite Ha.
Qed.

Lemma run_play c ops : run hash c ops = snd <$> play hash c ops.
Proof.
  revert c. induction ops as [|[k now|k v ty now] ops IH]; intros c; [done|..]; cbn [run play].
  - cbn [apply]. destruct (get hash c k now) as [[r c']|e| |]; try done. cbn [mbind exec_bind fmap exec_fmap snd].
    rewrite IH. by destruct (play hash c' ops) as [[]| | |].
  - destruct (apply hash c _); [apply IH|done..].
Qed.

Lemma weights_count answers :
  weights Lookups answers = Z.of_nat (length answers) ∧
  weights Hits answers = Z.of_nat (length (omap id answers)) ∧
  weights Misses answers = Z.of_nat (length (filter (λ r, r = None) answers)).
Proof.
  induction answers as [|r answers (IH1 & IH2 & IH3)]; [done|].
  assert (Hw : ∀ n, weights n (r :: answers) = weight n r + weights n answers) by done.
  rewrite !Hw, IH1, IH2, IH3.
  destruct r; rewrite ?filter_cons_True, ?filter_cons_False by done; simpl;
    change (list_omap (option J) J id answers) with (omap id answers : list J); split_and!; lia.
Qed.

(** [get_stats] adds up the counters of the shards. *)
Lemma get_stats_counts n (shards : list (CacheShard.t J)) acc :
  is_u64 (count_of n acc) →
  count_of n (foldl (λ combined shard,
    add_memory (CacheStats.add combined (CacheShard.get_local_stats shard)) (CacheShard.memory_usage shard)) acc shards)
  = u64 (count_of n acc + sum_count n shards).
Proof.
  revert acc. induction shards as [|s shards IH]; intros acc Hacc; simpl; [by rewrite Z.add_0_r, u64_small|].
  rewrite IH.
  - unfold CacheShard.get_local_stats. destruct n; simpl; rewrite u64_add_l; f_equal; lia.
  - destruct n; apply u64_range.
Qed.

Definition stats_balanced (st : CacheStats.t) : Prop :=
  CacheStats.total_lookups_ st = u64 (CacheStats.hits_ st + CacheStats.misses_ st).

Definition sum_memory (shards : list (CacheShard.t J)) : Z :=
  foldr (λ s acc, CacheShard.memory_usage s + acc) 0 shards.

Lemma get_stats_fold (shards : list (CacheShard.t J)) acc :
  Forall shard_wf shards → stats_balanced acc →
  let r := foldl (λ combined shard,
             add_memory (CacheStats.add combined (CacheShard.get_local_stats shard))
                        (CacheShard.memory_usage shard)) acc shards in
  stats_balanced r ∧
  u64 (CacheStats.memory_usage_bytes_ r) = u64 (CacheStats.memory_usage_bytes_ acc + sum_memory shards).
Proof.
  intros Hs. revert acc. induction Hs as [|s shards Hs _ IH]; intros acc Hacc; simpl.
  { split; [done|]. f_equal. lia. }
  destruct (IH (add_memory (CacheStats.add acc (CacheShard.get_local_stats s))
                  (CacheShard.memory_usage s))) as [H1 H2].
  { unfold stats_balanced, CacheShard.get_local_stats in *. simpl.
    rewrite Hacc, (sw_lookups _ Hs). autorewrite with u64. f_equal. lia. }
  split; [exact H1|]. etransitivity; [exact H2|]. simpl. unfold CacheShard.get_local_stats.
  rewrite (sw_stats_memory _ Hs). autorewrite with u64. rewrite <-Z.add_assoc, u64_add_l. f_equal. lia.
Qed.

Lemma create_counts n max count c : create max count = Ret c → sum_count n (shards_ c) = 0.
Proof.
  unfold create. destruct (count =? 0); [done|]. intros [= <-]. simpl. generalize (u64 (u64 (max + count) - 1) / count).
  intros m. induction (Z.to_nat count) as [|k IH]; [done|]. simpl. rewrite IH. by destruct n.
Qed.
End IPCacheFacts.

(** ** Properties *)
Section Properties.
Context {J : Type} `{JO : !JsonOps J}.
Import CacheShard.

(** C14: a shard's [get] implements the LRU lookup.  From a well-formed shard it
    never uses a dangling iterator and always returns: a hit is an entry still
    within the time to live of its type and becomes the most recently used; an
    expired entry is removed and is a miss; the invariant (index, memory
    accounting, statistics) is kept. *)
Theorem shard_get_refines_lru (s : CacheShard.t J) key now :
  shard_wf s →
  ∃ s', CacheShard.get s key now = Ret ((Lru.lru_get key now (shard_abs s)).1, s') ∧
    shard_wf s' ∧ shard_abs s' = (Lru.lru_get key now (shard_abs s)).2.
Proof.
  intros Hwf. destruct (get_refines s key now Hwf) as (s' & ? & ? & ? & _). eauto.
Qed.

(** C13: a shard's [put] implements the LRU store.  From a well-formed shard it
    never uses a dangling iterator, its eviction loop terminates, and the
    shard afterwards is the abstract one; a result that cannot be serialised
    throws and changes nothing. *)
Theorem shard_put_refines_lru (s : CacheShard.t J) key result data_type now :
  shard_wf s →
  match estimate_entry_size key result with
  | Ret size =>
      ∃ s', CacheShard.put s key result data_type now = Ret s' ∧ shard_wf s' ∧
        shard_abs s' = Lru.lru_put (max_memory_bytes_ s) key
                         (Lru.mkItem result now size data_type) (shard_abs s)
  | Throw e => CacheShard.put s key result data_type now = Throw e
  | _ => True
  end.
Proof.
  intros Hwf. destruct (estimate_entry_size key result) as [size|e| |] eqn:Hs; try done.
  - destruct (put_refines s key result data_type now size Hwf Hs) as (s' & ? & ? & _ & ?). eauto.
  - unfold CacheShard.put. by rewrite Hs.
Qed.

(** C15: the memory budget.  Storing a new key leaves the shard within its
    budget, unless the entry alone is larger than the whole budget; the
    entries that survive are the most recently used ones, as many as fit. *)
Theorem put_within_budget (s : CacheShard.t J) key result data_type now size :
  shard_wf s → cache_map_ s !! key = None → estimate_entry_size key result = Ret size →
  Lru.total (shard_abs s) + size ≤ u64_max →
  ∃ s' n, CacheShard.put s key result data_type now = Ret s' ∧
    memory_usage s' ≤ Z.max (max_memory_bytes_ s) size ∧
    shard_abs s' = (key, Lru.mkItem result now size data_type) :: take n (shard_abs s) ∧
    ∀ m, (n < m)%nat → (m ≤ length (shard_abs s))%nat →
      max_memory_bytes_ s < Lru.total (take m (shard_abs s)) + size.
Proof.
  intros Hwf Hk Hsize Hov. pose proof (sw_lru _ Hwf) as Hl. pose proof (sw_sizes _ Hwf) as Hs.
  assert (Hu : 0 ≤ size).
  { unfold estimate_entry_size in Hsize. destruct (json_dump result); simplify_eq/=. apply u64_range. }
  destruct (put_refines s key result data_type now size Hwf Hsize) as (s' & Hput & Hwf' & _ & Habs).
  unfold Lru.lru_put in Habs. rewrite shard_abs_find, Hk in Habs by done. simpl in Habs.
  rewrite shed_take in Habs.
  assert (Hs' : Forall (λ p, is_u64 (Lru.bytes p.2)) (rev (shard_abs s))).
  { by apply Forall_rev. }
  exists s', (length (Lru.shed (max_memory_bytes_ s) size (rev (shard_abs s)))).
  split; [done|]. split; [|split; [done|]].
  - unfold memory_usage. rewrite (sw_memory _ Hwf'), Habs, <-shed_take. simpl.
    fold (Lru.total (rev (Lru.shed (max_memory_bytes_ s) size (rev (shard_abs s))))).
    rewrite total_rev.
    pose proof (shed_bound (max_memory_bytes_ s) size _ Hs' Hu ltac:(by rewrite total_rev)) as Hb.
    destruct (shed_suffix (max_memory_bytes_ s) size (rev (shard_abs s))) as [d Hd].
    assert (Forall (λ p, is_u64 (Lru.bytes p.2)) (Lru.shed (max_memory_bytes_ s) size (rev (shard_abs s)))
                  ∧ Forall (λ p, is_u64 (Lru.bytes p.2)) d) as [Hsh Hdd].
    { rewrite Hd in Hs'. apply Forall_app in Hs' as [? ?]; by split. }
    pose proof (total_nonneg _ Hsh). pose proof (total_nonneg _ Hdd).
    assert (Lru.total (shard_abs s)
            = Lru.total d + Lru.total (Lru.shed (max_memory_bytes_ s) size (rev (shard_abs s)))).
    { by rewrite <-total_app, <-Hd, total_rev. }
    rewrite u64_small; [lia|]. unfold is_u64. lia.
  - intros m Hn Hm. rewrite <-(total_rev (take m _)).
    apply (shed_longest _ _ (rev (shard_abs s)) (rev (drop m (shard_abs s)))); [done|done|by rewrite total_rev| |].
    + by rewrite <-rev_app_distr, take_drop.
    + rewrite length_rev, length_take. lia.
Qed.

(** Replacing the value of a key that is already cached evicts nothing,
    whatever the new size: the other entries and their order stay, and the
    memory in use becomes the old total with the entry's old size exchanged
    for its new one, even above the budget. *)
Theorem put_existing_never_evicts (s : CacheShard.t J) key result data_type now size old :
  shard_wf s → cache_map_ s !! key = Some old → estimate_entry_size key result = Ret size →
  ∃ s', CacheShard.put s key result data_type now = Ret s' ∧
    shard_abs s' = (key, Lru.mkItem result now size data_type) :: alist_remove key (shard_abs s) ∧
    memory_usage s' = u64 (Lru.total (shard_abs s) - size_bytes_ old + size) ∧
    CacheStats.evictions_ (get_local_stats s') = CacheStats.evictions_ (get_local_stats s).
Proof.
  intros Hwf Hk Hsize. pose proof (sw_lru _ Hwf) as Hl.
  destruct (put_refines s key result data_type now size Hwf Hsize) as (s' & Hput & Hwf' & _ & Habs).
  unfold Lru.lru_put in Habs. rewrite shard_abs_find, Hk in Habs by done. simpl in Habs.
  exists s'. split_and!; [done|done| |].
  - unfold memory_usage. rewrite (sw_memory _ Hwf'), Habs. simpl.
    fold (Lru.total (alist_remove key (shard_abs s))). f_equal.
    rewrite (total_remove (shard_abs s) key (Lru.item_of old)).
    + simpl. lia.
    + by apply shard_abs_NoDup.
    + by rewrite shard_abs_find, Hk.
  - unfold CacheShard.put in Hput. rewrite Hsize in Hput. simpl in Hput. rewrite Hk in Hput.
    destruct (list_splice_front _ _); simplify_eq/=. done.
Qed.

(** C12: what the cache returns is what was stored.  After any sequence of
    calls on a cache of [count] shards, every call returns (no index leaves
    the shard vector, no loop diverges), and a hit is exactly the value of the
    last successful [put] under that key, no older than the time to live of
    the type it was put with. *)
Theorem cache_hit_is_last_put (hash : string → Z) max count ops key now :
  (∀ v : J, safe (json_dump v)) → 0 < count →
  ∃ c0 c r c', IPCache.create max count = Ret c0 ∧ CacheTrace.run hash c0 ops = Ret c ∧
    IPCache.get hash c key now = Ret (r, c') ∧
    match r with
    | None => True
    | Some v => ∃ ty t, CacheTrace.last_put key ops = Some (v, ty, t) ∧
                        now - t ≤ seconds (ttl_for_type ty)
    end.
Proof.
  intros Hd Hc. destruct (create_ok (J:=J) hash max count Hc) as (c0 & Hc0 & Hwf0 & _ & Hall0).
  destruct (run_ok hash c0 ops Hd Hwf0 Hall0) as (c & Hrun & Hwf & _ & Hall).
  destruct (ipcache_get_ok hash c key now Hwf) as (r & c' & Hg & _ & _ & HP).
  exists c0, c, r, c'. split_and!; [done|done|done|]. destruct (HP _ Hall) as [_ Hr].
  destruct r as [v|]; [|done]. destruct Hr as (i & Hi & <- & Hf). eauto.
Qed.

(** C33: the statistics say what happened.  After any sequence of calls the
    combined statistics count the lookups, as hits those that gave a value and
    as misses those that gave none, and report as memory the sum over the
    shards, each counted once (as 64-bit counters). *)
Theorem cache_stats_consistent (hash : string → Z) max count ops :
  (∀ v : J, safe (json_dump v)) → 0 < count →
  ∃ c0 answers c, IPCache.create max count = Ret c0 ∧ CacheTrace.run hash c0 ops = Ret c ∧
    CacheTrace.play hash c0 ops = Ret (answers, c) ∧ length answers = length (filter CacheTrace.is_get ops) ∧
    let st := IPCache.get_stats c in
    CacheStats.total_lookups_ st = u64 (Z.of_nat (length answers)) ∧
    CacheStats.hits_ st = u64 (Z.of_nat (length (omap id answers))) ∧
    CacheStats.misses_ st = u64 (Z.of_nat (length (filter (λ r, r = None) answers))) ∧
    CacheStats.total_lookups_ st = u64 (CacheStats.hits_ st + CacheStats.misses_ st) ∧
    u64 (CacheStats.memory_usage_bytes_ st)
    = u64 (foldr (λ s acc, Lru.total (shard_abs s) + acc) 0 (IPCache.shards_ c)).
Proof.
  intros Hd Hc. destruct (create_ok (J:=J) hash max count Hc) as (c0 & Hc0 & Hwf0 & _ & Hall0).
  destruct (run_ok hash c0 ops Hd Hwf0 Hall0) as (c & Hrun & Hwf & _ & Hall).
  pose proof Hrun as Hplay. rewrite run_play in Hplay.
  destruct (CacheTrace.play hash c0 ops) as [[answers c1]|e| |] eqn:Hp; try done. injection Hplay as ->.
  assert (Hzero : ∀ n, sum_count n (IPCache.shards_ c0) = 0)
    by (intros n; exact (create_counts n max count c0 Hc0)).
  assert (Hcount : ∀ n, count_of n (IPCache.get_stats c) = u64 (weights n answers)).
  { intros n. unfold IPCache.get_stats. rewrite get_stats_counts by by destruct n. replace (count_of n CacheStats.zero) with 0 by by destruct n.
    rewrite Z.add_0_l, (proj1 (play_counts hash n ops c0 answers c Hp)), Hzero. done. }
  destruct (weights_count answers) as (W1 & W2 & W3).
  exists c0, answers, c. split; [done|]. split; [done|]. split; [done|].
  split; [by apply (play_counts hash Lookups ops c0 answers c Hp)|]. cbv zeta.
  split; [by rewrite <-W1, <-Hcount|]. split; [by rewrite <-W2, <-Hcount|]. split; [by rewrite <-W3, <-Hcount|]. split.
  - by apply (get_stats_fold (IPCache.shards_ c) CacheStats.zero (iw_shards _ _ Hwf)).
  - etransitivity; [by apply (get_stats_fold (IPCache.shards_ c) CacheStats.zero (iw_shards _ _ Hwf))|].
    pose proof (iw_shards _ _ Hwf) as Hs. simpl. rewrite Z.add_0_l.
    clear -Hs. induction Hs as [|s l Hs _ IH]; [done|]. simpl.
    unfold memory_usage. rewrite (sw_memory _ Hs). autorewrite with u64.
    rewrite <-u64_add_r, IH. by autorewrite with u64.
Qed.
End Properties.

(** ** Witnesses *)
#[local] Existing Instance Tree.sample.

Definition sample_entry : CacheShard.CacheEntry Tree.tree :=
  CacheShard.mkEntry (Tree.Str "US") 100 0%nat 16 IP_GEOLOCATION.

Definition sample_shard : CacheShard.t Tree.tree :=
  CacheShard.mk {["8.8.8.8" := sample_entry]} (SList [(0%nat, "8.8.8.8")] 1%nat) 20 16
    CacheStats.zero.

Lemma sample_shard_wf : shard_wf sample_shard.
Proof.
  destruct (put_refines (JO:=Tree.sample) (CacheShard.create 20) "8.8.8.8" (Tree.Str "US") IP_GEOLOCATION 100 16
              (shard_wf_create 20) ltac:(reflexivity)) as (s & Hput & Hwf & _).
  assert (CacheShard.put (CacheShard.create 20) "8.8.8.8" (Tree.Str "US") IP_GEOLOCATION 100
          = Ret sample_shard) as Heq by reflexivity.
  rewrite Hput in Heq. by injection Heq as <-.
Qed.

Lemma shard_get_refines_lru_witness :
  ∃ s', CacheShard.get sample_shard "8.8.8.8" 200 = Ret (Some (Tree.Str "US"), s') ∧
    shard_wf s' ∧ shard_abs s' = shard_abs sample_shard.
Proof. apply (shard_get_refines_lru sample_shard "8.8.8.8" 200), sample_shard_wf. Defined.

Lemma shard_put_refines_lru_witness :
  ∃ s', CacheShard.put sample_shard "1.1.1.1" (Tree.Str "AU") IP_GEOLOCATION 300 = Ret s' ∧
    shard_wf s' ∧
    shard_abs s' = Lru.lru_put 20 "1.1.1.1" (Lru.mkItem (Tree.Str "AU") 300 16 IP_GEOLOCATION)
                     (shard_abs sample_shard).
Proof.
  apply (shard_put_refines_lru (JO:=Tree.sample) sample_shard "1.1.1.1" (Tree.Str "AU") IP_GEOLOCATION 300 sample_shard_wf).
Defined.

Lemma put_within_budget_witness :
  ∃ s' n, CacheShard.put sample_shard "1.1.1.1" (Tree.Str "AU") IP_GEOLOCATION 300 = Ret s' ∧
    CacheShard.memory_usage s' ≤ Z.max 20 16 ∧
    shard_abs s' = ("1.1.1.1", Lru.mkItem (Tree.Str "AU") 300 16 IP_GEOLOCATION)
                   :: take n (shard_abs sample_shard) ∧
    ∀ m, (n < m)%nat → (m ≤ length (shard_abs sample_shard))%nat →
      20 < Lru.total (take m (shard_abs sample_shard)) + 16.
Proof.
  apply (put_within_budget (JO:=Tree.sample) sample_shard "1.1.1.1" (Tree.Str "AU") IP_GEOLOCATION 300 16 sample_shard_wf).
  - reflexivity.
  - reflexivity.
  - vm_compute. done.
Defined.

Lemma put_existing_never_evicts_witness :
  ∃ s', CacheShard.put sample_shard "8.8.8.8" (Tree.Str "CA") IP_GEOLOCATION 300 = Ret s' ∧
    shard_abs s' = [("8.8.8.8", Lru.mkItem (Tree.Str "CA") 300 16 IP_GEOLOCATION)] ∧
    CacheShard.memory_usage s' = u64 (16 - 16 + 16) ∧
    CacheStats.evictions_ (CacheShard.get_local_stats s') = 0.
Proof.
  apply (put_existing_never_evicts (JO:=Tree.sample) sample_shard "8.8.8.8" (Tree.Str "CA") IP_GEOLOCATION 300 16
           sample_entry sample_shard_wf); reflexivity.
Defined.

Lemma cache_hit_is_last_put_witness :
  ∃ c0 c r c', IPCache.create 1000 8 = Ret c0 ∧
    CacheTrace.run (λ _, 5) c0 [CacheTrace.Put "8.8.8.8" (Tree.Str "US") IP_GEOLOCATION 100] = Ret c ∧
    IPCache.get (λ _, 5) c "8.8.8.8" 200 = Ret (r, c') ∧
    match r with
    | None => True
    | Some v => ∃ ty t,
        CacheTrace.last_put "8.8.8.8" [CacheTrace.Put "8.8.8.8" (Tree.Str "US") IP_GEOLOCATION 100]
        = Some (v, ty, t) ∧ 200 - t ≤ seconds (ttl_for_type ty)
    end.
Proof.
  apply (cache_hit_is_last_put (JO:=Tree.sample) (λ _, 5) 1000 8
           [CacheTrace.Put "8.8.8.8" (Tree.Str "US") IP_GEOLOCATION 100] "8.8.8.8" 200).
  - done.
  - done.
Defined.

Lemma cache_stats_consistent_witness :
  ∃ c0 answers c, IPCache.create 1000 8 = Ret c0 ∧
    CacheTrace.run (λ _, 5) c0 [CacheTrace.Get (J:=Tree.tree) "8.8.8.8" 100] = Ret c ∧
    CacheTrace.play (λ _, 5) c0 [CacheTrace.Get (J:=Tree.tree) "8.8.8.8" 100] = Ret (answers, c) ∧
    length answers = 1%nat ∧
    let st := IPCache.get_stats c in
    CacheStats.total_lookups_ st = u64 (Z.of_nat (length answers)) ∧
    CacheStats.hits_ st = u64 (Z.of_nat (length (omap id answers))) ∧
    CacheStats.misses_ st = u64 (Z.of_nat (length (filter (λ r, r = None) answers))) ∧
    CacheStats.total_lookups_ st = u64 (CacheStats.hits_ st + CacheStats.misses_ st) ∧
    u64 (CacheStats.memory_usage_bytes_ st)
    = u64 (foldr (λ s acc, Lru.total (shard_abs s) + acc) 0 (IPCache.shards_ c)).
Proof.
  apply (cache_stats_consistent (JO:=Tree.sample) (λ _, 5) 1000 8 [CacheTrace.Get "8.8.8.8" 100]).
  - done.
  - done.
Defined.
