(* ===== verification/Validation.v ===== *)
(** * Validation of addresses and flags (src/src/validation.cpp, validation.h)

    [isValidIpFormat], [isValidMacFormat], [parseBoolString], and the grammar
    of MAC addresses they are compared with.  [inet_pton] and [getaddrinfo]
    belong to the C library: they are parameters, and see a C string. *)
From Stdlib Require Import ZArith Lia Ascii String.
From S2P Require Import Prelude CppString.
#[local] Open Scope Z_scope.

(** What the C library says about the text of an address. *)
Class Resolver := {
  inet_pton4 : string → Z;     (* inet_pton(AF_INET, text, &addr) *)
  getaddrinfo6 : string → Z    (* getaddrinfo(text, nullptr, AF_INET6 and AI_NUMERICHOST, ...) *)
}.

Definition isValidIpFormat `{Resolver} (ip : string) : bool :=
  if inet_pton4 (c_str ip) =? 1 then true
  else if is_empty ip || bool_decide (is_Some (find_char "%"%char ip)) then false
  else if negb (getaddrinfo6 (c_str ip) =? 0) then false
  else true.

Definition is_separator (c : ascii) : bool :=
  bool_decide (c = ":"%char) || bool_decide (c = "-"%char).

(** The body of the loop over the 17 bytes accepts [mac[i]]. *)
Definition mac_byte_ok (i : nat) (c : ascii) : bool :=
  if (i mod 3 =? 2)%nat then is_separator c else is_xdigit c.

(** [for (i = 0; i < 17; ++i)], [n] iterations before its end. *)
Fixpoint mac_loop (n i : nat) (mac : list ascii) : exec bool :=
  match n with
  | O => Ret true
  | S n' =>
      c ← deref (mac !! i);
      if mac_byte_ok i c then mac_loop n' (S i) mac else Ret false
  end.

Definition isValidMacFormat (mac : string) : exec bool :=
  if size mac =? 17 then mac_loop 17 0 (bytes mac)
  else if size mac =? 12 then Ret (forallb is_xdigit (bytes mac))
  else Ret false.

Definition parseBoolString (value : string) : bool :=
  String.eqb value "true" || String.eqb value "1".

(** ** The grammar of MAC addresses *)

(** Pairs of digits with a separator between any two of them. *)
Fixpoint grouped (pairs : list (ascii * ascii)) (seps : list ascii) : list ascii :=
  match pairs, seps with
  | (a, b) :: pairs', s :: seps' => a :: b :: s :: grouped pairs' seps'
  | (a, b) :: _, [] => [a; b]
  | [], _ => []
  end.

Definition hex_pair (p : ascii * ascii) : Prop := is_xdigit p.1 = true ∧ is_xdigit p.2 = true.

(** Twelve hexadecimal digits, or six pairs of them separated by [:] or [-]. *)
Definition mac_grammar (l : list ascii) : Prop :=
  (length l = 12%nat ∧ Forall (λ c, is_xdigit c = true) l) ∨
  ∃ pairs seps, l = grouped pairs seps ∧ length pairs = 6%nat ∧ length seps = 5%nat ∧
    Forall hex_pair pairs ∧ Forall (λ c, is_separator c = true) seps.

(** The bytes accepted from position [i] on, and the loop over the positions. *)
Fixpoint mac_bytes_ok (i : nat) (l : list ascii) : bool :=
  match l with
  | [] => true
  | c :: l' => mac_byte_ok i c && mac_bytes_ok (S i) l'
  end.

(** A resolver that knows two addresses, for the concrete examples. *)
Definition sample_resolver : Resolver := {|
  inet_pton4 s := if String.eqb s "8.8.8.8" then 1 else 0;
  getaddrinfo6 s := if String.eqb s "::1" then 0 else -2
|}.

(** ** Lemmas *)
Lemma mac_loop_ok n i l :
  (i + n ≤ length l)%nat → mac_loop n i l = Ret (mac_bytes_ok i (take n (drop i l))).
Proof.
  revert i. induction n as [|n IH]; intros i Hi; [done|].
  destruct (lookup_lt_is_Some_2 l i) as [c Hc]; [lia|].
  simpl. rewrite Hc. simpl. rewrite (drop_S l c i Hc). simpl.
  destruct (mac_byte_ok i c); simpl; [|done]. apply IH. lia.
Qed.

Lemma size_eqb s (n : nat) : (size s =? Z.of_nat n) = (length (bytes s) =? n)%nat.
Proof.
  unfold size. destruct (Nat.eqb_spec (length (bytes s)) n); [by subst; apply Z.eqb_refl|].
  apply Z.eqb_neq. lia.
Qed.

Lemma isValidMacFormat_eq mac :
  isValidMacFormat mac =
    Ret (if (length (bytes mac) =? 17)%nat then mac_bytes_ok 0 (bytes mac)
         else (length (bytes mac) =? 12)%nat && forallb is_xdigit (bytes mac)).
Proof.
  unfold isValidMacFormat.
  change 17 with (Z.of_nat 17). change 12 with (Z.of_nat 12). rewrite !size_eqb.
  destruct (Nat.eqb_spec (length (bytes mac)) 17) as [Hl|Hl].
  - rewrite mac_loop_ok by lia. by rewrite drop_0, take_ge by lia.
  - by destruct (_ =? 12)%nat.
Qed.

(** The 17 positions, read as six groups. *)
Lemma mac_bytes_ok_grouped l :
  length l = 17%nat →
  mac_bytes_ok 0 l = true ↔
  ∃ pairs seps, l = grouped pairs seps ∧ length pairs = 6%nat ∧ length seps = 5%nat ∧
    Forall hex_pair pairs ∧ Forall (λ c, is_separator c = true) seps.
Proof.
  intros Hl. do 17 (destruct l as [|? l]; [discriminate Hl|]). destruct l; [|discriminate Hl].
  unfold mac_bytes_ok, mac_byte_ok. simpl. rewrite !andb_true_iff. split.
  - intros H. decompose [and] H. eexists [(_, _); (_, _); (_, _); (_, _); (_, _); (_, _)], [_; _; _; _; _].
    simpl. split_and!; try done; repeat constructor; done.
  - intros (ps & ss & Heq & Hp & Hs & Fp & Fs).
    do 6 (destruct ps as [|[? ?] ps]; [discriminate Hp|]). destruct ps; [|discriminate Hp].
    do 5 (destruct ss as [|? ss]; [discriminate Hs|]). destruct ss; [|discriminate Hs].
    simpl in Heq. simplify_eq. rewrite !Forall_cons in Fp. rewrite !Forall_cons in Fs. unfold hex_pair in Fp. simpl in Fp.
    tauto.
Qed.

Lemma grouped_length pairs seps :
  length pairs = 6%nat → length seps = 5%nat → length (grouped pairs seps) = 17%nat.
Proof.
  intros Hp Hs.
  do 6 (destruct pairs as [|[? ?] pairs]; [discriminate Hp|]).
  do 5 (destruct seps as [|? seps]; [discriminate Hs|]). destruct pairs; [|discriminate Hp].
  by destruct seps.
Qed.

Lemma isValidMacFormat_iff mac : isValidMacFormat mac = Ret true ↔ mac_grammar (bytes mac).
Proof.
  rewrite isValidMacFormat_eq. unfold mac_grammar.
  assert (Hb : ∀ b : bool, Ret b = Ret true ↔ b = true) by (intros []; split; congruence).
  rewrite Hb. destruct (Nat.eqb_spec (length (bytes mac)) 17) as [Hl|Hl].
  - rewrite mac_bytes_ok_grouped by done. split; [by right|]. intros [[? _]|?]; [lia|done].
  - rewrite andb_true_iff, Nat.eqb_eq, forallb_forall, <-List.Forall_forall.
    split; [by left|]. intros [?|(ps & ss & Heq & Hp & Hs & _)]; [done|].
    by rewrite Heq, grouped_length in Hl.
Qed.

(** ** Properties *)

(** C24: on every string, of any length and content, [isValidMacFormat] returns
    (it reads no byte out of range), and it returns true exactly on the
    strings of the MAC grammar: twelve hexadecimal digits, or six pairs of
    them separated by colons or hyphens. *)
Theorem mac_format_exact (mac : string) :
  (∃ b, isValidMacFormat mac = Ret b) ∧
  (isValidMacFormat mac = Ret true ↔ mac_grammar (bytes mac)).
Proof. split; [eexists; apply isValidMacFormat_eq|apply isValidMacFormat_iff]. Qed.

(** The address check looks at the text up to the first NUL byte only: an
    IPv4 address followed by a NUL byte and anything else is accepted. *)
Theorem ip_format_ignores_after_nul `{Resolver} (ip rest : string) :
  Ascii.zero ∉ bytes ip → inet_pton4 ip = 1 →
  isValidIpFormat (ip +:+ String Ascii.zero rest) = true.
Proof.
  intros Hz Hip. unfold isValidIpFormat.
  replace (c_str (ip +:+ String Ascii.zero rest)) with ip; [by rewrite Hip|].
  unfold c_str. rewrite bytes_app. change (bytes (String Ascii.zero rest)) with (Ascii.zero :: bytes rest).
  rewrite until_nul_app; [by rewrite str_bytes|].
  apply Forall_forall. intros c Hc ->. done.
Qed.

(** ** Witnesses *)
Lemma ip_format_ignores_after_nul_witness :
  @isValidIpFormat sample_resolver ("8.8.8.8" +:+ String Ascii.zero "<x>") = true.
Proof.
  apply (@ip_format_ignores_after_nul sample_resolver "8.8.8.8" "<x>").
  - intros H. vm_compute in H. repeat (apply elem_of_cons in H as [H|H]; [discriminate H|]).
    by apply elem_of_nil in H.
  - reflexivity.
Defined.

Example mac_mixed_separators : isValidMacFormat "aa:bb-cc:dd-ee:ff" = Ret true.
Proof. reflexivity. Qed.
