(* ===== verification/Auth.v ===== *)
(** * API keys (src/src/auth.h, auth.cpp)

    [sha256Hash], and class [APIAuth]: the set of the digests of the accepted
    keys, filled key by key or from a file.  Every method holds the mutex for
    all of its effect, so it is one step on the set.  [SHA256] is OpenSSL's:
    a parameter, with the shape of its output as its law. *)
From Stdlib Require Import ZArith Lia Ascii String.
From S2P Require Import Prelude CppString.
#[local] Open Scope Z_scope.

(** [SHA256(data, size, hash)] as the list of bytes written to [hash]. *)
Class Digest := SHA256 : string → list Z.

Class DigestLaws `{!Digest} : Prop := {
  SHA256_length s : length (SHA256 s) = 32%nat;
  SHA256_bytes s : Forall (λ b, 0 ≤ b < 256) (SHA256 s)
}.

Definition hex : list ascii := bytes "0123456789abcdef".

Definition hex_at (z : Z) : ascii := nth (Z.to_nat z) hex Ascii.zero.

(** The loop writing two digits per byte, [n] iterations before its end. *)
Fixpoint hex_loop (n i : nat) (hash : list Z) (result : list ascii) : list ascii :=
  match n with
  | O => result
  | S n' =>
      let b := nth i hash 0 in
      hex_loop n' (S i) hash
        (<[(i * 2 + 1)%nat := hex_at (Z.land b 15)]>
           (<[(i * 2)%nat := hex_at (Z.shiftr b 4)]> result))
  end.

Definition sha256Hash `{Digest} (input : string) : string :=
  str (hex_loop 32 0 (SHA256 input) (replicate (32 * 2) Ascii.zero)).

Module APIAuth.

(** [api_key_hashes_] *)
Definition t : Type := gset string.

Definition add_key `{Digest} (key : string) (api_key_hashes : t) : t :=
  if is_empty key then api_key_hashes
  else {[ sha256Hash key ]} ∪ api_key_hashes.

Definition is_valid `{Digest} (api_key_hashes : t) (key : string) : bool :=
  if is_empty key then false else bool_decide (sha256Hash key ∈ api_key_hashes).

Definition blanks : list ascii := [space; tab; carriage_return; newline].

(** The key on a line of the file, if there is one. *)
Definition line_key (line : string) : option string :=
  match bytes line with
  | [] => None
  | c :: _ =>
      if decide (c = "#"%char) then None
      else match find_first_not_of blanks line, find_last_not_of blanks line with
           | Some start, Some stop => Some (substr line start (stop - start + 1))
           | _, _ => None
           end
  end.

Fixpoint load_loop `{Digest} (ls : list string) (api_key_hashes : t) (count : Z) : t * Z :=
  match ls with
  | [] => (api_key_hashes, count)
  | line :: ls' =>
      match line_key line with
      | None => load_loop ls' api_key_hashes count
      | Some key =>
          let key_hash := sha256Hash key in
          if decide (key_hash ∈ api_key_hashes) then load_loop ls' api_key_hashes count
          else load_loop ls' ({[ key_hash ]} ∪ api_key_hashes) (count + 1)
      end
  end.

(** [file] is the content of the file, [None] if it cannot be opened; the
    second component of the result is the count that is logged. *)
Definition load_keys_from_file `{Digest} (file : option string) (api_key_hashes : t) :
    bool * option Z * t :=
  match file with
  | None => (false, None, api_key_hashes)
  | Some content =>
      let '(hashes, count) := load_loop (lines content) ∅ 0 in
      (true, Some count, hashes)
  end.

Definition key_count (api_key_hashes : t) : Z := Z.of_nat (base.size api_key_hashes).

End APIAuth.

(** ** What the class promises: the accepted keys themselves *)
Module KeyStore.

Inductive op :=
| AddKey (key : string)
| LoadFile (file : option string).

(** The keys a file holds, in its order. *)
Definition file_keys (content : string) : list string := omap APIAuth.line_key (lines content).

Definition step (keys : list string) (o : op) : list string :=
  match o with
  | AddKey key => if is_empty key then keys else key :: keys
  | LoadFile None => keys
  | LoadFile (Some content) => file_keys content
  end.

Definition run (os : list op) : list string := fold_left step os [].

Definition apply `{Digest} (h : APIAuth.t) (o : op) : APIAuth.t :=
  match o with
  | AddKey key => APIAuth.add_key key h
  | LoadFile file => (APIAuth.load_keys_from_file file h).2
  end.

Definition apply_all `{Digest} (os : list op) : APIAuth.t := fold_left apply os ∅.

(** The same of a history, newest first, key by key, and without the code's
    own way to cut lines and to trim them: on a line that is no comment, a key
    is all but the blanks around it. *)
Definition blank (c : ascii) : Prop :=
  c = " "%char ∨ c = "009"%char ∨ c = "013"%char ∨ c = "010"%char.

Definition on_line (line key : list ascii) : Prop :=
  head line ≠ Some "#"%char ∧
  ∃ pre post, line = pre ++ key ++ post ∧ Forall blank pre ∧ Forall blank post ∧
    (∃ c l, key = c :: l ∧ ¬ blank c) ∧ (∃ c l, key = l ++ [c] ∧ ¬ blank c).

Fixpoint holds (history : list op) (key : string) : Prop :=
  match history with
  | [] => False
  | AddKey k :: older => (k = key ∧ k ≠ "") ∨ holds older key
  | LoadFile None :: older => holds older key
  | LoadFile (Some content) :: _ => ∃ line, line_of line (bytes content) ∧ on_line line (bytes key)
  end.

(** A file with one key a line, ended by [eol]. *)
Definition key_file (eol : list ascii) (keys : list string) : string :=
  str (concat ((λ k, bytes k ++ eol) <$> keys)).

(** A key that a line can hold: non-empty, on one line, with no blank at
    either end, and not starting as a comment does. *)
Definition plain_key (k : string) : Prop :=
  newline ∉ bytes k ∧
  (∃ c l, bytes k = c :: l ∧ c ∉ APIAuth.blanks ∧ c ≠ "#"%char) ∧
  (∃ c l, bytes k = l ++ [c] ∧ c ∉ APIAuth.blanks).

End KeyStore.

(** The two digits of a byte. *)
Definition hex_byte (b : Z) : list ascii := [hex_at (Z.shiftr b 4); hex_at (Z.land b 15)].

(** A digest for the concrete examples: the bytes of the text, up to 32. *)
Definition sample_digest : Digest := λ s, take 32 ((code <$> bytes s) ++ replicate 32 0).

(** ** Lemmas *)
Lemma hex_loop_spec n i hash r :
  (i + n ≤ length hash)%nat → length r = ((i + n) * 2)%nat →
  hex_loop n i hash r = take (i * 2) r ++ concat (hex_byte <$> take n (drop i hash)).
Proof.
  revert i r. induction n as [|n IH]; intros i r Hh Hr.
  - simpl. by rewrite app_nil_r, take_ge by lia.
  - destruct (lookup_lt_is_Some_2 hash i) as [b Hb]; [lia|].
    simpl. rewrite IH; [|lia|rewrite !length_insert; lia].
    rewrite (drop_S hash b i Hb). simpl. rewrite (nth_lookup_Some _ _ _ _ Hb).
    replace (i * 2 + 1)%nat with (S (i * 2)) by lia.
    rewrite (take_S_r _ _ (hex_at (Z.land b 15))); [|rewrite list_lookup_insert_eq; [done|rewrite length_insert; lia]].
    rewrite take_insert_ge by lia.
    rewrite (take_S_r _ _ (hex_at (Z.shiftr b 4))); [|rewrite list_lookup_insert_eq; [done|lia]].
    rewrite take_insert_ge by lia. by rewrite <-!app_assoc.
Qed.

Lemma sha256Hash_eq `{DigestLaws} s : sha256Hash s = str (concat (hex_byte <$> SHA256 s)).
Proof.
  unfold sha256Hash. rewrite hex_loop_spec.
  - rewrite drop_0, (take_ge (SHA256 s)); [done|]. rewrite SHA256_length. lia.
  - rewrite SHA256_length. lia.
  - by rewrite length_replicate.
Qed.

Lemma hex_at_inj a b : 0 ≤ a < 16 → 0 ≤ b < 16 → hex_at a = hex_at b → a = b.
Proof.
  intros Ha Hb Hab.
  assert (Hn : NoDup hex) by (apply (bool_decide_unpack _); vm_compute; done).
  apply NoDup_ListNoDup in Hn. pose proof (proj1 (NoDup_nth hex Ascii.zero) Hn) as Hi.
  assert (Z.to_nat a = Z.to_nat b) as Hz by (apply Hi; [simpl; lia..|exact Hab]). lia.
Qed.

Lemma hex_byte_inj a b : 0 ≤ a < 256 → 0 ≤ b < 256 → hex_byte a = hex_byte b → a = b.
Proof.
  unfold hex_byte. intros Ha Hb Hab. injection Hab as H1 H2.
  rewrite !Z.shiftr_div_pow2 in H1 by lia.
  change 15 with (Z.ones 4) in H2. rewrite !Z.land_ones in H2 by lia.
  change (2 ^ 4) with 16 in *.
  apply hex_at_inj in H1; [|Z.to_euclidean_division_equations; lia..].
  apply hex_at_inj in H2; [|Z.to_euclidean_division_equations; lia..].
  Z.to_euclidean_division_equations; lia.
Qed.

Lemma concat_hex_inj l1 l2 :
  Forall (λ b, 0 ≤ b < 256) l1 → Forall (λ b, 0 ≤ b < 256) l2 →
  concat (hex_byte <$> l1) = concat (hex_byte <$> l2) → l1 = l2.
Proof.
  intros H1. revert l2. induction H1 as [|a l1 Ha _ IH]; intros ? [|b l2 Hb H2]; try done.
  intros H. change (hex_byte a ++ concat (hex_byte <$> l1) = hex_byte b ++ concat (hex_byte <$> l2)) in H.
  apply app_inj_1 in H as [Hab Hl]; [|done]. f_equal; [by apply hex_byte_inj|by apply IH].
Qed.

(** The hexadecimal text loses nothing of the digest. *)
Lemma sha256Hash_inj `{DigestLaws} s1 s2 : sha256Hash s1 = sha256Hash s2 ↔ SHA256 s1 = SHA256 s2.
Proof.
  rewrite !sha256Hash_eq. split; [|by intros ->].
  intros Hs%str_inj. by apply concat_hex_inj in Hs; try apply SHA256_bytes.
Qed.

Section APIAuthFacts.
Context `{DigestLaws}.
Import APIAuth KeyStore.

Lemma line_hashes_cons (l : string) (ls : list string) :
  (list_to_set (sha256Hash <$> omap line_key (l :: ls)) : gset string) =
    match line_key l with
    | Some k => {[ sha256Hash k ]} ∪ list_to_set (sha256Hash <$> omap line_key ls)
    | None => list_to_set (sha256Hash <$> omap line_key ls)
    end.
Proof. simpl. by destruct (line_key l). Qed.

Lemma load_loop_spec ls h c :
  load_loop ls h c =
    (h ∪ list_to_set (sha256Hash <$> omap line_key ls),
     c + key_count (h ∪ list_to_set (sha256Hash <$> omap line_key ls)) - key_count h).
Proof.
  revert h c. induction ls as [|l ls IH]; intros h c.
  - simpl. rewrite (right_id_L ∅ (∪)). f_equal. lia.
  - rewrite line_hashes_cons. simpl. destruct (line_key l) as [k|]; [|apply IH].
    rewrite (assoc_L (∪) h), (comm_L (∪) h {[_]}).
    case_decide as Hk; rewrite IH; [by rewrite (subseteq_union_1_L {[_]} h) by by apply singleton_subseteq_l|].
    assert (key_count ({[sha256Hash k]} ∪ h) = key_count h + 1) as ->; [|f_equal].
    2: { match goal with |- _ + ?x - _ = _ + ?y - _ => change y with x end. lia. }
    unfold key_count. rewrite size_union, size_singleton by by apply disjoint_singleton_l. lia.
Qed.

Lemma elem_of_hashes k (keys : list string) :
  sha256Hash k ∈ (list_to_set (sha256Hash <$> keys) : gset string) ↔
  ∃ k', k' ∈ keys ∧ SHA256 k' = SHA256 k.
Proof.
  rewrite elem_of_list_to_set, list_elem_of_fmap. split.
  - intros (k' & Hk & Hk'). exists k'. split; [done|]. by apply sha256Hash_inj.
  - intros (k' & Hk' & Hk). exists k'. split; [|done]. by apply sha256Hash_inj.
Qed.

Lemma apply_abs h keys o :
  h = list_to_set (sha256Hash <$> keys) → KeyStore.apply h o = list_to_set (sha256Hash <$> step keys o).
Proof.
  intros ->. destruct o as [k|[content|]]; simpl; [|by rewrite load_loop_spec, (left_id_L ∅ (∪))|done].
  unfold add_key. by destruct (is_empty k).
Qed.

Lemma apply_all_abs os : apply_all os = list_to_set (sha256Hash <$> run os).
Proof.
  unfold apply_all, run. assert (Hg : ∀ h keys, h = list_to_set (sha256Hash <$> keys) →
    fold_left KeyStore.apply os h = list_to_set (sha256Hash <$> fold_left step os keys)).
  { induction os as [|o os IH]; intros h keys Hh; simpl; [done|]. apply IH. by apply apply_abs. }
  by apply Hg.
Qed.

Lemma line_key_trim line :
  line_key line = match bytes line with
                  | [] => None
                  | c :: _ => if decide (c = "#"%char) then None else trim_span blanks line
                  end.
Proof. done. Qed.

Lemma blank_blanks c : blank c ↔ c ∈ blanks.
Proof. unfold blank, blanks. rewrite !elem_of_cons, elem_of_nil. tauto. Qed.

Lemma Forall_blank l : Forall blank l ↔ Forall (λ c, c ∈ blanks) l.
Proof. apply Forall_iff, blank_blanks. Qed.

(** The key of a line is what the format says. *)
Lemma line_key_iff line key : line_key line = Some key ↔ on_line (bytes line) (bytes key).
Proof.
  unfold on_line. setoid_rewrite Forall_blank. setoid_rewrite blank_blanks. rewrite line_key_trim. split.
  - destruct (bytes line) as [|c l] eqn:Hl; [done|]. case_decide as Hc; [done|].
    intros (pre & post & Hs & ?)%trim_span_Some. split; [by intros [= ->]|]. exists pre, post. by rewrite <-Hl.
  - intros (Hc & pre & post & Hs & Hpre & Hpost & Hfirst & Hlast).
    pose proof (trim_span_unique blanks line key pre post Hs Hpre Hpost Hfirst Hlast) as Ht.
    destruct (bytes line) as [|c l] eqn:Hl.
    + destruct Hfirst as (d & m & Hk & _). rewrite Hk in Hs. by destruct pre.
    + rewrite decide_False; [done|]. by intros ->.
Qed.

(** A plain key is all of what is trimmed off its line. *)
Lemma line_key_plain k tl :
  plain_key k → Forall (λ c, c ∈ blanks) tl → line_key (str (bytes k ++ tl)) = Some k.
Proof.
  intros (_ & (c & l & Hk & Hc & Hh) & (d & l' & Hk' & Hd)) Htl. apply line_key_iff. rewrite bytes_str. split.
  - rewrite Hk. by intros [= ->].
  - exists [], tl. split_and!; [done|constructor|by apply Forall_blank|..].
    + exists c, l. by rewrite blank_blanks.
    + exists d, l'. by rewrite blank_blanks.
Qed.

Lemma file_keys_iff content key :
  key ∈ file_keys content ↔ ∃ line, line_of line (bytes content) ∧ on_line line (bytes key).
Proof.
  unfold file_keys, lines. rewrite list_elem_of_omap. split.
  - intros (s & (line & -> & Hin)%list_elem_of_fmap & Hk). apply line_key_iff in Hk. rewrite bytes_str in Hk.
    exists line. split; [|done]. apply split_lines_spec in Hin; [done| |apply not_elem_of_nil].
    intros ->. destruct Hk as (_ & pre & post & Hs & _ & _ & (c & l & Hl & _) & _). rewrite Hl in Hs. by destruct pre.
  - intros (line & Hline & Hk). exists (str line). split; [|by apply line_key_iff; rewrite bytes_str].
    apply list_elem_of_fmap. exists line. split; [done|]. apply split_lines_spec; [|apply not_elem_of_nil|done].
    intros ->. destruct Hk as (_ & pre & post & Hs & _ & _ & (c & l & Hl & _) & _). rewrite Hl in Hs. by destruct pre.
Qed.

Lemma holds_run os key : key ∈ run os ↔ holds (rev os) key.
Proof.
  unfold run. induction os as [|o os IH] using rev_ind; [simpl; by rewrite elem_of_nil|].
  rewrite fold_left_app, rev_app_distr. simpl. destruct o as [k|[content|]]; simpl.
  - destruct (is_empty k) eqn:He.
    + apply is_empty_eq in He. subst k. rewrite IH. naive_solver.
    + rewrite elem_of_cons, IH. split; intros [Hk|?]; auto; left; [|by destruct Hk].
      subst k. split; [done|]. by intros ->.
  - apply file_keys_iff.
  - exact IH.
Qed.

Lemma lines_key_file (eol : list ascii) (tl : list ascii) keys :
  eol = tl ++ [newline] → newline ∉ tl → Forall plain_key keys →
  lines (key_file eol keys) = (λ k, str (bytes k ++ tl)) <$> keys.
Proof.
  intros -> Htl Hk. unfold key_file.
  rewrite <-(lines_concat ((λ k, str (bytes k ++ tl)) <$> keys)).
  - do 2 f_equal. rewrite <-list_fmap_compose. f_equal. apply list_fmap_ext.
    intros _ k _. simpl. by rewrite bytes_str, app_assoc.
  - apply Forall_fmap. eapply Forall_impl; [exact Hk|]. intros k (Hn & _). simpl.
    rewrite bytes_str, elem_of_app. tauto.
Qed.

Lemma file_keys_key_file eol keys :
  eol = [newline] ∨ eol = [carriage_return; newline] → Forall plain_key keys →
  file_keys (key_file eol keys) = keys.
Proof.
  intros He Hk.
  assert (∃ tl, eol = tl ++ [newline] ∧ newline ∉ tl ∧ Forall (λ c, c ∈ blanks) tl) as (tl & Heol & Hnl & Htl).
  { destruct He as [->| ->]; [exists []|exists [carriage_return]]; (split; [done|split]).
    - apply not_elem_of_nil.
    - constructor.
    - intros Hin. apply list_elem_of_singleton in Hin. discriminate Hin.
    - repeat constructor. }
  unfold file_keys. rewrite (lines_key_file _ tl) by done.
  clear He Heol. induction Hk as [|k keys Hk _ IH]; [done|].
  simpl. rewrite line_key_plain by done. f_equal. exact IH.
Qed.
End APIAuthFacts.

(** ** Properties *)

(** C18: after any sequence of added keys and loaded key files, a key is
    accepted exactly when it is non-empty and has the SHA-256 digest of a key
    that was added, or is on a line of a file that was loaded, and not before
    the last file that could be opened: loading one forgets all keys before.
    What is on a line is said by the format: a line that starts with a number
    sign is a comment, and blanks around a key do not belong to it. *)
Theorem auth_accepts_exactly `{DigestLaws} (os : list KeyStore.op) (key : string) :
  APIAuth.is_valid (KeyStore.apply_all os) key = true ↔
  key ≠ "" ∧ ∃ k, KeyStore.holds (rev os) k ∧ SHA256 k = SHA256 key.
Proof.
  setoid_rewrite <-holds_run. unfold APIAuth.is_valid. rewrite apply_all_abs. destruct key as [|c key]; simpl.
  - split; [done|]. by intros [? _].
  - rewrite bool_decide_eq_true, elem_of_hashes. split; [|by intros [_ ?]]. intros ?. by split.
Qed.

(** C38: a key file written one key a line, with either line ending, loads
    back to exactly these keys whatever was accepted before, and the count
    that is logged is [key_count]. *)
Theorem key_file_roundtrip `{DigestLaws} (eol : list ascii) (keys : list string) (h : APIAuth.t) :
  eol = [newline] ∨ eol = [carriage_return; newline] → Forall KeyStore.plain_key keys →
  ∃ h', APIAuth.load_keys_from_file (Some (KeyStore.key_file eol keys)) h =
          (true, Some (APIAuth.key_count h'), h') ∧
    ∀ key, APIAuth.is_valid h' key = true ↔
      key ≠ "" ∧ ∃ k, k ∈ keys ∧ SHA256 k = SHA256 key.
Proof.
  intros He Hk. unfold APIAuth.load_keys_from_file.
  rewrite load_loop_spec, (left_id_L ∅ (∪)).
  pose proof (file_keys_key_file eol keys He Hk) as Hf. unfold KeyStore.file_keys in Hf. rewrite Hf.
  eexists. split; [do 3 f_equal; unfold APIAuth.key_count; rewrite size_empty; lia|].
  intros key. unfold APIAuth.is_valid. destruct key as [|c key]; simpl.
  - split; [done|]. by intros [? _].
  - rewrite bool_decide_eq_true, elem_of_hashes. split; [|by intros [_ ?]]. intros ?. by split.
Qed.

(** ** Witnesses *)
Lemma sample_digest_laws : @DigestLaws sample_digest.
Proof.
  split; intros s; unfold SHA256, sample_digest.
  - rewrite length_take, length_app, length_replicate. lia.
  - apply Forall_take, Forall_app. split.
    + apply Forall_fmap, Forall_true. intros c. simpl. apply code_range.
    + apply Forall_replicate. lia.
Qed.

Lemma auth_accepts_exactly_witness :
  APIAuth.is_valid (H := sample_digest) (KeyStore.apply_all (H := sample_digest)
    [KeyStore.AddKey "old"; KeyStore.LoadFile (Some "k1"); KeyStore.AddKey "k2"]) "k2" = true.
Proof.
  apply (auth_accepts_exactly (H := sample_digest) (H0 := sample_digest_laws)).
  split; [done|]. exists "k2". split; [by left|reflexivity].
Defined.

Lemma key_file_roundtrip_witness :
  ∃ h', APIAuth.load_keys_from_file (H := sample_digest)
      (Some (KeyStore.key_file [newline] ["k1"; "k 2"])) ∅ =
        (true, Some (APIAuth.key_count h'), h') ∧
    ∀ key, APIAuth.is_valid (H := sample_digest) h' key = true ↔
      key ≠ "" ∧ ∃ k, k ∈ ["k1"; "k 2"] ∧ sample_digest k = sample_digest key.
Proof.
  apply (key_file_roundtrip (H := sample_digest) (H0 := sample_digest_laws)); [by left|].
  repeat constructor; try (by apply (bool_decide_unpack _); vm_compute).
  - exists "k"%char, ["1"%char]. split_and!; [done|by apply (bool_decide_unpack _); vm_compute|done].
  - exists "1"%char, ["k"%char]. split; [done|by apply (bool_decide_unpack _); vm_compute].
  - exists "k"%char, [" "%char; "2"%char]. split_and!; [done|by apply (bool_decide_unpack _); vm_compute|done].
  - exists "2"%char, ["k"%char; " "%char]. split; [done|by apply (bool_decide_unpack _); vm_compute].
Defined.

(** A comment that does not start in the first column is taken for a key. *)
Example indented_comment_is_a_key :
  KeyStore.file_keys (str (bytes "# a" ++ newline :: bytes " # b")) = ["# b"].
Proof. reflexivity. Qed.
