(* ===== verification/Metrics.v ===== *)
(** * Request metrics (src/src/metrics.h, metrics.cpp)

    Class [Metrics]: the counters, the last latencies and the time stamps of
    the last minute, and the statistics computed from them.  The counters are
    atomics updated outside the mutex, so [record_request] is two steps of
    other threads' making, and [get_stats] reads the state at five moments. *)
From Stdlib Require Import ZArith Lia.
From S2P Require Import Prelude Double.
#[local] Open Scope Z_scope.

Definition MAX_LATENCIES : nat := 1000.

Module Metrics.

Record t := {
  total_requests_ : Z;               (* std::atomic<uint64_t> *)
  total_errors_ : Z;                 (* std::atomic<uint64_t> *)
  latencies_ : list double;
  start_time_ : Z;
  request_timestamps_ : list Z
}.

Record Stats := {
  total_requests : Z;
  total_errors : Z;
  error_rate : double;
  current_qps : double;
  avg_latency_ms : double;
  p50_latency_ms : double;
  p95_latency_ms : double;
  p99_latency_ms : double;
  uptime_seconds : Z
}.

Definition create (now : Z) : t := {|
  total_requests_ := 0; total_errors_ := 0; latencies_ := []; start_time_ := now;
  request_timestamps_ := []
|}.

(** [total_requests_++] *)
Definition count_request (m : t) : t := {|
  total_requests_ := u64 (total_requests_ m + 1); total_errors_ := total_errors_ m;
  latencies_ := latencies_ m; start_time_ := start_time_ m;
  request_timestamps_ := request_timestamps_ m
|}.

(** [while (!empty() && front() < cutoff) pop_front();] *)
Fixpoint drop_before (cutoff : Z) (ts : list Z) : list Z :=
  match ts with
  | [] => []
  | front :: ts' => if front <? cutoff then drop_before cutoff ts' else ts
  end.

(** The part of [record_request] under the lock. *)
Definition record_locked (latency_ms : double) (now : Z) (m : t) : t :=
  let latencies := latencies_ m ++ [latency_ms] in
  {| total_requests_ := total_requests_ m; total_errors_ := total_errors_ m;
     latencies_ := if (MAX_LATENCIES <? length latencies)%nat then tail latencies else latencies;
     start_time_ := start_time_ m;
     request_timestamps_ := drop_before (now - seconds 60) (request_timestamps_ m ++ [now]) |}.

Definition record_request (latency_ms : double) (now : Z) (m : t) : t :=
  record_locked latency_ms now (count_request m).

Definition record_error (m : t) : t := {|
  total_requests_ := total_requests_ m; total_errors_ := u64 (total_errors_ m + 1);
  latencies_ := latencies_ m; start_time_ := start_time_ m;
  request_timestamps_ := request_timestamps_ m
|}.

Definition zero : double := double_of_Z 0.

Definition calculate_percentile (percentile : double) (m : t) : exec double :=
  match latencies_ m with
  | [] => Ret zero
  | _ =>
      sorted_latencies ← sort_doubles (latencies_ m);
      index ← double_to_size (dmul percentile (double_of_Z (Z.of_nat (length sorted_latencies) - 1)));
      deref (sorted_latencies !! Z.to_nat index)
  end.

Definition calculate_qps (m : t) : double :=
  let ts := request_timestamps_ m in
  match ts, last ts with
  | front :: _ :: _, Some back =>
      let duration := Z.quot (back - front) 1000000 in
      if duration =? 0 then zero
      else dmul (ddiv (double_of_Z (Z.of_nat (length ts) - 1)) (double_of_Z duration))
                (double_of_Z 1000)
  | _, _ => zero
  end.

(** [m1] and [m2] are the states in which the counters are loaded, [m3] and
    [m4] those in which the lock is held, [now] the final reading. *)
Definition get_stats (m1 m2 m3 m4 : t) (now : Z) : exec Stats :=
  let requests := total_requests_ m1 in
  let errors := total_errors_ m2 in
  let rate := if 0 <? requests
              then dmul (ddiv (double_of_Z errors) (double_of_Z requests)) (double_of_Z 100)
              else zero in
  let finish avg p50 p95 p99 := {|
    total_requests := requests; total_errors := errors; error_rate := rate;
    current_qps := calculate_qps m4; avg_latency_ms := avg; p50_latency_ms := p50;
    p95_latency_ms := p95; p99_latency_ms := p99;
    uptime_seconds := u64 (Z.quot (now - start_time_ m4) ns_per_s) |} in
  match latencies_ m3 with
  | [] => Ret (finish zero zero zero zero)
  | l =>
      p50 ← calculate_percentile (double_lit 50 100) m3;
      p95 ← calculate_percentile (double_lit 95 100) m3;
      p99 ← calculate_percentile (double_lit 99 100) m3;
      Ret (finish (ddiv (fold_left dadd l zero) (double_of_Z (Z.of_nat (length l)))) p50 p95 p99)
  end.

End Metrics.

(** ** Histories: the steps of all threads, in the order they take effect *)
Module MetricsTrace.

Inductive event :=
| CountRequest
| RecordLocked (latency_ms : double) (now : Z)
| RecordError.

Definition step (m : Metrics.t) (e : event) : Metrics.t :=
  match e with
  | CountRequest => Metrics.count_request m
  | RecordLocked latency_ms now => Metrics.record_locked latency_ms now m
  | RecordError => Metrics.record_error m
  end.

Definition run (es : list event) (start : Z) : Metrics.t :=
  fold_left step es (Metrics.create start).

(** What was recorded, and how often each counter was bumped. *)
Definition samples (es : list event) : list (double * Z) :=
  omap (λ e, match e with RecordLocked l now => Some (l, now) | _ => None end) es.

Definition count (P : event → bool) (es : list event) : Z :=
  Z.of_nat (length (List.filter P es)).

Definition is_count_request (e : event) : bool :=
  match e with CountRequest => true | _ => false end.
Definition is_error (e : event) : bool :=
  match e with RecordError => true | _ => false end.

(** The last [n] elements. *)
Definition last_n {A} (n : nat) (l : list A) : list A := drop (length l - n) l.

(** The time stamps at most a minute older than the last one. *)
Definition last_minute (ts : list Z) : list Z :=
  match last ts with
  | Some now => filter (λ t, now - seconds 60 ≤ t) ts
  | None => []
  end.

End MetricsTrace.

(** The position of a percentile, given in hundredths, among [n] values. *)
Definition percentile_index (p : Z) (n : nat) : exec Z :=
  double_to_size (dmul (double_lit p 100) (double_of_Z (Z.of_nat n - 1))).

(** ** Lemmas *)
Import Metrics MetricsTrace.

Lemma drop_before_sorted cutoff ts :
  StronglySorted Z.le ts → drop_before cutoff ts = filter (λ t, cutoff ≤ t) ts.
Proof.
  induction 1 as [|t ts Hts IH Ht]; [done|]. simpl. rewrite filter_cons.
  destruct (Z.ltb_spec t cutoff).
  - rewrite decide_False by lia. exact IH.
  - rewrite decide_True by lia. f_equal. symmetry. apply filter_all_id.
    eapply Forall_impl; [exact Ht|]. intros x Hx. simpl in *. lia.
Qed.

Lemma StronglySorted_filter (P : Z → Prop) `{∀ x, Decision (P x)} (l : list Z) :
  StronglySorted Z.le l → StronglySorted Z.le (filter P l).
Proof.
  induction 1 as [|x l Hl IH Hx]; [constructor|]. rewrite filter_cons. case_decide; [|done].
  constructor; [done|]. rewrite Forall_forall in *. intros y Hy.
  apply list_elem_of_filter in Hy as [_ Hy]. by apply Hx.
Qed.

Lemma last_n_snoc {A} n (l : list A) x :
  (0 < n)%nat →
  last_n n (l ++ [x]) =
    (let l' := last_n n l ++ [x] in if (n <? length l')%nat then tail l' else l').
Proof.
  intros Hn. unfold last_n. cbv zeta. rewrite !length_app, length_drop. simpl.
  destruct (Nat.ltb_spec n (length l - (length l - n) + 1)) as [Hlt|Hlt].
  - replace (length l + 1 - n)%nat with (S (length l - n)) by lia.
    destruct (drop (length l - n) l) as [|y l'] eqn:Hd.
    + apply (f_equal length) in Hd. rewrite length_drop in Hd. simpl in Hd. lia.
    + simpl. rewrite drop_app_le by lia. f_equal.
      by rewrite <-Nat.add_1_r, <-drop_drop, Hd.
  - replace (length l + 1 - n)%nat with 0%nat by lia.
    replace (length l - n)%nat with 0%nat by lia. done.
Qed.

Lemma last_minute_snoc ts now :
  StronglySorted Z.le (ts ++ [now]) →
  drop_before (now - seconds 60) (last_minute ts ++ [now]) = last_minute (ts ++ [now]).
Proof.
  intros Hs. unfold last_minute at 2. rewrite last_snoc.
  destruct (last ts) as [t|] eqn:Ht.
  - unfold last_minute. rewrite Ht.
    assert (Htn : t ≤ now).
    { apply (StronglySorted_app_1_elem_of _ _ _ t now Hs); [|by left].
      by apply last_Some_elem_of. }
    rewrite drop_before_sorted.
    + rewrite !filter_app. f_equal. rewrite list_filter_filter. apply list_filter_iff.
      intros x. lia.
    + rewrite StronglySorted_app in Hs. destruct Hs as (H1 & H2 & H3).
      rewrite StronglySorted_app. split_and!; [|by apply StronglySorted_filter|done].
      intros x y Hx Hy. apply list_elem_of_filter in Hx as [_ Hx]. by apply H1.
  - apply last_None in Ht as ->. simpl. rewrite filter_cons. unfold seconds, ns_per_s.
    rewrite decide_True by lia. destruct (Z.ltb_spec now (now - 60 * 1000000000)); [lia|done].
Qed.

Lemma run_snoc es e start : run (es ++ [e]) start = step (run es start) e.
Proof. unfold run. by rewrite fold_left_app. Qed.

Lemma samples_snoc es e : samples (es ++ [e]) = samples es ++ samples [e].
Proof. apply omap_app. Qed.

Lemma latencies_run es start : latencies_ (run es start) = last_n MAX_LATENCIES (samples es).*1.
Proof.
  induction es as [|e es IH] using rev_ind; [done|].
  rewrite run_snoc, samples_snoc, fmap_app. destruct e as [|l now|]; simpl; rewrite ?app_nil_r; [done| |done].
  rewrite IH. symmetry. apply last_n_snoc. unfold MAX_LATENCIES. lia.
Qed.

Lemma timestamps_run es start :
  StronglySorted Z.le (samples es).*2 →
  request_timestamps_ (run es start) = last_minute (samples es).*2.
Proof.
  induction es as [|e es IH] using rev_ind; [done|].
  rewrite run_snoc, samples_snoc, fmap_app. intros Hs.
  destruct e as [|l now|]; simpl in *; rewrite ?app_nil_r in *; [by apply IH| |by apply IH].
  rewrite IH by by eapply StronglySorted_app_1_l. by apply last_minute_snoc.
Qed.

Lemma counters_run es start :
  total_requests_ (run es start) = u64 (count is_count_request es) ∧
  total_errors_ (run es start) = u64 (count is_error es) ∧
  start_time_ (run es start) = start.
Proof.
  induction es as [|e es (IH1 & IH2 & IH3)] using rev_ind; [done|].
  rewrite run_snoc. unfold count in *. rewrite !List.filter_app, !length_app, !Nat2Z.inj_add.
  destruct e as [|l now|]; simpl; rewrite IH1, IH2, IH3, ?Z.add_0_r, ?u64_add_l; done.
Qed.

(** The rounding of [percentile * (size - 1)] never moves the index: for every
    number of latencies the class can hold, it is the exact integer part. *)
Lemma percentile_index_exact p n :
  p ∈ [50; 95; 99] → (1 ≤ n ≤ MAX_LATENCIES)%nat →
  percentile_index p n = Ret (p * (Z.of_nat n - 1) / 100).
Proof.
  intros Hp Hn.
  assert (Hall : Forall (λ p, Forall (λ n, percentile_index p n = Ret (p * (Z.of_nat n - 1) / 100))
    (seq 1 MAX_LATENCIES)) [50; 95; 99]).
  { assert (Hb : forallb (λ p, forallb (λ n,
      match percentile_index p n with Ret z => z =? p * (Z.of_nat n - 1) / 100 | _ => false end)
      (seq 1 MAX_LATENCIES)) [50; 95; 99] = true) by (vm_compute; reflexivity).
    rewrite forallb_forall in Hb. apply List.Forall_forall. intros q Hq. apply Hb in Hq.
    rewrite forallb_forall in Hq. apply List.Forall_forall. intros k Hk. apply Hq in Hk.
    destruct (percentile_index q k); try discriminate Hk. f_equal. by apply Z.eqb_eq. }
  rewrite Forall_forall in Hall. specialize (Hall p Hp). rewrite Forall_forall in Hall.
  apply Hall, elem_of_seq. lia.
Qed.

Lemma calculate_percentile_ok p m :
  p ∈ [50; 95; 99] → Forall (λ d, is_nan d = false) (latencies_ m) →
  latencies_ m ≠ [] → (length (latencies_ m) ≤ MAX_LATENCIES)%nat →
  ∃ d, calculate_percentile (double_lit p 100) m = Ret d ∧
    ∀ s, sort_doubles (latencies_ m) = Ret s →
      s !! Z.to_nat (p * (Z.of_nat (length s) - 1) / 100) = Some d.
Proof.
  intros Hp Hnan Hne Hlen. unfold calculate_percentile.
  destruct (sort_doubles_ok _ Hnan) as (s & Hs & Hperm & _). apply Permutation_length in Hperm.
  assert (Hpos : (1 ≤ length s)%nat).
  { rewrite Hperm. destruct (latencies_ m); [done|simpl; lia]. }
  assert (Hi : (Z.to_nat (p * (Z.of_nat (length s) - 1) / 100) < length s)%nat).
  { assert (0 ≤ p * (Z.of_nat (length s) - 1) / 100 ≤ Z.of_nat (length s) - 1); [|lia].
    repeat (apply elem_of_cons in Hp as [->|Hp]); [..|by apply elem_of_nil in Hp];
      Z.to_euclidean_division_equations; lia. }
  apply lookup_lt_is_Some in Hi as [d Hd]. exists d. split; [|by intros s' Hs'; rewrite Hs in Hs'; injection Hs' as <-].
  destruct (latencies_ m) as [|x l] eqn:Hl; [done|]. rewrite Hs. simpl.
  pose proof (percentile_index_exact p (length s) Hp) as Hx. unfold percentile_index in Hx.
  rewrite Hx by (rewrite Hperm in *; lia). simpl. by rewrite Hd.
Qed.

(** What every recorded history satisfies: the window of latencies holds at
    most [MAX_LATENCIES] of them, each a number. *)
Definition metrics_ok (m : t) : Prop :=
  (length (latencies_ m) ≤ MAX_LATENCIES)%nat ∧ Forall (λ d, is_nan d = false) (latencies_ m).

Lemma create_metrics_ok now : metrics_ok (create now).
Proof. split; simpl; [lia|constructor]. Qed.

Lemma record_locked_ok latency now m :
  is_nan latency = false → metrics_ok m → metrics_ok (record_locked latency now m).
Proof.
  intros Hl [Hlen Hn]. unfold metrics_ok, record_locked. cbn [latencies_].
  rewrite length_app. cbn [length].
  assert (Hall : Forall (λ d, is_nan d = false) (latencies_ m ++ [latency])).
  { apply Forall_app. split; [done|by constructor]. }
  destruct (Nat.ltb_spec MAX_LATENCIES (length (latencies_ m) + 1)).
  - destruct (latencies_ m) as [|x l]; simpl in *; [by split; [lia|]|].
    rewrite length_app. simpl. split; [lia|]. by apply Forall_cons in Hall as [_ ?].
  - rewrite length_app. simpl. split; [lia|done].
Qed.

(** The statistics can be computed at any time. *)
Lemma get_stats_returns m1 m2 m3 m4 now : metrics_ok m3 → ∃ st, get_stats m1 m2 m3 m4 now = Ret st.
Proof.
  intros [Hlen Hn]. unfold get_stats. destruct (latencies_ m3) as [|x l] eqn:Hl; [by eexists|].
  assert (Hne : latencies_ m3 ≠ []) by by rewrite Hl. rewrite <-Hl in Hlen, Hn.
  destruct (calculate_percentile_ok 50 m3) as (p50 & -> & _); [set_solver|done..|].
  destruct (calculate_percentile_ok 95 m3) as (p95 & -> & _); [set_solver|done..|].
  destruct (calculate_percentile_ok 99 m3) as (p99 & -> & _); [set_solver|done..|].
  by eexists.
Qed.

Lemma sorted_lookup_le (s : list double) (i j : nat) (a b : double) :
  StronglySorted (λ d1 d2, dleb d1 d2 = true) s → s !! i = Some a → s !! j = Some b →
  (i ≤ j)%nat → is_nan a = false → dleb a b = true.
Proof.
  intros Hs. revert i j. induction Hs as [|d s Hs IH Hd]; intros i j Hi Hj Hij Ha; [done|].
  destruct i as [|i], j as [|j]; simpl in *; simplify_eq.
  - by apply dleb_refl.
  - rewrite Forall_forall in Hd. apply Hd. by eapply list_elem_of_lookup_2.
  - lia.
  - apply (IH i j); [done..|lia|done].
Qed.

(** ** Properties *)

(** C31: after any history of steps whose clock readings do not go back, the
    latencies kept are exactly the last thousand recorded, the time stamps
    kept are exactly those at most sixty seconds older than the last one, and
    the counters are the numbers of requests and errors counted. *)
Theorem metrics_window_exact (es : list event) (start : Z) :
  StronglySorted Z.le (samples es).*2 →
  latencies_ (run es start) = last_n MAX_LATENCIES (samples es).*1 ∧
  request_timestamps_ (run es start) = last_minute (samples es).*2 ∧
  total_requests_ (run es start) = u64 (count is_count_request es) ∧
  total_errors_ (run es start) = u64 (count is_error es).
Proof.
  intros Hs. destruct (counters_run es start) as (H1 & H2 & _).
  split_and!; [apply latencies_run|by apply timestamps_run|done|done].
Qed.

(** C32: whatever the other threads do between its steps, [get_stats] never
    reads outside the sorted latencies: once a latency is recorded it returns
    the latencies at the exact integer ranks of the 50th, 95th and 99th
    percentile, which are in order. *)
Theorem percentiles_exact (es1 es2 es3 es4 : list event) (start now : Z) :
  let l := latencies_ (run es3 start) in
  l ≠ [] → Forall (λ d, is_nan d = false) (samples es3).*1 →
  ∃ st s, get_stats (run es1 start) (run es2 start) (run es3 start) (run es4 start) now = Ret st ∧
    s ≡ₚ l ∧ StronglySorted (λ d1 d2, dleb d1 d2 = true) s ∧
    s !! Z.to_nat (50 * (Z.of_nat (length l) - 1) / 100) = Some (p50_latency_ms st) ∧
    s !! Z.to_nat (95 * (Z.of_nat (length l) - 1) / 100) = Some (p95_latency_ms st) ∧
    s !! Z.to_nat (99 * (Z.of_nat (length l) - 1) / 100) = Some (p99_latency_ms st) ∧
    dleb (p50_latency_ms st) (p95_latency_ms st) = true ∧
    dleb (p95_latency_ms st) (p99_latency_ms st) = true.
Proof.
  intros l Hne Hnan.
  assert (Hl : l = last_n MAX_LATENCIES (samples es3).*1) by apply latencies_run.
  assert (Hn : Forall (λ d, is_nan d = false) l) by (rewrite Hl; by apply Forall_drop).
  assert (Hlen : (length l ≤ MAX_LATENCIES)%nat).
  { rewrite Hl. unfold last_n. rewrite length_drop. lia. }
  destruct (sort_doubles_ok l Hn) as (s & Hs & Hp & Hsort).
  assert (Hls : length s = length l) by by apply Permutation_length.
  destruct (calculate_percentile_ok 50 (run es3 start)) as (p50 & H50 & E50); [set_solver|done..|].
  destruct (calculate_percentile_ok 95 (run es3 start)) as (p95 & H95 & E95); [set_solver|done..|].
  destruct (calculate_percentile_ok 99 (run es3 start)) as (p99 & H99 & E99); [set_solver|done..|].
  assert (Hsn : ∀ i d, s !! i = Some d → is_nan d = false).
  { intros i d Hi. apply list_elem_of_lookup_2 in Hi. rewrite Hp in Hi.
    rewrite Forall_forall in Hn. by apply Hn. }
  specialize (E50 s Hs). specialize (E95 s Hs). specialize (E99 s Hs). rewrite Hls in E50, E95, E99.
  unfold get_stats. fold l. rewrite H50, H95, H99. destruct l as [|x l'] eqn:El; [done|].
  cbn [mbind exec_bind]. eexists. exists s. split; [reflexivity|]. simpl p50_latency_ms. simpl p95_latency_ms.
  simpl p99_latency_ms. split_and!; try done.
  - eapply (sorted_lookup_le s); [exact Hsort|exact E50|exact E95| |by eapply Hsn].
    apply Z2Nat.inj_le; [..|apply Z.div_le_mono]; simpl; Z.to_euclidean_division_equations; lia.
  - eapply (sorted_lookup_le s); [exact Hsort|exact E95|exact E99| |by eapply Hsn].
    apply Z2Nat.inj_le; [..|apply Z.div_le_mono]; simpl; Z.to_euclidean_division_equations; lia.
Qed.

(** ** Witnesses *)
Lemma metrics_window_exact_witness :
  let es := [CountRequest; RecordLocked (double_of_Z 3) 0; RecordError;
             CountRequest; RecordLocked (double_of_Z 1) (seconds 60);
             CountRequest; RecordLocked (double_of_Z 2) (seconds 61)] in
  request_timestamps_ (run es 0) = [seconds 60; seconds 61] ∧
  latencies_ (run es 0) = [double_of_Z 3; double_of_Z 1; double_of_Z 2].
Proof.
  intros es. destruct (metrics_window_exact es 0) as (H1 & H2 & _).
  - unfold es, seconds, ns_per_s. simpl. repeat constructor; lia.
  - rewrite H1, H2. split; reflexivity.
Defined.

Lemma percentiles_exact_witness :
  let es := [CountRequest; RecordLocked (double_of_Z 3) 0; RecordLocked (double_of_Z 1) 5] in
  ∃ st, get_stats (run es 0) (run es 0) (run es 0) (run [] 0) 7 = Ret st ∧
    dleb (p50_latency_ms st) (p95_latency_ms st) = true.
Proof.
  intros es. destruct (percentiles_exact es es es [] 0 7) as (st & s & H & _ & _ & _ & _ & _ & Hle & _).
  - discriminate.
  - repeat constructor.
  - exists st. split; [exact H|exact Hle].
Defined.
