(* ===== verification/PasswordGenerator.v ===== *)
(** * Password generation (src/src/password_generator.h, password_generator.cpp)

    The character sets, [validate_config], [generate] and [generate_batch].
    The random engine is an abstract state: [Rng] has the two uses the program
    makes of it, a draw from a [uniform_int_distribution] and [std::shuffle],
    and [RngLaws] what the C++ standard promises of any engine.  The entropy
    uses [std::log2], whose last bit the standard leaves open: a parameter. *)
From Stdlib Require Import ZArith Lia Ascii String.
From S2P Require Import Prelude Double CppString.
#[local] Open Scope Z_scope.

Class Rng (G : Type) := {
  uniform : nat → G → nat * G;                        (* uniform_int_distribution(0, n) *)
  shuffle : list ascii → G → list ascii * G           (* std::shuffle(begin, end, gen) *)
}.

Class RngLaws (G : Type) `{!Rng G} : Prop := {
  uniform_range n (g : G) : ((uniform n g).1 ≤ n)%nat;
  shuffle_perm l (g : G) : (shuffle l g).1 ≡ₚ l
}.

Class Libm := log2 : Z → double.

Record PasswordConfig := {
  length_ : Z;
  uppercase_ : bool;
  lowercase_ : bool;
  digits_ : bool;
  symbols_ : bool;
  exclude_similar_ : bool
}.

Definition default_config : PasswordConfig := {|
  length_ := 16; uppercase_ := true; lowercase_ := true; digits_ := true; symbols_ := true;
  exclude_similar_ := true
|}.

Record PasswordResult := {
  password_ : string;
  result_length_ : Z;
  entropy_ : double;
  strength_ : string
}.

Definition UPPERCASE : string := "ABCDEFGHIJKLMNOPQRSTUVWXYZ".
Definition LOWERCASE : string := "abcdefghijklmnopqrstuvwxyz".
Definition DIGITS : string := "0123456789".
Definition SYMBOLS : string := "!@#$%^&*()_+-=[]{}|;:,.<>?".

Definition CONFUSING_UPPER : string := "IO".
Definition CONFUSING_LOWER : string := "ilo".
Definition CONFUSING_DIGITS : string := "01".

Record CharacterSets := {
  pool_ : list ascii;
  required_chars_ : list (list ascii)
}.

(** [filtered.erase(std::remove(begin, end, c), end)] for each [c] in turn *)
Definition erase_all (confusable filtered : list ascii) : list ascii :=
  fold_left (λ f c, filter (λ d, d ≠ c) f) confusable filtered.

Definition addSet (config : PasswordConfig) (chars : string) (confusable : option string)
    (enabled : bool) (sets : CharacterSets) : CharacterSets :=
  if negb enabled then sets
  else
    let filtered := match confusable with
                    | Some cs => if exclude_similar_ config then erase_all (bytes cs) (bytes chars)
                                 else bytes chars
                    | None => bytes chars
                    end in
    {| pool_ := pool_ sets ++ filtered;
       required_chars_ := match filtered with
                          | [] => required_chars_ sets
                          | _ => required_chars_ sets ++ [filtered]
                          end |}.

Definition build_character_sets (config : PasswordConfig) : CharacterSets :=
  let sets := {| pool_ := []; required_chars_ := [] |} in
  let sets := addSet config UPPERCASE (Some CONFUSING_UPPER) (uppercase_ config) sets in
  let sets := addSet config LOWERCASE (Some CONFUSING_LOWER) (lowercase_ config) sets in
  let sets := addSet config DIGITS (Some CONFUSING_DIGITS) (digits_ config) sets in
  addSet config SYMBOLS None (symbols_ config) sets.

Definition calculate_entropy `{Libm} (password : list ascii) (pool_size : Z) : double :=
  match password with
  | [] => double_of_Z 0
  | _ => if pool_size =? 0 then double_of_Z 0
         else dmul (double_of_Z (Z.of_nat (length password))) (log2 pool_size)
  end.

Definition get_strength_rating (entropy : double) : string :=
  if dltb entropy (double_of_Z 28) then "very_weak"
  else if dltb entropy (double_of_Z 36) then "weak"
  else if dltb entropy (double_of_Z 60) then "fair"
  else if dltb entropy (double_of_Z 80) then "strong"
  else "very_strong".

(** The result, and [error_message] after the call. *)
Definition validate_config (config : PasswordConfig) (error_message : string) : bool * string :=
  if length_ config <? 8 then (false, "Password length must be at least 8 characters")
  else if 128 <? length_ config then (false, "Password length must not exceed 128 characters")
  else if negb (uppercase_ config) && negb (lowercase_ config) && negb (digits_ config)
            && negb (symbols_ config)
       then (false, "At least one character type must be enabled")
       else (true, error_message).

Section Generate.
Context {G : Type} `{Rng G, Libm}.

(** [password += pool[dist(gen)]], [n] times *)
Fixpoint draw_loop (n : nat) (pool password : list ascii) (gen : G) : exec (list ascii * G) :=
  match n with
  | O => Ret (password, gen)
  | S n' =>
      let '(i, gen) := uniform (length pool - 1) gen in
      c ← deref (pool !! i);
      draw_loop n' pool (password ++ [c]) gen
  end.

(** [password[pos] = c] *)
Definition put_char (pos : nat) (c : ascii) (password : list ascii) : exec (list ascii) :=
  if decide (pos < length password)%nat then Ret (<[pos := c]> password) else Undefined.

(** One character of each required set, at a position drawn for it.  In the
    assignment the right-hand side is evaluated after [pos] is drawn. *)
Fixpoint required_loop (max_pos : nat) (sets : list (list ascii)) (password : list ascii) (gen : G) :
    exec (list ascii * G) :=
  match sets with
  | [] => Ret (password, gen)
  | char_set :: sets' =>
      match char_set with
      | [] => required_loop max_pos sets' password gen
      | _ =>
          let '(pos, gen) := uniform max_pos gen in
          let '(i, gen) := uniform (length char_set - 1) gen in
          c ← deref (char_set !! i);
          password ← put_char pos c password;
          required_loop max_pos sets' password gen
      end
  end.

Definition generate (config : PasswordConfig) (gen : G) : exec (PasswordResult * G) :=
  let '(valid, error_message) := validate_config config "" in
  if negb valid then Throw (invalid_argument error_message)
  else
    let sets := build_character_sets config in
    match pool_ sets with
    | [] => Throw (invalid_argument "Character pool is empty")
    | pool =>
        '(password, gen) ← draw_loop (Z.to_nat (length_ config)) pool [] gen;
        '(password, gen) ← required_loop (Z.to_nat (length_ config - 1)) (required_chars_ sets) password gen;
        let '(password, gen) := shuffle password gen in
        let entropy := calculate_entropy password (Z.of_nat (length pool)) in
        Ret ({| password_ := str password; result_length_ := Z.of_nat (length password);
                entropy_ := entropy; strength_ := get_strength_rating entropy |}, gen)
    end.

Fixpoint batch_loop (n : nat) (config : PasswordConfig) (results : list PasswordResult) (gen : G) :
    exec (list PasswordResult * G) :=
  match n with
  | O => Ret (results, gen)
  | S n' =>
      '(r, gen) ← generate config gen;
      batch_loop n' config (results ++ [r]) gen
  end.

Definition generate_batch (config : PasswordConfig) (count : Z) (gen : G) :
    exec (list PasswordResult * G) :=
  if count <=? 0 then Throw (invalid_argument "Count must be positive")
  else batch_loop (Z.to_nat count) config [] gen.
End Generate.

(** ** What a password must look like *)

Definition in_range (lo hi : Z) (c : ascii) : bool := (lo <=? code c) && (code c <=? hi).

(** The characters a configuration allows: those of the enabled classes, less
    the confusing ones where these are excluded. *)
Definition allowed (config : PasswordConfig) (c : ascii) : bool :=
  (uppercase_ config && in_range 65 90 c || lowercase_ config && in_range 97 122 c
   || digits_ config && is_digit c || symbols_ config && bool_decide (c ∈ bytes SYMBOLS))
  && negb (exclude_similar_ config && bool_decide (c ∈ bytes "IOilo01")).

(** The last of the enabled classes. *)
Definition last_class (config : PasswordConfig) (c : ascii) : bool :=
  if symbols_ config then bool_decide (c ∈ bytes SYMBOLS)
  else if digits_ config then is_digit c
  else if lowercase_ config then in_range 97 122 c
  else in_range 65 90 c.

Definition good_result `{Libm} (config : PasswordConfig) (r : PasswordResult) : Prop :=
  size (password_ r) = length_ config ∧ result_length_ r = length_ config ∧
  Forall (λ c, allowed config c = true) (bytes (password_ r)) ∧
  Exists (λ c, last_class config c = true) (bytes (password_ r)) ∧
  entropy_ r = dmul (double_of_Z (length_ config))
                    (log2 (Z.of_nat (length (pool_ (build_character_sets config))))) ∧
  strength_ r = get_strength_rating (entropy_ r).

(** Every byte. *)
Definition all_bytes : list ascii := ascii_of_nat <$> seq 0 256.

(** An engine that always draws 0 and never moves anything; the C++ standard
    allows every sequence of draws. *)
Definition zero_rng : Rng unit := {| uniform _ g := (0%nat, g); shuffle l g := (l, g) |}.

Definition sample_libm : Libm := λ z, double_of_Z (Z.log2 z).

(** ** Lemmas *)
Lemma all_bytes_complete c : c ∈ all_bytes.
Proof.
  apply list_elem_of_fmap. exists (nat_of_ascii c). split; [by rewrite ascii_nat_embedding|].
  apply elem_of_seq. pose proof (nat_ascii_bounded c). lia.
Qed.

Lemma byte_check (f : ascii → bool) : forallb f all_bytes = true → ∀ c, f c = true.
Proof.
  rewrite forallb_forall. intros H c. apply H, list_elem_of_In, all_bytes_complete.
Qed.

Lemma pool_allowed config c :
  c ∈ pool_ (build_character_sets config) ↔ allowed config c = true.
Proof.
  rewrite <-(bool_decide_eq_true (c ∈ _)), <-Bool.eq_iff_eq_true. revert c.
  assert (Hc : ∀ f g : ascii → bool, forallb (λ c, Bool.eqb (f c) (g c)) all_bytes = true →
    ∀ c, f c = g c).
  { intros f g Hfg c. by apply Bool.eqb_prop, (byte_check (λ c, Bool.eqb (f c) (g c))). }
  apply Hc. destruct config as [n [] [] [] [] []]; vm_compute; reflexivity.
Qed.

(** The sets are non-empty, made of allowed characters, and end with the last
    enabled class: a check of the 32 combinations of flags. *)
Definition sets_check (config : PasswordConfig) : bool :=
  let req := required_chars_ (build_character_sets config) in
  forallb (λ cls, negb (bool_decide (cls = [])) && forallb (allowed config) cls) req
  && negb (bool_decide (req = [])) && forallb (last_class config) (List.last req []).

Lemma sets_check_ok config :
  uppercase_ config || lowercase_ config || digits_ config || symbols_ config = true →
  sets_check config = true.
Proof. destruct config as [n [] [] [] [] []]; intros H; try discriminate H; vm_compute; reflexivity. Qed.

Lemma forallb_Forall {A} (f : A → bool) (l : list A) :
  forallb f l = true ↔ Forall (λ x, f x = true) l.
Proof. by rewrite forallb_forall, List.Forall_forall. Qed.

Lemma required_sets config :
  uppercase_ config || lowercase_ config || digits_ config || symbols_ config = true →
  let req := required_chars_ (build_character_sets config) in
  Forall (λ cls, cls ≠ [] ∧ Forall (λ c, allowed config c = true) cls) req ∧
  ∃ rest cls, req = rest ++ [cls] ∧ Forall (λ c, last_class config c = true) cls.
Proof.
  intros Hen req. apply sets_check_ok in Hen. unfold sets_check in Hen. fold req in Hen.
  rewrite !andb_true_iff in Hen. destruct Hen as [[H1 H2] H3]. split.
  - apply forallb_Forall in H1. eapply Forall_impl; [exact H1|]. intros cls Hc. simpl in Hc.
    rewrite andb_true_iff, negb_true_iff, bool_decide_eq_false in Hc. destruct Hc as [Hne Ha].
    split; [done|by apply forallb_Forall].
  - rewrite negb_true_iff, bool_decide_eq_false in H2.
    exists (removelast req), (List.last req []). split; [by apply app_removelast_last|].
    by apply forallb_Forall.
Qed.

Lemma validate_config_true config e :
  (validate_config config e).1 = true →
  8 ≤ length_ config ≤ 128 ∧
  uppercase_ config || lowercase_ config || digits_ config || symbols_ config = true.
Proof.
  unfold validate_config.
  destruct (Z.ltb_spec (length_ config) 8); [done|].
  destruct (Z.ltb_spec 128 (length_ config)); [done|].
  destruct (uppercase_ config), (lowercase_ config), (digits_ config), (symbols_ config); done.
Qed.

Section GenerateFacts.
Context {G : Type} `{RL : RngLaws G} `{Libm}.

Lemma uniform_lookup (l : list ascii) (g : G) :
  l ≠ [] → ∃ c, l !! (uniform (length l - 1) g).1 = Some c ∧ c ∈ l.
Proof.
  intros Hl. destruct (lookup_lt_is_Some_2 l (uniform (length l - 1) g).1) as [c Hc].
  - pose proof (uniform_range (length l - 1) g). destruct l; [done|simpl in *; lia].
  - exists c. split; [done|]. by eapply list_elem_of_lookup_2.
Qed.

Lemma draw_loop_ok n (pool password : list ascii) (g : G) :
  pool ≠ [] →
  ∃ p g', draw_loop n pool password g = Ret (password ++ p, g') ∧ length p = n ∧
    Forall (λ c, c ∈ pool) p.
Proof.
  intros Hp. revert password g. induction n as [|n IH]; intros password g.
  - exists [], g. by rewrite app_nil_r.
  - simpl. destruct (uniform_lookup pool g Hp) as (c & Hc & Hin).
    destruct (uniform (length pool - 1) g) as [i g1]. simpl in Hc. rewrite Hc. simpl.
    destruct (IH (password ++ [c]) g1) as (p & g' & -> & Hl & Hf).
    exists (c :: p), g'. rewrite <-app_assoc. simpl. auto.
Qed.

(** One round of the loop over the required sets. *)
Lemma required_step max_pos (cls : list ascii) sets (password : list ascii) (g : G) :
  cls ≠ [] → length password = S max_pos →
  ∃ pos c g', required_loop max_pos (cls :: sets) password g =
      required_loop max_pos sets (<[pos := c]> password) g' ∧
    (pos < length password)%nat ∧ c ∈ cls.
Proof.
  intros Hne Hlen. destruct cls as [|d cls]; [done|].
  pose proof (uniform_range max_pos g) as Hpos.
  cbn [required_loop]. destruct (uniform max_pos g) as [pos g1]. simpl in Hpos.
  destruct (uniform_lookup (d :: cls) g1 Hne) as (c & Hc & Hin).
  destruct (uniform (length (d :: cls) - 1) g1) as [i g2]. cbn [fst] in Hc. rewrite Hc.
  cbn [deref mbind exec_bind]. unfold put_char. rewrite decide_True by lia. cbn [mbind exec_bind].
  exists pos, c, g2. split_and!; [done|lia|done].
Qed.

Lemma required_loop_ok (P : ascii → Prop) max_pos sets (password : list ascii) (g : G) :
  Forall (λ cls, cls ≠ [] ∧ Forall P cls) sets → length password = S max_pos → Forall P password →
  ∃ p g', required_loop max_pos sets password g = Ret (p, g') ∧ length p = length password ∧
    Forall P p ∧ (∀ rest cls, sets = rest ++ [cls] → Exists (λ c, c ∈ cls) p).
Proof.
  intros Hs. revert password g. induction Hs as [|cls sets [Hne HP] _ IH]; intros password g Hlen Hpw.
  - exists password, g. split_and!; [done..|]. by intros [] ?.
  - destruct (required_step max_pos cls sets password g Hne Hlen) as (pos & c & g1 & -> & Hpos & Hc).
    destruct (IH (<[pos := c]> password) g1) as (p & g' & Hr & Hl & Hp & Hlast).
    + by rewrite length_insert.
    + apply Forall_insert; [done|]. rewrite Forall_forall in HP. by apply HP.
    + rewrite length_insert in Hl. exists p, g'. split_and!; [done..|].
      intros rest cls' Heq. destruct rest as [|x rest]; simplify_eq/=; [|by eapply Hlast].
      simplify_eq. apply Exists_exists. exists c. split; [|done].
      by apply list_elem_of_insert.
Qed.

Lemma calculate_entropy_eq (password : list ascii) pool_size :
  password ≠ [] → pool_size ≠ 0 →
  calculate_entropy password pool_size = dmul (double_of_Z (Z.of_nat (length password))) (log2 pool_size).
Proof.
  intros Hp Hs. unfold calculate_entropy. destruct password; [done|].
  by rewrite (proj2 (Z.eqb_neq _ _) Hs).
Qed.

Lemma generate_ok config (g : G) :
  (validate_config config "").1 = true →
  ∃ r g', generate config g = Ret (r, g') ∧ good_result config r.
Proof.
  intros Hv. destruct (validate_config_true _ _ Hv) as [Hlen Hen].
  destruct (required_sets config Hen) as (Hreq & rest & cls & Hlast & Hcls).
  unfold generate. destruct (validate_config config "") as [b e]. simpl in Hv. subst b. cbn [negb].
  destruct (pool_ (build_character_sets config)) as [|d pool'] eqn:Hpool.
  { exfalso. destruct cls as [|c cls].
    - rewrite Hlast, Forall_app, Forall_cons in Hreq. tauto.
    - rewrite Hlast, Forall_app, Forall_cons in Hreq.
      destruct Hreq as (_ & (_ & [Hc _]%Forall_cons) & _). apply pool_allowed in Hc.
      rewrite Hpool in Hc. by apply elem_of_nil in Hc. }
  set (pool := d :: pool') in *.
  destruct (draw_loop_ok (Z.to_nat (length_ config)) pool [] g) as (p1 & g1 & -> & Hl1 & Hp1); [done|].
  cbn [app mbind exec_bind].
  destruct (required_loop_ok (λ c, allowed config c = true) (Z.to_nat (length_ config - 1))
    (required_chars_ (build_character_sets config)) p1 g1) as (p2 & g2 & -> & Hl2 & Hp2 & Hx2).
  { done. }
  { lia. }
  { eapply Forall_impl; [exact Hp1|]. intros c Hc. apply pool_allowed. by rewrite Hpool. }
  cbn [mbind exec_bind]. pose proof (shuffle_perm p2 g2) as Hperm.
  destruct (shuffle p2 g2) as [p3 g3]. cbn [fst] in Hperm.
  assert (Hl3 : Z.of_nat (length p3) = length_ config).
  { rewrite (Permutation_length Hperm). lia. }
  eexists _, g3. split; [reflexivity|]. unfold good_result. cbn [password_ result_length_ entropy_ strength_].
  unfold size. rewrite bytes_str. split_and!; [done|done|by rewrite Hperm| | |done].
  - rewrite Hperm. specialize (Hx2 rest cls Hlast). eapply Exists_impl; [exact Hx2|].
    intros c Hc. rewrite Forall_forall in Hcls. by apply Hcls.
  - rewrite calculate_entropy_eq, Hl3, Hpool; [done| |simpl; lia].
    intros ->. simpl in Hl3. lia.
Qed.

Lemma batch_loop_ok config n results (g : G) :
  (validate_config config "").1 = true →
  ∃ rs g', batch_loop n config results g = Ret (results ++ rs, g') ∧ length rs = n ∧
    Forall (good_result config) rs.
Proof.
  intros Hv. revert results g. induction n as [|n IH]; intros results g.
  - exists [], g. by rewrite app_nil_r.
  - simpl. destruct (generate_ok config g Hv) as (r & g1 & -> & Hr). simpl.
    destruct (IH (results ++ [r]) g1) as (rs & g' & -> & Hl & Hrs).
    exists (r :: rs), g'. rewrite <-app_assoc. simpl. auto.
Qed.
End GenerateFacts.

(** ** Properties *)

(** C28: [generate] never reads or writes out of range and always ends, with
    any engine the standard allows.  An invalid configuration is refused by an
    exception with the message of [validate_config]; a valid one gives a
    password of the configured length, made only of the characters the
    configuration allows (none of the confusing ones if they are excluded),
    with a character of the last enabled class, and the entropy and rating
    that belong to the length and the size of the pool. *)
Theorem generate_correct `{RL : RngLaws G} `{Libm} (config : PasswordConfig) (g : G) :
  let '(valid, message) := validate_config config "" in
  if valid then ∃ r g', generate config g = Ret (r, g') ∧ good_result config r
  else generate config g = Throw (invalid_argument message).
Proof.
  destruct (validate_config config "") as [[] message] eqn:Hv.
  - apply generate_ok. by rewrite Hv.
  - unfold generate. by rewrite Hv.
Qed.

(** [generate_batch] returns exactly as many passwords as asked for, each
    of them correct, and throws for a count that is not positive. *)
Theorem generate_batch_correct `{RL : RngLaws G} `{Libm} (config : PasswordConfig) (count : Z) (g : G) :
  (validate_config config "").1 = true →
  if count <=? 0 then generate_batch config count g = Throw (invalid_argument "Count must be positive")
  else ∃ rs g', generate_batch config count g = Ret (rs, g') ∧
    Z.of_nat (length rs) = count ∧ Forall (good_result config) rs.
Proof.
  intros Hv. unfold generate_batch. destruct (Z.leb_spec count 0); [done|].
  destruct (batch_loop_ok config (Z.to_nat count) [] g Hv) as (rs & g' & Hr & Hl & Hf).
  exists rs, g'. split_and!; [done|lia|done].
Qed.

(** With every class enabled, a password need not contain them all: the
    positions of the required characters are drawn independently and a later
    one can overwrite an earlier one. *)
Theorem required_class_can_be_lost :
  @RngLaws unit zero_rng ∧
  ∃ r, @generate unit zero_rng sample_libm default_config tt = Ret (r, tt) ∧
    Forall (λ c, is_digit c = false) (bytes (password_ r)).
Proof.
  split; [split; simpl; [lia|done]|].
  eexists. split; [vm_compute; reflexivity|]. vm_compute. repeat constructor.
Qed.

(** ** Witnesses *)
Lemma generate_batch_correct_witness :
  ∃ rs g', @generate_batch unit zero_rng sample_libm default_config 3 tt = Ret (rs, g') ∧
    Z.of_nat (length rs) = 3 ∧ Forall (@good_result sample_libm default_config) rs.
Proof.
  assert (RL : @RngLaws unit zero_rng) by (split; simpl; [lia|done]).
  exact (@generate_batch_correct unit zero_rng RL sample_libm default_config 3 tt eq_refl).
Defined.

Lemma generate_correct_witness :
  ∃ r g', @generate unit zero_rng sample_libm default_config tt = Ret (r, g') ∧
    @good_result sample_libm default_config r.
Proof.
  assert (RL : @RngLaws unit zero_rng) by (split; simpl; [lia|done]).
  exact (@generate_correct unit zero_rng RL sample_libm default_config tt).
Defined.
