(* ===== verification/Paths.v ===== *)
(** * The operating system's side: files, environment, default paths
    (src/src/paths.h, paths.cpp)

    A [std::filesystem::path] is its text.  The file system and the
    environment are not the program's: [FileSystem] lists the uses the program
    makes of the first, [FileSystemLaws] what it may expect of them. *)
From Stdlib Require Import ZArith Lia Ascii String.
From S2P Require Import Prelude CppString.
#[local] Open Scope Z_scope.

Class FileSystem (F : Type) := {
  fs_exists : string → F → exec bool;            (* std::filesystem::exists, which throws *)
  fs_read : string → F → option string;          (* an ifstream: its content, if it opens *)
  fs_open_write : string → F → option F;         (* an ofstream: truncates, if it opens *)
  fs_append : string → string → F → F;           (* stream << text, of an open ofstream *)
  fs_create_directories : string → F → bool * F  (* create_directories(dir, ec): !ec *)
}.

(** The path can be examined: [exists] does not throw (as it does for a
    directory that may not be searched, or a name that is too long). *)
Definition examinable {F} `{FileSystem F} (path : string) (f : F) : Prop := ∃ there, fs_exists path f = Ret there.

Class FileSystemLaws (F : Type) `{!FileSystem F} : Prop := {
  fs_exists_safe p (f : F) : safe (fs_exists p f);
  fs_open_read p (f f' : F) : fs_open_write p f = Some f' → fs_read p f' = Some "";
  fs_open_exists p (f f' : F) : fs_open_write p f = Some f' → fs_exists p f' = Ret true;
  fs_open_examinable p q (f f' : F) : fs_open_write p f = Some f' → examinable q f → examinable q f';
  fs_append_read p t s (f : F) : fs_read p f = Some s → fs_read p (fs_append p t f) = Some (s +:+ t);
  fs_append_exists p t (f : F) : fs_exists p (fs_append p t f) = fs_exists p f;
  fs_append_examinable p q t (f : F) : examinable q f → examinable q (fs_append p t f)
}.

Class Environment := {
  env_HOME : option string;          (* getenv("HOME") *)
  passwd_dir : option string         (* getpwuid(getuid())->pw_dir *)
}.

(** ** [std::filesystem::path] *)
Definition slash : ascii := "/"%char.

(** [p / q]: an absolute [q] replaces [p]; a separator is added if [p] ends
    with a file name. *)
Definition path_append (p q : string) : string :=
  if starts_with "/" q then q
  else match last (bytes p) with
       | Some c => if decide (c = slash) then p +:+ q else p +:+ "/" +:+ q
       | None => q
       end.

Fixpoint drop_name (l : list ascii) : list ascii :=
  match l with c :: l' => if decide (c = slash) then l else drop_name l' | [] => [] end.
Fixpoint drop_slashes (l : list ascii) : list ascii :=
  match l with c :: l' => if decide (c = slash) then drop_slashes l' else l | [] => [] end.

(** [p.parent_path()]: without the file name and the separators before it,
    except for the root directory. *)
Definition parent_path (p : string) : string :=
  let dir := drop_name (rev (bytes p)) in
  match drop_slashes dir, dir with
  | [], _ :: _ => "/"
  | dir', _ => str (rev dir')
  end.

Module paths.
Section paths.
Context `{Environment}.

Definition APP_DIR : string := "ip_local".

Definition get_home : string :=
  match env_HOME with
  | Some home => home
  | None => match passwd_dir with Some dir => dir | None => "/tmp" end
  end.

Definition base_dir : string := path_append (path_append get_home ".config") APP_DIR.
Definition config_file : string := path_append base_dir "config.json".
Definition database_dir : string := path_append base_dir "databases".
Definition city_db_path : string := path_append database_dir "GeoLite2-City.mmdb".
Definition asn_db_path : string := path_append database_dir "GeoLite2-ASN.mmdb".
Definition oui_db_path : string := path_append database_dir "master_oui.db".
Definition log_file_path : string := path_append (path_append base_dir "logs") "ip_server.log".

Fixpoint create_all {F} `{FileSystem F} (dirs : list string) (fs : F) : F :=
  match dirs with
  | [] => fs
  | dir :: dirs' => create_all dirs' (fs_create_directories dir fs).2
  end.

Definition ensure_directories {F} `{FileSystem F} (fs : F) : F :=
  create_all [base_dir; database_dir; parent_path log_file_path] fs.
End paths.
End paths.

(** ** A file system for the concrete examples: a map of files, all writable *)
Definition map_fs : FileSystem (gmap string string) := {|
  fs_exists p f := Ret (bool_decide (is_Some (f !! p)));
  fs_read p f := f !! p;
  fs_open_write p f := Some (<[p := ""]> f);
  fs_append p t f := alter (λ s, s +:+ t) p f;
  fs_create_directories _ f := (true, f)
|}.

(** The same with a directory that may not be searched. *)
Definition locked : string → bool := starts_with "/locked/".
Definition locked_fs : FileSystem (gmap string string) := {|
  fs_exists p f := if locked p then Throw (other_exception "permission denied") else fs_exists (FileSystem := map_fs) p f;
  fs_read p f := if locked p then None else f !! p;
  fs_open_write p f := if locked p then None else Some (<[p := ""]> f);
  fs_append p t f := alter (λ s, s +:+ t) p f;
  fs_create_directories p f := (negb (locked p), f)
|}.

Definition sample_env : Environment := {| env_HOME := Some "/root"; passwd_dir := None |}.

(** ** Lemmas *)
Lemma map_fs_laws : @FileSystemLaws _ map_fs.
Proof.
  split; simpl.
  - done.
  - intros p f f' [= <-]. apply lookup_insert_eq.
  - intros p f f' [= <-]. rewrite lookup_insert_eq. reflexivity.
  - by eexists.
  - intros p t s f Hf. by rewrite lookup_alter_eq, Hf.
  - intros p t f. f_equal. apply bool_decide_ext. rewrite lookup_alter_eq. destruct (f !! p); simpl.
    + split; eauto.
    + done.
  - by eexists.
Qed.

Lemma locked_fs_laws : @FileSystemLaws _ locked_fs.
Proof.
  destruct map_fs_laws as [_ M1 M2 _ M3 M4 _]. unfold examinable in *. split; simpl; unfold examinable; simpl.
  - intros p f. by destruct (locked p).
  - intros p f f'. destruct (locked p); [done|]. apply M1.
  - intros p f f'. destruct (locked p); [done|]. apply M2.
  - intros p q f f' _. destruct (locked q); [done|by eexists].
  - intros p t s f. destruct (locked p); [done|]. apply M3.
  - intros p t f. destruct (locked p); [done|]. apply M4.
  - intros p q t f. destruct (locked q); [done|by eexists].
Qed.

(** A path that ends with a file name. *)
Definition ends_with_name (p : string) : Prop := ∃ c, last (bytes p) = Some c ∧ c ≠ slash.

Lemma path_append_name p q :
  ends_with_name p → starts_with "/" q = false → ends_with_name q →
  path_append p q = p +:+ "/" +:+ q ∧ ends_with_name (path_append p q).
Proof.
  intros (c & Hc & Hne) Hq (d & Hd & Hdne).
  assert (He : path_append p q = p +:+ "/" +:+ q).
  { unfold path_append. rewrite Hq, Hc. by rewrite decide_False. }
  split; [done|]. rewrite He. exists d. split; [|done].
  by rewrite !bytes_app, !last_app, Hd.
Qed.

Lemma drop_name_app m l : slash ∉ m → drop_name (m ++ slash :: l) = slash :: l.
Proof.
  intros Hm. induction m as [|c m IH]; [done|]. apply not_elem_of_cons in Hm as [Hc Hm].
  simpl. rewrite decide_False by congruence. by apply IH.
Qed.

(** The parent of [p / name] is [p]. *)
Lemma parent_path_append p name :
  ends_with_name p → slash ∉ bytes name → parent_path (p +:+ "/" +:+ name) = p.
Proof.
  intros (c & Hc & Hne) Hn. unfold parent_path.
  rewrite !bytes_app, !rev_app_distr. change (rev (bytes "/")) with [slash].
  rewrite <-app_assoc. cbn [app]. rewrite drop_name_app.
  - apply last_Some in Hc as [l Hl]. rewrite Hl, rev_app_distr. simpl.
    rewrite decide_False by done.
    rewrite <-(str_bytes p), Hl. simpl. by rewrite rev_involutive.
  - intros Hin. apply Hn. apply list_elem_of_In. apply list_elem_of_In in Hin. by apply in_rev.
Qed.

(** ** Properties *)

(** Under a home directory that ends with a name, every default path is
    the documented one below [$HOME/.config/ip_local], and the directory
    created for the log file is the one that holds it. *)
Theorem default_paths_layout `{Environment} :
  ends_with_name paths.get_home →
  let base := paths.get_home +:+ "/.config/ip_local" in
  paths.base_dir = base ∧
  paths.config_file = base +:+ "/config.json" ∧
  paths.city_db_path = base +:+ "/databases/GeoLite2-City.mmdb" ∧
  paths.asn_db_path = base +:+ "/databases/GeoLite2-ASN.mmdb" ∧
  paths.oui_db_path = base +:+ "/databases/master_oui.db" ∧
  paths.log_file_path = base +:+ "/logs/ip_server.log" ∧
  parent_path paths.log_file_path = base +:+ "/logs".
Proof.
  intros Hh base.
  destruct (path_append_name paths.get_home ".config" Hh) as [H1 E1]; [done|by eexists|].
  destruct (path_append_name _ paths.APP_DIR E1) as [H2 E2]; [done|by eexists|].
  assert (Hb : paths.base_dir = base).
  { unfold paths.base_dir. rewrite H2, H1, !append_assoc. done. }
  fold paths.base_dir in E2. rewrite Hb in E2.
  destruct (path_append_name _ "databases" E2) as [H3 E3]; [done|by eexists|].
  destruct (path_append_name _ "logs" E2) as [H4 E4]; [done|by eexists|].
  unfold paths.config_file, paths.city_db_path, paths.asn_db_path, paths.oui_db_path,
    paths.log_file_path, paths.database_dir. rewrite Hb.
  split_and!.
  - done.
  - apply path_append_name; [done|done|by eexists].
  - rewrite (proj1 (path_append_name _ "GeoLite2-City.mmdb" E3 eq_refl ltac:(by eexists))), H3.
    by rewrite !append_assoc.
  - rewrite (proj1 (path_append_name _ "GeoLite2-ASN.mmdb" E3 eq_refl ltac:(by eexists))), H3.
    by rewrite !append_assoc.
  - rewrite (proj1 (path_append_name _ "master_oui.db" E3 eq_refl ltac:(by eexists))), H3.
    by rewrite !append_assoc.
  - rewrite (proj1 (path_append_name _ "ip_server.log" E4 eq_refl ltac:(by eexists))), H4.
    by rewrite !append_assoc.
  - rewrite (proj1 (path_append_name _ "ip_server.log" E4 eq_refl ltac:(by eexists))).
    rewrite parent_path_append; [exact H4|done|].
    by apply (bool_decide_unpack (slash ∉ bytes "ip_server.log")); vm_compute.
Qed.

Lemma default_paths_layout_witness :
  @paths.oui_db_path sample_env = "/root/.config/ip_local/databases/master_oui.db".
Proof.
  assert (Hh : ends_with_name (@paths.get_home sample_env)) by by eexists.
  destruct (@default_paths_layout sample_env Hh) as (_ & _ & _ & _ & H & _). exact H.
Defined.
