(* ===== verification/Config.v ===== *)
(** * Configuration (src/src/config.h, config.cpp)

    [ServerConfig] and its defaults, the readers of the JSON file and of the
    command line, their composition in [ConfigParser::parse], and [validate].
    Log messages are left out, except [log_config], whose whole effect they
    are.  [from_json] and [apply_cli_overrides] work on a local object that is
    thrown away when they throw, so they return the object they would leave.
    cxxopts is a parameter: [options_parse] gives the parsed command line. *)
From Stdlib Require Import ZArith Lia Ascii String.
From S2P Require Import Prelude StdList Double Json CppString Validation Paths.
#[local] Open Scope Z_scope.

Module config_limits.
Definition MIN_PORT : Z := 1.
Definition MAX_PORT : Z := 65535.
Definition MIN_THREAD_POOL : Z := 1.
Definition MAX_THREAD_POOL : Z := 64.
Definition MIN_RATE_LIMIT : Z := 1.
Definition MAX_RATE_LIMIT : Z := 10000.
Definition MIN_BATCH_SIZE : Z := 1.
Definition MAX_BATCH_SIZE : Z := 1000.
Definition MIN_LOG_FILE_SIZE : Z := 1 * 1024 * 1024.
Definition MAX_LOG_FILE_SIZE : Z := 1 * 1024 * 1024 * 1024.
Definition MIN_BACKUP_FILES : Z := 0.
Definition MAX_BACKUP_FILES : Z := 100.
End config_limits.

Record ServerConfig := {
  host_ : string;
  port_ : Z;                       (* uint16_t *)
  city_db_path_ : string;
  asn_db_path_ : string;
  oui_db_path_ : string;
  thread_pool_size_ : Z;           (* int *)
  config_file_ : string;
  enable_rate_limiter_ : bool;
  max_requests_per_minute_ : Z;    (* int *)
  max_batch_size_ : Z;             (* int *)
  enable_api_auth_ : bool;
  api_keys_file_ : string;
  default_api_key_ : string;
  enable_file_logging_ : bool;
  log_file_path_ : string;
  log_rotation_type_ : string;
  log_max_file_size_ : Z;          (* size_t *)
  log_max_backup_files_ : Z;       (* int *)
  log_enable_stdout_ : bool;
  log_level_ : string
}.

(** [ServerConfig{}] *)
Definition default_server_config : ServerConfig := {|
  host_ := "0.0.0.0"; port_ := 8080; city_db_path_ := ""; asn_db_path_ := ""; oui_db_path_ := "";
  thread_pool_size_ := 4; config_file_ := ""; enable_rate_limiter_ := true;
  max_requests_per_minute_ := 100; max_batch_size_ := 100; enable_api_auth_ := false;
  api_keys_file_ := ""; default_api_key_ := ""; enable_file_logging_ := false;
  log_file_path_ := "logs/ip_server.log"; log_rotation_type_ := "size";
  log_max_file_size_ := 10 * 1024 * 1024; log_max_backup_files_ := 5; log_enable_stdout_ := true;
  log_level_ := "info"
|}.

(** The fields are those the C++ types can hold. *)
Definition config_typed (c : ServerConfig) : Prop :=
  0 ≤ port_ c < 65536 ∧ is_i32 (thread_pool_size_ c) ∧ is_i32 (max_requests_per_minute_ c) ∧
  is_i32 (max_batch_size_ c) ∧ is_u64 (log_max_file_size_ c) ∧ is_i32 (log_max_backup_files_ c).

Definition with_paths (city asn oui file log : string) (c : ServerConfig) : ServerConfig := {|
  host_ := host_ c; port_ := port_ c; city_db_path_ := city; asn_db_path_ := asn; oui_db_path_ := oui;
  thread_pool_size_ := thread_pool_size_ c; config_file_ := file;
  enable_rate_limiter_ := enable_rate_limiter_ c;
  max_requests_per_minute_ := max_requests_per_minute_ c; max_batch_size_ := max_batch_size_ c;
  enable_api_auth_ := enable_api_auth_ c; api_keys_file_ := api_keys_file_ c;
  default_api_key_ := default_api_key_ c; enable_file_logging_ := enable_file_logging_ c;
  log_file_path_ := log; log_rotation_type_ := log_rotation_type_ c;
  log_max_file_size_ := log_max_file_size_ c; log_max_backup_files_ := log_max_backup_files_ c;
  log_enable_stdout_ := log_enable_stdout_ c; log_level_ := log_level_ c
|}.

Definition with_config_file (file : string) (c : ServerConfig) : ServerConfig :=
  with_paths (city_db_path_ c) (asn_db_path_ c) (oui_db_path_ c) file (log_file_path_ c) c.

Definition applyDefaultPaths `{Environment} (c : ServerConfig) : ServerConfig :=
  with_paths paths.city_db_path paths.asn_db_path paths.oui_db_path paths.config_file
    paths.log_file_path c.

(** ** The command line *)

(** [cxxopts::ParseResult]: what it contains, and [as<T>]. *)
Record ParseResult := {
  contains : string → bool;
  as_string : string → exec string;
  as_u16 : string → exec Z;
  as_int : string → exec Z;
  as_size : string → exec Z
}.

Inductive value_type := flag_value | string_value | u16_value | int_value | size_value.

Record option_spec := {
  opt_name : string;
  opt_help : string;
  opt_type : value_type;
  opt_default : option string
}.

Definition create_option_parser : list option_spec := [
  Build_option_spec "help,h" "Show this help message" flag_value None;
  Build_option_spec "config" "Path to configuration file" string_value None;
  Build_option_spec "city-db" "Path to City MaxMind database" string_value None;
  Build_option_spec "asn-db" "Path to ASN MaxMind database" string_value None;
  Build_option_spec "oui-db" "Path to OUI database" string_value None;
  Build_option_spec "host" "Server host address" string_value (Some "0.0.0.0");
  Build_option_spec "port" "Server port" u16_value (Some "8080");
  Build_option_spec "threads" "Thread pool size" int_value (Some "4");
  Build_option_spec "enable-rate-limiter" "Enable rate limiting" string_value (Some "true");
  Build_option_spec "max-requests-per-minute" "Maximum requests per IP per minute" int_value
    (Some "100");
  Build_option_spec "max-batch-size" "Maximum batch size for batch lookup" int_value (Some "100");
  Build_option_spec "enable-api-auth" "Enable API authentication" string_value (Some "false");
  Build_option_spec "api-keys-file" "Path to file containing API keys" string_value None;
  Build_option_spec "default-api-key" "Default API key for testing" string_value None;
  Build_option_spec "enable-file-logging" "Enable file logging" string_value (Some "false");
  Build_option_spec "log-file" "Path to log file" string_value None;
  Build_option_spec "log-enable-stdout" "Enable stdout logging" string_value (Some "true");
  Build_option_spec "log-rotation" "Log rotation type: none or size" string_value (Some "size");
  Build_option_spec "log-max-size" "Maximum log file size in MB" size_value (Some "10");
  Build_option_spec "log-max-backups" "Maximum number of backup log files" int_value (Some "5");
  Build_option_spec "log-level" "Log level: debug, info, warn, error" string_value (Some "info")
].

(** [options.parse(argc, argv)] of the parser with the given options *)
Class Options := options_parse : list option_spec → list string → exec ParseResult.

(** What [as<T>] returns is a value of the type asked for. *)
Record result_typed (r : ParseResult) : Prop := {
  typed_u16 key z : as_u16 r key = Ret z → 0 ≤ z < 65536;
  typed_int key z : as_int r key = Ret z → is_i32 z;
  typed_size key z : as_size r key = Ret z → is_u64 z
}.

Class OptionsLaws `{!Options} : Prop :=
  options_typed specs argv r : options_parse specs argv = Ret r → result_typed r.

Definition set_opt {A} (r : ParseResult) (key : string) (get : string → exec A) (field : A) : exec A :=
  if contains r key then get key else Ret field.

Definition set_flag (r : ParseResult) (key : string) (field : bool) : exec bool :=
  if contains r key then parseBoolString <$> as_string r key else Ret field.

Definition apply_cli_overrides (r : ParseResult) (c : ServerConfig) : exec ServerConfig :=
  host ← set_opt r "host" (as_string r) (host_ c);
  port ← set_opt r "port" (as_u16 r) (port_ c);
  threads ← set_opt r "threads" (as_int r) (thread_pool_size_ c);
  city ← set_opt r "city-db" (as_string r) (city_db_path_ c);
  asn ← set_opt r "asn-db" (as_string r) (asn_db_path_ c);
  oui ← set_opt r "oui-db" (as_string r) (oui_db_path_ c);
  limiter ← set_flag r "enable-rate-limiter" (enable_rate_limiter_ c);
  requests ← set_opt r "max-requests-per-minute" (as_int r) (max_requests_per_minute_ c);
  batch ← set_opt r "max-batch-size" (as_int r) (max_batch_size_ c);
  auth ← set_flag r "enable-api-auth" (enable_api_auth_ c);
  keys ← set_opt r "api-keys-file" (as_string r) (api_keys_file_ c);
  default_key ← set_opt r "default-api-key" (as_string r) (default_api_key_ c);
  file_logging ← set_flag r "enable-file-logging" (enable_file_logging_ c);
  log_file ← set_opt r "log-file" (as_string r) (log_file_path_ c);
  let file_logging := if contains r "log-file" then true else file_logging in
  out ← set_flag r "log-enable-stdout" (log_enable_stdout_ c);
  rotation ← set_opt r "log-rotation" (as_string r) (log_rotation_type_ c);
  max_size ← (if contains r "log-max-size"
              then (λ n, u64 (n * 1024 * 1024)) <$> as_size r "log-max-size"
              else Ret (log_max_file_size_ c));
  backups ← set_opt r "log-max-backups" (as_int r) (log_max_backup_files_ c);
  level ← set_opt r "log-level" (as_string r) (log_level_ c);
  Ret {| host_ := host; port_ := port; city_db_path_ := city; asn_db_path_ := asn;
         oui_db_path_ := oui; thread_pool_size_ := threads; config_file_ := config_file_ c;
         enable_rate_limiter_ := limiter; max_requests_per_minute_ := requests;
         max_batch_size_ := batch; enable_api_auth_ := auth; api_keys_file_ := keys;
         default_api_key_ := default_key; enable_file_logging_ := file_logging;
         log_file_path_ := log_file; log_rotation_type_ := rotation;
         log_max_file_size_ := max_size; log_max_backup_files_ := backups;
         log_enable_stdout_ := out; log_level_ := level |}.

(** ** The JSON file *)
Section Json.
Context {J : Type} `{JsonOps J}.

(** [j[key].get<std::string>()], if there is such a member *)
Definition readStr (key : string) (field : string) (j : J) : exec string :=
  match json_find key j with
  | Some v => json_get_string v
  | None => Ret field
  end.

(** An integer is converted to the type of the field by [wrap]; the text of a
    string by way of [std::stoll]; any other value is ignored. *)
Definition readInt (wrap : Z → Z) (key : string) (field : Z) (j : J) : exec Z :=
  match json_find key j with
  | Some v =>
      match json_int v, json_string v with
      | Some z, _ => Ret (wrap z)
      | None, Some s => wrap <$> stoll s
      | None, None => Ret field
      end
  | None => Ret field
  end.

Definition readBool (key : string) (field : bool) (j : J) : exec bool :=
  match json_find key j with
  | Some v =>
      match json_bool v, json_string v with
      | Some b, _ => Ret b
      | None, Some s => Ret (parseBoolString s)
      | None, None => Ret field
      end
  | None => Ret field
  end.

(** The size in the file is in megabytes. *)
Definition readMaxSize (field : Z) (j : J) : exec Z :=
  match json_find "log_max_file_size" j with
  | Some v =>
      raw ← match json_int v, json_string v with
            | Some z, _ => Ret (u64 z)
            | None, Some s => stoull s
            | None, None => Ret 0
            end;
      Ret (u64 (raw * 1024 * 1024))
  | None => Ret field
  end.

Definition from_json (c : ServerConfig) (j : J) : exec ServerConfig :=
  host ← readStr "host" (host_ c) j;
  port ← readInt u16 "port" (port_ c) j;
  city ← readStr "city_db" (city_db_path_ c) j;
  asn ← readStr "asn_db" (asn_db_path_ c) j;
  oui ← readStr "oui_db" (oui_db_path_ c) j;
  threads ← readInt i32 "threads" (thread_pool_size_ c) j;
  limiter ← readBool "enable_rate_limiter" (enable_rate_limiter_ c) j;
  requests ← readInt i32 "max_requests_per_minute" (max_requests_per_minute_ c) j;
  batch ← readInt i32 "max_batch_size" (max_batch_size_ c) j;
  auth ← readBool "enable_api_auth" (enable_api_auth_ c) j;
  keys ← readStr "api_keys_file" (api_keys_file_ c) j;
  default_key ← readStr "default_api_key" (default_api_key_ c) j;
  file_logging ← readBool "enable_file_logging" (enable_file_logging_ c) j;
  log_file ← readStr "log_file" (log_file_path_ c) j;
  out ← readBool "log_enable_stdout" (log_enable_stdout_ c) j;
  rotation ← readStr "log_rotation" (log_rotation_type_ c) j;
  level ← readStr "log_level" (log_level_ c) j;
  max_size ← readMaxSize (log_max_file_size_ c) j;
  backups ← readInt i32 "log_max_backup_files" (log_max_backup_files_ c) j;
  Ret {| host_ := host; port_ := port; city_db_path_ := city; asn_db_path_ := asn;
         oui_db_path_ := oui; thread_pool_size_ := threads; config_file_ := config_file_ c;
         enable_rate_limiter_ := limiter; max_requests_per_minute_ := requests;
         max_batch_size_ := batch; enable_api_auth_ := auth; api_keys_file_ := keys;
         default_api_key_ := default_key; enable_file_logging_ := file_logging;
         log_file_path_ := log_file; log_rotation_type_ := rotation;
         log_max_file_size_ := max_size; log_max_backup_files_ := backups;
         log_enable_stdout_ := out; log_level_ := level |}.

(** The members [save_to_file] writes, in its order. *)
Definition config_members (c : ServerConfig) : list (string * J) :=
  [("host", json_of_string (host_ c)); ("port", json_of_int (port_ c));
   ("city_db", json_of_string (city_db_path_ c)); ("asn_db", json_of_string (asn_db_path_ c));
   ("oui_db", json_of_string (oui_db_path_ c)); ("threads", json_of_int (thread_pool_size_ c));
   ("enable_rate_limiter", json_of_bool (enable_rate_limiter_ c));
   ("max_requests_per_minute", json_of_int (max_requests_per_minute_ c));
   ("max_batch_size", json_of_int (max_batch_size_ c));
   ("enable_api_auth", json_of_bool (enable_api_auth_ c));
   ("api_keys_file", json_of_string (api_keys_file_ c))] ++
  (if negb (is_empty (default_api_key_ c))
   then [("default_api_key", json_of_string (default_api_key_ c))] else []) ++
  [("enable_file_logging", json_of_bool (enable_file_logging_ c));
   ("log_file", json_of_string (log_file_path_ c));
   ("log_enable_stdout", json_of_bool (log_enable_stdout_ c));
   ("log_rotation", json_of_string (log_rotation_type_ c));
   ("log_max_file_size", json_of_int (Z.quot (log_max_file_size_ c) (1024 * 1024)));
   ("log_max_backup_files", json_of_int (log_max_backup_files_ c));
   ("log_level", json_of_string (log_level_ c))].

Section Files.
Context {F : Type} `{FileSystem F}.

(** [std::ofstream file(path)] and [is_open()] *)
Definition open_for_writing (path : string) : M F bool := λ fs,
  match fs_open_write path fs with
  | None => (Ret false, fs)
  | Some fs' => (Ret true, fs')
  end.

Definition write_text (path text : string) : M F unit := λ fs, (Ret tt, fs_append path text fs).

(** The file is opened, and so emptied, before [dump] runs. *)
Definition save_to_file (c : ServerConfig) (config_file : string) : M F bool :=
  try_catch
    (j ← pure (json_object (config_members c));
     opened ← open_for_writing config_file;
     if negb opened then mret false
     else
       text ← pure (json_dump_pretty j);
       write_text config_file (text +:+ str [newline]);;
       mret true)
    (λ _, mret false).

Definition load_from_file (config_file : string) : M F ServerConfig := λ fs,
  match fs_read config_file fs with
  | None => (Throw (runtime_error ("Cannot open config file: " +:+ config_file)), fs)
  | Some text => (j ← json_read text; from_json default_server_config j, fs)
  end.

(** [check.peek() == eof()]; a stream that did not open is at its end too. *)
Definition file_is_empty (config_file : string) (fs : F) : bool :=
  match fs_read config_file fs with
  | Some text => is_empty text
  | None => true
  end.

Definition handle_config_file `{Environment} (config_file : string) : M F ServerConfig := λ fs,
  if file_is_empty config_file fs then
    let cfg := with_config_file config_file (applyDefaultPaths default_server_config) in
    (saved ← save_to_file cfg config_file;
     mret (if saved : bool then cfg else default_server_config)) fs
  else try_catch (load_from_file config_file) (λ _, mret default_server_config) fs.
End Files.
End Json.

(** ** Validation *)
Definition check_range (name : string) (v lo hi : Z) : exec unit :=
  if (v <? lo) || (hi <? v)
  then Throw (runtime_error ("Invalid " +:+ name +:+ ": must be between " +:+
                             (to_string lo +:+ " and " +:+ to_string hi)))
  else Ret tt.

(** The loop over the database paths: a missing file is only logged, but
    [exists] throws if it cannot tell. *)
Fixpoint check_paths {F} `{FileSystem F} (db_paths : list string) (fs : F) : exec unit :=
  match db_paths with
  | [] => Ret tt
  | path :: rest =>
      (if is_empty path then Ret tt else fs_exists path fs;; Ret tt);;
      check_paths rest fs
  end.

Definition database_paths (c : ServerConfig) : list string := [city_db_path_ c; asn_db_path_ c; oui_db_path_ c].

Definition validate {F} `{FileSystem F} (c : ServerConfig) (fs : F) : exec unit :=
  check_range "Port" (port_ c) config_limits.MIN_PORT config_limits.MAX_PORT;;
  check_range "Thread pool size" (thread_pool_size_ c)
    config_limits.MIN_THREAD_POOL config_limits.MAX_THREAD_POOL;;
  (if enable_rate_limiter_ c
   then check_range "Max requests per minute" (max_requests_per_minute_ c)
          config_limits.MIN_RATE_LIMIT config_limits.MAX_RATE_LIMIT
   else Ret tt);;
  check_range "Max batch size" (max_batch_size_ c)
    config_limits.MIN_BATCH_SIZE config_limits.MAX_BATCH_SIZE;;
  check_paths (database_paths c) fs;;
  if enable_file_logging_ c then
    (if bool_decide (log_rotation_type_ c ∈ ["none"; "size"]) then Ret tt
     else Throw (runtime_error "Invalid log rotation type: must be none or size"));;
    check_range "Log max file size (MB)" (Z.quot (log_max_file_size_ c) (1024 * 1024))
      (Z.quot config_limits.MIN_LOG_FILE_SIZE (1024 * 1024))
      (Z.quot config_limits.MAX_LOG_FILE_SIZE (1024 * 1024));;
    check_range "Log max backup files" (log_max_backup_files_ c)
      config_limits.MIN_BACKUP_FILES config_limits.MAX_BACKUP_FILES
  else Ret tt.

(** ** The whole *)

(** What [parse] leaves behind: the configuration, or the exit status of the
    process, which [--help] ends. *)
Inductive parsed :=
| Exited (status : Z)
| Parsed (c : ServerConfig).

Section Parse.
Context {J F : Type} `{JsonOps J, FileSystem F, Environment, Options}.

(** [if (!config_file.empty() && exists(config_file)) config = handle_config_file(...)] *)
Definition read_config_file (config : ServerConfig) : M F ServerConfig :=
  if is_empty (config_file_ config) then mret config
  else
    there ← reads (fs_exists (config_file_ config));
    if there : bool then handle_config_file (J := J) (config_file_ config) else mret config.

(** The body of the [try] block of [parse]. *)
Definition parse_options (argv : list string) : M F parsed :=
  result ← pure (options_parse create_option_parser argv);
  if contains result "help" then mret (Exited 0)
  else
    let config := applyDefaultPaths default_server_config in
    path ← pure (set_opt result "config" (as_string result) (config_file_ config));
    config ← read_config_file (with_config_file path config);
    config ← pure (apply_cli_overrides result config);
    mret (Parsed config).

Definition parse (argv : list string) : M F parsed :=
  outcome ← try_catch (parse_options argv)
    (λ e, match e with
          | options_exception what =>
              throw (runtime_error ("Failed to parse command line options: " +:+ what))
          | _ => throw e
          end);
  match outcome with
  | Exited status => mret (Exited status)
  | Parsed config => reads (validate config);; mret (Parsed config)
  end.
End Parse.

(** The lines [log_config] logs. *)
Definition log_config (c : ServerConfig) : list string :=
  let switch (b : bool) := if b then "enabled" else "disabled" in
  ["Configuration loaded:";
   "  Host: " +:+ host_ c;
   "  Port: " +:+ to_string (port_ c);
   "  City DB: " +:+ city_db_path_ c;
   "  ASN DB: " +:+ asn_db_path_ c;
   "  OUI DB: " +:+ oui_db_path_ c;
   "  Threads: " +:+ to_string (thread_pool_size_ c);
   "  Rate Limiter: " +:+ switch (enable_rate_limiter_ c)] ++
  (if enable_rate_limiter_ c
   then ["  Max Requests/Min: " +:+ to_string (max_requests_per_minute_ c)] else []) ++
  ["  Max Batch Size: " +:+ to_string (max_batch_size_ c);
   "  API Auth: " +:+ switch (enable_api_auth_ c)] ++
  (if enable_api_auth_ c
   then ("  API Keys File: " +:+ api_keys_file_ c) ::
        (if negb (is_empty (default_api_key_ c))
         then ["  Default API Key: " +:+ substr (default_api_key_ c) 0 8 +:+ "..."] else [])
   else []) ++
  ["  File Logging: " +:+ switch (enable_file_logging_ c)] ++
  (if enable_file_logging_ c
   then ["  Log File: " +:+ log_file_path_ c;
         "  Log Rotation: " +:+ log_rotation_type_ c] ++
        (if String.eqb (log_rotation_type_ c) "size"
         then ["  Max File Size: " +:+ to_string (Z.quot (log_max_file_size_ c) (1024 * 1024)) +:+ " MB"]
         else []) ++
        ["  Max Backup Files: " +:+ to_string (log_max_backup_files_ c)]
   else []) ++
  ["  Stdout Logging: " +:+ switch (log_enable_stdout_ c);
   "  Log Level: " +:+ log_level_ c].

(** ** What the operations are compared with *)

Definition config_valid (c : ServerConfig) : Prop :=
  1 ≤ port_ c ≤ 65535 ∧ 1 ≤ thread_pool_size_ c ≤ 64 ∧
  (enable_rate_limiter_ c = true → 1 ≤ max_requests_per_minute_ c ≤ 10000) ∧
  1 ≤ max_batch_size_ c ≤ 1000 ∧
  (enable_file_logging_ c = true →
     log_rotation_type_ c ∈ ["none"; "size"] ∧
     1 ≤ Z.quot (log_max_file_size_ c) 1048576 ≤ 1024 ∧ 0 ≤ log_max_backup_files_ c ≤ 100).

(** [exists] can tell of each database path that is given. *)
Definition databases_examinable {F} `{FileSystem F} (c : ServerConfig) (fs : F) : Prop :=
  Forall (λ path, path ≠ "" → examinable path fs) (database_paths c).

(** What survives a save and a load: the path of the file itself is not
    stored, and the size of the log files only in whole megabytes. *)
Definition reloaded (c : ServerConfig) : ServerConfig := {|
  host_ := host_ c; port_ := port_ c; city_db_path_ := city_db_path_ c;
  asn_db_path_ := asn_db_path_ c; oui_db_path_ := oui_db_path_ c;
  thread_pool_size_ := thread_pool_size_ c; config_file_ := "";
  enable_rate_limiter_ := enable_rate_limiter_ c;
  max_requests_per_minute_ := max_requests_per_minute_ c; max_batch_size_ := max_batch_size_ c;
  enable_api_auth_ := enable_api_auth_ c; api_keys_file_ := api_keys_file_ c;
  default_api_key_ := default_api_key_ c; enable_file_logging_ := enable_file_logging_ c;
  log_file_path_ := log_file_path_ c; log_rotation_type_ := log_rotation_type_ c;
  log_max_file_size_ := log_max_file_size_ c / 1048576 * 1048576;
  log_max_backup_files_ := log_max_backup_files_ c;
  log_enable_stdout_ := log_enable_stdout_ c; log_level_ := log_level_ c
|}.

(** The value of an option's default text, as cxxopts reads it. *)
Definition default_text (key : string) : option string :=
  match List.find (λ o, String.eqb (opt_name o) key) create_option_parser with
  | Some o => opt_default o
  | None => None
  end.

(** A command line that spells out every default of the option table. *)
Definition all_defaults : ParseResult :=
  let text key := match default_text key with
                  | Some t => Ret t
                  | None => Throw (options_exception key)
                  end in
  {| contains key := bool_decide (is_Some (default_text key));
     as_string := text;
     as_u16 key := text key ≫= stoll;
     as_int key := text key ≫= stoi;
     as_size key := text key ≫= stoull |}.

(** The configuration with another default key. *)
Definition with_default_key (key : string) (c : ServerConfig) : ServerConfig := {|
  host_ := host_ c; port_ := port_ c; city_db_path_ := city_db_path_ c;
  asn_db_path_ := asn_db_path_ c; oui_db_path_ := oui_db_path_ c;
  thread_pool_size_ := thread_pool_size_ c; config_file_ := config_file_ c;
  enable_rate_limiter_ := enable_rate_limiter_ c;
  max_requests_per_minute_ := max_requests_per_minute_ c; max_batch_size_ := max_batch_size_ c;
  enable_api_auth_ := enable_api_auth_ c; api_keys_file_ := api_keys_file_ c;
  default_api_key_ := key; enable_file_logging_ := enable_file_logging_ c;
  log_file_path_ := log_file_path_ c; log_rotation_type_ := log_rotation_type_ c;
  log_max_file_size_ := log_max_file_size_ c; log_max_backup_files_ := log_max_backup_files_ c;
  log_enable_stdout_ := log_enable_stdout_ c; log_level_ := log_level_ c
|}.

(** Trees whose printer and parser are right for one configuration. *)
Definition tree_of (c : ServerConfig) : Tree.tree :=
  match json_object (JsonOps0 := Tree.sample) (config_members (H := Tree.sample) c) with
  | Ret j => j
  | _ => Tree.Null
  end.

Definition tree_ops (c : ServerConfig) : JsonOps Tree.tree :=
  Tree.ops (λ _, Ret "{}") (λ _, Ret (tree_of c)).

(** A command line with [--config /c.json] only. *)
Definition config_only : ParseResult := {|
  contains key := bool_decide (key = "config");
  as_string _ := Ret "/c.json";
  as_u16 _ := Ret 0;
  as_int _ := Ret 0;
  as_size _ := Ret 0
|}.

(** A check passes, or throws an exception of [err]. *)
Definition checks (err : cpp_exn → Prop) (m : exec unit) : Prop := m = Ret tt ∨ ∃ e, m = Throw e ∧ err e.

(** The text printed for the configuration reads back. *)
Definition prints_back {J} `{JsonOps J} (c : ServerConfig) : Prop :=
  ∀ j : J, json_object (config_members c) = Ret j →
    ∃ text, json_dump_pretty j = Ret text ∧ json_read (text +:+ str [newline]) = Ret j.

(** ** Lemmas *)
Lemma check_range_ok name v lo hi : check_range name v lo hi = Ret tt ↔ lo ≤ v ≤ hi.
Proof.
  unfold check_range. destruct (Z.ltb_spec v lo), (Z.ltb_spec hi v); simpl; split; try done; lia.
Qed.

Lemma bind_unit_Ret (m1 m2 : exec unit) : (m1;; m2) = Ret tt ↔ m1 = Ret tt ∧ m2 = Ret tt.
Proof. destruct m1 as [[]| | |]; simpl; split; (tauto || (intros [? ?]; done) || done). Qed.

Section Checks.
Context (err : cpp_exn → Prop).

Lemma checks_range name v lo hi :
  (¬ (lo ≤ v ≤ hi) → ∀ what, err (runtime_error what)) → checks err (check_range name v lo hi).
Proof.
  unfold check_range. intros He. destruct (Z.ltb_spec v lo), (Z.ltb_spec hi v); simpl; [..|by left];
    right; (eexists; split; [done|apply He; lia]).
Qed.

Lemma checks_bind m1 m2 : checks err m1 → checks err m2 → checks err (m1;; m2).
Proof. intros [->|[e [-> He]]] H2; [done|right; eauto]. Qed.

Lemma checks_if (b : bool) m : (b = true → checks err m) → checks err (if b then m else Ret tt).
Proof. destruct b; [auto|by left]. Qed.

Lemma checks_check_paths `{FL : FileSystemLaws F} paths (fs : F) :
  (∀ path e, path ∈ paths → path ≠ "" → fs_exists path fs = Throw e → err e) → checks err (check_paths paths fs).
Proof.
  induction paths as [|path paths IH]; intros He; [by left|]. cbn [check_paths].
  apply checks_bind; [|apply IH; intros p e Hp; apply He; by right].
  destruct (is_empty path) eqn:Hempty; [by left|]. pose proof (fs_exists_safe path fs) as Hs.
  destruct (fs_exists path fs) as [b|e| |] eqn:Hex; [by left| |done..].
  right. exists e. split; [done|]. apply (He path); [by left| |done]. by intros ->.
Qed.
End Checks.

Lemma check_paths_iff `{FileSystem F} paths (fs : F) :
  check_paths paths fs = Ret tt ↔ Forall (λ path, path ≠ "" → examinable path fs) paths.
Proof.
  induction paths as [|path paths IH]; [by split|]. cbn [check_paths]. rewrite bind_unit_Ret, IH, Forall_cons.
  apply and_iff_compat_r. unfold examinable. destruct (is_empty path) eqn:He.
  - apply is_empty_eq in He. by split.
  - assert (path ≠ "") by by intros ->. destruct (fs_exists path fs) as [b|e| |]; simpl;
      (split; [intros ?; intros _; by eauto || done|intros Hb; by destruct (Hb ltac:(done)) as [? [=]]]).
Qed.

Lemma validate_iff `{FileSystem F} c (fs : F) :
  validate c fs = Ret tt ↔ config_valid c ∧ databases_examinable c fs.
Proof.
  unfold validate, config_valid, databases_examinable. rewrite !bind_unit_Ret, !check_range_ok, check_paths_iff.
  change (Z.quot config_limits.MIN_LOG_FILE_SIZE (1024 * 1024)) with 1.
  change (Z.quot config_limits.MAX_LOG_FILE_SIZE (1024 * 1024)) with 1024.
  change (1024 * 1024) with 1048576.
  unfold config_limits.MIN_PORT, config_limits.MAX_PORT, config_limits.MIN_THREAD_POOL,
    config_limits.MAX_THREAD_POOL, config_limits.MIN_BATCH_SIZE, config_limits.MAX_BATCH_SIZE.
  assert (Hl : (if enable_rate_limiter_ c
     then check_range "Max requests per minute" (max_requests_per_minute_ c)
            config_limits.MIN_RATE_LIMIT config_limits.MAX_RATE_LIMIT else Ret tt) = Ret tt ↔
     (enable_rate_limiter_ c = true → 1 ≤ max_requests_per_minute_ c ≤ 10000)).
  { destruct (enable_rate_limiter_ c); [rewrite check_range_ok; tauto|split; done]. }
  rewrite Hl. clear Hl. destruct (enable_file_logging_ c).
  - rewrite !bind_unit_Ret, !check_range_ok.
    unfold config_limits.MIN_BACKUP_FILES, config_limits.MAX_BACKUP_FILES.
    case_bool_decide; [tauto|]. split; [by intros (_ & _ & _ & _ & _ & ? & _)|].
    intros [(_ & _ & _ & _ & Hr) _]. by destruct (Hr eq_refl) as [? _].
  - split; [intros (? & ? & ? & ? & ? & _)|intros [(? & ? & ? & ? & _) ?]]; done.
Qed.

(** What [validate] may throw: for a limit that is not kept, or because a
    database path cannot be examined. *)
Definition refuses {F} `{FileSystem F} (c : ServerConfig) (fs : F) (e : cpp_exn) : Prop :=
  (¬ config_valid c ∧ ∃ what, e = runtime_error what) ∨
  ∃ path, path ∈ database_paths c ∧ path ≠ "" ∧ fs_exists path fs = Throw e.

Lemma validate_throws `{FL : FileSystemLaws F} c (fs : F) : checks (refuses c fs) (validate c fs).
Proof.
  assert (Hl : ∀ P : Prop, (config_valid c → P) → ¬ P → ∀ what, refuses c fs (runtime_error what)).
  { intros P HP Hn what. left. split; [tauto|by eauto]. }
  unfold config_valid in Hl. unfold validate.
  apply checks_bind; [apply checks_range, Hl; by intros (? & _)|].
  apply checks_bind; [apply checks_range, Hl; by intros (_ & ? & _)|].
  apply checks_bind; [apply checks_if; intros Hb; apply checks_range, Hl; intros (_ & _ & Hq & _); by apply Hq|].
  apply checks_bind; [apply checks_range, Hl; by intros (_ & _ & _ & ? & _)|].
  apply checks_bind; [apply (checks_check_paths (refuses c fs)); intros path e ???; right; by eauto|].
  apply checks_if. intros Hb. apply checks_bind.
  - case_bool_decide as Ht; [by left|]. right. eexists. split; [done|]. apply (Hl _ ltac:(intros (_ & _ & _ & _ & Hf); apply Hf, Hb)).
    by intros [? _].
  - apply checks_bind; apply checks_range, Hl; intros (_ & _ & _ & _ & Hf); by apply Hf.
Qed.

Section JsonFacts.
Context {J : Type} `{JL : JsonLaws J}.

Lemma readStr_ok key d s (j : J) :
  json_find key j = Some (json_of_string s) → readStr key d j = Ret s.
Proof.
  intros Hf. unfold readStr. rewrite Hf. pose proof (json_get_string_ok (json_of_string s : J)) as Hg.
  by rewrite json_string_of_string in Hg.
Qed.

Lemma readStr_absent key d (j : J) : json_find key j = None → readStr key d j = Ret d.
Proof. intros Hf. unfold readStr. by rewrite Hf. Qed.

Lemma readInt_ok wrap key d z (j : J) :
  json_find key j = Some (json_of_int z) → readInt wrap key d j = Ret (wrap z).
Proof. intros Hf. unfold readInt. by rewrite Hf, json_int_of_int. Qed.

Lemma readInt_absent wrap key d (j : J) : json_find key j = None → readInt wrap key d j = Ret d.
Proof. intros Hf. unfold readInt. by rewrite Hf. Qed.

Lemma readBool_ok key d b (j : J) :
  json_find key j = Some (json_of_bool b) → readBool key d j = Ret b.
Proof. intros Hf. unfold readBool. by rewrite Hf, json_bool_of_bool. Qed.

Lemma readBool_absent key d (j : J) : json_find key j = None → readBool key d j = Ret d.
Proof. intros Hf. unfold readBool. by rewrite Hf. Qed.

Lemma readMaxSize_ok d z (j : J) :
  json_find "log_max_file_size" j = Some (json_of_int z) →
  readMaxSize d j = Ret (u64 (u64 z * 1024 * 1024)).
Proof. intros Hf. unfold readMaxSize. by rewrite Hf, json_int_of_int. Qed.

Lemma u16_small z : 0 ≤ z < 65536 → u16 z = z.
Proof. apply Z.mod_small. Qed.

(** Whole megabytes of a [size_t] come back. *)
Lemma megabytes_back s :
  is_u64 s → u64 (u64 (Z.quot s (1024 * 1024)) * 1024 * 1024) = s / 1048576 * 1048576.
Proof.
  unfold is_u64, u64_max. intros Hs. rewrite Z.quot_div_nonneg by lia.
  change (1024 * 1024) with 1048576.
  assert (0 ≤ s / 1048576 ∧ s / 1048576 * 1048576 ≤ s) by (Z.to_euclidean_division_equations; lia).
  rewrite (u64_small (s / 1048576)) by (unfold is_u64, u64_max; lia).
  rewrite u64_small by (unfold is_u64, u64_max; lia). lia.
Qed.

Lemma from_json_members (c : ServerConfig) :
  config_typed c →
  ∃ j : J, json_object (config_members c) = Ret j ∧ from_json default_server_config j = Ret (reloaded c).
Proof.
  intros (Hp & Ht & Hr & Hb & Hs & Hk).
  destruct (json_object_ok (config_members c : list (string * J))) as (j & Hj & _ & Hf); [done|].
  exists j. split; [done|].
  assert (Hkey : readStr "default_api_key" (default_api_key_ default_server_config) j = Ret (default_api_key_ c)).
  { unfold config_members in Hf. destruct (is_empty (default_api_key_ c)) eqn:He.
    - apply is_empty_eq in He. rewrite readStr_absent; [by rewrite He|]. by rewrite Hf.
    - apply readStr_ok. by rewrite Hf. }
  assert (Hf' : ∀ k v, k ≠ "default_api_key" → alist_find k (rev (config_members c)) = Some v →
    json_find k j = Some v) by (intros k v _ Hv; by rewrite Hf).
  unfold config_members in Hf'. unfold from_json.
  destruct (negb (is_empty (default_api_key_ c)));
    repeat (first
      [ rewrite Hkey
      | erewrite readStr_ok by (apply Hf'; [discriminate|reflexivity])
      | erewrite readBool_ok by (apply Hf'; [discriminate|reflexivity])
      | erewrite readInt_ok by (apply Hf'; [discriminate|reflexivity])
      | erewrite readMaxSize_ok by (apply Hf'; [discriminate|reflexivity]) ];
      cbn [mbind exec_bind]).
  all: unfold reloaded; rewrite megabytes_back, u16_small, !i32_small by done; done.
Qed.
End JsonFacts.

Section FileFacts.
Context {J F : Type} `{JL : JsonLaws J, FL : FileSystemLaws F}.

Lemma save_then_load (c : ServerConfig) path (fs fs1 : F) :
  config_typed c → prints_back (J := J) c → fs_open_write path fs = Some fs1 →
  ∃ fs', save_to_file (J := J) c path fs = (Ret true, fs') ∧
    (∃ text, fs_read path fs' = Some (text +:+ str [newline])) ∧ fs_exists path fs' = Ret true ∧
    (∀ q, examinable q fs → examinable q fs') ∧
    load_from_file (J := J) path fs' = (Ret (reloaded c), fs').
Proof.
  intros Ht Hp Ho. destruct (from_json_members (J := J) c Ht) as (j & Hj & Hload).
  destruct (Hp j Hj) as (text & Hd & Hr).
  exists (fs_append path (text +:+ str [newline]) fs1).
  assert (Hread : fs_read path (fs_append path (text +:+ str [newline]) fs1) = Some (text +:+ str [newline])).
  { rewrite (fs_append_read _ _ ""); [done|]. by apply (fs_open_read path fs). }
  split_and!; [|by eexists| | |].
  - unfold save_to_file, try_catch. rewrite Hj.
    cbv [pure mbind M_bind open_for_writing]. rewrite Ho. cbn [negb]. by rewrite Hd.
  - rewrite fs_append_exists. by apply (fs_open_exists path fs).
  - intros q Hq. by eapply fs_append_examinable, fs_open_examinable.
  - unfold load_from_file. rewrite Hread, Hr. cbn [mbind exec_bind]. by rewrite Hload.
Qed.

(** A command line with [--config] only overrides nothing. *)
Lemma config_only_overrides r c :
  (∀ key, contains r key = bool_decide (key = "config")) → apply_cli_overrides r c = Ret c.
Proof. intros Hc. unfold apply_cli_overrides, set_opt, set_flag. rewrite !Hc. by destruct c. Qed.

Lemma reloaded_valid c : config_typed c → config_valid c → config_valid (reloaded c).
Proof.
  intros (_ & _ & _ & _ & Hs & _). unfold config_valid, reloaded. simpl.
  rewrite Z.quot_mul by lia. rewrite Z.quot_div_nonneg by (unfold is_u64 in Hs; lia). done.
Qed.

Lemma newline_not_empty text : is_empty (text +:+ str [newline]) = false.
Proof. by destruct text. Qed.
End FileFacts.

(** *** A configuration that does not name the city database *)

(** What [as<T>] does is to return or to throw. *)
Definition result_safe (r : ParseResult) : Prop :=
  ∀ key, safe (as_string r key) ∧ safe (as_u16 r key) ∧ safe (as_int r key) ∧ safe (as_size r key).

(** The text cannot be read as a configuration, or has no [city_db]. *)
Definition names_no_city {J} `{JsonOps J} (text : string) : Prop :=
  ∀ (j : J) c, json_read text = Ret j → from_json default_server_config j = Ret c → json_find "city_db" j = None.

Section Nameless.
Context {J F : Type} `{JL : JsonLaws J, FL : FileSystemLaws F, Environment}.

Lemma set_opt_safe {A} r key (get : string → exec A) field : safe (get key) → safe (set_opt r key get field).
Proof. unfold set_opt. by destruct (contains r key). Qed.

Lemma set_flag_safe r key field : result_safe r → safe (set_flag r key field).
Proof. intros Hr. unfold set_flag. destruct (contains r key); [|done]. apply safe_fmap, Hr. Qed.

Lemma overrides_safe r c : result_safe r → safe (apply_cli_overrides r c).
Proof.
  intros Hr. unfold apply_cli_overrides.
  repeat (apply safe_bind;
    [first [apply set_opt_safe, Hr | by apply set_flag_safe
           | destruct (contains r "log-max-size"); [apply safe_fmap, Hr|done]]|intros ? _]). done.
Qed.

Lemma json_get_string_safe (j : J) : safe (json_get_string j).
Proof. pose proof (json_get_string_ok j) as Hg. destruct (json_string j); [by rewrite Hg|]. by destruct Hg as [? ->]. Qed.

Lemma readInt_safe wrap key field (j : J) : safe (readInt wrap key field j).
Proof.
  unfold readInt. destruct (json_find key j) as [v|]; [|done]. destruct (json_int v); [done|].
  destruct (json_string v); [apply safe_fmap, stoll_safe|done].
Qed.

Lemma readStr_safe key field (j : J) : safe (readStr key field j).
Proof. unfold readStr. destruct (json_find key j); [apply json_get_string_safe|done]. Qed.

Lemma readBool_safe key field (j : J) : safe (readBool key field j).
Proof. unfold readBool. destruct (json_find key j) as [v|]; [|done]. by destruct (json_bool v), (json_string v). Qed.

Lemma readMaxSize_safe field (j : J) : safe (readMaxSize field j).
Proof.
  unfold readMaxSize. destruct (json_find _ j) as [v|]; [|done]. apply safe_bind; [|done].
  destruct (json_int v); [done|]. destruct (json_string v); [apply stoull_safe|done].
Qed.

Lemma from_json_safe c (j : J) : safe (from_json c j).
Proof.
  unfold from_json. repeat (apply safe_bind; [first
    [apply readStr_safe|apply readInt_safe|apply readBool_safe|apply readMaxSize_safe]|intros ? _]). done.
Qed.

Lemma from_json_city (j : J) c :
  json_find "city_db" j = None → from_json default_server_config j = Ret c →
  city_db_path_ c = "" ∧ config_file_ c = "".
Proof.
  intros Hf Hj. unfold from_json in Hj. repeat (apply exec_bind_Ret in Hj as (? & ? & Hj)). injection Hj as <-. simpl. split; [|done].
  match goal with H : readStr "city_db" _ _ = _ |- _ => rewrite readStr_absent in H by done; by injection H end.
Qed.

Lemma overrides_city r c c' :
  contains r "city-db" = false → apply_cli_overrides r c = Ret c' →
  city_db_path_ c' = city_db_path_ c ∧ config_file_ c' = config_file_ c.
Proof.
  intros Hc Ha. unfold apply_cli_overrides in Ha. repeat (apply exec_bind_Ret in Ha as (? & ? & Ha)).
  injection Ha as <-. simpl. split; [|done].
  match goal with H : set_opt r "city-db" _ _ = _ |- _ => unfold set_opt in H; rewrite Hc in H; by injection H end.
Qed.

(** The file is read, and what comes of it has no city database. *)
Lemma handle_nameless path text (fs : F) :
  (∀ s, safe (json_read s : exec J)) → fs_read path fs = Some text → text ≠ "" → names_no_city (J := J) text →
  ∃ c, handle_config_file (J := J) path fs = (Ret c, fs) ∧ city_db_path_ c = "" ∧ config_file_ c = "".
Proof.
  intros Hs Hr Ht Hn. unfold handle_config_file, file_is_empty. rewrite Hr.
  destruct text as [|a text]; [done|]. cbn [is_empty]. unfold try_catch, load_from_file. rewrite Hr.
  pose proof (Hs (String a text)) as Hsafe.
  destruct (json_read (String a text)) as [j|e| |] eqn:Hj; cbn [mbind exec_bind]; [|by eexists|done..].
  pose proof (from_json_safe default_server_config j) as Hsj.
  destruct (from_json default_server_config j) as [c|e| |] eqn:Hc; [|by eexists|done..].
  exists c. split; [done|]. eapply from_json_city; [|exact Hc]. by eapply Hn.
Qed.

Lemma parse_nameless `{!Options} argv r path text (fs : F) :
  (∀ s, safe (json_read s : exec J)) → options_parse create_option_parser argv = Ret r → result_safe r →
  contains r "help" = false → contains r "config" = true → as_string r "config" = Ret path → path ≠ "" →
  contains r "city-db" = false → fs_exists path fs = Ret true → fs_read path fs = Some text → text ≠ "" →
  names_no_city (J := J) text →
  (∃ e, parse (J := J) argv fs = (Throw e, fs)) ∨
  ∃ c, parse (J := J) argv fs = (Ret (Parsed c), fs) ∧ city_db_path_ c = "" ∧ config_file_ c = "".
Proof.
  intros Hs Hr Hsafe Hh Hc Hp Hne Hcity Hex Hread Ht Hn.
  destruct (handle_nameless path text fs Hs Hread Ht Hn) as (c & Hload & Hcc & Hf).
  assert (He : is_empty path = false) by by destruct path.
  unfold parse, parse_options, try_catch. cbv [pure reads mbind M_bind]. rewrite Hr, Hh.
  unfold set_opt. rewrite Hc, Hp. unfold read_config_file, with_config_file, with_paths. cbn [config_file_].
  rewrite He. cbv [reads mbind M_bind]. rewrite Hex, Hload.
  pose proof (overrides_safe r c Hsafe) as Hov.
  destruct (apply_cli_overrides r c) as [c'|e| |] eqn:Ho; [|by left; destruct e; eexists|done..].
  cbn [mret M_ret]. destruct (validate_throws c' fs) as [->|(e & -> & _)]; [|by left; eexists].
  right. exists c'. split; [done|]. destruct (overrides_city r c c') as [-> ->]; done.
Qed.

(** Without a file the default paths stand. *)
Lemma parse_missing `{!Options} argv r path (fs fs' : F) c :
  options_parse create_option_parser argv = Ret r → contains r "config" = true → as_string r "config" = Ret path →
  path ≠ "" → contains r "city-db" = false → fs_exists path fs = Ret false →
  parse (J := J) argv fs = (Ret (Parsed c), fs') → city_db_path_ c = paths.city_db_path.
Proof.
  intros Hr Hc Hp Hne Hcity Hex. assert (He : is_empty path = false) by by destruct path.
  unfold parse, parse_options, try_catch. cbv [pure reads mbind M_bind]. rewrite Hr.
  destruct (contains r "help"); [done|].
  unfold set_opt. rewrite Hc, Hp. unfold read_config_file, with_config_file, with_paths. cbn [config_file_].
  rewrite He. cbv [reads mbind M_bind]. rewrite Hex. cbn [mret M_ret].
  match goal with |- context [apply_cli_overrides r ?c0] => destruct (apply_cli_overrides r c0) as [c'|e| |] eqn:Ho end;
    [|by destruct e|done..].
  cbn [mret M_ret]. destruct (validate c' fs); [|done..]. intros [= <- _]. by apply overrides_city in Ho as [? _].
Qed.
End Nameless.

(** *** The types of the fields *)
Section Types.
Context {J F : Type} `{JsonOps J, FileSystem F, Environment}.

Lemma set_opt_typed (T : Z → Prop) r key get field z :
  (∀ z, get key = Ret z → T z) → T field → set_opt r key get field = Ret z → T z.
Proof. unfold set_opt. intros Hg Hf. destruct (contains r key); [apply Hg|]. by intros [= <-]. Qed.

Lemma readInt_typed (T : Z → Prop) wrap key field (j : J) z :
  (∀ x, T (wrap x)) → T field → readInt wrap key field j = Ret z → T z.
Proof.
  unfold readInt. intros Hw Hf. destruct (json_find key j) as [v|]; [|by intros [= <-]].
  destruct (json_int v) as [x|]; [by intros [= <-]|]. destruct (json_string v) as [s|]; [|by intros [= <-]].
  destruct (stoll s); [|done..]. by intros [= <-].
Qed.

Lemma readMaxSize_typed field (j : J) z : is_u64 field → readMaxSize field j = Ret z → is_u64 z.
Proof.
  unfold readMaxSize. intros Hf. destruct (json_find _ j) as [v|]; [|by intros [= <-]].
  intros (raw & _ & [= <-])%exec_bind_Ret. apply u64_range.
Qed.

Lemma overrides_typed r c c' :
  result_typed r → config_typed c → apply_cli_overrides r c = Ret c' → config_typed c'.
Proof.
  intros Hr (Hp & Ht & Hq & Hb & Hs & Hk) Ha. unfold apply_cli_overrides in Ha.
  repeat (apply exec_bind_Ret in Ha as (? & ? & Ha)). injection Ha as <-.
  refine (conj _ (conj _ (conj _ (conj _ (conj _ _))))); simpl.
  - eapply (set_opt_typed (λ z, 0 ≤ z < 65536)); [apply (typed_u16 r Hr)|exact Hp|eassumption].
  - eapply (set_opt_typed is_i32); [apply (typed_int r Hr)|exact Ht|eassumption].
  - eapply (set_opt_typed is_i32); [apply (typed_int r Hr)|exact Hq|eassumption].
  - eapply (set_opt_typed is_i32); [apply (typed_int r Hr)|exact Hb|eassumption].
  - match goal with H : (if contains r "log-max-size" then _ else _) = _ |- _ => rename H into Hm end.
    destruct (contains r "log-max-size"); [|by injection Hm as <-].
    destruct (as_size r "log-max-size"); try discriminate Hm. injection Hm as <-. apply u64_range.
  - eapply (set_opt_typed is_i32); [apply (typed_int r Hr)|exact Hk|eassumption].
Qed.

Lemma from_json_typed c (j : J) c' : config_typed c → from_json c j = Ret c' → config_typed c'.
Proof.
  intros (Hp & Ht & Hq & Hb & Hs & Hk) Ha. unfold from_json in Ha.
  repeat (apply exec_bind_Ret in Ha as (? & ? & Ha)). injection Ha as <-.
  refine (conj _ (conj _ (conj _ (conj _ (conj _ _))))); simpl.
  - eapply (readInt_typed (λ z, 0 ≤ z < 65536)); [apply u16_range|exact Hp|eassumption].
  - eapply (readInt_typed is_i32); [apply i32_range|exact Ht|eassumption].
  - eapply (readInt_typed is_i32); [apply i32_range|exact Hq|eassumption].
  - eapply (readInt_typed is_i32); [apply i32_range|exact Hb|eassumption].
  - eapply readMaxSize_typed; [exact Hs|eassumption].
  - eapply (readInt_typed is_i32); [apply i32_range|exact Hk|eassumption].
Qed.

Lemma default_typed : config_typed default_server_config.
Proof. unfold config_typed, is_i32, is_u64, u64_max. simpl. lia. Qed.

Lemma read_config_typed c (fs fs' : F) c' :
  config_typed c → read_config_file (J := J) c fs = (Ret c', fs') → config_typed c'.
Proof.
  intros Hc. unfold read_config_file, reads. destruct (is_empty _); [by intros [= <- _]|].
  unfold mbind at 1, M_bind at 1. destruct (fs_exists _ fs) as [[]|e| |]; [|by intros [= <- _]|done..].
  unfold handle_config_file. destruct (file_is_empty _ fs).
  - unfold mbind, M_bind. destruct (save_to_file _ _ fs) as [[saved|e| |] fs1]; try done.
    intros [= <- _]. by destruct saved; apply default_typed.
  - unfold try_catch, load_from_file. destruct (fs_read _ fs) as [text|]; [|by intros [= <- _]; apply default_typed].
    destruct (json_read text) as [j|e| |]; cbn [mbind exec_bind]; [|by intros [= <- _]; apply default_typed|done|done].
    destruct (from_json default_server_config j) as [c1|e| |] eqn:Hj; [|by intros [= <- _]; apply default_typed|done|done].
    intros [= <- _]. eapply from_json_typed; [apply default_typed|exact Hj].
Qed.

Lemma parse_typed `{OL : OptionsLaws} argv (fs fs' : F) c :
  parse (J := J) argv fs = (Ret (Parsed c), fs') → config_typed c.
Proof.
  unfold parse, parse_options, try_catch. cbv [pure mbind M_bind].
  destruct (options_parse create_option_parser argv) as [r|e| |] eqn:Hr; [|by destruct e|done..].
  apply OL in Hr. destruct (contains r "help"); [done|].
  destruct (set_opt r "config" _ _) as [path|e| |]; [|by destruct e|done..].
  destruct (read_config_file _ fs) as [[c1|e| |] fs1] eqn:Hc1; [|by destruct e|done..].
  destruct (apply_cli_overrides r c1) as [c2|e| |] eqn:Hc2; [|by destruct e|done..].
  cbn [mret M_ret]. unfold reads. destruct (validate c2 fs1); try done. intros [= <- _].
  eapply overrides_typed; [done| |exact Hc2]. eapply read_config_typed; [|exact Hc1]. apply default_typed.
Qed.

Lemma parse_Parsed `{!Options} argv (fs fs' : F) c : parse (J := J) argv fs = (Ret (Parsed c), fs') → config_valid c.
Proof.
  unfold parse. intros Hp. unfold mbind at 1, M_bind at 1 in Hp.
  destruct (try_catch _ _ fs) as [[[st|c']|e| |] fs1]; [done| |done..].
  cbv [reads mbind M_bind] in Hp. destruct (validate c' fs1) as [[]|e| |] eqn:Hv; try done.
  injection Hp as <- _. by apply validate_iff in Hv as [? _].
Qed.
End Types.


(** ** Properties *)

(** C34: [validate] accepts exactly the configurations within the documented
    limits whose database paths, where given, can be examined, whether the
    files are there or not.  It always ends, and refuses any other
    configuration: by a [runtime_error] only if a limit is not kept, and
    otherwise by the exception of [std::filesystem::exists]. *)
Theorem validate_exact `{FL : FileSystemLaws F} (c : ServerConfig) (fs : F) :
  (validate c fs = Ret tt ↔ config_valid c ∧ databases_examinable c fs) ∧
  (¬ (config_valid c ∧ databases_examinable c fs) → ∃ e, validate c fs = Throw e ∧ refuses c fs e) ∧
  (¬ config_valid c → databases_examinable c fs → ∃ what, validate c fs = Throw (runtime_error what)).
Proof.
  pose proof (validate_iff c fs) as Hv. split; [done|].
  assert (Hn : ¬ (config_valid c ∧ databases_examinable c fs) → ∃ e, validate c fs = Throw e ∧ refuses c fs e).
  { intros Hn. by destruct (validate_throws c fs) as [?%Hv|?]. }
  split; [done|]. intros Hc Hex. destruct Hn as (e & He & [[_ [what ->]]|(path & Hin & Hne & Hp)]); [tauto|by eauto|].
  eapply Forall_forall in Hex; [|exact Hin]. destruct (Hex Hne) as [b Hb]. congruence.
Qed.

(** C35: types: whatever the command line and the configuration file say, a
    configuration that [parse] returns has in every field a value the C++ type
    of the field can hold (conversions from JSON numbers and texts, the
    multiplication by a megabyte and the overrides included), and is within
    the documented limits. *)
Theorem parsed_configuration_typed {J F} `{JsonOps J, FileSystem F, Environment} `{OL : OptionsLaws}
    argv (fs fs' : F) c :
  parse (J := J) argv fs = (Ret (Parsed c), fs') → config_typed c ∧ config_valid c.
Proof. intros Hp. split; [by eapply parse_typed|by eapply parse_Parsed]. Qed.

(** A configuration saved to a file that can be written and loaded back
    is the same, except that the path of the file is forgotten and the log
    file size is rounded down to a whole megabyte. *)
Theorem config_save_load_roundtrip {J F} `{JL : JsonLaws J, FL : FileSystemLaws F}
    (c : ServerConfig) (path : string) (fs fs1 : F) :
  config_typed c → prints_back (J := J) c → fs_open_write path fs = Some fs1 →
  ∃ fs', save_to_file (J := J) c path fs = (Ret true, fs') ∧
    load_from_file (J := J) path fs' = (Ret (reloaded c), fs').
Proof.
  intros Ht Hp Ho. destruct (save_then_load c path fs fs1 Ht Hp Ho) as (fs' & H1 & _ & _ & _ & H2).
  by exists fs'.
Qed.

(** An empty or unreadable configuration file that can be written is
    filled with the default configuration, and the next start with that file
    runs with the same configuration (but for the path of the file itself). *)
Theorem first_start_then_next {J F} `{JL : JsonLaws J, FL : FileSystemLaws F, Environment}
    (path : string) (fs fs1 : F) :
  let cfg := with_config_file path (applyDefaultPaths default_server_config) in
  file_is_empty path fs = true → fs_open_write path fs = Some fs1 → prints_back (J := J) cfg →
  ∃ fs', handle_config_file (J := J) path fs = (Ret cfg, fs') ∧
    handle_config_file (J := J) path fs' = (Ret (with_config_file "" cfg), fs').
Proof.
  intros cfg He Ho Hp.
  assert (Ht : config_typed cfg).
  { unfold config_typed, is_i32, is_u64, u64_max. simpl. lia. }
  destruct (save_then_load (J := J) cfg path fs fs1 Ht Hp Ho) as (fs' & H1 & (text & H2) & _ & _ & H3).
  exists fs'. split; unfold handle_config_file.
  - rewrite He. fold cfg. cbv [mbind M_bind]. by rewrite H1.
  - unfold file_is_empty. rewrite H2, newline_not_empty. unfold try_catch. rewrite H3. done.
Qed.

(** A port in the JSON file is reduced modulo 65536 before it is checked:
    every integer that is not a multiple of 65536 passes validation. *)
Theorem json_port_wraps {J} `{JL : JsonLaws J} (z : Z) :
  ∃ (j : J) c, json_object [("port", json_of_int z)] = Ret j ∧
    from_json default_server_config j = Ret c ∧ port_ c = z mod 65536 ∧
    (z mod 65536 ≠ 0 → ∀ F `(FileSystem F) (fs : F), validate c fs = Ret tt).
Proof.
  destruct (json_object_ok [("port", json_of_int z : J)]) as (j & Hj & _ & Hf); [done|].
  assert (Hn : ∀ k, k ≠ "port" → json_find k j = None).
  { intros k Hk. rewrite Hf. simpl. rewrite alist_find_cons. simpl.
    case_decide; [by subst|done]. }
  eexists j, _. split; [done|]. unfold from_json.
  rewrite (readInt_ok _ "port" _ z) by (by rewrite Hf).
  repeat first [rewrite readStr_absent by by apply Hn | rewrite readBool_absent by by apply Hn
               | rewrite readInt_absent by by apply Hn].
  unfold readMaxSize. rewrite Hn by done. cbn [mbind exec_bind].
  split; [reflexivity|]. split; [done|]. intros Hz F ? fs. apply validate_iff. split; [|by repeat constructor].
  unfold config_valid, u16. simpl. pose proof (Z.mod_pos_bound z 65536). lia.
Qed.

(** The defaults of the option table are those of [ServerConfig]: spelling
    out every default on the command line changes nothing. *)
Theorem cli_defaults_agree :
  apply_cli_overrides all_defaults default_server_config = Ret default_server_config.
Proof. vm_compute. reflexivity. Qed.

(** The log shows no more of the default API key than its first eight
    bytes: the lines for two keys that share them are the same. *)
Theorem log_config_hides_key (c : ServerConfig) (key1 key2 : string) :
  key1 ≠ "" → key2 ≠ "" → substr key1 0 8 = substr key2 0 8 →
  log_config (with_default_key key1 c) = log_config (with_default_key key2 c).
Proof.
  intros H1 H2 Hs. unfold log_config. simpl. rewrite Hs.
  by destruct key1, key2.
Qed.

(** ** Witnesses *)

(** A database in a directory that may not be searched: within the limits,
    and refused. *)
Lemma validate_exact_witness :
  let c := with_paths "/locked/city.mmdb" "/asn.mmdb" "/oui.db" "" "/ip_server.log" default_server_config in
  config_valid c ∧ ∃ e, validate (H := locked_fs) c ∅ = Throw e ∧ refuses (H := locked_fs) c ∅ e.
Proof.
  intros c. destruct (validate_exact (FL := locked_fs_laws) c ∅) as (_ & Hr & _). split.
  - unfold config_valid, c. simpl. split_and!; lia || done.
  - apply Hr. intros [_ Hx]. apply Forall_inv in Hx. destruct (Hx ltac:(discriminate)) as [b Hb]. discriminate Hb.
Defined.

Lemma config_save_load_roundtrip_witness :
  ∃ fs', save_to_file (H := tree_ops default_server_config) (H0 := map_fs)
      default_server_config "/c.json" ∅ = (Ret true, fs') ∧
    load_from_file (H := tree_ops default_server_config) (H0 := map_fs) "/c.json" fs' =
      (Ret (reloaded default_server_config), fs').
Proof.
  apply (config_save_load_roundtrip (JL := tree_laws _ _) (FL := map_fs_laws)
    default_server_config "/c.json" ∅ {["/c.json" := ""]}).
  - unfold config_typed, is_i32, is_u64, u64_max. simpl. lia.
  - intros j Hj. exists "{}". split; [reflexivity|]. vm_compute in Hj. injection Hj as <-.
    vm_compute. reflexivity.
  - vm_compute. reflexivity.
Defined.

Lemma first_start_then_next_witness :
  let cfg := with_config_file "/c.json" (applyDefaultPaths (H := sample_env) default_server_config) in
  ∃ fs', handle_config_file (H := tree_ops cfg) (H0 := map_fs) (H1 := sample_env) "/c.json" ∅ =
      (Ret cfg, fs') ∧
    handle_config_file (H := tree_ops cfg) (H0 := map_fs) (H1 := sample_env) "/c.json" fs' =
      (Ret (with_config_file "" cfg), fs').
Proof.
  intros cfg.
  apply (first_start_then_next (JsonOps0 := tree_ops cfg) (JL := tree_laws _ _) (FL := map_fs_laws) (H := sample_env)
    "/c.json" ∅ {["/c.json" := ""]}).
  - reflexivity.
  - vm_compute. reflexivity.
  - intros j Hj. exists "{}". split; [reflexivity|]. vm_compute in Hj. injection Hj as <-.
    vm_compute. reflexivity.
Defined.

(** A file whose port is 65537. *)
Definition wide_port : JsonOps Tree.tree :=
  Tree.ops (λ _, Ret "{}") (λ _, Ret (Tree.Obj [("port", Tree.Int 65537)])).

Lemma config_only_typed : @OptionsLaws (λ _ _, Ret config_only).
Proof.
  intros specs argv r [= <-].
  by split; intros key z [= <-]; unfold is_i32, is_u64, u64_max; lia.
Qed.

Lemma parsed_configuration_typed_witness :
  let fs : gmap string string := {["/c.json" := "{}"]} in
  ∃ c, parse (H := wide_port) (H0 := map_fs) (H1 := sample_env) (H2 := λ _ _, Ret config_only)
      ["--config"; "/c.json"] fs = (Ret (Parsed c), fs) ∧ port_ c = 1 ∧ config_typed c.
Proof.
  intros fs.
  assert (∃ c, parse (H := wide_port) (H0 := map_fs) (H1 := sample_env) (H2 := λ _ _, Ret config_only)
      ["--config"; "/c.json"] fs = (Ret (Parsed c), fs) ∧ port_ c = 1) as (c & Hp & Hport)
    by (eexists; split; [vm_compute; reflexivity|reflexivity]).
  exists c. split_and!; [exact Hp|exact Hport|].
  exact (proj1 (parsed_configuration_typed (OL := config_only_typed) _ _ _ _ Hp)).
Defined.

Lemma json_port_wraps_witness :
  ∃ (j : Tree.tree) c, json_object (JsonOps0 := Tree.sample)
      [("port", json_of_int (JsonOps := Tree.sample) 65537)] = Ret j ∧
    from_json (H := Tree.sample) default_server_config j = Ret c ∧ port_ c = 1 ∧
    validate (H := map_fs) c ∅ = Ret tt.
Proof.
  destruct (json_port_wraps (JL := tree_laws (λ _, Ret "{}") (λ _, Ret Tree.Null)) 65537)
    as (j & c & H1 & H2 & H3 & H4).
  exists j, c. split_and!; [exact H1|exact H2|exact H3|]. apply H4. discriminate.
Defined.

Lemma log_config_hides_key_witness :
  log_config (with_default_key "12345678-secret" default_server_config) =
  log_config (with_default_key "12345678-hidden" default_server_config).
Proof. apply log_config_hides_key; [discriminate|discriminate|reflexivity]. Defined.
