(* ===== verification/Ownership.v ===== *)
(** * Owners of library handles

    The database classes own handles of C libraries, can be moved but not
    copied, and release what they own when they are destroyed or assigned to.
    [Movable] is what such a class provides, [MovableLaws] what it promises;
    the theorem about programs that create, move, assign and destroy objects
    is proved against this interface, and each class discharges the laws. *)
From Stdlib Require Import ZArith Lia.
From S2P Require Import Prelude.

Class Movable (O R : Type) := {
  owned : O → list R;                        (* the handles the object is to release *)
  intact : O → Prop;                         (* the class invariant *)
  move_construct : O → O * O;                (* O(O&& other): the new object, and other *)
  move_assign : O → O → O * O * list R;      (* operator=(O&& other), other not this *)
  move_assign_self : O → O * list R;         (* operator=, other is this *)
  destroy : O → list R                       (* ~O(): what it releases *)
}.

Class MovableLaws (O R : Type) `{!Movable O R} : Prop := {
  move_construct_ok (o : O) : intact o →
    let '(new, old) := move_construct o in
    intact new ∧ intact old ∧ owned new = owned o ∧ owned old = [];
  move_assign_ok (o other : O) : intact o → intact other →
    let '(o', other', released) := move_assign o other in
    intact o' ∧ intact other' ∧ owned o' = owned other ∧ owned other' = [] ∧ released ≡ₚ owned o;
  move_assign_self_ok (o : O) : intact o → move_assign_self o = (o, []);
  destroy_ok (o : O) : intact o → destroy o ≡ₚ owned o
}.

Section Programs.
Context {O R : Type} `{Movable O R}.

(** The live objects, and all that was released so far. *)
Record world := { objects : gmap nat O; released : list R }.

Inductive action :=
| Create (x : nat) (o : O)              (* a constructor that succeeded *)
| MoveConstruct (x y : nat)             (* O x(std::move(y)) *)
| MoveAssign (x y : nat)                (* x = std::move(y) *)
| Destroy (x : nat).

(** One action; [None] if the program names no live object, or a live one
    where a new name is needed. *)
Definition act (w : world) (a : action) : option world :=
  match a with
  | Create x o =>
      match objects w !! x with
      | None => Some {| objects := <[x := o]> (objects w); released := released w |}
      | Some _ => None
      end
  | MoveConstruct x y =>
      match objects w !! x, objects w !! y with
      | None, Some o =>
          let '(new, old) := move_construct o in
          Some {| objects := <[x := new]> (<[y := old]> (objects w)); released := released w |}
      | _, _ => None
      end
  | MoveAssign x y =>
      match objects w !! x, objects w !! y with
      | Some o, Some other =>
          if decide (x = y) then
            let '(o', r) := move_assign_self o in
            Some {| objects := <[x := o']> (objects w); released := released w ++ r |}
          else
            let '(o', other', r) := move_assign o other in
            Some {| objects := <[x := o']> (<[y := other']> (objects w)); released := released w ++ r |}
      | _, _ => None
      end
  | Destroy x =>
      match objects w !! x with
      | Some o => Some {| objects := delete x (objects w); released := released w ++ destroy o |}
      | None => None
      end
  end.

Fixpoint act_all (w : world) (l : list action) : option world :=
  match l with
  | [] => Some w
  | a :: l' => match act w a with Some w' => act_all w' l' | None => None end
  end.

(** Everything the objects own, and everything the program ever acquired. *)
Definition held (m : gmap nat O) : list R := (map_to_list m).*2 ≫= owned.

Definition acquired (l : list action) : list R :=
  concat ((λ a, match a with Create _ o => owned o | _ => [] end) <$> l).

Definition creates_intact (l : list action) : Prop :=
  Forall (λ a, match a with Create _ o => intact o | _ => True end) l.
End Programs.
Arguments world O R : clear implicits.
Arguments action O : clear implicits.

(** ** Lemmas *)
Section Facts.
Context {O R : Type} `{ML : MovableLaws O R}.
Implicit Types (m : gmap nat O) (w : world O R).

Lemma held_insert_new m x o : m !! x = None → held (R := R) (<[x := o]> m) ≡ₚ owned o ++ held m.
Proof.
  intros Hx. unfold held. by rewrite (map_to_list_insert m x o Hx).
Qed.

Lemma held_delete m x o : m !! x = Some o → held (R := R) m ≡ₚ owned o ++ held (delete x m).
Proof.
  intros Hx. rewrite <-held_insert_new by apply lookup_delete_eq. by rewrite insert_delete_id.
Qed.

Lemma held_insert m x o o' :
  m !! x = Some o → ∃ rest, held (R := R) m ≡ₚ owned o ++ rest ∧ held (<[x := o']> m) ≡ₚ owned o' ++ rest.
Proof.
  intros Hx. exists (held (delete x m)). split; [by apply held_delete|].
  rewrite <-held_insert_new by apply lookup_delete_eq. by rewrite insert_delete_eq.
Qed.

Definition world_ok w : Prop := map_Forall (λ _ o, intact (R := R) o) (objects w).

(** One action neither loses nor duplicates a handle. *)
Lemma act_conserves w a w' :
  world_ok w → creates_intact (R := R) [a] → act w a = Some w' →
  world_ok w' ∧ released w' ++ held (objects w') ≡ₚ (released w ++ held (objects w)) ++ acquired [a].
Proof.
  intros Hw Ha. apply Forall_cons in Ha as [Ha _]. unfold world_ok in *.
  destruct a as [x o|x y|x y|x]; simpl; unfold acquired; simpl; rewrite ?app_nil_r.
  - destruct (objects w !! x) eqn:Hx; [done|]. intros [= <-]. simpl. split.
    + by apply map_Forall_insert_2.
    + rewrite held_insert_new by done. solve_Permutation.
  - destruct (objects w !! x) eqn:Hx; [done|]. destruct (objects w !! y) as [o|] eqn:Hy; [|done].
    pose proof (move_construct_ok o (Hw y o Hy)) as Hm. destruct (move_construct o) as [new old].
    destruct Hm as (Hn & Ho & Hon & Hoo). intros [= <-]. simpl. split.
    + apply map_Forall_insert_2; [done|]. by apply map_Forall_insert_2.
    + assert (x ≠ y) by congruence.
      rewrite held_insert_new by (by rewrite lookup_insert_ne).
      destruct (held_insert (objects w) y o old Hy) as (rest & -> & ->).
      rewrite Hon, Hoo. done.
  - destruct (objects w !! x) as [o|] eqn:Hx; [|done].
    destruct (objects w !! y) as [other|] eqn:Hy; [|done]. case_decide as Hxy.
    + rewrite (move_assign_self_ok o (Hw x o Hx)). intros [= <-]. simpl.
      rewrite insert_id, app_nil_r by done. done.
    + pose proof (move_assign_ok o other (Hw x o Hx) (Hw y other Hy)) as Hm.
      destruct (move_assign o other) as [[o' other'] r].
      destruct Hm as (Hi & Hi' & Ho & Ho' & Hr). intros [= <-]. simpl. split.
      * apply map_Forall_insert_2; [done|]. by apply map_Forall_insert_2.
      * assert (Hx' : <[y := other']> (objects w) !! x = Some o) by (by rewrite lookup_insert_ne).
        destruct (held_insert _ x o o' Hx') as (rest & H1 & H2). rewrite H2, Ho.
        destruct (held_insert (objects w) y other other' Hy) as (rest' & H3 & H4).
        rewrite H4, Ho' in H1. simpl in H1. rewrite H3, H1, Hr. solve_Permutation.
  - destruct (objects w !! x) as [o|] eqn:Hx; [|done]. intros [= <-]. simpl. split.
    + by apply map_Forall_delete.
    + rewrite (destroy_ok o (Hw x o Hx)), (held_delete _ _ _ Hx). solve_Permutation.
Qed.

Lemma act_all_conserves w l w' :
  world_ok w → creates_intact (R := R) l → act_all w l = Some w' →
  released w' ++ held (objects w') ≡ₚ (released w ++ held (objects w)) ++ acquired l.
Proof.
  revert w. induction l as [|a l IH]; intros w Hw Hl; simpl.
  - intros [= <-]. unfold acquired. simpl. by rewrite app_nil_r.
  - apply Forall_cons in Hl as [Ha Hl].
    destruct (act w a) as [w1|] eqn:Hact; [|done]. intros Hall.
    destruct (act_conserves w a w1 Hw) as [Hw1 Hp1]; [by constructor|done|].
    rewrite (IH w1 Hw1 Hl Hall), Hp1. unfold acquired. simpl. rewrite app_nil_r. by rewrite <-!app_assoc.
Qed.

(** From a world without objects: no handle is released twice or while an
    object still owns it, and once no object is left all have been. *)
Lemma released_once l w' :
  creates_intact (R := R) l → NoDup (acquired (R := R) l) →
  act_all {| objects := ∅; released := [] |} l = Some w' →
  NoDup (released w' ++ held (objects w')) ∧ (objects w' = ∅ → released w' ≡ₚ acquired l).
Proof.
  intros Hl Hd Hact.
  assert (Hp : released w' ++ held (objects w') ≡ₚ acquired l).
  { rewrite (act_all_conserves _ l w' (map_Forall_empty _) Hl Hact). done. }
  split; [by rewrite Hp|]. intros He. rewrite He in Hp. unfold held in Hp.
  rewrite map_to_list_empty in Hp. simpl in Hp. by rewrite app_nil_r in Hp.
Qed.
End Facts.
