(* ===== verification/Backend.v ===== *)
(** * What the services expect of a database

    A lookup service asks a database for a JSON answer.  [Backend] is that
    operation; [BackendLaws] is the promise the services' theorems rest on and
    each database class discharges: on an open database the call with a
    well-formed key returns an object whose ["found"] member, if any, is a boolean, and which has one
    unless it reports an ["error"]. *)
From Stdlib Require Import ZArith Lia.
From S2P Require Import Prelude StdList Json.

Definition answer {J} `{!JsonOps J} (j : J) : Prop :=
  json_is_object j = true ∧
  (∀ v, json_find "found" j = Some v → ∃ b, v = json_of_bool b) ∧
  (json_find "error" j = None → is_Some (json_find "found" j)).

Class Backend (J D : Type) := backend_lookup : D → string → exec J.

Class BackendLaws (J D : Type) `{!JsonOps J, !Backend J D} (usable : D → Prop)
    (good_key : string → Prop) : Prop :=
  backend_answers d key : usable d → good_key key → ∃ j, backend_lookup d key = Ret j ∧ answer j.

(** [result.value("found", false)] of an answer *)
Definition says_found {J} `{!JsonOps J} (j : J) : bool :=
  match json_find "found" j with
  | Some v => match json_bool v with Some b => b | None => false end
  | None => false
  end.

Section Facts.
Context {J : Type} `{JL : JsonLaws J}.

Lemma answer_found (j : J) : answer j → json_value_bool "found" false j = Ret (says_found j).
Proof.
  intros (Ho & Hf & _). unfold says_found. pose proof (json_value_bool_ok "found" false j Ho) as Hv.
  destruct (json_find "found" j) as [v|] eqn:Hfind; [|done].
  destruct (Hf v eq_refl) as [b ->]. by rewrite json_bool_of_bool in Hv |- *.
Qed.

Lemma json_set_all_app (l1 l2 : list (string * J)) (j : J) :
  json_set_all (l1 ++ l2) j = (j' ← json_set_all l1 j; json_set_all l2 j').
Proof.
  revert j. induction l1 as [|[k v] l1 IH]; intros j; [done|]. simpl.
  destruct (json_set k v j); simpl; [apply IH|done..].
Qed.

(** An object written member by member is an answer if its members say so. *)
Lemma object_answer (kvs : list (string * J)) :
  (∀ v, alist_find "found" (rev kvs) = Some v → ∃ b, v = json_of_bool b) →
  is_Some (alist_find "found" (rev kvs)) ∨ is_Some (alist_find "error" (rev kvs)) →
  ∃ j, json_object kvs = Ret j ∧ answer j ∧ ∀ k, json_find k j = alist_find k (rev kvs).
Proof.
  intros Hb Hs. destruct (json_object_ok kvs) as (j & Hj & Ho & Hf).
  { intros ->. by destruct Hs as [[? ?]|[? ?]]. }
  exists j. split_and!; [done| |done]. split_and!; [done| |]; rewrite !Hf; [done|].
  intros He. destruct Hs as [?|[? Hs]]; [done|]. congruence.
Qed.
End Facts.
