(* ===== verification/MaxMind.v ===== *)
(** * The MaxMind databases (src/src/database/)

    [MaxMindDatabase] owns a handle of libmaxminddb: opening, moving, closing,
    and the lookup shared by [CityDatabase] and [ASNDatabase].  The library is
    a parameter, [MaxMindLib]; the types of the values in an entry are fixed by
    the schema of the database files, [geo_schema]. *)
From Stdlib Require Import ZArith Lia String.
From S2P Require Import Prelude StdList Double Json CppString Ownership Backend.
#[local] Open Scope Z_scope.

(** [MMDB_entry_data_s]: a union, of which the program reads three members. *)
Inductive entry_data :=
| UTF8 (s : string)
| DOUBLE (d : double)
| UINT32 (n : Z)
| OTHER_DATA.

(** Reading a member of the union other than the one that was stored gives a
    wild pointer or garbage. *)
Definition utf8_string (d : entry_data) : exec string :=
  match d with UTF8 s => Ret s | _ => Undefined end.
Definition double_value (d : entry_data) : exec double :=
  match d with DOUBLE x => Ret x | _ => Undefined end.
Definition uint32_value (d : entry_data) : exec Z :=
  match d with UINT32 n => Ret n | _ => Undefined end.

(** What [MMDB_lookup_string] reports: the two error codes and the result. *)
Record lookup_report (E : Type) := {
  gai_error : Z;
  mmdb_error : Z;
  found_entry : bool;
  entry : E
}.
Arguments gai_error {E}.
Arguments mmdb_error {E}.
Arguments found_entry {E}.
Arguments entry {E}.

Class MaxMindLib (H E : Type) := {
  MMDB_open : string → Z * H;
  MMDB_strerror : Z → string;
  MMDB_lookup_string : H → string → lookup_report E;
  MMDB_aget_value : E → list string → Z * bool * entry_data   (* status, has_data, data *)
}.

Definition MMDB_SUCCESS : Z := 0.

(** ** Class [MaxMindDatabase] *)
Module MaxMindDatabase.
Section Database.
Context {H E : Type} `{MaxMindLib H E}.

Record t := {
  mmdb_ : option H;      (* MMDB_s, None for the zeroed structure *)
  is_open_ : bool
}.

Definition create (db_path : string) : exec t :=
  let '(status, h) := MMDB_open (c_str db_path) in
  if negb (status =? MMDB_SUCCESS)
  then Throw (runtime_error ("Failed to open MaxMind DB '" +:+ db_path +:+ "': " +:+ MMDB_strerror status))
  else Ret {| mmdb_ := Some h; is_open_ := true |}.

(** [MMDB_close(&mmdb_)] *)
Definition close (o : t) : list H := match mmdb_ o with Some h => [h] | None => [] end.

Definition destroy (o : t) : list H := if is_open_ o then close o else [].

Definition moved_from : t := {| mmdb_ := None; is_open_ := false |}.

Definition move_construct (other : t) : t * t :=
  ({| mmdb_ := mmdb_ other; is_open_ := is_open_ other |}, moved_from).

Definition move_assign (o other : t) : t * t * list H :=
  let released := if is_open_ o then close o else [] in
  ({| mmdb_ := mmdb_ other; is_open_ := is_open_ other |}, moved_from, released).

(** [operator=] when [this == &other] *)
Definition move_assign_self (o : t) : t * list H := (o, []).

Definition get_value (e : E) (path : list string) : option entry_data :=
  let '(status, has_data, data) := MMDB_aget_value e path in
  if (status =? MMDB_SUCCESS) && has_data then Some data else None.

(** The answer, and the report the caller's variables hold afterwards. *)
Definition perform_lookup {J} `{JsonOps J} (o : t) (ip_address : string) :
    exec (J * option (lookup_report E)) :=
  if negb (is_open_ o) then
    j ← json_object [("error", json_of_string "Database not open"); ("ip", json_of_string ip_address)];
    Ret (j, None)
  else
    h ← deref (mmdb_ o);
    let r := MMDB_lookup_string h (c_str ip_address) in
    j ← (if negb (gai_error r =? 0) then
           json_object [("error", json_of_string "Invalid IP address"); ("ip", json_of_string ip_address)]
         else if negb (mmdb_error r =? MMDB_SUCCESS) then
           json_object [("error", json_of_string ("MaxMind DB lookup error: " +:+ MMDB_strerror (mmdb_error r)));
                        ("ip", json_of_string ip_address)]
         else if negb (found_entry r) then
           json_object [("ip", json_of_string ip_address); ("found", json_of_bool false)]
         else
           json_object [("ip", json_of_string ip_address); ("found", json_of_bool true)]);
    Ret (j, Some r).

(** [if (get_value(entry, data, path...)) result[key] = ...] for the three
    kinds of values. *)
Definition add_string {J} `{JsonOps J} (e : E) (key : string) (path : list string) (result : J) : exec J :=
  match get_value e path with
  | Some d => s ← utf8_string d; json_set key (json_of_string s) result
  | None => Ret result
  end.
Definition add_double {J} `{JsonOps J} (e : E) (key : string) (path : list string) (result : J) : exec J :=
  match get_value e path with
  | Some d => x ← double_value d; json_set key (json_of_double x) result
  | None => Ret result
  end.
Definition add_uint32 {J} `{JsonOps J} (e : E) (key : string) (path : list string) (result : J) : exec J :=
  match get_value e path with
  | Some d => n ← uint32_value d; json_set key (json_of_int n) result
  | None => Ret result
  end.

End Database.
Arguments t H : clear implicits.
End MaxMindDatabase.

(** ** The two databases *)
Module CityDatabase.
Import MaxMindDatabase.

Definition lookup {H E J} `{MaxMindLib H E, JsonOps J} (db : MaxMindDatabase.t H) (ip_address : string) : exec J :=
  '(result, report) ← perform_lookup db ip_address;
  if json_contains "error" result then Ret result
  else
    found ← json_value_bool "found" false result;
    if negb found then Ret result
    else
      r ← deref report;
      let e := entry r in
      result ← add_string e "country" ["country"; "names"; "en"] result;
      result ← add_string e "country_code" ["country"; "iso_code"] result;
      result ← add_string e "city" ["city"; "names"; "en"] result;
      result ← add_string e "continent" ["continent"; "names"; "en"] result;
      result ← add_double e "latitude" ["location"; "latitude"] result;
      result ← add_double e "longitude" ["location"; "longitude"] result;
      add_string e "timezone" ["location"; "time_zone"] result.

End CityDatabase.

Module ASNDatabase.
Import MaxMindDatabase.

Definition lookup {H E J} `{MaxMindLib H E, JsonOps J} (db : MaxMindDatabase.t H) (ip_address : string) : exec J :=
  '(result, report) ← perform_lookup db ip_address;
  if json_contains "error" result then Ret result
  else
    found ← json_value_bool "found" false result;
    if negb found then Ret result
    else
      r ← deref report;
      let e := entry r in
      result ← add_string e "as_organization" ["autonomous_system_organization"] result;
      add_uint32 e "as_number" ["autonomous_system_number"] result.

End ASNDatabase.

(** ** What the lookups are compared with *)
Section Spec.
Context {H E J : Type} `{MaxMindLib H E, JsonOps J}.
Import MaxMindDatabase.

(** The members that come from a value of the entry. *)
Definition text_member (e : E) (key : string) (path : list string) : list (string * J) :=
  match get_value e path with Some (UTF8 s) => [(key, json_of_string s)] | _ => [] end.
Definition number_member (e : E) (key : string) (path : list string) : list (string * J) :=
  match get_value e path with Some (DOUBLE x) => [(key, json_of_double x)] | _ => [] end.
Definition integer_member (e : E) (key : string) (path : list string) : list (string * J) :=
  match get_value e path with Some (UINT32 n) => [(key, json_of_int n)] | _ => [] end.

Definition city_members (e : E) : list (string * J) :=
  text_member e "country" ["country"; "names"; "en"] ++
  text_member e "country_code" ["country"; "iso_code"] ++
  text_member e "city" ["city"; "names"; "en"] ++
  text_member e "continent" ["continent"; "names"; "en"] ++
  number_member e "latitude" ["location"; "latitude"] ++
  number_member e "longitude" ["location"; "longitude"] ++
  text_member e "timezone" ["location"; "time_zone"].

Definition asn_members (e : E) : list (string * J) :=
  text_member e "as_organization" ["autonomous_system_organization"] ++
  integer_member e "as_number" ["autonomous_system_number"].

(** The answer for a report: an error, a miss, or the address with the members
    of its entry. *)
Definition expected (members : E → list (string * J)) (r : lookup_report E) (ip : string) : list (string * J) :=
  if negb (gai_error r =? 0) then
    [("error", json_of_string "Invalid IP address"); ("ip", json_of_string ip)]
  else if negb (mmdb_error r =? MMDB_SUCCESS) then
    [("error", json_of_string ("MaxMind DB lookup error: " +:+ MMDB_strerror (mmdb_error r)));
     ("ip", json_of_string ip)]
  else if negb (found_entry r) then [("ip", json_of_string ip); ("found", json_of_bool false)]
  else [("ip", json_of_string ip); ("found", json_of_bool true)] ++ members (entry r).

(** The schema of the GeoLite2 files: the types of the values the program
    asks for. *)
Definition geo_schema : Prop := ∀ e : E,
  (∀ p d, p ∈ [["country"; "names"; "en"]; ["country"; "iso_code"]; ["city"; "names"; "en"];
               ["continent"; "names"; "en"]; ["location"; "time_zone"];
               ["autonomous_system_organization"]] → get_value e p = Some d → ∃ s, d = UTF8 s) ∧
  (∀ p d, p ∈ [["location"; "latitude"]; ["location"; "longitude"]] →
     get_value e p = Some d → ∃ x, d = DOUBLE x) ∧
  (∀ d, get_value e ["autonomous_system_number"] = Some d → ∃ n, d = UINT32 n).

End Spec.

#[export] Instance maxmind_movable {H} : Movable (MaxMindDatabase.t H) H := {|
  owned o := if MaxMindDatabase.is_open_ o then option_list (MaxMindDatabase.mmdb_ o) else [];
  intact o := MaxMindDatabase.is_open_ o = true → is_Some (MaxMindDatabase.mmdb_ o);
  move_construct := MaxMindDatabase.move_construct;
  move_assign := MaxMindDatabase.move_assign;
  move_assign_self := MaxMindDatabase.move_assign_self;
  destroy := MaxMindDatabase.destroy
|}.

(** What a program does with MaxMind databases: it opens files, and moves,
    assigns and destroys the objects. *)
Inductive use :=
| Open (x : nat) (path : string)
| Move (x y : nat)
| Assign (x y : nat)
| Close (x : nat).

(** A constructor that throws leaves no object. *)
Definition action_of {H E} `{MaxMindLib H E} (u : use) : option (action (MaxMindDatabase.t H)) :=
  match u with
  | Open x path => match MaxMindDatabase.create path with Ret o => Some (Create x o) | _ => None end
  | Move x y => Some (MoveConstruct x y)
  | Assign x y => Some (MoveAssign x y)
  | Close x => Some (Destroy x)
  end.

(** The handles the library gave out for good. *)
Definition opened {H E} `{MaxMindLib H E} (uses : list use) : list H :=
  omap (λ u, match u with
             | Open _ path => let '(status, h) := MMDB_open (c_str path) in
                              if status =? MMDB_SUCCESS then Some h else None
             | _ => None
             end) uses.

(** An open database, as the constructor leaves it. *)
Definition usable {H} (db : MaxMindDatabase.t H) : Prop :=
  MaxMindDatabase.is_open_ db = true ∧ is_Some (MaxMindDatabase.mmdb_ db).

#[export] Instance city_backend {H E J} `{MaxMindLib H E, JsonOps J} : Backend J (MaxMindDatabase.t H) :=
  CityDatabase.lookup.

Definition asn_backend {H E J} `{MaxMindLib H E, JsonOps J} : Backend J (MaxMindDatabase.t H) :=
  ASNDatabase.lookup.

(** A library for the concrete examples: one file, one known address. *)
Definition sample_lib : MaxMindLib unit bool := {|
  MMDB_open p := (if String.eqb p "/city.mmdb" then 0 else 1, tt);
  MMDB_strerror _ := "error";
  MMDB_lookup_string _ ip := {| gai_error := if String.eqb ip "" then 1 else 0; mmdb_error := 0;
                                found_entry := String.eqb ip "8.8.8.8"; entry := true |};
  MMDB_aget_value _ p :=
    if bool_decide (p = ["country"; "iso_code"]) then (0, true, UTF8 "US")
    else if bool_decide (p = ["autonomous_system_number"]) then (0, true, UINT32 15169)
    else (1, false, OTHER_DATA)
|}.

(** ** Lemmas *)
#[export] Instance maxmind_movable_laws {H} : MovableLaws (MaxMindDatabase.t H) H.
Proof.
  split; simpl.
  - intros o Ho. split_and!; [done|done|by destruct o|done].
  - intros o other Ho Ho'. split_and!; [done|done|by destruct other|done|].
    unfold MaxMindDatabase.close. by destruct (MaxMindDatabase.is_open_ o), (MaxMindDatabase.mmdb_ o).
  - done.
  - intros o Ho. unfold MaxMindDatabase.destroy, MaxMindDatabase.close.
    by destruct (MaxMindDatabase.is_open_ o), (MaxMindDatabase.mmdb_ o).
Qed.

(** What the constructor acquires, the object owns. *)
Lemma opened_acquired {H E} `{MaxMindLib H E} (uses : list use) :
  creates_intact (R := H) (omap action_of uses) ∧ acquired (R := H) (omap action_of uses) = opened uses.
Proof.
  induction uses as [|u uses [Hi Ha]]; [by split; [constructor|]|].
  unfold creates_intact, acquired, opened in *. destruct u as [x path|x y|x y|x]; simpl;
    [|by split; [constructor|exact Ha]..].
  unfold MaxMindDatabase.create. destruct (MMDB_open (c_str path)) as [status h].
  destruct (status =? MMDB_SUCCESS); simpl; [|by split].
  split; [constructor; [by eexists|done]|]. f_equal. exact Ha.
Qed.

Section Facts.
Context {H E J : Type} `{MM : MaxMindLib H E} `{JL : JsonLaws J}.
Import MaxMindDatabase.

Lemma add_string_eq (e : E) key path (j : J) :
  (∀ d, get_value e path = Some d → ∃ s, d = UTF8 s) →
  add_string e key path j = json_set_all (text_member e key path) j.
Proof.
  intros Hd. unfold add_string, text_member. destruct (get_value e path) as [d|]; [|done].
  destruct (Hd d eq_refl) as [s ->]. simpl. by destruct (json_set _ _ _).
Qed.
Lemma add_double_eq (e : E) key path (j : J) :
  (∀ d, get_value e path = Some d → ∃ x, d = DOUBLE x) →
  add_double e key path j = json_set_all (number_member e key path) j.
Proof.
  intros Hd. unfold add_double, number_member. destruct (get_value e path) as [d|]; [|done].
  destruct (Hd d eq_refl) as [x ->]. simpl. by destruct (json_set _ _ _).
Qed.
Lemma add_uint32_eq (e : E) key path (j : J) :
  (∀ d, get_value e path = Some d → ∃ n, d = UINT32 n) →
  add_uint32 e key path j = json_set_all (integer_member e key path) j.
Proof.
  intros Hd. unfold add_uint32, integer_member. destruct (get_value e path) as [d|]; [|done].
  destruct (Hd d eq_refl) as [n ->]. simpl. by destruct (json_set _ _ _).
Qed.

(** The skeleton both lookups share: what follows [perform_lookup]. *)
Lemma lookup_skeleton (db : t H) h ip (fill : E → J → exec J) members :
  is_open_ db = true → mmdb_ db = Some h →
  (∀ e j, fill e j = json_set_all (members e) j) →
  let r := MMDB_lookup_string h (c_str ip) in
  ('(result, report) ← perform_lookup db ip;
   if json_contains "error" result then Ret result
   else
     found ← json_value_bool "found" false result;
     if negb found then Ret result else (r ← deref report; fill (entry r) result)) =
  json_object (expected members r ip).
Proof.
  intros Ho Hh Hfill r. unfold perform_lookup, expected. rewrite Ho, Hh. cbn [negb deref mbind exec_bind].
  fold r.
  assert (Herr : ∀ text,
    ('(result, report) ← (j ← json_object [("error", json_of_string text); ("ip", json_of_string ip)];
                          Ret (j, Some r));
     if json_contains "error" result then Ret result
     else
       found ← json_value_bool "found" false result;
       if negb found then Ret result else (r ← deref report; fill (entry r) result)) =
    json_object [("error", json_of_string text : J); ("ip", json_of_string ip)]).
  { intros text. destruct (json_object_ok [("error", json_of_string text : J); ("ip", json_of_string ip)])
      as (j & -> & _ & Hf); [done|]. simpl. unfold json_contains. rewrite Hf. done. }
  assert (Hok : ∀ b,
    ('(result, report) ← (j ← json_object [("ip", json_of_string ip); ("found", json_of_bool b)];
                          Ret (j, Some r));
     if json_contains "error" result then Ret result
     else
       found ← json_value_bool "found" false result;
       if negb found then Ret result else (r ← deref report; fill (entry r) result)) =
    json_object ([("ip", json_of_string ip : J); ("found", json_of_bool b)] ++ if b then members (entry r) else [])).
  { intros b. unfold json_object. rewrite json_set_all_app.
    destruct (object_answer [("ip", json_of_string ip : J); ("found", json_of_bool b)])
      as (j & Hj & Ha & Hf); [intros v [= <-]; eauto|left; by eexists|].
    unfold json_object in Hj. rewrite Hj. cbn [mbind exec_bind]. unfold json_contains. rewrite Hf.
    assert (Hs : says_found j = b).
    { unfold says_found. assert (json_find "found" j = Some (json_of_bool b)) as -> by by rewrite Hf.
      by rewrite json_bool_of_bool. }
    rewrite (answer_found j Ha), Hs. destruct b; cbn; [by rewrite Hfill|done]. }
  destruct (negb (gai_error r =? 0)); [apply Herr|].
  destruct (negb (mmdb_error r =? MMDB_SUCCESS)); [apply Herr|].
  destruct (negb (found_entry r)); [apply (Hok false)|apply (Hok true)].
Qed.

Lemma text_member_key (e : E) key path :
  Forall (λ p : string * J, p.1 = key) (text_member e key path).
Proof. unfold text_member. destruct (get_value e path) as [[]|]; repeat constructor. Qed.
Lemma number_member_key (e : E) key path :
  Forall (λ p : string * J, p.1 = key) (number_member e key path).
Proof. unfold number_member. destruct (get_value e path) as [[]|]; repeat constructor. Qed.
Lemma integer_member_key (e : E) key path :
  Forall (λ p : string * J, p.1 = key) (integer_member e key path).
Proof. unfold integer_member. destruct (get_value e path) as [[]|]; repeat constructor. Qed.

(** The members of an entry never hide the verdict. *)
Definition keeps_verdict (members : E → list (string * J)) : Prop :=
  ∀ e, Forall (λ p, p.1 ≠ "found" ∧ p.1 ≠ "error") (members e).

Ltac verdict_key :=
  eapply Forall_impl; [first [apply text_member_key | apply number_member_key | apply integer_member_key]|];
  simpl; intros ? ->; split; discriminate.

Lemma city_keeps_verdict : keeps_verdict city_members.
Proof. intros e. unfold city_members. repeat (apply Forall_app; split); verdict_key. Qed.

Lemma asn_keeps_verdict : keeps_verdict asn_members.
Proof. intros e. unfold asn_members. repeat (apply Forall_app; split); verdict_key. Qed.

Lemma verdict_absent (members : E → list (string * J)) e k :
  keeps_verdict members → k = "found" ∨ k = "error" → alist_find k (rev (members e)) = None.
Proof.
  intros Hm Hk. apply alist_find_None. intros Hin. apply list_elem_of_fmap in Hin as (p & -> & Hp).
  apply list_elem_of_In, in_rev, list_elem_of_In in Hp. specialize (Hm e). rewrite Forall_forall in Hm.
  destruct (Hm p Hp) as [H1 H2]. by destruct Hk.
Qed.

Lemma expected_answer members (r : lookup_report E) ip :
  keeps_verdict members →
  ∃ j : J, json_object (expected members r ip) = Ret j ∧ answer j ∧
    ∀ k, json_find k j = alist_find k (rev (expected members r ip)).
Proof.
  intros Hm. apply object_answer; unfold expected;
    destruct (negb (gai_error r =? 0)); [| |right; by eexists|];
    try (destruct (negb (mmdb_error r =? MMDB_SUCCESS)); [|destruct (negb (found_entry r))]);
    rewrite ?rev_app_distr, ?alist_find_app, ?(verdict_absent members) by auto;
    try done; try (intros v [= <-]; eauto); try (left; by eexists); try (right; by eexists).
Qed.

(** One statement of a lookup, which sets the members of [eq]. *)
Ltac add_member eq schema :=
  rewrite json_set_all_app, eq by (intros d; apply schema; set_solver);
  match goal with |- _ ≫= _ = json_set_all ?m ?j ≫= _ => destruct (json_set_all m j) end;
  [cbn [mbind exec_bind]|done..].

Lemma city_lookup_eq db h ip :
  geo_schema → is_open_ db = true → mmdb_ db = Some h →
  CityDatabase.lookup db ip = json_object (expected city_members (MMDB_lookup_string h (c_str ip)) ip : list (string * J)).
Proof.
  intros Hs Ho Hh. unfold CityDatabase.lookup.
  apply (lookup_skeleton db h ip (λ e result,
    result ← add_string e "country" ["country"; "names"; "en"] result;
    result ← add_string e "country_code" ["country"; "iso_code"] result;
    result ← add_string e "city" ["city"; "names"; "en"] result;
    result ← add_string e "continent" ["continent"; "names"; "en"] result;
    result ← add_double e "latitude" ["location"; "latitude"] result;
    result ← add_double e "longitude" ["location"; "longitude"] result;
    add_string e "timezone" ["location"; "time_zone"] result) city_members Ho Hh).
  intros e j. destruct (Hs e) as (Ht & Hd & _). unfold city_members.
  do 4 add_member (add_string_eq e) Ht. do 2 add_member (add_double_eq e) Hd.
  by apply add_string_eq; intros d; apply Ht; set_solver.
Qed.

Lemma asn_lookup_eq db h ip :
  geo_schema → is_open_ db = true → mmdb_ db = Some h →
  ASNDatabase.lookup db ip = json_object (expected asn_members (MMDB_lookup_string h (c_str ip)) ip : list (string * J)).
Proof.
  intros Hs Ho Hh. unfold ASNDatabase.lookup.
  apply (lookup_skeleton db h ip (λ e result,
    result ← add_string e "as_organization" ["autonomous_system_organization"] result;
    add_uint32 e "as_number" ["autonomous_system_number"] result) asn_members Ho Hh).
  intros e j. destruct (Hs e) as (Ht & _ & Hn). unfold asn_members.
  add_member (add_string_eq e) Ht. by rewrite add_uint32_eq by apply Hn.
Qed.

Lemma city_backend_laws : geo_schema → BackendLaws J (MaxMindDatabase.t H) usable (λ _, True).
Proof.
  intros Hs db ip (Ho & h & Hh) _. unfold backend_lookup, city_backend. rewrite (city_lookup_eq db h) by done.
  destruct (expected_answer city_members (MMDB_lookup_string h (c_str ip)) ip city_keeps_verdict)
    as (j & -> & Ha & _). by exists j.
Qed.

Lemma asn_backend_laws : geo_schema → BackendLaws J (MaxMindDatabase.t H) (Backend0 := asn_backend) usable (λ _, True).
Proof.
  intros Hs db ip (Ho & h & Hh) _. unfold backend_lookup, asn_backend. rewrite (asn_lookup_eq db h) by done.
  destruct (expected_answer asn_members (MMDB_lookup_string h (c_str ip)) ip asn_keeps_verdict)
    as (j & -> & Ha & _). by exists j.
Qed.
End Facts.

(** ** Properties *)

(** C27: on an open database whose entries follow the schema, a lookup in the
    city or the ASN database returns, without reading a wrong member of the
    union, exactly the answer its report stands for: an error, a miss, or the
    address with every value of the entry under its own key. *)
Theorem geo_lookups_exact {H E J} `{MaxMindLib H E} `{JL : JsonLaws J}
    (db : MaxMindDatabase.t H) (h : H) (ip : string) :
  geo_schema → MaxMindDatabase.is_open_ db = true → MaxMindDatabase.mmdb_ db = Some h →
  let r := MMDB_lookup_string h (c_str ip) in
  (∃ j : J, CityDatabase.lookup db ip = Ret j ∧ answer j ∧
     ∀ k, json_find k j = alist_find k (rev (expected city_members r ip))) ∧
  (∃ j : J, ASNDatabase.lookup db ip = Ret j ∧ answer j ∧
     ∀ k, json_find k j = alist_find k (rev (expected asn_members r ip))).
Proof.
  intros Hs Ho Hh r. rewrite (city_lookup_eq db h), (asn_lookup_eq db h) by done.
  split; apply expected_answer; [apply city_keeps_verdict|apply asn_keeps_verdict].
Qed.

(** C36: however a program opens MaxMind databases (successfully or not),
    moves, assigns (also to themselves) and destroys them: of the handles the
    library opened, each was closed once or is owned by one object still there,
    and when the last object is gone each was closed once. *)
Theorem maxmind_handles_closed_once {H E} `{MaxMindLib H E} (uses : list use) (w : world (MaxMindDatabase.t H) H) :
  act_all {| objects := ∅; released := [] |} (omap action_of uses) = Some w →
  released w ++ held (objects w) ≡ₚ opened uses ∧ (objects w = ∅ → released w ≡ₚ opened uses) ∧
  (NoDup (opened uses) → NoDup (released w ++ held (objects w))).
Proof.
  intros Hact. destruct (opened_acquired uses) as [Hi Ha].
  pose proof (act_all_conserves _ _ w (map_Forall_empty _) Hi Hact) as Hp. rewrite Ha in Hp. simpl in Hp.
  unfold held at 2 in Hp. rewrite map_to_list_empty in Hp. split_and!; [done| |by rewrite Hp].
  intros He. rewrite He in Hp. unfold held in Hp. rewrite map_to_list_empty in Hp. simpl in Hp.
  by rewrite app_nil_r in Hp.
Qed.

(** ** Witnesses *)
Lemma sample_lib_schema : @geo_schema unit bool sample_lib.
Proof.
  intros e. unfold MaxMindDatabase.get_value. simpl. split_and!.
  - intros p d Hp. repeat case_bool_decide; simpl; intros [= <-]; [eauto|].
    exfalso. subst p. set_solver.
  - intros p d Hp. repeat case_bool_decide; simpl; intros [= <-]; exfalso; subst p; set_solver.
  - intros d [= <-]. eauto.
Qed.

Lemma geo_lookups_exact_witness :
  let db : MaxMindDatabase.t unit := {| MaxMindDatabase.mmdb_ := Some tt; MaxMindDatabase.is_open_ := true |} in
  ∃ j, CityDatabase.lookup (H0 := sample_lib) (H1 := Tree.sample) db "8.8.8.8" = Ret j ∧
    json_find (JsonOps := Tree.sample) "country_code" j = Some (Tree.Str "US").
Proof.
  intros db.
  destruct (geo_lookups_exact (H0 := sample_lib) (JL := tree_laws (λ _, Ret "{}") (λ _, Ret Tree.Null))
    db tt "8.8.8.8" sample_lib_schema eq_refl eq_refl) as ((j & H1 & _ & H2) & _).
  exists j. split; [exact H1|]. rewrite H2. vm_compute. reflexivity.
Defined.

(** A library that opens every file but one, and numbers its handles. *)
Definition counting_lib : MaxMindLib nat bool := {|
  MMDB_open p := (if String.eqb p "none" then 1 else 0, String.length p);
  MMDB_strerror _ := "error";
  MMDB_lookup_string _ _ := {| gai_error := 0; mmdb_error := 0; found_entry := false; entry := true |};
  MMDB_aget_value _ _ := (1, false, OTHER_DATA)
|}.

Lemma maxmind_handles_closed_once_witness :
  let uses := [Open 0 "city"; Open 3 "none"; Open 1 "asnum"; Move 2 0; Assign 1 2; Assign 1 1; Close 0; Close 1; Close 2] in
  ∃ w : world (MaxMindDatabase.t nat) nat,
    act_all {| objects := ∅; released := [] |} (omap (action_of (H0 := counting_lib)) uses) = Some w ∧
    released w ≡ₚ [4%nat; 5%nat].
Proof.
  intros uses. eexists. split; [vm_compute; reflexivity|].
  apply (maxmind_handles_closed_once (H0 := counting_lib) uses {| objects := ∅; released := [5%nat; 4%nat] |}).
  - vm_compute. reflexivity.
  - reflexivity.
Defined.
