(* ===== verification/MacDatabase.v ===== *)
(** * The OUI database (src/src/mac_database.h, mac_database.cpp)

    [OUIDatabase] owns a SQLite connection and one prepared statement.
    SQLite is a parameter, [Sqlite]; the file is opened read-only, so the rows
    a statement gives are a function of the text bound to it.  A lookup holds
    the query mutex while it uses the statement. *)
From Stdlib Require Import ZArith Lia Ascii String.
From S2P Require Import Prelude StdList Double Json CppString Validation Ownership Backend.
#[local] Open Scope Z_scope.

Definition SQLITE_OK : Z := 0.
Definition SQLITE_ROW : Z := 100.
Definition SQLITE_DONE : Z := 101.

Class Sqlite (D S : Type) := {
  sqlite3_open_v2 : string → Z * option D;            (* status, *ppDb *)
  sqlite3_errmsg : D → string;
  sqlite3_prepare_v2 : D → string → Z * option S;     (* status, *ppStmt *)
  sqlite3_bind_text : S → string → Z;                 (* after reset and clear_bindings *)
  sqlite3_step : S → string → Z * (Z → option string) (* status, sqlite3_column_text *)
}.

Definition OUI_LOOKUP_SQL : string :=
  "SELECT oui, manufacturer, registry, short_name, device_type, registered_date, address, sources FROM oui_registry WHERE oui = ?".

(** What must be given back to SQLite. *)
Inductive resource (D S : Type) :=
| Connection (db : D)       (* sqlite3_close *)
| Statement (stmt : S).     (* sqlite3_finalize *)
Arguments Connection {D S} db.
Arguments Statement {D S} stmt.

Definition connections {D S} (db : option D) : list (resource D S) :=
  match db with Some d => [Connection d] | None => [] end.
Definition statements {D S} (stmt : option S) : list (resource D S) :=
  match stmt with Some s => [Statement s] | None => [] end.

(** [std::isxdigit(c)] of a (signed) [char]: undefined unless [c] converts to
    the value of an [unsigned char] or to [EOF]. *)
Definition ctype_defined (c : ascii) : bool := (code c <? 128) || (code c =? 255).

Module OUIDatabase.

Fixpoint normalize_loop (mac : list ascii) (normalized : list ascii) : exec (list ascii) :=
  match mac with
  | [] => Ret normalized
  | c :: mac' =>
      if negb (ctype_defined c) then Undefined
      else if is_xdigit c then normalize_loop mac' (normalized ++ [to_upper c])
      else normalize_loop mac' normalized
  end.

Definition normalize_mac_address (mac_address : string) : exec string :=
  str <$> normalize_loop (bytes mac_address) [].

Definition extract_oui (normalized_mac : string) : string :=
  if 6 <=? size normalized_mac then
    let oui := substr normalized_mac 0 6 in
    substr oui 0 2 +:+ ":" +:+ substr oui 2 2 +:+ ":" +:+ substr oui 4 2
  else "".

Section Database.
Context {D S : Type} `{Sqlite D S}.

Record t := {
  db_ : option D;
  lookup_stmt_ : option S;     (* std::unique_ptr *)
  is_open_ : bool
}.

(** The constructor: what it acquires, what it releases, and its outcome.  The
    result of the WAL pragma is only logged. *)
Definition create (db_path : string) : list (resource D S) * list (resource D S) * exec t :=
  let '(status, db) := sqlite3_open_v2 (c_str db_path) in
  if negb (status =? SQLITE_OK) then
    let error := match db with Some d => sqlite3_errmsg d | None => "unknown error" end in
    (connections db, connections db,
     Throw (runtime_error ("Failed to open OUI database '" +:+ db_path +:+ "': " +:+ error)))
  else
    match db with
    | None => ([], [], Undefined)
    | Some d =>
        let '(status, raw_stmt) := sqlite3_prepare_v2 d OUI_LOOKUP_SQL in
        if negb (status =? SQLITE_OK) then
          (connections db, connections db,
           Throw (runtime_error ("Failed to prepare OUI lookup statement: " +:+ sqlite3_errmsg d)))
        else
          (connections db ++ statements raw_stmt, [],
           Ret {| db_ := db; lookup_stmt_ := raw_stmt; is_open_ := true |})
    end.

(** The body of the destructor, then the deleter of [lookup_stmt_]. *)
Definition destroy (o : t) : list (resource D S) :=
  let body := if is_open_ o then statements (lookup_stmt_ o) ++ connections (db_ o) else [] in
  let stmt := if is_open_ o then None else lookup_stmt_ o in
  body ++ statements stmt.

Definition moved_from : t := {| db_ := None; lookup_stmt_ := None; is_open_ := false |}.

Definition move_construct (other : t) : t * t :=
  ({| db_ := db_ other; lookup_stmt_ := lookup_stmt_ other; is_open_ := is_open_ other |}, moved_from).

(** Assigning to [lookup_stmt_] deletes the statement it still holds. *)
Definition move_assign (o other : t) : t * t * list (resource D S) :=
  let closed := if is_open_ o then statements (lookup_stmt_ o) ++ connections (db_ o) else [] in
  let stmt := if is_open_ o then None else lookup_stmt_ o in
  ({| db_ := db_ other; lookup_stmt_ := lookup_stmt_ other; is_open_ := is_open_ other |},
   moved_from, closed ++ statements stmt).

(** [operator=] when [this == &other] *)
Definition move_assign_self (o : t) : t * list (resource D S) := (o, []).

Section Lookup.
Context {J : Type} `{JsonOps J}.

Definition OUI_COLUMNS : list (Z * string) :=
  [(1, "manufacturer"); (2, "registry"); (3, "short_name"); (4, "device_type");
   (5, "registered_date"); (6, "address"); (7, "sources")].

Fixpoint add_columns (columns : list (Z * string)) (text : Z → option string) (result : J) : exec J :=
  match columns with
  | [] => Ret result
  | (col_idx, key) :: columns' =>
      result ← match text col_idx with
               | Some col => json_set key (json_of_string col) result
               | None => Ret result
               end;
      add_columns columns' text result
  end.

Definition lookup (o : t) (mac_address : string) : exec J :=
  if negb (is_open_ o) then json_object [("error", json_of_string "Database not open")]
  else
    normalized ← normalize_mac_address mac_address;
    if negb (size normalized =? 12)
    then json_object [("error", json_of_string "Invalid MAC address format")]
    else
      let oui := extract_oui normalized in
      stmt ← deref (lookup_stmt_ o);
      db ← deref (db_ o);
      if negb (sqlite3_bind_text stmt (c_str oui) =? SQLITE_OK)
      then json_object [("error", json_of_string ("Failed to bind parameter: " +:+ sqlite3_errmsg db))]
      else
        let '(status, text) := sqlite3_step stmt (c_str oui) in
        if status =? SQLITE_ROW then
          result ← json_object [("mac", json_of_string mac_address); ("oui", json_of_string oui);
                                ("found", json_of_bool true)];
          add_columns OUI_COLUMNS text result
        else if status =? SQLITE_DONE then
          json_object [("mac", json_of_string mac_address); ("oui", json_of_string oui);
                       ("found", json_of_bool false)]
        else json_object [("error", json_of_string ("Query failed: " +:+ sqlite3_errmsg db))].

End Lookup.
End Database.
Arguments t D S : clear implicits.
End OUIDatabase.

(** ** What the operations are compared with *)

(** The digits of an address, in upper case, and its OUI written with colons. *)
Definition mac_digits (mac : string) : list ascii := to_upper <$> List.filter is_xdigit (bytes mac).

Definition oui_text (digits : list ascii) : string :=
  str (take 2 digits ++ [":"%char] ++ take 2 (drop 2 digits) ++ [":"%char] ++ take 2 (drop 4 digits)).

(** The answer for an address and its OUI. *)
Definition oui_expected {D S J} `{Sqlite D S, JsonOps J} (db : D) (stmt : S) (mac oui : string) :
    list (string * J) :=
  if negb (sqlite3_bind_text stmt (c_str oui) =? SQLITE_OK)
  then [("error", json_of_string ("Failed to bind parameter: " +:+ sqlite3_errmsg db))]
  else
    let '(status, text) := sqlite3_step stmt (c_str oui) in
    if status =? SQLITE_ROW then
      [("mac", json_of_string mac); ("oui", json_of_string oui); ("found", json_of_bool true)] ++
      omap (λ c : Z * string, (λ v, (c.2, json_of_string v)) <$> text c.1) OUIDatabase.OUI_COLUMNS
    else if status =? SQLITE_DONE then
      [("mac", json_of_string mac); ("oui", json_of_string oui); ("found", json_of_bool false)]
    else [("error", json_of_string ("Query failed: " +:+ sqlite3_errmsg db))].

#[export] Instance oui_movable {D S} : Movable (OUIDatabase.t D S) (resource D S) := {|
  owned o := statements (OUIDatabase.lookup_stmt_ o) ++
             (if OUIDatabase.is_open_ o then connections (OUIDatabase.db_ o) else []);
  intact o := if OUIDatabase.is_open_ o
              then is_Some (OUIDatabase.db_ o) ∧ is_Some (OUIDatabase.lookup_stmt_ o)
              else OUIDatabase.lookup_stmt_ o = None;
  move_construct := OUIDatabase.move_construct;
  move_assign := OUIDatabase.move_assign;
  move_assign_self := OUIDatabase.move_assign_self;
  destroy := OUIDatabase.destroy
|}.

#[export] Instance oui_backend {D S J} `{Sqlite D S, JsonOps J} : Backend J (OUIDatabase.t D S) :=
  OUIDatabase.lookup.

Definition oui_usable {D S} (o : OUIDatabase.t D S) : Prop :=
  OUIDatabase.is_open_ o = true ∧ is_Some (OUIDatabase.db_ o) ∧ is_Some (OUIDatabase.lookup_stmt_ o).

(** A library for the concrete examples: one registered prefix. *)
Definition sample_sqlite : Sqlite unit unit := {|
  sqlite3_open_v2 p := if String.eqb p "/oui.db" then (0, Some tt) else (14, Some tt);
  sqlite3_errmsg _ := "error";
  sqlite3_prepare_v2 _ _ := (0, Some tt);
  sqlite3_bind_text _ _ := 0;
  sqlite3_step _ oui := if String.eqb oui "00:1A:2B" then (100, λ c, if c =? 1 then Some "Acme" else None)
                        else (101, λ _, None)
|}.

(** ** Lemmas *)
#[export] Instance oui_movable_laws {D S} : MovableLaws (OUIDatabase.t D S) (resource D S).
Proof.
  split; simpl.
  - intros [db stmt []]; simpl; intros Ho; auto.
  - intros [db stmt []] [db' stmt' []]; simpl; intros Ho Ho';
      repeat match goal with H : _ ∧ _ |- _ => destruct H end;
      subst; rewrite ?app_nil_r; auto.
  - done.
  - intros [db stmt []] Ho; unfold OUIDatabase.destroy; simpl; rewrite ?app_nil_r; done.
Qed.

Lemma xdigit_defined c : is_xdigit c = true → ctype_defined c = true.
Proof.
  unfold is_xdigit, is_digit, ctype_defined. rewrite !orb_true_iff, !andb_true_iff, !Z.leb_le, Z.ltb_lt. lia.
Qed.

Lemma separator_cases c : is_separator c = true → ctype_defined c = true ∧ is_xdigit c = false.
Proof.
  unfold is_separator. rewrite orb_true_iff, !bool_decide_eq_true. by intros [->| ->].
Qed.

Lemma normalize_loop_ok l acc :
  Forall (λ c, ctype_defined c = true) l →
  OUIDatabase.normalize_loop l acc = Ret (acc ++ (to_upper <$> List.filter is_xdigit l)).
Proof.
  intros Hl. revert acc. induction Hl as [|c l Hc _ IH]; intros acc; simpl; [by rewrite app_nil_r|].
  rewrite Hc. cbn [negb]. destruct (is_xdigit c); rewrite IH; [|done]. simpl. by rewrite <-app_assoc.
Qed.

Lemma filter_xdigit_id l : Forall (λ c, is_xdigit c = true) l → List.filter is_xdigit l = l.
Proof. induction 1 as [|c l Hc _ IH]; simpl; [done|]. by rewrite Hc, IH. Qed.

(** Separators do not matter. *)
Lemma filter_grouped pairs seps :
  length seps = pred (length pairs) → Forall hex_pair pairs →
  Forall (λ c, is_separator c = true) seps →
  Forall (λ c, ctype_defined c = true) (grouped pairs seps) ∧
  List.filter is_xdigit (grouped pairs seps) = pairs ≫= λ p, [p.1; p.2].
Proof.
  intros Hlen Hp. revert seps Hlen. induction Hp as [|[a b] pairs [Ha Hb] Hp IH]; intros seps Hlen Hs; [done|].
  simpl in Ha, Hb. destruct seps as [|s seps].
  - destruct pairs; [|discriminate Hlen]. simpl. rewrite Ha, Hb. split; [|done].
    repeat constructor; by apply xdigit_defined.
  - destruct pairs as [|p pairs]; [discriminate Hlen|]. apply Forall_cons in Hs as [Hs1 Hs].
    apply separator_cases in Hs1 as [Hd Hx]. destruct (IH seps) as [IH1 IH2]; [simpl in *; lia|done|].
    split.
    + constructor; [by apply xdigit_defined|]. constructor; [by apply xdigit_defined|]. by constructor.
    + change (grouped ((a, b) :: p :: pairs) (s :: seps)) with (a :: b :: s :: grouped (p :: pairs) seps).
      cbn [List.filter]. rewrite Ha, Hb, Hx, IH2. done.
Qed.

Lemma mac_grammar_normal mac :
  mac_grammar (bytes mac) →
  OUIDatabase.normalize_mac_address mac = Ret (str (mac_digits mac)) ∧ length (mac_digits mac) = 12%nat.
Proof.
  intros Hg.
  assert (Forall (λ c, ctype_defined c = true) (bytes mac) ∧
          length (List.filter is_xdigit (bytes mac)) = 12%nat) as [Hd Hl].
  { destruct Hg as [[Hl Hx]|(pairs & seps & Hg & Hp & Hs & Fp & Fs)].
    - split; [|by rewrite filter_xdigit_id]. eapply Forall_impl; [exact Hx|]. apply xdigit_defined.
    - rewrite Hg. destruct (filter_grouped pairs seps) as [H1 H2]; [lia|done|done|].
      split; [done|]. rewrite H2. do 6 (destruct pairs as [|? pairs]; [discriminate Hp|]).
      by destruct pairs. }
  split.
  - unfold OUIDatabase.normalize_mac_address. by rewrite normalize_loop_ok.
  - unfold mac_digits. by rewrite length_fmap.
Qed.

Lemma extract_oui_text digits :
  length digits = 12%nat → OUIDatabase.extract_oui (str digits) = oui_text digits.
Proof.
  intros Hl. unfold OUIDatabase.extract_oui, size. rewrite bytes_str, Hl. simpl Z.leb. cbv iota.
  do 12 (destruct digits as [|? digits]; [discriminate Hl|]). done.
Qed.

Section Facts.
Context {D S J : Type} `{SQ : Sqlite D S} `{JL : JsonLaws J}.
Import OUIDatabase.

Lemma add_columns_eq cols text (j : J) :
  add_columns cols text j =
    json_set_all (omap (λ c : Z * string, (λ v, (c.2, json_of_string v)) <$> text c.1) cols) j.
Proof.
  revert j. induction cols as [|[i key] cols IH]; intros j; [done|].
  simpl. destruct (text i) as [v|]; simpl; [|apply IH].
  destruct (json_set key _ j); simpl; [apply IH|done..].
Qed.

Lemma oui_lookup_eq (o : t D S) db stmt mac :
  is_open_ o = true → db_ o = Some db → lookup_stmt_ o = Some stmt → mac_grammar (bytes mac) →
  lookup o mac = json_object (oui_expected db stmt mac (oui_text (mac_digits mac)) : list (string * J)).
Proof.
  intros Ho Hd Hs Hm. destruct (mac_grammar_normal mac Hm) as [Hn Hl].
  unfold lookup, oui_expected. rewrite Ho, Hn. cbn [negb mbind exec_bind].
  unfold size. rewrite bytes_str, Hl, (extract_oui_text _ Hl), Hs, Hd. simpl (_ =? _). cbn [negb deref mbind exec_bind].
  destruct (negb (sqlite3_bind_text _ _ =? _)); [done|].
  destruct (sqlite3_step _ _) as [status text].
  destruct (status =? SQLITE_ROW); [|by destruct (status =? SQLITE_DONE)].
  unfold json_object. rewrite json_set_all_app.
  destruct (json_set_all _ json_null); [|done..]. cbn [mbind exec_bind]. apply add_columns_eq.
Qed.

Lemma columns_keep_verdict (text : Z → option string) k :
  k = "found" ∨ k = "error" ∨ k = "oui" ∨ k = "mac" →
  alist_find k (rev (omap (λ c : Z * string, (λ v, (c.2, json_of_string v : J)) <$> text c.1) OUI_COLUMNS)) = None.
Proof.
  intros Hk. apply alist_find_None. intros Hin. apply list_elem_of_fmap in Hin as ([k' v] & -> & Hp).
  apply list_elem_of_In, in_rev, list_elem_of_In, list_elem_of_omap in Hp as ([i key] & Hc & Ht).
  simpl in Ht. destruct (text i); [|discriminate Ht]. injection Ht as -> _. simpl in Hk.
  unfold OUI_COLUMNS in Hc. repeat (apply elem_of_cons in Hc as [Hc|Hc]; [injection Hc as -> ->; naive_solver|]).
  by apply elem_of_nil in Hc.
Qed.

Lemma oui_expected_answer db stmt mac oui :
  ∃ j : J, json_object (oui_expected db stmt mac oui) = Ret j ∧ answer j ∧
    ∀ k, json_find k j = alist_find k (rev (oui_expected db stmt mac oui)).
Proof.
  apply object_answer; unfold oui_expected;
    (destruct (negb (sqlite3_bind_text stmt (c_str oui) =? SQLITE_OK)); [try done; try (right; by eexists)|]);
    destruct (sqlite3_step stmt (c_str oui)) as [status text];
    (destruct (status =? SQLITE_ROW); [|destruct (status =? SQLITE_DONE)]);
    rewrite ?rev_app_distr, ?alist_find_app, ?columns_keep_verdict by auto;
    try done; try (intros v [= <-]; eauto); try (left; by eexists); right; by eexists.
Qed.

Lemma oui_backend_laws : BackendLaws J (t D S) oui_usable (λ mac, isValidMacFormat mac = Ret true).
Proof.
  intros o mac (Ho & (db & Hd) & (stmt & Hs)) Hm. apply isValidMacFormat_iff in Hm.
  unfold backend_lookup, oui_backend. rewrite (oui_lookup_eq o db stmt) by done.
  destruct (oui_expected_answer db stmt mac (oui_text (mac_digits mac))) as (j & -> & Ha & _). by exists j.
Qed.
End Facts.

(** ** Properties *)

(** C26: on every address the format check accepts, a lookup in an open OUI
    database reads no character outside the domain of [isxdigit], never
    reports an invalid format, and returns exactly the answer of the row that
    SQLite finds for the first three bytes, in upper case, with colons. *)
Theorem oui_lookup_exact {D S J} `{Sqlite D S} `{JL : JsonLaws J}
    (o : OUIDatabase.t D S) (db : D) (stmt : S) (mac : string) :
  OUIDatabase.is_open_ o = true → OUIDatabase.db_ o = Some db → OUIDatabase.lookup_stmt_ o = Some stmt →
  isValidMacFormat mac = Ret true →
  ∃ j : J, OUIDatabase.lookup o mac = Ret j ∧ answer j ∧
    ∀ k, json_find k j = alist_find k (rev (oui_expected db stmt mac (oui_text (mac_digits mac)))).
Proof.
  intros Ho Hd Hs Hm. apply isValidMacFormat_iff in Hm. rewrite (oui_lookup_eq o db stmt) by done.
  apply oui_expected_answer.
Qed.

(** C25: the spelling of an address (colons, hyphens, neither, either case of
    the digits) does not matter: the answers for two spellings differ only in
    the ["mac"] member, which repeats the question. *)
Theorem mac_spelling_irrelevant {D S J} `{Sqlite D S} `{JL : JsonLaws J}
    (o : OUIDatabase.t D S) (mac1 mac2 : string) :
  oui_usable o → isValidMacFormat mac1 = Ret true → isValidMacFormat mac2 = Ret true →
  mac_digits mac1 = mac_digits mac2 →
  ∃ j1 j2 : J, OUIDatabase.lookup o mac1 = Ret j1 ∧ OUIDatabase.lookup o mac2 = Ret j2 ∧
    ∀ k, k ≠ "mac" → json_find k j1 = json_find k j2.
Proof.
  intros (Ho & (db & Hd) & (stmt & Hs)) H1%isValidMacFormat_iff H2%isValidMacFormat_iff Heq.
  rewrite (oui_lookup_eq o db stmt mac1), (oui_lookup_eq o db stmt mac2), Heq by done.
  destruct (oui_expected_answer db stmt mac1 (oui_text (mac_digits mac2))) as (j1 & Hj1 & _ & F1).
  destruct (oui_expected_answer db stmt mac2 (oui_text (mac_digits mac2))) as (j2 & Hj2 & _ & F2).
  exists j1, j2. split_and!; [done|done|]. intros k Hk. rewrite F1, F2. unfold oui_expected.
  destruct (negb _); [done|]. destruct (sqlite3_step _ _) as [status text].
  assert (Hm : ∀ b, alist_find k (rev [("mac", json_of_string mac1); ("oui", json_of_string (oui_text (mac_digits mac2))); ("found", json_of_bool b : J)]) =
    alist_find k (rev [("mac", json_of_string mac2); ("oui", json_of_string (oui_text (mac_digits mac2))); ("found", json_of_bool b)])).
  { intros b. simpl. rewrite !alist_find_cons. simpl. repeat case_decide; congruence. }
  destruct (status =? SQLITE_ROW); [|destruct (status =? SQLITE_DONE); [apply Hm|done]].
  by rewrite !rev_app_distr, !alist_find_app, Hm.
Qed.

(** C37: the constructor gives back everything it acquired when it fails, and
    hands it to the object when it succeeds; and however a program moves,
    assigns (also to itself) and destroys such objects, no connection or
    statement is released twice or too early, and in the end all are. *)
Theorem oui_handles_released_once {D S} `{Sqlite D S} :
  (∀ path, let '(acquired, released, o) := OUIDatabase.create path in
     acquired ≡ₚ released ++ match o with Ret o => owned o | _ => [] end) ∧
  (∀ (l : list (action (OUIDatabase.t D S))) w,
     creates_intact (R := resource D S) l → NoDup (acquired (R := resource D S) l) →
     act_all {| objects := ∅; released := [] |} l = Some w →
     NoDup (released w ++ held (objects w)) ∧ (objects w = ∅ → released w ≡ₚ acquired l)).
Proof.
  split; [|intros l w; apply released_once].
  intros path. unfold OUIDatabase.create. destruct (sqlite3_open_v2 (c_str path)) as [status [d|]];
    destruct (negb (status =? SQLITE_OK)); simpl; try done.
  destruct (sqlite3_prepare_v2 d OUI_LOOKUP_SQL) as [status' stmt].
  destruct (negb (status' =? SQLITE_OK)); simpl; [done|]. solve_Permutation.
Qed.

(** ** Witnesses *)
Lemma oui_lookup_exact_witness :
  let o : OUIDatabase.t unit unit :=
    {| OUIDatabase.db_ := Some tt; OUIDatabase.lookup_stmt_ := Some tt; OUIDatabase.is_open_ := true |} in
  ∃ j, OUIDatabase.lookup (H := sample_sqlite) (H0 := Tree.sample) o "00-1a-2b:ff:ff:ff" = Ret j ∧
    json_find (JsonOps := Tree.sample) "manufacturer" j = Some (Tree.Str "Acme").
Proof.
  intros o.
  destruct (oui_lookup_exact (H := sample_sqlite) (JL := tree_laws (λ _, Ret "{}") (λ _, Ret Tree.Null))
    o tt tt "00-1a-2b:ff:ff:ff" eq_refl eq_refl eq_refl eq_refl) as (j & H1 & _ & H2).
  exists j. split; [exact H1|]. rewrite H2. vm_compute. reflexivity.
Defined.

Lemma mac_spelling_irrelevant_witness :
  let o : OUIDatabase.t unit unit :=
    {| OUIDatabase.db_ := Some tt; OUIDatabase.lookup_stmt_ := Some tt; OUIDatabase.is_open_ := true |} in
  ∃ j1 j2, OUIDatabase.lookup (H := sample_sqlite) (H0 := Tree.sample) o "00-1A-2B-ff-ff-ff" = Ret j1 ∧
    OUIDatabase.lookup (H := sample_sqlite) (H0 := Tree.sample) o "001a2bFFFFFF" = Ret j2 ∧
    ∀ k, k ≠ "mac" → json_find (JsonOps := Tree.sample) k j1 = json_find (JsonOps := Tree.sample) k j2.
Proof.
  intros o.
  apply (mac_spelling_irrelevant (H := sample_sqlite) (JL := tree_laws (λ _, Ret "{}") (λ _, Ret Tree.Null))
    o "00-1A-2B-ff-ff-ff" "001a2bFFFFFF"); [|reflexivity..].
  split; [reflexivity|]. split; by eexists.
Defined.

Lemma oui_handles_released_once_witness :
  let o : OUIDatabase.t nat nat :=
    {| OUIDatabase.db_ := Some 1%nat; OUIDatabase.lookup_stmt_ := Some 2%nat; OUIDatabase.is_open_ := true |} in
  ∃ w, act_all {| objects := ∅; released := [] |} [Create 0 o; MoveConstruct 1 0; Destroy 0; Destroy 1] = Some w ∧
    released w ≡ₚ [Statement 2%nat; Connection 1%nat].
Proof.
  intros o. eexists. split; [vm_compute; reflexivity|].
  refine (proj2 (proj2 (oui_handles_released_once (H := Build_Sqlite nat nat (λ _, (0, None)) (λ _, "") (λ _ _, (0, None))
    (λ _ _, 0) (λ _ _, (0, λ _, None)))) [Create 0 o; MoveConstruct 1 0; Destroy 0; Destroy 1] _ _ _ _) _).
  - repeat constructor; by eexists.
  - vm_compute. repeat constructor; set_solver.
  - vm_compute. reflexivity.
  - reflexivity.
Defined.
