(* ===== verification/Services.v ===== *)
(** * The lookup services (src/src/service/, types.h)

    [IPGeoService] and [MACLookupService] put the cache in front of their
    databases.  A lookup is two atomic steps: the [get] of the cache, and, on
    a miss, the queries with the [put] that ends them; the databases are
    read-only.  Each step is given the clock reading it takes.  The services
    are generic in the databases ([Backend]); [Module Threads] runs any number
    of lookups in any interleaving. *)
From Stdlib Require Import ZArith Lia String.
From S2P Require Import Prelude StdList Double Json CppString Validation Cache Ownership Backend MaxMind MacDatabase.
#[local] Open Scope Z_scope.

(** [LookupResult] *)
Record LookupResult (J : Type) := { data_ : J; cache_hit_ : bool }.
Arguments data_ {J}.
Arguments cache_hit_ {J}.

Section Service.
Context {J : Type} `{JsonOps J} (hash : string → Z).

(** [cache_.get(key)], [cache_.put(key, value, type)] *)
Definition cache_get (key : string) (now : Z) : M (IPCache.t J) (option J) := λ c,
  match IPCache.get hash c key now with
  | Ret (r, c') => (Ret r, c')
  | Throw e => (Throw e, c)
  | Undefined => (Undefined, c)
  | OutOfFuel => (OutOfFuel, c)
  end.

Definition cache_put (key : string) (value : J) (type : CacheDataType) (now : Z) : M (IPCache.t J) unit := λ c,
  match IPCache.put hash c key value type now with
  | Ret c' => (Ret tt, c')
  | Throw e => (Throw e, c)
  | Undefined => (Undefined, c)
  | OutOfFuel => (OutOfFuel, c)
  end.

(** Inside a lookup the state is the cache and the local [result]. *)
Definition L (A : Type) : Type := M (IPCache.t J * J) A.

Definition get_result : L J := λ w, (Ret w.2, w).
Definition set_result (j : J) : L unit := λ w, (Ret tt, (w.1, j)).
Definition modify_result (f : J → exec J) : L unit := λ w,
  match f w.2 with
  | Ret j => (Ret tt, (w.1, j))
  | Throw e => (Throw e, w)
  | Undefined => (Undefined, w)
  | OutOfFuel => (OutOfFuel, w)
  end.
Definition put_result (key : string) (type : CacheDataType) (now : Z) : L unit :=
  j ← get_result;
  zoom (W := IPCache.t J * J) fst (λ c w, (c, w.2)) (cache_put key j type now).

(** [try { body } catch (const std::exception& e) { result["error"] = e.what(); }]
    and [return LookupResult(result, false);] *)
Definition guarded (body : L unit) (initial : J) : M (IPCache.t J) J := λ c,
  let '(r, (c', result)) :=
    try_catch body (λ e, modify_result (json_set "error" (json_of_string (exn_what e)))) (c, initial) in
  (match r with
   | Ret _ => Ret result
   | Throw e => Throw e
   | Undefined => Undefined
   | OutOfFuel => OutOfFuel
   end, c').
End Service.

(** A service over a state of type [S], as its two steps. *)
Record service (S J : Type) := {
  on_lookup : string → Z → M S (option J);
  on_miss : string → Z → M S J
}.
Arguments on_lookup {S J}.
Arguments on_miss {S J}.

Definition lookup {S J} (s : service S J) (key : string) (now now' : Z) : M S (LookupResult J) :=
  cached ← on_lookup s key now;
  match cached with
  | Some value => mret {| data_ := value; cache_hit_ := true |}
  | None =>
      result ← on_miss s key now';
      mret {| data_ := result; cache_hit_ := false |}
  end.

(** A service whose state is a part of a larger one. *)
Definition embed {W S J} (get : W → S) (put : S → W → W) (s : service S J) : service W J :=
  {| on_lookup key now := zoom get put (on_lookup s key now);
     on_miss key now := zoom get put (on_miss s key now) |}.

(** ** The two services *)
Module IPGeoService.
Section Service.
Context {J DC DA : Type} `{JsonOps J} {BC : Backend J DC} {BA : Backend J DA} (hash : string → Z).

(** The body of the [try] block. *)
Definition body (city_db_ : DC) (asn_db_ : DA) (ip_address : string) (now : Z) : L unit :=
  city_result ← pure (backend_lookup city_db_ ip_address);
  asn_result ← pure (backend_lookup asn_db_ ip_address);
  if json_contains "error" city_result then
    e ← pure (deref (json_find "error" city_result));
    modify_result (json_set "error" e)
  else
    city_found ← pure (json_value_bool "found" false city_result);
    asn_found ← pure (json_value_bool "found" false asn_result);
    if negb city_found && negb asn_found then put_result hash ip_address NEGATIVE now
    else
      modify_result (json_set "found" (json_of_bool true));;
      (if city_found : bool then modify_result (λ result, json_update result city_result) else mret tt);;
      (if asn_found : bool then modify_result (λ result, json_update result asn_result) else mret tt);;
      put_result hash ip_address IP_GEOLOCATION now.

Definition on_miss (city_db_ : DC) (asn_db_ : DA) (ip_address : string) (now : Z) : M (IPCache.t J) J :=
  result ← pure (json_object [("ip", json_of_string ip_address); ("found", json_of_bool false)]);
  guarded (body city_db_ asn_db_ ip_address now) result.

Definition geo_service (city_db_ : DC) (asn_db_ : DA) : service (IPCache.t J) J :=
  {| Services.on_lookup := cache_get hash; Services.on_miss := on_miss city_db_ asn_db_ |}.
End Service.

(** The object: its databases, which are read-only once open, and its cache. *)
Record t (H J : Type) := {
  city_db_ : MaxMindDatabase.t H;
  asn_db_ : MaxMindDatabase.t H;
  cache_ : IPCache.t J
}.
Arguments city_db_ {H J}.
Arguments asn_db_ {H J}.
Arguments cache_ {H J}.

(** The constructor: both databases are opened, and the cache has its default
    size and number of shards. *)
Definition create {H E J} `{MaxMindLib H E} (city_db_path asn_db_path : string) : exec (t H J) :=
  city ← MaxMindDatabase.create city_db_path;
  asn ← MaxMindDatabase.create asn_db_path;
  cache ← IPCache.create DEFAULT_MAX_MEMORY IPCache.default_shard_count;
  Ret {| city_db_ := city; asn_db_ := asn; cache_ := cache |}.

Definition cache_stats {J} (cache : IPCache.t J) : CacheStats.t := IPCache.get_stats cache.
End IPGeoService.

Module MACLookupService.
Section Service.
Context {J D : Type} `{JsonOps J} {BO : Backend J D} (hash : string → Z).

Definition body (oui_db_ : D) (mac_address : string) (now : Z) : L unit :=
  j ← pure (backend_lookup oui_db_ mac_address);
  set_result j;;
  if json_contains "error" j then mret tt
  else
    found ← pure (json_value_bool "found" false j);
    if found : bool then put_result hash mac_address MAC_OUI now
    else put_result hash mac_address NEGATIVE now.

Definition on_miss (oui_db_ : D) (mac_address : string) (now : Z) : M (IPCache.t J) J :=
  guarded (body oui_db_ mac_address now) json_null.

Definition mac_service (oui_db_ : D) : service (IPCache.t J) J :=
  {| Services.on_lookup := cache_get hash; Services.on_miss := on_miss oui_db_ |}.
End Service.

Record t (D S J : Type) := {
  oui_db_ : OUIDatabase.t D S;
  cache_ : IPCache.t J
}.
Arguments oui_db_ {D S J}.
Arguments cache_ {D S J}.

Definition create {D S J} `{Sqlite D S} (oui_db_path : string) : exec (t D S J) :=
  oui ← (OUIDatabase.create oui_db_path).2;
  cache ← IPCache.create (50 * 1024 * 1024) IPCache.default_shard_count;
  Ret {| oui_db_ := oui; cache_ := cache |}.

Definition cache_stats {J} (cache : IPCache.t J) : CacheStats.t := IPCache.get_stats cache.
End MACLookupService.

(** ** Many lookups at once *)
Module Threads.
Section Threads.
Context {S J : Type} (s : service S J).

Inductive phase :=
| Ready                          (* before the get *)
| Missed                         (* after a get that missed *)
| Finished (r : LookupResult J)
| Failed (r : exec (LookupResult J)).   (* an exception left the call, or worse *)

Record state := { threads : list (string * phase); cache : S }.

Definition outcome {A} (r : exec A) (k : A → phase) : phase :=
  match r with
  | Ret a => k a
  | Throw e => Failed (Throw e)
  | Undefined => Failed Undefined
  | OutOfFuel => Failed OutOfFuel
  end.

(** Thread [i] takes its next step at time [now]. *)
Definition step (w : state) (i : nat) (now : Z) : state :=
  match threads w !! i with
  | Some (key, Ready) =>
      let '(r, c) := on_lookup s key now (cache w) in
      let p := outcome r (λ o, match o with
                               | Some v => Finished {| data_ := v; cache_hit_ := true |}
                               | None => Missed
                               end) in
      {| threads := <[i := (key, p)]> (threads w); cache := c |}
  | Some (key, Missed) =>
      let '(r, c) := on_miss s key now (cache w) in
      let p := outcome r (λ v, Finished {| data_ := v; cache_hit_ := false |}) in
      {| threads := <[i := (key, p)]> (threads w); cache := c |}
  | _ => w
  end.

Definition run (w : state) (schedule : list (nat * Z)) : state :=
  fold_left (λ w p, step w p.1 p.2) schedule w.

Definition start (keys : list string) (c : S) : state :=
  {| threads := (λ k, (k, Ready)) <$> keys; cache := c |}.
End Threads.
Arguments phase J : clear implicits.
Arguments state S J : clear implicits.
End Threads.

(** ** The services without their caches *)
Section Reference.
Context {J : Type} `{JsonOps J}.

(** The answer, and as what it may be cached. *)
Definition verdict : Type := J * option CacheDataType.

(** An answer that cannot be printed cannot be cached: the exception of the
    cache is reported in it. *)
Definition reported (v : verdict) : exec J :=
  match v.2, json_dump v.1 with
  | Some _, Throw e => json_set "error" (json_of_string (exn_what e)) v.1
  | _, _ => Ret v.1
  end.

Definition geo_verdict {DC DA} {BC : Backend J DC} {BA : Backend J DA} (city : DC) (asn : DA) (ip : string) :
    exec verdict :=
  base ← json_object [("ip", json_of_string ip); ("found", json_of_bool false)];
  c ← backend_lookup city ip;
  a ← backend_lookup asn ip;
  match json_find "error" c with
  | Some e => j ← json_set "error" e base; Ret (j, None)
  | None =>
      if negb (says_found c) && negb (says_found a) then Ret (base, Some NEGATIVE)
      else
        j ← json_set "found" (json_of_bool true) base;
        j ← (if says_found c then json_update j c else Ret j);
        j ← (if says_found a then json_update j a else Ret j);
        Ret (j, Some IP_GEOLOCATION)
  end.

Definition mac_verdict {D} {BO : Backend J D} (oui : D) (mac : string) : exec verdict :=
  j ← backend_lookup oui mac;
  Ret (j, if json_contains "error" j then None
          else if says_found j then Some MAC_OUI else Some NEGATIVE).

(** What a lookup must return for a key. *)
Definition uncached (v : string → exec verdict) (key : string) : exec J := v key ≫= reported.

(** A service computes the verdicts of [v], on the keys of [good]. *)
Definition computes (hash : string → Z) (s : service (IPCache.t J) J) (v : string → exec verdict) (good : string → Prop) : Prop :=
  on_lookup s = cache_get hash ∧
  ∀ key now c, good key →
    ∃ j kind, v key = Ret (j, kind) ∧ json_is_object j = true ∧
      on_miss s key now c =
        match kind with
        | None => (Ret j, c)
        | Some ty =>
            match IPCache.put hash c key j ty now with
            | Ret c' => (Ret j, c')
            | Throw e => (json_set "error" (json_of_string (exn_what e)) j, c)
            | Undefined => (Undefined, c)
            | OutOfFuel => (OutOfFuel, c)
            end
        end.

(** In states of [I], a service serves the uncached answers of the keys of
    [good]: both its steps return, keep [I], and give the right answer. *)
Definition serves {S} (I : S → Prop) (v : string → exec verdict) (good : string → Prop) (s : service S J) : Prop :=
  ∀ c key now, I c → good key →
    ∃ data, uncached v key = Ret data ∧
      (∃ r c', on_lookup s key now c = (Ret r, c') ∧ I c' ∧
         match r with Some d => d = data ∧ ∃ ty, v key = Ret (d, Some ty) | None => True end) ∧
      (∃ c', on_miss s key now c = (Ret data, c') ∧ I c').

(** Every entry of the cache is a verdict that may be cached. *)
Definition coherent (hash : string → Z) (v : string → exec verdict) (c : IPCache.t J) : Prop :=
  ipcache_wf hash c ∧
  cache_all (λ k i, v k = Ret (Lru.value i, Some (Lru.kind i)) ∧ ∃ text, json_dump (Lru.value i) = Ret text) c.
End Reference.

(** Services over the sample libraries, for the concrete examples. *)
Module Sample.
#[local] Existing Instance Tree.sample.
#[local] Existing Instance sample_lib.
#[local] Existing Instance sample_sqlite.

Definition geo_db : MaxMindDatabase.t unit :=
  {| MaxMindDatabase.mmdb_ := Some tt; MaxMindDatabase.is_open_ := true |}.
Definition oui_db : OUIDatabase.t unit unit :=
  {| OUIDatabase.db_ := Some tt; OUIDatabase.lookup_stmt_ := Some tt; OUIDatabase.is_open_ := true |}.

Definition city : Backend Tree.tree (MaxMindDatabase.t unit) := city_backend.
Definition asn : Backend Tree.tree (MaxMindDatabase.t unit) := asn_backend.
Definition oui : Backend Tree.tree (OUIDatabase.t unit unit) := oui_backend.

Definition geo : service (IPCache.t Tree.tree) Tree.tree := IPGeoService.geo_service (BC := city) (BA := asn) (λ _, 5) geo_db geo_db.
Definition mac : service (IPCache.t Tree.tree) Tree.tree := MACLookupService.mac_service (BO := oui) (λ _, 5) oui_db.

Definition geo_truth : string → exec verdict := geo_verdict (BC := city) (BA := asn) geo_db geo_db.
Definition mac_truth : string → exec verdict := mac_verdict (BO := oui) oui_db.

(** Two lookups of one key, interleaved. *)
Definition two (s : service (IPCache.t Tree.tree) Tree.tree) (key : string) : exec (list (string * Threads.phase Tree.tree)) :=
  c0 ← IPCache.create 1000 8;
  Ret (Threads.threads (Threads.run s (Threads.start [key; key] c0)
    [(0%nat, 1); (1%nat, 2); (0%nat, 3); (1%nat, 4)])).
End Sample.

(** ** Lemmas *)
Section Coherence.
Context {J : Type} `{JL : JsonLaws J} (hash : string → Z).
Implicit Types (c : IPCache.t J) (v : string → exec (verdict (J := J))).

Lemma ipcache_put_throws c k (j : J) ty now e :
  ipcache_wf hash c → json_dump j = Throw e → IPCache.put hash c k j ty now = Throw e.
Proof.
  intros Hwf Hd. destruct (home_shard hash c k Hwf) as (s & _ & _ & Hidx & Hat).
  unfold IPCache.put. rewrite Hidx. cbn [mbind exec_bind]. rewrite Hat. cbn [mbind exec_bind].
  by rewrite (put_throws _ _ _ _ _ e).
Qed.

Lemma coherent_get v c key now :
  coherent hash v c →
  ∃ r c', cache_get hash key now c = (Ret r, c') ∧ coherent hash v c' ∧
    match r with
    | Some d => uncached v key = Ret d ∧ ∃ ty, v key = Ret (d, Some ty)
    | None => True
    end.
Proof.
  intros [Hwf Hall]. destruct (ipcache_get_ok hash c key now Hwf) as (r & c' & Hg & Hwf' & _ & HP).
  destruct (HP _ Hall) as [Hall' Hr]. exists r, c'. unfold cache_get. rewrite Hg. split_and!; [done|by split|].
  destruct r as [d|]; [|done]. destruct Hr as (i & (Hv & text & Hd) & <- & _).
  split; [|by eauto].
  unfold uncached. rewrite Hv. cbn [mbind exec_bind]. unfold reported. cbn [fst snd]. by rewrite Hd.
Qed.

Lemma coherent_put v c key now j ty text :
  coherent hash v c → v key = Ret (j, Some ty) → json_dump j = Ret text →
  ∃ c', IPCache.put hash c key j ty now = Ret c' ∧ coherent hash v c'.
Proof.
  intros [Hwf Hall] Hv Hd.
  destruct (ipcache_put_ok hash c key j ty now _ Hwf
    ltac:(unfold CacheShard.estimate_entry_size; rewrite Hd; reflexivity)) as (c' & Hp & Hwf' & _ & _ & HP).
  exists c'. split; [done|]. split; [done|]. eapply HP; [exact Hall|by eauto|done].
Qed.

Lemma json_set_error (j : J) e :
  json_is_object j = true → ∃ j', json_set "error" (json_of_string e) j = Ret j'.
Proof. intros Hj. destruct (json_set_ok "error" (json_of_string e) j) as (j' & ? & _); eauto. Qed.

(** The two steps of a lookup, on a coherent cache. *)
Lemma computes_serves s v good :
  (∀ j : J, safe (json_dump j)) → computes hash s v good → serves (coherent hash v) v good s.
Proof.
  intros Hsafe [Hget Hmiss] c key now Hc Hgood. destruct (Hmiss key now c Hgood) as (j & kind & Hv & Hobj & Hm).
  assert (∃ data, uncached v key = Ret data ∧
    ∃ c', on_miss s key now c = (Ret data, c') ∧ coherent hash v c') as (data & Hu & Hmd).
  { unfold uncached. rewrite Hv. cbn [mbind exec_bind]. unfold reported. cbn [fst snd]. rewrite Hm.
    destruct kind as [ty|]; [|exists j; split; [done|by exists c]].
    specialize (Hsafe j). destruct (json_dump j) as [text|e| |] eqn:Hd; try done.
    - destruct (coherent_put v c key now j ty text Hc Hv Hd) as (c' & -> & Hc').
      exists j. split; [done|by exists c'].
    - rewrite (ipcache_put_throws c key j ty now e) by (done || apply Hc).
      destruct (json_set_error j (exn_what e) Hobj) as (j' & ->). exists j'. split; [done|by exists c]. }
  exists data. split_and!; [done| |done]. rewrite Hget.
  destruct (coherent_get v c key now Hc) as (r & c' & Hg & Hc' & Hr).
  exists r, c'. split_and!; [done|done|]. destruct r; [|done]. destruct Hr. split; [congruence|done].
Qed.

Lemma create_coherent v max count c :
  0 < count → IPCache.create max count = Ret c → coherent hash v c.
Proof.
  intros Hn Hc. destruct (create_ok (J := J) hash max count Hn) as (c' & Hc' & Hwf & _ & Hall).
  rewrite Hc in Hc'. injection Hc' as <-. by split.
Qed.
End Coherence.

Section Serving.
Context {S J : Type} `{JsonOps J}.

(** A whole lookup, one step after the other. *)
Lemma serves_lookup (I : S → Prop) (v : string → exec (verdict (J := J))) good s c key now now' :
  serves I v good s → I c → good key →
  ∃ r c', lookup s key now now' c = (Ret r, c') ∧ I c' ∧ uncached v key = Ret (data_ r).
Proof.
  intros Hs Hc Hg. destruct (Hs c key now Hc Hg) as (data & Hu & (o & c1 & H1 & Hc1 & Ho) & _).
  unfold lookup. cbv [mbind M_bind]. rewrite H1. destruct o as [d|].
  - destruct Ho as [-> _]. do 2 eexists. split; [reflexivity|]. by split.
  - destruct (Hs c1 key now' Hc1 Hg) as (data' & Hu' & _ & (c2 & H2 & Hc2)). rewrite H2.
    do 2 eexists. split; [reflexivity|]. split; [done|]. done.
Qed.

Lemma serves_embed {W} (get : W → S) (put : S → W → W) (I : S → Prop) (I' : W → Prop)
    (v : string → exec (verdict (J := J))) good s :
  (∀ w, I' w → I (get w)) → (∀ w x, I' w → I x → I' (put x w)) →
  serves I v good s → serves I' v good (embed get put s).
Proof.
  intros Hget Hput Hs w key now Hw Hg.
  destruct (Hs (get w) key now (Hget w Hw) Hg) as (data & Hu & (o & c1 & H1 & Hc1 & Ho) & (c2 & H2 & Hc2)).
  exists data. split; [done|]. split.
  - exists o, (put c1 w). unfold embed, zoom. cbn [on_lookup]. rewrite H1. auto.
  - exists (put c2 w). unfold embed, zoom. cbn [on_miss]. rewrite H2. auto.
Qed.
End Serving.

(** *** Threads *)
Section ThreadFacts.
Context {S J : Type} `{JL : JsonLaws J}.
Import Threads.
Implicit Types (v : string → exec (verdict (J := J))) (s : service S J).

(** After [n] steps of its own, a thread is as far as that, with the right
    answer if it is done. *)
Definition thread_ok v (n : nat) (t : string * phase J) : Prop :=
  match t.2 with
  | Ready => n = 0%nat
  | Missed => n = 1%nat
  | Finished r => n ≠ 0%nat ∧ uncached v t.1 = Ret (data_ r) ∧
                  (cache_hit_ r = true → ∃ ty, v t.1 = Ret (data_ r, Some ty))
  | Failed _ => False
  end.

Definition steps_of (i : nat) (schedule : list (nat * Z)) : nat :=
  length (filter (λ p, p.1 = i) schedule).

Lemma steps_of_snoc i schedule p :
  steps_of i (schedule ++ [p]) = (steps_of i schedule + if decide (p.1 = i) then 1 else 0)%nat.
Proof.
  unfold steps_of. rewrite filter_app, length_app, filter_cons. by case_decide.
Qed.

Lemma threads_ok (I : S → Prop) s v good keys c0 schedule :
  serves I v good s → I c0 → Forall good keys →
  let w := run s (start keys c0) schedule in
  I (cache w) ∧ (threads w).*1 = keys ∧
  ∀ i t, threads w !! i = Some t → thread_ok v (steps_of i schedule) t.
Proof.
  intros Hs Hc0 Hgood. induction schedule as [|[i now] schedule IH] using rev_ind.
  - simpl. split_and!; [done|by rewrite <-list_fmap_compose, list_fmap_id|].
    intros i t Ht. apply list_lookup_fmap_Some in Ht as (k & -> & _). done.
  - cbv zeta in *. unfold run in *. rewrite fold_left_app. cbn [fold_left fst snd].
    set (w := fold_left _ schedule _) in *. destruct IH as (Hc & Hk & Ht).
    assert (Hsame : ∀ t, threads w !! i = Some t →
      (match t.2 with Ready | Missed => False | _ => True end) →
      I (cache w) ∧ (threads w).*1 = keys ∧
      ∀ i' t', threads w !! i' = Some t' → thread_ok v (steps_of i' (schedule ++ [(i, now)])) t').
    { intros t Hi Hph. split_and!; [done|done|]. intros i' t' Ht'. rewrite steps_of_snoc. cbn [fst].
      pose proof (Ht i' t' Ht') as Hok. case_decide as Hii; [|by rewrite Nat.add_0_r].
      subst i'. rewrite Hi in Ht'. injection Ht' as <-. destruct t as [k []]; try done.
      destruct Hok. split; [lia|done]. }
    assert (Hnext : ∀ key p p' c', threads w !! i = Some (key, p) → I c' →
      thread_ok v (Datatypes.S (steps_of i schedule)) (key, p') →
      I c' ∧ (<[i := (key, p')]> (threads w)).*1 = keys ∧
      ∀ i' t', <[i := (key, p')]> (threads w) !! i' = Some t' →
        thread_ok v (steps_of i' (schedule ++ [(i, now)])) t').
    { intros key p p' c' Hi Hc' Hp'. split_and!; [done| |].
      - rewrite list_fmap_insert, Hk. apply list_insert_id.
        by rewrite <-Hk, list_lookup_fmap, Hi.
      - intros i' t' Ht'. rewrite steps_of_snoc. cbn [fst].
        apply list_lookup_insert_Some in Ht' as [(<- & <- & _)|[Hne Ht']].
        + rewrite decide_True by done. by rewrite Nat.add_1_r.
        + rewrite decide_False by done. rewrite Nat.add_0_r. by apply Ht. }
    unfold step. destruct (threads w !! i) as [[key p]|] eqn:Hi.
    2: { split_and!; [done|done|]. intros i' t' Ht'. rewrite steps_of_snoc. cbn [fst].
         rewrite decide_False by congruence. rewrite Nat.add_0_r. by apply Ht. }
    assert (Hgk : good key).
    { rewrite Forall_forall in Hgood. apply Hgood. rewrite <-Hk. apply list_elem_of_fmap.
      exists (key, p). split; [done|]. by eapply list_elem_of_lookup_2. }
    pose proof (Ht i _ Hi) as Hok.
    destruct (Hs (cache w) key now Hc Hgk)
      as (data & Hu & (r & c1 & Hl & Hc1 & Hr) & (c2 & Hm & Hc2)).
    destruct p as [| |r'|].
    + rewrite Hl. apply (Hnext key Ready); [done|done|]. unfold thread_ok in *. cbn [fst snd outcome] in *.
      destruct r as [d|]; cbn [fst snd data_ cache_hit_]; [|congruence].
      destruct Hr as [-> Hty]. by split_and!.
    + rewrite Hm. apply (Hnext key Missed); [done|done|]. unfold thread_ok. cbn [fst snd outcome data_ cache_hit_]. by split_and!.
    + by apply (Hsame (key, Finished r')).
    + done.
Qed.
End ThreadFacts.

Section Refinement.
Context {J : Type} `{JL : JsonLaws J} (hash : string → Z).

(** What [put_result] leaves for [guarded] to return. *)
Lemma guarded_put (body : L unit) (c : IPCache.t J) (j0 j : J) key ty now :
  json_is_object j = true →
  body (c, j0) = put_result hash key ty now (c, j) →
  guarded body j0 c =
    match IPCache.put hash c key j ty now with
    | Ret c' => (Ret j, c')
    | Throw e => (json_set "error" (json_of_string (exn_what e)) j, c)
    | Undefined => (Undefined, c)
    | OutOfFuel => (OutOfFuel, c)
    end.
Proof.
  intros Hj Hb. unfold guarded, try_catch. rewrite Hb.
  unfold put_result, get_result, zoom, cache_put. cbv [mbind M_bind]. cbn [fst snd].
  destruct (IPCache.put hash c key j ty now) as [c'|e| |]; try done.
  unfold modify_result. cbn [fst snd].
  destruct (json_set_error j (exn_what e) Hj) as (j' & ->). done.
Qed.

Lemma modify_ok (f : J → exec J) (c : IPCache.t J) j j' {A} (k : unit → L A) :
  f j = Ret j' → (modify_result f ≫= k) (c, j) = k tt (c, j').
Proof. intros Hf. unfold modify_result. cbv [mbind M_bind]. cbn [fst snd]. by rewrite Hf. Qed.

Lemma mret_ok {A} (k : unit → L A) (w : IPCache.t J * J) : (mret tt ≫= k) w = k tt w.
Proof. done. Qed.

Lemma pure_ok {A B} (m : exec A) a (k : A → L B) (w : IPCache.t J * J) :
  m = Ret a → (pure m ≫= k) w = k a w.
Proof. intros ->. done. Qed.

Lemma geo_computes {DC DA} {BC : Backend J DC} {BA : Backend J DA} PC PA GC GA
    (city : DC) (asn : DA) :
  BackendLaws J DC (Backend0 := BC) PC GC → BackendLaws J DA (Backend0 := BA) PA GA → PC city → PA asn →
  computes hash (IPGeoService.geo_service hash city asn) (geo_verdict city asn) (λ ip, GC ip ∧ GA ip).
Proof.
  intros HC HA Hcity Hasn. split; [done|]. intros ip now c [Hgc Hga].
  destruct (HC city ip Hcity Hgc) as (jc & Hjc & Hac). destruct (HA asn ip Hasn Hga) as (ja & Hja & Haa).
  destruct (json_object_ok [("ip", json_of_string ip : J); ("found", json_of_bool false)])
    as (base & Hbase & Hob & _); [done|].
  cbn [Services.on_miss IPGeoService.geo_service]. unfold IPGeoService.on_miss, geo_verdict.
  rewrite Hbase. cbv [pure mbind M_bind exec_bind]. rewrite Hjc, Hja.
  destruct (json_find "error" jc) as [e|] eqn:He.
  - destruct (json_set_ok "error" e base) as (j & Hj & Hoj & _); [by right|]. rewrite Hj.
    exists j, None. split_and!; [done|done|]. unfold guarded, try_catch, IPGeoService.body.
    rewrite (pure_ok _ jc), (pure_ok _ ja) by done. unfold json_contains. rewrite He.
    rewrite (pure_ok _ e) by done. unfold modify_result. cbn [fst snd]. by rewrite Hj.
  - assert (Hbody : IPGeoService.body hash city asn ip now (c, base) =
      (if negb (says_found jc) && negb (says_found ja) then put_result hash ip NEGATIVE now
       else
         modify_result (json_set "found" (json_of_bool true));;
         (if says_found jc then modify_result (λ result, json_update result jc) else mret tt);;
         (if says_found ja then modify_result (λ result, json_update result ja) else mret tt);;
         put_result hash ip IP_GEOLOCATION now) (c, base)).
    { unfold IPGeoService.body. rewrite (pure_ok _ jc), (pure_ok _ ja) by done.
      unfold json_contains. rewrite He.
      by rewrite (pure_ok _ (says_found jc)), (pure_ok _ (says_found ja)) by by apply answer_found. }
    destruct (negb (says_found jc) && negb (says_found ja)) eqn:Hneg.
    + exists base, (Some NEGATIVE). split_and!; [done|done|]. by eapply guarded_put.
    + destruct (json_set_ok "found" (json_of_bool true) base) as (j1 & Hj1 & Ho1 & _); [by right|].
      assert (∃ j2, (if says_found jc then json_update j1 jc else Ret j1) = Ret j2 ∧ json_is_object j2 = true)
        as (j2 & Hj2 & Ho2).
      { destruct (says_found jc); [|by eauto].
        destruct (json_update_ok j1 jc) as (j2 & ? & ? & _); [done|apply Hac|eauto]. }
      assert (∃ j3, (if says_found ja then json_update j2 ja else Ret j2) = Ret j3 ∧ json_is_object j3 = true)
        as (j3 & Hj3 & Ho3).
      { destruct (says_found ja); [|by eauto].
        destruct (json_update_ok j2 ja) as (j3 & ? & ? & _); [done|apply Haa|eauto]. }
      rewrite Hj1, Hj2, Hj3. exists j3, (Some IP_GEOLOCATION). split_and!; [done|done|].
      eapply guarded_put; [done|]. rewrite Hbody, (modify_ok _ _ _ j1) by done.
      destruct (says_found jc), (says_found ja); try discriminate Hneg; simplify_eq;
        repeat first [rewrite mret_ok | erewrite modify_ok by eassumption]; done.
Qed.

Lemma mac_computes {D} {BO : Backend J D} P G (oui : D) :
  BackendLaws J D P G → P oui →
  computes hash (MACLookupService.mac_service hash oui) (mac_verdict oui) G.
Proof.
  intros HB Houi. split; [done|]. intros mac now c Hg.
  destruct (HB oui mac Houi Hg) as (j & Hj & Ha).
  unfold mac_verdict. rewrite Hj. exists j. eexists. split; [reflexivity|]. split; [apply Ha|].
  cbn [Services.on_miss MACLookupService.mac_service]. unfold MACLookupService.on_miss.
  assert (Hbody : MACLookupService.body hash oui mac now (c, json_null) =
    (if json_contains "error" j then mret tt
     else if says_found j then put_result hash mac MAC_OUI now
     else put_result hash mac NEGATIVE now) (c, j)).
  { unfold MACLookupService.body. rewrite (pure_ok _ j) by done.
    change ((set_result j ≫= ?k) (c, json_null)) with (k tt (c, j)). cbv beta.
    destruct (json_contains "error" j); [done|].
    by rewrite (pure_ok _ (says_found j)) by by apply answer_found. }
  destruct (json_contains "error" j).
  - unfold guarded, try_catch. by rewrite Hbody.
  - destruct (says_found j); eapply guarded_put; [apply Ha|done|apply Ha|done].
Qed.
End Refinement.

Section Lookups.
Context {J : Type} `{JL : JsonLaws J} (hash : string → Z).
Import Threads.

(** What holds of a thread after any schedule. *)
Definition served (v : string → exec (verdict (J := J))) (n : nat) (key : string) (p : phase J) : Prop :=
  (∀ r, p ≠ Failed r) ∧ ((2 ≤ n)%nat → ∃ r, p = Finished r) ∧
  ∀ r, p = Finished r → uncached v key = Ret (data_ r) ∧
    (cache_hit_ r = true → ∃ ty, v key = Ret (data_ r, Some ty)).

Lemma thread_served v n key p : thread_ok v n (key, p) → served v n key p.
Proof.
  unfold thread_ok, served. cbn [fst snd]. destruct p as [| |r|r]; intros Hok; [| | |done].
  - split_and!; [done|lia|done].
  - split_and!; [done|lia|done].
  - destruct Hok as (_ & Hu & Hh). split_and!; [done|by eauto|by intros ? [= <-]].
Qed.

Lemma computes_served s v good keys max count c0 schedule :
  (∀ j : J, safe (json_dump j)) → computes hash s v good → Forall good keys →
  0 < count → IPCache.create max count = Ret c0 →
  ∀ i key p, threads (run s (start keys c0) schedule) !! i = Some (key, p) →
    served v (steps_of i schedule) key p.
Proof.
  intros Hd Hs Hk Hn Hc i key p Ht. apply thread_served.
  by eapply (threads_ok (coherent hash v) s v good); [by apply computes_serves|by eapply create_coherent|done|].
Qed.

Lemma put_then_get (c c' : IPCache.t J) k j ty now now' text :
  ipcache_wf hash c → json_dump j = Ret text → IPCache.put hash c k j ty now = Ret c' →
  now' - now ≤ seconds (ttl_for_type ty) →
  ∃ c'', cache_get hash k now' c' = (Ret (Some j), c'').
Proof.
  intros Hwf Hd Hp Hfresh.
  destruct (ipcache_put_ok hash c k j ty now _ Hwf
    ltac:(unfold CacheShard.estimate_entry_size; rewrite Hd; reflexivity))
    as (c1 & Hp1 & Hwf1 & Hcount & (s & Hs & Hf) & _).
  rewrite Hp in Hp1. injection Hp1 as <-.
  destruct (home_shard hash c' k Hwf1) as (s' & Hs' & Hswf & Hidx & Hat).
  assert (s' = s) as ->.
  { unfold home in *. rewrite Hcount in Hs'. congruence. }
  destruct (get_refines s k now' Hswf) as (s2 & Hg & _).
  unfold cache_get, IPCache.get. rewrite Hidx. cbn [mbind exec_bind]. rewrite Hat. cbn [mbind exec_bind].
  rewrite Hg. cbn [mbind exec_bind]. unfold Lru.lru_get. rewrite Hf.
  rewrite decide_True by (unfold Lru.fresh_at; simpl; lia). eexists. reflexivity.
Qed.
End Lookups.

(** The answer of the address service, from those of the databases. *)
Section GeoAnswer.
Context {J DC DA : Type} `{JL : JsonLaws J} {BC : Backend J DC} {BA : Backend J DA}.

(** As what it is cached, and its members. *)
Definition geo_kind (c a : J) : option CacheDataType :=
  match json_find "error" c with
  | Some _ => None
  | None => Some (if says_found c || says_found a then IP_GEOLOCATION else NEGATIVE)
  end.

Definition geo_member (ip : string) (c a : J) (k : string) : option J :=
  let base found := if decide (k = "found") then Some (json_of_bool found)
                    else if decide (k = "ip") then Some (json_of_string ip) else None in
  match json_find "error" c with
  | Some e => if decide (k = "error") then Some e else base false
  | None =>
      match (if says_found a then json_find k a else None), (if says_found c then json_find k c else None) with
      | Some v, _ => Some v
      | None, Some v => Some v
      | None, None => base (says_found c || says_found a)
      end
  end.

Lemma geo_verdict_members (city : DC) (asn : DA) (ip : string) (c a : J) :
  backend_lookup city ip = Ret c → backend_lookup asn ip = Ret a → answer c → answer a →
  ∃ j, geo_verdict city asn ip = Ret (j, geo_kind c a) ∧ ∀ k, json_find k j = geo_member ip c a k.
Proof.
  intros Hc Ha Hac Haa. unfold geo_verdict, geo_kind, geo_member.
  destruct (json_object_ok [("ip", json_of_string ip : J); ("found", json_of_bool false)])
    as (base & Hbase & Hob & Hfb); [done|]. rewrite Hbase, Hc, Ha. cbn [mbind exec_bind].
  assert (Hfb' : ∀ k, json_find k base = if decide (k = "found") then Some (json_of_bool false)
                       else if decide (k = "ip") then Some (json_of_string ip) else None).
  { intros k. rewrite Hfb. simpl. rewrite !alist_find_cons. simpl. repeat case_decide; (done || congruence). }
  destruct (json_find "error" c) as [e|].
  - destruct (json_set_ok "error" e base) as (j & Hj & _ & Hf); [by right|]. rewrite Hj.
    exists j. split; [done|]. intros k. by rewrite Hf, Hfb'.
  - destruct (says_found c) eqn:Hsc, (says_found a) eqn:Hsa; cbn [negb andb orb];
      try (exists base; by split).
    all: destruct (json_set_ok "found" (json_of_bool true) base) as (j1 & -> & Ho1 & F1); [by right|];
      cbn [mbind exec_bind].
    + destruct (json_update_ok j1 c) as (j2 & -> & Ho2 & F2); [done|apply Hac|]. cbn [mbind exec_bind].
      destruct (json_update_ok j2 a) as (j3 & -> & _ & F3); [done|apply Haa|].
      eexists. split; [done|]. intros k. rewrite F3, F2, F1, Hfb'. by repeat case_decide.
    + destruct (json_update_ok j1 c) as (j2 & -> & Ho2 & F2); [done|apply Hac|].
      eexists. split; [done|]. intros k. rewrite F2, F1, Hfb'. by repeat case_decide.
    + destruct (json_update_ok j1 a) as (j3 & -> & _ & F3); [done|apply Haa|].
      eexists. split; [done|]. intros k. rewrite F3, F1, Hfb'. by destruct (json_find k a); repeat case_decide.
Qed.

(** The miss of one address whose answers are known. *)
Lemma geo_on_miss (hash : string → Z) (city : DC) (asn : DA) (ip : string) (c a : J) :
  backend_lookup city ip = Ret c → backend_lookup asn ip = Ret a → answer c → answer a →
  ∃ j, geo_verdict city asn ip = Ret (j, geo_kind c a) ∧ json_is_object j = true ∧
    ∀ now cache, IPGeoService.on_miss hash city asn ip now cache =
      match geo_kind c a with
      | None => (Ret j, cache)
      | Some ty =>
          match IPCache.put hash cache ip j ty now with
          | Ret cache' => (Ret j, cache')
          | Throw e => (json_set "error" (json_of_string (exn_what e)) j, cache)
          | Undefined => (Undefined, cache)
          | OutOfFuel => (OutOfFuel, cache)
          end
      end.
Proof.
  intros Hc Ha Hac Haa. destruct (geo_verdict_members city asn ip c a Hc Ha Hac Haa) as (j & Hv & _).
  assert (HL : ∀ D (B : Backend J D) (d : D) r, backend_lookup d ip = Ret r → answer r →
    BackendLaws J D (Backend0 := B) (λ d', d' = d) (λ k, k = ip)).
  { intros D B d r Hr Har d' k -> ->. eauto. }
  destruct (geo_computes hash (λ d, d = city) (λ d, d = asn) (λ k, k = ip) (λ k, k = ip) city asn)
    as [_ Hm]; [by eapply HL|by eapply HL|done|done|].
  assert (Hobj : json_is_object j = true).
  { destruct (Hm ip 0 {| IPCache.shards_ := []; IPCache.shard_count_ := 0 |}) as (j' & kind & Hv' & Ho & _); [done|]. congruence. }
  exists j. split_and!; [done|done|]. intros now cache.
  destruct (Hm ip now cache) as (j' & kind & Hv' & _ & Hmiss); [done|].
  rewrite Hv in Hv'. injection Hv' as <- <-. exact Hmiss.
Qed.
End GeoAnswer.

(** ** Properties *)

(** C5: any number of address lookups, in any interleaving and with any clock
    readings, over databases that keep their promise and a cache that starts
    empty: no exception leaves a lookup, each one is done after two steps of
    its own, what it returns is what the service without a cache returns, and
    only answers that may be cached (never an error) come from the cache. *)
Theorem geo_lookups_correct {J DC DA} `{JL : JsonLaws J} {BC : Backend J DC} {BA : Backend J DA}
    (hash : string → Z) PC PA GC GA (city : DC) (asn : DA) keys max count c0 schedule i key p :
  (∀ j : J, safe (json_dump j)) →
  BackendLaws J DC (Backend0 := BC) PC GC → BackendLaws J DA (Backend0 := BA) PA GA →
  PC city → PA asn → Forall (λ ip, GC ip ∧ GA ip) keys →
  0 < count → IPCache.create max count = Ret c0 →
  Threads.threads (Threads.run (IPGeoService.geo_service hash city asn) (Threads.start keys c0) schedule) !! i
    = Some (key, p) →
  served (geo_verdict city asn) (steps_of i schedule) key p.
Proof.
  intros Hd HC HA Hc Ha Hk Hn Hc0. eapply computes_served; [exact Hd| |exact Hk|exact Hn|exact Hc0].
  by eapply geo_computes.
Qed.

(** C22: the same of the MAC lookups: every lookup returns what the OUI
    database alone would have returned. *)
Theorem mac_lookups_correct {J D} `{JL : JsonLaws J} {BO : Backend J D}
    (hash : string → Z) P G (oui : D) keys max count c0 schedule i key p :
  (∀ j : J, safe (json_dump j)) → BackendLaws J D P G → P oui → Forall G keys →
  0 < count → IPCache.create max count = Ret c0 →
  Threads.threads (Threads.run (MACLookupService.mac_service hash oui) (Threads.start keys c0) schedule) !! i
    = Some (key, p) →
  served (mac_verdict oui) (steps_of i schedule) key p.
Proof.
  intros Hd HB Ho Hk Hn Hc0. eapply computes_served; [exact Hd| |exact Hk|exact Hn|exact Hc0].
  by eapply mac_computes.
Qed.

(** C23: what a lookup of the address service answers when the cache does not
    have the address: an error of the city database, if there is one, with
    nothing of the ASN database, and the cache is not touched.  Otherwise the
    union of the answers: found if either database has the address, each member
    from the ASN database if that found it and has the member, else from the
    city database; and that is what the cache gives for the time to live of
    an answer, or of a miss.  If it cannot be printed, it is not cached, and
    the exception is put into it. *)
Theorem geo_answer_merges {J DC DA} `{JL : JsonLaws J} {BC : Backend J DC} {BA : Backend J DA}
    (hash : string → Z) (city : DC) (asn : DA) (ip : string) (c a : J) (cache : IPCache.t J) now :
  backend_lookup city ip = Ret c → backend_lookup asn ip = Ret a → answer c → answer a →
  (∀ j : J, safe (json_dump j)) → ipcache_wf hash cache →
  ∃ merged, (∀ k, json_find k merged = geo_member ip c a k) ∧
    match geo_kind c a, json_dump merged with
    | None, _ => IPGeoService.on_miss hash city asn ip now cache = (Ret merged, cache)
    | Some _, Throw e =>
        ∃ j, json_set "error" (json_of_string (exn_what e)) merged = Ret j ∧
          IPGeoService.on_miss hash city asn ip now cache = (Ret j, cache)
    | Some kind, _ =>
        ∃ cache', IPGeoService.on_miss hash city asn ip now cache = (Ret merged, cache') ∧
          ∀ now', now' - now ≤ seconds (ttl_for_type kind) →
            ∃ cache'', cache_get hash ip now' cache' = (Ret (Some merged), cache'')
    end.
Proof.
  intros Hc Ha Hac Haa Hsafe Hwf.
  destruct (geo_on_miss hash city asn ip c a Hc Ha Hac Haa) as (j & Hv & Hobj & Hm).
  destruct (geo_verdict_members city asn ip c a Hc Ha Hac Haa) as (j' & Hv' & Hf).
  rewrite Hv in Hv'. injection Hv' as <-. exists j. split; [done|]. specialize (Hm now cache). rewrite Hm.
  destruct (geo_kind c a) as [kind|]; [|done]. specialize (Hsafe j). destruct (json_dump j) as [text|e| |] eqn:Hd; try done.
  - destruct (ipcache_put_ok hash cache ip j kind now _ Hwf
      ltac:(unfold CacheShard.estimate_entry_size; rewrite Hd; reflexivity)) as (c' & Hp & _).
    rewrite Hp. exists c'. split; [done|]. intros now' Hn. by eapply put_then_get.
  - rewrite (ipcache_put_throws hash cache ip j kind now e) by done.
    destruct (json_set_error j (exn_what e) Hobj) as (j' & Hj'). exists j'. by rewrite Hj'.
Qed.

(** C39: an error of the ASN database, unlike one of the city database, is
    cached: if the city database does not know the address and the ASN
    database fails, the lookup reports a plain miss, and so does, from the
    cache, every lookup of the next five minutes. *)
Theorem asn_error_cached_as_miss {J DC DA} `{JL : JsonLaws J} {BC : Backend J DC} {BA : Backend J DA}
    (hash : string → Z) (city : DC) (asn : DA) ip (c a base : J) text (cache : IPCache.t J) now now' :
  backend_lookup city ip = Ret c → backend_lookup asn ip = Ret a → answer c → answer a →
  json_find "error" c = None → says_found c = false →
  is_Some (json_find "error" a) → says_found a = false →
  ipcache_wf hash cache →
  json_object [("ip", json_of_string ip); ("found", json_of_bool false)] = Ret base →
  json_dump base = Ret text → now ≤ now' ≤ now + seconds 300 →
  ∃ cache' cache'',
    IPGeoService.on_miss hash city asn ip now cache = (Ret base, cache') ∧
    cache_get hash ip now' cache' = (Ret (Some base), cache'').
Proof.
  intros Hc Ha Hac Haa He Hsc _ Hsa Hwf Hbase Hd Hnow.
  destruct (geo_on_miss hash city asn ip c a Hc Ha Hac Haa) as (j & Hv & _ & Hm).
  unfold geo_verdict in Hv. rewrite Hbase, Hc, Ha in Hv. cbn [mbind exec_bind] in Hv.
  rewrite He, Hsc, Hsa in Hv. injection Hv as <- Hk. specialize (Hm now cache). rewrite <-Hk in Hm.
  destruct (ipcache_put_ok hash cache ip base NEGATIVE now _ Hwf
    ltac:(unfold CacheShard.estimate_entry_size; rewrite Hd; reflexivity)) as (c' & Hp & _).
  rewrite Hp in Hm.
  destruct (put_then_get hash cache c' ip base NEGATIVE now now' text Hwf Hd Hp) as (c'' & Hg); [simpl; lia|].
  by exists c', c''.
Qed.

(** ** Witnesses *)
Lemma geo_lookups_correct_witness :
  ∃ ts p, Sample.two Sample.geo "8.8.8.8" = Ret ts ∧ ts !! 1%nat = Some ("8.8.8.8", p) ∧
    served (JsonOps0 := Tree.sample) Sample.geo_truth 2 "8.8.8.8" p.
Proof.
  assert (Hts : ∃ ts p, Sample.two Sample.geo "8.8.8.8" = Ret ts ∧ ts !! 1%nat = Some ("8.8.8.8", p))
    by (do 2 eexists; split; vm_compute; reflexivity).
  destruct Hts as (ts & p & Hts & Hp). exists ts, p. split_and!; [exact Hts|exact Hp|].
  injection Hts as <-.
  refine (geo_lookups_correct (JL := tree_laws (λ _, Ret "{}") (λ _, Ret Tree.Null))
    (BC := Sample.city) (BA := Sample.asn) (λ _, 5) usable usable (λ _, True) (λ _, True)
    Sample.geo_db Sample.geo_db ["8.8.8.8"; "8.8.8.8"] 1000 8 _
    [(0%nat, 1); (1%nat, 2); (0%nat, 3); (1%nat, 4)] 1%nat "8.8.8.8" p _ _ _ _ _ _ _ _ Hp).
  - done.
  - apply (city_backend_laws (MM := sample_lib) (JL := tree_laws (λ _, Ret "{}") (λ _, Ret Tree.Null))), sample_lib_schema.
  - apply (asn_backend_laws (MM := sample_lib) (JL := tree_laws (λ _, Ret "{}") (λ _, Ret Tree.Null))), sample_lib_schema.
  - by split; [|eexists].
  - by split; [|eexists].
  - by repeat constructor.
  - done.
  - reflexivity.
Defined.

Lemma mac_lookups_correct_witness :
  ∃ ts p, Sample.two Sample.mac "00-1A-2B-00-00-00" = Ret ts ∧
    ts !! 1%nat = Some ("00-1A-2B-00-00-00", p) ∧
    served (JsonOps0 := Tree.sample) Sample.mac_truth 2 "00-1A-2B-00-00-00" p.
Proof.
  assert (Hts : ∃ ts p, Sample.two Sample.mac "00-1A-2B-00-00-00" = Ret ts ∧
    ts !! 1%nat = Some ("00-1A-2B-00-00-00", p))
    by (do 2 eexists; split; vm_compute; reflexivity).
  destruct Hts as (ts & p & Hts & Hp). exists ts, p. split_and!; [exact Hts|exact Hp|].
  injection Hts as <-.
  refine (mac_lookups_correct (JL := tree_laws (λ _, Ret "{}") (λ _, Ret Tree.Null))
    (BO := Sample.oui) (λ _, 5) oui_usable (λ mac, isValidMacFormat mac = Ret true)
    Sample.oui_db ["00-1A-2B-00-00-00"; "00-1A-2B-00-00-00"] 1000 8 _
    [(0%nat, 1); (1%nat, 2); (0%nat, 3); (1%nat, 4)] 1%nat "00-1A-2B-00-00-00" p _ _ _ _ _ _ Hp).
  - done.
  - apply (oui_backend_laws (SQ := sample_sqlite) (JL := tree_laws (λ _, Ret "{}") (λ _, Ret Tree.Null))).
  - split; [done|]. split; by eexists.
  - repeat constructor.
  - done.
  - reflexivity.
Defined.

Lemma geo_answer_merges_witness :
  ∃ c0 merged cache', IPCache.create 1000 8 = Ret c0 ∧
    IPGeoService.on_miss (H := Tree.sample) (BC := Sample.city) (BA := Sample.asn) (λ _, 5) Sample.geo_db Sample.geo_db
      "8.8.8.8" 0 c0 = (Ret merged, cache') ∧
    json_find (JsonOps := Tree.sample) "as_number" merged = Some (Tree.Int 15169).
Proof.
  assert (∃ c a, backend_lookup (Backend := Sample.city) Sample.geo_db "8.8.8.8" = Ret c ∧
    backend_lookup (Backend := Sample.asn) Sample.geo_db "8.8.8.8" = Ret a) as (c & a & Hc & Ha)
    by (do 2 eexists; split; vm_compute; reflexivity).
  destruct (create_ok (J := Tree.tree) (λ _, 5) 1000 8) as (c0 & Hc0 & Hwf & _); [done|].
  destruct (geo_answer_merges (JL := tree_laws (λ _, Ret "{}") (λ _, Ret Tree.Null))
    (BC := Sample.city) (BA := Sample.asn) (λ _, 5) Sample.geo_db Sample.geo_db "8.8.8.8" c a c0 0 Hc Ha)
    as (merged & Hf & Hm).
  - vm_compute in Hc. injection Hc as <-. split_and!; [done|by intros v [= <-]; eexists|by eexists].
  - vm_compute in Ha. injection Ha as <-. split_and!; [done|by intros v [= <-]; eexists|by eexists].
  - done.
  - exact Hwf.
  - vm_compute in Hc, Ha. injection Hc as <-. injection Ha as <-. destruct Hm as (cache' & Hmiss & _).
    exists c0, merged, cache'. split_and!; [exact Hc0|exact Hmiss|]. rewrite Hf. reflexivity.
Defined.

(** A city database that knows nothing and an ASN database that fails. *)
Lemma asn_error_cached_as_miss_witness :
  let city : Backend Tree.tree unit := λ _ ip, Ret (Tree.Obj [("ip", Tree.Str ip); ("found", Tree.Bool false)]) in
  let asn : Backend Tree.tree unit := λ _ ip, Ret (Tree.Obj [("error", Tree.Str "broken"); ("ip", Tree.Str ip)]) in
  let base := Tree.Obj [("found", Tree.Bool false); ("ip", Tree.Str "1.1.1.1")] in
  ∃ c0 c1 c2, IPCache.create 1000 8 = Ret c0 ∧
    IPGeoService.on_miss (H := Tree.sample) (BC := city) (BA := asn) (λ _, 5) tt tt "1.1.1.1" 0 c0 = (Ret base, c1) ∧
    cache_get (λ _, 5) "1.1.1.1" (seconds 299) c1 = (Ret (Some base), c2).
Proof.
  intros city asn base.
  destruct (create_ok (J := Tree.tree) (λ _, 5) 1000 8) as (c0 & Hc0 & Hwf & _); [done|].
  destruct (asn_error_cached_as_miss (JL := tree_laws (λ _, Ret "{}") (λ _, Ret Tree.Null))
    (BC := city) (BA := asn) (λ _, 5) tt tt "1.1.1.1"
    (Tree.Obj [("ip", Tree.Str "1.1.1.1"); ("found", Tree.Bool false)])
    (Tree.Obj [("error", Tree.Str "broken"); ("ip", Tree.Str "1.1.1.1")]) base "{}" c0 0 (seconds 299))
    as (c1 & c2 & H1 & H2).
  - reflexivity.
  - reflexivity.
  - split_and!; [done|by intros v [= <-]; eexists|by eexists].
  - split_and!; [done|by intros v [=]|done].
  - reflexivity.
  - reflexivity.
  - by eexists.
  - reflexivity.
  - exact Hwf.
  - reflexivity.
  - reflexivity.
  - unfold seconds, ns_per_s. lia.
  - exists c0, c1, c2. split_and!; [exact Hc0|exact H1|exact H2].
Defined.
