(* ===== verification/Http.v ===== *)
(** * Requests, responses, and what the handlers share
    (src/src/password_handler.h, types.h)

    A handler of cpp-httplib gets a request and writes a response.  Of a
    request the program uses the accessors listed in [Request]; a response
    starts with status -1, which httplib sends as 200.  The handlers work on
    the [world]: the rate limiter, the metrics, the state of the lookup
    services, the random engine, and the clock, read one tick after the other.
    A handler is a program of atomic steps: one for each reading of a clock,
    each access to an atomic variable, and each block under one lock. *)
From Stdlib Require Import ZArith Lia Ascii String.
From S2P Require Import Prelude Program StdList Double Json CppString RateLimiter Metrics PasswordGenerator.
#[local] Open Scope Z_scope.

(** [httplib::Request]; an absent header or parameter is empty. *)
Record Request := {
  get_header_value : string → string;
  get_param_value : string → string;
  body : string;
  remote_addr : string
}.

(** [httplib::Response] *)
Record Response := {
  status : Z;
  content : string;
  content_type : string;
  headers : list (string * string)
}.

Definition fresh_response : Response :=
  {| status := -1; content := ""; content_type := ""; headers := [] |}.

(** The status httplib sends. *)
Definition sent_status (res : Response) : Z := if status res =? -1 then 200 else status res.

Record world (SV G : Type) := {
  limiter : option RateLimiter.t;       (* rate_limiter_ *)
  metrics : Metrics.t;                  (* metrics_ *)
  services : SV;
  gen : G;                              (* password_gen *)
  ticks : nat
}.
Arguments limiter {SV G}.
Arguments metrics {SV G}.
Arguments services {SV G}.
Arguments gen {SV G}.
Arguments ticks {SV G}.

(** What a thread does to the shared state, in atomic steps; and a handler,
    which also has a response of its own to write. *)
Notation thread SV G := (prog (world SV G)).
Notation handler SV G := (prog (world SV G * Response)).

Section Handlers.
Context {SV G : Type} (clock : nat → Z).
Notation Thread := (thread SV G).
Notation Handler := (handler SV G).

Definition with_limiter (rl : option RateLimiter.t) (w : world SV G) : world SV G :=
  {| limiter := rl; metrics := metrics w; services := services w; gen := gen w; ticks := ticks w |}.
Definition with_metrics (m : Metrics.t) (w : world SV G) : world SV G :=
  {| limiter := limiter w; metrics := m; services := services w; gen := gen w; ticks := ticks w |}.
Definition with_services (s : SV) (w : world SV G) : world SV G :=
  {| limiter := limiter w; metrics := metrics w; services := s; gen := gen w; ticks := ticks w |}.
Definition with_gen (g : G) (w : world SV G) : world SV G :=
  {| limiter := limiter w; metrics := metrics w; services := services w; gen := g; ticks := ticks w |}.
Definition tick (w : world SV G) : world SV G :=
  {| limiter := limiter w; metrics := metrics w; services := services w; gen := gen w; ticks := S (ticks w) |}.

(** A reading of a clock, and what else a step is made of. *)
Definition read_clock : M (world SV G) Z := λ w, (Ret (clock (ticks w)), tick w).
Definition get_world : M (world SV G) (world SV G) := λ w, (Ret w, w).
Definition modify_world (f : world SV G → world SV G) : M (world SV G) unit := λ w, (Ret tt, f w).
Definition on_services {A} (f : M SV A) : M (world SV G) A := zoom services with_services f.

Definition now : Thread Z := atomic read_clock.

Definition modify_response (f : Response → Response) : Handler unit := atomic (λ s, (Ret tt, (s.1, f s.2))).

Definition set_status (st : Z) : Handler unit := modify_response (λ r,
  {| status := st; content := content r; content_type := content_type r; headers := headers r |}).
Definition set_content (text type : string) : Handler unit := modify_response (λ r,
  {| status := status r; content := text; content_type := type; headers := headers r |}).
Definition set_header (key value : string) : Handler unit := modify_response (λ r,
  {| status := status r; content := content r; content_type := content_type r;
     headers := headers r ++ [(key, value)] |}).

(** [metrics_->record_request(latency)]: the counter is bumped before the lock
    is taken; [metrics_->record_error()] *)
Definition record_request (latency : double) : Thread unit :=
  atomic (modify_world (λ w, with_metrics (Metrics.count_request (metrics w)) w));;
  atomic (t ← read_clock; modify_world (λ w, with_metrics (Metrics.record_locked latency t (metrics w)) w)).
Definition record_error : Thread unit := atomic (modify_world (λ w, with_metrics (Metrics.record_error (metrics w)) w)).

(** [ScopedTimer::elapsed()], in milliseconds, of two readings in nanoseconds *)
Definition elapsed (start stop : Z) : double := ddiv (double_of_Z (stop - start)) (double_of_Z 1000000).

Section Json.
Context {J : Type} `{JsonOps J}.

Definition set_json (data : J) : Handler unit :=
  text ← lift (json_dump data); set_content text "application/json".

Definition send_json_response (data : J) (st : Z) : Handler unit :=
  set_status st;; set_json data.

Definition error_members (error message : string) : list (string * J) :=
  [("error", json_of_string error); ("message", json_of_string message)].

Definition send_error_response (st : Z) (error message : string) : Handler unit :=
  error_json ← lift (json_object (error_members error message));
  set_status st;;
  set_json error_json.
End Json.
End Handlers.

(** ** Lemmas *)
Section Facts.
Context {SV G J : Type} `{JL : JsonLaws J} `{JP : !JsonPrints J}.
Implicit Types (w : world SV G) (r : Response).

(** A JSON answer is written with its status, if it can be printed. *)
Lemma send_json_ok (data : J) st w r text :
  json_dump data = Ret text →
  send_json_response data st (w, r) =
    (Ret tt, (w, {| status := st; content := text; content_type := "application/json"; headers := headers r |})).
Proof.
  intros Hd. unfold send_json_response, set_json. by rewrite Hd.
Qed.

Lemma set_json_ok (data : J) w r text :
  json_dump data = Ret text →
  set_json data (w, r) =
    (Ret tt, (w, {| status := status r; content := text; content_type := "application/json"; headers := headers r |})).
Proof. intros Hd. unfold set_json. by rewrite Hd. Qed.

(** The text of an error answer. *)
Definition is_error (error message text : string) : Prop :=
  ∃ j : J, json_object (error_members error message) = Ret j ∧ json_dump j = Ret text.

Lemma send_error_ok st error message w r :
  ascii_text error → ascii_text message →
  ∃ text, is_error error message text ∧
    send_error_response (J := J) st error message (w, r) =
      (Ret tt, (w, {| status := st; content := text; content_type := "application/json"; headers := headers r |})).
Proof.
  intros He Hm. destruct (json_object_ok (error_members (J := J) error message)) as (j & Hj & _); [done|].
  destruct (json_dump_ok j) as [text Hd].
  { eapply printable_object; [exact Hj|]. unfold error_members.
    repeat constructor; simpl; auto using printable_string; by repeat constructor. }
  exists text. split; [by exists j|]. unfold send_error_response. rewrite Hj.
  by apply (send_json_ok j st w r text).
Qed.

Lemma ascii_app s1 s2 : ascii_text s1 → ascii_text s2 → ascii_text (s1 +:+ s2).
Proof. unfold ascii_text. fold (bytes s1) (bytes s2) (bytes (s1 +:+ s2)). rewrite bytes_app. apply Forall_app_2. Qed.
End Facts.

Lemma ascii_check s : forallb (λ c, (N_of_ascii c <? 128)%N) (bytes s) = true → ascii_text s.
Proof.
  intros Hs. apply List.Forall_forall. intros c Hc. rewrite forallb_forall in Hs. by apply N.ltb_lt, Hs.
Qed.

(** A closed text is ASCII. *)
Ltac solve_ascii := first [apply ascii_check; vm_compute; reflexivity | vm_compute; repeat constructor].
