(* ===== verification/PasswordHandler.v ===== *)
(** * The password end points (src/src/password_handler.cpp)

    [parseBoolParam], and the two handlers of [PasswordHandler]: one password
    from the query parameters, or a batch from a JSON body.  The parameters
    they pass on to the generator, every answer, and what they record. *)
From Stdlib Require Import ZArith Lia Ascii String.
From stdpp Require Import pretty.
From S2P Require Import Prelude Program StdList Double Json CppString Validation RateLimiter Metrics PasswordGenerator Http.
#[local] Open Scope Z_scope.

Definition parseBoolParam (req : Request) (key : string) (default_val : bool) : bool :=
  let val := get_param_value req key in
  if is_empty val then default_val else parseBoolString val.

(** [nlohmann::json] of one generated password. *)
Definition password_members {J} `{JsonOps J} (r : PasswordResult) : list (string * J) :=
  [("password", json_of_string (password_ r)); ("length", json_of_int (result_length_ r));
   ("entropy", json_of_double (entropy_ r)); ("strength", json_of_string (strength_ r))].

Section Handlers.
Context {SV G J : Type} `{JsonOps J, Rng G, Libm} (clock : nat → Z).
Notation Thread := (thread SV G).
Notation Handler := (handler SV G).

(** A call of the generator, with the engine of the world. *)
Definition with_engine {A} (f : G → exec (A * G)) : Thread A := atomic (λ w,
  match f (gen w) with
  | Ret (a, g) => (Ret a, with_gen g w)
  | Throw e => (Throw e, w)
  | Undefined => (Undefined, w)
  | OutOfFuel => (OutOfFuel, w)
  end).

Definition get_config (req : Request) : exec PasswordConfig :=
  let length_param := get_param_value req "length" in
  length ← (if is_empty length_param then Ret (length_ default_config) else stoi length_param);
  Ret {| length_ := length;
         uppercase_ := parseBoolParam req "uppercase" true;
         lowercase_ := parseBoolParam req "lowercase" true;
         digits_ := parseBoolParam req "digits" true;
         symbols_ := parseBoolParam req "symbols" true;
         exclude_similar_ := parseBoolParam req "exclude_similar" true |}.

Definition handle_get (req : Request) : Handler unit :=
  attempt
    (config ← lift (get_config req);
     start ← shared (now clock);
     result ← shared (with_engine (generate config));
     stop ← shared (now clock);
     shared (record_request clock (elapsed start stop));;
     response ← lift (json_object (password_members result));
     send_json_response (J := J) response 200)
    (λ e, match e with
          | invalid_argument what =>
              send_error_response (J := J) 400 "Bad Request" ("Invalid parameter value: " +:+ what)
          | _ =>
              send_error_response (J := J) 500 "Internal Server Error" (exn_what e);;
              shared record_error
          end).

(** A field is read from the body if it has the right type. *)
Definition body_bool (b : J) (key : string) (field : bool) : bool :=
  match json_find key b with
  | Some v => match json_bool v with Some x => x | None => field end
  | None => field
  end.
Definition body_int (b : J) (key : string) (field : Z) : Z :=
  match json_find key b with
  | Some v => match json_int v with Some z => i32 z | None => field end
  | None => field
  end.

Definition body_config (b : J) : PasswordConfig :=
  {| length_ := body_int b "length" (length_ default_config);
     uppercase_ := body_bool b "uppercase" (uppercase_ default_config);
     lowercase_ := body_bool b "lowercase" (lowercase_ default_config);
     digits_ := body_bool b "digits" (digits_ default_config);
     symbols_ := body_bool b "symbols" (symbols_ default_config);
     exclude_similar_ := body_bool b "exclude_similar" (exclude_similar_ default_config) |}.

Fixpoint password_list (results : list PasswordResult) : exec (list J) :=
  match results with
  | [] => Ret []
  | r :: results' =>
      j ← json_object (password_members r);
      js ← password_list results';
      Ret (j :: js)
  end.

Definition handle_post (max_batch_ : Z) (req : Request) : Handler unit :=
  attempt
    (b ← lift (json_parse (body req));
     let config := body_config b in
     let count := body_int b "count" 1 in
     if count <? 1 then send_error_response (J := J) 400 "Bad Request" "Count must be at least 1"
     else if max_batch_ <? count then
       send_error_response (J := J) 400 "Bad Request" ("Count cannot exceed " +:+ to_string max_batch_)
     else
       start ← shared (now clock);
       results ← shared (with_engine (generate_batch config count));
       stop ← shared (now clock);
       shared (record_request clock (elapsed start stop));;
       passwords ← lift (password_list results);
       response ← lift (json_object [("count", json_of_int (i32 (Z.of_nat (length results))));
                                     ("passwords", json_of_list passwords)]);
       send_json_response (J := J) response 200)
    (λ e, match e with
          | json_exception what =>
              send_error_response (J := J) 400 "Bad Request" ("Invalid JSON: " +:+ what)
          | invalid_argument what => send_error_response (J := J) 400 "Bad Request" what
          | _ =>
              send_error_response (J := J) 500 "Internal Server Error" (exn_what e);;
              shared record_error
          end).
End Handlers.

(** ** What the handlers are compared with *)

(** A good password of the configuration, and the answer that shows it. *)
Definition shows {J} `{JsonOps J, Libm} (config : PasswordConfig) (r : PasswordResult) (j : J) : Prop :=
  good_result config r ∧ ∀ k, json_find k j = alist_find k (rev (password_members r)).

(** The world after a request that took two readings of the timer and one of
    the metrics, with a new state of the engine. *)
Definition after_request {SV G} (clock : nat → Z) (w : world SV G) (g : G) : world SV G :=
  let m := Metrics.record_request (elapsed (clock (ticks w)) (clock (S (ticks w)))) (clock (S (S (ticks w))))
             (metrics w) in
  {| limiter := limiter w; metrics := m; services := services w; gen := g; ticks := S (S (S (ticks w))) |}.

Definition json_response (st : Z) (text : string) (r : Response) : Response :=
  {| status := st; content := text; content_type := "application/json"; headers := headers r |}.

(** The message a POST is refused with, and whether the timer had been started. *)
Definition post_refusal (config : PasswordConfig) (count max_batch : Z) : option (string * bool) :=
  if count <? 1 then Some ("Count must be at least 1", false)
  else if max_batch <? count then Some ("Count cannot exceed " +:+ to_string max_batch, false)
  else let '(valid, message) := validate_config config "" in
       if valid then None else Some (message, true).

(** A request without headers, a world, and a failing JSON library, for the
    concrete examples. *)
Definition sample_request (params : list (string * string)) : Request := {|
  get_header_value _ := "";
  get_param_value key := match alist_find key params with Some v => v | None => "" end;
  body := "";
  remote_addr := "9.9.9.9"
|}.

Definition sample_world : world unit unit :=
  {| limiter := None; metrics := Metrics.create 0; services := tt; gen := tt; ticks := 0 |}.

Definition throwing_json : JsonOps Tree.tree :=
  Tree.ops (λ _, Throw (json_exception "invalid UTF-8 byte")) (λ _, Throw (json_exception "bad token")).

(** ** Lemmas *)
Section Facts.
Context {SV G J : Type} `{JL : JsonLaws J} `{JP : !JsonPrints J} `{RL : RngLaws G} `{Libm} (clock : nat → Z).
Implicit Types (w : world SV G) (r : Response).

Lemma good_password_ascii config p : good_result config p → ascii_text (password_ p) ∧ ascii_text (strength_ p).
Proof.
  intros (_ & _ & Hc & _ & _ & Hs). split.
  - unfold ascii_text. fold (bytes (password_ p)). eapply Forall_impl; [exact Hc|].
    intros c Ha. simpl in Ha.
    assert (Hall : forallb (λ c, implb (allowed config c) (N_of_ascii c <? 128)%N) all_bytes = true).
    { destruct config as [n [] [] [] [] []]; vm_compute; reflexivity. }
    pose proof (byte_check _ Hall c) as Hb. simpl in Hb. rewrite Ha in Hb. by apply N.ltb_lt.
  - rewrite Hs. unfold get_strength_rating. repeat case_match; solve_ascii.
Qed.

Lemma password_json config p :
  good_result config p →
  ∃ j : J, json_object (password_members p) = Ret j ∧ printable j ∧ shows config p j.
Proof.
  intros Hp. destruct (json_object_ok (password_members (J := J) p)) as (j & Hj & _ & Hf); [done|].
  exists j. split_and!; [done| |by split].
  destruct (good_password_ascii config p Hp) as [H1 H2].
  eapply printable_object; [exact Hj|]. unfold password_members.
  repeat constructor; simpl; auto using printable_string, printable_int, printable_double; solve_ascii.
Qed.

Lemma password_list_ok config ps :
  Forall (good_result config) ps →
  ∃ js : list J, password_list ps = Ret js ∧ Forall printable js ∧ Forall2 (shows config) ps js.
Proof.
  induction 1 as [|p ps Hp _ (js & Hjs & Hpr & H2)]; [by exists []|].
  destruct (password_json config p Hp) as (j & Hj & Hprint & Hshow).
  exists (j :: js). simpl. rewrite Hj. cbn [mbind exec_bind]. rewrite Hjs. split_and!; [done|by constructor|by constructor].
Qed.

Lemma validate_message_ascii config : ascii_text (validate_config config "").2.
Proof. unfold validate_config. repeat case_match; simpl; solve_ascii. Qed.

(** The timed call of the generator, and what is recorded of it. *)
Lemma timed_generate {A} (f : G → exec (A * G)) a g w r {B} (k : A → handler SV G B) :
  f (gen w) = Ret (a, g) →
  (start ← shared (now clock); x ← shared (with_engine f); stop ← shared (now clock);
   shared (record_request clock (elapsed start stop));; k x) (w, r) = k a (after_request clock w g, r).
Proof.
  intros Hf. rewrite (shared_Ret _ _ _ _ (clock (ticks w)) (tick w)) by done.
  rewrite (shared_Ret _ _ _ _ a (with_gen g (tick w))); [|by cbn; rewrite Hf].
  by rewrite (shared_Ret _ _ _ _ (clock (S (ticks w))) (tick (with_gen g (tick w)))).
Qed.

Lemma failed_generate {A} (f : G → exec (A * G)) e w r {B} (k : A → Z → handler SV G B) :
  f (gen w) = Throw e →
  (start ← shared (now clock); x ← shared (with_engine f); stop ← shared (now clock);
   shared (record_request clock (elapsed start stop));; k x stop) (w, r) = (Throw e, (tick w, r)).
Proof.
  intros Hf. rewrite (shared_Ret _ _ _ _ (clock (ticks w)) (tick w)) by done.
  apply shared_Throw. cbn. by rewrite Hf.
Qed.
End Facts.

Lemma pretty_N_go_ascii (n : N) (s : string) : ascii_text s → ascii_text (pretty.pretty_N_go n s).
Proof.
  revert s. induction (N.lt_wf_0 n) as [n _ IH]. intros s Hs.
  destruct (decide (0 < n)%N) as [Hn|Hn].
  - rewrite pretty.pretty_N_go_step by done. apply IH; [by apply N.div_lt|].
    unfold ascii_text in *. simpl. constructor; [|done].
    unfold pretty.pretty_N_char. repeat case_match; done.
  - assert (n = 0%N) as -> by lia. by rewrite pretty.pretty_N_go_0.
Qed.

Lemma to_string_ascii z : ascii_text (to_string z).
Proof.
  assert (HN : ∀ n : N, ascii_text (pretty n)).
  { intros n. unfold pretty, pretty.pretty_N. case_decide; [solve_ascii|]. apply pretty_N_go_ascii. constructor. }
  unfold to_string, pretty, pretty.pretty_Z. destruct z; [solve_ascii|apply HN|].
  apply (ascii_app "-"); [solve_ascii|apply HN].
Qed.

(** [std::stoi] throws one of two exceptions. *)
Lemma stoi_cases s :
  (∃ z, stoi s = Ret z) ∨ stoi s = Throw (invalid_argument "stoi") ∨ stoi s = Throw (out_of_range "stoi").
Proof.
  unfold stoi, sto_signed. destruct (scan_number s) as [[neg v]|]; [|auto].
  destruct (_ && _); eauto.
Qed.

Lemma get_config_cases req :
  (∃ config, get_config req = Ret config) ∨
  get_config req = Throw (invalid_argument "stoi") ∨ get_config req = Throw (out_of_range "stoi").
Proof.
  unfold get_config. destruct (is_empty (get_param_value req "length")); [left; by eexists|].
  destruct (stoi_cases (get_param_value req "length")) as [[z ->]|[->| ->]]; [left; by eexists|auto..].
Qed.

Lemma body_int_range {J} `{JsonOps J} (b : J) key field : is_i32 field → is_i32 (body_int b key field).
Proof.
  intros Hf. unfold body_int. destruct (json_find key b) as [v|]; [|done].
  destruct (json_int v); [apply i32_range|done].
Qed.

(** The two ends of a POST whose body is JSON. *)
Section Post.
Context {SV G J : Type} `{JL : JsonLaws J} `{JP : !JsonPrints J} `{RL : RngLaws G} `{Libm} (clock : nat → Z)
  (max_batch : Z) (req : Request) (b : J) (w : world SV G) (r : Response).
Hypothesis Hb : json_parse (body req) = Ret b.
Notation config := (body_config b).
Notation count := (body_int b "count" 1).

Lemma post_refused message timed :
  post_refusal config count max_batch = Some (message, timed) →
  ∃ text, is_error (J := J) "Bad Request" message text ∧
    handle_post clock max_batch req (w, r) =
      (Ret tt, (if timed : bool then tick w else w, json_response 400 text r)).
Proof.
  unfold post_refusal. intros Href.
  assert (Hm : ascii_text message).
  { pose proof (validate_message_ascii config) as Hv. destruct (count <? 1); [injection Href as <- _; solve_ascii|].
    destruct (max_batch <? count).
    - injection Href as <- _. apply ascii_app; [solve_ascii|apply to_string_ascii].
    - destruct (validate_config config "") as [[] m]; [done|]. by injection Href as <- _. }
  destruct (send_error_ok (J := J) 400 "Bad Request" message (if timed then tick w else w) r)
    as (text & He & Hs); [solve_ascii|done|].
  exists text. split; [done|]. unfold handle_post. rewrite Hb.
  destruct (Z.ltb_spec count 1); [|destruct (Z.ltb_spec max_batch count)].
  - injection Href as <- <-. apply attempt_Ret. rewrite (bind_Ret _ _ _ b (w, r)) by done.
    by rewrite (proj2 (Z.ltb_lt _ _)) by lia.
  - injection Href as <- <-. apply attempt_Ret. rewrite (bind_Ret _ _ _ b (w, r)) by done.
    rewrite (proj2 (Z.ltb_ge _ _)) by lia. by rewrite (proj2 (Z.ltb_lt _ _)) by lia.
  - destruct (validate_config config "") as [[] m] eqn:Hv; [done|]. injection Href as -> <-.
    assert (Hgb : generate_batch config count (gen w) = Throw (invalid_argument message)).
    { unfold generate_batch. rewrite (proj2 (Z.leb_gt _ _)) by lia.
      destruct (Z.to_nat count) as [|n] eqn:Hn; [lia|]. simpl. unfold generate. by rewrite Hv. }
    rewrite (attempt_Throw _ _ _ (invalid_argument message) (tick w, r)); [exact Hs|].
    rewrite (bind_Ret _ _ _ b (w, r)) by done.
    rewrite !(proj2 (Z.ltb_ge _ _)) by lia. by apply failed_generate.
Qed.

Lemma post_granted :
  post_refusal config count max_batch = None →
  ∃ ps js j g text,
    Z.of_nat (length ps) = count ∧ Forall2 (shows config) ps js ∧
    json_find "count" j = Some (json_of_int count) ∧ json_find "passwords" j = Some (json_of_list js) ∧
    json_dump j = Ret text ∧
    handle_post clock max_batch req (w, r) = (Ret tt, (after_request clock w g, json_response 200 text r)).
Proof.
  unfold post_refusal. intros Href.
  destruct (Z.ltb_spec count 1); [done|]. destruct (Z.ltb_spec max_batch count); [done|].
  destruct (validate_config config "") as [[] m] eqn:Hv; [|done].
  assert (Hr : is_i32 count) by (apply body_int_range; unfold is_i32; lia).
  destruct (batch_loop_ok config (Z.to_nat count) [] (gen w)) as (ps & g & Hg & Hlen & Hps); [by rewrite Hv|].
  assert (Hgb : generate_batch config count (gen w) = Ret (ps, g)).
  { unfold generate_batch. rewrite (proj2 (Z.leb_gt _ _)) by lia. done. }
  destruct (password_list_ok (J := J) config ps Hps) as (js & Hjs & Hprint & Hshow).
  assert (Hcount : i32 (Z.of_nat (length ps)) = count).
  { rewrite i32_small; unfold is_i32 in *; lia. }
  destruct (json_object_ok [("count", json_of_int count); ("passwords", json_of_list js)])
    as (j & Hj & _ & Hf); [done|].
  destruct (json_dump_ok j) as [text Hd].
  { eapply printable_object; [exact Hj|]. repeat constructor; simpl; auto using printable_int, printable_list; solve_ascii. }
  exists ps, js, j, g, text. split_and!; [lia|done|by rewrite Hf|by rewrite Hf|done|].
  unfold handle_post. rewrite Hb. apply attempt_Ret. rewrite (bind_Ret _ _ _ b (w, r)) by done.
  rewrite !(proj2 (Z.ltb_ge _ _)) by lia.
  rewrite (timed_generate clock (generate_batch config count) ps g w r) by done.
  rewrite (bind_Ret _ _ _ js (after_request clock w g, r)) by (unfold lift; by rewrite Hjs).
  rewrite Hcount.
  rewrite (bind_Ret _ _ _ j (after_request clock w g, r)) by (unfold lift; by rewrite Hj).
  by apply send_json_ok.
Qed.
End Post.

(** ** Properties *)

(** C29: a GET for a password always ends in one JSON answer: 400 for a length
    that is not a number or a configuration the generator refuses, 500 (and
    an error in the metrics) for a number out of the range of [int], and
    otherwise 200 with a good password of the configuration that the query
    asks for, counted as one request. *)
Theorem password_get_exact {SV G J} `{JL : JsonLaws J} `{JP : !JsonPrints J} `{RL : RngLaws G} `{Libm}
    (clock : nat → Z) (req : Request) (w : world SV G) (r : Response) :
  match get_config req with
  | Ret config =>
      if (validate_config config "").1 then
        ∃ p j g text, shows config p j ∧ json_dump j = Ret text ∧
          handle_get (J := J) clock req (w, r) = (Ret tt, (after_request clock w g, json_response 200 text r))
      else
        ∃ text, is_error (J := J) "Bad Request" ("Invalid parameter value: " +:+ (validate_config config "").2) text ∧
          handle_get (J := J) clock req (w, r) = (Ret tt, (tick w, json_response 400 text r))
  | Throw (invalid_argument what) =>
      ∃ text, is_error (J := J) "Bad Request" ("Invalid parameter value: " +:+ what) text ∧
        handle_get (J := J) clock req (w, r) = (Ret tt, (w, json_response 400 text r))
  | Throw e =>
      ∃ text, is_error (J := J) "Internal Server Error" (exn_what e) text ∧
        handle_get (J := J) clock req (w, r) =
          (Ret tt, (with_metrics (Metrics.record_error (metrics w)) w, json_response 500 text r))
  | _ => False
  end.
Proof.
  unfold handle_get. destruct (get_config_cases req) as [[config Hc]|[Hc|Hc]]; rewrite Hc.
  - destruct (validate_config config "") as [valid message] eqn:Hv. cbn [fst snd].
    pose proof (validate_message_ascii config) as Hm. rewrite Hv in Hm. cbn [snd] in Hm. destruct valid.
    + destruct (generate_ok config (gen w)) as (p & g & Hg & Hp); [by rewrite Hv|].
      destruct (password_json (J := J) config p Hp) as (j & Hj & Hprint & Hshow).
      destruct (json_dump_ok j Hprint) as [text Hd]. exists p, j, g, text. split_and!; [done|done|].
      apply attempt_Ret. rewrite (bind_Ret _ _ _ config (w, r)) by done.
      rewrite (timed_generate clock (generate config) p g w r) by done.
      rewrite (bind_Ret _ _ _ j (after_request clock w g, r)) by (unfold lift; by rewrite Hj).
      by apply send_json_ok.
    + assert (Hg : generate config (gen w) = Throw (invalid_argument message)).
      { unfold generate. by rewrite Hv. }
      destruct (send_error_ok (J := J) 400 "Bad Request" ("Invalid parameter value: " +:+ message) (tick w) r)
        as (text & He & Hs); [solve_ascii|apply ascii_app; [solve_ascii|done]|].
      exists text. split; [done|]. rewrite (attempt_Throw _ _ _ (invalid_argument message) (tick w, r)); [exact Hs|].
      rewrite (bind_Ret _ _ _ config (w, r)) by done. by apply failed_generate.
  - destruct (send_error_ok (J := J) 400 "Bad Request" ("Invalid parameter value: " +:+ "stoi") w r)
      as (text & He & Hs); [solve_ascii..|].
    exists text. split; [done|].
    rewrite (attempt_Throw _ _ _ (invalid_argument "stoi") (w, r)); [exact Hs|done].
  - destruct (send_error_ok (J := J) 500 "Internal Server Error" "stoi" w r)
      as (text & He & Hs); [solve_ascii..|].
    exists text. split; [done|].
    rewrite (attempt_Throw _ _ _ (out_of_range "stoi") (w, r)); [|done].
    by rewrite (bind_Ret _ _ _ tt _ Hs).
Qed.

(** C30: a POST for passwords, whose body is JSON, always ends in one JSON
    answer: 400 with the message that belongs to a count below one, a count
    above the maximum or a configuration the generator refuses, and otherwise
    200 with exactly as many good passwords as the count asks for. *)
Theorem password_post_exact {SV G J} `{JL : JsonLaws J} `{JP : !JsonPrints J} `{RL : RngLaws G} `{Libm}
    (clock : nat → Z) (max_batch : Z) (req : Request) (b : J) (w : world SV G) (r : Response) :
  json_parse (body req) = Ret b →
  let config := body_config b in
  let count := body_int b "count" 1 in
  match post_refusal config count max_batch with
  | Some (message, timed) =>
      ∃ text, is_error (J := J) "Bad Request" message text ∧
        handle_post clock max_batch req (w, r) =
          (Ret tt, (if timed : bool then tick w else w, json_response 400 text r))
  | None =>
      ∃ ps js j g text,
        Z.of_nat (length ps) = count ∧ Forall2 (shows config) ps js ∧
        json_find "count" j = Some (json_of_int count) ∧ json_find "passwords" j = Some (json_of_list js) ∧
        json_dump j = Ret text ∧
        handle_post clock max_batch req (w, r) = (Ret tt, (after_request clock w g, json_response 200 text r))
  end.
Proof.
  intros Hb config count. destruct (post_refusal config count max_batch) as [[message timed]|] eqn:Hr.
  - by eapply post_refused.
  - by eapply post_granted.
Qed.

(** If the text of a parse error cannot itself be printed as JSON (it
    quotes bytes of the body, which need not be UTF-8), the handler's own
    error handling throws, and no answer is written. *)
Theorem post_error_text_can_throw {SV G J} `{JsonOps J, Rng G, Libm}
    (clock : nat → Z) (max_batch : Z) (req : Request) what (j : J) e (w : world SV G) (r : Response) :
  json_parse (J := J) (body req) = Throw (json_exception what) →
  json_object (error_members "Bad Request" ("Invalid JSON: " +:+ what)) = Ret j →
  json_dump j = Throw e →
  ∃ r', handle_post (J := J) clock max_batch req (w, r) = (Throw e, (w, r')) ∧ content r' = content r.
Proof.
  intros Hp Hj Hd. eexists. split; [|shelve]. unfold handle_post. rewrite Hp.
  rewrite (attempt_Throw _ _ _ (json_exception what) (w, r)) by done.
  unfold send_error_response. rewrite Hj. cbn. rewrite Hd. reflexivity.
  Unshelve. reflexivity.
Qed.

(** ** Witnesses *)
Lemma password_get_exact_witness :
  ∃ text, handle_get (J := Tree.tree) (H := Tree.sample) (H0 := zero_rng) (H1 := sample_libm) (λ n, Z.of_nat n)
      (sample_request [("length", "99999999999")]) (sample_world, fresh_response) =
    (Ret tt, (with_metrics (Metrics.record_error (metrics sample_world)) sample_world,
              json_response 500 text fresh_response)).
Proof.
  assert (RL : @RngLaws unit zero_rng) by (split; simpl; [lia|done]).
  destruct (password_get_exact (JL := tree_laws (λ _, Ret "{}") (λ _, Ret Tree.Null)) (JP := tree_prints "{}" _)
    (RL := RL) (H := sample_libm) (λ n, Z.of_nat n) (sample_request [("length", "99999999999")])
    sample_world fresh_response) as (text & _ & Hg).
  exists text. exact Hg.
Defined.

Lemma password_post_exact_witness :
  ∃ g text, handle_post (J := Tree.tree) (H := Tree.sample) (H0 := zero_rng) (H1 := sample_libm) (λ n, Z.of_nat n)
      100 (sample_request []) (sample_world, fresh_response) =
    (Ret tt, (after_request (λ n, Z.of_nat n) sample_world g, json_response 200 text fresh_response)).
Proof.
  assert (RL : @RngLaws unit zero_rng) by (split; simpl; [lia|done]).
  destruct (password_post_exact (JL := tree_laws (λ _, Ret "{}") (λ _, Ret Tree.Null)) (JP := tree_prints "{}" _)
    (RL := RL) (H := sample_libm) (λ n, Z.of_nat n) 100 (sample_request []) Tree.Null
    sample_world fresh_response) as (ps & js & j & g & text & _ & _ & _ & _ & _ & Hp); [reflexivity|].
  exists g, text. exact Hp.
Defined.

Lemma post_error_text_can_throw_witness :
  ∃ r', handle_post (J := Tree.tree) (H := throwing_json) (H0 := zero_rng) (H1 := sample_libm) (λ n, Z.of_nat n)
      100 (sample_request []) (sample_world, fresh_response) =
    (Throw (json_exception "invalid UTF-8 byte"), (sample_world, r')) ∧ content r' = "".
Proof.
  apply (post_error_text_can_throw (H := throwing_json) (H0 := zero_rng) (H1 := sample_libm) (λ n, Z.of_nat n) 100
    (sample_request []) "bad token"
    (Tree.Obj [("message", Tree.Str "Invalid JSON: bad token"); ("error", Tree.Str "Bad Request")]));
    reflexivity.
Defined.
