(* ===== verification/HttpServer.v ===== *)
(** * The HTTP server (src/src/http_server.h, http_server.cpp)

    [IPGeoHTTPServer]: its construction from the configuration, the gate every
    lookup passes (API key, client address, rate limit), the handlers and the
    routes.  The lookup handlers are [service]s.  [std::async] is a parameter:
    for the threads of one batch, and the one that waits for them, it gives the
    order in which their steps are taken.  The threads around [listen] are in
    Lifecycle.v. *)
From Stdlib Require Import ZArith Lia Ascii String.
From S2P Require Import Prelude Program StdList Double Json CppString RateLimiter Cache Validation Auth Metrics PasswordGenerator Config Services Http PasswordHandler.
#[local] Open Scope Z_scope.

Class Async := schedule : list string → list nat.

Module IPGeoHTTPServer.
Section Server.
Context {SV G J : Type} `{JsonOps J, Digest, Resolver, Async} (clock : nat → Z).
Notation Thread := (thread SV G).
Notation Handler := (handler SV G).

Record t := {
  host_ : string;
  port_ : Z;
  thread_pool_size_ : Z;
  enable_rate_limiter_ : bool;
  max_batch_size_ : Z;
  enable_api_auth_ : bool;
  api_auth_ : option APIAuth.t;                        (* std::unique_ptr *)
  lookup_handler_ : option (service SV J);
  mac_lookup_handler_ : option (service SV J);
  cache_stats_handler_ : option (SV → CacheStats.t)
}.

(** The keys the constructor accepts; [keys_file] is the content of the file
    [api_keys_file_], if it opens. *)
Definition configured_keys (config : ServerConfig) (keys_file : option string) : APIAuth.t :=
  let keys := if negb (is_empty (api_keys_file_ config))
              then (APIAuth.load_keys_from_file keys_file ∅).2 else ∅ in
  if negb (is_empty (default_api_key_ config)) then APIAuth.add_key (default_api_key_ config) keys
  else keys.

(** The constructor: the server, its rate limiter and its metrics. *)
Definition create (config : ServerConfig) (keys_file : option string) (start : Z) :
    t * option RateLimiter.t * Metrics.t :=
  ({| host_ := Config.host_ config;
      port_ := Config.port_ config;
      thread_pool_size_ := Config.thread_pool_size_ config;
      enable_rate_limiter_ := Config.enable_rate_limiter_ config;
      max_batch_size_ := Config.max_batch_size_ config;
      enable_api_auth_ := Config.enable_api_auth_ config;
      api_auth_ := if Config.enable_api_auth_ config then Some (configured_keys config keys_file) else None;
      lookup_handler_ := None; mac_lookup_handler_ := None; cache_stats_handler_ := None |},
   (if Config.enable_rate_limiter_ config
    then Some (RateLimiter.create (max_requests_per_minute_ config) 60 RateLimiter.default_max_ip_records) else None),
   Metrics.create start).

Definition set_lookup_handler (h : service SV J) (srv : t) : t :=
  {| host_ := host_ srv; port_ := port_ srv; thread_pool_size_ := thread_pool_size_ srv;
     enable_rate_limiter_ := enable_rate_limiter_ srv; max_batch_size_ := max_batch_size_ srv;
     enable_api_auth_ := enable_api_auth_ srv; api_auth_ := api_auth_ srv;
     lookup_handler_ := Some h; mac_lookup_handler_ := mac_lookup_handler_ srv;
     cache_stats_handler_ := cache_stats_handler_ srv |}.

Definition set_mac_lookup_handler (h : service SV J) (srv : t) : t :=
  {| host_ := host_ srv; port_ := port_ srv; thread_pool_size_ := thread_pool_size_ srv;
     enable_rate_limiter_ := enable_rate_limiter_ srv; max_batch_size_ := max_batch_size_ srv;
     enable_api_auth_ := enable_api_auth_ srv; api_auth_ := api_auth_ srv;
     lookup_handler_ := lookup_handler_ srv; mac_lookup_handler_ := Some h;
     cache_stats_handler_ := cache_stats_handler_ srv |}.

Definition set_cache_stats_handler (h : SV → CacheStats.t) (srv : t) : t :=
  {| host_ := host_ srv; port_ := port_ srv; thread_pool_size_ := thread_pool_size_ srv;
     enable_rate_limiter_ := enable_rate_limiter_ srv; max_batch_size_ := max_batch_size_ srv;
     enable_api_auth_ := enable_api_auth_ srv; api_auth_ := api_auth_ srv;
     lookup_handler_ := lookup_handler_ srv; mac_lookup_handler_ := mac_lookup_handler_ srv;
     cache_stats_handler_ := Some h |}.

(** ** The gate *)
Definition send_error (st : Z) (error message : string) : Handler unit :=
  send_error_response (J := J) st error message.

Definition authenticate_request (srv : t) (req : Request) : Handler bool :=
  match (if enable_api_auth_ srv then api_auth_ srv else None) with
  | None => mret true
  | Some auth =>
      let auth_header := get_header_value req "Authorization" in
      if is_empty auth_header then
        send_error 401 "Unauthorized" "Missing API key in Authorization header";;
        set_header "WWW-Authenticate" "Bearer";;
        mret false
      else if negb (starts_with "Bearer " auth_header) then
        send_error 401 "Unauthorized" "Invalid Authorization header format. Expected: Bearer <api_key>";;
        set_header "WWW-Authenticate" "Bearer";;
        mret false
      else
        let api_key := substr auth_header 7 (length (bytes auth_header)) in
        if negb (APIAuth.is_valid auth api_key) then
          send_error 401 "Unauthorized" "Invalid API key";;
          mret false
        else mret true
  end.

Definition get_real_client_ip (req : Request) : string :=
  let xff := get_header_value req "X-Forwarded-For" in
  if negb (is_empty xff) then
    match find_char ","%char xff with
    | Some comma_pos =>
        let first_ip := substr xff 0 comma_pos in
        match find_first_not_of [space; tab] first_ip, find_last_not_of [space; tab] first_ip with
        | Some start, Some stop => substr first_ip start (stop - start + 1)
        | _, _ => first_ip
        end
    | None => xff
    end
  else
    let xri := get_header_value req "X-Real-IP" in
    if negb (is_empty xri) then xri else remote_addr req.

(** A call of the rate limiter; the limiter is a null pointer unless it is
    enabled. *)
Definition with_rate_limiter {A} (f : RateLimiter.t → exec (A * RateLimiter.t)) : M (world SV G) A := λ w,
  match rl ← deref (limiter w); f rl with
  | Ret (a, rl) => (Ret a, with_limiter (Some rl) w)
  | Throw e => (Throw e, w)
  | Undefined => (Undefined, w)
  | OutOfFuel => (OutOfFuel, w)
  end.

(** The limiter reads the clock while it holds its lock. *)
Definition limiter_allows (client_ip : string) : Thread bool := atomic (
  t1 ← read_clock clock;
  t2 ← read_clock clock;
  with_rate_limiter (λ rl, RateLimiter.is_allowed rl client_ip t1 t2)).

Definition limiter_remaining (client_ip : string) : Thread Z := atomic (
  t ← read_clock clock;
  with_rate_limiter (λ rl, RateLimiter.get_remaining rl client_ip t)).

Definition prepare_request (srv : t) (req : Request) : Handler (option string) :=
  authenticated ← authenticate_request srv req;
  if negb authenticated then mret None
  else
    let client_ip := get_real_client_ip req in
    if is_empty client_ip then
      send_error 400 "Bad Request" "Unable to determine source IP address";;
      mret None
    else if enable_rate_limiter_ srv then
      allowed ← shared (limiter_allows client_ip);
      if negb allowed then
        remaining ← shared (limiter_remaining client_ip);
        error ← lift (json_object [("error", json_of_string "Rate limit exceeded");
                                   ("remaining", json_of_int remaining)]);
        send_json_response (J := J) error 429;;
        set_header "Retry-After" "60";;
        mret None
      else mret (Some client_ip)
    else mret (Some client_ip).

(** ** The handlers *)
Definition handle_root : Handler unit :=
  info ← lift (json_object
    [("service", json_of_string "IP Geolocation & AS Lookup Service");
     ("version", json_of_string "2.0.0");
     ("endpoints", json_of_list (json_of_string <$> ["/"; "/lookup"; "/health"; "/password/generate"]));
     ("description", json_of_string
        "Use /lookup with 'ip=' or 'mac=' parameter for single queries, or 'ips'/'macs' array for batch queries")]);
  set_json (J := J) info.

(** [round(d * k) / k] *)
Definition rounded (k : Z) (d : double) : J :=
  json_of_double (ddiv (double_round (dmul d (double_of_Z k))) (double_of_Z k)).

Definition metrics_members (stats : Metrics.Stats) : list (string * J) :=
  [("total_requests", json_of_int (Metrics.total_requests stats));
   ("qps", rounded 100 (Metrics.current_qps stats));
   ("avg_latency_ms", rounded 1000 (Metrics.avg_latency_ms stats));
   ("p50_latency_ms", rounded 1000 (Metrics.p50_latency_ms stats));
   ("p95_latency_ms", rounded 1000 (Metrics.p95_latency_ms stats));
   ("p99_latency_ms", rounded 1000 (Metrics.p99_latency_ms stats))].

Definition cache_members (cache : CacheStats.t) : list (string * J) :=
  [("hits", json_of_int (CacheStats.hits_ cache));
   ("misses", json_of_int (CacheStats.misses_ cache));
   ("hit_rate_percent", rounded 100 (CacheStats.hit_rate cache));
   ("evictions", json_of_int (CacheStats.evictions_ cache));
   ("expired_entries", json_of_int (CacheStats.expired_entries_ cache));
   ("memory_usage_mb", rounded 100 (CacheStats.get_memory_usage_mb cache))].

(** [metrics_->get_stats()]: each counter is loaded, and the lock taken twice. *)
Definition metrics_stats : Thread Metrics.Stats :=
  w1 ← atomic get_world;
  w2 ← atomic get_world;
  w3 ← atomic get_world;
  w4 ← atomic get_world;
  t ← now clock;
  lift (Metrics.get_stats (metrics w1) (metrics w2) (metrics w3) (metrics w4) t).

Definition handle_health (srv : t) : Handler unit :=
  stats ← shared metrics_stats;
  time ← shared (now clock);
  metrics_json ← lift (json_object (metrics_members stats));
  cache_json ← (match cache_stats_handler_ srv with
                | Some h =>
                    w ← shared (atomic get_world);
                    j ← lift (json_object (cache_members (h (services w))));
                    mret [("cache", j)]
                | None => mret []
                end : Handler (list (string * J)));
  errors_json ← lift (json_object [("total", json_of_int (Metrics.total_errors stats));
                                   ("rate_percent", rounded 100 (Metrics.error_rate stats))]);
  system_json ← lift (json_object [("uptime_seconds", json_of_int (Metrics.uptime_seconds stats))]);
  health ← lift (json_object
    ([("status", json_of_string "ok"); ("timestamp", json_of_int (Z.quot time ns_per_s));
      ("metrics", metrics_json)] ++ cache_json ++ [("errors", errors_json); ("system", system_json)]));
  set_json (J := J) health.

(** [handler(query)]: the two steps of a lookup, each with its clock reading *)
Definition call_handler (h : service SV J) (query : string) : Thread (LookupResult J) :=
  cached ← atomic (t ← read_clock clock; on_services (on_lookup h query t));
  match cached with
  | Some value => mret {| data_ := value; cache_hit_ := true |}
  | None =>
      result ← atomic (t ← read_clock clock; on_services (on_miss h query t));
      mret {| data_ := result; cache_hit_ := false |}
  end.

(** A lookup and how long it took, by a [ScopedTimer]. *)
Definition timed_lookup (h : service SV J) (query : string) : Thread (LookupResult J * double) :=
  start ← now clock;
  result ← call_handler h query;
  stop ← now clock;
  mret (result, elapsed start stop).

Definition handle_lookup_get (srv : t) (req : Request) : Handler unit :=
  client_ip ← prepare_request srv req;
  match client_ip with
  | None => mret tt
  | Some client_ip =>
      let mac_param := get_param_value req "mac" in
      let ip_param := get_param_value req "ip" in
      if negb (is_empty mac_param) && negb (is_empty ip_param) then
        send_error 400 "Bad Request" "Cannot specify both 'ip' and 'mac' parameters simultaneously"
      else
        let is_mac := negb (is_empty mac_param) in
        let query := if is_mac then mac_param else if is_empty ip_param then client_ip else ip_param in
        let handler := if is_mac then mac_lookup_handler_ srv else lookup_handler_ srv in
        valid ← lift (if is_mac then isValidMacFormat query else Ret (isValidIpFormat query));
        let type := if is_mac then "MAC" else "IP" in
        attempt
          (if negb valid then
             send_error 400 "Bad Request"
               (if is_mac then "Invalid MAC address format" else "Invalid IP address format")
           else match handler with
                | None => send_error 500 "Internal Server Error" (type +:+ " lookup handler not configured")
                | Some h =>
                    '(result, latency) ← shared (timed_lookup h query);
                    shared (record_request clock latency);;
                    set_json (J := J) (data_ result)
                end)
          (λ e,
             set_status 500;;
             error ← lift (json_object [("error", json_of_string (exn_what e))]);
             set_json (J := J) error;;
             shared record_error)
  end.

(** ** Batches *)

(** The items of the array that are texts the validator accepts. *)
Fixpoint valid_items (validator : string → exec bool) (items : list J) : exec (list string) :=
  match items with
  | [] => Ret []
  | item :: items' =>
      match json_string item with
      | Some s =>
          ok ← validator s;
          rest ← valid_items validator items';
          Ret (if ok : bool then s :: rest else rest)
      | None => valid_items validator items'
      end
  end.

(** The lambda of [handle_lookup_post]; [None] stands for [false]. *)
Definition process_batch (srv : t) (h : option (service SV J)) (type : string) (items : list J)
    (validator : string → exec bool) : Handler (option (service SV J * list string)) :=
  match h with
  | None =>
      send_error 500 "Internal Server Error" (type +:+ " lookup handler not configured");;
      mret None
  | Some handler =>
      let batch_size := Z.of_nat (length items) in
      if max_batch_size_ srv <? batch_size then
        error ← lift (json_object [("error", json_of_string "Batch size exceeds maximum limit");
                                   ("max_batch_size", json_of_int (max_batch_size_ srv));
                                   ("requested_size", json_of_int batch_size)]);
        send_json_response (J := J) error 400;;
        mret None
      else
        query_list ← lift (valid_items validator items);
        mret (Some (handler, query_list))
  end.

Fixpoint lookup_each (h : service SV J) (query_list : list string) (results : list J) : Thread (list J) :=
  match query_list with
  | [] => mret results
  | query_str :: rest =>
      '(result, latency) ← timed_lookup h query_str;
      record_request clock latency;;
      lookup_each h rest (results ++ [data_ result])
  end.

(** [future.get()], and what is done with the outcome. *)
Definition collect (results : list J) (future : exec (LookupResult J * double)) : Thread (list J) :=
  '(result, latency) ← lift future;
  record_request clock latency;;
  mret (results ++ [data_ result]).

(** All lookups at once, each in a thread of its own, while this thread waits
    for one after the other. *)
Definition run_async (h : service SV J) (query_list : list string) : Thread (list J) :=
  gather collect (timed_lookup h <$> query_list) (mret []) 0 (schedule query_list).

Definition lookup_all (h : service SV J) (query_list : list string) : Thread (list J) :=
  if (length query_list <=? 10)%nat then lookup_each h query_list [] else run_async h query_list.

(** [body.contains(key) && body[key].is_array()], and the array *)
Definition array_member (key : string) (b : J) : option (list J) :=
  match json_find key b with Some v => json_list v | None => None end.

(** The part of [handle_lookup_post] behind the gate. *)
Definition lookup_batch (srv : t) (req : Request) : Handler unit :=
  attempt
    (b ← lift (json_parse (body req));
     batch ← (match array_member "ips" b, array_member "macs" b with
              | None, None =>
                  send_error 400 "Bad Request" "Missing or invalid 'ips' or 'macs' array in request body";;
                  mret None
              | Some _, Some _ =>
                  send_error 400 "Bad Request" "Cannot specify both 'ips' and 'macs' in the same request";;
                  mret None
              | Some ips, None =>
                  process_batch srv (lookup_handler_ srv) "IP" ips (λ s, Ret (isValidIpFormat s))
              | None, Some macs =>
                  process_batch srv (mac_lookup_handler_ srv) "MAC" macs isValidMacFormat
              end : Handler (option (service SV J * list string)));
     match batch with
     | None => mret tt
     | Some (handler, query_list) =>
         results ← shared (lookup_all handler query_list);
         set_json (J := J) (json_of_list results)
     end)
    (λ e, match e with
          | json_exception what => send_error 400 "Bad Request" ("Invalid JSON: " +:+ what)
          | _ => send_error 500 "Internal Server Error" (exn_what e);; shared record_error
          end).

Definition handle_lookup_post (srv : t) (req : Request) : Handler unit :=
  client_ip ← prepare_request srv req;
  match client_ip with
  | None => mret tt
  | Some _ => lookup_batch srv req
  end.

(** ** Routes *)
Definition setup_cors : Handler unit :=
  set_header "Access-Control-Allow-Origin" "*";;
  set_header "Access-Control-Allow-Methods" "GET, POST, OPTIONS";;
  set_header "Access-Control-Allow-Headers" "Content-Type, Authorization".

Definition setup_routes `{Rng G, Libm} (srv : t) : list (string * string * (Request → Handler unit)) :=
  [("GET", "/", λ _, handle_root);
   ("GET", "/health", λ _, handle_health srv);
   ("GET", "/lookup", handle_lookup_get srv);
   ("POST", "/lookup", handle_lookup_post srv);
   ("GET", "/password/generate", PasswordHandler.handle_get (J := J) clock);
   ("POST", "/password/generate", PasswordHandler.handle_post (J := J) clock (max_batch_size_ srv))].

(** What is run for a request; [None] if no route matches. *)
Definition dispatch `{Rng G, Libm} (srv : t) (method path : string) (req : Request) : option (Handler unit) :=
  if String.eqb method "OPTIONS" then Some setup_cors
  else match List.find (λ r, String.eqb r.1.1 method && String.eqb r.1.2 path) (setup_routes srv) with
       | Some (_, _, handler) => Some (setup_cors;; handler req)
       | None => None
       end.

(** The lines the server logs when it starts. *)
Definition log_startup_banner (srv : t) : list string :=
  ["Starting HTTP server on " +:+ host_ srv +:+ ":" +:+ to_string (port_ srv);
   "========================================";
   "  IP Geolocation & AS Lookup Service";
   "========================================";
   "Server: http://" +:+ host_ srv +:+ ":" +:+ to_string (port_ srv);
   "Thread Pool: " +:+ to_string (thread_pool_size_ srv) +:+ " threads";
   "";
   "API Endpoints:";
   "  GET  /                       - Service info";
   "  GET  /health                 - Health check";
   "  GET  /lookup?ip=<address>    - IP lookup";
   "  GET  /lookup?mac=<address>   - MAC lookup";
   "  POST /lookup                 - Batch lookup";
   "  GET  /password/generate      - Generate password";
   "  POST /password/generate      - Batch generate passwords";
   "";
   "Press Ctrl+C to stop the server";
   "========================================"].
End Server.
Arguments t SV J : clear implicits.
End IPGeoHTTPServer.

(** ** What the handlers are compared with *)

(** The request carries an API key the server accepts. *)
Definition authorised `{Digest} (auth : APIAuth.t) (req : Request) : Prop :=
  ∃ key, get_header_value req "Authorization" = "Bearer " +:+ key ∧ APIAuth.is_valid auth key = true.

(** The two lookup end points. *)
Definition lookup_endpoints {SV G J} `{JsonOps J, Digest, Resolver, Async} (clock : nat → Z)
    (srv : IPGeoHTTPServer.t SV J) (req : Request) : list (handler SV G unit) :=
  [IPGeoHTTPServer.handle_lookup_get clock srv req; IPGeoHTTPServer.handle_lookup_post clock srv req].

(** What a GET asks for: nothing sensible if it names both kinds of address,
    else a kind and an address, the client's own if it names none. *)
Definition lookup_target (req : Request) (client_ip : string) : option (bool * string) :=
  let mac := get_param_value req "mac" in
  let ip := get_param_value req "ip" in
  if negb (is_empty mac) && negb (is_empty ip) then None
  else if negb (is_empty mac) then Some (true, mac)
  else Some (false, if is_empty ip then client_ip else ip).

Definition well_formed `{Resolver} (is_mac : bool) (query : string) : Prop :=
  if is_mac then isValidMacFormat query = Ret true else isValidIpFormat query = true.

Definition handler_for {SV J} (srv : IPGeoHTTPServer.t SV J) (is_mac : bool) : option (service SV J) :=
  if is_mac then IPGeoHTTPServer.mac_lookup_handler_ srv else IPGeoHTTPServer.lookup_handler_ srv.

(** The items of a batch that are looked up. *)
Definition batch_queries {J} `{JsonOps J, Resolver} (is_mac : bool) (items : list J) : exec (list string) :=
  IPGeoHTTPServer.valid_items (λ s, if is_mac then isValidMacFormat s else Ret (isValidIpFormat s)) items.

(** The response with a new text and the old status. *)
Definition with_text (text : string) (r : Response) : Response :=
  {| status := status r; content := text; content_type := "application/json"; headers := headers r |}.

(** A service that answers every key with itself, one order of steps, and a server
    that asks for a key and allows one request a minute. *)
Module Sample.
Definition echo : service unit Tree.tree :=
  {| on_lookup _ _ w := (Ret None, w); on_miss key _ w := (Ret (Tree.Str key), w) |}.
Definition echo_truth (key : string) : exec (verdict (J := Tree.tree)) := Ret (Tree.Str key, None).

(** Two tasks change places at each step. *)
Definition zigzag : Async := λ keys, flat_map (λ i, [i; S i; i; S i; i; S i]) (seq 0 (length keys)).

Definition server : IPGeoHTTPServer.t unit Tree.tree :=
  IPGeoHTTPServer.set_lookup_handler echo
    {| IPGeoHTTPServer.host_ := "0.0.0.0"; IPGeoHTTPServer.port_ := 8080;
       IPGeoHTTPServer.thread_pool_size_ := 4; IPGeoHTTPServer.enable_rate_limiter_ := true;
       IPGeoHTTPServer.max_batch_size_ := 100; IPGeoHTTPServer.enable_api_auth_ := true;
       IPGeoHTTPServer.api_auth_ := Some (APIAuth.add_key (H := sample_digest) "secret" ∅);
       IPGeoHTTPServer.lookup_handler_ := None; IPGeoHTTPServer.mac_lookup_handler_ := None;
       IPGeoHTTPServer.cache_stats_handler_ := None |}.

Definition request (authorization ip : string) : Request :=
  {| get_header_value k := if String.eqb k "Authorization" then authorization else "";
     get_param_value k := if String.eqb k "ip" then ip else "";
     body := ""; remote_addr := "10.0.0.1" |}.

Definition world_with (max : Z) : world unit unit :=
  {| limiter := Some (RateLimiter.create max 60 10); metrics := Metrics.create 0;
     services := tt; gen := tt; ticks := 0 |}.

(** JSON whose parser reads every text as a batch of twelve addresses, one of
    them not an address. *)
Definition batch_items : list Tree.tree := Tree.Str "localhost" :: repeat (Tree.Str "8.8.8.8") 11.
Definition batch_json : JsonOps Tree.tree :=
  Tree.ops (λ _, Ret "{}") (λ _, Ret (Tree.Obj [("ips", Tree.Arr batch_items)])).

End Sample.

(** ** Lemmas *)
Lemma echo_serves dump parse :
  serves (H := Tree.ops dump parse) (λ _, True) Sample.echo_truth (λ _, True) Sample.echo.
Proof.
  intros c key now _ _. exists (Tree.Str key). split; [done|]. split.
  - exists None, c. done.
  - by exists c.
Qed.
Section Facts.
Context {SV G J : Type} `{JL : JsonLaws J} `{JP : !JsonPrints J} {DG : Digest} {RS : Resolver} {AS : Async} (clock : nat → Z).
Implicit Types (w : world SV G) (r : Response) (srv : IPGeoHTTPServer.t SV J).
Import IPGeoHTTPServer.

(** An error answer of the server, whatever is done after it. *)
Lemma send_error_bind {B} st error message w r (k : unit → handler SV G B) :
  ascii_text error → ascii_text message →
  ∃ text, is_error (J := J) error message text ∧
    (send_error (J := J) st error message ≫= k) (w, r) = k tt (w, json_response st text r).
Proof.
  intros He Hm. destruct (send_error_ok (J := J) st error message w r He Hm) as (text & Hi & Hs).
  exists text. split; [done|]. by apply bind_Ret.
Qed.

Lemma authenticate_cases srv req auth w r :
  enable_api_auth_ srv = true → api_auth_ srv = Some auth →
  (authorised auth req ∧ authenticate_request srv req (w, r) = (Ret true, (w, r))) ∨
  (¬ authorised auth req ∧
   ∃ r', authenticate_request srv req (w, r) = (Ret false, (w, r')) ∧ status r' = 401).
Proof.
  intros He Ha. unfold authenticate_request, authorised. rewrite He, Ha.
  set (h := get_header_value req "Authorization"). destruct (is_empty h) eqn:Hempty.
  { right. apply is_empty_eq in Hempty. split.
    - intros (key & Hk & _). rewrite Hempty in Hk. discriminate Hk.
    - destruct (send_error_bind (B := bool) 401 "Unauthorized" "Missing API key in Authorization header" w r
        (λ _, set_header "WWW-Authenticate" "Bearer";; mret false)) as (text & _ & ->); [solve_ascii..|].
      eexists. split; reflexivity. }
  destruct (starts_with "Bearer " h) eqn:Hp; cbn [negb].
  2: { right. split.
    - intros (key & Hk & _). rewrite Hk in Hp. by rewrite (proj1 (starts_with_app _ _)) in Hp.
    - destruct (send_error_bind (B := bool) 401 "Unauthorized"
        "Invalid Authorization header format. Expected: Bearer <api_key>" w r
        (λ _, set_header "WWW-Authenticate" "Bearer";; mret false)) as (text & _ & ->); [solve_ascii..|].
      eexists. split; reflexivity. }
  apply starts_with_spec in Hp. change (length (bytes "Bearer ")) with 7%nat in Hp.
  destruct (APIAuth.is_valid auth (substr h 7 (length (bytes h)))) eqn:Hv; cbn [negb].
  - left. split; [by eexists|done].
  - right. split.
    + intros (key & Hk & Hv'). pose proof (proj2 (starts_with_app "Bearer " key)) as Hs.
      rewrite <-Hk in Hs. change (length (bytes "Bearer ")) with 7%nat in Hs. congruence.
    + destruct (send_error_bind (B := bool) 401 "Unauthorized" "Invalid API key" w r (λ _, mret false))
        as (text & _ & ->); [solve_ascii..|]. eexists. split; reflexivity.
Qed.

(** A lookup end point does nothing after the gate was closed. *)
Lemma endpoint_refused srv req s s' (h : handler SV G unit) :
  prepare_request clock srv req s = (Ret None, s') → h ∈ lookup_endpoints (G := G) clock srv req →
  h s = (Ret tt, s').
Proof.
  intros Hp Hh. unfold lookup_endpoints in Hh.
  apply elem_of_cons in Hh as [->|Hh]; [|apply list_elem_of_singleton in Hh as ->];
    unfold handle_lookup_get, handle_lookup_post; by rewrite (bind_Ret _ _ _ _ _ Hp).
Qed.

Lemma prepare_unauthorised srv req w r r' :
  authenticate_request srv req (w, r) = (Ret false, (w, r')) →
  prepare_request clock srv req (w, r) = (Ret None, (w, r')).
Proof. intros Ha. unfold prepare_request. by rewrite (bind_Ret _ _ _ _ _ Ha). Qed.

(** The metrics count one more request; only the services' state, the metrics
    and the clock have changed. *)
Definition counted (n : nat) w w' : Prop :=
  Metrics.total_requests_ (metrics w') = u64 (Metrics.total_requests_ (metrics w) + Z.of_nat n) ∧
  Metrics.total_errors_ (metrics w') = Metrics.total_errors_ (metrics w) ∧
  limiter w' = limiter w ∧ gen w' = gen w.

Lemma counted_trans n m w1 w2 w3 : counted n w1 w2 → counted m w2 w3 → counted (n + m) w1 w3.
Proof.
  intros (H1 & E1 & L1 & G1) (H2 & E2 & L2 & G2). split_and!; [|congruence..].
  rewrite H2, H1, u64_add_l. f_equal. lia.
Qed.

Lemma counted_0 w w' :
  is_u64 (Metrics.total_requests_ (metrics w)) → metrics w' = metrics w → limiter w' = limiter w →
  gen w' = gen w → counted 0 w w'.
Proof.
  intros Hr Hm Hl Hg. split_and!; rewrite ?Hm; [|done..]. rewrite Z.add_0_r. symmetry. by apply u64_small.
Qed.

(** Only the services' state and the clock have changed. *)
Definition untouched w w' : Prop := metrics w' = metrics w ∧ limiter w' = limiter w ∧ gen w' = gen w.

Lemma record_request_counts latency w :
  ∃ w', record_request clock latency w = (Ret tt, w') ∧ services w' = services w ∧ counted 1 w w'.
Proof. eexists. split; [reflexivity|]. by split_and!. Qed.

Section Served.
Context (I : SV → Prop) (v : string → exec (verdict (J := J))) (good : string → Prop) (h : service SV J).
Hypothesis Hs : serves I v good h.

Lemma clocked_step {A} (f : Z → M SV A) w :
  (t ← read_clock clock; on_services (f t)) w =
    let '(r, sv) := f (clock (ticks w)) (services w) in (r, with_services sv (tick w)).
Proof. reflexivity. Qed.

(** A timed lookup gives the uncached answer, whatever the other threads do. *)
Definition answered (query : string) (r : exec (LookupResult J * double)) : Prop :=
  ∃ res start stop, r = Ret (res, elapsed start stop) ∧ uncached v query = Ret (data_ res).

Lemma timed_lookup_stable (P : world SV G → Prop) query :
  (∀ w, P w → I (services w)) → (∀ w, P w → P (tick w)) → (∀ w sv, P w → I sv → P (with_services sv w)) →
  good query → stable P (timed_lookup clock h query) (answered query).
Proof.
  intros HI Ht Hsv Hg. unfold timed_lookup. apply stable_bind. intros w0 Hw0. split; [by apply Ht|].
  assert (Hend : ∀ res, uncached v query = Ret (data_ res) →
    stable P (stop ← now clock; mret (res, elapsed (clock (ticks w0)) stop)) (answered query)).
  { intros res Hu w Hw. split; [by apply Ht|]. by exists res, (clock (ticks w0)), (clock (ticks w)). }
  apply stable_bind. unfold call_handler. apply stable_bind. intros w1 Hw1.
  destruct (Hs (services w1) query (clock (ticks w1)) (HI _ Hw1) Hg) as (data & Hu & (r & sv & Hl & Hi & Hr) & _).
  rewrite clocked_step, Hl. split; [apply Hsv; [by apply Ht|done]|]. destruct r as [d|].
  - apply Hend. by destruct Hr as [-> _].
  - apply stable_bind. intros w2 Hw2.
    destruct (Hs (services w2) query (clock (ticks w2)) (HI _ Hw2) Hg) as (data' & Hu' & _ & (sv' & Hm & Hi')).
    rewrite clocked_step, Hm. split; [apply Hsv; [by apply Ht|done]|]. by apply Hend.
Qed.

(** Each of its steps keeps whatever such a property of the world holds. *)
Lemma timed_lookup_steps (P : nat → world SV G → Prop) query :
  (∀ n w, P n w → I (services w)) → (∀ n w, P n w → P n (tick w)) →
  (∀ n w sv, P n w → I sv → P n (with_services sv w)) → good query →
  steps (λ w w', ∀ n, P n w → P n w') (timed_lookup clock h query).
Proof.
  intros HI Ht Hsv Hg. assert (Hnow : steps (λ w w', ∀ n, P n w → P n w') (now clock)).
  { intros w. split; [|done]. intros n. apply Ht. }
  unfold timed_lookup, call_handler. apply steps_bind; [exact Hnow|]. intros start.
  apply steps_bind; [|intros res; by apply steps_bind]. apply steps_bind.
  - intros w. rewrite clocked_step. destruct (on_lookup h query (clock (ticks w)) (services w)) as [r sv] eqn:Hl.
    split; [|done]. intros n Hw. apply Hsv; [by apply Ht|].
    destruct (Hs (services w) query (clock (ticks w)) (HI _ _ Hw) Hg) as (data & _ & (r' & sv' & Hl' & Hi & _) & _). congruence.
  - intros [d|]; [done|]. apply steps_bind; [|done]. intros w. rewrite clocked_step.
    destruct (on_miss h query (clock (ticks w)) (services w)) as [r sv] eqn:Hl.
    split; [|done]. intros n Hw. apply Hsv; [by apply Ht|].
    destruct (Hs (services w) query (clock (ticks w)) (HI _ _ Hw) Hg) as (data & _ & _ & (sv' & Hl' & Hi)). congruence.
Qed.

(** All of this for the world alone. *)
Definition like w0 w : Prop := I (services w) ∧ untouched w0 w.

Lemma timed_lookup_like w0 query : good query → stable (like w0) (timed_lookup clock h query) (answered query).
Proof. apply timed_lookup_stable; [by intros w []|done|]. by intros w sv [_ Hu] Hi. Qed.

Lemma timed_lookup_ok query w :
  I (services w) → good query →
  ∃ res latency w', timed_lookup clock h query w = (Ret (res, latency), w') ∧
    uncached v query = Ret (data_ res) ∧ I (services w') ∧ untouched w w'.
Proof.
  intros Hi Hg.
  destruct (stable_run (like w) _ _ w (timed_lookup_like w query Hg)) as [(res & start & stop & Hr & Hu) [Hi' Hw]]; [by split|].
  destruct (timed_lookup clock h query w) as [r w'] eqn:Hrun. cbn [fst snd] in *. subst r. by eauto 10.
Qed.

Lemma counted_after w w1 w2 n : untouched w w1 → counted n w1 w2 → counted n w w2.
Proof. intros (Hm & Hl & Hg) (H1 & H2 & H3 & H4). unfold counted in *. rewrite Hm in *. split_and!; congruence. Qed.

(** One lookup, recorded. *)
Lemma recorded_lookup_ok {B} query w (k : LookupResult J → thread SV G B) :
  I (services w) → good query →
  ∃ res w', ('(result, latency) ← timed_lookup clock h query; record_request clock latency;; k result) w = k res w' ∧
    uncached v query = Ret (data_ res) ∧ I (services w') ∧ counted 1 w w'.
Proof.
  intros Hi Hg. destruct (timed_lookup_ok query w Hi Hg) as (res & latency & w1 & Ht & Hu & Hi1 & Hw1).
  destruct (record_request_counts latency w1) as (w2 & Hr & Hsv & Hc). exists res, w2.
  rewrite (bind_Ret _ _ _ _ _ Ht), (bind_Ret _ _ _ _ _ Hr), Hsv. split_and!; [done..|by eapply counted_after].
Qed.

Lemma lookup_each_ok qs results w :
  I (services w) → Forall good qs → is_u64 (Metrics.total_requests_ (metrics w)) →
  ∃ js w', lookup_each clock h qs results w = (Ret (results ++ js), w') ∧
    Forall2 (λ q j, uncached v q = Ret j) qs js ∧ I (services w') ∧ counted (length qs) w w'.
Proof.
  intros Hi Hg. revert results w Hi. induction Hg as [|q qs Hq Hqs IH]; intros results w Hi Hr.
  - exists [], w. rewrite app_nil_r. split_and!; [done|constructor|done|by apply counted_0].
  - cbn [lookup_each].
    destruct (recorded_lookup_ok q w (λ result, lookup_each clock h qs (results ++ [data_ result])) Hi Hq)
      as (res & w1 & -> & Hu & Hi1 & Hc1).
    destruct (IH (results ++ [data_ res]) w1 Hi1) as (js & w2 & He & H2 & Hi2 & Hc2).
    { rewrite (proj1 Hc1). apply u64_range. }
    exists (data_ res :: js), w2. rewrite He, <-app_assoc.
    split_and!; [done|by constructor|done|]. by apply (counted_trans 1 (length qs) w w1 w2).
Qed.

(** The answers of the first [k] queries. *)
Definition answers_upto (qs : list string) (k : nat) (js : list J) : Prop :=
  Forall2 (λ q j, uncached v q = Ret j) (take k qs) js.

Lemma answers_snoc qs k q js res :
  qs !! k = Some q → answers_upto qs k js → uncached v q = Ret (data_ res) → answers_upto qs (S k) (js ++ [data_ res]).
Proof.
  intros Hq Hjs Hu. unfold answers_upto. rewrite (take_S_r _ _ _ Hq). apply Forall2_app; [done|]. by repeat constructor.
Qed.

(** The lookups of a batch in any interleaving with the thread that collects
    them, while the invariant moves on with every latency recorded. *)
Lemma run_async_staged (P : nat → world SV G → Prop) (count : nat → nat) qs :
  (∀ n w, P n w → I (services w)) → (∀ n w, P n w → P n (tick w)) →
  (∀ n w sv, P n w → I sv → P n (with_services sv w)) →
  (∀ k start stop (js : list J), staged P (record_request clock (elapsed start stop);; mret js)
     (λ n o, o = Ret js ∧ n = count (S k)) (count k)) →
  Forall good qs →
  staged P (run_async clock h qs) (λ n o, ∃ js, o = Ret js ∧ n = count (length qs) ∧ answers_upto qs (length qs) js) (count 0%nat).
Proof.
  intros HI Ht Hsv Hrec Hg.
  apply (staged_gather P answered (collect clock) qs (λ k n js, n = count k ∧ answers_upto qs k js)).
  - intros k q n js r Hq [-> Hjs] (res & start & stop & -> & Hu). unfold collect. cbn [lift].
    eapply staged_mono; [|apply (Hrec k)]. intros n ? [-> ->]. eexists. split; [done|]. split; [done|]. by apply (answers_snoc _ _ q).
  - induction Hg as [|q qs Hq _ IH]; constructor; [|exact IH].
    apply timed_lookup_stable; [by intros w [n Hw]; eapply HI| | |done].
    + intros w [n Hw]. exists n. by apply Ht.
    + intros w sv [n Hw] Hi. exists n. by apply Hsv.
  - apply Forall_fmap. eapply Forall_impl; [exact Hg|]. intros q Hq. by apply timed_lookup_steps.
  - lia.
  - exists []. split; [done|]. split; [done|]. constructor.
Qed.

(** A batch gives the uncached answers in the order of the queries, whether
    it is answered one after the other or by a thread each. *)
Lemma lookup_all_ok qs w :
  I (services w) → Forall good qs → is_u64 (Metrics.total_requests_ (metrics w)) →
  ∃ js w', lookup_all clock h qs w = (Ret js, w') ∧
    Forall2 (λ q j, uncached v q = Ret j) qs js ∧ I (services w') ∧ counted (length qs) w w'.
Proof.
  intros Hi Hg Hr. unfold lookup_all. destruct (length qs <=? 10)%nat; [by apply (lookup_each_ok qs [])|].
  destruct (staged_run (λ n w', I (services w') ∧ counted n w w') (run_async clock h qs)
    (λ n o, ∃ js, o = Ret js ∧ n = length qs ∧ answers_upto qs (length qs) js) 0%nat w) as (n & (js & Ho & -> & Hjs) & Hi' & Hc).
  - apply (run_async_staged _ id); [by intros n w' []|done|by intros n w' sv [_ Hc] Hi'| |done].
    intros k start stop js w1 [Hi1 Hc1]. exists (S k). split.
    + split; [done|]. replace (S k) with (k + 1)%nat by lia. by eapply counted_trans.
    + intros w2 [Hi2 Hc2]. exists (S k). split; [split; [exact Hi2|exact Hc2]|done].
  - split; [done|by apply counted_0].
  - destruct (run_async clock h qs w) as [o w'] eqn:Hrun. cbn [fst snd] in *. subst o.
    exists js, w'. split_and!; [done| |done|done]. unfold answers_upto in Hjs. by rewrite firstn_all in Hjs.
Qed.
End Served.

(** A GET that passes the gate and asks for one address. *)
Lemma lookup_get_target srv req s client_ip w r is_mac query :
  prepare_request clock srv req s = (Ret (Some client_ip), (w, r)) →
  lookup_target req client_ip = Some (is_mac, query) →
  ∃ valid : bool, (valid = true ↔ well_formed is_mac query) ∧
    handle_lookup_get (J := J) clock srv req s =
      attempt
        (if negb valid then
           send_error (J := J) 400 "Bad Request"
             (if is_mac then "Invalid MAC address format" else "Invalid IP address format")
         else match handler_for srv is_mac with
              | None => send_error (J := J) 500 "Internal Server Error"
                          ((if is_mac then "MAC" else "IP") +:+ " lookup handler not configured")
              | Some h =>
                  '(result, latency) ← shared (timed_lookup clock h query);
                  shared (record_request clock latency);;
                  set_json (J := J) (data_ result)
              end)
        (λ e, set_status 500;;
              error ← lift (json_object [("error", json_of_string (exn_what e))]);
              set_json (J := J) error;; shared record_error) (w, r).
Proof.
  intros Hp. unfold lookup_target, handle_lookup_get. rewrite (bind_Ret _ _ _ _ _ Hp).
  set (mac := get_param_value req "mac"). set (ip := get_param_value req "ip").
  destruct (negb (is_empty mac) && negb (is_empty ip)); [done|].
  intros Ht. assert (∃ valid, (if is_mac then isValidMacFormat query else Ret (isValidIpFormat query)) = Ret valid ∧
    (valid = true ↔ well_formed is_mac query)) as (valid & Hvalid & Hwf).
  { unfold well_formed. destruct is_mac; [|by eexists].
    rewrite isValidMacFormat_eq. eexists. split; [reflexivity|]. split; congruence. }
  exists valid. split; [done|]. destruct (is_empty mac); injection Ht as <- <-; cbn [negb];
    (rewrite (bind_Ret _ _ _ valid (w, r)); [done|unfold pure; by rewrite Hvalid]).
Qed.

(** A lookup of a well-formed address the service serves. *)
Lemma lookup_get_served srv req s client_ip w r is_mac query h (I : SV → Prop) v good :
  prepare_request clock srv req s = (Ret (Some client_ip), (w, r)) →
  lookup_target req client_ip = Some (is_mac, query) → well_formed is_mac query →
  handler_for srv is_mac = Some h → serves I v good h → I (services w) → good query →
  ∃ data w', uncached v query = Ret data ∧ I (services w') ∧ counted 1 w w' ∧
    match json_dump data with
    | Ret text => handle_lookup_get clock srv req s = (Ret tt, (w', with_text text r))
    | Throw e => ascii_text (exn_what e) →
        ∃ text, handle_lookup_get clock srv req s =
          (Ret tt, (with_metrics (Metrics.record_error (metrics w')) w', json_response 500 text r))
    | _ => True
    end.
Proof.
  intros Hp Ht Hwf Hh Hs Hi Hg.
  destruct (lookup_get_target srv req s client_ip w r is_mac query Hp Ht) as (valid & Hv & ->).
  rewrite (proj2 Hv Hwf), Hh. cbn [negb].
  destruct (timed_lookup_ok I v good h Hs query w Hi Hg) as (res & latency & w1 & Htl & Hu & Hi1 & Hw1).
  destruct (record_request_counts latency w1) as (w' & Hr & Hsv & Hc).
  exists (data_ res), w'. split_and!; [done|by rewrite Hsv|by eapply counted_after|].
  assert (Hserve : ∀ k : LookupResult J → handler SV G unit,
    ('(result, latency) ← shared (timed_lookup clock h query); shared (record_request clock latency);; k result) (w, r)
    = k res (w', r)).
  { intros k. by rewrite (shared_Ret _ _ _ _ _ _ Htl), (shared_Ret _ _ _ _ _ _ Hr). }
  destruct (json_dump (data_ res)) as [text|e| |] eqn:Hd; [| |done|done].
  - apply attempt_Ret. rewrite (Hserve (λ result, set_json (data_ result))). by apply set_json_ok.
  - intros Hascii. rewrite (attempt_Throw _ _ _ e (w', r)).
    2: { rewrite (Hserve (λ result, set_json (data_ result))). unfold set_json. by rewrite Hd. }
    destruct (json_object_ok [("error", json_of_string (exn_what e) : J)]) as (j & Hj & _); [done|].
    destruct (json_dump_ok j) as [text Hdj].
    { eapply printable_object; [exact Hj|]. apply Forall_cons. split; [split; [solve_ascii|by constructor]|constructor]. }
    exists text. rewrite Hj. unfold set_json. cbn. by rewrite Hdj.
Qed.

(** The rate limiter decides: with an open gate the lookup goes on, otherwise
    the answer is 429 and only the limiter has changed. *)
Lemma prepare_limited srv req w r rl :
  authenticate_request srv req (w, r) = (Ret true, (w, r)) → get_real_client_ip req ≠ "" →
  enable_rate_limiter_ srv = true → limiter w = Some rl → RateLimiter.wf rl →
  ∃ ok rl', RateLimiter.is_allowed rl (get_real_client_ip req) (clock (ticks w)) (clock (S (ticks w))) = Ret (ok, rl') ∧
    if ok : bool then
      prepare_request clock srv req (w, r) =
        (Ret (Some (get_real_client_ip req)), (with_limiter (Some rl') (tick (tick w)), r))
    else
      ∃ rl'' r', prepare_request clock srv req (w, r) =
          (Ret None, (with_limiter (Some rl'') (tick (tick (tick w))), r')) ∧
        status r' = 429 ∧ ("Retry-After", "60") ∈ headers r'.
Proof.
  intros Ha Hip He Hl Hwf. set (ip := get_real_client_ip req) in *.
  destruct (RateLimiter.refines rl ip (clock (ticks w)) (clock (S (ticks w))) Hwf)
    as (ok & rl' & Hallow & Hwf' & _).
  exists ok, rl'. split; [done|]. unfold prepare_request. rewrite (bind_Ret _ _ _ _ _ Ha).
  cbn [negb]. fold ip. assert (is_empty ip = false) as -> by (by destruct ip). rewrite He.
  assert (Hal : limiter_allows clock ip w = (Ret ok, with_limiter (Some rl') (tick (tick w)))).
  { cbv [limiter_allows with_rate_limiter atomic run mbind M_bind read_clock]. simpl limiter. rewrite Hl.
    cbn [deref exec_bind]. simpl ticks. by rewrite Hallow. }
  rewrite (shared_Ret _ _ _ _ _ _ Hal). destruct ok; [done|]. cbn [negb].
  destruct (RateLimiter.get_remaining_ok rl' ip (clock (S (S (ticks w)))) Hwf') as (rl'' & Hrem & _).
  match type of Hrem with _ = Ret (?n, _) => set (remaining := n) in * end.
  assert (Hre : limiter_remaining clock ip (with_limiter (Some rl') (tick (tick w)))
    = (Ret remaining, with_limiter (Some rl'') (tick (tick (tick w))))).
  { cbv [limiter_remaining with_rate_limiter atomic run mbind M_bind read_clock]. simpl limiter.
    cbn [deref exec_bind]. simpl ticks. by rewrite Hrem. }
  rewrite (shared_Ret _ _ _ _ _ _ Hre).
  destruct (json_object_ok [("error", json_of_string "Rate limit exceeded"); ("remaining", json_of_int remaining : J)])
    as (j & Hj & _); [done|].
  destruct (json_dump_ok j) as [text Hd].
  { eapply printable_object; [exact Hj|]. repeat constructor; simpl; auto using printable_int; try constructor; solve_ascii. }
  exists rl''. eexists. rewrite Hj, (bind_Ret _ _ _ j (with_limiter (Some rl'') (tick (tick (tick w))), r)) by done.
  rewrite (bind_Ret _ _ _ _ _ (send_json_ok _ _ _ _ text Hd)). split_and!; [reflexivity|reflexivity|].
  simpl. apply elem_of_app. right. by left.
Qed.
End Facts.

(** ** Properties *)

(** C7: with API authentication on, a request whose Authorization header is
    exactly "Bearer " and an accepted key passes unchanged, and any other
    request to either lookup end point is answered 401 and has no effect at
    all on the rate limiter, the services, the metrics or the clock. *)
Theorem unauthorised_lookup_has_no_effect {SV G J} `{JL : JsonLaws J} `{JP : !JsonPrints J}
    `{Digest, Resolver, Async} (clock : nat → Z) (srv : IPGeoHTTPServer.t SV J) (auth : APIAuth.t)
    (req : Request) (w : world SV G) (r : Response) :
  IPGeoHTTPServer.enable_api_auth_ srv = true → IPGeoHTTPServer.api_auth_ srv = Some auth →
  (authorised auth req → IPGeoHTTPServer.authenticate_request srv req (w, r) = (Ret true, (w, r))) ∧
  (¬ authorised auth req →
   Forall (λ h : handler SV G unit, ∃ r', h (w, r) = (Ret tt, (w, r')) ∧ status r' = 401) (lookup_endpoints clock srv req)).
Proof.
  intros He Ha. destruct (authenticate_cases srv req auth w r He Ha) as [[Hau Hok]|[Hno (r' & Hr & Hst)]].
  - split; [done|]. intros Hno. by destruct Hno.
  - split; [intros Hau; by destruct Hno|]. intros _. apply Forall_forall. intros h Hh. exists r'. split; [|done].
    eapply endpoint_refused; [|exact Hh]. by apply prepare_unauthorised.
Qed.

(** C10: the rate limiter gates both lookup end points: if it does not allow
    the client's address, the answer is 429 with Retry-After, and the
    services, the metrics and the engine are as before. *)
Theorem rate_limited_lookup_has_no_effect {SV G J} `{JL : JsonLaws J} `{JP : !JsonPrints J}
    `{Digest, Resolver, Async} (clock : nat → Z) (srv : IPGeoHTTPServer.t SV J) (req : Request)
    (w : world SV G) (r : Response) (rl : RateLimiter.t) :
  IPGeoHTTPServer.authenticate_request srv req (w, r) = (Ret true, (w, r)) →
  IPGeoHTTPServer.get_real_client_ip req ≠ "" →
  IPGeoHTTPServer.enable_rate_limiter_ srv = true → limiter w = Some rl → RateLimiter.wf rl →
  fst <$> RateLimiter.is_allowed rl (IPGeoHTTPServer.get_real_client_ip req) (clock (ticks w)) (clock (S (ticks w)))
    = Ret false →
  Forall (λ h : handler SV G unit, ∃ w' r', h (w, r) = (Ret tt, (w', r')) ∧ status r' = 429 ∧ ("Retry-After", "60") ∈ headers r' ∧
            services w' = services w ∧ metrics w' = metrics w ∧ gen w' = gen w)
    (lookup_endpoints clock srv req).
Proof.
  intros Ha Hip He Hl Hwf Hno.
  destruct (prepare_limited clock srv req w r rl Ha Hip He Hl Hwf) as (ok & rl' & Hal & Hp).
  rewrite Hal in Hno. injection Hno as ->. destruct Hp as (rl'' & r' & Hp & Hst & Hh).
  apply Forall_forall. intros h Hin. eexists _, r'.
  split; [by eapply endpoint_refused|]. by split_and!.
Qed.

(** C9: a GET lookup that passes the gate: naming both kinds of address or an
    address of the wrong form is answered 400 and nothing is looked up; a
    missing handler 500; otherwise the answer is the text of what the service
    answers without its cache, and one request is counted, or, if that text
    cannot be made, 500, and an error is counted too. *)
Theorem lookup_get_exact {SV G J} `{JL : JsonLaws J} `{JP : !JsonPrints J} `{Digest, Resolver, Async}
    (clock : nat → Z) (srv : IPGeoHTTPServer.t SV J) (req : Request) (s : world SV G * Response) client_ip
    (w : world SV G) (r : Response) :
  IPGeoHTTPServer.prepare_request clock srv req s = (Ret (Some client_ip), (w, r)) →
  match lookup_target req client_ip with
  | None => ∃ r', IPGeoHTTPServer.handle_lookup_get clock srv req s = (Ret tt, (w, r')) ∧ status r' = 400
  | Some (is_mac, query) =>
      (¬ well_formed is_mac query →
         ∃ r', IPGeoHTTPServer.handle_lookup_get clock srv req s = (Ret tt, (w, r')) ∧ status r' = 400) ∧
      (well_formed is_mac query → handler_for srv is_mac = None →
         ∃ r', IPGeoHTTPServer.handle_lookup_get clock srv req s = (Ret tt, (w, r')) ∧ status r' = 500) ∧
      (∀ h I v good, well_formed is_mac query → handler_for srv is_mac = Some h →
         serves I v good h → I (services w) → good query →
         ∃ data w', uncached v query = Ret data ∧ I (services w') ∧ counted 1 w w' ∧
           match json_dump data with
           | Ret text =>
               IPGeoHTTPServer.handle_lookup_get clock srv req s = (Ret tt, (w', with_text text r))
           | Throw e => ascii_text (exn_what e) →
               ∃ text, IPGeoHTTPServer.handle_lookup_get clock srv req s =
                 (Ret tt, (with_metrics (Metrics.record_error (metrics w')) w', json_response 500 text r))
           | _ => True
           end)
  end.
Proof.
  intros Hp.
  assert (Herr : ∀ st e m, ascii_text e → ascii_text m → ∃ r',
    IPGeoHTTPServer.send_error (J := J) st e m (w, r) = (Ret tt, (w, r')) ∧ status r' = st).
  { intros st e m Ha1 Ha2. destruct (send_error_ok (J := J) st e m w r Ha1 Ha2) as (text & _ & Hs).
    eexists. split; [exact Hs|done]. }
  destruct (lookup_target req client_ip) as [[is_mac query]|] eqn:Ht.
  - split_and!; [| |intros h I v good ? ? ? ? ?; by eapply lookup_get_served].
    + intros Hno. destruct (lookup_get_target clock srv req s client_ip w r is_mac query Hp Ht) as (valid & Hv & ->).
      destruct valid; [by destruct Hno; apply Hv|]. cbn [negb].
      destruct (Herr 400 "Bad Request" (if is_mac then "Invalid MAC address format" else "Invalid IP address format"))
        as (r' & Hs & Hst); [solve_ascii|destruct is_mac; solve_ascii|].
      exists r'. split; [by apply attempt_Ret|done].
    + intros Hwf Hh. destruct (lookup_get_target clock srv req s client_ip w r is_mac query Hp Ht) as (valid & Hv & ->).
      rewrite (proj2 Hv Hwf), Hh. cbn [negb].
      destruct (Herr 500 "Internal Server Error" ((if is_mac then "MAC" else "IP") +:+ " lookup handler not configured"))
        as (r' & Hs & Hst); [solve_ascii|destruct is_mac; solve_ascii|].
      exists r'. split; [by apply attempt_Ret|done].
  - unfold lookup_target in Ht. unfold IPGeoHTTPServer.handle_lookup_get. rewrite (bind_Ret _ _ _ _ _ Hp).
    destruct (negb (is_empty (get_param_value req "mac")) && negb (is_empty (get_param_value req "ip")));
      [apply Herr; solve_ascii|by destruct (negb (is_empty (get_param_value req "mac")))].
Qed.

(** C8: a batch of at most [max_batch_size] items that passes the gate is
    answered with the list of what the service answers without its cache to
    each valid item, in the order of the request, and as many requests are
    counted; this holds for the short batches answered one by one and for the
    long ones answered by a thread per item, in every interleaving. *)
Theorem lookup_batch_exact {SV G J} `{JL : JsonLaws J} `{JP : !JsonPrints J} `{Digest, Resolver}
    {AS : Async} (clock : nat → Z) (srv : IPGeoHTTPServer.t SV J) (req : Request)
    (s : world SV G * Response) client_ip (w : world SV G) (r : Response) (b : J) (is_mac : bool) items qs h I v good :
  IPGeoHTTPServer.prepare_request clock srv req s = (Ret (Some client_ip), (w, r)) →
  json_parse (body req) = Ret b →
  IPGeoHTTPServer.array_member (if is_mac then "macs" else "ips") b = Some items →
  IPGeoHTTPServer.array_member (if is_mac then "ips" else "macs") b = None →
  Z.of_nat (length items) ≤ IPGeoHTTPServer.max_batch_size_ srv →
  handler_for srv is_mac = Some h → batch_queries is_mac items = Ret qs →
  serves I v good h → I (services w) → Forall good qs → is_u64 (Metrics.total_requests_ (metrics w)) →
  ∃ js w', Forall2 (λ q j, uncached v q = Ret j) qs js ∧ I (services w') ∧ counted (length qs) w w' ∧
    ∀ text, json_dump (json_of_list js) = Ret text →
      IPGeoHTTPServer.handle_lookup_post clock srv req s = (Ret tt, (w', with_text text r)).
Proof.
  intros Hp Hb Hin Hout Hmax Hh Hqs Hs Hi Hg Hr.
  destruct (lookup_all_ok clock I v good h Hs qs w Hi Hg Hr) as (js & w' & Hall & Hjs & Hi' & Hc).
  exists js, w'. split_and!; [done|done|done|]. intros text Hd.
  unfold IPGeoHTTPServer.handle_lookup_post, IPGeoHTTPServer.lookup_batch. rewrite (bind_Ret _ _ _ _ _ Hp).
  apply attempt_Ret. rewrite Hb. rewrite (bind_Ret _ _ _ b (w, r)) by done.
  assert (Hproc : ∀ type validator, (∀ x, validator x = (if is_mac then isValidMacFormat x else Ret (isValidIpFormat x))) →
    IPGeoHTTPServer.process_batch srv (handler_for srv is_mac) type items validator (w, r) = (Ret (Some (h, qs)), (w, r))).
  { intros type validator Hv. unfold IPGeoHTTPServer.process_batch. rewrite Hh.
    rewrite (proj2 (Z.ltb_ge _ _)) by lia.
    assert (IPGeoHTTPServer.valid_items validator items = Ret qs) as ->; [|done].
    rewrite <-Hqs. unfold batch_queries. clear -Hv. induction items as [|item items IH]; [done|].
    simpl. destruct (json_string item); [|done]. by rewrite Hv, IH. }
  assert (Hset : (results ← shared (IPGeoHTTPServer.lookup_all clock h qs); set_json (J := J) (json_of_list results)) (w, r)
    = (Ret tt, (w', with_text text r))).
  { rewrite (shared_Ret _ _ _ _ _ _ Hall). by apply set_json_ok. }
  unfold handler_for in Hproc. destruct is_mac; rewrite Hin, Hout.
  - by rewrite (bind_Ret _ _ _ _ _ (Hproc "MAC" isValidMacFormat (λ _, eq_refl))).
  - by rewrite (bind_Ret _ _ _ _ _ (Hproc "IP" (λ x, Ret (isValidIpFormat x)) (λ _, eq_refl))).
Qed.

(** ** Witnesses *)

Lemma unauthorised_lookup_has_no_effect_witness :
  (∃ r', IPGeoHTTPServer.handle_lookup_get (H := Tree.sample) (H0 := sample_digest) (H1 := sample_resolver)
     (λ n, Z.of_nat n) Sample.server (Sample.request "Bearer guess" "8.8.8.8") (Sample.world_with 1, fresh_response) =
   (Ret tt, (Sample.world_with 1, r')) ∧ status r' = 401).
Proof.
  destruct (unauthorised_lookup_has_no_effect (JL := tree_laws (λ _, Ret "{}") (λ _, Ret Tree.Null))
    (JP := tree_prints "{}" _) (H := sample_digest) (H0 := sample_resolver) (H1 := Sample.zigzag)
    (λ n, Z.of_nat n) Sample.server (APIAuth.add_key (H := sample_digest) "secret" ∅)
    (Sample.request "Bearer guess" "8.8.8.8") (Sample.world_with 1) fresh_response) as [_ H].
  - reflexivity.
  - reflexivity.
  - assert (Hno : ¬ authorised (H := sample_digest) (APIAuth.add_key (H := sample_digest) "secret" ∅)
      (Sample.request "Bearer guess" "8.8.8.8")).
    { intros (key & Hk & Hv). assert (key = "guess") as -> by (cbv in Hk; congruence). vm_compute in Hv. discriminate Hv. }
    specialize (H Hno). apply Forall_cons in H as [(r' & Hg & Hst) _]. by exists r'.
Defined.

Lemma rate_limited_lookup_has_no_effect_witness :
  (∃ w' r', IPGeoHTTPServer.handle_lookup_get (H := Tree.sample) (H0 := sample_digest) (H1 := sample_resolver)
     (λ n, Z.of_nat n) Sample.server (Sample.request "Bearer secret" "8.8.8.8") (Sample.world_with 0, fresh_response) =
   (Ret tt, (w', r')) ∧ status r' = 429).
Proof.
  pose proof (rate_limited_lookup_has_no_effect (JL := tree_laws (λ _, Ret "{}") (λ _, Ret Tree.Null))
    (JP := tree_prints "{}" _) (H := sample_digest) (H0 := sample_resolver) (H1 := Sample.zigzag)
    (λ n, Z.of_nat n) Sample.server (Sample.request "Bearer secret" "8.8.8.8") (Sample.world_with 0) fresh_response
    (RateLimiter.create 0 60 10)) as H.
  assert (Hip : IPGeoHTTPServer.get_real_client_ip (Sample.request "Bearer secret" "8.8.8.8") ≠ "") by discriminate.
  pose proof (H eq_refl Hip eq_refl eq_refl (RateLimiter.wf_create 0 60 10 ltac:(unfold is_i32; lia)) eq_refl) as Hall.
  apply Forall_cons in Hall as [(w' & r' & Hg & Hst & _) _]. by exists w', r'.
Defined.

Lemma lookup_get_exact_witness :
  ∃ w', IPGeoHTTPServer.handle_lookup_get (H := Tree.sample) (H0 := sample_digest) (H1 := sample_resolver)
     (λ n, Z.of_nat n) Sample.server (Sample.request "Bearer secret" "8.8.8.8") (Sample.world_with 1, fresh_response) =
   (Ret tt, (w', with_text "{}" fresh_response)) ∧ Metrics.total_requests_ (metrics w') = 1.
Proof.
  assert (∃ w, IPGeoHTTPServer.prepare_request (H := Tree.sample) (H0 := sample_digest) (λ n, Z.of_nat n) Sample.server
      (Sample.request "Bearer secret" "8.8.8.8") (Sample.world_with 1, fresh_response)
    = (Ret (Some "10.0.0.1"), (w, fresh_response)) ∧ Metrics.total_requests_ (metrics w) = 0) as (w & Hp & Hw).
  { eexists. split; [vm_compute; reflexivity|reflexivity]. }
  pose proof (lookup_get_exact (JL := tree_laws (λ _, Ret "{}") (λ _, Ret Tree.Null))
    (JP := tree_prints "{}" _) (H := sample_digest) (H0 := sample_resolver) (H1 := Sample.zigzag)
    (λ n, Z.of_nat n) Sample.server (Sample.request "Bearer secret" "8.8.8.8") (Sample.world_with 1, fresh_response)
    "10.0.0.1" w fresh_response Hp) as (_ & _ & H).
  destruct (H Sample.echo (λ _, True) Sample.echo_truth (λ _, True) eq_refl eq_refl (echo_serves _ _) Logic.I Logic.I)
    as (data & w' & _ & _ & (Hc & _) & Hg).
  exists w'. split; [exact Hg|]. rewrite Hc, Hw. reflexivity.
Defined.

Lemma lookup_batch_exact_witness :
  ∃ w', IPGeoHTTPServer.handle_lookup_post (H := Sample.batch_json) (H0 := sample_digest) (H1 := sample_resolver)
     (H2 := Sample.zigzag)
     (λ n, Z.of_nat n) Sample.server (Sample.request "Bearer secret" "") (Sample.world_with 1, fresh_response) =
   (Ret tt, (w', with_text "{}" fresh_response)) ∧ Metrics.total_requests_ (metrics w') = 11.
Proof.
  assert (∃ w, IPGeoHTTPServer.prepare_request (H := Sample.batch_json) (H0 := sample_digest) (λ n, Z.of_nat n) Sample.server
      (Sample.request "Bearer secret" "") (Sample.world_with 1, fresh_response)
    = (Ret (Some "10.0.0.1"), (w, fresh_response)) ∧ Metrics.total_requests_ (metrics w) = 0) as (w & Hp & Hw).
  { eexists. split; [vm_compute; reflexivity|reflexivity]. }
  destruct (lookup_batch_exact (JL := tree_laws (λ _, Ret "{}") (λ _, Ret (Tree.Obj [("ips", Tree.Arr Sample.batch_items)])))
    (JP := tree_prints "{}" _) (H := sample_digest) (H0 := sample_resolver) (AS := Sample.zigzag)
      (λ n, Z.of_nat n) Sample.server (Sample.request "Bearer secret" "") (Sample.world_with 1, fresh_response)
    "10.0.0.1" w fresh_response (Tree.Obj [("ips", Tree.Arr Sample.batch_items)]) false Sample.batch_items
    (repeat "8.8.8.8" 11) Sample.echo (λ _, True) Sample.echo_truth (λ _, True))
    as (js & w' & _ & _ & (Hc & _) & Hg).
  - exact Hp.
  - reflexivity.
  - reflexivity.
  - reflexivity.
  - vm_compute. discriminate.
  - reflexivity.
  - reflexivity.
  - apply echo_serves.
  - exact Logic.I.
  - by repeat constructor.
  - rewrite Hw. vm_compute. split; discriminate.
  - exists w'. split; [apply Hg; reflexivity|]. rewrite Hc, Hw. reflexivity.
Defined.
