(* ===== verification/Requests.v ===== *)
(** * What every request keeps

    The handlers of [IPGeoHTTPServer] among any number of other threads:
    whatever those do between two steps of a handler, as long as they too keep
    [server_ok], the handler neither has undefined behaviour nor fails to end,
    and keeps it.  Proved of each handler from the same fact of its parts.  An
    exception may leave a handler (httplib answers it with 500). *)
From Stdlib Require Import ZArith Lia Ascii String SpecFloat.
From S2P Require Import Prelude Program StdList Double Json CppString RateLimiter Cache Validation Auth Metrics PasswordGenerator Config Services Http PasswordHandler HttpServer.
#[local] Open Scope Z_scope.

Section Server.
Context {SV G J : Type} {JO : JsonOps J} {RS : Resolver}.
Import IPGeoHTTPServer.

(** The lookup services the server was given serve every address its
    validators accept, in the states of [I]. *)
Record fits (srv : t SV J) (I : SV → Prop) : Prop := {
  fits_ip h : lookup_handler_ srv = Some h →
    ∃ v good, serves I v good h ∧ ∀ ip, isValidIpFormat ip = true → good ip;
  fits_mac h : mac_lookup_handler_ srv = Some h →
    ∃ v good, serves I v good h ∧ ∀ mac, isValidMacFormat mac = Ret true → good mac
}.

(** What holds whenever no thread is in the middle of a step. *)
Definition server_ok (srv : t SV J) (I : SV → Prop) (w : world SV G) : Prop :=
  I (services w) ∧ Metrics.metrics_ok (metrics w) ∧
  (enable_rate_limiter_ srv = true → ∃ rl, limiter w = Some rl ∧ RateLimiter.wf rl).
End Server.

(** ** Lemmas *)
Section Keeps.
Context {SV G J : Type} {JO : JsonOps J} (P : world SV G → Prop).

Lemma keeps_response f : keeps P (λ _, True) (modify_response f).
Proof. by intros r w HP. Qed.

(** Writing JSON. *)
Hypothesis dump_safe : ∀ j : J, safe (json_dump j).

Lemma keeps_set_json (j : J) : keeps P (λ _, True) (set_json j : handler SV G unit).
Proof.
  eapply keeps_bind; [apply (keeps_lift P (λ _, True)); [apply dump_safe|done]|]. intros text _. apply keeps_response.
Qed.

Lemma keeps_send_json (j : J) st : keeps P (λ _, True) (send_json_response j st : handler SV G unit).
Proof. eapply keeps_bind; [apply keeps_response|]. intros _ _. apply keeps_set_json. Qed.

Lemma keeps_object `{!JsonLaws J} (kvs : list (string * J)) :
  kvs ≠ [] → keeps P (λ _, True) (lift (json_object kvs) : handler SV G J).
Proof. intros Hk. destruct (json_object_ok kvs Hk) as (j & -> & _). by apply keeps_lift. Qed.

Lemma keeps_send_error `{!JsonLaws J} st error message :
  keeps P (λ _, True) (send_error_response (J := J) st error message : handler SV G unit).
Proof.
  eapply keeps_bind; [by apply keeps_object|]. intros j _.
  eapply keeps_bind; [apply keeps_response|]. intros _ _. apply keeps_set_json.
Qed.
End Keeps.

Section Handlers.
Context {SV G J : Type} {JO : JsonOps J} {JL : JsonLaws J} {RG : Rng G} {RL : RngLaws G} {LM : Libm}
  {DG : Digest} {RS : Resolver} {AS : Async} (clock : nat → Z)
  (srv : IPGeoHTTPServer.t SV J) (I : SV → Prop).
Import IPGeoHTTPServer.
Hypothesis dump_safe : ∀ j : J, safe (json_dump j).
Hypothesis parse_safe : ∀ s, safe (json_parse s : exec J).
Hypothesis Hfits : fits srv I.
Notation P := (server_ok (G := G) srv I).
Notation always := (λ _, True).

(** *** Steps of the shared parts *)
Lemma elapsed_not_nan start stop : is_nan (elapsed start stop) = false.
Proof.
  unfold elapsed. change (double_of_Z 1000000) with (S754_finite false 8589934592000000 (-33)).
  apply ddiv_not_nan, double_of_Z_not_nan.
Qed.

Lemma holds_now : holds P always (now clock).
Proof. by intros w Hw. Qed.

(** Recording a request neither fails nor breaks the metrics. *)
Lemma record_returns start stop : stable P (record_request clock (elapsed start stop)) (λ r, r = Ret tt).
Proof.
  apply stable_bind. intros w (Hi & Hm & Hl). split; [by split_and!|]. clear w Hi Hm Hl.
  intros w (Hi & Hm & Hl). split; [|done].
  split; [done|]. split; [|done]. apply Metrics.record_locked_ok; [apply elapsed_not_nan|done].
Qed.

Lemma holds_record start stop : holds P always (record_request clock (elapsed start stop)).
Proof. eapply stable_mono; [|apply record_returns]. by intros ? ->. Qed.

Lemma holds_record_error : holds P always record_error.
Proof. intros w (Hi & Hm & Hl). by split_and!. Qed.

Lemma holds_get_world : holds P P (atomic get_world).
Proof. by intros w Hw. Qed.

(** A call of the limiter that keeps it well formed. *)
Lemma holds_limiter {A} (f : RateLimiter.t → exec (A * RateLimiter.t)) w :
  enable_rate_limiter_ srv = true →
  (∀ rl, RateLimiter.wf rl → ∃ a rl', f rl = Ret (a, rl') ∧ RateLimiter.wf rl') →
  P w → ∃ a w', with_rate_limiter f w = (Ret a, w') ∧ P w'.
Proof.
  intros He Hf (Hi & Hm & Hl). destruct (Hl He) as (rl & Hrl & Hwf).
  destruct (Hf rl Hwf) as (a & rl' & Hfa & Hwf'). exists a, (with_limiter (Some rl') w).
  split; [|split_and!; [done|done|by eauto]].
  unfold with_rate_limiter. rewrite Hrl. cbn [deref mbind exec_bind]. by rewrite Hfa.
Qed.

Lemma allows_returns ip :
  enable_rate_limiter_ srv = true → stable P (limiter_allows clock ip) (λ r, ∃ ok, r = Ret ok).
Proof.
  intros He w Hw.
  destruct (holds_limiter (λ rl, RateLimiter.is_allowed rl ip (clock (ticks w)) (clock (S (ticks w))))
    (tick (tick w)) He) as (a & w' & Hf & Hw'); [|done|].
  { intros rl Hwf. destruct (RateLimiter.refines rl ip (clock (ticks w)) (clock (S (ticks w))) Hwf) as (a & rl' & ? & ? & _).
    by eauto. }
  cbv [mbind M_bind read_clock]. simpl ticks. rewrite Hf. split; [done|by exists a].
Qed.

Lemma remaining_returns ip :
  enable_rate_limiter_ srv = true → stable P (limiter_remaining clock ip) (λ r, ∃ n, r = Ret n).
Proof.
  intros He w Hw.
  destruct (holds_limiter (λ rl, RateLimiter.get_remaining rl ip (clock (ticks w))) (tick w) He)
    as (a & w' & Hf & Hw'); [|done|].
  { intros rl Hwf. destruct (RateLimiter.get_remaining_ok rl ip (clock (ticks w)) Hwf) as (rl' & ? & ? & _). by eauto. }
  cbv [mbind M_bind read_clock]. simpl ticks. rewrite Hf. split; [done|by exists a].
Qed.

Lemma holds_allows ip : enable_rate_limiter_ srv = true → holds P always (limiter_allows clock ip).
Proof. intros He. eapply stable_mono; [|by apply allows_returns]. by intros ? [ok ->]. Qed.

Lemma holds_remaining ip : enable_rate_limiter_ srv = true → holds P always (limiter_remaining clock ip).
Proof. intros He. eapply stable_mono; [|by apply remaining_returns]. by intros ? [n ->]. Qed.

(** The generator, on any engine. *)
Lemma holds_engine {A} (f : G → exec (A * G)) : (∀ g, safe (f g)) → holds P always (with_engine f).
Proof.
  intros Hf w Hw. specialize (Hf (gen w)). by destruct (f (gen w)) as [[a g]|e| |].
Qed.

(** Steps of a proof that a handler keeps the server in order. *)
Ltac keep :=
  match goal with
  | |- keeps _ _ (mbind _ _) => eapply keeps_bind; [keep|intros ? _]
  | |- keeps _ _ (mret _) => by apply keeps_ret
  | |- keeps _ _ (shared _) => apply keeps_shared; keep
  | |- holds _ _ (now _) => apply holds_now
  | |- holds _ _ (record_request _ _) => apply holds_record
  | |- holds _ _ record_error => apply holds_record_error
  | |- holds _ _ (limiter_allows _ _) => by apply holds_allows
  | |- holds _ _ (limiter_remaining _ _) => by apply holds_remaining
  | |- holds _ _ (with_engine _) => apply holds_engine
  | |- keeps _ _ (set_header _ _) => apply keeps_response
  | |- keeps _ _ (set_status _) => apply keeps_response
  | |- keeps _ _ (set_json _) => by apply keeps_set_json
  | |- keeps _ _ (send_json_response _ _) => by apply keeps_send_json
  | |- keeps _ _ (send_error _ _ _) => by apply keeps_send_error
  | |- keeps _ _ (send_error_response _ _ _) => by apply keeps_send_error
  | |- keeps _ _ (lift (json_object _)) => by apply keeps_object
  | |- keeps _ _ (lift (json_parse _)) => apply (keeps_lift _ always); [apply parse_safe|done]
  | |- keeps _ _ _ => idtac
  | |- holds _ _ _ => idtac
  end.

(** *** The gate *)
Lemma keeps_authenticate req : keeps P always (authenticate_request srv req : handler SV G bool).
Proof.
  unfold authenticate_request. destruct (if enable_api_auth_ srv then api_auth_ srv else None); [|keep].
  repeat case_match; repeat keep.
Qed.

Lemma keeps_prepare req : keeps P always (prepare_request clock srv req).
Proof.
  unfold prepare_request. eapply keeps_bind; [apply keeps_authenticate|]. intros ok _.
  destruct ok; cbn [negb]; [|keep]. destruct (is_empty (get_real_client_ip req)); [repeat keep|].
  destruct (enable_rate_limiter_ srv) eqn:He; [|keep]. keep. destruct a; cbn [negb]; repeat keep.
Qed.

(** *** Information *)
Lemma keeps_root : keeps P always (handle_root : handler SV G unit).
Proof. unfold handle_root. repeat keep. Qed.

Lemma holds_stats : holds P always (metrics_stats clock).
Proof.
  do 4 (eapply holds_bind; [apply holds_get_world|]; intros ? (? & ? & ?)). eapply holds_bind; [apply holds_now|].
  intros t _. destruct (Metrics.get_stats_returns (metrics a) (metrics a0) (metrics a1) (metrics a2) t) as [st ->]; [done|].
  by apply holds_lift.
Qed.

Lemma keeps_health : keeps P always (handle_health clock srv).
Proof.
  unfold handle_health. eapply keeps_bind; [apply keeps_shared, holds_stats|]. intros stats _. do 2 keep.
  eapply (keeps_bind _ always).
  { destruct (cache_stats_handler_ srv); [|keep].
    eapply keeps_bind; [apply keeps_shared, holds_get_world|]. intros w _. repeat keep. }
  intros cache _. repeat keep.
Qed.

(** *** Lookups *)
Section Lookup.
Context (h : service SV J) (v : string → exec (verdict (J := J))) (good : string → Prop).
Hypothesis Hs : serves I v good h.

Lemma timed_answers query : good query → stable P (timed_lookup clock h query) (answered v query).
Proof.
  apply (timed_lookup_stable clock I v good h Hs); [by intros w []|done|]. by intros w sv (_ & Hm & Hl) Hi.
Qed.

(** The answers of a batch, in the order of the queries. *)
Definition answers (qs : list string) (results : list J) (r : exec (list J)) : Prop :=
  ∃ js, r = Ret (results ++ js) ∧ Forall2 (λ q j, uncached v q = Ret j) qs js.

Lemma answers_cons q qs results j r :
  uncached v q = Ret j → answers qs (results ++ [j]) r → answers (q :: qs) results r.
Proof. intros Hq (js & -> & Hjs). exists (j :: js). rewrite <-app_assoc. split; [done|by constructor]. Qed.

(** A latency is recorded, and the rest goes on. *)
Lemma stable_record {B} start stop (k : thread SV G B) Q :
  stable P k Q → stable P (record_request clock (elapsed start stop);; k) Q.
Proof.
  intros Hk. apply stable_bind. eapply stable_mono; [|apply record_returns]. by intros ? ->.
Qed.

Lemma holds_timed query :
  good query → holds P (λ p, ∃ start stop, p.2 = elapsed start stop) (timed_lookup clock h query).
Proof.
  intros Hg. eapply stable_mono; [|by apply timed_answers]. intros ? (res & start & stop & -> & _). by exists start, stop.
Qed.

Lemma each_answers qs results : Forall good qs → stable P (lookup_each clock h qs results) (answers qs results).
Proof.
  intros Hg. revert results. induction Hg as [|q qs Hq _ IH]; intros results.
  - exists []. by rewrite app_nil_r.
  - apply stable_bind. eapply stable_mono; [|by apply timed_answers]. intros ? (res & start & stop & -> & Hu).
    apply stable_record. eapply stable_mono; [|apply IH]. intros r. by apply answers_cons.
Qed.

Lemma all_answers qs : Forall good qs → stable P (lookup_all clock h qs) (answers qs []).
Proof.
  intros Hg. unfold lookup_all. destruct (length qs <=? 10)%nat; [by apply each_answers|].
  apply (staged_stable P _ _ 0). eapply staged_mono; [|apply (run_async_staged clock I v good h Hs (λ _, P) (λ _, 0%nat))].
  - intros n ? (js & -> & _ & Hjs). exists js. unfold answers_upto in Hjs. by rewrite firstn_all in Hjs.
  - by intros _ w [].
  - done.
  - by intros _ w sv (_ & Hm & Hl) Hi.
  - intros _ start stop js. eapply staged_mono; [|by apply stable_staged, (stable_record start stop _ (λ o, o = Ret js))].
    by intros n o [-> ->].
  - exact Hg.
Qed.

Lemma holds_all qs : Forall good qs → holds P always (lookup_all clock h qs).
Proof. intros Hg. eapply stable_mono; [|by apply all_answers]. by intros ? (js & -> & _). Qed.
End Lookup.

Lemma keeps_get req : keeps P always (handle_lookup_get clock srv req).
Proof.
  unfold handle_lookup_get. eapply keeps_bind; [apply keeps_prepare|]. intros [client_ip|] _; [|keep].
  set (mac := get_param_value req "mac"). set (ip := get_param_value req "ip").
  destruct (negb (is_empty mac) && negb (is_empty ip)); [keep|].
  set (is_mac := negb (is_empty mac)).
  set (query := if is_mac then mac else if is_empty ip then client_ip else ip).
  eapply (keeps_bind _ (λ valid, valid = true → if is_mac then isValidMacFormat query = Ret true
                                                else isValidIpFormat query = true)).
  { apply keeps_lift.
    - destruct is_mac; [|done]. by rewrite isValidMacFormat_eq.
    - intros valid Hv ->. destruct is_mac; [done|]. by injection Hv. }
  intros valid Hvalid. apply keeps_attempt; [|intros e; repeat keep].
  destruct valid; cbn [negb]; [|keep]. specialize (Hvalid eq_refl).
  destruct (if is_mac then mac_lookup_handler_ srv else lookup_handler_ srv) as [h|] eqn:Hh; [|keep].
  assert (∃ v good, serves I v good h ∧ good query) as (v & good & Hs & Hg).
  { destruct is_mac.
    - destruct (fits_mac _ _ Hfits h Hh) as (v & good & ? & ?). eauto.
    - destruct (fits_ip _ _ Hfits h Hh) as (v & good & ? & ?). eauto. }
  eapply keeps_bind; [apply keeps_shared; by eapply holds_timed|]. intros [res latency] (start & stop & Hl).
  simpl in Hl. subst latency. repeat keep.
Qed.

Lemma valid_items_ok (validator : string → exec bool) (items : list J) :
  (∀ x, safe (validator x)) →
  safe (valid_items validator items) ∧
  ∀ qs, valid_items validator items = Ret qs → Forall (λ q, validator q = Ret true) qs.
Proof.
  intros Hv. induction items as [|item items [IHs IH]]; simpl.
  - split; [done|]. by intros qs [= <-].
  - destruct (json_string item) as [x|]; [|done]. specialize (Hv x).
    destruct (validator x) as [ok|e| |] eqn:Hx; simpl; try done.
    destruct (valid_items validator items) as [rest|e| |]; simpl; try done.
    split; [done|]. specialize (IH rest eq_refl). destruct ok; intros qs [= <-]; [by constructor|done].
Qed.

(** A batch that is accepted: a service and queries it serves. *)
Definition accepted (batch : option (service SV J * list string)) : Prop :=
  match batch with
  | Some (h, qs) => ∃ v good, serves I v good h ∧ Forall good qs
  | None => True
  end.

Lemma keeps_batch h type items (validator : string → exec bool) :
  (∀ x, safe (validator x)) →
  (∀ s, h = Some s → ∃ v good, serves I v good s ∧ ∀ x, validator x = Ret true → good x) →
  keeps P accepted (process_batch srv h type items validator).
Proof.
  intros Hv Hh. unfold process_batch. destruct h as [h|]; [|keep; by apply keeps_ret].
  destruct (max_batch_size_ srv <? _).
  { keep. keep. by apply keeps_ret. }
  destruct (valid_items_ok validator items Hv) as [Hsafe Hall].
  eapply keeps_bind; [by apply keeps_lift|]. intros qs Hqs. apply keeps_ret.
  destruct (Hh h eq_refl) as (v & good & Hs & Hg). exists v, good. split; [done|].
  eapply Forall_impl; [by apply Hqs|]. exact Hg.
Qed.

Lemma keeps_post req : keeps P always (handle_lookup_post clock srv req).
Proof.
  unfold handle_lookup_post. eapply keeps_bind; [apply keeps_prepare|]. intros [client_ip|] _; [|keep].
  unfold lookup_batch.
  apply keeps_attempt; [|intros []; repeat keep].
  keep. eapply (keeps_bind _ accepted).
  - assert (Hrefuse : ∀ message, keeps P accepted (send_error (J := J) 400 "Bad Request" message;; mret None)).
    { intros message. keep. by apply keeps_ret. }
    destruct (array_member "ips" a) as [ips|], (array_member "macs" a) as [macs|]; [apply Hrefuse| | |apply Hrefuse].
    + apply keeps_batch; [done|]. intros s Hh. destruct (fits_ip _ _ Hfits s Hh) as (v & good & Hs & Hg).
      exists v, good. split; [done|]. intros x [= Hx]. by apply Hg.
    + apply keeps_batch; [intros x; by rewrite isValidMacFormat_eq|]. apply (fits_mac _ _ Hfits).
  - intros [[h qs]|] Hb; [|keep]. destruct Hb as (v & good & Hs & Hg).
    eapply keeps_bind; [apply keeps_shared; by eapply holds_all|]. intros results _. keep.
Qed.

(** *** Passwords *)
Lemma generate_safe config (g : G) : safe (generate config g).
Proof.
  destruct (validate_config config "").1 eqn:Hv.
  - by destruct (generate_ok config g Hv) as (r & g' & -> & _).
  - unfold generate. destruct (validate_config config "") as [valid message]. simpl in Hv. by subst valid.
Qed.

Lemma generate_batch_safe config count (g : G) : safe (generate_batch config count g).
Proof.
  unfold generate_batch. destruct (count <=? 0); [done|].
  assert (Hloop : ∀ n results g, safe (batch_loop n config results g)); [|apply Hloop].
  induction n as [|n IH]; intros results g'; [done|]. simpl. pose proof (generate_safe config g') as Hg.
  destruct (generate config g') as [[r g1]|e| |]; [apply IH|done..].
Qed.

Lemma password_list_safe results : safe (password_list (J := J) results).
Proof.
  induction results as [|r results IH]; [done|]. cbn [password_list].
  destruct (json_object_ok (password_members (J := J) r)) as (j & -> & _); [done|]. cbn [mbind exec_bind].
  by destruct (password_list results).
Qed.

Lemma keeps_password_get req : keeps P always (PasswordHandler.handle_get (J := J) clock req).
Proof.
  unfold handle_get. apply keeps_attempt; [|intros []; repeat keep].
  eapply (keeps_bind _ always).
  - destruct (get_config_cases req) as [[config ->]|[->| ->]]; by apply keeps_lift.
  - intros config _. keep. eapply keeps_bind; [apply keeps_shared, holds_engine, generate_safe|]. intros result _.
    repeat keep.
Qed.

Lemma keeps_password_post max req : keeps P always (PasswordHandler.handle_post (J := J) clock max req).
Proof.
  unfold handle_post. apply keeps_attempt; [|intros []; repeat keep].
  keep. cbv zeta. destruct (body_int a "count" 1 <? 1); [keep|]. destruct (max <? body_int a "count" 1); [keep|].
  keep. eapply keeps_bind; [apply keeps_shared, holds_engine; intros g; apply generate_batch_safe|]. intros results _.
  keep. keep. eapply keeps_bind; [apply (keeps_lift _ always); [apply password_list_safe|done]|].
  intros js _. repeat keep.
Qed.

(** *** Routes *)
Lemma keeps_dispatch method path req h :
  dispatch clock srv method path req = Some h → keeps P always h.
Proof.
  assert (Hcors : keeps P always setup_cors) by (unfold setup_cors; repeat keep).
  unfold dispatch. destruct (String.eqb method "OPTIONS"); [by intros [= <-]|].
  destruct (List.find _ _) as [[[m p] handler]|] eqn:Hfind; [|done].
  intros Hh. assert (h = (setup_cors;; handler req)) as -> by congruence.
  eapply keeps_bind; [exact Hcors|]. intros _ _. apply find_some in Hfind as [Hin _].
  unfold setup_routes in Hin. simpl in Hin.
  destruct Hin as [Hin|[Hin|[Hin|[Hin|[Hin|[Hin|[]]]]]]]; injection Hin as _ _ <-.
  - apply keeps_root.
  - apply keeps_health.
  - apply keeps_get.
  - apply keeps_post.
  - apply keeps_password_get.
  - apply keeps_password_post.
Qed.
End Handlers.
