(* ===== verification/Answers.v ===== *)
(** * What a lookup answers among other threads

    The exact answers of the two lookup end points, proved with [wp]: between
    two steps of the handler any other thread may change the limiter, the
    caches, the metrics and the clock, as long as [server_ok] is kept.  The
    answer does not depend on any of that, except for whether the limiter lets
    the request through. *)
From Stdlib Require Import ZArith Lia Ascii String.
From S2P Require Import Prelude Program StdList Double Json CppString RateLimiter Cache Validation Auth Metrics PasswordGenerator Config Services Http PasswordHandler HttpServer Requests.
#[local] Open Scope Z_scope.

Section Answers.
Context {SV J : Type} {JO : JsonOps J} {DG : Digest} {RS : Resolver} (srv : IPGeoHTTPServer.t SV J)
  (truth : bool → string → exec (verdict (J := J))).
Import IPGeoHTTPServer.

(** The gate lets a request with these credentials and this address through,
    unless the limiter refuses it. *)
Definition credited (req : Request) : Prop :=
  ∀ auth, enable_api_auth_ srv = true → api_auth_ srv = Some auth → authorised auth req.

Definition admissible (req : Request) : Prop := credited req ∧ get_real_client_ip req ≠ "".

(** Why a request is refused, and with which status; that the limiter refuses
    none without cause is said of the limiter, in RateLimiter.v. *)
Definition refusal (req : Request) (st : Z) : Prop :=
  (st = 401 ∧ enable_api_auth_ srv = true ∧ ∃ auth, api_auth_ srv = Some auth ∧ ¬ authorised auth req) ∨
  (st = 400 ∧ credited req ∧ get_real_client_ip req = "") ∨
  (st = 429 ∧ enable_rate_limiter_ srv = true ∧ admissible req).

(** A text as the answer of a handler that ended normally; an answer that
    cannot be printed is reported with 500. *)
Definition shows_json (data : J) (o : exec unit) (r : Response) : Prop :=
  match json_dump data with
  | Ret text => o = Ret tt ∧ content r = text ∧ sent_status r = 200
  | Throw e => ascii_text (exn_what e) → o = Ret tt ∧ sent_status r = 500
  | _ => True
  end.

(** [GET /lookup], once admitted *)
Definition get_answer (req : Request) (o : exec unit) (r : Response) : Prop :=
  match lookup_target req (get_real_client_ip req) with
  | None => o = Ret tt ∧ sent_status r = 400
  | Some (is_mac, query) =>
      (¬ well_formed is_mac query → o = Ret tt ∧ sent_status r = 400) ∧
      (well_formed is_mac query →
         match handler_for srv is_mac with
         | None => o = Ret tt ∧ sent_status r = 500
         | Some _ => ∃ data, uncached (truth is_mac) query = Ret data ∧ shows_json data o r
         end)
  end.

(** The batch that a request asks for, its kind and its queries, if it is one
    of one kind, of a size allowed, and for a service that is there. *)
Definition accepted_items (is_mac : bool) (items : list J) : option (bool * list string) :=
  match handler_for srv is_mac, batch_queries is_mac items with
  | Some _, Ret qs => if max_batch_size_ srv <? Z.of_nat (length items) then None else Some (is_mac, qs)
  | _, _ => None
  end.

Definition accepted_batch (req : Request) : option (bool * list string) :=
  match json_parse (body req) with
  | Ret b =>
      match array_member "ips" b, array_member "macs" b with
      | Some items, None => accepted_items false items
      | None, Some items => accepted_items true items
      | _, _ => None
      end
  | _ => None
  end.

(** [POST /lookup], once admitted: the answers to the queries of the batch, in
    their order *)
Definition batch_answer (batch : option (bool * list string)) (o : exec unit) (r : Response) : Prop :=
  match batch with
  | Some (is_mac, qs) =>
      ∃ js, Forall2 (λ q j, uncached (truth is_mac) q = Ret j) qs js ∧
        ∀ text, json_dump (json_of_list js) = Ret text → o = Ret tt ∧ content r = text ∧ sent_status r = 200
  | None => o = Ret tt → sent_status r = 400 ∨ sent_status r = 500
  end.

Definition post_answer (req : Request) : exec unit → Response → Prop := batch_answer (accepted_batch req).

(** Either the gate refused the request, or it was answered. *)
Definition gated (req : Request) (answer : exec unit → Response → Prop) (o : exec unit) (r : Response) : Prop :=
  (o = Ret tt ∧ refusal req (sent_status r)) ∨ (admissible req ∧ answer o r).

(** The handlers of the server compute [truth], in the states of [I]. *)
Definition truthful (I : SV → Prop) : Prop :=
  ∀ (is_mac : bool) h, handler_for srv is_mac = Some h → serves I (truth is_mac) (well_formed is_mac) h.
End Answers.

(** ** Lemmas *)
Section Writing.
Context {SV G J : Type} `{JL : JsonLaws J} `{JP : !JsonPrints J} (P : world SV G → Prop).

Lemma wp_response f (Q : exec unit → Response → Prop) r : Q (Ret tt) (f r) → wp P (modify_response f) Q r.
Proof. by intros HQ w Hw. Qed.

Lemma wp_set_json (j : J) text (Q : exec unit → Response → Prop) r :
  json_dump j = Ret text → Q (Ret tt) (with_text text r) → wp P (set_json j) Q r.
Proof. intros Hd HQ. unfold set_json. rewrite Hd. by apply wp_response. Qed.

Lemma wp_send_json (j : J) st text (Q : exec unit → Response → Prop) r :
  json_dump j = Ret text → Q (Ret tt) (json_response st text r) → wp P (send_json_response j st) Q r.
Proof. intros Hd HQ. apply wp_bind, wp_response. by apply (wp_set_json j text). Qed.

Lemma wp_send_error st error message (Q : exec unit → Response → Prop) r :
  ascii_text error → ascii_text message → (∀ text, Q (Ret tt) (json_response st text r)) →
  wp P (send_error_response (J := J) st error message) Q r.
Proof.
  intros He Hm HQ. destruct (json_object_ok (error_members (J := J) error message)) as (j & Hj & _); [done|].
  destruct (json_dump_ok j) as [text Hd].
  { eapply printable_object; [exact Hj|]. unfold error_members.
    repeat constructor; simpl; auto using printable_string; by repeat constructor. }
  unfold send_error_response. rewrite Hj. by apply (wp_send_json j st text).
Qed.

Lemma wp_lift {A} (m : exec A) (Q : exec A → Response → Prop) r : Q m r → wp P (lift m) Q r.
Proof. done. Qed.
End Writing.

Section Lookups.
Context {SV G J : Type} `{JL : JsonLaws J} `{JP : !JsonPrints J} {DG : Digest} {RS : Resolver} {AS : Async}
  (clock : nat → Z) (srv : IPGeoHTTPServer.t SV J) (I : SV → Prop) (truth : bool → string → exec (verdict (J := J))).
Import IPGeoHTTPServer.
Notation P := (server_ok (G := G) srv I).

(** The gate passes a request with its response untouched, or refuses it. *)
Definition passes (req : Request) (r : Response) (o : exec (option string)) (r' : Response) : Prop :=
  match o with
  | Ret (Some ip) => ip = get_real_client_ip req ∧ r' = r ∧ admissible srv req
  | Ret None => refusal srv req (sent_status r')
  | _ => False
  end.

Lemma wp_authenticate req r :
  wp P (authenticate_request srv req : handler SV G bool)
    (λ o r', (o = Ret true ∧ r' = r ∧ ∀ auth, enable_api_auth_ srv = true → api_auth_ srv = Some auth → authorised auth req) ∨
             (o = Ret false ∧ refusal srv req (sent_status r'))) r.
Proof.
  unfold authenticate_request. destruct (enable_api_auth_ srv) eqn:He; [|by left].
  destruct (api_auth_ srv) as [auth|] eqn:Ha; [|by left].
  set (h := get_header_value req "Authorization").
  assert (Hno : ∀ r', sent_status r' = 401 → ¬ authorised auth req → refusal srv req (sent_status r')).
  { intros r' -> Hn. left. by eauto. }
  destruct (is_empty h) eqn:Hempty.
  { apply wp_bind, wp_send_error; [solve_ascii..|]. intros text. apply wp_bind, wp_response. right. split; [done|].
    apply Hno; [done|]. apply is_empty_eq in Hempty. intros (key & Hk & _). fold h in Hk. by rewrite Hempty in Hk. }
  destruct (starts_with "Bearer " h) eqn:Hp; cbn [negb].
  2: { apply wp_bind, wp_send_error; [solve_ascii..|]. intros text. apply wp_bind, wp_response. right. split; [done|].
    apply Hno; [done|]. intros (key & Hk & _). fold h in Hk. rewrite Hk in Hp.
    by rewrite (proj1 (starts_with_app _ _)) in Hp. }
  apply starts_with_spec in Hp. change (length (bytes "Bearer ")) with 7%nat in Hp.
  destruct (APIAuth.is_valid auth (substr h 7 (length (bytes h)))) eqn:Hv; cbn [negb].
  - left. split_and!; [done|done|]. intros auth' _ [= <-]. by eexists.
  - apply wp_bind, wp_send_error; [solve_ascii..|]. intros text. right. split; [done|]. apply Hno; [done|].
    intros (key & Hk & Hv'). fold h in Hk. pose proof (proj2 (starts_with_app "Bearer " key)) as Hs.
    rewrite <-Hk in Hs. change (length (bytes "Bearer ")) with 7%nat in Hs. congruence.
Qed.

(** The answer to a request that the limiter refuses. *)
Lemma wp_limited client_ip r :
  enable_rate_limiter_ srv = true →
  wp P (remaining ← shared (limiter_remaining clock client_ip);
        error ← lift (json_object [("error", json_of_string "Rate limit exceeded");
                                   ("remaining", json_of_int remaining)]);
        send_json_response (J := J) error 429;;
        set_header "Retry-After" "60";;
        mret None) (λ (o : exec (option string)) r', o = Ret None ∧ sent_status r' = 429) r.
Proof.
  intros He. apply wp_bind, wp_shared. eapply stable_mono; [|by apply remaining_returns]. intros ? [n ->].
  destruct (json_object_ok [("error", json_of_string "Rate limit exceeded"); ("remaining", json_of_int n : J)])
    as (j & Hj & _); [done|].
  destruct (json_dump_ok j) as [text Hd].
  { eapply printable_object; [exact Hj|]. repeat constructor; simpl; auto using printable_int; try constructor; solve_ascii. }
  rewrite Hj. apply wp_bind, wp_lift, wp_bind, (wp_send_json P j 429 text); [done|].
  by apply wp_bind, wp_response.
Qed.

Lemma wp_prepare req r : wp P (prepare_request clock srv req) (passes req r) r.
Proof.
  unfold prepare_request. apply wp_bind. eapply wp_mono; [|apply wp_authenticate].
  intros ? r' [(-> & -> & Hauth)|[-> Hno]]; [|done]. cbn [negb].
  destruct (is_empty (get_real_client_ip req)) eqn:Hip.
  { apply is_empty_eq in Hip. apply wp_bind, wp_send_error; [solve_ascii..|]. intros text. right. left. by split_and!. }
  assert (Hadm : admissible srv req) by (split; [done|]; intros H; by rewrite H in Hip).
  destruct (enable_rate_limiter_ srv) eqn:He; [|by split].
  apply wp_bind, wp_shared. eapply stable_mono; [|by apply allows_returns]. intros ? [allowed ->].
  destruct allowed; [by split|]. cbn [negb]. eapply wp_mono; [|by apply wp_limited].
  intros ? r' [-> Hst]. right. right. rewrite Hst. by split_and!.
Qed.

(** The answer of a handler that is refused by its gate, or goes on. *)
Lemma wp_gated req r (k : option string → handler SV G unit) (answer : exec unit → Response → Prop) :
  k None = mret tt →
  (admissible srv req → wp P (k (Some (get_real_client_ip req))) answer r) →
  wp P (client_ip ← prepare_request clock srv req; k client_ip) (gated srv req answer) r.
Proof.
  intros Hn Hk. apply wp_bind. eapply wp_mono; [|apply wp_prepare].
  intros [[ip|]|e| |] r' Hp; simpl in Hp; try done.
  - destruct Hp as (-> & -> & Ha). eapply wp_mono; [|by apply Hk]. intros o r' Ho. right. by split.
  - rewrite Hn. left. by split.
Qed.

Hypothesis dump_safe : ∀ j : J, safe (json_dump j).
Hypothesis Htruth : truthful srv truth I.

(** The report of an exception, by [handle_lookup_get]. *)
Lemma wp_report e r :
  wp P (set_status 500;; error ← lift (json_object [("error", json_of_string (exn_what e))]);
        set_json (J := J) error;; shared record_error)
    (λ o r', ascii_text (exn_what e) → o = Ret tt ∧ sent_status r' = 500) r.
Proof.
  apply wp_bind, wp_response.
  destruct (json_object_ok [("error", json_of_string (exn_what e) : J)]) as (j & Hj & _); [done|]. rewrite Hj.
  apply wp_bind, wp_lift, wp_bind.
  destruct (decide (ascii_text (exn_what e))) as [Ha|Hna].
  - destruct (json_dump_ok j) as [text Hd].
    { eapply printable_object; [exact Hj|]. apply Forall_cons. split; [split; [solve_ascii|by constructor]|constructor]. }
    apply (wp_set_json P j text); [done|]. apply wp_shared. by intros w (Hi & Hm & Hl).
  - eapply wp_mono; [|by apply (keeps_set_json P dump_safe j)]. by intros [[]|e'| |] r'.
Qed.

Lemma wp_show (data : J) r :
  sent_status r = 200 →
  wp P (set_json data)
    (λ o r', match o with
             | Throw e => wp P (set_status 500;; error ← lift (json_object [("error", json_of_string (exn_what e))]);
                                set_json (J := J) error;; shared record_error) (shows_json data) r'
             | _ => shows_json data o r'
             end) r.
Proof.
  intros Hst. unfold set_json at 1. pose proof (dump_safe data) as Hs.
  destruct (json_dump data) as [text|e| |] eqn:Hd; try done.
  - apply wp_response. unfold shows_json. by rewrite Hd.
  - apply wp_bind, wp_lift. cbv beta iota. eapply wp_mono; [|apply wp_report].
    intros o r' Ho. unfold shows_json. by rewrite Hd.
Qed.

(** A lookup by the handler, its request counted. *)
Lemma wp_lookup is_mac query h (k : LookupResult J → handler SV G unit) Q r :
  handler_for srv is_mac = Some h → well_formed is_mac query →
  (∀ res, uncached (truth is_mac) query = Ret (data_ res) → wp P (k res) Q r) →
  wp P ('(result, latency) ← shared (timed_lookup clock h query); shared (record_request clock latency);; k result) Q r.
Proof.
  intros Hh Hwf Hk. apply wp_bind, wp_shared.
  eapply stable_mono; [|by eapply timed_answers; [by eapply Htruth|]]. intros ? (res & start & stop & -> & Hu).
  apply wp_bind, wp_shared. eapply stable_mono; [|apply record_returns]. intros ? ->. by apply Hk.
Qed.

Lemma wp_get req r :
  sent_status r = 200 → wp P (handle_lookup_get clock srv req) (gated srv req (get_answer srv truth req)) r.
Proof.
  intros Hst. apply wp_gated; [done|]. intros Hadm. unfold get_answer, lookup_target.
  set (mac := get_param_value req "mac"). set (ip := get_param_value req "ip").
  destruct (negb (is_empty mac) && negb (is_empty ip)); [by apply wp_send_error; [solve_ascii..|]|].
  set (is_mac := negb (is_empty mac)).
  set (query := if is_mac then mac else if is_empty ip then get_real_client_ip req else ip).
  replace (if is_mac then Some (true, mac) else Some (false, if is_empty ip then get_real_client_ip req else ip))
    with (Some (is_mac, query)) by (subst query; by destruct is_mac).
  assert (∃ valid, (if is_mac then isValidMacFormat query else Ret (isValidIpFormat query)) = Ret valid ∧
    (valid = true ↔ well_formed is_mac query)) as (valid & -> & Hv).
  { unfold well_formed. destruct is_mac; [|by eexists].
    rewrite isValidMacFormat_eq. eexists. split; [reflexivity|]. split; congruence. }
  apply wp_bind, wp_lift. destruct valid; cbn [negb].
  - assert (Hwf : well_formed is_mac query) by by apply Hv.
    apply (wp_mono P _ (λ o r', match handler_for srv is_mac with
      | None => o = Ret tt ∧ sent_status r' = 500
      | Some _ => ∃ data, uncached (truth is_mac) query = Ret data ∧ shows_json data o r'
      end)); [by intros; split|].
    fold (handler_for srv is_mac). destruct (handler_for srv is_mac) as [h|] eqn:Hh; apply wp_attempt.
    + apply (wp_lookup is_mac query h); [done..|]. intros res Hu.
      eapply wp_mono; [|by apply wp_show]. intros [[]|e| |] r' Ho; [by eauto| |by eauto..].
      eapply wp_mono; [|exact Ho]. eauto.
    + apply wp_send_error; [solve_ascii|destruct is_mac; solve_ascii|done].
  - assert (Hno : ¬ well_formed is_mac query) by (intros Hwf; by apply Hv in Hwf).
    apply (wp_mono P _ (λ o r', o = Ret tt ∧ sent_status r' = 400)); [by intros; split|].
    apply wp_attempt, wp_send_error; [solve_ascii|destruct is_mac; solve_ascii|done].
Qed.

(** An error answer, whatever its text: if it is written, it has its status. *)
Lemma wp_error_status st error message r :
  wp P (send_error_response (J := J) st error message) (λ o r', o = Ret tt → sent_status r' = sent_status
    {| status := st; content := ""; content_type := ""; headers := [] |}) r.
Proof.
  unfold send_error_response. apply wp_bind, wp_lift.
  destruct (json_object (error_members error message)) as [j|e| |]; try done.
  apply wp_bind, wp_response. unfold set_json. apply wp_bind, wp_lift. by destruct (json_dump j).
Qed.

(** The error handling of [handle_lookup_post]. *)
Lemma wp_batch_error e r :
  wp P (match e with
        | json_exception what => send_error (J := J) 400 "Bad Request" ("Invalid JSON: " +:+ what)
        | _ => send_error (J := J) 500 "Internal Server Error" (exn_what e);; shared record_error
        end) (λ o r', o = Ret tt → sent_status r' = 400 ∨ sent_status r' = 500) r.
Proof.
  assert (H500 : wp P (send_error (J := J) 500 "Internal Server Error" (exn_what e);; shared record_error)
    (λ o r', o = Ret tt → sent_status r' = 400 ∨ sent_status r' = 500) r).
  { apply wp_bind. eapply wp_mono; [|apply wp_error_status]. intros [[]|e'| |] r' Hr; try done.
    apply wp_shared. intros w (Hi & Hm & Hl). split; [by split_and!|]. right. by apply Hr. }
  destruct e; try exact H500. eapply wp_mono; [|apply wp_error_status]. intros o r' Hr Ho. left. by apply Hr.
Qed.

Lemma batch_queries_ret is_mac (items : list J) :
  ∃ qs, batch_queries is_mac items = Ret qs ∧ Forall (well_formed is_mac) qs.
Proof.
  assert (Hv : ∀ x, safe (if is_mac then isValidMacFormat x else Ret (isValidIpFormat x))).
  { intros x. destruct is_mac; [by rewrite isValidMacFormat_eq|done]. }
  destruct (valid_items_ok _ items Hv) as [_ Hall].
  assert (∃ qs, batch_queries is_mac items = Ret qs) as [qs Hqs].
  { clear Hall. unfold batch_queries. induction items as [|item items [qs IH]]; [by eexists|]. cbn [valid_items].
    destruct (json_string item) as [x|]; [|by eexists]. destruct is_mac.
    - rewrite isValidMacFormat_eq in *. cbn [mbind exec_bind]. rewrite IH. by eexists.
    - cbn [mbind exec_bind]. rewrite IH. by eexists. }
  exists qs. split; [done|]. eapply Forall_impl; [by apply Hall|]. unfold well_formed. intros x Hx.
  destruct is_mac; [done|]. by injection Hx.
Qed.

(** A batch that is not accepted. *)
Lemma wp_refuse {B} st error message (k : exec B) (Q : exec B → Response → Prop) r :
  ascii_text error → ascii_text message → (∀ text, Q k (json_response st text r)) →
  wp P (send_error (J := J) st error message;; lift k) Q r.
Proof. intros He Hm HQ. by apply wp_bind, wp_send_error. Qed.

Lemma wp_process is_mac items type r (Q : exec (option (service SV J * list string)) → Response → Prop) :
  ascii_text (type +:+ " lookup handler not configured") →
  (∀ h qs, handler_for srv is_mac = Some h → Forall (well_formed is_mac) qs →
    accepted_items srv is_mac items = Some (is_mac, qs) → Q (Ret (Some (h, qs))) r) →
  (∀ r', accepted_items srv is_mac items = None → sent_status r' = 400 ∨ sent_status r' = 500 → Q (Ret None) r') →
  wp P (process_batch srv (handler_for srv is_mac) type items
         (λ x, if is_mac then isValidMacFormat x else Ret (isValidIpFormat x))) Q r.
Proof.
  intros Ht Hok Hno. destruct (batch_queries_ret is_mac items) as (qs & Hqs & Hwf).
  unfold process_batch, accepted_items in *. rewrite Hqs in *. destruct (handler_for srv is_mac) as [h|] eqn:Hh.
  2: { apply wp_refuse; [solve_ascii|done|]. intros text. apply Hno; [done|by right]. }
  destruct (max_batch_size_ srv <? Z.of_nat (length items)).
  - destruct (json_object_ok [("error", json_of_string "Batch size exceeds maximum limit");
      ("max_batch_size", json_of_int (max_batch_size_ srv)); ("requested_size", json_of_int (Z.of_nat (length items)) : J)])
      as (j & Hj & _); [done|]. rewrite Hj.
    destruct (json_dump_ok j) as [text Hd].
    { eapply printable_object; [exact Hj|].
      repeat constructor; simpl; auto using printable_int; try constructor; solve_ascii. }
    apply wp_bind, wp_lift, wp_bind, (wp_send_json P j 400 text); [done|]. apply Hno; [done|by left].
  - unfold batch_queries in Hqs. rewrite Hqs. apply wp_bind, wp_lift. by apply Hok.
Qed.

(** What is left to show of the body of the [try] block: an exception goes to
    the handler. *)
Definition caught (answer : exec unit → Response → Prop) (o : exec unit) (r : Response) : Prop :=
  match o with
  | Throw e =>
      wp P (match e with
            | json_exception what => send_error (J := J) 400 "Bad Request" ("Invalid JSON: " +:+ what)
            | _ => send_error (J := J) 500 "Internal Server Error" (exn_what e);; shared record_error
            end) answer r
  | _ => answer o r
  end.

Lemma wp_served is_mac h qs r (answer : exec unit → Response → Prop) :
  sent_status r = 200 → handler_for srv is_mac = Some h → Forall (well_formed is_mac) qs →
  (∀ js o r', Forall2 (λ q j, uncached (truth is_mac) q = Ret j) qs js →
     (∀ text, json_dump (json_of_list js) = Ret text → o = Ret tt ∧ content r' = text ∧ sent_status r' = 200) →
     answer o r') →
  wp P (results ← shared (lookup_all clock h qs); set_json (J := J) (json_of_list results)) (caught answer) r.
Proof.
  intros Hst Hh Hwf Hans. apply wp_bind, wp_shared.
  eapply stable_mono; [|by eapply all_answers; [by eapply Htruth|]]. intros ? (js & -> & Hjs). cbn [app].
  pose proof (dump_safe (json_of_list js)) as Hs. unfold set_json. apply wp_bind, wp_lift.
  destruct (json_dump (json_of_list js)) as [text|e| |] eqn:Hd; try done.
  - apply wp_response. apply (Hans js); [done|]. intros text' [= <-]%(eq_trans (eq_sym Hd)). done.
  - unfold caught. eapply wp_mono; [|apply wp_batch_error]. intros o r' _. apply (Hans js); [done|].
    intros text Htext. congruence.
Qed.

Lemma wp_kind is_mac type items r :
  sent_status r = 200 → ascii_text (type +:+ " lookup handler not configured") →
  wp P (batch ← process_batch srv (handler_for srv is_mac) type items
                  (λ x, if is_mac then isValidMacFormat x else Ret (isValidIpFormat x));
        match batch with
        | None => mret tt
        | Some (handler, query_list) =>
            results ← shared (lookup_all clock handler query_list); set_json (J := J) (json_of_list results)
        end) (caught (batch_answer truth (accepted_items srv is_mac items))) r.
Proof.
  intros Hst Ht. apply wp_bind, wp_process; [done| |].
  - intros h qs Hh Hwf ->. apply (wp_served is_mac h qs); [done..|]. intros js o r' Hjs Ho. by exists js.
  - intros r' -> Hr. by intros _.
Qed.

Lemma wp_batch req r :
  sent_status r = 200 → wp P (lookup_batch clock srv req) (post_answer srv truth req) r.
Proof.
  intros Hst. unfold lookup_batch, post_answer. apply wp_attempt, wp_bind, wp_lift.
  unfold accepted_batch. destruct (json_parse (body req)) as [b|e| |]; [|by apply wp_batch_error|done|done].
  fold (caught (post_answer srv truth req)).
  assert (Hrefuse : ∀ message (k : option (service SV J * list string) → handler SV G unit), ascii_text message →
    k None = mret tt →
    wp P (batch ← (send_error (J := J) 400 "Bad Request" message;; mret None); k batch)
      (caught (batch_answer truth None)) r).
  { intros message k Hm Hk. apply wp_bind, wp_bind, wp_send_error; [solve_ascii|done|]. intros text. cbn. rewrite Hk.
    by left. }
  destruct (array_member "ips" b) as [ips|], (array_member "macs" b) as [macs|].
  - by apply Hrefuse; [solve_ascii|].
  - apply (wp_kind false); [done|solve_ascii].
  - apply (wp_kind true); [done|solve_ascii].
  - by apply Hrefuse; [solve_ascii|].
Qed.

Lemma wp_post req r :
  sent_status r = 200 → wp P (handle_lookup_post clock srv req) (gated srv req (post_answer srv truth req)) r.
Proof. intros Hst. apply wp_gated; [done|]. intros _. by apply wp_batch. Qed.
End Lookups.
