(* ===== verification/EndPoints.v ===== *)
(** * The other end points among other threads

    What the service information, the health report, the CORS preflight and
    the two password end points answer, whatever other threads do in between;
    proved with [wp], like the lookups of Answers.v. *)
From Stdlib Require Import ZArith Lia Ascii String.
From S2P Require Import Prelude Program StdList Double Json CppString RateLimiter Cache Validation Auth Metrics PasswordGenerator Config Services Http PasswordHandler HttpServer Requests Answers.
#[local] Open Scope Z_scope.

(** The handler ended normally, with a JSON text of this kind. *)
Definition writes (st : Z) (kind : string → Prop) (o : exec unit) (r : Response) : Prop :=
  o = Ret tt ∧ sent_status r = st ∧ content_type r = "application/json" ∧ kind (content r).

Section EndPoints.
Context {J : Type} {JO : JsonOps J} {LM : Libm}.

Definition text_of (j : J) (text : string) : Prop := json_dump j = Ret text.

(** The service information names the end points. *)
Definition shows_info (text : string) : Prop :=
  ∃ j : J, text_of j text ∧
    json_find "endpoints" j = Some (json_of_list (json_of_string <$> ["/"; "/lookup"; "/health"; "/password/generate"])).

(** The health report says that the service is up, and has these parts. *)
Definition shows_health (text : string) : Prop :=
  ∃ j : J, text_of j text ∧ json_find "status" j = Some (json_of_string "ok") ∧
    ∀ part, part ∈ ["timestamp"; "metrics"; "errors"; "system"] → is_Some (json_find part j).

(** [GET /password/generate] *)
Definition password_get_answer (req : Request) : exec unit → Response → Prop :=
  match get_config req with
  | Ret config =>
      if (validate_config config "").1 then writes 200 (λ text, ∃ p (j : J), shows config p j ∧ text_of j text)
      else writes 400 (is_error (J := J) "Bad Request" ("Invalid parameter value: " +:+ (validate_config config "").2))
  | Throw (invalid_argument what) =>
      writes 400 (is_error (J := J) "Bad Request" ("Invalid parameter value: " +:+ what))
  | Throw e => writes 500 (is_error (J := J) "Internal Server Error" (exn_what e))
  | _ => λ _ _, False
  end.

(** The answer to a batch of passwords. *)
Definition shows_passwords (config : PasswordConfig) (count : Z) (text : string) : Prop :=
  ∃ ps js (j : J), Z.of_nat (length ps) = count ∧ Forall2 (shows config) ps js ∧ text_of j text ∧
    json_find "count" j = Some (json_of_int count) ∧ json_find "passwords" j = Some (json_of_list js).

(** [POST /password/generate]; a message that is not ASCII may be unprintable. *)
Definition password_post_answer (max_batch : Z) (req : Request) : exec unit → Response → Prop :=
  match json_parse (body req) with
  | Ret b =>
      match post_refusal (body_config b) (body_int b "count" 1) max_batch with
      | Some (message, _) => writes 400 (is_error (J := J) "Bad Request" message)
      | None => writes 200 (shows_passwords (body_config b) (body_int b "count" 1))
      end
  | Throw e => λ o r, ascii_text (exn_what e) →
      match e with
      | json_exception what => writes 400 (is_error (J := J) "Bad Request" ("Invalid JSON: " +:+ what)) o r
      | invalid_argument what => writes 400 (is_error (J := J) "Bad Request" what) o r
      | _ => writes 500 (is_error (J := J) "Internal Server Error" (exn_what e)) o r
      end
  | _ => λ _ _, False
  end.
End EndPoints.

(** ** Lemmas *)
Section Writing.
Context {SV G J : Type} `{JL : JsonLaws J} `{JP : !JsonPrints J} (P : world SV G → Prop).

Lemma sent_status_written st (r : Response) text :
  st ≠ -1 → sent_status (json_response st text r) = st.
Proof. intros Hst. unfold sent_status. simpl. by rewrite (proj2 (Z.eqb_neq _ _)). Qed.

Lemma wp_writes (j : J) st (kind : string → Prop) r :
  st ≠ -1 → printable j → (∀ text, text_of j text → kind text) → wp P (send_json_response j st) (writes st kind) r.
Proof.
  intros Hst Hj Hk. destruct (json_dump_ok j Hj) as [text Hd]. apply (wp_send_json P j st text); [done|].
  split_and!; [done|by apply sent_status_written|done|by apply Hk].
Qed.

(** Without a status, httplib sends 200. *)
Lemma wp_shows (j : J) (kind : string → Prop) r :
  sent_status r = 200 → printable j → (∀ text, text_of j text → kind text) → wp P (set_json j) (writes 200 kind) r.
Proof.
  intros Hst Hj Hk. destruct (json_dump_ok j Hj) as [text Hd]. apply (wp_set_json P j text); [done|].
  split_and!; [done|done|done|by apply Hk].
Qed.

Lemma wp_error_text st error message r :
  st ≠ -1 → ascii_text error → ascii_text message →
  wp P (send_error_response (J := J) st error message) (writes st (is_error (J := J) error message)) r.
Proof.
  intros Hst He Hm. destruct (json_object_ok (error_members (J := J) error message)) as (j & Hj & _); [done|].
  unfold send_error_response. rewrite Hj. apply wp_bind, wp_lift. apply (wp_writes j st); [done| |by intros text Ht; exists j].
  eapply printable_object; [exact Hj|]. unfold error_members.
  repeat constructor; simpl; auto using printable_string; by repeat constructor.
Qed.
End Writing.

Section Handlers.
Context {SV G J : Type} `{JL : JsonLaws J} `{JP : !JsonPrints J} `{RL : RngLaws G} {LM : Libm} {DG : Digest}
  {RS : Resolver} {AS : Async} (clock : nat → Z) (srv : IPGeoHTTPServer.t SV J) (I : SV → Prop).
Import IPGeoHTTPServer.
Notation P := (server_ok (G := G) srv I).

(** An object that is built from printable members. *)
Lemma wp_object {A} (kvs : list (string * J)) (k : J → handler SV G A) Q r :
  kvs ≠ [] → Forall (λ p, ascii_text p.1 ∧ printable p.2) kvs →
  (∀ j, printable j → (∀ key, json_find key j = alist_find key (rev kvs)) → wp P (k j) Q r) →
  wp P (j ← lift (json_object kvs); k j) Q r.
Proof.
  intros Hne Hkvs Hk. destruct (json_object_ok kvs Hne) as (j & Hj & _ & Hf). rewrite Hj.
  apply wp_bind, wp_lift, Hk; [by eapply printable_object|exact Hf].
Qed.

(** A step that returns a value of some kind. *)
Lemma wp_value {A B} (m : thread SV G A) (Q0 : A → Prop) (k : A → handler SV G B) Q r :
  stable P m (λ o, ∃ a, o = Ret a ∧ Q0 a) → (∀ a, Q0 a → wp P (k a) Q r) → wp P (a ← shared m; k a) Q r.
Proof. intros Hm Hk. apply wp_bind, wp_shared. eapply stable_mono; [|exact Hm]. intros ? (a & -> & Ha). by apply Hk. Qed.

Lemma now_returns : stable P (now clock) (λ o, ∃ t, o = Ret t ∧ True).
Proof. intros w Hw. split; [done|by eexists]. Qed.

Lemma wp_record {A} start stop (k : unit → handler SV G A) Q r :
  wp P (k tt) Q r → wp P (u ← shared (record_request clock (elapsed start stop)); k u) Q r.
Proof.
  intros Hk. apply wp_bind, wp_shared. eapply stable_mono; [|apply record_returns]. by intros ? ->.
Qed.

Lemma wp_root r : sent_status r = 200 → wp P (handle_root (J := J)) (writes 200 (shows_info (J := J))) r.
Proof.
  intros Hst. unfold handle_root. apply wp_object; [done| |].
  - repeat constructor; simpl; auto using printable_string, printable_list; solve_ascii.
  - intros j Hj Hf. apply wp_shows; [done..|]. intros text Ht. exists j. by rewrite Hf.
Qed.

Lemma stats_returns : stable P (metrics_stats clock) (λ o, ∃ st, o = Ret st ∧ True).
Proof.
  intros w1 H1. split; [done|]. intros w2 H2. split; [done|]. intros w3 (Hi & Hm & Hl). split; [by split_and!|].
  intros w4 H4. split; [done|]. intros w5 H5. split; [done|]. cbn [fst snd lift].
  destruct (Metrics.get_stats_returns (metrics w1) (metrics w2) (metrics w3) (metrics w4) (clock (ticks w5)) Hm)
    as [st Hst]. exists st. by rewrite <-Hst.
Qed.

Lemma wp_health r : sent_status r = 200 → wp P (handle_health clock srv) (writes 200 (shows_health (J := J))) r.
Proof.
  intros Hst. unfold handle_health, rounded. eapply wp_value; [apply stats_returns|]. intros stats _.
  eapply wp_value; [apply now_returns|]. intros t _.
  apply wp_object; [done| |].
  { repeat constructor; simpl; auto using printable_int, printable_double; solve_ascii. }
  intros metrics_json Hmet _. apply wp_bind.
  eapply (wp_mono P _ (λ o r', ∃ cache, o = Ret cache ∧ r' = r ∧ (cache = [] ∨ ∃ j, cache = [("cache", j)] ∧ printable j))).
  - intros ? ? (cache & -> & -> & Hcache).
    apply wp_object; [done| |].
    { repeat constructor; simpl; auto using printable_int, printable_double; solve_ascii. }
    intros errors Herr _. apply wp_object; [done| |].
    { repeat constructor; simpl; auto using printable_int; solve_ascii. }
    intros system Hsys _. apply wp_object; [done| |].
    + destruct Hcache as [->|(j & -> & Hj)];
        repeat constructor; simpl; auto using printable_int, printable_string; try solve_ascii;
        apply printable_string; solve_ascii.
    + intros health Hh Hf. apply wp_shows; [done..|]. intros text Ht. exists health.
      split; [done|]. rewrite Hf.
      destruct Hcache as [->|(j & -> & Hj)]; (split; [done|]); intros part Hpart; rewrite Hf; revert part Hpart;
        apply Forall_forall; repeat constructor; by eexists.
  - destruct (cache_stats_handler_ srv) as [h|]; [|by exists []; split; [|split; [|left]]].
    intros w Hw. split; [done|]. cbn [fst snd]. apply wp_object; [done| |].
    { repeat constructor; simpl; auto using printable_int, printable_double; solve_ascii. }
    intros j Hj _. exists [("cache", j)]. split_and!; [done|done|right; eauto].
Qed.

(** *** Passwords *)

(** The timed call of the generator, on whatever engine the threads before
    have left; what it returns does not depend on it but for its randomness. *)
Lemma wp_generate {A B} (f : G → exec (A * G)) (Q0 : A → Prop) (k : A → handler SV G B) Q r :
  (∀ g, ∃ a g', f g = Ret (a, g') ∧ Q0 a) → (∀ a, Q0 a → wp P (k a) Q r) →
  wp P (start ← shared (now clock); x ← shared (with_engine f); stop ← shared (now clock);
        shared (record_request clock (elapsed start stop));; k x) Q r.
Proof.
  intros Hf Hk. eapply wp_value; [apply now_returns|]. intros start _. eapply (wp_value _ Q0).
  - intros w Hw. destruct (Hf (gen w)) as (a & g' & -> & Ha). split; [done|by exists a].
  - intros a Ha. eapply wp_value; [apply now_returns|]. intros stop _. by apply wp_record, Hk.
Qed.

Lemma wp_no_password {A B} (f : G → exec (A * G)) e (k : A → Z → handler SV G B) (Q : exec B → Response → Prop) r :
  (∀ g, f g = Throw e) → Q (Throw e) r →
  wp P (start ← shared (now clock); x ← shared (with_engine f); stop ← shared (now clock);
        shared (record_request clock (elapsed start stop));; k x stop) Q r.
Proof.
  intros Hf HQ. eapply wp_value; [apply now_returns|]. intros start _. apply wp_bind, wp_shared.
  intros w Hw. by rewrite Hf.
Qed.

Lemma wp_count_error {B} (m : handler SV G B) (Q : exec unit → Response → Prop) r :
  wp P m (λ o r', match o with Ret _ => Q (Ret tt) r' | Throw e => Q (Throw e) r' | Undefined => Q Undefined r'
                  | OutOfFuel => Q OutOfFuel r' end) r →
  wp P (m;; shared record_error) Q r.
Proof.
  intros Hm. apply wp_bind. eapply wp_mono; [|exact Hm]. intros [b|e| |] r' Hr; [|exact Hr..].
  apply wp_shared. intros w (Hi & Hmet & Hl). by split; [split_and!|].
Qed.

Lemma wp_password_get req r :
  sent_status r = 200 → wp P (handle_get (J := J) clock req) (password_get_answer (J := J) req) r.
Proof.
  intros Hst. unfold handle_get, password_get_answer. apply wp_attempt.
  destruct (get_config_cases req) as [[config Hc]|[Hc|Hc]]; rewrite Hc; apply wp_bind, wp_lift; cbv iota.
  - destruct (validate_config config "") as [valid message] eqn:Hv. cbn [fst snd].
    pose proof (validate_message_ascii config) as Hm. rewrite Hv in Hm. cbn [snd] in Hm. destruct valid.
    + eapply (wp_generate _ (good_result config)).
      { intros g. destruct (generate_ok config g) as (p & g' & Hg & Hp); [by rewrite Hv|]. by exists p, g'. }
      intros p Hp. destruct (password_json (J := J) config p Hp) as (j & Hj & Hprint & Hshow). rewrite Hj.
      apply wp_bind, wp_lift. cbv iota.
      eapply wp_mono; [|apply (wp_writes P j 200 (λ text, ∃ p (j : J), shows config p j ∧ text_of j text)); [done|done|eauto]].
      intros o r' Hw. destruct Hw as [-> Hw]. by split.
    + apply (wp_no_password _ (invalid_argument message)); [intros g; unfold generate; by rewrite Hv|].
      apply wp_error_text; [done|solve_ascii|apply ascii_app; [solve_ascii|done]].
  - by apply wp_error_text; [|solve_ascii..].
  - apply wp_count_error. eapply wp_mono; [|by apply wp_error_text; [|solve_ascii..]]. intros ? r' [-> Hw]. by split.
Qed.

Lemma wp_password_post max_batch req r :
  sent_status r = 200 → safe (json_parse (body req) : exec J) →
  wp P (handle_post (J := J) clock max_batch req) (password_post_answer (J := J) max_batch req) r.
Proof.
  intros Hst Hsafe. unfold handle_post, password_post_answer. apply wp_attempt, wp_bind, wp_lift.
  destruct (json_parse (body req)) as [b|e| |]; [|clear Hsafe|done|done].
  - set (config := body_config b). set (count := body_int b "count" 1). unfold post_refusal.
    pose proof (validate_message_ascii config) as Hm.
    destruct (Z.ltb_spec count 1) as [|Hlow].
    { eapply wp_mono; [|apply wp_error_text; [done|solve_ascii..]]. intros ? r' [-> Hw]. by split. }
    destruct (Z.ltb_spec max_batch count) as [|Hhigh].
    { eapply wp_mono; [|apply wp_error_text; [done|solve_ascii|apply ascii_app; [solve_ascii|apply to_string_ascii]]].
      intros ? r' [-> Hw]. by split. }
    destruct (validate_config config "") as [valid message] eqn:Hv. cbn [snd] in Hm. destruct valid.
    + eapply (wp_generate _ (λ ps, Z.of_nat (length ps) = count ∧ Forall (good_result config) ps)).
      { intros g. destruct (batch_loop_ok config (Z.to_nat count) [] g) as (ps & g' & Hg & Hlen & Hps); [by rewrite Hv|].
        exists ps, g'. unfold generate_batch. rewrite (proj2 (Z.leb_gt _ _)) by lia. split_and!; [done|lia|done]. }
      intros ps [Hlen Hps]. destruct (password_list_ok (J := J) config ps Hps) as (js & Hjs & Hprint & Hshow).
      rewrite Hjs, Hlen. apply wp_bind, wp_lift. cbv iota.
      assert (Hr : is_i32 count) by (apply body_int_range; unfold is_i32; lia). rewrite i32_small by done.
      apply wp_object; [done| |].
      { repeat constructor; simpl; auto using printable_int, printable_list; solve_ascii. }
      intros j Hj Hf. eapply wp_mono; [|apply (wp_writes P j 200 (shows_passwords (J := J) config count)); [done|done|]].
      * intros ? r' [-> Hw]. by split.
      * intros text Ht. exists ps, js, j. by rewrite !Hf.
    + apply (wp_no_password _ (invalid_argument message)).
      { intros g. unfold generate_batch. rewrite (proj2 (Z.leb_gt _ _)) by lia.
        destruct (Z.to_nat count) as [|n] eqn:Hn; [lia|]. simpl. unfold generate. by rewrite Hv. }
      by apply wp_error_text; [|solve_ascii|].
  - cbv iota. destruct (decide (ascii_text (exn_what e))) as [Ha|Hna].
    + eapply wp_mono; [intros o r' Hw _; exact Hw|].
      destruct e; try (apply wp_count_error; eapply wp_mono; [|by apply wp_error_text; [|solve_ascii|]]; intros ? r' [-> Hw]; by split).
      all: apply wp_error_text; [done|solve_ascii|]; try apply ascii_app; try solve_ascii; done.
    + destruct e; first [apply wp_count_error|idtac]; (eapply wp_mono; [|apply wp_error_status]); by intros [] r' _.
Qed.
End Handlers.
