(* ===== verification/Concurrent.v ===== *)
(** * The server at work: many requests at once

    Each request is served by a thread of its own (which worker of the pool of
    httplib runs it is the library's choice), and the cleanup thread sweeps
    the limiter now and then.  The threads share the [world]; a scheduler
    chooses, step by step, which of them goes on.  Shown is what holds under
    every scheduler, and what happens in the end under a fair one. *)
From Stdlib Require Import ZArith Lia Ascii String.
From S2P Require Import Prelude Program StdList Double Json CppString RateLimiter Cache Validation Auth Metrics PasswordGenerator Config Services Http PasswordHandler HttpServer Requests Answers EndPoints.
#[local] Open Scope Z_scope.

(** What a thread is for: a request (with the order in which the threads of
    its batch, if it has one, take their steps), or one sweep of the cleanup
    thread, which comes to the address [ip] after [order ip] others. *)
Inductive job :=
| Serve (order : Async) (method path : string) (req : Request)
| Sweep (order : string → nat).

(** What happens next: a request or a sweep begins, or the thread [i] takes
    its next step. *)
Inductive event :=
| Begin (j : job)
| Turn (i : nat).

Section Server.
Context {SV G J : Type} {JO : JsonOps J} {RG : Rng G} {LM : Libm} {DG : Digest} {RS : Resolver}
  (clock : nat → Z).
Import IPGeoHTTPServer.

(** A thread: what it is for, what it has still to do, and its response. *)
Record call := { purpose : job; rest : handler SV G unit; response : Response }.
Record state := { world_ : world SV G; calls : list call }.

(** The body of the loop of [cleanup_thread_func], which is only started if
    the limiter is enabled; the clock is read once for each record. *)
Definition sweep_step (order : string → nat) : M (world SV G) unit := λ w,
  let n := match limiter w with Some rl => base.size (RateLimiter.ip_records_ rl) | None => 0%nat end in
  with_rate_limiter
    (λ rl, rl' ← RateLimiter.cleanup rl (λ ip, clock (ticks w + Nat.min (order ip) n)%nat); Ret (tt, rl'))
    (Nat.iter n tick w).

Definition sweep (srv : t SV J) (order : string → nat) : thread SV G unit :=
  if enable_rate_limiter_ srv then atomic (sweep_step order) else mret tt.

(** What a thread runs; a request without a route is left to httplib. *)
Definition program (srv : t SV J) (j : job) : handler SV G unit :=
  match j with
  | Serve order method path req =>
      match dispatch clock srv method path req with Some h => h | None => mret tt end
  | Sweep order => shared (sweep srv order)
  end.

Definition begin (srv : t SV J) (j : job) : call :=
  {| purpose := j; rest := program srv j; response := fresh_response |}.

(** One step of a thread; none if it is done. *)
Definition advance (c : call) (w : world SV G) : call * world SV G :=
  match rest c with
  | Done _ => (c, w)
  | Act f k =>
      let '(r, (w', res)) := f (w, response c) in
      ({| purpose := purpose c; rest := k r; response := res |}, w')
  end.

Definition step (srv : t SV J) (s : state) (e : event) : state :=
  match e with
  | Begin j => {| world_ := world_ s; calls := calls s ++ [begin srv j] |}
  | Turn i =>
      match calls s !! i with
      | None => s
      | Some c => let '(c', w') := advance c (world_ s) in {| world_ := w'; calls := <[i := c']> (calls s) |}
      end
  end.

Definition execute (srv : t SV J) (es : list event) (s : state) : state := fold_left (step srv) es s.

Definition idle (w : world SV G) : state := {| world_ := w; calls := [] |}.

(** The thread has ended, with this outcome. *)
Definition ended (c : call) (o : exec unit) : Prop := rest c = Done o.

(** An endless run is chosen event by event by a scheduler; the state before
    its [n]th event. *)
Fixpoint after (srv : t SV J) (scheduler : nat → event) (s : state) (n : nat) : state :=
  match n with
  | O => s
  | S n' => step srv (after srv scheduler s n') (scheduler n')
  end.

(** No thread is passed over for ever. *)
Definition fair (srv : t SV J) (scheduler : nat → event) (s : state) : Prop :=
  ∀ n i, (i < length (calls (after srv scheduler s n)))%nat → ∃ m, (n ≤ m)%nat ∧ scheduler m = Turn i.

(** What each thread ends with: the answer that its route is due. *)
Definition answer_of (srv : t SV J) (truth : bool → string → exec (verdict (J := J))) (j : job) (o : exec unit)
    (r : Response) : Prop :=
  match j with
  | Serve _ method path req =>
      if decide (method = "OPTIONS") then o = Ret tt ∧ sent_status r = 200 ∧ content r = ""
      else if decide ((method, path) = ("GET", "/")) then writes 200 (shows_info (J := J)) o r
      else if decide ((method, path) = ("GET", "/health")) then writes 200 (shows_health (J := J)) o r
      else if decide ((method, path) = ("GET", "/lookup")) then gated srv req (get_answer srv truth req) o r
      else if decide ((method, path) = ("POST", "/lookup")) then gated srv req (post_answer srv truth req) o r
      else if decide ((method, path) = ("GET", "/password/generate")) then password_get_answer (J := J) req o r
      else if decide ((method, path) = ("POST", "/password/generate")) then
        password_post_answer (J := J) (max_batch_size_ srv) req o r
      else o = Ret tt ∧ r = fresh_response
  | Sweep _ => o = Ret tt
  end.
End Server.
Arguments call SV G : clear implicits.
Arguments state SV G : clear implicits.

(** ** Lemmas *)
Section Pool.
Context {SV G J : Type} {JO : JsonOps J} {RG : Rng G} {LM : Libm} {DG : Digest} {RS : Resolver}
  (clock : nat → Z) (srv : IPGeoHTTPServer.t SV J).

(** Every thread keeps the invariant and is on its way to its postcondition. *)
Section Invariant.
Context (P : world SV G → Prop) (post : job → exec unit → Response → Prop).
Hypothesis Hprogram : ∀ j, wp P (program clock srv j) (post j) fresh_response.

Definition in_order (s : state SV G) : Prop :=
  P (world_ s) ∧ Forall (λ c, wp P (rest c) (post (purpose c)) (response c)) (calls s).

Lemma step_in_order s e : in_order s → in_order (step clock srv s e).
Proof.
  intros [Hw Hc]. destruct e as [j|i]; simpl.
  - split; [done|]. apply Forall_app. split; [done|]. apply Forall_singleton, Hprogram.
  - destruct (calls s !! i) as [c|] eqn:Hi; [|done]. unfold advance.
    pose proof (Forall_lookup_1 _ _ _ _ Hc Hi) as Hwp. simpl in Hwp.
    destruct (rest c) as [o|B f k] eqn:Hrest; [split; [done|]; simpl; by rewrite list_insert_id|].
    cbn [wp] in Hwp. specialize (Hwp _ Hw). destruct (f (world_ s, response c)) as [r [w' l']].
    destruct Hwp as [Hw' Hwp]. split; [done|]. by apply Forall_insert.
Qed.

Lemma execute_in_order es s : in_order s → in_order (execute clock srv es s).
Proof. revert s. induction es as [|e es IH]; intros s Hs; [done|]. by apply IH, step_in_order. Qed.

Lemma after_in_order scheduler s n : in_order s → in_order (after clock srv scheduler s n).
Proof. intros Hs. induction n as [|n IH]; [done|]. by apply step_in_order. Qed.

Lemma ended_post s c o : in_order s → c ∈ calls s → ended c o → post (purpose c) o (response c).
Proof. intros [_ Hc] Hin He. rewrite Forall_forall in Hc. specialize (Hc c Hin). by rewrite He in Hc. Qed.
End Invariant.

(** *** Progress *)
Lemma step_length s e : (length (calls s) ≤ length (calls (step clock srv s e)))%nat.
Proof.
  destruct e as [j|i]; simpl; [rewrite length_app; lia|]. destruct (calls s !! i) as [c|]; [|done].
  destruct (advance c (world_ s)). simpl. by rewrite length_insert.
Qed.

(** A thread changes at its own turns only. *)
Lemma step_other s e i c :
  calls s !! i = Some c → e ≠ Turn i → calls (step clock srv s e) !! i = Some c.
Proof.
  intros Hi He. destruct e as [j|i']; simpl; [by apply lookup_app_l_Some|].
  destruct (calls s !! i') as [c'|]; [|done]. destruct (advance c' (world_ s)). simpl.
  rewrite list_lookup_insert_ne; [done|congruence].
Qed.

Lemma step_turn s i c :
  calls s !! i = Some c → calls (step clock srv s (Turn i)) !! i = Some (advance c (world_ s)).1.
Proof.
  intros Hi. simpl. rewrite Hi. destruct (advance c (world_ s)). simpl.
  apply list_lookup_insert_eq. by eapply lookup_lt_Some.
Qed.

(** Waiting for the next turn of a thread. *)
Lemma wait scheduler s i c n m :
  calls (after clock srv scheduler s n) !! i = Some c → (n ≤ m)%nat → scheduler m = Turn i →
  ∃ m', (n ≤ m')%nat ∧ scheduler m' = Turn i ∧ calls (after clock srv scheduler s m') !! i = Some c.
Proof.
  intros Hi Hle Hm. remember (m - n)%nat as d eqn:Hd. revert n Hi Hle Hd. induction d as [|d IH]; intros n Hi Hle Hd.
  - assert (m = n) as -> by lia. by exists n.
  - assert (scheduler n = Turn i ∨ scheduler n ≠ Turn i) as [Hn|Hn].
    { destruct (scheduler n) as [j|i']; [by right|]. destruct (decide (i' = i)); [left|right]; congruence. }
    + by exists n.
    + destruct (IH (S n)) as (m' & ? & ? & ?); [by apply step_other|lia|lia|]. exists m'. split; [lia|done].
Qed.

(** A thread that gets its turns comes to its end. *)
Lemma thread_ends scheduler s (m : handler SV G unit) n i c :
  fair clock srv scheduler s → calls (after clock srv scheduler s n) !! i = Some c → rest c = m →
  ∃ n' c' o, (n ≤ n')%nat ∧ calls (after clock srv scheduler s n') !! i = Some c' ∧ purpose c' = purpose c ∧ ended c' o.
Proof.
  intros Hfair. revert n c. induction m as [o|B f k IH]; intros n c Hi Hrest; [by exists n, c, o|].
  destruct (Hfair n i) as (t & Hle & Ht); [by eapply lookup_lt_Some|].
  destruct (wait scheduler s i c n t Hi Hle Ht) as (t' & Hle' & Ht' & Hi').
  pose proof (step_turn _ i c Hi') as Hs. rewrite <-Ht' in Hs. fold (after clock srv scheduler s (S t')) in Hs.
  unfold advance in Hs. rewrite Hrest in Hs.
  destruct (f (world_ (after clock srv scheduler s t'), response c)) as [r [w' l']]. cbn [fst] in Hs.
  destruct (IH r (S t') _ Hs eq_refl) as (n' & c' & o & Hn & Hc' & Hp & He). exists n', c', o. split; [lia|done].
Qed.

(** A scheduler that begins one thread only. *)
Lemma one_thread scheduler s i n :
  calls s = [] → (∀ n, scheduler (S n) = Turn i) → (length (calls (after clock srv scheduler s n)) ≤ 1)%nat.
Proof.
  intros Hs Ht. induction n as [|n IH]; [simpl; rewrite Hs; simpl; lia|]. cbn [after]. destruct n as [|n].
  - simpl. destruct (scheduler 0%nat) as [j|i']; simpl; rewrite Hs; simpl; [lia|]. rewrite Hs. simpl. lia.
  - rewrite Ht. cbn [step]. destruct (_ !! i) as [c|]; [|done]. destruct (advance c _). cbn [calls].
    by rewrite length_insert.
Qed.

(** Once ended, it stays as it is. *)
Lemma ended_stays scheduler s n m i c o :
  calls (after clock srv scheduler s n) !! i = Some c → ended c o → (n ≤ m)%nat →
  calls (after clock srv scheduler s m) !! i = Some c.
Proof.
  intros Hi He. induction 1 as [|m _ IH]; [done|]. cbn [after].
  destruct (scheduler m) as [j|i'] eqn:Hm; [by apply step_other|].
  destruct (decide (i' = i)) as [->|Hne]; [|apply step_other; congruence].
  rewrite (step_turn _ i c IH). unfold advance. by rewrite He.
Qed.
End Pool.

Section Threads.
Context {SV G J : Type} {JO : JsonOps J} {JL : JsonLaws J} {JP : JsonPrints J} {RG : Rng G} {RL : RngLaws G}
  {LM : Libm} {DG : Digest} {RS : Resolver} (clock : nat → Z)
  (srv : IPGeoHTTPServer.t SV J) (I : SV → Prop) (truth : bool → string → exec (verdict (J := J))).
Hypothesis dump_safe : ∀ j : J, safe (json_dump j).
Hypothesis parse_safe : ∀ s, safe (json_parse s : exec J).
Hypothesis Htruth : truthful srv truth I.
Notation P := (server_ok (G := G) srv I).

Lemma truthful_fits : fits srv I.
Proof.
  split; intros h Hh.
  - exists (truth false), (well_formed false). split; [by apply (Htruth false)|done].
  - exists (truth true), (well_formed true). split; [by apply (Htruth true)|done].
Qed.

Lemma ticks_later n (w : world SV G) : ticks (Nat.iter n tick w) = (ticks w + n)%nat.
Proof. induction n as [|n IH]; [simpl; lia|]. simpl. rewrite IH. lia. Qed.

Lemma limiter_later n (w : world SV G) : limiter (Nat.iter n tick w) = limiter w.
Proof. by induction n. Qed.

Lemma later_ok n w : P w → P (Nat.iter n tick w).
Proof. intros Hw. by induction n. Qed.

(** A sweep finds a limiter that is in order, and leaves one. *)
Lemma sweep_returns order : stable P (sweep clock srv order) (λ o, o = Ret tt).
Proof.
  unfold sweep. destruct (IPGeoHTTPServer.enable_rate_limiter_ srv) eqn:He; [|done]. intros w Hw. unfold sweep_step.
  set (n := match limiter w with Some _ => _ | None => _ end).
  set (now_at := λ ip, clock (ticks w + Nat.min (order ip) n)%nat).
  destruct (holds_limiter srv I (λ rl, rl' ← RateLimiter.cleanup rl now_at; Ret (tt, rl')) (Nat.iter n tick w) He)
    as ([] & w' & -> & Hw'); [|by apply later_ok|done].
  intros rl Hwf. destruct (RateLimiter.cleanup_ok rl now_at Hwf) as (m & l & -> & Hwf' & _). by do 2 eexists.
Qed.

(** The headers of every answer leave its status open. *)
Lemma wp_cors (h : handler SV G unit) (Q : exec unit → Response → Prop) :
  (∀ r, sent_status r = 200 → wp P h Q r) → wp P (IPGeoHTTPServer.setup_cors;; h) Q fresh_response.
Proof. intros Hh. unfold IPGeoHTTPServer.setup_cors. apply wp_bind. do 2 apply wp_bind, wp_response. apply wp_response. by apply Hh. Qed.

(** Requests for anything else are not handled. *)
Lemma no_route {AS : Async} method path req :
  method ≠ "OPTIONS" →
  (∀ m p, (m, p) ∈ [("GET", "/"); ("GET", "/health"); ("GET", "/lookup"); ("POST", "/lookup");
                    ("GET", "/password/generate"); ("POST", "/password/generate")] → (method, path) ≠ (m, p)) →
  IPGeoHTTPServer.dispatch clock srv method path req = (None : option (handler SV G unit)).
Proof.
  intros Hoptions Hroutes. unfold IPGeoHTTPServer.dispatch. rewrite (proj2 (String.eqb_neq _ _)) by done.
  destruct (List.find _ _) as [[[m p] h]|] eqn:Hfind; [|done]. exfalso.
  apply find_some in Hfind as [Hin [Hm Hp]%andb_true_iff]. simpl in Hm, Hp. apply String.eqb_eq in Hm, Hp. subst m p.
  apply (Hroutes method path); [|done]. apply (in_map fst), list_elem_of_In in Hin. exact Hin.
Qed.

Lemma program_post j :
  wp P (program clock srv j) (λ o r, safe o ∧ answer_of srv truth j o r) fresh_response.
Proof.
  apply wp_and.
  - eapply (wp_mono P _ (λ o _, returns (λ _, True) o)); [by intros []|]. destruct j as [order method path req|order]; simpl.
    + destruct (IPGeoHTTPServer.dispatch clock srv method path req) as [h|] eqn:Hd; [|done].
      by eapply keeps_dispatch; [apply dump_safe|apply parse_safe|apply truthful_fits|].
    + apply wp_shared. eapply stable_mono; [|apply sweep_returns]. by intros ? ->.
  - destruct j as [order method path req|order]; [|apply wp_shared, sweep_returns]. unfold answer_of.
    destruct (decide (method = "OPTIONS")) as [->|Hoptions].
    { change (program clock srv (Serve order "OPTIONS" path req)) with (IPGeoHTTPServer.setup_cors (SV := SV) (G := G)).
      unfold IPGeoHTTPServer.setup_cors. do 2 apply wp_bind, wp_response. by apply wp_response. }
    repeat (destruct (decide (_ = _)) as [[= -> ->]|?];
      [apply wp_cors; intros r Hr|]); [by apply wp_root|by apply wp_health|by apply (wp_get clock srv I truth)|
       by apply (wp_post clock srv I truth)|by apply wp_password_get|by apply wp_password_post|].
    unfold program. rewrite no_route; [done|done|]. intros m p Hin. set_unfold. naive_solver.
Qed.
End Threads.

(** ** Properties *)

(** C3: any number of requests and sweeps of the cleanup thread, interleaved
    step by step in any way: the server stays in order, no thread has
    undefined behaviour or fails to end, and every request that has ended, on
    whatever route, got the answer it is due, whatever the other threads did.
    A lookup was refused by the gate for the reason its status names, or
    answered with the text of what the service answers without its cache (a
    batch: to each query, in order); a request for passwords got good ones of
    the configuration it asked for, or the error prescribed; the other end
    points answered with their reports. *)
Theorem concurrent_answers_exact {SV G J} `{JL : JsonLaws J} {JP : JsonPrints J} `{RL : RngLaws G}
    {LM : Libm} {DG : Digest} {RS : Resolver} (clock : nat → Z)
    (srv : IPGeoHTTPServer.t SV J) (I : SV → Prop) truth (w0 : world SV G) (es : list event) :
  (∀ j : J, safe (json_dump j)) → (∀ s, safe (json_parse s : exec J)) → truthful srv truth I →
  server_ok srv I w0 →
  let s := execute clock srv es (idle w0) in
  server_ok srv I (world_ s) ∧
  ∀ c o, c ∈ calls s → ended c o → safe o ∧ answer_of srv truth (purpose c) o (response c).
Proof.
  intros Hd Hp Ht Hok s. assert (Hs : in_order (server_ok srv I) (λ j o r, safe o ∧ answer_of srv truth j o r) s).
  { apply execute_in_order; [|by split; [|constructor]]. intros j. by apply program_post. }
  split; [apply Hs|]. intros c o Hc He. exact (ended_post _ _ s c o Hs Hc He).
Qed.

(** C2: under every fair scheduler (one that never passes over a thread for
    ever) every request that arrives is answered: its thread comes to an end,
    its answer is the one that is due and is never changed again.  This needs
    no bound on what the other threads do, nor on how many there are. *)
Theorem every_request_is_answered {SV G J} `{JL : JsonLaws J} {JP : JsonPrints J} `{RL : RngLaws G}
    {LM : Libm} {DG : Digest} {RS : Resolver} (clock : nat → Z)
    (srv : IPGeoHTTPServer.t SV J) (I : SV → Prop) truth (w0 : world SV G) scheduler n i c :
  (∀ j : J, safe (json_dump j)) → (∀ s, safe (json_parse s : exec J)) → truthful srv truth I →
  server_ok srv I w0 → fair clock srv scheduler (idle w0) →
  calls (after clock srv scheduler (idle w0) n) !! i = Some c →
  ∃ n' c' o, purpose c' = purpose c ∧ ended c' o ∧ safe o ∧ answer_of srv truth (purpose c) o (response c') ∧
    ∀ m, (n' ≤ m)%nat → calls (after clock srv scheduler (idle w0) m) !! i = Some c'.
Proof.
  intros Hd Hp Ht Hok Hfair Hi.
  destruct (thread_ends clock srv scheduler (idle w0) (rest c) n i c Hfair Hi eq_refl)
    as (n' & c' & o & _ & Hc' & Hpc & He).
  assert (Hs : in_order (server_ok srv I) (λ j o r, safe o ∧ answer_of srv truth j o r)
    (after clock srv scheduler (idle w0) n')).
  { apply after_in_order; [|by split; [|constructor]]. intros j. by apply program_post. }
  destruct (ended_post _ _ _ c' o Hs) as [Hsafe Hans]; [by eapply list_elem_of_lookup_2|done|]. cbv beta in Hans.
  exists n', c', o. rewrite <-Hpc. split_and!; [done..|]. intros m Hm. by eapply ended_stays.
Qed.

(** ** Witnesses *)

(** The sample server keeps what it promises. *)
Lemma sample_truthful dump parse :
  truthful (JO := Tree.ops dump parse) (RS := sample_resolver) Sample.server (λ _, Sample.echo_truth) (λ _, True).
Proof. intros [] h [= <-]. intros c key now Hc _. by apply echo_serves. Qed.

Lemma sample_server_ok : server_ok Sample.server (λ _, True) (Sample.world_with 1).
Proof.
  split; [done|]. split; [apply Metrics.create_metrics_ok|]. intros _. eexists. split; [done|].
  apply RateLimiter.wf_create. unfold is_i32. lia.
Qed.

(** Two requests of one client and a sweep, in turn; the limiter admits one. *)
Definition sample_events : list event :=
  [Begin (Serve Sample.zigzag "GET" "/lookup" (Sample.request "Bearer secret" "8.8.8.8"));
   Begin (Serve Sample.zigzag "GET" "/lookup" (Sample.request "Bearer secret" "8.8.8.8"));
   Begin (Sweep (λ _, 0%nat))] ++ concat (replicate 12 [Turn 0; Turn 1; Turn 2]).

#[local] Notation sample_execution :=
  (execute (JO := Tree.ops (λ _, Ret "{}") (λ _, Ret Tree.Null)) (RG := zero_rng) (LM := sample_libm) (DG := sample_digest) (RS := sample_resolver)
    (λ n, Z.of_nat n) Sample.server sample_events (idle (Sample.world_with 1))).

Lemma concurrent_answers_exact_witness :
  ∃ c0 c1 c2, calls sample_execution = [c0; c1; c2] ∧
    content (response c0) = "{}" ∧ sent_status (response c1) = 429 ∧
    refusal (DG := sample_digest) Sample.server (Sample.request "Bearer secret" "8.8.8.8") 429.
Proof.
  assert (RL : @RngLaws unit zero_rng) by (split; simpl; [lia|done]).
  assert (∃ c0 c1 c2, calls sample_execution = [c0; c1; c2] ∧ content (response c0) = "{}" ∧
    ended c1 (Ret tt) ∧ sent_status (response c1) = 429 ∧
    purpose c1 = Serve Sample.zigzag "GET" "/lookup" (Sample.request "Bearer secret" "8.8.8.8"))
    as (c0 & c1 & c2 & Hc & H0 & H1 & H2 & H3) by (do 3 eexists; split; [vm_compute; reflexivity|split_and!; reflexivity]).
  exists c0, c1, c2. split_and!; [exact Hc|exact H0|exact H2|].
  destruct (concurrent_answers_exact (JL := tree_laws (λ _, Ret "{}") (λ _, Ret Tree.Null)) (JP := tree_prints "{}" _)
    (RL := RL) (LM := sample_libm) (DG := sample_digest) (RS := sample_resolver)
    (λ n, Z.of_nat n) Sample.server (λ _, True) (λ _, Sample.echo_truth) (Sample.world_with 1) sample_events)
    as [_ Hall].
  - done.
  - done.
  - apply sample_truthful.
  - apply sample_server_ok.
  - assert (Hin : c1 ∈ calls sample_execution) by (rewrite Hc; by right; left).
    destruct (Hall c1 (Ret tt) Hin H1) as [_ Hans].
    rewrite H3 in Hans. destruct Hans as [[_ Hr]|[_ Hg]]; [by rewrite H2 in Hr|].
    exfalso. destruct Hg as [_ Hg]. destruct Hg as (data & Hd & _ & _ & Hs); [reflexivity|]. congruence.
Defined.

(** One request, then nothing but turns of its thread. *)
Definition one_request (n : nat) : event :=
  match n with
  | O => Begin (Serve Sample.zigzag "GET" "/lookup" (Sample.request "Bearer secret" "8.8.8.8"))
  | S _ => Turn 0
  end.

Lemma every_request_is_answered_witness :
  ∃ n c, calls (after (JO := Tree.ops (λ _, Ret "{}") (λ _, Ret Tree.Null)) (RG := zero_rng) (LM := sample_libm) (DG := sample_digest)
      (RS := sample_resolver) (λ n, Z.of_nat n) Sample.server one_request
      (idle (Sample.world_with 1)) n) !! 0%nat = Some c ∧ ∃ o, ended c o.
Proof.
  assert (RL : @RngLaws unit zero_rng) by (split; simpl; [lia|done]).
  destruct (every_request_is_answered (JL := tree_laws (λ _, Ret "{}") (λ _, Ret Tree.Null)) (JP := tree_prints "{}" _)
    (RL := RL) (LM := sample_libm) (DG := sample_digest) (RS := sample_resolver)
    (λ n, Z.of_nat n) Sample.server (λ _, True) (λ _, Sample.echo_truth) (Sample.world_with 1) one_request 1 0
    (begin (JO := Tree.ops (λ _, Ret "{}") (λ _, Ret Tree.Null)) (RG := zero_rng) (LM := sample_libm) (DG := sample_digest)
      (RS := sample_resolver) (λ n, Z.of_nat n) Sample.server
      (Serve Sample.zigzag "GET" "/lookup" (Sample.request "Bearer secret" "8.8.8.8"))))
    as (n' & c' & o & _ & He & _ & _ & Hstay).
  - done.
  - done.
  - apply sample_truthful.
  - apply sample_server_ok.
  - intros n i Hi. exists (S n). split; [lia|].
    pose proof (Nat.lt_le_trans _ _ _ Hi (one_thread _ _ one_request (idle (Sample.world_with 1)) 0 n eq_refl (λ _, eq_refl))).
    assert (i = 0%nat) as -> by lia. reflexivity.
  - reflexivity.
  - exists n', c'. split; [by apply Hstay|by exists o].
Defined.
