(* ===== verification/Quota.v ===== *)
(** * The quota of one client, under load

    What the rate limiter means to a client of the whole server: however the
    requests of all clients and the sweeps of the cleanup thread are
    interleaved, no more than [max_requests] of the lookups that one address
    begins within a window get past the gate.  The proof follows what each
    step of each thread does to the record of that address ([later]), and what
    a thread must have done before it is let through ([pays]). *)
From Stdlib Require Import ZArith Lia Ascii String.
From S2P Require Import Prelude Program StdList Double Json CppString RateLimiter Cache Validation Auth Metrics PasswordGenerator Config Services Http PasswordHandler HttpServer Requests Answers Concurrent.
#[local] Open Scope Z_scope.

(** The thread is for a lookup by the client. *)
Definition asks (ip : string) (j : job) : bool :=
  match j with
  | Serve _ method path req =>
      String.eqb path "/lookup" && (String.eqb method "GET" || String.eqb method "POST") &&
      String.eqb (IPGeoHTTPServer.get_real_client_ip req) ip
  | Sweep _ => false
  end.

(** The lookup was let through: it has ended, with anything but a refusal of
    the gate. *)
Definition let_through {SV G} (ip : string) (c : call SV G) : bool :=
  asks ip (purpose c) &&
  match rest c with
  | Done (Ret _) => bool_decide (sent_status (response c) ∉ [400; 401; 429])
  | Done _ => true
  | Act _ _ => false
  end.

(** The clients of the requests are in the set. *)
Definition from (universe : gset string) (e : event) : Prop :=
  match e with
  | Begin (Serve _ _ _ req) => IPGeoHTTPServer.get_real_client_ip req ∈ universe
  | _ => True
  end.

(** Counted are the admission times from [t0] on. *)
Definition since (t0 : Z) (ts : list Z) : nat := length (filter (λ t, t0 ≤ t) ts).

(** ** Lemmas *)
Lemma since_app t0 ts ts' : since t0 (ts ++ ts') = (since t0 ts + since t0 ts')%nat.
Proof. unfold since. by rewrite filter_app, length_app. Qed.

(** What expires within a window of [t0] had been admitted before it. *)
Lemma since_drop t0 t window ts : t ≤ t0 + window → since t0 (drop_expired t window ts) = since t0 ts.
Proof.
  intros Ht. destruct (drop_expired_split t window ts) as (d & Hd & Hold). rewrite Hd at 2. rewrite since_app.
  assert (since t0 d = 0%nat) as ->; [|done]. clear Hd. unfold since.
  induction Hold as [|x d Hx _ IH]; [done|]. rewrite filter_cons_False by lia. exact IH.
Qed.

Section Limiter.
Context {SV G : Type} (clock : nat → Z) (universe : gset string) (max window cap t0 : Z) (ip : string).
Hypothesis Hclock : ∀ n m, (n ≤ m)%nat → clock n ≤ clock m.
Hypothesis Hroom : Z.of_nat (base.size universe) ≤ cap.
Implicit Type w : world SV G.

(** A limiter in use that serves these clients. *)
Definition in_use w : Prop :=
  ∃ rl, limiter w = Some rl ∧ RateLimiter.wf rl ∧ RateLimiter.max_requests_ rl = max ∧ RateLimiter.window_ rl = window ∧
    RateLimiter.max_ip_records_ rl = cap ∧ dom (RateLimiter.ip_records_ rl) ⊆ universe.

(** How many admissions of the client since [t0] are on record. *)
Definition used w : nat :=
  match limiter w with Some rl => since t0 (RateLimiter.admitted rl ip) | None => 0%nat end.

(** A time at which nothing since [t0] has expired. *)
Definition timely w : Prop := clock (ticks w) ≤ t0 + seconds window.

(** From one moment to a later one, no admission since [t0] is forgotten. *)
Definition later w w' : Prop :=
  in_use w → in_use w' ∧ (ticks w ≤ ticks w')%nat ∧ (timely w' → (used w ≤ used w')%nat).

(** An admission of the client is put on record. *)
Definition pays w w' : Prop := timely w' → (used w < used w')%nat.

Lemma timely_before w w' : (ticks w ≤ ticks w')%nat → timely w' → timely w.
Proof. clear Hroom. unfold timely. intros Ht Hw. specialize (Hclock _ _ Ht). lia. Qed.

Lemma later_refl w : later w w.
Proof. by split. Qed.

Lemma later_trans w1 w2 w3 : later w1 w2 → later w2 w3 → later w1 w3.
Proof.
  intros H12 H23 H1. destruct (H12 H1) as (H2 & Ht & Hu). destruct (H23 H2) as (H3 & Ht' & Hu').
  split_and!; [done|lia|]. intros Hl. specialize (Hu' Hl). specialize (Hu (timely_before _ _ Ht' Hl)). lia.
Qed.

Lemma later_paid w1 w2 w3 : in_use w2 → pays w1 w2 → later w2 w3 → pays w1 w3.
Proof.
  intros H2 Hp H23 Hl. destruct (H23 H2) as (_ & Ht & Hu). specialize (Hu Hl).
  specialize (Hp (timely_before _ _ Ht Hl)). lia.
Qed.

(** Most steps leave the limiter alone. *)
Lemma later_quiet w w' : limiter w' = limiter w → (ticks w ≤ ticks w')%nat → later w w'.
Proof. intros Hl Ht (rl & Hrl & Hin). unfold in_use, used. rewrite Hl. split_and!; [eauto|done|done]. Qed.

(** A call of the limiter trims the record of the client, and may extend it. *)
Lemma later_limiter {A} (f : RateLimiter.t → exec (A * RateLimiter.t)) w w1 :
  limiter w1 = limiter w → (ticks w ≤ ticks w1)%nat →
  (∀ rl, RateLimiter.wf rl → RateLimiter.window_ rl = window → RateLimiter.max_ip_records_ rl = cap →
     dom (RateLimiter.ip_records_ rl) ⊆ universe →
     ∃ a m l, let rl' := RateLimiter.with_records rl m l in
       f rl = Ret (a, rl') ∧ RateLimiter.wf rl' ∧ dom m ⊆ universe ∧
       (timely w1 → (since t0 (RateLimiter.admitted rl ip) ≤ since t0 (RateLimiter.admitted rl' ip))%nat)) →
  later w (IPGeoHTTPServer.with_rate_limiter f w1).2.
Proof.
  intros Hl Ht Hf (rl & Hrl & Hwf & Hmax & Hwin & Hcap & Hdom).
  destruct (Hf rl Hwf Hwin Hcap Hdom) as (a & m & l & Hfa & Hwf' & Hdom' & Hkept).
  unfold IPGeoHTTPServer.with_rate_limiter. rewrite Hl, Hrl. cbn [deref mbind exec_bind]. rewrite Hfa. cbn [snd].
  unfold timely, used. cbn [limiter with_limiter ticks]. rewrite Hrl. split_and!; [by eexists|done|exact Hkept].
Qed.

(** The three operations of the limiter. *)
Lemma later_allows client w :
  client ∈ universe →
  later w (IPGeoHTTPServer.with_rate_limiter
    (λ rl, RateLimiter.is_allowed rl client (clock (ticks w)) (clock (S (ticks w)))) (tick (tick w))).2.
Proof.
  intros Hin. apply later_limiter; [done|simpl; lia|]. intros rl Hwf Hwin Hcap Hdom.
  destruct (is_allowed_admitted rl client (clock (ticks w)) (clock (S (ticks w))) Hwf) as (m & l & Ha & Hwf' & Hm & Hip & Hne).
  { eapply room; [exact Hdom|lia|done]. }
  do 3 eexists. split_and!; [exact Ha|exact Hwf'|set_solver|]. intros Htime.
  destruct (decide (ip = client)) as [->|]; [|by rewrite Hne].
  rewrite Hip, Hwin, since_app, since_drop; [lia|]. unfold timely in Htime. cbn [ticks tick] in Htime.
  pose proof (Hclock (S (ticks w)) (S (S (ticks w))) ltac:(lia)). lia.
Qed.

Lemma later_remaining client w :
  later w (IPGeoHTTPServer.with_rate_limiter (λ rl, RateLimiter.get_remaining rl client (clock (ticks w))) (tick w)).2.
Proof.
  apply later_limiter; [done|simpl; lia|]. intros rl Hwf Hwin Hcap Hdom.
  destruct (get_remaining_ok rl client (clock (ticks w)) Hwf) as (rl' & Hr & Hwf' & Hrl'). subst rl'.
  do 3 eexists. split_and!; [exact Hr|exact Hwf'| |].
  - intros k. rewrite elem_of_dom, lookup_alter_is_Some, <-elem_of_dom. apply Hdom.
  - intros Htime. rewrite (get_remaining_admitted _ _ _ _ _ _ Hwf Hr), Hwin. case_decide; [|done].
    rewrite since_drop; [done|]. unfold timely in Htime. cbn [ticks tick] in Htime.
    pose proof (Hclock (ticks w) (S (ticks w)) ltac:(lia)). lia.
Qed.

Lemma later_cleanup now_at w w1 :
  limiter w1 = limiter w → (ticks w ≤ ticks w1)%nat → (∀ k, now_at k ≤ clock (ticks w1)) →
  later w (IPGeoHTTPServer.with_rate_limiter (λ rl, rl' ← RateLimiter.cleanup rl now_at; Ret (tt, rl')) w1).2.
Proof.
  intros Hl Ht Hnow. apply later_limiter; [done|done|]. intros rl Hwf Hwin Hcap Hdom.
  destruct (cleanup_ok rl now_at Hwf) as (m & l & Hc & Hwf' & Hm).
  exists tt, m, l. rewrite Hc. split_and!; [done|exact Hwf'| |].
  - intros k. rewrite elem_of_dom. intros [r Hk]. apply Hdom, elem_of_dom. rewrite Hm in Hk.
    by destruct (RateLimiter.ip_records_ rl !! k).
  - intros Htime. rewrite (cleanup_admitted _ _ ip _ Hwf Hc), Hwin, since_drop; [done|].
    unfold timely in Htime. specialize (Hnow ip). lia.
Qed.

(** An admission is paid with a time stamp. *)
Lemma allows_pays w :
  ip ∈ universe → in_use w → t0 ≤ clock (ticks w) →
  let '(r, w') := IPGeoHTTPServer.with_rate_limiter
    (λ rl, RateLimiter.is_allowed rl ip (clock (ticks w)) (clock (S (ticks w)))) (tick (tick w)) in
  r = Ret true → pays w w'.
Proof.
  intros Hip (rl & Hrl & Hwf & Hmax & Hwin & Hcap & Hdom) Hnow.
  destruct (is_allowed_admitted rl ip (clock (ticks w)) (clock (S (ticks w))) Hwf) as (m & l & Ha & Hwf' & Hm & Hadm & _).
  { eapply room; [exact Hdom|lia|done]. }
  unfold IPGeoHTTPServer.with_rate_limiter. cbn [limiter tick]. rewrite Hrl. cbn [deref mbind exec_bind]. rewrite Ha.
  intros [= Hok]. unfold pays, timely, used. cbn [limiter with_limiter ticks tick]. rewrite Hrl, Hadm, Hok. intros Htime.
  rewrite since_app, Hwin, since_drop.
  - unfold since at 3. rewrite filter_cons_True by done. simpl. lia.
  - pose proof (Hclock (S (ticks w)) (S (S (ticks w))) ltac:(lia)). lia.
Qed.
End Limiter.

(** ** Every step of the server *)
Create HintDb steps.

Section Steps.
Context {SV G J : Type} {JO : JsonOps J} {RG : Rng G} {LM : Libm} {DG : Digest} {RS : Resolver}
  (clock : nat → Z) (srv : IPGeoHTTPServer.t SV J) (universe : gset string) (max window cap t0 : Z) (ip : string).
Hypothesis Hclock : ∀ n m, (n ≤ m)%nat → clock n ≤ clock m.
Hypothesis Hroom : Z.of_nat (base.size universe) ≤ cap.
Import IPGeoHTTPServer.
Notation R := (later (SV := SV) (G := G) clock universe max window cap t0 ip).
Notation Rs := (λ s s' : world SV G * Response, R s.1 s'.1).

(** Actions that are not calls of the limiter. *)
Lemma steps_quiet {A} (f : M (world SV G) A) :
  (∀ w, limiter (f w).2 = limiter w ∧ (ticks w ≤ ticks (f w).2)%nat) → steps R (atomic f).
Proof. intros Hf w. destruct (Hf w) as [Hl Ht]. destruct (f w) as [r w']. split; [by apply later_quiet|done]. Qed.

Lemma steps_service {A} (f : Z → M SV A) : steps R (atomic (t ← read_clock clock; on_services (f t))).
Proof.
  apply steps_quiet. intros w. unfold on_services, zoom, read_clock, mbind, M_bind. cbn [services tick].
  destruct (f (clock (ticks w)) (services w)) as [r sv]. split; simpl; [done|lia].
Qed.

Lemma steps_engine {A} (f : G → exec (A * G)) : steps R (with_engine f).
Proof. apply steps_quiet. intros w. by destruct (f (gen w)) as [[a g]|e| |]. Qed.

Lemma steps_now : steps R (now clock).
Proof. apply steps_quiet. intros w. split; simpl; [done|lia]. Qed.

Lemma steps_record latency : steps R (record_request clock latency).
Proof. apply steps_bind; [by apply steps_quiet|]. intros _. apply steps_quiet. intros w. split; simpl; [done|lia]. Qed.

Lemma steps_world : steps R (atomic get_world).
Proof. by apply steps_quiet. Qed.

Lemma steps_error : steps R (record_error : thread SV G unit).
Proof. by apply steps_quiet. Qed.

Lemma steps_allows client : client ∈ universe → steps R (limiter_allows clock client).
Proof.
  intros Hc w. pose proof (later_allows clock universe max window cap t0 ip Hclock Hroom client w Hc) as Hl.
  cbv [mbind M_bind read_clock]. simpl ticks. by destruct (with_rate_limiter _ _).
Qed.

Lemma steps_remaining client : steps R (limiter_remaining clock client).
Proof.
  intros w. pose proof (later_remaining clock universe max window cap t0 ip Hclock client w) as Hl.
  cbv [mbind M_bind read_clock]. simpl ticks. by destruct (with_rate_limiter _ _).
Qed.

Lemma steps_response f : steps Rs (modify_response f).
Proof. intros s. split; [apply later_refl|done]. Qed.

#[local] Hint Resolve steps_response steps_now steps_record steps_world steps_error steps_engine steps_service
  steps_allows steps_remaining : steps.

(** One tactic for all handlers: down to the actions. *)
Ltac walk :=
  repeat first
    [ done
    | solve [auto with steps]
    | apply steps_shared
    | apply steps_bind; [|intros ?]
    | apply steps_attempt; [|intros ?]
    | progress cbv beta zeta
    | match goal with |- steps _ (match ?x with _ => _ end) => destruct x end ].

Lemma steps_json (j : J) : steps Rs (set_json j).
Proof. unfold set_json, set_content. walk. Qed.

Lemma steps_send_json (j : J) st : steps Rs (send_json_response j st).
Proof. unfold send_json_response, set_status, set_json, set_content. walk. Qed.

Lemma steps_send_error st error message : steps Rs (send_error_response (J := J) st error message).
Proof. unfold send_error_response, set_status, set_json, set_content. walk. Qed.
#[local] Hint Resolve steps_json steps_send_json steps_send_error : steps.

Lemma steps_prepare req : get_real_client_ip req ∈ universe → steps Rs (prepare_request clock srv req).
Proof. intros Hip. unfold prepare_request, authenticate_request, send_error, set_header. walk. Qed.

Lemma steps_call h query : steps R (timed_lookup (J := J) clock h query).
Proof. unfold timed_lookup, call_handler. walk. Qed.
#[local] Hint Resolve steps_prepare steps_call : steps.

Lemma steps_get req : get_real_client_ip req ∈ universe → steps Rs (handle_lookup_get clock srv req).
Proof. intros Hip. unfold handle_lookup_get, set_status, send_error. walk. Qed.

Lemma steps_all {AS : Async} h qs : steps R (lookup_all (J := J) clock h qs).
Proof.
  assert (Heach : ∀ qs results, steps R (lookup_each (J := J) clock h qs results)).
  { induction qs0 as [|q qs' IH]; intros results; cbn [lookup_each]; walk. }
  unfold lookup_all, run_async, collect. walk. apply steps_gather; [|done|intros js r; walk].
  apply Forall_fmap, Forall_true. intros q. apply steps_call.
Qed.
#[local] Hint Resolve steps_all : steps.

Lemma steps_post {AS : Async} req : get_real_client_ip req ∈ universe → steps Rs (handle_lookup_post clock srv req).
Proof. intros Hip. unfold handle_lookup_post, lookup_batch, process_batch, send_error. walk. Qed.

Lemma steps_dispatch {AS : Async} method path req h :
  get_real_client_ip req ∈ universe → dispatch clock srv method path req = Some h → steps Rs h.
Proof.
  intros Hip. assert (Hcors : steps Rs setup_cors) by (unfold setup_cors, set_header; walk).
  unfold dispatch. destruct (String.eqb method "OPTIONS"); [by intros [= <-]|].
  destruct (List.find _ _) as [[[m p] handler]|] eqn:Hfind; [|done].
  intros Hh. assert (h = (setup_cors;; handler req)) as -> by congruence.
  apply steps_bind; [exact Hcors|]. intros _. apply find_some in Hfind as [Hin _].
  unfold setup_routes in Hin. simpl in Hin.
  destruct Hin as [Hin|[Hin|[Hin|[Hin|[Hin|[Hin|[]]]]]]]; injection Hin as _ _ <-.
  - unfold handle_root. walk.
  - unfold handle_health, metrics_stats. walk.
  - by apply steps_get.
  - by apply steps_post.
  - unfold handle_get. walk.
  - unfold handle_post. walk.
Qed.

Lemma steps_sweep order : steps R (sweep clock srv order).
Proof.
  unfold sweep. destruct (enable_rate_limiter_ srv); [|done]. intros w. unfold sweep_step.
  set (n := match limiter w with Some _ => _ | None => _ end).
  pose proof (later_cleanup clock universe max window cap t0 ip (λ k, clock (ticks w + Nat.min (order k) n)%nat)
    w (Nat.iter n tick w)) as Hl.
  destruct (with_rate_limiter _ _) as [r w']. split; [|done]. apply Hl.
  - apply limiter_later.
  - rewrite ticks_later. lia.
  - intros k. rewrite ticks_later. apply Hclock. lia.
Qed.

(** Every thread, whatever it is for. *)
Lemma steps_program j : from universe (Begin j) → steps Rs (program clock srv j).
Proof.
  destruct j as [order method path req|order]; intros Hj; simpl.
  - destruct (dispatch clock srv method path req) eqn:Hd; [|done]. by eapply steps_dispatch.
  - apply steps_shared, steps_sweep.
Qed.
End Steps.

(** ** What a lookup has done when it ends *)
Section Gate.
Context {SV G J : Type} `{JL : JsonLaws J} `{JP : !JsonPrints J} {RG : Rng G} {LM : Libm} {DG : Digest} {RS : Resolver}
  (clock : nat → Z) (srv : IPGeoHTTPServer.t SV J) (I : SV → Prop)
  (universe : gset string) (max window cap t0 : Z).
Hypothesis Hclock : ∀ n m, (n ≤ m)%nat → clock n ≤ clock m.
Hypothesis Hroom : Z.of_nat (base.size universe) ≤ cap.
Hypothesis Hlimited : IPGeoHTTPServer.enable_rate_limiter_ srv = true.
Import IPGeoHTTPServer.

(** The server, from [t0] on. *)
Definition on_duty (w : world SV G) : Prop :=
  server_ok srv I w ∧ in_use universe max window cap w ∧ t0 ≤ clock (ticks w).

Definition refused {A} (x : A) (o : exec A) (r : Response) : Prop :=
  o = Ret x ∧ sent_status r ∈ [400; 401; 429].

Lemma refusal_status req st : refusal srv req st → st ∈ [400; 401; 429].
Proof. intros [(-> & _)|[(-> & _)|(-> & _)]]; set_solver. Qed.

Lemma owes_prepare req r :
  get_real_client_ip req ∈ universe →
  owes on_duty (pays clock window t0 (get_real_client_ip req)) (refused None) (prepare_request clock srv req) r.
Proof.
  intros Hip. unfold prepare_request. apply owes_bind.
  eapply (owes_mono (server_ok srv I)); [by intros w []| |apply owes_wp, (wp_authenticate srv I)].
  intros ? r' [(-> & -> & _)|[-> Hno]]; cbn [negb]; [|split; [done|by eapply refusal_status]].
  destruct (is_empty (get_real_client_ip req)).
  { apply owes_wp, wp_bind, wp_send_error; [solve_ascii..|]. intros text. split; [done|]. unfold sent_status. simpl. set_solver. }
  rewrite Hlimited. apply owes_bind. intros w (Hok & Huse & Htime).
  pose proof (allows_returns clock srv I (get_real_client_ip req) Hlimited w Hok) as Hret.
  pose proof (allows_pays clock universe max window cap t0 _ Hclock Hroom w Hip Huse Htime) as Hpay.
  revert Hret Hpay. unfold limiter_allows, atomic. cbv [mbind M_bind read_clock]. simpl ticks. cbn [fst snd].
  destruct (with_rate_limiter _ _) as [ok w']. intros [_ [allowed ->]] Hpay.
  destruct allowed; [left; by apply Hpay|right]. cbn [shared owes negb].
  apply (owes_mono (server_ok srv I) _ _ (refused None)); [by intros ? []|done|]. apply owes_wp.
  eapply wp_mono; [|by apply (wp_limited clock srv I)]. intros ? r' [-> Hst]. split; [done|]. rewrite Hst. set_solver.
Qed.

(** A handler behind the gate. *)
Lemma owes_gated req r (k : option string → handler SV G unit) :
  get_real_client_ip req ∈ universe → k None = mret tt →
  owes on_duty (pays clock window t0 (get_real_client_ip req)) (refused tt)
    (client_ip ← prepare_request clock srv req; k client_ip) r.
Proof.
  intros Hip Hk. apply owes_bind. eapply owes_mono; [done| |by apply owes_prepare].
  intros o r' [-> Hst]. rewrite Hk. by split.
Qed.

Lemma owes_cors (h : handler SV G unit) pay (free : exec unit → Response → Prop) r :
  (∀ r', owes on_duty pay free h r') → owes on_duty pay free (setup_cors;; h) r.
Proof. intros Hh w _. right. intros w1 _. right. intros w2 _. right. apply Hh. Qed.

(** A lookup pays for its way through the gate. *)
Lemma owes_lookup order method req r :
  method = "GET" ∨ method = "POST" → get_real_client_ip req ∈ universe →
  owes on_duty (pays clock window t0 (get_real_client_ip req)) (refused tt)
    (program clock srv (Serve order method "/lookup" req)) r.
Proof.
  intros Hm Hip. assert (program clock srv (Serve order method "/lookup" req) =
    (setup_cors;; if String.eqb method "GET" then handle_lookup_get clock srv req else handle_lookup_post clock srv req))
    as -> by by destruct Hm as [-> | ->].
  apply owes_cors. intros r'. destruct (String.eqb method "GET"); by apply owes_gated.
Qed.
End Gate.

(** ** Counting *)
Definition paid (fs : list bool) : nat := length (filter (λ b, b = true) fs).

Lemma paid_cons b fs : paid (b :: fs) = (Nat.b2n b + paid fs)%nat.
Proof. unfold paid. rewrite filter_cons. by destruct b. Qed.

Lemma paid_insert fs i : (paid (<[i := true]> fs) ≤ S (paid fs))%nat.
Proof.
  revert i. induction fs as [|b fs IH]; intros [|i]; simpl; [unfold paid; simpl; lia..| |].
  - rewrite !paid_cons. simpl. lia.
  - rewrite !paid_cons. specialize (IH i). lia.
Qed.

Lemma paid_snoc fs : paid (fs ++ [false]) = paid fs.
Proof. unfold paid. rewrite filter_app, length_app. simpl. lia. Qed.

Lemma paid_bound {A} (f : A → bool) l fs :
  Forall2 (λ a b, f a = true → b = true) l fs → (length (filter (λ a, f a = true) l) ≤ paid fs)%nat.
Proof.
  induction 1 as [|a b l fs Hab _ IH]; [done|]. rewrite filter_cons, paid_cons.
  destruct (decide (f a = true)) as [Ha|]; [rewrite (Hab Ha)|]; simpl; lia.
Qed.

Section Tally.
Context {SV G J : Type} {JO : JsonOps J} {JL : JsonLaws J} {JP : JsonPrints J} {RG : Rng G} {RL : RngLaws G}
  {LM : Libm} {DG : Digest} {RS : Resolver} (clock : nat → Z)
  (srv : IPGeoHTTPServer.t SV J) (I : SV → Prop) (truth : bool → string → exec (verdict (J := J)))
  (universe : gset string) (max window cap t0 : Z) (ip : string).
Hypothesis dump_safe : ∀ j : J, safe (json_dump j).
Hypothesis parse_safe : ∀ s, safe (json_parse s : exec J).
Hypothesis Htruth : truthful srv truth I.
Hypothesis Hclock : ∀ n m, (n ≤ m)%nat → clock n ≤ clock m.
Hypothesis Hroom : Z.of_nat (base.size universe) ≤ cap.
Hypothesis Hlimited : IPGeoHTTPServer.enable_rate_limiter_ srv = true.
Notation R := (later (SV := SV) (G := G) clock universe max window cap t0 ip).
Notation Rs := (λ p p' : world SV G * Response, R p.1 p'.1).
Notation in_use := (in_use (SV := SV) (G := G) universe max window cap).
Notation owing := (owes (on_duty clock srv I universe max window cap t0) (pays clock window t0 ip) (refused tt)).
Implicit Type s : state SV G.

(** Every thread keeps to [later]. *)
Definition walking s : Prop :=
  in_order (server_ok srv I) (λ j o r, safe o ∧ answer_of srv truth j o r) s ∧ in_use (world_ s) ∧
  Forall (λ c, steps Rs (rest c)) (calls s).

Lemma advance_later c (w : world SV G) :
  steps Rs (rest c) →
  R w (advance c w).2 ∧ steps Rs (rest (advance c w).1).
Proof.
  unfold advance. destruct (rest c) as [o|B f k] eqn:Hrest; intros Hs; simpl; [rewrite Hrest; split; [apply later_refl|done]|].
  specialize (Hs (w, response c)). by destruct (f (w, response c)) as [r [w' res]].
Qed.

Lemma step_walking s e :
  from universe e → walking s → walking (step clock srv s e) ∧ R (world_ s) (world_ (step clock srv s e)).
Proof.
  intros Hfrom (Ho & Huse & Hall).
  assert (Ho' := step_in_order clock srv _ _ (program_post clock srv I truth dump_safe parse_safe Htruth) s e Ho).
  destruct e as [j|i]; simpl in *.
  - split; [|apply later_refl]. split_and!; [done|done|]. apply Forall_app. split; [done|].
    apply Forall_singleton. by apply steps_program.
  - destruct (calls s !! i) as [c|] eqn:Hi; [|split; [done|apply later_refl]].
    destruct (advance_later c (world_ s)) as [Hl Hs]; [exact (Forall_lookup_1 _ _ _ _ Hall Hi)|].
    destruct (advance c (world_ s)) as [c' w']. simpl in *. split; [|done].
    split_and!; [done|by apply Hl|by apply Forall_insert].
Qed.

Lemma execute_walking es s :
  Forall (from universe) es → walking s →
  walking (execute clock srv es s) ∧ R (world_ s) (world_ (execute clock srv es s)).
Proof.
  intros Hes. revert s. induction Hes as [|e es He _ IH]; intros s Hs; [split; [done|apply later_refl]|].
  destruct (step_walking s e He Hs) as [Hs' Hl]. destruct (IH _ Hs') as [Hs2 Hl2].
  split; [exact Hs2|]. by eapply later_trans.
Qed.

(** The threads begun after the first [n0], and which of them have paid. *)
Definition tally (n0 : nat) s : Prop :=
  (n0 ≤ length (calls s))%nat ∧ t0 ≤ clock (ticks (world_ s)) ∧
  ∃ fs, Forall2 (λ c b, asks ip (purpose c) = true → b = true ∨ owing (rest c) (response c)) (drop n0 (calls s)) fs ∧
    (timely clock window t0 (world_ s) → (paid fs ≤ used t0 ip (world_ s))%nat).

Lemma advance_owes c (w : world SV G) :
  on_duty clock srv I universe max window cap t0 w → owing (rest c) (response c) →
  pays clock window t0 ip w (advance c w).2 ∨ owing (rest (advance c w).1) (response (advance c w).1).
Proof.
  unfold advance. destruct (rest c) as [o|B f k] eqn:Hrest; intros Hw Ho; simpl; [rewrite Hrest; by right|].
  specialize (Ho w Hw). by destruct (f (w, response c)) as [r [w' res]].
Qed.

Lemma advance_purpose c (w : world SV G) : purpose (advance c w).1 = purpose c.
Proof. unfold advance. destruct (rest c) as [|B f k]; [done|]. by destruct (f (w, response c)) as [r [w' res]]. Qed.

(** One step of a thread that is counted. *)
Lemma pay_up c b fs i (w : world SV G) :
  on_duty clock srv I universe max window cap t0 w → fs !! i = Some b →
  (asks ip (purpose c) = true → b = true ∨ owing (rest c) (response c)) →
  R w (advance c w).2 → (timely clock window t0 w → (paid fs ≤ used t0 ip w)%nat) →
  ∃ b', (asks ip (purpose (advance c w).1) = true → b' = true ∨ owing (rest (advance c w).1) (response (advance c w).1)) ∧
    (timely clock window t0 (advance c w).2 → (paid (<[i := b']> fs) ≤ used t0 ip (advance c w).2)%nat).
Proof.
  intros Hw Hi Hc Hl Hle. destruct Hl as (_ & Ht & Hu); [apply Hw|]. rewrite advance_purpose.
  assert (Hsame : timely clock window t0 (advance c w).2 → (paid (<[i := b]> fs) ≤ used t0 ip (advance c w).2)%nat).
  { intros Htime. rewrite list_insert_id by done. specialize (Hu Htime).
    specialize (Hle (timely_before clock window t0 Hclock _ _ Ht Htime)). lia. }
  destruct (asks ip (purpose c)); [|by exists b].
  destruct (Hc eq_refl) as [->|Ho]; [by exists true; split; [left|]|].
  destruct (advance_owes c w Hw Ho) as [Hp|Ho']; [|exists b; split; [by right|done]].
  exists true. split; [by left|]. intros Htime. specialize (Hp Htime).
  specialize (Hle (timely_before clock window t0 Hclock _ _ Ht Htime)). pose proof (paid_insert fs i). lia.
Qed.

Lemma step_tally n0 s e : from universe e → walking s → tally n0 s → tally n0 (step clock srv s e).
Proof.
  intros Hfrom Hs (Hn0 & Htime & fs & Hfs & Hle). pose proof (step_walking s e Hfrom Hs) as [_ Hlater].
  destruct Hs as (Ho & Huse & Hall). unfold tally. destruct e as [j|i]; simpl in *.
  - split_and!; [rewrite length_app; lia|done|]. exists (fs ++ [false]). rewrite drop_app_le, paid_snoc by done.
    split; [|done]. apply Forall2_app; [done|]. constructor; [|constructor]. intros Hj. right.
    destruct j as [order method path req|]; [|done]. cbn [asks purpose begin] in Hj.
    apply andb_true_iff in Hj as [[->%String.eqb_eq Hm]%andb_true_iff Hip%String.eqb_eq].
    rewrite <-Hip. apply owes_lookup; [done..| |done].
    apply orb_true_iff in Hm as [Hm|Hm]; apply String.eqb_eq in Hm; auto.
  - destruct (calls s !! i) as [c|] eqn:Hi; [|by split; [|split; [|exists fs]]].
    assert (Hduty : on_duty clock srv I universe max window cap t0 (world_ s)) by (split; [apply Ho|done]).
    assert (Hl : R (world_ s) (advance c (world_ s)).2) by by destruct (advance c (world_ s)).
    destruct (Hl Huse) as (_ & Ht & Hu). specialize (Hclock _ _ Ht) as Hlate.
    assert (Hw' : (advance c (world_ s)).2 = world_ (let '(c', w') := advance c (world_ s) in
      {| world_ := w'; calls := <[i := c']> (calls s) |})) by by destruct (advance c (world_ s)).
    destruct (decide (i < n0)%nat) as [Hold|Hnew].
    + destruct (advance c (world_ s)) as [c' w']. simpl in *. split; [by rewrite length_insert|]. split; [lia|].
      exists fs. rewrite drop_insert_lt by done. split; [done|]. intros Htime'. specialize (Hu Htime').
      specialize (Hle (timely_before clock window t0 Hclock _ _ Ht Htime')). lia.
    + assert (Hc : drop n0 (calls s) !! (i - n0)%nat = Some c) by (rewrite lookup_drop, <-Hi; f_equal; lia).
      destruct (Forall2_lookup_l _ _ _ _ _ Hfs Hc) as (b & Hb & Hcb).
      destruct (pay_up c b fs (i - n0) (world_ s) Hduty Hb Hcb Hl Hle) as (b' & Hb' & Hle').
      destruct (advance c (world_ s)) as [c' w']. simpl in *. split; [by rewrite length_insert|]. split; [lia|].
      exists (<[(i - n0)%nat := b']> fs). rewrite drop_insert_ge by lia. split; [|done]. by apply Forall2_insert.
Qed.

Lemma execute_tally n0 es s :
  Forall (from universe) es → walking s → tally n0 s → tally n0 (execute clock srv es s).
Proof.
  intros Hes. revert s. induction Hes as [|e es He _ IH]; intros s Hs Ht; [done|].
  apply IH; [by apply step_walking|by apply step_tally].
Qed.

(** The threads let through have paid. *)
Lemma tally_bound n0 s :
  tally n0 s → timely clock window t0 (world_ s) →
  (length (filter (λ c, let_through ip c = true) (drop n0 (calls s))) ≤ used t0 ip (world_ s))%nat.
Proof.
  intros (_ & _ & fs & Hfs & Hle) Htime. etransitivity; [|by apply Hle]. apply paid_bound.
  eapply Forall2_impl; [exact Hfs|]. unfold let_through. intros c b Hc [Hasks Hend]%andb_true_iff.
  destruct (Hc Hasks) as [?|Ho]; [done|]. destruct (rest c) as [o|]; [|done]. destruct Ho as [-> Hst].
  by apply bool_decide_eq_true in Hend.
Qed.

Lemma used_bound (w : world SV G) : in_use w → Z.of_nat (used t0 ip w) ≤ Z.max 0 max.
Proof.
  intros (rl & Hrl & Hwf & <- & _). unfold used. rewrite Hrl. pose proof (admitted_length rl ip Hwf).
  pose proof (length_filter (λ t, t0 ≤ t) (RateLimiter.admitted rl ip)). unfold since. lia.
Qed.
End Tally.

(** ** The property *)

(** C4: the quota of a client holds on the whole server.  However the requests
    of all clients, lookups or not, and the sweeps of the cleanup thread are
    interleaved step by step, among the lookups that a client begins after
    some moment, those that have been let through by the time the window has
    passed are no more than [max_requests]; lookups still in progress at that
    moment, other clients, health checks and sweeps make no difference.  The
    clock does not run backwards, and there are no more clients than records. *)
Theorem client_quota {SV G J} `{JL : JsonLaws J} {JP : JsonPrints J} `{RL : RngLaws G}
    {LM : Libm} {DG : Digest} {RS : Resolver} (clock : nat → Z)
    (srv : IPGeoHTTPServer.t SV J) (I : SV → Prop) truth (w0 : world SV G) universe max window cap es0 es1 ip :
  (∀ j : J, safe (json_dump j)) → (∀ s, safe (json_parse s : exec J)) → truthful srv truth I →
  server_ok srv I w0 → IPGeoHTTPServer.enable_rate_limiter_ srv = true →
  limiter w0 = Some (RateLimiter.create max window cap) →
  (∀ n m, (n ≤ m)%nat → clock n ≤ clock m) →
  Z.of_nat (base.size universe) ≤ cap → Forall (from universe) (es0 ++ es1) →
  let s0 := execute clock srv es0 (idle w0) in
  let s := execute clock srv es1 s0 in
  clock (ticks (world_ s)) ≤ clock (ticks (world_ s0)) + seconds window →
  Z.of_nat (length (filter (λ c, let_through ip c = true) (drop (length (calls s0)) (calls s)))) ≤ Z.max 0 max.
Proof.
  intros Hd Hp Ht Hok Hlim Hw0 Hclock Hroom [Hes0 Hes1]%Forall_app s0 s Htime. set (t0 := clock (ticks (world_ s0))) in *.
  assert (Hwalk : walking clock srv I truth universe max window cap t0 ip (idle w0)).
  { destruct Hok as (HI & Hm & Hl). split_and!; [by split; [|constructor]| |constructor].
    destruct (Hl Hlim) as (rl & Hrl & Hwf). exists rl. assert (rl = RateLimiter.create max window cap) as -> by congruence.
    by split_and!. }
  destruct (execute_walking clock srv I truth universe max window cap t0 ip Hd Hp Ht Hclock Hroom es0 _ Hes0 Hwalk)
    as [Hs0 _].
  destruct (execute_walking clock srv I truth universe max window cap t0 ip Hd Hp Ht Hclock Hroom es1 _ Hes1 Hs0)
    as [(_ & Huse & _) _].
  etransitivity; [|exact (used_bound universe max window cap t0 ip _ Huse)]. apply inj_le.
  apply (tally_bound clock srv I universe max window cap t0 ip); [|exact Htime].
  apply (execute_tally clock srv I truth); [done..|]. split; [done|]. split; [done|].
  exists []. rewrite drop_all. split; [constructor|]. unfold paid. simpl. lia.
Qed.

(** ** Witness: the two lookups of [sample_events], of which one is let through. *)
#[local] Notation sample_run es s :=
  (execute (JO := Tree.ops (λ _, Ret "{}") (λ _, Ret Tree.Null)) (RG := zero_rng) (LM := sample_libm) (DG := sample_digest)
    (RS := sample_resolver) (λ n, Z.of_nat n) Sample.server es s).

#[local] Notation sample_start := (sample_run [] (idle (Sample.world_with 1))).

Lemma client_quota_witness :
  map (let_through "10.0.0.1") (calls (sample_run sample_events sample_start)) = [true; false; false] ∧
  Z.of_nat (length (filter (λ c, let_through "10.0.0.1" c = true)
    (drop (length (calls sample_start)) (calls (sample_run sample_events sample_start))))) ≤ Z.max 0 1.
Proof.
  assert (RL : @RngLaws unit zero_rng) by (split; simpl; [lia|done]).
  split; [vm_compute; reflexivity|].
  refine (client_quota (JL := tree_laws (λ _, Ret "{}") (λ _, Ret Tree.Null)) (JP := tree_prints "{}" _)
    (RL := RL) (LM := sample_libm) (DG := sample_digest) (RS := sample_resolver)
    (λ n, Z.of_nat n) Sample.server (λ _, True) (λ _, Sample.echo_truth) (Sample.world_with 1) {["10.0.0.1"]} 1 60 10
    [] sample_events "10.0.0.1" _ _ _ _ _ _ _ _ _ _).
  - done.
  - done.
  - apply sample_truthful.
  - apply sample_server_ok.
  - reflexivity.
  - reflexivity.
  - intros n m Hnm. lia.
  - vm_compute. discriminate.
  - assert (IPGeoHTTPServer.get_real_client_ip (Sample.request "Bearer secret" "8.8.8.8") = "10.0.0.1") as Hip by reflexivity.
    cbn [app]. unfold sample_events. apply Forall_app. split.
    + repeat constructor; simpl; rewrite Hip; set_solver.
    + apply Forall_concat, Forall_replicate. by repeat constructor.
  - apply Z.leb_le. vm_compute. reflexivity.
Defined.
