(* ===== verification/Logger.v ===== *)
(** * Logging set-up and shutdown signals (src/src/logger.h, logger.cpp,
    handle_signal of main.cpp)

    spdlog is a library: modelled is which sinks the program asks it for, in
    which order, the logger and the level it installs, and what the signal
    handler does and writes.  The lines logged on the way change nothing of the
    program's state and are left out. *)
From Stdlib Require Import ZArith Lia Ascii String.
From S2P Require Import Prelude CppString Paths.
#[local] Open Scope Z_scope.

Record LogConfig := {
  enable_file_logging_ : bool;
  log_file_path_ : string;
  rotation_type_ : string;
  max_file_size_ : Z;
  max_backup_files_ : Z;
  enable_stdout_ : bool
}.

Definition default_log_config : LogConfig := {|
  enable_file_logging_ := false; log_file_path_ := "logs/ip_server.log"; rotation_type_ := "size";
  max_file_size_ := 10 * 1024 * 1024; max_backup_files_ := 5; enable_stdout_ := true
|}.

Inductive sink :=
| StdoutSink
| RotatingFile (path : string) (max_size max_files : Z)
| BasicFile (path : string).

(** Levels of spdlog, and a logger: its sinks, the pattern of its lines, and
    the level from which it flushes. *)
Inductive level := trace | debug | info | warn | err | critical | off.

Record logger := {
  logger_name : string;
  logger_sinks : list sink;
  pattern : string;
  flush_level : level
}.

(** spdlog: making a sink (a file sink opens its file, and may throw), and its
    global settings. *)
Class Spdlog (F : Type) := {
  make_sink : sink → M F unit;
  set_default_logger : logger → M F unit;
  from_str : string → level;
  set_level : level → M F unit
}.

(** The directory of the log file is made first if it is missing;
    [exists] and [create_directories] without an error code throw. *)
Definition make_log_directory {F} `{FileSystem F} (log_dir : string) : M F unit :=
  if is_empty log_dir then mret tt
  else
    there ← reads (fs_exists log_dir);
    if there : bool then mret tt
    else λ fs,
      let '(made, fs) := fs_create_directories log_dir fs in
      (if made : bool then Ret tt else Throw (other_exception "cannot create directories"), fs).

Definition file_sink (config : LogConfig) : sink :=
  if String.eqb (rotation_type_ config) "size"
  then RotatingFile (log_file_path_ config) (max_file_size_ config) (max_backup_files_ config)
  else BasicFile (log_file_path_ config).

(** The sinks are made one after the other; then the logger that has them
    becomes the default one. *)
Definition init_logging {F} `{FileSystem F, Spdlog F} (config : LogConfig) : M F unit :=
  (if enable_stdout_ config then make_sink StdoutSink else mret tt);;
  (if enable_file_logging_ config then
     make_log_directory (parent_path (log_file_path_ config));;
     make_sink (file_sink config)
   else mret tt);;
  set_default_logger {|
    logger_name := "ip_server";
    logger_sinks := (if enable_stdout_ config then [StdoutSink] else []) ++
                    (if enable_file_logging_ config then [file_sink config] else []);
    pattern := "[%Y-%m-%d %H:%M:%S.%e] [%l] %v";
    flush_level := err
  |}.

Definition set_log_level {F} `{Spdlog F} (name : string) : M F unit := set_level (from_str name).

(** The three writes to standard error, as one text. *)
Definition signal_safe_log (signal_name : string) : string :=
  "[SIGNAL] Received " +:+ c_str signal_name +:+ ", shutting down gracefully..." +:+ str [newline].

Definition SIGINT : Z := 2.

(** The flag after the handler ran, and what it wrote: only the first signal
    is reported. *)
Definition handle_signal (sig : Z) (g_shutdown_requested : bool) : bool * option string :=
  (true, if g_shutdown_requested then None
         else Some (signal_safe_log (if sig =? SIGINT then "SIGINT" else "SIGTERM"))).

(** ** Lemmas *)

(** What spdlog does is to return or to throw. *)
Record spdlog_safe (F : Type) `{Spdlog F} : Prop := {
  make_sink_safe s (fs : F) : safe (make_sink s fs).1;
  set_default_logger_safe l (fs : F) : safe (set_default_logger l fs).1;
  set_level_safe l (fs : F) : safe (set_level l fs).1
}.

Section Safe.
Context {F : Type} `{FL : FileSystemLaws F, LG : Spdlog F} (Hspd : spdlog_safe F).

Lemma M_safe_bind {A B} (m : M F A) (k : A → M F B) fs :
  safe (m fs).1 → (∀ a fs', safe (k a fs').1) → safe ((m ≫= k) fs).1.
Proof. intros Hm Hk. unfold mbind, M_bind. by destruct (m fs) as [[]]. Qed.

Lemma make_log_directory_safe dir (fs : F) : safe (make_log_directory dir fs).1.
Proof.
  unfold make_log_directory. destruct (is_empty dir); [done|].
  apply M_safe_bind; [apply fs_exists_safe|]. intros [] fs'; [done|].
  by destruct (fs_create_directories dir fs') as [[] ?].
Qed.

Lemma init_logging_safe config (fs : F) : safe (init_logging config fs).1.
Proof.
  unfold init_logging. apply M_safe_bind.
  - destruct (enable_stdout_ config); [apply Hspd|done].
  - intros _ fs1. apply M_safe_bind; [|intros _ fs2; apply Hspd].
    destruct (enable_file_logging_ config); [|done].
    apply M_safe_bind; [apply make_log_directory_safe|intros _ fs2; apply Hspd].
Qed.
End Safe.
