(* ===== verification/Lifecycle.v ===== *)
(** * Starting and stopping the server (start, start_server_and_wait and
    cleanup_thread_func of src/src/http_server.cpp)

    From the moment [start] has begun its threads there are three, and a flag
    set from outside: the main thread waits in two phases, stops the server and
    joins; the server thread runs [listen]; the cleanup thread sweeps until it
    is asked to stop, by [start] and by the destructor of its [std::jthread].
    Each is a program counter, and [step] lists what can happen next, and by
    whom: a thread of the program ([Scheduled]: a scheduler runs it in the end)
    or the world outside ([External]: it may act or not).  A wait that wakes up
    without a reason, and a sweep, change nothing here and are no step.
    Of [httplib::Server] it is used that [listen] fails if it cannot bind,
    returns true only if [stop] has closed its socket, and then does return;
    and that [stop] has no effect on a server that does not listen yet. *)
From Stdlib Require Import ZArith Lia.
From stdpp Require Import relations.
From S2P Require Import Prelude RateLimiter.
#[local] Open Scope Z_scope.

Inductive main_pc :=
| Grace                      (* the first wait_for, of 500 ms *)
| JoinFailed                 (* server_thread.join() after listen() failed early *)
| Waiting                    (* the loop of waits of 100 ms *)
| Stopping                   (* before server_.stop() *)
| Joining                    (* server_thread.join() *)
| Waited (result : bool)     (* start_server_and_wait has returned *)
| Started (result : bool)    (* start has returned, the server is destroyed *)
| Leaving (result : bool)    (* ~jthread has asked the cleanup thread to stop, and joins *)
| Returned (result : bool).

Inductive server_pc :=
| Binding                    (* listen() has not begun to accept *)
| Serving
| Listened (ok : bool)       (* listen() has returned, not yet stored *)
| Stored.                    (* server_running.store(...), the thread ends *)

#[export] Instance server_pc_eq_dec : EqDecision server_pc.
Proof. solve_decision. Defined.

Inductive cleanup_pc := Absent | Running | Finished.

Record state := {
  main : main_pc;
  server : server_pc;
  cleanup : cleanup_pc;
  server_running : bool;
  shutdown_requested : bool;
  stop_called : bool;        (* server_.stop() has been called *)
  closed : bool;             (* it found a socket, and closed it *)
  cleanup_stop : bool        (* cleanup_thread_.request_stop() *)
}.

(** The threads have been started; that of the cleanup only for a limiter. *)
Definition initial (limited shutdown : bool) : state :=
  {| main := Grace; server := Binding; cleanup := if limited then Running else Absent; server_running := true;
     shutdown_requested := shutdown; stop_called := false; closed := false; cleanup_stop := false |}.

Definition at_main (pc : main_pc) (s : state) : state :=
  {| main := pc; server := server s; cleanup := cleanup s; server_running := server_running s;
     shutdown_requested := shutdown_requested s; stop_called := stop_called s; closed := closed s;
     cleanup_stop := cleanup_stop s |}.
Definition at_server (pc : server_pc) (s : state) : state :=
  {| main := main s; server := pc; cleanup := cleanup s; server_running := server_running s;
     shutdown_requested := shutdown_requested s; stop_called := stop_called s; closed := closed s;
     cleanup_stop := cleanup_stop s |}.
Definition at_cleanup (pc : cleanup_pc) (stop : bool) (s : state) : state :=
  {| main := main s; server := server s; cleanup := pc; server_running := server_running s;
     shutdown_requested := shutdown_requested s; stop_called := stop_called s; closed := closed s;
     cleanup_stop := stop |}.
Definition store_running (ok : bool) (s : state) : state :=
  {| main := main s; server := server s; cleanup := cleanup s; server_running := ok;
     shutdown_requested := shutdown_requested s; stop_called := stop_called s; closed := closed s;
     cleanup_stop := cleanup_stop s |}.
Definition request_shutdown (s : state) : state :=
  {| main := main s; server := server s; cleanup := cleanup s; server_running := server_running s;
     shutdown_requested := true; stop_called := stop_called s; closed := closed s; cleanup_stop := cleanup_stop s |}.

(** [server_.stop()] *)
Definition stop_server (s : state) : state :=
  {| main := main s; server := server s; cleanup := cleanup s; server_running := server_running s;
     shutdown_requested := shutdown_requested s; stop_called := true;
     closed := match server s with Serving => true | _ => closed s end; cleanup_stop := cleanup_stop s |}.

(** [if (cleanup_thread_.joinable()) cleanup_thread_.request_stop();] *)
Definition stop_cleanup (s : state) : state :=
  match cleanup s with Absent => s | pc => at_cleanup pc true s end.

Inductive actor := Scheduled | External.

Section Steps.
(** Whether the grace period is long enough: [listen] has begun to accept or
    has failed when it is over.  The code does not make sure. *)
Context (prompt : bool).

Inductive step : actor → state → state → Prop :=
| grace_failed s : main s = Grace → server_running s = false → step Scheduled s (at_main JoinFailed s)
| grace_elapsed s :
    main s = Grace → server_running s = true → (prompt = true → server s ≠ Binding) → step Scheduled s (at_main Waiting s)
| joined_failed s : main s = JoinFailed → server s = Stored → step Scheduled s (at_main (Waited false) s)
| wait_over s :
    main s = Waiting → shutdown_requested s = true ∨ server_running s = false →
    step Scheduled s (at_main Stopping s)
| stopped s : main s = Stopping → step Scheduled s (at_main Joining (stop_server s))
| joined s : main s = Joining → server s = Stored → step Scheduled s (at_main (Waited (server_running s)) s)
| start_returns s b : main s = Waited b → step Scheduled s (at_main (Started b) (stop_cleanup s))
| destroyed s b : main s = Started b → step Scheduled s (at_main (Leaving b) (stop_cleanup s))
| cleanup_joined s b : main s = Leaving b → cleanup s ≠ Running → step Scheduled s (at_main (Returned b) s)
| cleanup_exits s :
    cleanup s = Running → cleanup_stop s = true → step Scheduled s (at_cleanup Finished (cleanup_stop s) s)
| listen_begins s : server s = Binding → step Scheduled s (at_server Serving s)
| listen_stopped s : server s = Serving → closed s = true → step Scheduled s (at_server (Listened true) s)
| running_stored s ok : server s = Listened ok → step Scheduled s (at_server Stored (store_running ok s))
| bind_fails s : server s = Binding → step External s (at_server (Listened false) s)
| accept_fails s : server s = Serving → step External s (at_server (Listened false) s)
| signal_arrives s : shutdown_requested s = false → step External s (request_shutdown s).

Definition some_step (s s' : state) : Prop := ∃ a, step a s s'.

Definition reachable (s : state) : Prop := ∃ limited shutdown, rtc some_step (initial limited shutdown) s.
End Steps.

(** One turn of the cleanup thread after another: each wait ends with the time
    at which the sweep reads its clocks, or with a request to stop, after
    which no more sweep is made. *)
Inductive wake := Timeout (now_at : string → Z) | StopRequested.

Fixpoint cleanup_thread_func (wakes : list wake) (rl : RateLimiter.t) : exec RateLimiter.t :=
  match wakes with
  | [] => Ret rl
  | Timeout now_at :: wakes' => rl' ← RateLimiter.cleanup rl now_at; cleanup_thread_func wakes' rl'
  | StopRequested :: _ => Ret rl
  end.

(** Work left: each step of a thread, and the one signal, uses some of it. *)
Definition main_work (pc : main_pc) : nat :=
  match pc with
  | Grace => 8 | Waiting => 7 | Stopping => 6 | Joining => 5 | JoinFailed => 4
  | Waited _ => 3 | Started _ => 2 | Leaving _ => 1 | Returned _ => 0
  end.
Definition server_work (pc : server_pc) : nat :=
  match pc with Binding => 3 | Serving => 2 | Listened _ => 1 | Stored => 0 end.
Definition cleanup_work (pc : cleanup_pc) : nat := match pc with Running => 1 | _ => 0 end.
Definition work (s : state) : nat :=
  main_work (main s) + server_work (server s) + cleanup_work (cleanup s) + if shutdown_requested s then 0 else 1.

(** What holds in every reachable state: of the server thread, and of the main
    thread in each of its phases. *)
Definition server_consistent (s : state) : Prop :=
  (closed s = true → stop_called s = true) ∧
  match server s with
  | Binding => server_running s = true ∧ closed s = false
  | Serving => server_running s = true
  | Listened ok => server_running s = true ∧ (ok = true → closed s = true)
  | Stored => server_running s = true → closed s = true
  end.

Definition to_stop (s : state) : Prop := shutdown_requested s = true ∨ server_running s = false.

(** Past the grace period the server has begun, if that is long enough; then
    [stop] finds it. *)
Definition has_begun (prompt : bool) (s : state) : Prop := prompt = true → server s ≠ Binding.

Definition main_consistent (prompt : bool) (s : state) : Prop :=
  match main s with
  | Grace => stop_called s = false
  | Waiting => stop_called s = false ∧ has_begun prompt s
  | JoinFailed => stop_called s = false ∧ server s = Stored ∧ server_running s = false
  | Stopping => stop_called s = false ∧ to_stop s ∧ has_begun prompt s
  | Joining => stop_called s = true ∧ to_stop s ∧ has_begun prompt s ∧ (prompt = true → server s = Serving → closed s = true)
  | Waited b | Started b => server s = Stored ∧ server_running s = b ∧ to_stop s
  | Leaving b => server s = Stored ∧ server_running s = b ∧ to_stop s ∧ (cleanup s = Running → cleanup_stop s = true)
  | Returned b => server s = Stored ∧ server_running s = b ∧ to_stop s ∧ cleanup s ≠ Running
  end.

(** ** Lemmas *)
Lemma consistent_initial prompt l b : server_consistent (initial l b) ∧ main_consistent prompt (initial l b).
Proof. done. Qed.

Lemma consistent_step prompt a s s' :
  server_consistent s ∧ main_consistent prompt s → step prompt a s s' →
  server_consistent s' ∧ main_consistent prompt s'.
Proof.
  unfold server_consistent, main_consistent, has_begun, to_stop. intros Hc Hstep.
  destruct Hstep as [s|s|s|s|s|s|s b|s b|s b|s|s|s|s ok|s|s|s]; destruct s as [m sv c r sh st cl cs]; simpl in *; subst;
    simpl in *; try (destruct sv; simpl in *; intuition congruence);
    try (destruct c; simpl in *; intuition congruence); destruct m; simpl in *; intuition congruence.
Qed.

Lemma reachable_consistent prompt s : reachable prompt s → server_consistent s ∧ main_consistent prompt s.
Proof.
  intros (limited & shutdown & Hs). pose proof (consistent_initial prompt limited shutdown) as Hc.
  induction Hs as [|s1 s2 s3 [a H12] _ IH]; [done|]. apply IH. by eapply consistent_step.
Qed.

Lemma step_work prompt a s s' : step prompt a s s' → (work s' < work s)%nat.
Proof.
  intros Hs. unfold work. destruct Hs as [s|s|s|s|s|s|s b|s b|s b|s|s|s|s ok|s|s|s];
    destruct s as [m sv c r sh st cl cs]; simpl in *; subst; simpl; try lia; destruct c; simpl; lia.
Qed.

Lemma cleanup_thread_ok wakes rl :
  RateLimiter.wf rl → ∃ rl', cleanup_thread_func wakes rl = Ret rl' ∧ RateLimiter.wf rl'.
Proof.
  revert rl. induction wakes as [|[now_at|] wakes IH]; intros rl Hwf; simpl; [by exists rl| |by exists rl].
  destruct (RateLimiter.cleanup_ok rl now_at Hwf) as (m & l & -> & Hwf' & _). cbn [mbind exec_bind]. by apply IH.
Qed.

Lemma returned_sound prompt s result :
  reachable prompt s → main s = Returned result →
  server s = Stored ∧ server_running s = result ∧
  (result = true → shutdown_requested s = true ∧ stop_called s = true).
Proof.
  intros [Hsc Hmc]%reachable_consistent Hm. unfold server_consistent, main_consistent, to_stop in *.
  rewrite Hm in Hmc. destruct Hmc as (Hs & Hr & Ht & _). rewrite Hs in Hsc. split_and!; [done|done|].
  intros ->. split; [destruct Ht; congruence|naive_solver].
Qed.

(** The server thread, once its socket is closed or it need not begin, and the
    cleanup thread, once it is asked to stop, can go on. *)
Lemma server_progress prompt s :
  server s ≠ Stored → (server s = Serving → closed s = true) → ∃ s', step prompt Scheduled s s'.
Proof.
  intros Hn Hc. destruct (server s) eqn:Hs; [|by eauto using step|by eauto using step|done].
  by eauto using step.
Qed.

Lemma cleanup_progress prompt s b :
  main s = Leaving b → (cleanup s = Running → cleanup_stop s = true) → ∃ s', step prompt Scheduled s s'.
Proof.
  intros Hm Hc. destruct (cleanup s) eqn:Hp; [|by eauto using step|];
    (eexists; apply (cleanup_joined _ _ b); [done|congruence]).
Qed.

(** A server that has not begun when [stop] is called begins afterwards, and
    nothing stops it: without the assumption on the grace period the program
    can be stuck, a shutdown requested. *)
Lemma stop_before_listen_hangs :
  ∃ s, reachable false s ∧ shutdown_requested s = true ∧ stop_called s = true ∧
    (∀ result, main s ≠ Returned result) ∧ ∀ s', ¬ step false Scheduled s s'.
Proof.
  eexists. split_and!.
  - exists true, true. eapply rtc_l; [eexists; by apply grace_elapsed|].
    eapply rtc_l; [eexists; apply wait_over; [done|by left]|]. eapply rtc_l; [eexists; by apply stopped|].
    eapply rtc_l; [eexists; by apply listen_begins|]. apply rtc_refl.
  - done.
  - done.
  - done.
  - intros s' Hs. by inversion Hs.
Qed.

(** ** Properties *)

(** C19: shutting down never hangs, if [listen] has begun to accept or has
    failed when the grace period is over.  Every run is finite, at most
    thirteen steps; and once a shutdown is requested or [listen] has failed,
    as long as the program has not left [start] and joined all its threads,
    one of them can take a step, whatever the environment does: the server
    thread returns because the main thread stops it, the cleanup thread
    because it is asked to. *)
Theorem shutdown_terminates (s : state) :
  reachable true s →
  (∀ s', some_step true s s' → (work s' < work s)%nat) ∧ (work s ≤ 13)%nat ∧
  (to_stop s → (∃ result, main s = Returned result) ∨ ∃ s', step true Scheduled s s').
Proof.
  intros Hreach. split_and!.
  - intros s' [a Ha]. by eapply step_work.
  - unfold work. destruct (main s), (server s), (cleanup s), (shutdown_requested s); simpl; lia.
  - destruct (reachable_consistent true s Hreach) as [Hsc Hmc].
    unfold server_consistent, main_consistent, has_begun in *. intros Ht.
    destruct (main s) eqn:Hm; [| | | | | | | |left; eauto]; right.
    + destruct (server_running s) eqn:Hr; [|by eauto using step].
      destruct (server s) eqn:Hs; [by eauto using step|..];
        by (eexists; apply grace_elapsed; [..|congruence]).
    + destruct Hmc as (_ & Hs & _). by eauto using step.
    + by eauto using step.
    + by eauto using step.
    + destruct Hmc as (_ & _ & Hb & Hc). destruct (decide (server s = Stored)) as [Hs|Hs]; [by eauto using step|].
      by apply server_progress; auto.
    + by eauto using step.
    + by eauto using step.
    + destruct Hmc as (_ & _ & _ & Hc). by eapply cleanup_progress.
Qed.

(** ** Witnesses *)

(** A shutdown during the wait, then the return through the destructor. *)
Lemma clean_run prompt : ∃ s, reachable prompt s ∧ main s = Returned true.
Proof.
  eexists. split.
  - exists true, false. eapply rtc_l; [eexists; by apply listen_begins|].
    eapply rtc_l; [eexists; by apply grace_elapsed|]. eapply rtc_l; [eexists; by apply signal_arrives|].
    eapply rtc_l; [eexists; apply wait_over; [done|by left]|]. eapply rtc_l; [eexists; by apply stopped|].
    eapply rtc_l; [eexists; by apply listen_stopped|]. eapply rtc_l; [eexists; by eapply running_stored|].
    eapply rtc_l; [eexists; by apply joined|]. eapply rtc_l; [eexists; by eapply start_returns|].
    eapply rtc_l; [eexists; by eapply cleanup_exits|]. eapply rtc_l; [eexists; by eapply destroyed|].
    eapply rtc_l; [eexists; by eapply cleanup_joined|]. apply rtc_refl.
  - done.
Qed.

Lemma shutdown_terminates_witness : ∃ s', step true Scheduled (initial true true) s'.
Proof.
  destruct (shutdown_terminates (initial true true)) as (_ & _ & H).
  - exists true, true. apply rtc_refl.
  - destruct H as [[b Hb]|H]; [by left|discriminate Hb|exact H].
Defined.
