(* ===== verification/Application.v ===== *)
(** * The program (src/src/main.cpp, start of src/src/http_server.cpp)

    [run_application] puts the parts together: the services over their
    databases, the server with the handlers that call them; [main] reads the
    configuration, sets up logging, keeps the configuration of a first start,
    and turns what happened into an exit status.  What
    [start_server_and_wait] returns is an argument ([served]); which values
    that can be is in Lifecycle.v. *)
From Stdlib Require Import ZArith Lia Ascii String.
From stdpp Require Import relations.
From S2P Require Import Prelude Program StdList Double Json CppString RateLimiter Cache Validation Auth Metrics PasswordGenerator Paths Config Backend MaxMind MacDatabase Services Http PasswordHandler HttpServer Requests Answers Concurrent Logger Lifecycle.
#[local] Open Scope Z_scope.

Section Application.
Context {J F H E D S G : Type} {JO : JsonOps J} {FS : FileSystem F} {EN : Environment} {OP : Options}
  {LG : Spdlog F} {DG : Digest} {MM : MaxMindLib H E} {SQ : Sqlite D S} (hash : string → Z).

(** The state of the services: their two caches. *)
Definition caches : Type := IPCache.t J * IPCache.t J.

Definition geo_handler (city asn : MaxMindDatabase.t H) : service caches J :=
  embed fst (λ c sv, (c, sv.2)) (IPGeoService.geo_service (BC := city_backend) (BA := asn_backend) hash city asn).

Definition mac_handler (oui : OUIDatabase.t D S) : service caches J :=
  embed snd (λ c sv, (sv.1, c)) (MACLookupService.mac_service hash oui).

Definition cache_stats_handler (sv : caches) : CacheStats.t :=
  CacheStats.add (IPGeoService.cache_stats sv.1) (MACLookupService.cache_stats sv.2).

(** The objects [run_application] makes, in the order it makes them. *)
Definition assemble (config : ServerConfig) (keys_file : option string) (gen : G) (start_time : Z) :
    exec (IPGeoHTTPServer.t caches J * world caches G) :=
  geo ← IPGeoService.create (city_db_path_ config) (asn_db_path_ config);
  mac ← MACLookupService.create (oui_db_path_ config);
  let '(srv, rl, m) := IPGeoHTTPServer.create config keys_file start_time in
  let srv := IPGeoHTTPServer.set_lookup_handler (geo_handler (IPGeoService.city_db_ geo) (IPGeoService.asn_db_ geo)) srv in
  let srv := IPGeoHTTPServer.set_mac_lookup_handler (mac_handler (MACLookupService.oui_db_ mac)) srv in
  let srv := IPGeoHTTPServer.set_cache_stats_handler cache_stats_handler srv in
  Ret (srv, {| limiter := rl; metrics := m; services := (IPGeoService.cache_ geo, MACLookupService.cache_ mac); Http.gen := gen; ticks := 0 |}).

(** The check at the beginning of [IPGeoHTTPServer::start]; a server that has
    its handler is then started as Lifecycle.v has it, which gives [served]. *)
Definition start {SV} (srv : IPGeoHTTPServer.t SV J) (served : bool) : bool :=
  match IPGeoHTTPServer.lookup_handler_ srv with
  | None => false
  | Some _ => served
  end.

Definition run_application (config : ServerConfig) (gen : G) (start_time : Z) (served : bool) : M F bool := λ fs,
  (p ← assemble config (fs_read (api_keys_file_ config) fs) gen start_time; Ret (start p.1 served), fs).

(** The argument of [init_logging]. *)
Definition log_settings (config : ServerConfig) : LogConfig := {|
  Logger.enable_file_logging_ := Config.enable_file_logging_ config;
  Logger.log_file_path_ := Config.log_file_path_ config;
  Logger.rotation_type_ := log_rotation_type_ config;
  Logger.max_file_size_ := log_max_file_size_ config;
  Logger.max_backup_files_ := log_max_backup_files_ config;
  Logger.enable_stdout_ := log_enable_stdout_ config
|}.

(** A configuration file that is named but missing is created. *)
Definition keep_config (config : ServerConfig) : M F unit :=
  if is_empty (config_file_ config) then mret tt
  else
    there ← reads (fs_exists (config_file_ config));
    if there : bool then mret tt
    else save_to_file (J := J) config (config_file_ config);; mret tt.

Definition main (argv : list string) (gen : G) (start_time : Z) (served : bool) : M F Z :=
  try_catch
    (p ← parse (J := J) argv;
     match p with
     | Exited status => mret status
     | Parsed config =>
         init_logging (log_settings config);;
         set_log_level (log_level_ config);;
         (λ fs, (Ret tt, paths.ensure_directories fs));;
         keep_config config;;
         result ← run_application config gen start_time served;
         mret (if result : bool then 0 else 1)
     end)
    (λ _, mret 1).

(** What every state of the caches satisfies: their entries are cacheable
    answers of the databases. *)
Definition caches_ok (city asn : MaxMindDatabase.t H) (oui : OUIDatabase.t D S) (sv : caches) : Prop :=
  coherent hash (geo_verdict (BC := city_backend) (BA := asn_backend) city asn) sv.1 ∧
  coherent hash (mac_verdict oui) sv.2.
End Application.

(** ** Lemmas *)
Section Facts.
Context {J F H E D S G : Type} {JO : JsonOps J} {JL : JsonLaws J} {FS : FileSystem F} {EN : Environment}
  {OP : Options} {LG : Spdlog F} {DG : Digest} {RS : Resolver} {MM : MaxMindLib H E} {SQ : Sqlite D S}
  (hash : string → Z).

Lemma open_usable path (db : MaxMindDatabase.t H) : MaxMindDatabase.create path = Ret db → usable db.
Proof.
  unfold MaxMindDatabase.create. destruct (MMDB_open (c_str path)) as [status h].
  destruct (negb _); [done|]. intros [= <-]. split; [done|by eexists].
Qed.

(** SQLite hands out a statement when it compiles one. *)
Definition prepares : Prop :=
  ∀ (d : D) (stmt : option S), sqlite3_prepare_v2 d OUI_LOOKUP_SQL = (SQLITE_OK, stmt) → is_Some stmt.

Lemma open_oui_usable path (db : OUIDatabase.t D S) :
  prepares → (OUIDatabase.create path).2 = Ret db → oui_usable db.
Proof.
  intros Hp. unfold OUIDatabase.create. destruct (sqlite3_open_v2 (c_str path)) as [status d].
  destruct (negb _); [done|]. destruct d as [d|]; [|done].
  destruct (sqlite3_prepare_v2 d OUI_LOOKUP_SQL) as [st stmt] eqn:Hst.
  destruct (negb (st =? SQLITE_OK)) eqn:Hok; [done|]. intros [= <-].
  apply negb_false_iff, Z.eqb_eq in Hok. subst st. split_and!; [done|by eexists|]. by eapply Hp.
Qed.

(** What [assemble] did when it returned. *)
Lemma assemble_inv config keys_file (gen : G) t srv w :
  assemble hash config keys_file gen t = Ret (srv, w) →
  ∃ city asn oui geo_cache mac_cache,
    MaxMindDatabase.create (city_db_path_ config) = Ret city ∧
    MaxMindDatabase.create (asn_db_path_ config) = Ret asn ∧
    (OUIDatabase.create (oui_db_path_ config)).2 = Ret oui ∧
    IPCache.create DEFAULT_MAX_MEMORY 8 = Ret geo_cache ∧
    IPCache.create (50 * 1024 * 1024) 8 = Ret mac_cache ∧
    IPGeoHTTPServer.lookup_handler_ srv = Some (geo_handler (J := J) hash city asn) ∧
    IPGeoHTTPServer.mac_lookup_handler_ srv = Some (mac_handler hash oui) ∧
    IPGeoHTTPServer.enable_rate_limiter_ srv = enable_rate_limiter_ config ∧
    limiter w = (if enable_rate_limiter_ config
                 then Some (RateLimiter.create (max_requests_per_minute_ config) 60 RateLimiter.default_max_ip_records)
                 else None) ∧
    metrics w = Metrics.create t ∧ services w = (geo_cache, mac_cache).
Proof.
  unfold assemble, IPGeoService.create, MACLookupService.create. intros Ha.
  destruct (MaxMindDatabase.create (city_db_path_ config)) as [city|e| |]; try discriminate Ha.
  destruct (MaxMindDatabase.create (asn_db_path_ config)) as [asn|e| |]; try discriminate Ha.
  cbn [mbind exec_bind] in Ha.
  destruct (IPCache.create DEFAULT_MAX_MEMORY IPCache.default_shard_count) as [c1|e| |] eqn:H1; try discriminate Ha.
  cbn [mbind exec_bind] in Ha.
  destruct (OUIDatabase.create (oui_db_path_ config)).2 as [oui|e| |]; try discriminate Ha.
  cbn [mbind exec_bind] in Ha.
  destruct (IPCache.create (50 * 1024 * 1024) IPCache.default_shard_count) as [c2|e| |] eqn:H2; try discriminate Ha.
  injection Ha as <- <-. exists city, asn, oui, c1, c2. by split_and!.
Qed.

Lemma geo_handler_serves city asn oui :
  (∀ j : J, safe (json_dump j)) → geo_schema (H := H) (E := E) → usable city → usable asn →
  serves (caches_ok hash city asn oui) (geo_verdict (BC := city_backend) (BA := asn_backend) city asn)
    (λ ip, isValidIpFormat ip = true) (geo_handler (J := J) hash city asn).
Proof.
  intros Hd Hg Hc Ha.
  apply (serves_embed fst (λ c sv, (c, sv.2)) (coherent hash (geo_verdict (BC := city_backend) (BA := asn_backend) city asn)));
    [by intros sv []|by intros sv c [] ?|].
  intros c key now Hcoh _.
  eapply (computes_serves hash _ _ (λ _, True ∧ True)); [done| |done|done].
  apply (geo_computes hash usable usable (λ _, True) (λ _, True)); [by apply city_backend_laws|by apply asn_backend_laws|done..].
Qed.

Lemma mac_handler_serves city asn oui :
  (∀ j : J, safe (json_dump j)) → oui_usable oui →
  serves (caches_ok hash city asn oui) (mac_verdict oui)
    (λ mac, isValidMacFormat mac = Ret true) (mac_handler (J := J) hash oui).
Proof.
  intros Hd Ho.
  apply (serves_embed snd (λ c sv, (sv.1, c)) (coherent hash (mac_verdict oui)));
    [by intros sv []|by intros sv c [] ?|].
  apply computes_serves; [done|]. apply (mac_computes hash oui_usable); [apply oui_backend_laws|done].
Qed.

(** What the databases say, without the caches. *)
Definition database_truth (city asn : MaxMindDatabase.t H) (oui : OUIDatabase.t D S) (is_mac : bool) :
    string → exec (verdict (J := J)) :=
  if is_mac then mac_verdict oui else geo_verdict (BC := city_backend) (BA := asn_backend) city asn.

(** The assembled server is in order, and its handlers tell the truth. *)
Lemma assembled_ok config keys_file (gen : G) t srv w :
  (∀ j : J, safe (json_dump j)) → geo_schema (H := H) (E := E) → prepares →
  is_i32 (max_requests_per_minute_ config) →
  assemble hash config keys_file gen t = Ret (srv, w) →
  ∃ city asn oui,
    MaxMindDatabase.create (city_db_path_ config) = Ret city ∧
    MaxMindDatabase.create (asn_db_path_ config) = Ret asn ∧
    (OUIDatabase.create (oui_db_path_ config)).2 = Ret oui ∧
    truthful srv (database_truth city asn oui) (caches_ok hash city asn oui) ∧
    server_ok srv (caches_ok hash city asn oui) w.
Proof.
  intros Hd Hg Hp Hm (city & asn & oui & c1 & c2 & Hc & Ha & Ho & H1 & H2 & Hh1 & Hh2 & He & Hl & Hmet & Hs)%assemble_inv.
  pose proof (open_usable _ _ Hc) as Hcu. pose proof (open_usable _ _ Ha) as Hau.
  pose proof (open_oui_usable _ _ Hp Ho) as Hou.
  exists city, asn, oui. repeat (split; [done|]). split.
  - intros [] h Hh; unfold handler_for in Hh.
    + rewrite Hh2 in Hh. injection Hh as <-. by apply (mac_handler_serves city asn).
    + rewrite Hh1 in Hh. injection Hh as <-. by apply geo_handler_serves.
  - split; [|split].
    + rewrite Hs. split; (eapply create_coherent; [|exact H1 || exact H2]; done).
    + rewrite Hmet. apply Metrics.create_metrics_ok.
    + rewrite Hl, He. intros ->. eexists. split; [done|]. by apply RateLimiter.wf_create.
Qed.

Lemma parse_Exited argv (fs fs' : F) st : parse (J := J) argv fs = (Ret (Exited st), fs') → st = 0.
Proof.
  unfold parse, parse_options, try_catch. cbv [pure mbind M_bind]. intros Hp.
  destruct (options_parse create_option_parser argv) as [r|e| |]; [| |done|done].
  2: { by destruct e. }
  destruct (contains r "help"); [by injection Hp as <- _|].
  destruct (set_opt r "config" _ _) as [path|e| |]; [| |done|done].
  2: { by destruct e. }
  destruct (read_config_file _ fs) as [[c|e| |] fs1]; [| |done|done].
  2: { by destruct e. }
  destruct (apply_cli_overrides r c) as [c'|e| |]; [| |done|done].
  2: { by destruct e. }
  cbn [mret M_ret] in Hp. unfold reads in Hp. by destruct (validate c' fs1).
Qed.



(** What is left of the file system once the configuration was kept. *)
Lemma main_after_start argv (gen : G) t served c (fs fs1 fs2 : F) :
  parse (J := J) argv fs = (Ret (Parsed c), fs1) →
  (init_logging (log_settings c);; set_log_level (log_level_ c)) fs1 = (Ret tt, fs2) →
  (keep_config (J := J) c (paths.ensure_directories fs2)).1 = Ret tt →
  main (J := J) (D := D) (S := S) hash argv gen t served fs =
    try_catch (result ← run_application (J := J) (D := D) (S := S) hash c gen t served; mret (if result : bool then 0 else 1))
      (λ _, mret 1) (keep_config (J := J) c (paths.ensure_directories fs2)).2.
Proof.
  intros Hp Hi Hk. unfold main, try_catch. unfold mbind at 1, M_bind at 1. rewrite Hp.
  unfold mbind at 1, M_bind at 1 in Hi. unfold mbind at 1, M_bind at 1.
  destruct (init_logging (log_settings c) fs1) as [[[]|e| |] fs1']; try discriminate Hi.
  unfold mbind at 1, M_bind at 1. rewrite Hi. unfold mbind at 1, M_bind at 1. unfold mbind at 1, M_bind at 1.
  destruct (keep_config c (paths.ensure_directories fs2)) as [res fs3]. cbn [fst snd] in *. by subst res.
Qed.
End Facts.

(** ** Properties *)

(** C1: the assembled program, serving any number of requests of any kind at
    once, interleaved step by step in any way with each other and with the
    cleanup thread: no thread has undefined behaviour or fails to end, and a
    request that has ended got the answer its route is due; a lookup was
    refused by the gate for the reason its status names, or answered with the
    text of what the databases at the configured paths say, whatever is
    cached. *)
Theorem application_answers_lookups {J H E D S G} `{JL : JsonLaws J} {JP : JsonPrints J} `{RL : RngLaws G}
    {LM : Libm} {DG : Digest} {RS : Resolver} {MM : MaxMindLib H E} {SQ : Sqlite D S}
    (hash : string → Z) (clock : nat → Z) config keys_file (gen : G) t srv w0 :
  (∀ j : J, safe (json_dump j)) → (∀ s, safe (json_parse s : exec J)) →
  geo_schema (H := H) (E := E) → prepares (D := D) (S := S) → is_i32 (max_requests_per_minute_ config) →
  assemble hash config keys_file gen t = Ret (srv, w0) →
  ∃ city asn oui,
    MaxMindDatabase.create (city_db_path_ config) = Ret city ∧
    MaxMindDatabase.create (asn_db_path_ config) = Ret asn ∧
    (OUIDatabase.create (oui_db_path_ config)).2 = Ret oui ∧
    ∀ es c o, c ∈ calls (execute clock srv es (idle w0)) → ended c o →
      safe o ∧ answer_of srv (database_truth city asn oui) (purpose c) o (response c).
Proof.
  intros Hd Hp Hg Hpr Hm Ha.
  destruct (assembled_ok hash config keys_file gen t srv w0 Hd Hg Hpr Hm Ha)
    as (city & asn & oui & Hc & Has & Ho & Htruth & Hok).
  exists city, asn, oui. split_and!; [done|done|done|]. intros es c o Hin He.
  assert (Hs : in_order (server_ok srv (caches_ok hash city asn oui))
    (λ j o r, safe o ∧ answer_of srv (database_truth city asn oui) j o r) (execute clock srv es (idle w0))).
  { apply execute_in_order; [|by split; [|constructor]]. intros j. by apply program_post. }
  exact (ended_post _ _ _ c o Hs Hin He).
Qed.

(** C20: a first start keeps its configuration: when the named configuration
    file is missing and can be created, [main] leaves a file behind from which
    the next start, given only its path, reads the configuration the first one
    ran with (command-line overrides included; the log file size in whole
    megabytes), however the first run ended; the database paths must still be
    such that [exists] can tell of them. *)
Theorem restart_keeps_configuration {J F H E D S G} `{JL : JsonLaws J, FL : FileSystemLaws F} {EN : Environment}
    `{OL : OptionsLaws} {LG : Spdlog F} {DG : Digest} {MM : MaxMindLib H E} {SQ : Sqlite D S}
    (hash : string → Z) argv1 argv2 (gen : G) t served c r path (fs fs1 fs2 fs3 : F) :
  parse (J := J) argv1 fs = (Ret (Parsed c), fs1) → config_file_ c = path → path ≠ "" →
  (init_logging (log_settings c);; set_log_level (log_level_ c)) fs1 = (Ret tt, fs2) →
  fs_exists path (paths.ensure_directories fs2) = Ret false →
  databases_examinable c (paths.ensure_directories fs2) →
  fs_open_write path (paths.ensure_directories fs2) = Some fs3 → prints_back (J := J) c →
  options_parse create_option_parser argv2 = Ret r →
  (∀ key, contains r key = bool_decide (key = "config")) → as_string r "config" = Ret path →
  let fs' := (main (J := J) (D := D) (S := S) hash argv1 gen t served fs).2 in
  parse (J := J) argv2 fs' = (Ret (Parsed (reloaded c)), fs').
Proof.
  intros Hp Hpath Hne Hi Hex Hdb How Hpb Hr Hcon Hstr.
  assert (Ht : config_typed c) by by eapply parse_typed.
  destruct (save_then_load (J := J) c path _ fs3 Ht Hpb How) as (fs' & Hsave & (text & Hread) & Hexists & Hkept & Hload).
  assert (Hempty : is_empty path = false) by by destruct path.
  assert (Hkeep : keep_config (J := J) c (paths.ensure_directories fs2) = (Ret tt, fs')).
  { unfold keep_config. rewrite Hpath, Hempty. unfold reads, mbind, M_bind. rewrite Hex. by rewrite Hsave. }
  assert (Hmain : (main (J := J) (D := D) (S := S) hash argv1 gen t served fs).2 = fs').
  { rewrite (main_after_start hash argv1 gen t served c fs fs1 fs2) by (done || by rewrite Hkeep).
    rewrite Hkeep. unfold run_application, try_catch, mbind, M_bind. cbn [fst snd].
    by destruct (exec_bind _ _ _ _). }
  cbv zeta. rewrite Hmain. apply parse_Parsed, reloaded_valid in Hp as Hv; [|done].
  assert (Hv' : validate (reloaded c) fs' = Ret tt).
  { apply validate_iff. split; [done|]. refine (Forall_impl _ _ _ Hdb _). eauto. }
  unfold parse, parse_options, try_catch. cbv [pure reads mbind M_bind]. rewrite Hr, Hcon. cbn [mret M_ret bool_decide].
  unfold set_opt. rewrite Hcon, Hstr. simpl.
  unfold read_config_file, with_config_file, with_paths. simpl. rewrite Hempty.
  cbv [reads mbind M_bind]. rewrite Hexists. simpl.
  unfold handle_config_file, file_is_empty. rewrite Hread, newline_not_empty.
  unfold try_catch. rewrite Hload. cbn [fst snd]. rewrite config_only_overrides by done. cbn. by rewrite Hv'.
Qed.

(** C21: exit status 0 means that help was asked for, or that a valid
    configuration was read, every database opened, and the server ran until a
    shutdown was requested and [listen] was stopped; in particular every
    exception and every failed start ends with status 1. *)
Theorem exit_status_sound {J F H E D S G} `{JsonOps J, FileSystem F} {EN : Environment}
    {OP : Options} {LG : Spdlog F} {DG : Digest} {MM : MaxMindLib H E} {SQ : Sqlite D S}
    (hash : string → Z) argv (gen : G) t served (fs fs' : F) status prompt (s : Lifecycle.state) :
  Lifecycle.reachable prompt s → Lifecycle.main s = Lifecycle.Returned served →
  main (J := J) (H := H) (D := D) (S := S) hash argv gen t served fs = (Ret status, fs') →
  (status = 0 ∨ status = 1) ∧
  (status = 0 →
     (∃ fs1, parse (J := J) argv fs = (Ret (Exited 0), fs1)) ∨
     ∃ c fs1 city asn oui, parse (J := J) argv fs = (Ret (Parsed c), fs1) ∧ config_valid c ∧
       MaxMindDatabase.create (H := H) (city_db_path_ c) = Ret city ∧
       MaxMindDatabase.create (H := H) (asn_db_path_ c) = Ret asn ∧
       (OUIDatabase.create (D := D) (S := S) (oui_db_path_ c)).2 = Ret oui ∧
       Lifecycle.shutdown_requested s = true ∧ Lifecycle.stop_called s = true).
Proof.
  intros Hreach Hm Hmain.
  destruct (Lifecycle.returned_sound prompt s served Hreach Hm) as (_ & _ & Hserved).
  unfold main, try_catch in Hmain. unfold mbind at 1, M_bind at 1 in Hmain.
  destruct (parse (J := J) argv fs) as [[[st|c]|e| |] fs1] eqn:Hp.
  - injection Hmain as <- <-. apply parse_Exited in Hp as Hst. subst st. split; [by left|]. eauto.
  - pose proof (parse_Parsed _ _ _ _ Hp) as Hvalid.
    unfold mbind at 1, M_bind at 1 in Hmain.
    destruct (init_logging (log_settings c) fs1) as [[[]|e| |] fs1']; [| |done|done];
      [|injection Hmain as <- <-; by split; [right|]].
    unfold mbind at 1, M_bind at 1 in Hmain.
    destruct (set_log_level (log_level_ c) fs1') as [[[]|e| |] fs2]; [| |done|done];
      [|injection Hmain as <- <-; by split; [right|]].
    unfold mbind at 1, M_bind at 1 in Hmain. unfold mbind at 1, M_bind at 1 in Hmain.
    destruct (keep_config c (paths.ensure_directories fs2)) as [[[]|e| |] fs3]; [| |done|done];
      [|injection Hmain as <- <-; by split; [right|]].
    unfold mbind at 1, M_bind at 1, run_application at 1 in Hmain.
    destruct (assemble hash c _ gen t) as [[srv w]|e| |] eqn:Ha; cbn [mbind exec_bind] in Hmain; [| |done|done];
      [|injection Hmain as <- <-; by split; [right|]].
    apply assemble_inv in Ha as (city & asn & oui & _ & _ & Hc & Has & Ho & _ & _ & Hh & _).
    unfold start in Hmain. cbn [fst] in Hmain. rewrite Hh in Hmain. injection Hmain as <- <-.
    destruct served; [|by split; [right|]]. split; [by left|]. intros _. right.
    exists c, fs1, city, asn, oui. destruct (Hserved eq_refl). by split_and!.
  - injection Hmain as <- <-. by split; [right|].
  - done.
  - done.
Qed.


(** ** Witnesses *)

(** A configuration of files the sample libraries open, kept in [/c.json]. *)
Definition sample_config : ServerConfig :=
  with_paths "/city.mmdb" "/city.mmdb" "/oui.db" "/c.json" "/ip_server.log" default_server_config.

(** A command line with the paths of the sample files. *)
Definition sample_command : ParseResult := {|
  contains key := bool_decide (key ∈ ["config"; "city-db"; "asn-db"; "oui-db"]);
  as_string key := if String.eqb key "config" then Ret "/c.json"
                   else if String.eqb key "oui-db" then Ret "/oui.db" else Ret "/city.mmdb";
  as_u16 _ := Ret 0;
  as_int _ := Ret 0;
  as_size _ := Ret 0
|}.

(** Two requests for one address at once, the second of which may find the
    answer of the first in the cache. *)
Definition two_requests : list event :=
  [Begin (Serve Sample.zigzag "GET" "/lookup" (Sample.request "" "8.8.8.8"));
   Begin (Serve Sample.zigzag "GET" "/lookup" (Sample.request "" "8.8.8.8"))] ++ concat (replicate 12 [Turn 0; Turn 1]).

#[local] Notation sample_assembly := (assemble (JO := Tree.ops (λ _, Ret "{}") (λ _, Ret Tree.Null)) (DG := sample_digest)
  (MM := sample_lib) (SQ := sample_sqlite) (λ _, 5) sample_config None tt 0).
#[local] Notation sample_calls srv w0 :=
  (calls (execute (JO := Tree.ops (λ _, Ret "{}") (λ _, Ret Tree.Null)) (RG := zero_rng) (LM := sample_libm)
     (DG := sample_digest) (RS := sample_resolver) (λ n, Z.of_nat n) srv two_requests (idle w0))).

(** Both are served; what the second is answered is what the databases say. *)
Lemma application_answers_lookups_witness :
  ∃ srv w0 c0 c1, sample_assembly = Ret (srv, w0) ∧ sample_calls srv w0 = [c0; c1] ∧
    sent_status (response c0) = 200 ∧ sent_status (response c1) = 200 ∧
    ∃ city asn oui, answer_of (JO := Tree.ops (λ _, Ret "{}") (λ _, Ret Tree.Null)) (LM := sample_libm) (DG := sample_digest)
      (RS := sample_resolver) srv
      (database_truth (JO := Tree.ops (λ _, Ret "{}") (λ _, Ret Tree.Null)) (MM := sample_lib) (SQ := sample_sqlite) city asn oui)
      (purpose c1) (Ret tt) (response c1).
Proof.
  assert (∃ srv w0 c0 c1, sample_assembly = Ret (srv, w0) ∧ sample_calls srv w0 = [c0; c1] ∧
    sent_status (response c0) = 200 ∧ sent_status (response c1) = 200 ∧ ended c1 (Ret tt))
    as (srv & w0 & c0 & c1 & Ha & Hc & H0 & H1 & He)
    by (do 4 eexists; split; [reflexivity|split_and!; [vm_compute; reflexivity|reflexivity..]]).
  exists srv, w0, c0, c1. split_and!; [exact Ha|exact Hc|exact H0|exact H1|].
  assert (RL : @RngLaws unit zero_rng) by (split; simpl; [lia|done]).
  destruct (application_answers_lookups (JL := tree_laws (λ _, Ret "{}") (λ _, Ret Tree.Null)) (JP := tree_prints "{}" _)
    (RL := RL) (LM := sample_libm) (DG := sample_digest) (RS := sample_resolver)
    (MM := sample_lib) (SQ := sample_sqlite) (λ _, 5) (λ n, Z.of_nat n) sample_config None tt 0 srv w0)
    as (city & asn & oui & _ & _ & _ & Hall).
  - done.
  - done.
  - apply sample_lib_schema.
  - intros d stmt [= <-]. by eexists.
  - unfold is_i32. simpl. lia.
  - exact Ha.
  - exists city, asn, oui. refine (proj2 (Hall two_requests c1 (Ret tt) _ He)). rewrite Hc. by right; left.
Defined.

(** A first start with the sample files, from an empty file system, then one
    with the configuration file alone; printing and parsing are right for the
    configuration that is stored. *)
Definition kept_config : ServerConfig :=
  with_paths "/city.mmdb" "/city.mmdb" "/oui.db" "/c.json" "/root/.config/ip_local/logs/ip_server.log"
    default_server_config.

Definition two_commands : Options := λ _ argv,
  match argv with [_] => Ret config_only | _ => Ret sample_command end.

Lemma two_commands_laws : @OptionsLaws two_commands.
Proof.
  intros specs argv r Hr. assert (r = config_only ∨ r = sample_command) as [->| ->].
  { unfold options_parse, two_commands in Hr. destruct argv as [|x [|y l]]; injection Hr as <-; auto. }
  all: by split; intros key z [= <-]; unfold is_i32, is_u64, u64_max; lia.
Qed.

Definition silent : Spdlog (gmap string string) := {|
  make_sink _ fs := (Ret tt, fs); set_default_logger _ fs := (Ret tt, fs);
  from_str _ := info; set_level _ fs := (Ret tt, fs)
|}.

Lemma restart_keeps_configuration_witness :
  let fs' := (main (J := Tree.tree) (JO := tree_ops kept_config) (FS := map_fs) (EN := sample_env)
     (OP := two_commands) (LG := silent) (DG := sample_digest) (MM := sample_lib) (SQ := sample_sqlite)
     (λ _, 5) ["server"; "--city-db"] tt 0 true ∅).2 in
  parse (H := tree_ops kept_config) (H0 := map_fs) (H1 := sample_env) (H2 := two_commands) ["server"] fs' =
    (Ret (Parsed (reloaded kept_config)), fs').
Proof.
  apply (restart_keeps_configuration (JL := tree_laws _ _) (FL := map_fs_laws) (EN := sample_env)
    (OL := two_commands_laws) (LG := silent) (DG := sample_digest) (MM := sample_lib) (SQ := sample_sqlite)
    (λ _, 5) ["server"; "--city-db"] ["server"] tt 0 true kept_config config_only "/c.json" ∅ ∅ ∅ {["/c.json" := ""]}).
  - vm_compute. reflexivity.
  - reflexivity.
  - discriminate.
  - reflexivity.
  - vm_compute. reflexivity.
  - apply Forall_forall. intros p _ _. by eexists.
  - vm_compute. reflexivity.
  - intros j Hj. exists "{}". split; [reflexivity|]. vm_compute in Hj. injection Hj as <-. vm_compute. reflexivity.
  - reflexivity.
  - reflexivity.
  - reflexivity.
Defined.

Lemma exit_status_sound_witness :
  ∃ s, Lifecycle.main s = Lifecycle.Returned true ∧ Lifecycle.shutdown_requested s = true ∧
    ∃ fs', main (J := Tree.tree) (JO := tree_ops kept_config) (FS := map_fs) (EN := sample_env)
      (OP := two_commands) (LG := silent) (DG := sample_digest) (MM := sample_lib) (SQ := sample_sqlite)
      (λ _, 5) ["server"; "--city-db"] tt 0 true ∅ = (Ret 0, fs').
Proof.
  destruct (clean_run true) as (s & Hs & Hm). exists s. split; [exact Hm|].
  assert (∃ fs', main (J := Tree.tree) (JO := tree_ops kept_config) (FS := map_fs) (EN := sample_env)
      (OP := two_commands) (LG := silent) (DG := sample_digest) (MM := sample_lib) (SQ := sample_sqlite)
      (λ _, 5) ["server"; "--city-db"] tt 0 true ∅ = (Ret 0, fs')) as [fs' Hmain]
    by (eexists; vm_compute; reflexivity).
  split; [|by exists fs'].
  destruct (exit_status_sound (H0 := tree_ops kept_config) (H1 := map_fs) (EN := sample_env)
    (OP := two_commands) (LG := silent) (DG := sample_digest) (MM := sample_lib) (SQ := sample_sqlite)
    (λ _, 5) ["server"; "--city-db"] tt 0 true ∅ fs' 0 true s) as [_ Hok].
  - exact Hs.
  - exact Hm.
  - exact Hmain.
  - destruct (Hok eq_refl) as [[fs1 Hp]|(c & fs1 & city & asn & oui & _ & _ & _ & _ & _ & Hsd & _)]; [|exact Hsd].
    vm_compute in Hp. discriminate Hp.
Defined.

